(* ===== verification/_CoqProject ===== *)
-Q . S2P
Prelude.v
GoJson.v
Protocol.v
State.v
Transport.v
Queue.v
Exchange.v
Broker.v
Channel.v
Connection.v
Invariant.v
Accounting.v
Frame.v
Server.v
Scenario.v
Process.v
Metrics.v
Routing.v
Delivery.v
Session.v
Findings.v
Goroutines.v
Schedules.v
Rely.v
Sections.v
Concurrency.v
Sequential.v
Mutexes.v
LockOrder.v
Progress.v
Bufio.v
JsonText.v
Wire.v
BenchTopology.v
BenchPlacement.v
BenchPlan.v
BenchConfig.v
BenchLatency.v
BenchStats.v
BenchCsv.v
BenchWorker.v
BenchRun.v
BenchPublish.v
BenchSummary.v
BenchSampler.v
BenchEngine.v
BenchProtocol.v
Flags.v
Commands.v
Examples.v
