(* ===== verification/Prelude.v ===== *)
(** * GolangMQ, a verified model of an in-memory message broker

    The repository holds a broker that speaks a line-oriented JSON protocol over TCP
    (packages [broker] and [protocol]), a load generator for it (src/internal/bench),
    the commands that start them (src/cmd) and example clients (src/exampleClients).
    This library models them in Gallina and proves what makes them correct.  Every
    operation is an executable definition; the processes are step relations with
    executable schedules.

    ** The program and its parts

    A client connects; [Server.HandleConnection] registers the connection, runs the
    handshake and serves envelopes until the reader fails, then cleans up.  An
    envelope names a channel: opening and closing channels is handled by the
    connection, everything else by the channel, whose handlers call the broker:
    declare a queue or an exchange, bind, publish, consume, ack, nack.  Publishing
    appends the message to every queue bound with the routing key.  Each queue has a
    goroutine that takes the oldest message, picks a consumer below its prefetch,
    writes the delivery to the consumer's connection through that connection's write
    pump, and puts the message back when the write fails.  A disconnect returns the
    unacknowledged messages of its consumers to the front of their queues.  The
    metrics count what happens; a scrape reads gauges off the state.

    The load generator validates a configuration, resolves it into connections,
    channels with roles and goroutines on channels, declares a fixture on the broker,
    connects, starts consumers, publishers and a sampler, accumulates counters and
    latencies through a warm-up and a measured phase, drains, shuts everything down, and
    reports a CSV row per window and a summary.

    ** The files

    - [Prelude]: integers of fixed width; the state monad [prog] with the outcomes
      done, panicked and blocked; its weakest preconditions [wp]; the [Oracle] class
      for what the Go runtime leaves open (the order of map ranges, the case of a
      [select]); sums over maps; decimal numbers.
    - [GoJson], [Protocol] (src/protocol): JSON values, how [json.Unmarshal] stores
      them in a struct (class [JStruct], one instance per struct with its tags),
      base64 bodies, the messages, constructors and line readers.
    - [State] (the structs of src/broker): records for the structs, one heap per
      struct that is shared through pointers, the log of metric calls, the position
      of each queue's dispatch goroutine; primitive commands.
    - [Transport], [Connection] (src/broker/connection.go), [Queue] (queue.go, consumer.go),
      [Exchange] (exchange.go), [Broker] (broker.go), [Channel] (channel.go): one
      definition per Go function, in the monad, with the calls in the order of the
      code.  [dispatchLoop] is cut at its critical sections ([dispatch_take],
      [dispatch_write], [dispatch_requeue]).
    - [Invariant], [Accounting]: well-formedness of the store, bookkeeping of every
      consumer, the ledger of every queue up to a given defect; every operation
      keeps them and does not panic.
    - [Frame]: relations that all code respects (class [Frame]).
    - [Server] (server.go, metrics.go): [HandleConnection], the scrape, and the
      process as a transition system [step] with the invariant [SysInv].
    - [Scenario]: scripts of actions, sound for [step], that evaluate to reachable
      states.
    - [Process], [Metrics] (metrics.go), [Routing], [Delivery], [Session], [Findings]: the
      theorems about the broker.
    - [Goroutines]: the same functions as the code of their goroutines, cut at every
      lock, unlock, wait and signal; a process of goroutines that interleave at that
      granularity ([tstep], [pstep]).  [Schedules]: executable schedules.  [Rely]: what
      every goroutine may assume of the others and owes them, with the defect of the
      ledger it carries ([debt]).  [Sections]: every function keeps to that.
      [Concurrency]: the theorems about all interleavings.  [Sequential]: the code of a
      handler without interruption is the handler of [Channel] and [Connection], and
      that of a scrape is [Collect].
    - [Mutexes]: the same goroutines with every mutex of the broker, and their
      scheduler.  [LockOrder]: the order of the mutexes and what each protects; a run of
      [Mutexes] is a run of [Goroutines].  [Progress]: goroutines can finish.
    - [Bufio]: [bufio.Writer] over any [io.Writer] (class [Destination]).  [JsonText]:
      the text of JSON, printed and read.  [Wire] (src/protocol/coder-decoder.go, the write
      pump of connection.go): messages as bytes, the lines a reader gets from them.
    - [BenchTopology] (src/internal/bench/config.go, topology.go), [BenchConfig] (the flags
      and warnings of config.go), [BenchLatency] and [BenchStats] (metrics.go),
      [BenchCsv] (csv.go), [BenchWorker] (worker.go), [BenchSummary] (the summary of
      engine.go), [BenchSampler] (its sampler goroutine) and [BenchEngine] ([Run] as a
      program over its calls): the load generator; [BenchPublish]: its publishers as
      interleaved goroutines; [BenchPlacement], [BenchPlan], [BenchRun],
      [BenchProtocol]: its theorems.
    - [Flags]: Go's [flag] package with the values the commands use.  [Commands]
      (src/cmd/benchmark/main.go, src/cmd/broker/main.go).  [Examples]
      (src/exampleClients): the example publisher and consumers as programs over the
      calls of the client library.

    ** What the theorems show

    - [Process]: in every reachable state the ledger of every queue balances (the count
      of messages enqueued is that of messages buffered, acked, dropped and dead-lettered
      plus the in-flight counters), these counters stay within the prefetch, nothing panics, the connection counters
      agree with the table of connections, counters never decrease, envelopes are
      served only on open connections.  A complete [HandleConnection] is a run of the
      transition system, and it terminates on a finite input unless a write blocks.
    - [Routing]: declaring, binding and publishing refine an abstract broker without
      pointers; publishing reaches exactly the bound queues; its errors.
    - [Delivery]: a dispatch section loses and invents no message and takes them in
      order; what ack, nack and consumer registration do on every branch; a disconnect
      puts what its consumers held into the buffers of their queues.
    - [Session]: the handshake refines a reference function of the input lines;
      channel opening and closing; replies on unknown channels; writes by the state of
      the connection; every message survives the wire.
    - [Metrics]: increments and gauges carry the labels of a description that is
      registered once; a scrape sends the state, and no series twice exactly when
      consumers of a queue have different tags.
    - [Concurrency]: under every interleaving of critical sections the ledger is off by
      at most what goroutines in the middle of an operation owe, nothing panics, the
      in-flight counter of a consumer stays within its prefetch and covers the messages it
      holds until a delivery fails, and no set of goroutines deadlocks; a wake-up can be
      lost.  [Sequential] relates the two granularities.
    - [LockOrder], [Progress]: with every mutex explicit and scrapes among the goroutines,
      mutexes are taken in one order and held across no wait for the network, what a
      mutex protects changes only under it, nothing deadlocks, and every goroutine can
      always be brought to the end of its operation; the runs are runs of [Goroutines],
      so the theorems of [Concurrency] hold of them.
    - [Wire]: whatever the destination does, the reader gets an initial segment of the
      messages written, unchanged; a session written by a client is the session the
      broker reads.  [JsonText]: reading what was printed gives it back.
    - [Findings]: where the code departs from what it means to do, each on a state
      that is reached.
    - [BenchPlan]: validation and planning panic only where [make] exceeds the address
      space; every channel and goroutine is
      placed exactly once, balanced or within the caps; roles are carved in order.
    - [BenchLatency], [BenchRun], [BenchWorker]: latency summaries, with percentiles of
      exact rank despite rounding; the accumulators are a function of the history and
      balance; consumers detect duplicates exactly.
    - [BenchPublish]: publishers that share a sequence number publish every number at most
      once, each with its stored send time, and finish, when their budget does not
      overflow and a body can be allocated.
    - [Commands]: exit codes and output streams; every configuration has a command line
      that parses back into it.  [Examples]: the calls of the example
      clients; each delivery is settled once, in order, until the stream ends.
    - [BenchConfig], [BenchCsv], [BenchSummary], [BenchSampler]: a distribution flag binds
      to the axis before it; what reaches the CSV file, on a destination that may fail;
      runs have different names; the rows of the summary, and the rows of the CSV,
      add up to the totals.
    - [BenchProtocol]: whatever the client library, the file system, the clock and the
      context answer, [Run] uses its resources in order, ends its drain, and returns
      with everything closed and joined, unless its buffers cannot be allocated; what a
      returned result implies.

    ** Bounds, fuel and granularity

    [HandleConnection] and [Serve] take a number of turns; a turn consumes an input
    line, so more turns than lines are enough (proved).  The drain of [Run] takes a
    turn per tick until its deadline ([drain_turns], proved enough for a clock that
    does not go back); a buffered write takes at most three turns ([Bufio]), thirteen
    base-36 digits hold 64 bits.  The reader of JSON text takes twice the length of the
    text and one more ([read_fuel_enough]); the loops of the example clients take a turn
    per delivery or per message.  Everything else is structurally recursive.  Delivery tags and channel ids are 16 bits wide, Go's [int]
    and the counters of the load generator 64, and wrap around where the code lets them; the metrics
    of the broker are an unbounded log.  [float64] is IEEE-754 binary64.  The exact
    rank of percentiles is evaluated for up to 4096 samples ([max_exact]).  [make] panics
    on a negative length and beyond 2^48 bytes ([max_alloc], the address space of the
    64-bit targets), for the slices of a plan, the buffers of a run and the body of a
    publisher.

    The broker is modelled at three granularities.  In [Server] a step of the process is
    a critical section of a dispatch goroutine, or a whole handshake, a whole turn of
    [Serve], or a whole clean-up of one connection.  In [Goroutines] a step is a critical
    section, an operation on a lock or a condition variable, or a piece of code between
    them; the mutexes and conditions of queues are explicit, what the mutexes of
    consumers, channels and the broker protect is one section.  In [Mutexes] these are
    operations of their own; a section is then the code between two of them.  In the load generator
    a record call or a sample is one operation, and [Run] is a sequence of calls whose
    answers include what its goroutines did meanwhile.

    ** What is not modelled

    The test helpers (src/tests), which run the program; the client library (another
    repository: its calls and answers are those of [BenchEngine] and [Examples]); the
    Prometheus registry and its HTTP handler; the sockets below [net.Conn], of which a
    connection sees the lines that arrive and a write that succeeds, fails or is never
    answered; the wording of usage texts and log lines.  A scrape is a goroutine of
    [Goroutines] and [Mutexes], and in [Server] a command that reads a state; the channel
    it sends gauges into is always received from.  Reads of fields that no mutex protects (the consumers of a
    channel, the state of a connection) are atomic.  The contexts of [Run] are part of
    the answers of the calls that take them, and running out of memory below the limit
    of [make], as [append] may, is not modelled. *)

From stdpp Require Export base gmap strings list fin_maps pretty sorting.

#[export] Set Warnings "-clear-no-such-hyp".

Declare Scope gomq_scope.
Delimit Scope gomq_scope with gomq.
#[global] Open Scope gomq_scope.
#[global] Open Scope string_scope.
#[global] Open Scope list_scope.
#[global] Open Scope Z_scope.

Create HintDb gomq.

(** ** Machine integers *)

(** Go's [uint16]: arithmetic is modulo [2^16]. *)
Definition u16 (z : Z) : Z := z `mod` 65536.

(** Go's [uint64]. *)
Definition u64 (z : Z) : Z := z `mod` 18446744073709551616.

(** Go's [int64] (and [int] on the 64-bit targets): two's complement. *)
Definition i64 (z : Z) : Z := (z + 9223372036854775808) `mod` 18446744073709551616 - 9223372036854775808.

Definition is_u16 (z : Z) : Prop := 0 ≤ z < 65536.
Definition is_u64 (z : Z) : Prop := 0 ≤ z < 18446744073709551616.
Definition is_i64 (z : Z) : Prop := -9223372036854775808 ≤ z < 9223372036854775808.

Lemma u16_range z : is_u16 (u16 z).
Proof. unfold is_u16, u16. apply Z.mod_pos_bound. lia. Qed.

Lemma u16_id z : is_u16 z → u16 z = z.
Proof. unfold is_u16, u16. apply Z.mod_small. Qed.

Lemma u64_id z : is_u64 z → u64 z = z.
Proof. unfold is_u64, u64. apply Z.mod_small. Qed.

Lemma i64_id z : is_i64 z → i64 z = z.
Proof. unfold is_i64, i64. intros. rewrite Z.mod_small; lia. Qed.

Lemma i64_u64 z : is_i64 z → i64 (u64 z) = z.
Proof.
  unfold is_i64, i64, u64. intros.
  rewrite Zplus_mod_idemp_l, Z.mod_small; lia.
Qed.

#[export] Hint Resolve u16_range : gomq.

(** ** The Go execution monad

    A piece of Go code run by one goroutine, from its call to its return, on a
    shared store of type [S].  [Done] is a normal return, [Panicked] a run-time
    panic (a nil dereference), and [Blocked] a goroutine that waits on a channel
    operation no other goroutine will ever complete; the store is what the code
    left behind when it stopped. *)
Inductive outcome (S A : Type) : Type :=
| Done (a : A) (s : S)
| Blocked (s : S)
| Panicked.
Arguments Done {S A} a s.
Arguments Blocked {S A} s.
Arguments Panicked {S A}.

Definition prog (S A : Type) : Type := S → outcome S A.

#[export] Instance prog_ret {S} : MRet (prog S) := λ A a s, Done a s.
#[export] Instance prog_bind {S} : MBind (prog S) := λ A B f m s,
  match m s with
  | Done a s' => f a s'
  | Blocked s' => Blocked s'
  | Panicked => Panicked
  end.

Definition gets {S A} (f : S → A) : prog S A := λ s, Done (f s) s.
Definition modify {S} (f : S → S) : prog S unit := λ s, Done tt (f s).
Definition panic {S A} : prog S A := λ _, Panicked.
Definition block {S A} : prog S A := λ s, Blocked s.

(** [*p] for a pointer whose target is [o]: nil or dangling panics. *)
Definition deref {S A} (f : S → option A) : prog S A := λ s,
  match f s with Some a => Done a s | None => Panicked end.

(** [for _, x := range l { f(x) }] *)
Fixpoint forM_ {S A} (l : list A) (f : A → prog S unit) : prog S unit :=
  match l with
  | [] => mret tt
  | x :: l' => f x ;; forM_ l' f
  end.

(** [for _, x := range l { ... return v ... }]: the body returns [Some v] when
    it executes the [return v], which leaves the loop. *)
Fixpoint for_return {S A R} (l : list A) (f : A → prog S (option R)) : prog S (option R) :=
  match l with
  | [] => mret None
  | x :: l' =>
      r ← f x;
      match r with Some v => mret (Some v) | None => for_return l' f end
  end.

(** Running a command that is followed by another. *)
Lemma bind_gets {S A B} (f : S → A) (k : A → prog S B) s : (gets f ≫= k) s = k (f s) s.
Proof. done. Qed.

Lemma bind_modify {S B} (f : S → S) (k : unit → prog S B) s : (modify f ≫= k) s = k tt (f s).
Proof. done. Qed.

Lemma bind_deref {S A B} (f : S → option A) (k : A → prog S B) s a :
  f s = Some a → (deref f ≫= k) s = k a s.
Proof. intros E. unfold mbind, prog_bind, deref. by rewrite E. Qed.

Lemma bind_deref_nil {S A B} (f : S → option A) (k : A → prog S B) s :
  f s = None → (deref f ≫= k) s = Panicked.
Proof. intros E. unfold mbind, prog_bind, deref. by rewrite E. Qed.

Lemma bind_Done {S A B} (m : prog S A) (k : A → prog S B) s a s' :
  m s = Done a s' → (m ≫= k) s = k a s'.
Proof. intros E. unfold mbind, prog_bind. by rewrite E. Qed.

Lemma bind_Done_inv {S A B} (m : prog S A) (k : A → prog S B) s b s' :
  (m ≫= k) s = Done b s' → ∃ a s1, m s = Done a s1 ∧ k a s1 = Done b s'.
Proof. unfold mbind, prog_bind. destruct (m s) as [a s1| |]; naive_solver. Qed.

(** ** Weakest preconditions

    [wp m Q B s]: from the store [s], [m] does not panic; if it returns then
    [Q] holds of its result and the store, and if it blocks then [B] holds. *)
Definition wp {S A} (m : prog S A) (Q : A → S → Prop) (B : S → Prop) (s : S) : Prop :=
  match m s with
  | Done a s' => Q a s'
  | Blocked s' => B s'
  | Panicked => False
  end.

Section wp.
Context {S : Type}.

Lemma wp_ret {A} (a : A) (Q : A → S → Prop) B s : Q a s → wp (mret a) Q B s.
Proof. done. Qed.

Lemma wp_bind {A C} (m : prog S A) (f : A → prog S C) Q B s :
  wp m (λ a s', wp (f a) Q B s') B s → wp (m ≫= f) Q B s.
Proof. unfold wp, mbind, prog_bind. by destruct (m s). Qed.

Lemma wp_bind_inv {A C} (m : prog S A) (f : A → prog S C) Q B s :
  wp (m ≫= f) Q B s → wp m (λ a s', wp (f a) Q B s') B s.
Proof. unfold wp, mbind, prog_bind. by destruct (m s). Qed.

Lemma wp_mono {A} (m : prog S A) (Q Q' : A → S → Prop) (B B' : S → Prop) s :
  (∀ a s', Q a s' → Q' a s') → (∀ s', B s' → B' s') → wp m Q B s → wp m Q' B' s.
Proof. unfold wp. destruct (m s); naive_solver. Qed.

Lemma wp_conj {A} (m : prog S A) (Q Q' : A → S → Prop) (B B' : S → Prop) s :
  wp m Q B s → wp m Q' B' s → wp m (λ a s', Q a s' ∧ Q' a s') (λ s', B s' ∧ B' s') s.
Proof. unfold wp. by destruct (m s). Qed.

Lemma wp_Done {A} (m : prog S A) (Q : A → S → Prop) B s a s' : m s = Done a s' → Q a s' → wp m Q B s.
Proof. unfold wp. by intros ->. Qed.

Lemma wp_returns {A} (m : prog S A) (Q : A → S → Prop) s :
  wp m Q (λ _, False) s → ∃ a s', m s = Done a s' ∧ Q a s'.
Proof. unfold wp. destruct (m s); naive_solver. Qed.

Lemma wp_gets {A} (f : S → A) (Q : A → S → Prop) B s : Q (f s) s → wp (gets f) Q B s.
Proof. done. Qed.

Lemma wp_modify (f : S → S) (Q : unit → S → Prop) B s : Q tt (f s) → wp (modify f) Q B s.
Proof. done. Qed.

Lemma wp_deref {A} (f : S → option A) (Q : A → S → Prop) B s a :
  f s = Some a → Q a s → wp (deref f) Q B s.
Proof. unfold wp, deref. by intros ->. Qed.

(** A loop with an invariant indexed by the items already visited. *)
Lemma wp_forM_ind {A} (I : list A → S → Prop) (f : A → prog S unit) B (seen l : list A) s :
  (∀ pre x s', x ∈ l → I pre s' → wp (f x) (λ _, I (pre ++ [x])) B s') →
  I seen s → wp (forM_ l f) (λ _, I (seen ++ l)) B s.
Proof.
  revert seen s. induction l as [|x l IH]; intros seen s Hf HI; simpl.
  { apply wp_ret. by rewrite app_nil_r. }
  apply wp_bind. eapply wp_mono; [| |apply Hf; [set_solver|done]]; [|done].
  intros [] s' HI'. replace (seen ++ x :: l) with ((seen ++ [x]) ++ l) by by rewrite <-app_assoc.
  apply IH; [|done]. intros. apply Hf; [set_solver|done].
Qed.

Lemma wp_forM {A} (I : S → Prop) (f : A → prog S unit) B (l : list A) s :
  (∀ x s', x ∈ l → I s' → wp (f x) (λ _, I) B s') → I s → wp (forM_ l f) (λ _, I) B s.
Proof. intros. by apply (wp_forM_ind (λ _, I)) with (seen := []); auto. Qed.

Lemma wp_for_return {A R} (I : S → Prop) (Q : option R → S → Prop) (f : A → prog S (option R)) B l s :
  (∀ x s', x ∈ l → I s' →
     wp (f x) (λ r s'', match r with Some v => Q (Some v) s'' | None => I s'' end) B s') →
  (∀ s', I s' → Q None s') →
  I s → wp (for_return l f) Q B s.
Proof.
  revert s. induction l as [|x l IH]; intros s Hf HN HI; simpl; [by apply wp_ret, HN|].
  apply wp_bind. eapply wp_mono; [| |apply Hf; [set_solver|done]]; [|done].
  intros [v|] s' H'; simpl; [by apply wp_ret|].
  apply IH; [|done..]. intros. apply Hf; [set_solver|done].
Qed.

(** A scan: the body leaves the store alone on the items it passes over. *)
Lemma wp_scan {A R} (hit : A → R → S → Prop) (miss : A → Prop) (f : A → prog S (option R)) B l s :
  (∀ x, x ∈ l → wp (f x) (λ r s', match r with Some v => hit x v s' | None => s' = s ∧ miss x end) B s) →
  wp (for_return l f) (λ r s', match r with
    | Some v => ∃ x, x ∈ l ∧ hit x v s'
    | None => s' = s ∧ ∀ x, x ∈ l → miss x end) B s.
Proof.
  induction l as [|x l IH]; intros Hf; simpl.
  { apply wp_ret. split; [done|]. intros x Hx. by apply elem_of_nil in Hx. }
  apply wp_bind. eapply wp_mono; [| |apply Hf; set_solver]; [|done].
  intros [v|] s'; simpl; [intros Hv; apply wp_ret; exists x; set_solver|]. intros [-> Hm].
  eapply wp_mono; [| |apply IH; set_solver]; [|done].
  intros [v|] s''; [intros (y & ? & ?); exists y; set_solver|].
  intros [-> Hl]. split; [done|]. intros y [->|Hy]%elem_of_cons; auto.
Qed.
End wp.

(** One step of symbolic execution, and the loop that runs them. *)
Ltac wp_step :=
  lazymatch goal with
  | |- wp (_ ≫= _) _ _ _ => apply wp_bind
  | |- wp (mret _) _ _ _ => apply wp_ret
  | |- wp (gets _) _ _ _ => apply wp_gets
  | |- wp (modify _) _ _ _ => apply wp_modify
  | |- wp (deref _) _ _ _ => eapply wp_deref; [eassumption|]
  end.
Ltac wp_run := repeat (wp_step; cbn beta iota).

(** ** Unspecified choices of the Go runtime

    [range] over a map visits every entry once, in an order the language leaves
    open, and [select] with several ready cases picks one of them.  Both are
    drawn from an oracle, indexed by the number of choices made so far, so that
    two ranges over the same map may visit it in different orders.  Every theorem
    is proved for every oracle. *)
Class Oracle := {
  shuffle : ∀ A : Type, nat → list A → list A;
  shuffle_perm : ∀ (A : Type) (t : nat) (l : list A), shuffle A t l ≡ₚ l;
  coin : nat → bool;
}.
Arguments shuffle {_ A} t l.

(** Two concrete oracles, for evaluation. *)
Definition oracle_id : Oracle :=
  {| shuffle := λ _ _ l, l; shuffle_perm := λ _ _ l, Permutation_refl l; coin := λ _, false |}.

Definition oracle_rev : Oracle :=
  {| shuffle := λ _ _ l, reverse l; shuffle_perm := λ _ _ l, reverse_Permutation l;
     coin := λ _, true |}.

Section shuffle.
Context `{Oracle}.

Lemma elem_of_shuffle {A} t (l : list A) x : x ∈ shuffle t l ↔ x ∈ l.
Proof. by rewrite (shuffle_perm _ t l). Qed.

Lemma NoDup_shuffle {A} t (l : list A) : NoDup (shuffle t l) ↔ NoDup l.
Proof. by rewrite (shuffle_perm _ t l). Qed.

Lemma length_shuffle {A} t (l : list A) : length (shuffle t l) = length l.
Proof. apply Permutation_length, shuffle_perm. Qed.

Lemma shuffle_nil {A} t : shuffle t (@nil A) = [].
Proof. apply Permutation_nil_r, shuffle_perm. Qed.

Lemma shuffle_singleton {A} t (x : A) : shuffle t [x] = [x].
Proof. apply Permutation_singleton_r, shuffle_perm. Qed.
End shuffle.

(** ** Sums over finite maps and counting in logs *)

Definition map_sum `{Countable K} {V} (f : V → Z) (m : gmap K V) : Z :=
  map_fold (λ _ v a, f v + a) 0 m.

Section map_sum.
Context `{Countable K} {V : Type} (f : V → Z).
Implicit Types m : gmap K V.

Lemma map_sum_empty : map_sum f (∅ : gmap K V) = 0.
Proof. apply map_fold_empty. Qed.

Lemma map_sum_insert_None m k v :
  m !! k = None → map_sum f (<[k:=v]> m) = f v + map_sum f m.
Proof. intros. unfold map_sum. rewrite map_fold_insert_L; [done| |done]. intros; lia. Qed.

Lemma map_sum_delete m k v :
  m !! k = Some v → map_sum f (delete k m) = map_sum f m - f v.
Proof.
  intros Hk. unfold map_sum at 2. rewrite (map_fold_delete_L _ _ k v m); [|intros; lia|done].
  fold (map_sum f (delete k m)). lia.
Qed.

Lemma map_sum_update m k v v' :
  m !! k = Some v → map_sum f (<[k:=v']> m) = map_sum f m - f v + f v'.
Proof.
  intros Hk. rewrite <-insert_delete_eq, map_sum_insert_None, (map_sum_delete _ _ v);
    [lia|done|by simplify_map_eq].
Qed.

Lemma map_sum_nonneg m : (∀ k v, m !! k = Some v → 0 ≤ f v) → 0 ≤ map_sum f m.
Proof.
  induction m as [|k v m Hk _ IH] using map_first_key_ind; intros Hf.
  { by rewrite map_sum_empty. }
  rewrite map_sum_insert_None by done.
  assert (0 ≤ f v) by (eapply Hf; by simplify_map_eq).
  assert (0 ≤ map_sum f m); [|lia].
  apply IH. intros k' v' Hk'. eapply (Hf k'). rewrite lookup_insert_ne; [done|congruence].
Qed.
End map_sum.

Lemma concat_fmap_perm {A B} (g : A → list B) (l l' : list A) :
  l ≡ₚ l' → concat (g <$> l) ≡ₚ concat (g <$> l').
Proof. induction 1; simpl; [done|by f_equiv|by rewrite !app_assoc, (Permutation_app_comm (g y))|by etrans]. Qed.

Lemma elem_of_concat {A} (ls : list (list A)) x : x ∈ concat ls ↔ ∃ l, x ∈ l ∧ l ∈ ls.
Proof. induction ls; simpl; set_solver. Qed.

(** Number of occurrences in a log. *)
Fixpoint countZ {A} (P : A → bool) (l : list A) : Z :=
  match l with
  | [] => 0
  | x :: l' => (if P x then 1 else 0) + countZ P l'
  end.

Lemma countZ_app {A} (P : A → bool) l1 l2 : countZ P (l1 ++ l2) = countZ P l1 + countZ P l2.
Proof. induction l1; simpl; lia. Qed.

Lemma countZ_nonneg {A} (P : A → bool) l : 0 ≤ countZ P l.
Proof. induction l as [|x l IH]; simpl; [lia|]. destruct (P x); lia. Qed.

Lemma countZ_ext {A} (P Q : A → bool) l : (∀ x, P x = Q x) → countZ P l = countZ Q l.
Proof. intros HPQ. induction l; simpl; rewrite ?HPQ; lia. Qed.

(** ** Decimal numerals *)

Definition digit_val (a : Ascii.ascii) : option N :=
  let n := Ascii.N_of_ascii a in
  if decide (48 ≤ n ∧ n ≤ 57)%N then Some (n - 48)%N else None.

Fixpoint parse_digits (s : string) (acc : N) : option N :=
  match s with
  | EmptyString => Some acc
  | String a s' =>
      match digit_val a with
      | Some d => parse_digits s' (acc * 10 + d)%N
      | None => None
      end
  end.

(** [strconv.ParseUint(s, 10, 64)] on a literal, without the range check. *)
Definition parse_dec (s : string) : option N :=
  match s with EmptyString => None | _ => parse_digits s 0 end.

Lemma digit_val_pretty x : (x < 10)%N → digit_val (pretty_N_char x) = Some x.
Proof.
  intros Hx. destruct x as [|p]; [done|].
  do 4 (destruct p as [p|p|]; try lia; try done).
Qed.

Lemma parse_digits_pretty_go x s : parse_digits (pretty_N_go x s) 0 = parse_digits s x.
Proof.
  revert s. induction (N.lt_wf_0 x) as [x _ IH]; intros s.
  destruct (decide (x = 0)%N) as [->|Hx]; [by rewrite pretty_N_go_0|].
  rewrite pretty_N_go_step by lia. rewrite IH by (apply N.div_lt; lia). simpl.
  rewrite digit_val_pretty by (apply N.mod_lt; lia). f_equal.
  rewrite N.mul_comm. symmetry. apply N.div_mod. lia.
Qed.

Lemma parse_dec_pretty_N (x : N) : parse_dec (pretty x) = Some x.
Proof.
  unfold pretty, pretty_N. case_decide as Hx; [by subst|].
  pose proof (parse_digits_pretty_go x "") as Hp. unfold parse_dec.
  destruct (pretty_N_go x "") eqn:E; [|done]. simpl in Hp. congruence.
Qed.

Lemma parse_dec_pretty_Z (z : Z) : 0 ≤ z → parse_dec (pretty z) = Some (Z.to_N z).
Proof. intros Hz. destruct z as [|p|p]; [done| |lia]. apply (parse_dec_pretty_N (N.pos p)). Qed.
