(* ===== verification/GoJson.v ===== *)
(** * Go's encoding/json and encoding/base64, as the protocol uses them

    The values a JSON text denotes, how [json.Unmarshal] stores such a value in
    a Go struct (field lookup, null, type errors, the first error is kept and the
    rest of the value is still stored), and the base64 codec that carries
    [[]byte] fields.  Struct types register with the class [JStruct]. *)

From Stdlib Require Import ZArith.
From coqutil Require Byte.
From S2P Require Import Prelude.

#[export] Set Warnings "-register-all".

Abbreviation byte := Byte.byte.
Abbreviation bytes := (list Byte.byte).

(** A JSON value.  Numbers keep their literal, as [json.Unmarshal] does: it is
    converted when it is stored.  Objects keep the order and the duplicates. *)
Inductive json : Type :=
| JNull
| JBool (b : bool)
| JNum (lit : string)
| JStr (s : string)
| JArr (l : list json)
| JObj (l : list (string * json)).

(** ** base64.StdEncoding *)
Module Base64.

Definition alphabet : string :=
  "ABCDEFGHIJKLMNOPQRSTUVWXYZabcdefghijklmnopqrstuvwxyz0123456789+/".

Definition enc_char (d : Z) : Ascii.ascii :=
  default Ascii.zero (String.get (Z.to_nat d) alphabet).

Fixpoint index_of (a : Ascii.ascii) (s : string) (i : Z) : option Z :=
  match s with
  | EmptyString => None
  | String b s' => if decide (a = b) then Some i else index_of a s' (i + 1)
  end.

(** [decodeMap] *)
Definition dec_char (a : Ascii.ascii) : option Z := index_of a alphabet 0.

Definition pad : Ascii.ascii := Ascii.ascii_of_nat 61.
Definition is_newline (a : Ascii.ascii) : bool :=
  bool_decide (a = Ascii.ascii_of_nat 10) || bool_decide (a = Ascii.ascii_of_nat 13).

Definition val (b : byte) : Z := Byte.byte.unsigned b.

(** [EncodeToString] *)
Fixpoint encode (l : bytes) : string :=
  match l with
  | [] => ""
  | [a] =>
      let v := val a * 65536 in
      String (enc_char (v / 262144)) (String (enc_char ((v / 4096) `mod` 64))
        (String pad (String pad "")))
  | [a; b] =>
      let v := val a * 65536 + val b * 256 in
      String (enc_char (v / 262144)) (String (enc_char ((v / 4096) `mod` 64))
        (String (enc_char ((v / 64) `mod` 64)) (String pad "")))
  | a :: b :: c :: l' =>
      let v := val a * 65536 + val b * 256 + val c in
      String (enc_char (v / 262144)) (String (enc_char ((v / 4096) `mod` 64))
        (String (enc_char ((v / 64) `mod` 64)) (String (enc_char (v `mod` 64)) (encode l'))))
  end.

Inductive result : Type :=
| Decoded (l : bytes)
| CorruptInputError (off : Z).

Fixpoint skip_newlines (s : string) (si : Z) : string * Z :=
  match s with
  | String a s' => if is_newline a then skip_newlines s' (si + 1) else (s, si)
  | EmptyString => (s, si)
  end.

(** The bytes of a quantum of 2, 3 or 4 digits. *)
Definition quantum (d : list Z) : bytes :=
  match d with
  | [d0; d1; d2; d3] =>
      let v := d0 * 262144 + d1 * 4096 + d2 * 64 + d3 in
      [Byte.byte.of_Z (v / 65536); Byte.byte.of_Z (v / 256); Byte.byte.of_Z v]
  | [d0; d1; d2] =>
      let v := d0 * 262144 + d1 * 4096 + d2 * 64 in
      [Byte.byte.of_Z (v / 65536); Byte.byte.of_Z (v / 256)]
  | [d0; d1] => [Byte.byte.of_Z ((d0 * 262144 + d1 * 4096) / 65536)]
  | _ => []
  end.

(** After the padding only newlines may follow. *)
Definition finish (s : string) (si : Z) (out : bytes) : result :=
  let '(s', si') := skip_newlines s si in
  match s' with EmptyString => Decoded out | _ => CorruptInputError si' end.

(** [Encoding.Decode]: [dbuf] holds the digits of the current quantum, [si] the
    index of the next input byte, [out] what is decoded so far. *)
Fixpoint decode_from (s : string) (si : Z) (dbuf : list Z) (out : bytes) : result :=
  match s with
  | EmptyString =>
      match dbuf with [] => Decoded out | _ => CorruptInputError (si - Z.of_nat (length dbuf)) end
  | String a s' =>
      match dec_char a with
      | Some d =>
          match dbuf with
          | [_; _; _] => decode_from s' (si + 1) [] (out ++ quantum (dbuf ++ [d]))
          | _ => decode_from s' (si + 1) (dbuf ++ [d]) out
          end
      | None =>
          if is_newline a then decode_from s' (si + 1) dbuf out
          else if decide (a ≠ pad) then CorruptInputError si
          else match dbuf with
          | [_; _] =>
              let '(s2, si2) := skip_newlines s' (si + 1) in
              match s2 with
              | EmptyString => CorruptInputError si2
              | String c s3 =>
                  if decide (c ≠ pad) then CorruptInputError (si2 - 1)
                  else finish s3 (si2 + 1) (out ++ quantum dbuf)
              end
          | [_; _; _] => finish s' (si + 1) (out ++ quantum dbuf)
          | _ => CorruptInputError si
          end
      end
  end.

Definition decode (s : string) : result := decode_from s 0 [] [].

Lemma dec_enc_char d : 0 ≤ d < 64 → dec_char (enc_char d) = Some d.
Proof.
  intros Hd.
  pose proof (List.forallb_forall
    (λ n, bool_decide (dec_char (enc_char (Z.of_nat n)) = Some (Z.of_nat n))) (seq 0 64)) as [H _].
  specialize (H ltac:(by vm_compute) (Z.to_nat d)). rewrite Z2Nat.id in H by lia.
  apply (bool_decide_unpack _), Is_true_true, H, list_elem_of_In, elem_of_seq. lia.
Qed.

Lemma dec_pad : dec_char pad = None.
Proof. done. Qed.

Lemma of_Z_val z b : z `mod` 256 = val b → Byte.byte.of_Z z = b.
Proof. intros Hz. apply Byte.byte.unsigned_inj. rewrite Byte.byte.unsigned_of_Z. exact Hz. Qed.

Lemma val_range b : 0 ≤ val b < 256.
Proof. apply (Byte.byte.unsigned_range b). Qed.

(** The four base64 digits of a 24-bit value. *)
Lemma digits_value v :
  v / 262144 * 262144 + (v / 4096) `mod` 64 * 4096 + (v / 64) `mod` 64 * 64 + v `mod` 64 = v.
Proof.
  assert (v / 4096 = v / 64 / 64) as -> by (by rewrite Z.div_div).
  assert (v / 262144 = v / 64 / 64 / 64) as -> by (by rewrite !Z.div_div).
  pose proof (Z_div_mod_eq_full v 64). pose proof (Z_div_mod_eq_full (v / 64) 64).
  pose proof (Z_div_mod_eq_full (v / 64 / 64) 64). lia.
Qed.

Lemma digits_range v :
  0 ≤ v < 16777216 →
  0 ≤ v / 262144 < 64 ∧ 0 ≤ (v / 4096) `mod` 64 < 64 ∧ 0 ≤ (v / 64) `mod` 64 < 64 ∧ 0 ≤ v `mod` 64 < 64.
Proof.
  intros. split_and!;
    first [apply Z.mod_pos_bound; lia | apply Z.div_pos; lia | apply Z.div_lt_upper_bound; lia].
Qed.

(** The three bytes of a 24-bit value. *)
Lemma bytes_value a b c :
  let v := val a * 65536 + val b * 256 + val c in
  (v / 65536) `mod` 256 = val a ∧ (v / 256) `mod` 256 = val b ∧ v `mod` 256 = val c.
Proof.
  pose proof (val_range a). pose proof (val_range b). pose proof (val_range c). intros v.
  assert (v / 256 = val a * 256 + val b) as E1 by (unfold v; Z.to_euclidean_division_equations; lia).
  assert (v / 65536 = val a) as E2 by (unfold v; Z.to_euclidean_division_equations; lia).
  split_and!.
  - rewrite E2. by apply Z.mod_small.
  - rewrite E1, Z.add_comm, Z.mod_add by lia. by apply Z.mod_small.
  - unfold v. replace (val a * 65536 + val b * 256 + val c) with (val c + (val a * 256 + val b) * 256) by lia.
    rewrite Z.mod_add by lia. by apply Z.mod_small.
Qed.

Lemma list_ind3 {A} (P : list A → Prop) :
  P [] → (∀ a, P [a]) → (∀ a b, P [a; b]) → (∀ a b c l, P l → P (a :: b :: c :: l)) → ∀ l, P l.
Proof.
  intros H0 H1 H2 H3. fix IH 1. intros [|a [|b [|c l]]]; [done|done|done|]. apply H3, IH.
Qed.

(** What [decode_from] does on the characters [encode] produces. *)
Lemma decode_digit d s si dbuf out :
  0 ≤ d < 64 →
  decode_from (String (enc_char d) s) si dbuf out =
    match dbuf with
    | [_; _; _] => decode_from s (si + 1) [] (out ++ quantum (dbuf ++ [d]))
    | _ => decode_from s (si + 1) (dbuf ++ [d]) out
    end.
Proof. intros. cbn [decode_from]. by rewrite dec_enc_char. Qed.

Lemma decode_pad2 d0 d1 si out :
  decode_from (String pad (String pad "")) si [d0; d1] out = Decoded (out ++ quantum [d0; d1]).
Proof. done. Qed.

Lemma decode_pad1 d0 d1 d2 si out :
  decode_from (String pad "") si [d0; d1; d2] out = Decoded (out ++ quantum [d0; d1; d2]).
Proof. done. Qed.

Lemma quantum3 a b c :
  let v := val a * 65536 + val b * 256 + val c in
  quantum [v / 262144; (v / 4096) `mod` 64; (v / 64) `mod` 64; v `mod` 64] = [a; b; c].
Proof.
  intros v. unfold quantum. rewrite digits_value. destruct (bytes_value a b c) as (E1 & E2 & E3).
  by rewrite (of_Z_val _ a), (of_Z_val _ b), (of_Z_val _ c).
Qed.

Lemma quantum2 a b :
  let v := val a * 65536 + val b * 256 in
  quantum [v / 262144; (v / 4096) `mod` 64; (v / 64) `mod` 64] = [a; b].
Proof.
  intros v. unfold quantum. pose proof (digits_value v) as Hv.
  destruct (bytes_value a b Byte.x00) as (E1 & E2 & _).
  assert (v `mod` 64 = 0) as E by (apply Z.mod_divide; [lia|]; exists (val a * 1024 + val b * 4); lia).
  rewrite E, Z.add_0_r in Hv. rewrite Hv. change (val Byte.x00) with 0 in *. rewrite Z.add_0_r in *.
  by rewrite (of_Z_val _ a), (of_Z_val _ b).
Qed.

Lemma quantum1 a :
  let v := val a * 65536 in quantum [v / 262144; (v / 4096) `mod` 64] = [a].
Proof.
  intros v. unfold quantum. pose proof (digits_value v) as Hv.
  destruct (bytes_value a Byte.x00 Byte.x00) as (E1 & _ & _).
  assert (v `mod` 64 = 0) as E by (apply Z.mod_divide; [lia|]; exists (val a * 1024); lia).
  assert ((v / 64) `mod` 64 = 0) as E'.
  { replace v with (val a * 16 * 64 * 64) by lia. rewrite Z.div_mul by lia. apply Z.mod_mul. lia. }
  rewrite E, E', Z.mul_0_l, !Z.add_0_r in Hv. rewrite Hv.
  change (val Byte.x00) with 0 in *. rewrite Z.mul_0_l, !Z.add_0_r in E1.
  f_equal. by apply of_Z_val.
Qed.

(** Decoding what [encode] produces gives the bytes back, from any position. *)
Lemma decode_encode_from l si out : decode_from (encode l) si [] out = Decoded (out ++ l).
Proof.
  revert si out. induction l as [|a|a b|a b c l IH] using list_ind3; intros si out;
    cbn [encode]; cbv zeta.
  - simpl. by rewrite app_nil_r.
  - pose proof (val_range a). destruct (digits_range (val a * 65536)) as (?&?&?&?); [lia|].
    rewrite !decode_digit by done. cbn [app]. by rewrite decode_pad2, quantum1.
  - pose proof (val_range a). pose proof (val_range b).
    destruct (digits_range (val a * 65536 + val b * 256)) as (?&?&?&?); [lia|].
    do 3 (rewrite decode_digit by done; cbn [app]). by rewrite decode_pad1, quantum2.
  - pose proof (val_range a). pose proof (val_range b). pose proof (val_range c).
    destruct (digits_range (val a * 65536 + val b * 256 + val c)) as (?&?&?&?); [lia|].
    do 4 (rewrite decode_digit by done; cbn [app]). by rewrite IH, quantum3, <-app_assoc.
Qed.

Lemma decode_encode l : decode (encode l) = Decoded l.
Proof. apply decode_encode_from. Qed.
End Base64.

(** ** Storing a JSON value in a Go variable *)

(** [UnmarshalTypeError] (what the JSON value was, the Go type) or another error. *)
Inductive jerr : Type :=
| TypeError (value typ : string)
| OtherError (msg : string).

(** A decoder for a Go type updates the variable and may report an error. *)
Definition fdec (V : Type) : Type := json → V → V * option jerr.

Definition kind (j : json) : string :=
  match j with
  | JNull => "null" | JBool _ => "bool" | JNum _ => "number" | JStr _ => "string"
  | JArr _ => "array" | JObj _ => "object"
  end.

Definition mismatch {V} (typ : string) (j : json) (old : V) : V * option jerr :=
  (old, Some (TypeError (kind j) typ)).

Definition dec_string (typ : string) : fdec string := λ j old,
  match j with
  | JNull => (old, None)
  | JStr s => (s, None)
  | _ => mismatch typ j old
  end.

Definition dec_bool : fdec bool := λ j old,
  match j with
  | JNull => (old, None)
  | JBool b => (b, None)
  | _ => mismatch "bool" j old
  end.

(** An unsigned integer below [bound]; the literal must be a plain integer. *)
Definition dec_uint (typ : string) (bound : Z) : fdec Z := λ j old,
  match j with
  | JNull => (old, None)
  | JNum lit =>
      match parse_dec lit with
      | Some n => if decide (Z.of_N n < bound) then (Z.of_N n, None)
                  else (old, Some (TypeError ("number " +:+ lit) typ))
      | None => (old, Some (TypeError ("number " +:+ lit) typ))
      end
  | _ => mismatch typ j old
  end.

(** [strconv.ParseInt(s, 10, 64)] *)
Definition parse_int (s : string) : option Z :=
  let r := match s with
    | String a s' =>
        if decide (a = Ascii.ascii_of_nat 45) then (λ n, - Z.of_N n) <$> parse_dec s'
        else if decide (a = Ascii.ascii_of_nat 43) then Z.of_N <$> parse_dec s'
        else Z.of_N <$> parse_dec s
    | EmptyString => None
    end in
  z ← r; if decide (-9223372036854775808 ≤ z < 9223372036854775808) then Some z else None.

Definition dec_int : fdec Z := λ j old,
  match j with
  | JNull => (old, None)
  | JNum lit =>
      match parse_int lit with
      | Some z => (z, None)
      | None => (old, Some (TypeError ("number " +:+ lit) "int"))
      end
  | _ => mismatch "int" j old
  end.

(** [*bool]: null stores nil; any other value first allocates the target. *)
Definition dec_bool_ptr : fdec (option bool) := λ j old,
  match j with
  | JNull => (None, None)
  | _ => let '(b, e) := dec_bool j (default false old) in (Some b, e)
  end.

(** The elements of a JSON array of numbers stored in a [[]byte]. *)
Fixpoint dec_elems (l : list json) (old : bytes) : bytes * option jerr :=
  match l with
  | [] => ([], None)
  | j :: l' =>
      let '(b, e) := dec_uint "uint8" 256 j (Base64.val (default Byte.x00 (head old))) in
      let '(bs, e') := dec_elems l' (tail old) in
      (Byte.byte.of_Z b :: bs, match e with Some _ => e | None => e' end)
  end.

(** [[]byte]; nil is [None]. *)
Definition dec_bytes : fdec (option bytes) := λ j old,
  match j with
  | JNull => (None, None)
  | JStr s =>
      match Base64.decode s with
      | Base64.Decoded l => (Some l, None)
      | Base64.CorruptInputError off =>
          (old, Some (OtherError ("illegal base64 data at input byte " +:+ pretty off)))
      end
  | JArr l => let '(bs, e) := dec_elems l (default [] old) in (Some bs, e)
  | _ => mismatch "[]uint8" j old
  end.

(** [json.RawMessage] keeps the value; [None] is the nil message. *)
Definition dec_raw : fdec (option json) := λ j _, (Some j, None).

(** ** Structs *)

(** A struct field: its JSON key and how a value is stored in it. *)
Record field (T : Type) := Field {
  f_name : string;
  f_store : json → T → T * option jerr;
}.
Arguments Field {T} _ _.
Arguments f_name {T} _.
Arguments f_store {T} _ _ _.

Definition field_of {T V} (name : string) (dec : fdec V) (get : T → V) (set : V → T → T) : field T :=
  Field name (λ j t, let '(v, e) := dec j (get t) in (set v t, e)).

Definition upper (a : Ascii.ascii) : Ascii.ascii :=
  let n := Ascii.nat_of_ascii a in
  if decide (97 ≤ n ≤ 122)%nat then Ascii.ascii_of_nat (n - 32) else a.

(** Case folding of object keys.  Besides the ASCII letters only the Kelvin sign
    (e2 84 aa) and the long s (c5 bf) fold to an ASCII letter. *)
Fixpoint fold_name (s : string) : string :=
  match s with
  | EmptyString => EmptyString
  | String a s1 =>
      match s1 with
      | String b s2 =>
          if decide (Ascii.nat_of_ascii a = 197 ∧ Ascii.nat_of_ascii b = 191)%nat
          then String (Ascii.ascii_of_nat 83) (fold_name s2)
          else match s2 with
          | String c s3 =>
              if decide (Ascii.nat_of_ascii a = 226 ∧ Ascii.nat_of_ascii b = 132
                         ∧ Ascii.nat_of_ascii c = 170)%nat
              then String (Ascii.ascii_of_nat 75) (fold_name s3)
              else String (upper a) (fold_name s1)
          | EmptyString => String (upper a) (fold_name s1)
          end
      | EmptyString => String (upper a) EmptyString
      end
  end.

(** The field a key selects: the exact name, else the case-folded one. *)
Definition find_field {T} (fs : list (field T)) (key : string) : option (field T) :=
  match List.find (λ f, bool_decide (f_name f = key)) fs with
  | Some f => Some f
  | None => List.find (λ f, bool_decide (fold_name (f_name f) = fold_name key)) fs
  end.

(** What the protocol needs of a struct type: its Go name, its zero value, its
    fields for [Unmarshal] and its object for [Marshal]. *)
Class JStruct (T : Type) := {
  j_type : string;
  j_zero : T;
  j_fields : list (field T);
  j_object : T → list (string * json);
}.

(** [err.Error()] of the decoding errors. *)
Definition field_error (st f : string) (e : jerr) : string :=
  match e with
  | TypeError v t =>
      "json: cannot unmarshal " +:+ v +:+ " into Go struct field " +:+ st +:+ "." +:+ f
        +:+ " of type " +:+ t
  | OtherError m => m
  end.

Definition keep_first (e1 e2 : option string) : option string :=
  match e1 with Some _ => e1 | None => e2 end.

(** [d.object]: keys in order, unknown keys skipped, the first error kept. *)
Fixpoint store_object {T} (st : string) (fs : list (field T)) (kvs : list (string * json)) (t : T)
    (err : option string) : T * option string :=
  match kvs with
  | [] => (t, err)
  | (k, j) :: kvs' =>
      match find_field fs k with
      | Some f =>
          let '(t', e) := f_store f j t in
          store_object st fs kvs' t' (keep_first err (field_error st (f_name f) <$> e))
      | None => store_object st fs kvs' t err
      end
  end.

(** [json.Unmarshal(raw, &t)] for a zero-valued [t]; [None] is a nil slice. *)
Definition Unmarshal {T} `{JStruct T} (raw : option json) : T * option string :=
  match raw with
  | None => (j_zero, Some "unexpected end of JSON input")
  | Some JNull => (j_zero, None)
  | Some (JObj kvs) => store_object (j_type (T:=T)) j_fields kvs j_zero None
  | Some j =>
      (j_zero, Some ("json: cannot unmarshal " +:+ kind j +:+ " into Go value of type protocol."
                       +:+ j_type (T:=T)))
  end.

(** The structs that are only sent need their object alone. *)
Class JEncode (T : Type) := encode_object : T → list (string * json).
#[export] Instance JStruct_JEncode {T} `{JStruct T} : JEncode T := j_object.

(** [json.Marshal(t)], as a value. *)
Definition Marshal {T} `{JEncode T} (t : T) : json := JObj (encode_object t).

Definition enc_uint (z : Z) : json := JNum (pretty z).
Definition enc_bytes (b : option bytes) : json :=
  match b with None => JNull | Some l => JStr (Base64.encode l) end.
(** A field with [omitempty]. *)
Definition omitempty_string (name s : string) : list (string * json) :=
  if decide (s = "") then [] else [(name, JStr s)].

(** ** Decoding what was encoded *)

Lemma dec_uint_enc typ bound z old : 0 ≤ z < bound → dec_uint typ bound (enc_uint z) old = (z, None).
Proof.
  intros. unfold dec_uint, enc_uint. rewrite parse_dec_pretty_Z, Z2N.id by lia.
  by rewrite decide_True by lia.
Qed.

Lemma dec_int_enc z old : 0 ≤ z < 9223372036854775808 → dec_int (enc_uint z) old = (z, None).
Proof.
  intros. unfold dec_int, enc_uint. 
  assert (parse_int (pretty z) = Some z) as ->; [|done].
  pose proof (parse_dec_pretty_Z z ltac:(lia)) as Hp. unfold parse_int.
  destruct (pretty z) as [|a s] eqn:E; [done|].
  assert (digit_val a ≠ None) as Ha by (unfold parse_dec in Hp; simpl in Hp; by destruct (digit_val a)).
  rewrite !decide_False by (by intros ->). rewrite Hp. simpl. rewrite Z2N.id by lia.
  by rewrite decide_True by lia.
Qed.

Lemma dec_bytes_enc b old : dec_bytes (enc_bytes b) old = (b, None).
Proof. destruct b; [|done]. simpl. by rewrite Base64.decode_encode. Qed.
