(* ===== verification/Protocol.v ===== *)
(** * The wire protocol (src/protocol)

    The methods and events of events.go, the handshake messages of headers.go and
    their constructors, each struct with its JSON tags (class [JStruct]), and the
    line-oriented readers of coder-decoder.go. *)

From S2P Require Import Prelude GoJson.

(** ** Text of formatted errors *)

Definition hex_digit (n : nat) : Ascii.ascii :=
  Ascii.ascii_of_nat (if decide (n < 10)%nat then 48 + n else 87 + n)%nat.

(** The [%q] verb on one byte; bytes above 0x7f are kept as they are. *)
Definition quote_char (a : Ascii.ascii) : string :=
  let n := Ascii.nat_of_ascii a in
  let bs c := String (Ascii.ascii_of_nat 92) (String (Ascii.ascii_of_nat c) "") in
  match n with
  | 7 => bs 97 | 8 => bs 98 | 9 => bs 116 | 10 => bs 110
  | 11 => bs 118 | 12 => bs 102 | 13 => bs 114
  | 34 => bs 34 | 92 => bs 92
  | _ =>
      if decide (n < 32 ∨ n = 127)%nat
      then String (Ascii.ascii_of_nat 92) (String (Ascii.ascii_of_nat 120)
             (String (hex_digit (n / 16)) (String (hex_digit (n mod 16)) "")))
      else String a ""
  end%nat.

Fixpoint quote_body (s : string) : string :=
  match s with
  | EmptyString => ""
  | String a s' => quote_char a +:+ quote_body s'
  end.

(** [fmt.Sprintf("%q", s)] *)
Definition quote (s : string) : string :=
  String (Ascii.ascii_of_nat 34) (quote_body s) +:+ String (Ascii.ascii_of_nat 34) "".

(** ** Methods (events.go) *)

Definition Method : Type := string.

Definition BasicPublishType : Method := "basic.publish".
Definition BasicConsumeType : Method := "basic.consume".
Definition BasicAckType : Method := "basic.ack".
Definition BasicNackType : Method := "basic.nack".
Definition BasicDeliverType : Method := "basic.deliver".
Definition BasicConsumeOKType : Method := "basic.consume-ok".
Definition ChannelOpenType : Method := "channel.open".
Definition ChannelCloseType : Method := "channel.close".
Definition ChannelOpenOKType : Method := "channel.open-ok".
Definition ChannelCloseOKType : Method := "channel.close-ok".
Definition QueueDeclareType : Method := "queue.declare".
Definition ExchangeDeclareType : Method := "exchange.declare".
Definition QueueBindType : Method := "queue.bind".
Definition QueueDeclareOKType : Method := "queue.declare-ok".
Definition ExchangeDeclareOKType : Method := "exchange.declare-ok".
Definition QueueBindOKType : Method := "queue.bind-ok".
Definition ErrorType : Method := "error".

(** ** Events (events.go) *)

Record Envelope := mkEnvelope {
  env_ChannelID : Z;
  env_RequestID : Z;
  env_Type : Method;
  env_Payload : option json;
}.

Record ChannelClose := mkChannelClose { ChannelClose_ID : Z }.
Record ChannelOpen := mkChannelOpen { ChannelOpen_ID : Z }.
Record ChannelOpenOK := mkChannelOpenOK { ChannelOpenOK_ID : Z }.
Record ChannelCloseOK := mkChannelCloseOK { ChannelCloseOK_ID : Z }.

Record Publish := mkPublish {
  Publish_Exchange : string;
  Publish_RoutingKey : string;
  Publish_Body : option bytes;
}.

Record Consume := mkConsume { Consume_Queue : string; Consume_ConsumerTag : string }.
Record ConsumeOK := mkConsumeOK { ConsumeOK_ConsumerTag : string }.
Record Ack := mkAck { Ack_DeliveryTag : Z }.
Record Nack := mkNack { Nack_DeliveryTag : Z; Nack_Requeue : option bool }.

Record Deliver := mkDeliver {
  Deliver_DeliveryTag : Z;
  Deliver_Body : option bytes;
  Deliver_Exchange : string;
  Deliver_RoutingKey : string;
  Deliver_ConsumerTag : string;
}.

Record QueueDeclare := mkQueueDeclare {
  QueueDeclare_Name : string;
  QueueDeclare_DeadLetterExchange : string;
  QueueDeclare_DeadLetterRoutingKey : string;
}.

Record QueueDeclareOK := mkQueueDeclareOK { QueueDeclareOK_Name : string }.
Record ExchangeDeclare := mkExchangeDeclare { ExchangeDeclare_Name : string }.
Record ExchangeDeclareOK := mkExchangeDeclareOK { ExchangeDeclareOK_Name : string }.
Record QueueBindOK := mkQueueBindOK { }.

Record QueueBind := mkQueueBind {
  QueueBind_Queue : string;
  QueueBind_Exchange : string;
  QueueBind_RoutingKey : string;
}.

Record Error := mkError { Error_Code : string; Error_Message : string }.

(** [protocol.Error{Message: msg}] *)
Definition error_message (msg : string) : Error := mkError "" msg.

(** ** Handshake messages (headers.go) *)

Definition ProtocolName : string := "GOMQ".
Definition ProtocolVersion : string := "1".
Definition ProtocolHeader : string := ProtocolName +:+ "/" +:+ ProtocolVersion.
Definition ServerName : string := ProtocolName +:+ "-Broker".
Definition AuthMechanismPlain : string := "plain".
Definition TypeConnectionStart : string := "connection.start".
Definition TypeConnectionStartOK : string := "connection.start_ok".
Definition TypeConnectionTune : string := "connection.tune".
Definition TypeConnectionTuneOK : string := "connection.tune_ok".
Definition TypeConnectionOpen : string := "connection.open".
Definition TypeConnectionOpenOK : string := "connection.open_ok".

Record Capabilities := mkCapabilities { Heartbeats : bool }.

Record ConnectionStart := mkConnectionStart {
  Start_Type : string;
  Start_ServerName : string;
  Start_ProtocolVersion : string;
  Start_AuthMechanism : string;
  Start_Capabilities : Capabilities;
}.

Record ConnectionStartOK := mkConnectionStartOK {
  StartOK_Type : string;
  StartOK_ClientName : string;
  StartOK_AuthMechanism : string;
  StartOK_Username : string;
  StartOK_Password : string;
}.

Record ConnectionTune := mkConnectionTune {
  Tune_Type : string;
  Tune_ChannelMax : Z;
  Tune_FrameMax : Z;
  Tune_HeartbeatSec : Z;
}.

Record ConnectionTuneOK := mkConnectionTuneOK {
  TuneOK_Type : string;
  TuneOK_ChannelMax : Z;
  TuneOK_FrameMax : Z;
  TuneOK_HeartbeatSec : Z;
}.

Record ConnectionOpen := mkConnectionOpen { Open_Type : string }.
Record ConnectionOpenOK := mkConnectionOpenOK { OpenOK_Type : string }.

(** ** Constructors (constructors.go) *)

Definition NewConnectionStart : ConnectionStart :=
  mkConnectionStart TypeConnectionStart ServerName ProtocolVersion AuthMechanismPlain
    (mkCapabilities true).

Definition NewConnectionStartOK (clientname username password : string) : ConnectionStartOK :=
  mkConnectionStartOK TypeConnectionStartOK clientname AuthMechanismPlain username password.

Definition NewConnectionTune (channelMax frameMax heartbeatSec : Z) : ConnectionTune :=
  mkConnectionTune TypeConnectionTune channelMax frameMax heartbeatSec.

Definition NewConnectionTuneOK (channelMax frameMax heartbeatSec : Z) : ConnectionTuneOK :=
  mkConnectionTuneOK TypeConnectionTuneOK channelMax frameMax heartbeatSec.

Definition NewConnectionOpen : ConnectionOpen := mkConnectionOpen TypeConnectionOpen.
Definition NewConnectionOpenOK : ConnectionOpenOK := mkConnectionOpenOK TypeConnectionOpenOK.

(** ** JSON representation of the structs (their tags) *)

Abbreviation dec_str := (dec_string "string").
Abbreviation dec_u16 := (dec_uint "uint16" 65536).

#[export] Instance Envelope_json : JStruct Envelope := {|
  j_type := "Envelope";
  j_zero := mkEnvelope 0 0 "" None;
  j_fields := [
    field_of "ChannelID" dec_u16 env_ChannelID (λ v t, mkEnvelope v (env_RequestID t) (env_Type t) (env_Payload t));
    field_of "RequestID" dec_u16 env_RequestID (λ v t, mkEnvelope (env_ChannelID t) v (env_Type t) (env_Payload t));
    field_of "Type" (dec_string "protocol.Method") env_Type
      (λ v t, mkEnvelope (env_ChannelID t) (env_RequestID t) v (env_Payload t));
    field_of "Payload" dec_raw env_Payload
      (λ v t, mkEnvelope (env_ChannelID t) (env_RequestID t) (env_Type t) v)];
  j_object := λ t, [
    ("ChannelID", enc_uint (env_ChannelID t)); ("RequestID", enc_uint (env_RequestID t));
    ("Type", JStr (env_Type t)); ("Payload", default JNull (env_Payload t))];
|}.

#[export] Instance ChannelClose_json : JStruct ChannelClose := {|
  j_type := "ChannelClose";
  j_zero := mkChannelClose 0;
  j_fields := [field_of "id" dec_u16 ChannelClose_ID (λ v _, mkChannelClose v)];
  j_object := λ t, [("id", enc_uint (ChannelClose_ID t))];
|}.

#[export] Instance ChannelOpen_json : JStruct ChannelOpen := {|
  j_type := "ChannelOpen";
  j_zero := mkChannelOpen 0;
  j_fields := [field_of "id" dec_u16 ChannelOpen_ID (λ v _, mkChannelOpen v)];
  j_object := λ t, [("id", enc_uint (ChannelOpen_ID t))];
|}.

#[export] Instance ChannelOpenOK_json : JStruct ChannelOpenOK := {|
  j_type := "ChannelOpenOK";
  j_zero := mkChannelOpenOK 0;
  j_fields := [field_of "id" dec_u16 ChannelOpenOK_ID (λ v _, mkChannelOpenOK v)];
  j_object := λ t, [("id", enc_uint (ChannelOpenOK_ID t))];
|}.

#[export] Instance ChannelCloseOK_json : JStruct ChannelCloseOK := {|
  j_type := "ChannelCloseOK";
  j_zero := mkChannelCloseOK 0;
  j_fields := [field_of "id" dec_u16 ChannelCloseOK_ID (λ v _, mkChannelCloseOK v)];
  j_object := λ t, [("id", enc_uint (ChannelCloseOK_ID t))];
|}.

#[export] Instance Publish_json : JStruct Publish := {|
  j_type := "Publish";
  j_zero := mkPublish "" "" None;
  j_fields := [
    field_of "exchange" dec_str Publish_Exchange
      (λ v t, mkPublish v (Publish_RoutingKey t) (Publish_Body t));
    field_of "routing_key" dec_str Publish_RoutingKey
      (λ v t, mkPublish (Publish_Exchange t) v (Publish_Body t));
    field_of "body" dec_bytes Publish_Body
      (λ v t, mkPublish (Publish_Exchange t) (Publish_RoutingKey t) v)];
  j_object := λ t, [
    ("exchange", JStr (Publish_Exchange t)); ("routing_key", JStr (Publish_RoutingKey t));
    ("body", enc_bytes (Publish_Body t))];
|}.

#[export] Instance Consume_json : JStruct Consume := {|
  j_type := "Consume";
  j_zero := mkConsume "" "";
  j_fields := [
    field_of "queue" dec_str Consume_Queue (λ v t, mkConsume v (Consume_ConsumerTag t));
    field_of "consumer_tag" dec_str Consume_ConsumerTag (λ v t, mkConsume (Consume_Queue t) v)];
  j_object := λ t, [
    ("queue", JStr (Consume_Queue t)); ("consumer_tag", JStr (Consume_ConsumerTag t))];
|}.

#[export] Instance ConsumeOK_json : JStruct ConsumeOK := {|
  j_type := "ConsumeOK";
  j_zero := mkConsumeOK "";
  j_fields := [field_of "consumer_tag" dec_str ConsumeOK_ConsumerTag (λ v _, mkConsumeOK v)];
  j_object := λ t, [("consumer_tag", JStr (ConsumeOK_ConsumerTag t))];
|}.

#[export] Instance Ack_json : JStruct Ack := {|
  j_type := "Ack";
  j_zero := mkAck 0;
  j_fields := [field_of "delivery_tag" dec_u16 Ack_DeliveryTag (λ v _, mkAck v)];
  j_object := λ t, [("delivery_tag", enc_uint (Ack_DeliveryTag t))];
|}.

#[export] Instance Nack_json : JStruct Nack := {|
  j_type := "Nack";
  j_zero := mkNack 0 None;
  j_fields := [
    field_of "delivery_tag" dec_u16 Nack_DeliveryTag (λ v t, mkNack v (Nack_Requeue t));
    field_of "requeue" dec_bool_ptr Nack_Requeue (λ v t, mkNack (Nack_DeliveryTag t) v)];
  j_object := λ t,
    ("delivery_tag", enc_uint (Nack_DeliveryTag t)) ::
    match Nack_Requeue t with Some b => [("requeue", JBool b)] | None => [] end;
|}.

#[export] Instance Deliver_json : JStruct Deliver := {|
  j_type := "Deliver";
  j_zero := mkDeliver 0 None "" "" "";
  j_fields := [
    field_of "delivery_tag" dec_u16 Deliver_DeliveryTag (λ v t,
      mkDeliver v (Deliver_Body t) (Deliver_Exchange t) (Deliver_RoutingKey t) (Deliver_ConsumerTag t));
    field_of "body" dec_bytes Deliver_Body (λ v t,
      mkDeliver (Deliver_DeliveryTag t) v (Deliver_Exchange t) (Deliver_RoutingKey t) (Deliver_ConsumerTag t));
    field_of "exchange" dec_str Deliver_Exchange (λ v t,
      mkDeliver (Deliver_DeliveryTag t) (Deliver_Body t) v (Deliver_RoutingKey t) (Deliver_ConsumerTag t));
    field_of "routing_key" dec_str Deliver_RoutingKey (λ v t,
      mkDeliver (Deliver_DeliveryTag t) (Deliver_Body t) (Deliver_Exchange t) v (Deliver_ConsumerTag t));
    field_of "consumer_tag" dec_str Deliver_ConsumerTag (λ v t,
      mkDeliver (Deliver_DeliveryTag t) (Deliver_Body t) (Deliver_Exchange t) (Deliver_RoutingKey t) v)];
  j_object := λ t, [
    ("delivery_tag", enc_uint (Deliver_DeliveryTag t)); ("body", enc_bytes (Deliver_Body t));
    ("exchange", JStr (Deliver_Exchange t)); ("routing_key", JStr (Deliver_RoutingKey t))]
    ++ omitempty_string "consumer_tag" (Deliver_ConsumerTag t);
|}.

#[export] Instance QueueDeclare_json : JStruct QueueDeclare := {|
  j_type := "QueueDeclare";
  j_zero := mkQueueDeclare "" "" "";
  j_fields := [
    field_of "name" dec_str QueueDeclare_Name (λ v t, mkQueueDeclare v
      (QueueDeclare_DeadLetterExchange t) (QueueDeclare_DeadLetterRoutingKey t));
    field_of "dead_letter_exchange" dec_str QueueDeclare_DeadLetterExchange (λ v t,
      mkQueueDeclare (QueueDeclare_Name t) v (QueueDeclare_DeadLetterRoutingKey t));
    field_of "dead_letter_routing_key" dec_str QueueDeclare_DeadLetterRoutingKey (λ v t,
      mkQueueDeclare (QueueDeclare_Name t) (QueueDeclare_DeadLetterExchange t) v)];
  j_object := λ t, ("name", JStr (QueueDeclare_Name t)) ::
    omitempty_string "dead_letter_exchange" (QueueDeclare_DeadLetterExchange t) ++
    omitempty_string "dead_letter_routing_key" (QueueDeclare_DeadLetterRoutingKey t);
|}.

#[export] Instance QueueDeclareOK_json : JStruct QueueDeclareOK := {|
  j_type := "QueueDeclareOK";
  j_zero := mkQueueDeclareOK "";
  j_fields := [field_of "name" dec_str QueueDeclareOK_Name (λ v _, mkQueueDeclareOK v)];
  j_object := λ t, [("name", JStr (QueueDeclareOK_Name t))];
|}.

#[export] Instance ExchangeDeclare_json : JStruct ExchangeDeclare := {|
  j_type := "ExchangeDeclare";
  j_zero := mkExchangeDeclare "";
  j_fields := [field_of "name" dec_str ExchangeDeclare_Name (λ v _, mkExchangeDeclare v)];
  j_object := λ t, [("name", JStr (ExchangeDeclare_Name t))];
|}.

#[export] Instance ExchangeDeclareOK_json : JStruct ExchangeDeclareOK := {|
  j_type := "ExchangeDeclareOK";
  j_zero := mkExchangeDeclareOK "";
  j_fields := [field_of "name" dec_str ExchangeDeclareOK_Name (λ v _, mkExchangeDeclareOK v)];
  j_object := λ t, [("name", JStr (ExchangeDeclareOK_Name t))];
|}.

#[export] Instance QueueBindOK_json : JStruct QueueBindOK := {|
  j_type := "QueueBindOK"; j_zero := mkQueueBindOK; j_fields := []; j_object := λ _, [];
|}.

#[export] Instance QueueBind_json : JStruct QueueBind := {|
  j_type := "QueueBind";
  j_zero := mkQueueBind "" "" "";
  j_fields := [
    field_of "queue" dec_str QueueBind_Queue
      (λ v t, mkQueueBind v (QueueBind_Exchange t) (QueueBind_RoutingKey t));
    field_of "exchange" dec_str QueueBind_Exchange
      (λ v t, mkQueueBind (QueueBind_Queue t) v (QueueBind_RoutingKey t));
    field_of "routing_key" dec_str QueueBind_RoutingKey
      (λ v t, mkQueueBind (QueueBind_Queue t) (QueueBind_Exchange t) v)];
  j_object := λ t, [
    ("queue", JStr (QueueBind_Queue t)); ("exchange", JStr (QueueBind_Exchange t));
    ("routing_key", JStr (QueueBind_RoutingKey t))];
|}.

#[export] Instance Error_json : JStruct Error := {|
  j_type := "Error";
  j_zero := mkError "" "";
  j_fields := [
    field_of "code" dec_str Error_Code (λ v t, mkError v (Error_Message t));
    field_of "message" dec_str Error_Message (λ v t, mkError (Error_Code t) v)];
  j_object := λ t, [("code", JStr (Error_Code t)); ("message", JStr (Error_Message t))];
|}.

#[export] Instance ConnectionStart_json : JEncode ConnectionStart := λ t, [
  ("type", JStr (Start_Type t)); ("server_name", JStr (Start_ServerName t));
  ("protocol_version", JStr (Start_ProtocolVersion t));
  ("auth_mechanism", JStr (Start_AuthMechanism t));
  ("capabilities", JObj (if Heartbeats (Start_Capabilities t) then [("heartbeats", JBool true)] else []))].

#[export] Instance ConnectionStartOK_json : JStruct ConnectionStartOK := {|
  j_type := "ConnectionStartOK";
  j_zero := mkConnectionStartOK "" "" "" "" "";
  j_fields := [
    field_of "type" dec_str StartOK_Type (λ v t, mkConnectionStartOK v (StartOK_ClientName t)
      (StartOK_AuthMechanism t) (StartOK_Username t) (StartOK_Password t));
    field_of "client_name" dec_str StartOK_ClientName (λ v t, mkConnectionStartOK (StartOK_Type t) v
      (StartOK_AuthMechanism t) (StartOK_Username t) (StartOK_Password t));
    field_of "auth_mechanism" dec_str StartOK_AuthMechanism (λ v t, mkConnectionStartOK (StartOK_Type t)
      (StartOK_ClientName t) v (StartOK_Username t) (StartOK_Password t));
    field_of "username" dec_str StartOK_Username (λ v t, mkConnectionStartOK (StartOK_Type t)
      (StartOK_ClientName t) (StartOK_AuthMechanism t) v (StartOK_Password t));
    field_of "password" dec_str StartOK_Password (λ v t, mkConnectionStartOK (StartOK_Type t)
      (StartOK_ClientName t) (StartOK_AuthMechanism t) (StartOK_Username t) v)];
  j_object := λ t, [
    ("type", JStr (StartOK_Type t)); ("client_name", JStr (StartOK_ClientName t));
    ("auth_mechanism", JStr (StartOK_AuthMechanism t)); ("username", JStr (StartOK_Username t));
    ("password", JStr (StartOK_Password t))];
|}.

#[export] Instance ConnectionTune_json : JEncode ConnectionTune := λ t, [
  ("type", JStr (Tune_Type t)); ("channel_max", enc_uint (Tune_ChannelMax t));
  ("frame_max", enc_uint (Tune_FrameMax t)); ("heartbeat_sec", enc_uint (Tune_HeartbeatSec t))].

#[export] Instance ConnectionTuneOK_json : JStruct ConnectionTuneOK := {|
  j_type := "ConnectionTuneOK";
  j_zero := mkConnectionTuneOK "" 0 0 0;
  j_fields := [
    field_of "type" dec_str TuneOK_Type (λ v t,
      mkConnectionTuneOK v (TuneOK_ChannelMax t) (TuneOK_FrameMax t) (TuneOK_HeartbeatSec t));
    field_of "channel_max" dec_int TuneOK_ChannelMax (λ v t,
      mkConnectionTuneOK (TuneOK_Type t) v (TuneOK_FrameMax t) (TuneOK_HeartbeatSec t));
    field_of "frame_max" dec_int TuneOK_FrameMax (λ v t,
      mkConnectionTuneOK (TuneOK_Type t) (TuneOK_ChannelMax t) v (TuneOK_HeartbeatSec t));
    field_of "heartbeat_sec" dec_int TuneOK_HeartbeatSec (λ v t,
      mkConnectionTuneOK (TuneOK_Type t) (TuneOK_ChannelMax t) (TuneOK_FrameMax t) v)];
  j_object := λ t, [
    ("type", JStr (TuneOK_Type t)); ("channel_max", enc_uint (TuneOK_ChannelMax t));
    ("frame_max", enc_uint (TuneOK_FrameMax t)); ("heartbeat_sec", enc_uint (TuneOK_HeartbeatSec t))];
|}.

#[export] Instance ConnectionOpen_json : JStruct ConnectionOpen := {|
  j_type := "ConnectionOpen";
  j_zero := mkConnectionOpen "";
  j_fields := [field_of "type" dec_str Open_Type (λ v _, mkConnectionOpen v)];
  j_object := λ t, [("type", JStr (Open_Type t))];
|}.

#[export] Instance ConnectionOpenOK_json : JEncode ConnectionOpenOK := λ t,
  [("type", JStr (OpenOK_Type t))].

(** ** Round trips

    [Class Codec]: a struct whose valid values survive the trip over the wire.
    [j_valid] bounds the integer fields to the width of their Go type. *)
Class Codec (T : Type) `{JStruct T} := {
  j_valid : T → Prop;
  codec_roundtrip : ∀ t, j_valid t → Unmarshal (Some (Marshal t)) = (t, None);
}.

Lemma store_object_cons {T} st (fs : list (field T)) k j kvs t f t' :
  find_field fs k = Some f → f_store f j t = (t', None) →
  store_object st fs ((k, j) :: kvs) t None = store_object st fs kvs t' None.
Proof. intros Hf Hs. cbn [store_object]. by rewrite Hf, Hs. Qed.

#[local] Arguments Unmarshal : simpl never.
#[local] Arguments store_object : simpl never.
#[local] Arguments dec_uint : simpl never.
#[local] Arguments dec_int : simpl never.
#[local] Arguments dec_bytes : simpl never.

(** Steps through the fields of a struct whose object lists them all. *)
Ltac codec_field :=
  erewrite store_object_cons;
    [|reflexivity|cbn; rewrite ?dec_uint_enc, ?dec_int_enc, ?dec_bytes_enc by assumption; reflexivity].
Ltac codec_solve :=
  unfold Marshal, encode_object, JStruct_JEncode, Unmarshal;
  cbn [j_fields j_zero j_object j_type]; unfold omitempty_string;
  repeat case_decide; cbn in *; simplify_eq; repeat codec_field; reflexivity.

Definition is_int (z : Z) : Prop := 0 ≤ z < 9223372036854775808.

#[export] Program Instance Envelope_codec : Codec Envelope := {|
  j_valid t := is_u16 (env_ChannelID t) ∧ is_u16 (env_RequestID t) ∧ is_Some (env_Payload t) |}.
Next Obligation. intros [? ? ? [p|]] (?&?&[? ?]); simpl in *; [|done]. codec_solve. Qed.

#[export] Program Instance ChannelOpen_codec : Codec ChannelOpen := {| j_valid t := is_u16 (ChannelOpen_ID t) |}.
Next Obligation. intros [?] ?; simpl in *. codec_solve. Qed.

#[export] Program Instance Publish_codec : Codec Publish := {| j_valid t := True |}.
Next Obligation. intros [? ? ?] ?; simpl in *. codec_solve. Qed.

#[export] Program Instance Consume_codec : Codec Consume := {| j_valid t := True |}.
Next Obligation. intros [? ?] ?; simpl in *. codec_solve. Qed.

#[export] Program Instance Ack_codec : Codec Ack := {| j_valid t := is_u16 (Ack_DeliveryTag t) |}.
Next Obligation. intros [?] ?; simpl in *. codec_solve. Qed.

#[export] Program Instance Nack_codec : Codec Nack := {| j_valid t := is_u16 (Nack_DeliveryTag t) |}.
Next Obligation. intros [? [b|]] ?; simpl in *; codec_solve. Qed.

#[export] Program Instance Deliver_codec : Codec Deliver := {| j_valid t := is_u16 (Deliver_DeliveryTag t) |}.
Next Obligation. intros [? ? ? ? ?] ?; simpl in *; codec_solve. Qed.

#[export] Program Instance QueueDeclare_codec : Codec QueueDeclare := {| j_valid t := True |}.
Next Obligation. intros [? ? ?] ?; simpl in *; codec_solve. Qed.

#[export] Program Instance ExchangeDeclare_codec : Codec ExchangeDeclare := {| j_valid t := True |}.
Next Obligation. intros [?] ?; simpl in *; codec_solve. Qed.

#[export] Program Instance QueueBind_codec : Codec QueueBind := {| j_valid t := True |}.
Next Obligation. intros [? ? ?] ?; simpl in *; codec_solve. Qed.

#[export] Program Instance StartOK_codec : Codec ConnectionStartOK := {| j_valid t := True |}.
Next Obligation. intros [? ? ? ? ?] ?; simpl in *; codec_solve. Qed.

#[export] Program Instance TuneOK_codec : Codec ConnectionTuneOK := {|
  j_valid t := is_int (TuneOK_ChannelMax t) ∧ is_int (TuneOK_FrameMax t) ∧ is_int (TuneOK_HeartbeatSec t) |}.
Next Obligation. intros [? ? ? ?] (?&?&?); simpl in *; codec_solve. Qed.

#[export] Program Instance Open_codec : Codec ConnectionOpen := {| j_valid t := True |}.
Next Obligation. intros [?] ?; simpl in *; codec_solve. Qed.

(** ** Reading lines (coder-decoder.go)

    A line received from the peer: its text without the newline, and what
    [json.Unmarshal] reads in it (the text of a syntax error, or a value). *)
Record line := mkLine { l_text : string; l_json : string + json }.

(** The [bufio.Reader] of a connection: the complete lines the peer sends, then
    the error that ends the stream ([io.EOF] when the peer closed it). *)
Record Reader := mkReader { r_lines : list line; r_end : string }.

(** [r.ReadBytes('\n')] *)
Definition read_line (r : Reader) : (string + line) * Reader :=
  match r_lines r with
  | [] => (inl (r_end r), r)
  | l :: ls => (inr l, mkReader ls (r_end r))
  end.

Definition unmarshal_line {T} `{JStruct T} (l : line) : T * option string :=
  match l_json l with
  | inl err => (j_zero, Some err)
  | inr v => Unmarshal (Some v)
  end.

(** [ReadMessage(r, &t)]: what is stored in [t], and the error. *)
Definition ReadMessage {T} `{JStruct T} (r : Reader) : (T * option string) * Reader :=
  let '(res, r') := read_line r in
  match res with
  | inl err => ((j_zero, Some err), r')
  | inr l => (unmarshal_line l, r')
  end.

(** [ReadProtocolHeader(r)]: a read error is reported as success. *)
Definition ReadProtocolHeader (r : Reader) : option string * Reader :=
  let '(res, r') := read_line r in
  match res with
  | inl _ => (None, r')
  | inr l =>
      if decide (l_text l ≠ ProtocolHeader)
      then (Some ("Not Protocol Header, instead: " +:+ quote (l_text l +:+ String (Ascii.ascii_of_nat 10) "")), r')
      else (None, r')
  end.

(** [ReadEnvelope(r, &env)] *)
Definition ReadEnvelope (r : Reader) : (Envelope * option string) * Reader :=
  let '(res, r') := read_line r in
  match res with
  | inl err => ((j_zero, Some err), r')
  | inr l => (unmarshal_line l, r')
  end.

(** The line a peer sends for a struct. *)
Definition json_line (text : string) (v : json) : line := mkLine text (inr v).
