(* ===== verification/State.v ===== *)
(** * The store of the broker process

    The structs of src/broker as records, one heap per struct type whose values
    are shared through pointers, the calls made on the metrics, and the state of
    the dispatch goroutine of every queue.  Each field has a setter, each heap a
    dereference and an update in the monad of [Prelude].

    A mutex is not part of the store: a critical section is one definition, which
    the step relation of [Server] runs as a unit. *)

From S2P Require Import Prelude GoJson Protocol.

(** Pointers; each heap has its own address space. *)
Abbreviation loc := nat.

(** ** Structs *)

(** queue.go [Message] *)
Record Message := mkMessage {
  m_DeliveryTag : Z;
  m_Body : option bytes;
  m_Exchange : string;
  m_RoutingKey : string;
}.

(** queue.go [Queue]; [consumers map[*Consumer]struct{}] is a set of pointers. *)
Record Queue := mkQueue {
  q_name : string;
  q_messages : list Message;
  q_consumers : gset loc;
  q_nextTag : Z;
  q_dlx : string;
  q_dlxRoutingKey : string;
}.

(** consumer.go [Consumer] (its Go channel [ch] is never used). *)
Record Consumer := mkConsumer {
  c_tag : string;
  c_queue : loc;
  c_channel : loc;
  c_prefetch : Z;
  c_inflight : Z;
  c_inflightTags : gset Z;
  c_pendingMessages : gmap Z Message;
}.

(** exchange.go [Exchange]: routing key, then queue name, to queue. *)
Record Exchange := mkExchange {
  e_name : string;
  e_bindings : gmap string (gmap string loc);
}.

(** channel.go [Channel] *)
Record Channel := mkChannel {
  ch_id : Z;
  ch_conn : loc;
  ch_consumers : gmap string loc;
}.

(** connection.go [ConnectionState] *)
Inductive ConnectionState : Type :=
| StateAwaitProtocolHeader | StateAwaitStartOK | StateAwaitTuneOK | StateAwaitOpen | StateOpen
| StateClosed.

(** connection.go [Connection].  [cn_reader] is its reader, [cn_out] the lines the
    write pump has flushed to the socket, [cn_writeCh] the requests left in the
    write channel, [cn_closed] whether the [closed] channel is closed,
    [cn_pump] whether the goroutine of [writePump] still runs, and [cn_broken] the
    error the next write to the socket returns, if any. *)
Record Connection := mkConnection {
  cn_reader : Reader;
  cn_out : list json;
  cn_channels : gmap Z loc;
  cn_state : ConnectionState;
  cn_writeCh : list json;
  cn_closed : bool;
  cn_pump : bool;
  cn_broken : option string;
}.

(** broker.go [Broker] *)
Record Broker := mkBroker {
  b_queues : gmap string loc;
  b_exchanges : gmap string loc;
}.

(** server.go [ServerConfig] *)
Record ServerConfig := mkServerConfig {
  cfg_ChannelMax : Z;
  cfg_FramesMax : Z;
  cfg_HeartbeatSec : Z;
}.

(** metrics.go: the [Inc] calls on the counters, with their label values. *)
Inductive MetricCall : Type :=
| Published (exchange : string)
| PublishUnroutable (exchange : string)
| PublishErrors
| Enqueued (queue : string)
| Delivered (queue : string)
| DeliverErrors (queue : string)
| Acked (queue : string)
| Nacked (queue requeue : string)
| DeadLettered (queue : string)
| Dropped (queue : string)
| ConnectionsOpened
| ConnectionsClosed
| HandshakeFailures
| ConsumersRegistered (queue : string)
| ConsumersUnregistered (queue : string).

#[export] Instance MetricCall_eq_dec : EqDecision MetricCall.
Proof. solve_decision. Defined.

(** Where the goroutine of [dispatchLoop] is: about to run an iteration, in one
    of its two [cond.Wait]s, between taking a message and the result of its
    delivery, about to put the message back, or blocked for ever in the delivery. *)
Inductive Dispatcher : Type :=
| DRunning
| DWaitMessages
| DWaitConsumer
| DWriting (c : loc) (m : Message)
| DFailed (c : loc) (m : Message)
| DStuck (c : loc) (m : Message).

(** The store.  [w_connections] is the set of server.go's [connections]; [w_tick]
    counts the choices drawn from the oracle. *)
Record World := mkWorld {
  w_broker : Broker;
  w_queue : gmap loc Queue;
  w_exchange : gmap loc Exchange;
  w_consumer : gmap loc Consumer;
  w_channel : gmap loc Channel;
  w_conn : gmap loc Connection;
  w_connections : gset loc;
  w_config : ServerConfig;
  w_metrics : list MetricCall;
  w_dispatch : gmap loc Dispatcher;
  w_tick : nat;
}.

(** ** Setters *)

Definition set_messages (l : list Message) (q : Queue) : Queue :=
  mkQueue (q_name q) l (q_consumers q) (q_nextTag q) (q_dlx q) (q_dlxRoutingKey q).
Definition set_consumers (s : gset loc) (q : Queue) : Queue :=
  mkQueue (q_name q) (q_messages q) s (q_nextTag q) (q_dlx q) (q_dlxRoutingKey q).
Definition set_nextTag (t : Z) (q : Queue) : Queue :=
  mkQueue (q_name q) (q_messages q) (q_consumers q) t (q_dlx q) (q_dlxRoutingKey q).

(** The three fields [mu] guards in a consumer. *)
Definition set_inflight (n : Z) (tags : gset Z) (pend : gmap Z Message) (c : Consumer) : Consumer :=
  mkConsumer (c_tag c) (c_queue c) (c_channel c) (c_prefetch c) n tags pend.

Definition set_out (l : list json) (c : Connection) : Connection :=
  mkConnection (cn_reader c) l (cn_channels c) (cn_state c) (cn_writeCh c) (cn_closed c) (cn_pump c) (cn_broken c).
Definition set_writeCh (l : list json) (c : Connection) : Connection :=
  mkConnection (cn_reader c) (cn_out c) (cn_channels c) (cn_state c) l (cn_closed c) (cn_pump c) (cn_broken c).
Definition set_closed (b : bool) (c : Connection) : Connection :=
  mkConnection (cn_reader c) (cn_out c) (cn_channels c) (cn_state c) (cn_writeCh c) b (cn_pump c) (cn_broken c).
Definition set_pump (b : bool) (c : Connection) : Connection :=
  mkConnection (cn_reader c) (cn_out c) (cn_channels c) (cn_state c) (cn_writeCh c) (cn_closed c) b (cn_broken c).
Definition set_channels (m : gmap Z loc) (c : Connection) : Connection :=
  mkConnection (cn_reader c) (cn_out c) m (cn_state c) (cn_writeCh c) (cn_closed c) (cn_pump c) (cn_broken c).
Definition set_state (s : ConnectionState) (c : Connection) : Connection :=
  mkConnection (cn_reader c) (cn_out c) (cn_channels c) s (cn_writeCh c) (cn_closed c) (cn_pump c) (cn_broken c).
Definition set_reader (r : Reader) (c : Connection) : Connection :=
  mkConnection r (cn_out c) (cn_channels c) (cn_state c) (cn_writeCh c) (cn_closed c) (cn_pump c) (cn_broken c).
Definition set_broken (e : option string) (c : Connection) : Connection :=
  mkConnection (cn_reader c) (cn_out c) (cn_channels c) (cn_state c) (cn_writeCh c) (cn_closed c) (cn_pump c) e.

Definition with_broker (b : Broker) (w : World) : World :=
  mkWorld b (w_queue w) (w_exchange w) (w_consumer w) (w_channel w) (w_conn w) (w_connections w)
    (w_config w) (w_metrics w) (w_dispatch w) (w_tick w).
Definition with_queue (m : gmap loc Queue) (w : World) : World :=
  mkWorld (w_broker w) m (w_exchange w) (w_consumer w) (w_channel w) (w_conn w) (w_connections w)
    (w_config w) (w_metrics w) (w_dispatch w) (w_tick w).
Definition with_exchange (m : gmap loc Exchange) (w : World) : World :=
  mkWorld (w_broker w) (w_queue w) m (w_consumer w) (w_channel w) (w_conn w) (w_connections w)
    (w_config w) (w_metrics w) (w_dispatch w) (w_tick w).
Definition with_consumer (m : gmap loc Consumer) (w : World) : World :=
  mkWorld (w_broker w) (w_queue w) (w_exchange w) m (w_channel w) (w_conn w) (w_connections w)
    (w_config w) (w_metrics w) (w_dispatch w) (w_tick w).
Definition with_channel (m : gmap loc Channel) (w : World) : World :=
  mkWorld (w_broker w) (w_queue w) (w_exchange w) (w_consumer w) m (w_conn w) (w_connections w)
    (w_config w) (w_metrics w) (w_dispatch w) (w_tick w).
Definition with_conn (m : gmap loc Connection) (w : World) : World :=
  mkWorld (w_broker w) (w_queue w) (w_exchange w) (w_consumer w) (w_channel w) m (w_connections w)
    (w_config w) (w_metrics w) (w_dispatch w) (w_tick w).
Definition with_connections (s : gset loc) (w : World) : World :=
  mkWorld (w_broker w) (w_queue w) (w_exchange w) (w_consumer w) (w_channel w) (w_conn w) s
    (w_config w) (w_metrics w) (w_dispatch w) (w_tick w).
Definition with_metrics (l : list MetricCall) (w : World) : World :=
  mkWorld (w_broker w) (w_queue w) (w_exchange w) (w_consumer w) (w_channel w) (w_conn w)
    (w_connections w) (w_config w) l (w_dispatch w) (w_tick w).
Definition with_dispatch (m : gmap loc Dispatcher) (w : World) : World :=
  mkWorld (w_broker w) (w_queue w) (w_exchange w) (w_consumer w) (w_channel w) (w_conn w)
    (w_connections w) (w_config w) (w_metrics w) m (w_tick w).
Definition with_tick (t : nat) (w : World) : World :=
  mkWorld (w_broker w) (w_queue w) (w_exchange w) (w_consumer w) (w_channel w) (w_conn w)
    (w_connections w) (w_config w) (w_metrics w) (w_dispatch w) t.

(** ** Primitive commands *)

Abbreviation M := (prog World).

Definition get_queue (p : loc) : M Queue := deref (λ w, w_queue w !! p).
Definition get_exchange (p : loc) : M Exchange := deref (λ w, w_exchange w !! p).
Definition get_consumer (p : loc) : M Consumer := deref (λ w, w_consumer w !! p).
Definition get_channel (p : loc) : M Channel := deref (λ w, w_channel w !! p).
Definition get_conn (p : loc) : M Connection := deref (λ w, w_conn w !! p).

Definition put_queue (p : loc) (q : Queue) : M unit := modify (λ w, with_queue (<[p := q]> (w_queue w)) w).
Definition put_exchange (p : loc) (e : Exchange) : M unit :=
  modify (λ w, with_exchange (<[p := e]> (w_exchange w)) w).
Definition put_consumer (p : loc) (c : Consumer) : M unit :=
  modify (λ w, with_consumer (<[p := c]> (w_consumer w)) w).
Definition put_channel (p : loc) (c : Channel) : M unit :=
  modify (λ w, with_channel (<[p := c]> (w_channel w)) w).
Definition put_conn (p : loc) (c : Connection) : M unit :=
  modify (λ w, with_conn (<[p := c]> (w_conn w)) w).

(** [m.X.WithLabelValues(...).Inc()] *)
Definition inc (c : MetricCall) : M unit := modify (λ w, with_metrics (w_metrics w ++ [c]) w).

(** [q.cond.Signal()]: wakes the dispatch goroutine if it is in a [Wait]. *)
Definition wake (d : Dispatcher) : Dispatcher :=
  match d with DWaitMessages | DWaitConsumer => DRunning | _ => d end.
Definition signal (p : loc) : M unit :=
  modify (λ w, with_dispatch (alter wake p (w_dispatch w)) w).

Definition set_dispatch (p : loc) (d : Dispatcher) : M unit :=
  modify (λ w, with_dispatch (<[p := d]> (w_dispatch w)) w).

(** [for ... := range m]: the visiting order of a map or of a set of keys. *)
Definition range `{Oracle} {A} (l : list A) : M (list A) := λ w,
  Done (shuffle (w_tick w) l) (with_tick (S (w_tick w)) w).

(** The case a [select] takes when two are ready. *)
Definition toss `{Oracle} : M bool := λ w, Done (coin (w_tick w)) (with_tick (S (w_tick w)) w).

Lemma wp_range `{Oracle} {A} (l : list A) (Q : list A → World → Prop) B w :
  (∀ l', l' ≡ₚ l → Q l' (with_tick (S (w_tick w)) w)) → wp (range l) Q B w.
Proof. intros HQ. apply HQ, shuffle_perm. Qed.

Lemma wp_toss `{Oracle} (Q : bool → World → Prop) B w :
  (∀ b, Q b (with_tick (S (w_tick w)) w)) → wp toss Q B w.
Proof. intros HQ. apply HQ. Qed.
