(* ===== verification/Transport.v ===== *)
(** * Writing to a connection (src/broker/connection.go)

    [send] and the write pump that serves it, [shutdown], and the two functions
    that marshal a message and send it.  A sender waits for the pump's answer, so
    an exchange between the two is one step; what is left of the write channel
    are the requests sent after the pump has gone.

    [io_eq] is what the rest of the broker may rely on: writing touches nothing
    but the output side of connections. *)

From S2P Require Import Prelude GoJson Protocol State.

(** [make(chan writeRequest, 64)] *)
Definition writeCh_cap : nat := 64.

(** [shutdown]: [closeOnce] makes a second call a no-op. *)
Definition shutdown (p : loc) : M unit :=
  c ← get_conn p; put_conn p (set_closed true c).

(** One turn of [writePump] on a received request: [Write] and [Flush] to the
    socket, the answer to the sender, and on an error the deferred [shutdown]. *)
Definition writePump (p : loc) (data : json) : M (option string) :=
  c ← get_conn p;
  match cn_broken c with
  | Some err => put_conn p (set_pump false c);; shutdown p;; mret (Some err)
  | None => put_conn p (set_out (cn_out c ++ [data]) c);; mret None
  end.

Section transport.
Context `{Oracle}.

(** [send].  While [closed] is open the pump runs, and the request is accepted
    and answered.  Afterwards both cases of the sender's [select] are ready as
    long as the write channel has room; a request that enters it is answered if
    the pump is still there and picks it before it sees [closed] itself, and is
    otherwise never answered. *)
Definition send (p : loc) (data : json) : M (option string) :=
  c ← get_conn p;
  if cn_closed c then
    if decide (length (cn_writeCh c) < writeCh_cap)%nat then
      enter ← toss;
      if (enter : bool) then
        picked ← toss;
        if cn_pump c && picked then writePump p data
        else put_conn p (set_pump false (set_writeCh (cn_writeCh c ++ [data]) c));; block
      else mret (Some "connection closed")
    else mret (Some "connection closed")
  else writePump p data.

Definition WriteMessage {T} `{JEncode T} (p : loc) (data : T) : M (option string) :=
  send p (Marshal data).

Definition WriteEnvelope {T} `{JEncode T} (p : loc) (channelID : Z) (envType : Method) (reqID : Z)
    (msg : T) : M (option string) :=
  send p (Marshal (mkEnvelope channelID reqID envType (Some (Marshal msg)))).
End transport.

(** ** What writing leaves alone *)

(** The fields of a connection that other code reads. *)
Definition conn_core (c : Connection) : gmap Z loc * ConnectionState * Reader :=
  (cn_channels c, cn_state c, cn_reader c).

Record io_eq (w w' : World) : Prop := {
  io_broker : w_broker w' = w_broker w;
  io_queue : w_queue w' = w_queue w;
  io_exchange : w_exchange w' = w_exchange w;
  io_consumer : w_consumer w' = w_consumer w;
  io_channel : w_channel w' = w_channel w;
  io_connections : w_connections w' = w_connections w;
  io_config : w_config w' = w_config w;
  io_metrics : w_metrics w' = w_metrics w;
  io_dispatch : w_dispatch w' = w_dispatch w;
  io_conn : conn_core <$> w_conn w' = conn_core <$> w_conn w;
}.

#[export] Instance io_eq_equiv : Equivalence io_eq.
Proof.
  split.
  - intros w. by split.
  - intros w1 w2 []. by split.
  - intros w1 w2 w3 [] []. split; congruence.
Qed.

Lemma io_eq_conn w w' p : io_eq w w' → is_Some (w_conn w !! p) ↔ is_Some (w_conn w' !! p).
Proof.
  intros [_ _ _ _ _ _ _ _ _ Hc].
  apply (f_equal (λ m : gmap loc _, m !! p)) in Hc. rewrite !lookup_fmap in Hc.
  destruct (w_conn w !! p), (w_conn w' !! p); naive_solver.
Qed.

Lemma io_eq_tick w t : io_eq w (with_tick t w).
Proof. by split. Qed.

Lemma io_eq_put_conn w p c c' :
  w_conn w !! p = Some c → conn_core c' = conn_core c →
  io_eq w (with_conn (<[p := c']> (w_conn w)) w).
Proof.
  intros Hc Hcore. split; try done. simpl. rewrite fmap_insert, Hcore.
  apply insert_id. by rewrite lookup_fmap, Hc.
Qed.

Section frame.
Context `{Oracle}.

Lemma wp_shutdown p w c :
  w_conn w !! p = Some c →
  wp (shutdown p) (λ _ w', w' = with_conn (<[p := set_closed true c]> (w_conn w)) w) (λ _, False) w.
Proof. intros. unfold shutdown, get_conn, put_conn. by wp_run. Qed.

(** The complete behaviour of [writePump] and of [send]. *)
Definition pump_post (p : loc) (data : json) (w : World) (c : Connection) (r : option string)
    (w' : World) : Prop :=
  match cn_broken c with
  | Some err => r = Some err ∧ w_conn w' = <[p := set_closed true (set_pump false c)]> (w_conn w)
  | None => r = None ∧ w_conn w' = <[p := set_out (cn_out c ++ [data]) c]> (w_conn w)
  end.

Definition send_post (p : loc) (data : json) (w : World) (c : Connection) (r : option string)
    (w' : World) : Prop :=
  (cn_closed c = true ∧ r = Some "connection closed" ∧ w_conn w' = w_conn w) ∨
  ((cn_closed c = false ∨ cn_pump c = true) ∧ pump_post p data w c r w').

Definition send_blocks (p : loc) (data : json) (w : World) (c : Connection) (w' : World) : Prop :=
  cn_closed c = true ∧ (length (cn_writeCh c) < writeCh_cap)%nat ∧
  w_conn w' = <[p := set_pump false (set_writeCh (cn_writeCh c ++ [data]) c)]> (w_conn w).

Lemma wp_writePump p data w c :
  w_conn w !! p = Some c →
  wp (writePump p data) (λ r w', pump_post p data w c r w' ∧ io_eq w w') (λ _, False) w.
Proof.
  intros Hc. unfold writePump, get_conn, put_conn, pump_post. wp_run. destruct (cn_broken c) as [err|].
  - wp_run. unfold shutdown, get_conn, put_conn. wp_run.
    eapply wp_deref; [simpl; by rewrite lookup_insert_eq|]. wp_run.
    unfold with_conn; simpl. rewrite insert_insert_eq. split; [done|].
    by eapply (io_eq_put_conn w).
  - wp_run. split; [done|]. by eapply io_eq_put_conn.
Qed.

Lemma wp_send p data w c :
  w_conn w !! p = Some c →
  wp (send p data) (λ r w', send_post p data w c r w' ∧ io_eq w w')
    (λ w', send_blocks p data w c w' ∧ io_eq w w') w.
Proof.
  intros Hc. unfold send, get_conn, put_conn, send_post, send_blocks. wp_run.
  destruct (cn_closed c) eqn:Hcl.
  - case_decide; [|wp_run; by split; [left|]].
    wp_step. apply wp_toss. intros []; [|wp_run; split; [by left|apply io_eq_tick]].
    wp_step. apply wp_toss. intros b. set (w2 := with_tick _ (with_tick _ w)).
    assert (io_eq w w2) as H2 by (by split). destruct (cn_pump c && b) eqn:Hb.
    + apply andb_true_iff in Hb as [? _].
      eapply wp_mono; [| |apply (wp_writePump p data w2 c Hc)]; [|done].
      intros r w' [? ?]. split; [by right; auto|by etrans].
    + wp_run. unfold wp, block. split; [done|]. etrans; [exact H2|]. by eapply (io_eq_put_conn w2).
  - eapply wp_mono; [| |by apply wp_writePump]; [|done]. intros r w' [? ?]. auto.
Qed.

Lemma wp_send_frame p data w :
  is_Some (w_conn w !! p) → wp (send p data) (λ _, io_eq w) (io_eq w) w.
Proof. intros [c Hc]. eapply wp_mono; [| |by apply wp_send]; naive_solver. Qed.

Lemma wp_WriteEnvelope_frame {T} `{JEncode T} p id ty req (msg : T) w :
  is_Some (w_conn w !! p) → wp (WriteEnvelope p id ty req msg) (λ _, io_eq w) (io_eq w) w.
Proof. apply wp_send_frame. Qed.
End frame.
