(* ===== verification/Queue.v ===== *)
(** * Queues and consumers (src/broker/queue.go, src/broker/consumer.go)

    [NewQueue], registering and unregistering a consumer, [enqueue], the choice of
    a consumer with a free slot, and [dispatchLoop] cut at its critical sections:
    taking a message, writing it, and putting it back after a failed write.

    The second half gives each operation's effect on the store exactly. *)

From S2P Require Import Prelude GoJson Protocol State Transport.

(** consumer.go: [prefetch: 10] *)
Definition prefetch : Z := 10.

(** [NewConsumer]: the default tag counts the consumers of the channel. *)
Definition NewConsumer (tag : string) (queue chp : loc) (ch : Channel) : Consumer :=
  let tag' :=
    if decide (tag = "") then
      "ch." +:+ pretty (ch_id ch) +:+ ".consumer." +:+ pretty (Z.of_nat (size (ch_consumers ch)) + 1)
    else tag in
  mkConsumer tag' queue chp prefetch 0 ∅ ∅.

(** [NewQueue]: a fresh queue, with its dispatch goroutine started. *)
Definition NewQueue (name dlx dlxRoutingKey : string) : M loc :=
  p ← gets (λ w, fresh (dom (w_queue w)));
  put_queue p (mkQueue name [] ∅ 1 dlx dlxRoutingKey);;
  set_dispatch p DRunning;;
  mret p.

Definition registerConsumer (p c : loc) : M unit :=
  q ← get_queue p;
  put_queue p (set_consumers (q_consumers q ∪ {[c]}) q);;
  signal p.

(** The loop body of [unregisterConsumer]: the message goes to the front. *)
Definition requeue_pending (p c : loc) (msg : Message) : M unit :=
  q ← get_queue p;
  put_queue p (set_messages (msg :: q_messages q) q);;
  co ← get_consumer c;
  put_consumer c (set_inflight (c_inflight co - 1) (c_inflightTags co ∖ {[m_DeliveryTag msg]})
                    (c_pendingMessages co) co).

Definition enqueue (p : loc) (msg : Message) : M unit :=
  q ← get_queue p;
  inc (Enqueued (q_name q));;
  put_queue p (set_messages (q_messages q ++ [msg]) q);;
  signal p.

(** [dispatchLoop], after a failed write: the message goes back to the front. *)
Definition dispatch_requeue (p c : loc) (msg : Message) : M unit :=
  q ← get_queue p;
  put_queue p (set_messages (msg :: q_messages q) q);;
  co ← get_consumer c;
  put_consumer c (set_inflight (c_inflight co - 1) (c_inflightTags co ∖ {[m_DeliveryTag msg]})
                    (delete (m_DeliveryTag msg) (c_pendingMessages co)) co);;
  set_dispatch p DRunning.

(** The [basic.deliver] payload of a message. *)
Definition deliver_of (msg : Message) (tag : string) : Deliver :=
  mkDeliver (m_DeliveryTag msg) (m_Body msg) (m_Exchange msg) (m_RoutingKey msg) tag.

Section queue.
Context `{Oracle}.

Definition unregisterConsumer (p c : loc) : M unit :=
  q ← get_queue p;
  if decide (c ∈ q_consumers q) then
    put_queue p (set_consumers (q_consumers q ∖ {[c]}) q);;
    co ← get_consumer c;
    pending ← range (map_to_list (c_pendingMessages co));
    forM_ pending (λ '(_, msg), requeue_pending p c msg);;
    co' ← get_consumer c;
    put_consumer c (set_inflight (c_inflight co') (c_inflightTags co') ∅ co');;
    inc (ConsumersUnregistered (q_name q));;
    signal p
  else mret tt.

Definition selectConsumer (p : loc) : M (option loc) :=
  q ← get_queue p;
  cs ← range (elements (q_consumers q));
  for_return cs (λ c,
    co ← get_consumer c;
    mret (if decide (c_inflight co < c_prefetch co) then Some c else None)).

(** [dispatchLoop] from [q.mu.Lock()] to the unlock before the write, or to one
    of its [cond.Wait]s. *)
Definition dispatch_take (p : loc) : M unit :=
  q ← get_queue p;
  match q_messages q with
  | [] => set_dispatch p DWaitMessages
  | msg :: rest =>
      consumer ← selectConsumer p;
      match consumer with
      | None => set_dispatch p DWaitConsumer
      | Some c =>
          put_queue p (set_messages rest q);;
          co ← get_consumer c;
          put_consumer c (set_inflight (c_inflight co + 1)
            (c_inflightTags co ∪ {[m_DeliveryTag msg]})
            (<[m_DeliveryTag msg := msg]> (c_pendingMessages co)) co);;
          set_dispatch p (DWriting c msg)
      end
  end.

(** The write of [basic.deliver] and what follows it outside the lock. *)
Definition dispatch_write (p c : loc) (msg : Message) : M unit :=
  q ← get_queue p;
  co ← get_consumer c;
  ch ← get_channel (c_channel co);
  err ← WriteEnvelope (ch_conn ch) (ch_id ch) BasicDeliverType 0 (deliver_of msg (c_tag co));
  match err with
  | Some _ => inc (DeliverErrors (q_name q));; set_dispatch p (DFailed c msg)
  | None => inc (Delivered (q_name q));; set_dispatch p DRunning
  end.

(** The next section of the dispatch goroutine of [p]; in a [Wait] it has none. *)
Definition dispatch_section (p : loc) : M unit :=
  d ← deref (λ w, w_dispatch w !! p);
  match d with
  | DRunning => dispatch_take p
  | DWriting c msg => dispatch_write p c msg
  | DFailed c msg => dispatch_requeue p c msg
  | DWaitMessages | DWaitConsumer | DStuck _ _ => block
  end.

(** One undisturbed iteration of [dispatchLoop]. *)
Definition dispatch_iteration (p : loc) : M unit :=
  dispatch_take p;;
  d ← deref (λ w, w_dispatch w !! p);
  match d with
  | DWriting c msg =>
      dispatch_write p c msg;;
      d' ← deref (λ w, w_dispatch w !! p);
      match d' with
      | DFailed c' msg' => dispatch_requeue p c' msg'
      | _ => mret tt
      end
  | _ => mret tt
  end.
End queue.

(** ** Exact effects *)

Definition upd_queue (p : loc) (q : Queue) (w : World) : World :=
  with_queue (<[p := q]> (w_queue w)) w.
Definition upd_consumer (c : loc) (co : Consumer) (w : World) : World :=
  with_consumer (<[c := co]> (w_consumer w)) w.
Definition upd_dispatch (p : loc) (d : Dispatcher) (w : World) : World :=
  with_dispatch (<[p := d]> (w_dispatch w)) w.
Definition logged (m : MetricCall) (w : World) : World := with_metrics (w_metrics w ++ [m]) w.
Definition signalled (p : loc) (w : World) : World :=
  with_dispatch (alter wake p (w_dispatch w)) w.
Definition ticked (w : World) : World := with_tick (S (w_tick w)) w.

(** A consumer after a message was handed to it, and after it was taken away. *)
Definition took (msg : Message) (co : Consumer) : Consumer :=
  set_inflight (c_inflight co + 1) (c_inflightTags co ∪ {[m_DeliveryTag msg]})
    (<[m_DeliveryTag msg := msg]> (c_pendingMessages co)) co.
Definition released (t : Z) (co : Consumer) : Consumer :=
  set_inflight (c_inflight co - 1) (c_inflightTags co ∖ {[t]}) (delete t (c_pendingMessages co)) co.

Ltac unfold_prims :=
  unfold get_queue, get_consumer, get_exchange, get_channel, get_conn, put_queue, put_consumer,
    put_exchange, put_channel, put_conn, inc, signal, set_dispatch.

(** Updating with what is there changes nothing. *)
Lemma upd_queue_id p q w : w_queue w !! p = Some q → upd_queue p q w = w.
Proof. intros. unfold upd_queue. rewrite insert_id by done. by destruct w. Qed.

Lemma upd_consumer_id c co w : w_consumer w !! c = Some co → upd_consumer c co w = w.
Proof. intros. unfold upd_consumer. rewrite insert_id by done. by destruct w. Qed.

Lemma set_messages_id q : set_messages (q_messages q) q = q.
Proof. by destruct q. Qed.

Lemma set_inflight_id co :
  set_inflight (c_inflight co) (c_inflightTags co) (c_pendingMessages co) co = co.
Proof. by destruct co. Qed.

Section effects.
Context `{Oracle}.

Lemma wp_enqueue p msg w q :
  w_queue w !! p = Some q →
  wp (enqueue p msg) (λ _ w', w' = signalled p (upd_queue p (set_messages (q_messages q ++ [msg]) q)
                                     (logged (Enqueued (q_name q)) w))) (λ _, False) w.
Proof. intros. unfold enqueue; unfold_prims. by wp_run. Qed.

Lemma wp_registerConsumer p c w q :
  w_queue w !! p = Some q →
  wp (registerConsumer p c)
    (λ _ w', w' = signalled p (upd_queue p (set_consumers (q_consumers q ∪ {[c]}) q) w)) (λ _, False) w.
Proof. intros. unfold registerConsumer; unfold_prims. by wp_run. Qed.

Lemma wp_dispatch_requeue p c msg w q co :
  w_queue w !! p = Some q → w_consumer w !! c = Some co →
  wp (dispatch_requeue p c msg)
    (λ _ w', w' = upd_dispatch p DRunning (upd_consumer c (released (m_DeliveryTag msg) co)
                   (upd_queue p (set_messages (msg :: q_messages q) q) w))) (λ _, False) w.
Proof. intros. unfold dispatch_requeue; unfold_prims. by wp_run. Qed.

(** [selectConsumer] changes nothing and finds a registered consumer with a free
    slot whenever there is one. *)
Lemma wp_selectConsumer p w q :
  w_queue w !! p = Some q →
  (∀ c, c ∈ q_consumers q → is_Some (w_consumer w !! c)) →
  wp (selectConsumer p) (λ r w', w' = ticked w ∧
    match r with
    | Some c => ∃ co, c ∈ q_consumers q ∧ w_consumer w !! c = Some co ∧ c_inflight co < c_prefetch co
    | None => ∀ c co, c ∈ q_consumers q → w_consumer w !! c = Some co → c_prefetch co ≤ c_inflight co
    end) (λ _, False) w.
Proof.
  intros Hq Hcs. unfold selectConsumer; unfold_prims. wp_run. apply wp_range. intros l Hl.
  assert (∀ c, c ∈ l ↔ c ∈ q_consumers q) as Hin by (intros; by rewrite Hl, elem_of_elements).
  clear Hl.
  eapply wp_mono with (Q := λ r w', w' = ticked w ∧ match r with
    | Some c => ∃ co, c ∈ q_consumers q ∧ w_consumer w !! c = Some co ∧ c_inflight co < c_prefetch co
    | None => ∀ c co, c ∈ l → w_consumer w !! c = Some co → c_prefetch co ≤ c_inflight co
    end) (B := λ _, False); [|done|].
  { intros [c|] w' [-> Hr]; (split; [done|]); [done|]. intros c co Hc. apply Hr. by apply Hin. }
  assert (∀ c, c ∈ l → c ∈ q_consumers q) as Hsub by naive_solver. clear Hin.
  change (with_tick (S (w_tick w)) w) with (ticked w).
  induction l as [|c l IH]; cbn [for_return].
  { wp_run. split; [done|]. intros c co Hc. by apply elem_of_nil in Hc. }
  destruct (Hcs c) as [co Hco]; [apply Hsub; set_solver|].
  wp_step. wp_step. eapply wp_deref; [exact Hco|]. wp_run. case_decide as Hfree.
  { wp_run. split; [done|]. exists co. split_and!; [apply Hsub; set_solver|done..]. }
  eapply wp_mono; [| |apply IH; set_solver]; [|done]. intros [c'|] w' [-> Hr]; split; [done..|].
  intros c' co' [->|Hc']%elem_of_cons Hco'; [simplify_eq; lia|eauto].
Qed.

(** [dispatch_take]: waits on an empty queue or when every consumer is full, and
    otherwise moves the oldest message to a consumer that has a free slot. *)
Definition take_post (p : loc) (w : World) (q : Queue) (w' : World) : Prop :=
  match q_messages q with
  | [] => w' = upd_dispatch p DWaitMessages w
  | msg :: rest =>
      (w' = upd_dispatch p DWaitConsumer (ticked w) ∧
         ∀ c co, c ∈ q_consumers q → w_consumer w !! c = Some co → c_prefetch co ≤ c_inflight co) ∨
      ∃ c co, c ∈ q_consumers q ∧ w_consumer w !! c = Some co ∧ c_inflight co < c_prefetch co ∧
        w' = upd_dispatch p (DWriting c msg) (upd_consumer c (took msg co)
               (upd_queue p (set_messages rest q) (ticked w)))
  end.

Lemma wp_dispatch_take p w q :
  w_queue w !! p = Some q →
  (∀ c, c ∈ q_consumers q → is_Some (w_consumer w !! c)) →
  wp (dispatch_take p) (λ _, take_post p w q) (λ _, False) w.
Proof.
  intros Hq Hcs. unfold dispatch_take, take_post; unfold_prims. wp_run.
  destruct (q_messages q) as [|msg rest]; [by wp_run|]. wp_step.
  eapply wp_mono; [| |by apply wp_selectConsumer]; [|done].
  intros [c|] w' [-> Hr].
  - destruct Hr as (co & ? & Hco & ?). wp_run. right. by exists c, co.
  - wp_run. by left.
Qed.

(** The requeued messages stand in the order of the range, last first. *)
Lemma wp_requeue_loop p c (l : list (Z * Message)) w q co :
  w_queue w !! p = Some q → w_consumer w !! c = Some co →
  wp (forM_ l (λ '(_, msg), requeue_pending p c msg))
    (λ _ w', ∃ tags,
      w' = upd_consumer c (set_inflight (c_inflight co - Z.of_nat (length l)) tags (c_pendingMessages co) co)
             (upd_queue p (set_messages (reverse l.*2 ++ q_messages q) q) w) ∧
      ∀ t, t ∈ tags ↔ t ∈ c_inflightTags co ∧ t ∉ m_DeliveryTag <$> l.*2) (λ _, False) w.
Proof.
  revert w q co. induction l as [|[t msg] l IH]; intros w q co Hq Hco; cbn [forM_].
  - wp_run. exists (c_inflightTags co). split; [|set_solver].
    simpl. rewrite Z.sub_0_r, set_inflight_id, set_messages_id, upd_queue_id by done.
    by rewrite upd_consumer_id.
  - wp_step. unfold requeue_pending; unfold_prims. wp_run.
    eapply wp_mono; [| |apply IH; simpl; by simplify_map_eq]; [|done].
    intros [] w' (tags & -> & Htags). exists tags. split.
    + unfold upd_consumer, upd_queue, with_consumer, with_queue; simpl.
      rewrite !insert_insert_eq. f_equal; f_equal.
      * by rewrite reverse_cons, <-app_assoc.
      * unfold set_inflight; simpl. f_equal. lia.
    + intros t'. rewrite Htags. simpl. set_solver.
Qed.

(** [unregisterConsumer]: every pending message returns to the queue. *)
Definition unregister_post (p c : loc) (w : World) (q : Queue) (co : Consumer) (w' : World) : Prop :=
  ∃ msgs tags,
    msgs ≡ₚ (map_to_list (c_pendingMessages co)).*2 ∧
    (∀ t, t ∈ tags ↔ t ∈ c_inflightTags co ∧ t ∉ m_DeliveryTag <$> msgs) ∧
    w' = signalled p (logged (ConsumersUnregistered (q_name q))
          (upd_consumer c (set_inflight (c_inflight co - Z.of_nat (length msgs)) tags ∅ co)
            (upd_queue p (set_messages (msgs ++ q_messages q)
                            (set_consumers (q_consumers q ∖ {[c]}) q)) (ticked w)))).

Lemma wp_unregisterConsumer p c w q co :
  w_queue w !! p = Some q → w_consumer w !! c = Some co →
  wp (unregisterConsumer p c)
    (λ _ w', if decide (c ∈ q_consumers q) then unregister_post p c w q co w' else w' = w)
    (λ _, False) w.
Proof.
  intros Hq Hco. unfold unregisterConsumer; unfold_prims. wp_run.
  case_decide; [|by wp_run]. wp_run. apply wp_range. intros l Hl. wp_step.
  eapply wp_mono; [| |eapply wp_requeue_loop; simpl; [by simplify_map_eq|done]]; [|done].
  intros [] w' (tags & -> & Htags). wp_step. eapply wp_deref; [simpl; by simplify_map_eq|].
  wp_run. exists (reverse l.*2), tags. split_and!.
  - rewrite reverse_Permutation. by rewrite Hl.
  - intros t. rewrite Htags. by rewrite (reverse_Permutation l.*2).
  - unfold signalled, logged, upd_consumer, upd_queue, ticked, with_consumer, with_queue; simpl.
    rewrite !insert_insert_eq. do 2 f_equal. rewrite length_reverse, length_fmap. done.
Qed.

(** [dispatch_write]: the outcome of the write decides the next section. *)
Definition write_post (p c : loc) (msg : Message) (w : World) (q : Queue) (r : option string)
    (w' : World) : Prop :=
  ∃ w1, io_eq w w1 ∧
    w' = match r with
         | None => upd_dispatch p DRunning (logged (Delivered (q_name q)) w1)
         | Some _ => upd_dispatch p (DFailed c msg) (logged (DeliverErrors (q_name q)) w1)
         end.

Lemma wp_dispatch_write p c msg w q co ch cn :
  w_queue w !! p = Some q → w_consumer w !! c = Some co → w_channel w !! c_channel co = Some ch →
  w_conn w !! ch_conn ch = Some cn →
  wp (dispatch_write p c msg)
    (λ _ w', ∃ r, write_post p c msg w q r w' ∧
       (r = None → cn_broken cn = None ∧ (cn_closed cn = false ∨ cn_pump cn = true)) ∧
       (cn_closed cn = false → r = cn_broken cn)) (io_eq w) w.
Proof.
  intros Hq Hco Hch Hcn. unfold dispatch_write; unfold_prims. wp_run. unfold WriteEnvelope.
  eapply wp_mono; [| |by apply wp_send]; [|by intros w' [_ ?]].
  intros r w1 [Hs Hio]. unfold write_post. unfold send_post, pump_post in Hs.
  destruct r as [e|]; wp_run; [exists (Some e)|exists None]; (split; [by exists w1|]);
    destruct (cn_closed cn), (cn_broken cn); naive_solver.
Qed.
End effects.
