(* ===== verification/Exchange.v ===== *)
(** * Exchanges (src/broker/exchange.go)

    A direct exchange: a binding maps a routing key to the queues bound with it,
    keyed by queue name. *)

From S2P Require Import Prelude GoJson Protocol State Transport Queue.

Definition NewExchange (name : string) : M loc :=
  p ← gets (λ w, fresh (dom (w_exchange w)));
  put_exchange p (mkExchange name ∅);;
  mret p.

(** The bindings after [e.bindings[routingkey][name] = queue]. *)
Definition add_binding (rk name : string) (qp : loc) (b : gmap string (gmap string loc))
  : gmap string (gmap string loc) :=
  <[rk := <[name := qp]> (default ∅ (b !! rk))]> b.

Definition bind (ep qp : loc) (routingkey : string) : M unit :=
  e ← get_exchange ep;
  q ← get_queue qp;
  put_exchange ep (mkExchange (e_name e) (add_binding routingkey (q_name q) qp (e_bindings e))).

Section exchange.
Context `{Oracle}.

(** The two nested ranges of [getQueues]. *)
Fixpoint collect_queues (routingKey : string) (kvs : list (string * gmap string loc))
    (queues : list loc) : M (list loc) :=
  match kvs with
  | [] => mret queues
  | (rk, qmap) :: kvs' =>
      if decide (rk = routingKey) then
        qs ← range (map_to_list qmap);
        collect_queues routingKey kvs' (queues ++ qs.*2)
      else collect_queues routingKey kvs' queues
  end.

Definition getQueues (ep : loc) (routingKey : string) : M (list loc) :=
  e ← get_exchange ep;
  kvs ← range (map_to_list (e_bindings e));
  collect_queues routingKey kvs [].
End exchange.

(** The queues bound with a routing key. *)
Definition bound_queues (e : Exchange) (rk : string) : gmap string loc :=
  default ∅ (e_bindings e !! rk).

Lemma bound_queues_add_binding e rk rk' name qp :
  bound_queues (mkExchange (e_name e) (add_binding rk name qp (e_bindings e))) rk' =
  if decide (rk = rk') then <[name := qp]> (bound_queues e rk') else bound_queues e rk'.
Proof.
  unfold bound_queues, add_binding; simpl. case_decide as Hrk; subst; by simplify_map_eq.
Qed.

Section spec.
Context `{Oracle}.

(** [getQueues] is the lookup of the routing key: each bound queue once. *)
Lemma wp_collect_queues rk kvs acc w :
  NoDup kvs.*1 →
  wp (collect_queues rk kvs acc)
    (λ qs w', (∃ t, w' = with_tick t w) ∧
      qs ≡ₚ acc ++ (map_to_list (default ∅ ((list_to_map kvs : gmap string (gmap string loc)) !! rk))).*2)
    (λ _, False) w.
Proof.
  revert acc w. induction kvs as [|[rk' qmap] kvs IH]; intros acc w Hnd; cbn [collect_queues].
  { wp_run. split; [exists (w_tick w); by destruct w|]. simpl. rewrite lookup_empty. simpl.
    by rewrite map_to_list_empty, app_nil_r. }
  apply NoDup_cons in Hnd as [Hnot Hnd]. simpl.
  case_decide as Hrk; subst.
  - wp_step. apply wp_range. intros l Hl.
    eapply wp_mono; [| |by apply IH]; [|done]. intros qs w' [[t ->] Hqs]. split; [by exists t|].
    rewrite lookup_insert_eq. simpl.
    assert ((list_to_map kvs : gmap string (gmap string loc)) !! rk = None) as HN
      by (by apply not_elem_of_list_to_map_1).
    rewrite HN in Hqs. simpl in Hqs. rewrite map_to_list_empty in Hqs. simpl in Hqs.
    rewrite app_nil_r in Hqs. by rewrite Hqs, Hl.
  - eapply wp_mono; [| |by apply IH]; [|done]. intros qs w' [[t ->] Hqs]. split; [by exists t|].
    by rewrite lookup_insert_ne.
Qed.

Lemma wp_getQueues ep rk w e :
  w_exchange w !! ep = Some e →
  wp (getQueues ep rk)
    (λ qs w', (∃ t, w' = with_tick t w) ∧ qs ≡ₚ (map_to_list (bound_queues e rk)).*2) (λ _, False) w.
Proof.
  intros He. unfold getQueues; unfold_prims. wp_run. apply wp_range. intros l Hl.
  assert (NoDup l.*1) by (rewrite Hl; apply NoDup_fst_map_to_list).
  eapply wp_mono; [| |by apply wp_collect_queues]; [|done].
  intros qs w' [[t ->] Hqs]. split; [by exists t|]. rewrite Hqs. simpl. unfold bound_queues.
  rewrite (list_to_map_proper l (map_to_list (e_bindings e))) by done.
  by rewrite list_to_map_to_list.
Qed.
End spec.
