(* ===== verification/Broker.v ===== *)
(** * The broker core (src/broker/broker.go)

    Declaring queues and exchanges, binding, publishing, registering consumers and
    acknowledging, on top of [Queue] and [Exchange]. *)

From S2P Require Import Prelude GoJson Protocol State Transport Queue Exchange.

Definition NewBroker : Broker := mkBroker ∅ ∅.

Definition put_broker (b : Broker) : M unit := modify (with_broker b).

Definition DeclareQueue (name dlx dlxRoutingKey : string) : M unit :=
  b ← gets w_broker;
  match b_queues b !! name with
  | None =>
      p ← NewQueue name dlx dlxRoutingKey;
      put_broker (mkBroker (<[name := p]> (b_queues b)) (b_exchanges b))
  | Some _ => mret tt
  end.

Definition DeclareExchange (name : string) : M unit :=
  b ← gets w_broker;
  match b_exchanges b !! name with
  | None =>
      p ← NewExchange name;
      put_broker (mkBroker (b_queues b) (<[name := p]> (b_exchanges b)))
  | Some _ => mret tt
  end.

Definition BindQueue (exchangeName queueName routingKey : string) : M (option string) :=
  b ← gets w_broker;
  match b_exchanges b !! exchangeName, b_queues b !! queueName with
  | None, _ => mret (Some "exchange not found")
  | Some _, None => mret (Some "queue not found")
  | Some ex, Some q => bind ex q routingKey;; mret None
  end.

(** [Publish], for one queue: [tag := q.nextTag; q.nextTag++] *)
Definition alloc_tag (p : loc) : M Z :=
  q ← get_queue p;
  put_queue p (set_nextTag (u16 (q_nextTag q + 1)) q);;
  mret (q_nextTag q).

Definition publish_to (exchangeName routingKey : string) (body : option bytes) (p : loc) : M unit :=
  tag ← alloc_tag p;
  enqueue p (mkMessage tag body exchangeName routingKey).

(** [Ack], for one consumer of the queue, under both locks. *)
Definition ack_consumer (deliveryTag : Z) (c : loc) : M (option unit) :=
  co ← get_consumer c;
  if decide (deliveryTag ∈ c_inflightTags co) then
    put_consumer c (set_inflight (c_inflight co - 1) (c_inflightTags co ∖ {[deliveryTag]})
                      (delete deliveryTag (c_pendingMessages co)) co);;
    mret (Some tt)
  else mret None.

Section broker.
Context `{Oracle}.

Definition Publish (exchangeName routingKey : string) (body : option bytes) : M (option string) :=
  b ← gets w_broker;
  match b_exchanges b !! exchangeName with
  | None =>
      inc PublishErrors;;
      mret (Some ("exchange " +:+ quote exchangeName +:+ " not found"))
  | Some ex =>
      inc (Published exchangeName);;
      queues ← getQueues ex routingKey;
      (if decide (queues = []) then inc (PublishUnroutable exchangeName) else mret tt);;
      forM_ queues (publish_to exchangeName routingKey body);;
      mret None
  end.

(** [RegisterConsumer]: [inl] is the error, [inr] the resolved tag. *)
Definition RegisterConsumer (consumerTag queue : string) (chp : loc) : M (string + string) :=
  b ← gets w_broker;
  match b_queues b !! queue with
  | None => mret (inl "queue not found")
  | Some q =>
      ch ← get_channel chp;
      let c := NewConsumer consumerTag q chp ch in
      match ch_consumers ch !! c_tag c with
      | Some _ =>
          mret (inl ("consumer tag " +:+ quote (c_tag c) +:+ " already in use on channel "
                       +:+ pretty (ch_id ch)))
      | None =>
          cp ← gets (λ w, fresh (dom (w_consumer w)));
          put_consumer cp c;;
          registerConsumer q cp;;
          put_channel chp (mkChannel (ch_id ch) (ch_conn ch) (<[c_tag c := cp]> (ch_consumers ch)));;
          inc (ConsumersRegistered queue);;
          mret (inr (c_tag c))
      end
  end.

Definition Ack (queueName : string) (deliveryTag : Z) : M (option string) :=
  b ← gets w_broker;
  match b_queues b !! queueName with
  | None => mret (Some ("queue " +:+ quote queueName +:+ " not found"))
  | Some p =>
      q ← get_queue p;
      cs ← range (elements (q_consumers q));
      r ← for_return cs (ack_consumer deliveryTag);
      match r with
      | Some _ => signal p;; inc (Acked queueName);; mret None
      | None =>
          mret (Some ("delivery tag " +:+ pretty deliveryTag +:+ " not found in any consumer on queue "
                        +:+ quote queueName))
      end
  end.
End broker.
