(* ===== verification/Channel.v ===== *)
(** * Channels (src/broker/channel.go)

    The handler of every method a channel receives, [route] and [cleanup].  A
    handler decodes the payload of its envelope, calls the broker and replies on
    the channel's connection; the results of the replies are discarded. *)

From S2P Require Import Prelude GoJson Protocol State Transport Queue Exchange Broker.

(** [event.Requeue], true when absent *)
Definition requeue_flag (n : Protocol.Nack) : bool := default true (Nack_Requeue n).

(** [strconv.FormatBool] *)
Definition format_bool (b : bool) : string := if b then "true" else "false".

(** [HandleNack], under the consumer's lock: the message leaves the consumer. *)
Definition nack_take (deliveryTag : Z) (c : loc) : M (option Message) :=
  co ← get_consumer c;
  match c_pendingMessages co !! deliveryTag with
  | Some msg =>
      put_consumer c (set_inflight (c_inflight co - 1) (c_inflightTags co ∖ {[deliveryTag]})
                        (delete deliveryTag (c_pendingMessages co)) co);;
      mret (Some msg)
  | None => mret None
  end.

Section channel.
Context `{Oracle}.

Definition cleanup (chp : loc) : M unit :=
  ch ← get_channel chp;
  cs ← range (map_to_list (ch_consumers ch));
  forM_ cs (λ '(_, c), co ← get_consumer c; unregisterConsumer (c_queue co) c).

(** [ch.conn.WriteEnvelope(env.ChannelID, ty, env.RequestID, msg)] *)
Definition reply {T} `{JEncode T} (chp : loc) (env : Envelope) (ty : Method) (msg : T) : M unit :=
  ch ← get_channel chp;
  WriteEnvelope (ch_conn ch) (env_ChannelID env) ty (env_RequestID env) msg;;
  mret tt.

Definition reply_error (chp : loc) (env : Envelope) (err : string) : M unit :=
  reply chp env ErrorType (error_message err).

Definition HandlePublish (chp : loc) (env : Envelope) : M unit :=
  let '(event, err) := Unmarshal (T := Protocol.Publish) (env_Payload env) in
  match err with
  | Some _ => mret tt
  | None =>
      err ← Broker.Publish (Publish_Exchange event) (Publish_RoutingKey event) (Publish_Body event);
      match err with
      | Some e => reply_error chp env e
      | None => mret tt
      end
  end.

Definition HandleConsume (chp : loc) (env : Envelope) : M unit :=
  let '(event, err) := Unmarshal (T := Consume) (env_Payload env) in
  match err with
  | Some e => reply_error chp env e
  | None =>
      r ← RegisterConsumer (Consume_ConsumerTag event) (Consume_Queue event) chp;
      match r with
      | inl e => reply_error chp env e
      | inr tag => reply chp env BasicConsumeOKType (mkConsumeOK tag)
      end
  end.

Definition HandleAck (chp : loc) (env : Envelope) : M unit :=
  let '(event, err) := Unmarshal (T := Protocol.Ack) (env_Payload env) in
  match err with
  | Some e => reply_error chp env e
  | None =>
      ch ← get_channel chp;
      cs ← range (map_to_list (ch_consumers ch));
      for_return cs (λ '(_, c),
        co ← get_consumer c;
        if decide (Ack_DeliveryTag event ∈ c_inflightTags co) then
          q ← get_queue (c_queue co);
          Broker.Ack (q_name q) (Ack_DeliveryTag event);;
          mret (Some tt)
        else mret None);;
      mret tt
  end.

(** What happens to a message that was taken from its consumer. *)
Definition nack_dispose (p : loc) (msg : Message) (requeue : bool) : M unit :=
  q ← get_queue p;
  inc (Nacked (q_name q) (format_bool requeue));;
  (if requeue then
     put_queue p (set_messages (msg :: q_messages q) q)
   else if decide (q_dlx q ≠ "") then
     inc (DeadLettered (q_name q));;
     Broker.Publish (q_dlx q)
       (if decide (q_dlxRoutingKey q = "") then m_RoutingKey msg else q_dlxRoutingKey q)
       (m_Body msg);;
     mret tt
   else inc (Dropped (q_name q)));;
  signal p.

Definition HandleNack (chp : loc) (env : Envelope) : M unit :=
  let '(event, err) := Unmarshal (T := Protocol.Nack) (env_Payload env) in
  match err with
  | Some e => reply_error chp env e
  | None =>
      ch ← get_channel chp;
      cs ← range (map_to_list (ch_consumers ch));
      for_return cs (λ '(_, c),
        m ← nack_take (Nack_DeliveryTag event) c;
        match m with
        | None => mret None
        | Some msg =>
            co ← get_consumer c;
            nack_dispose (c_queue co) msg (requeue_flag event);;
            mret (Some tt)
        end);;
      mret tt
  end.

(** A decoding error is only logged; what was decoded is declared. *)
Definition HandleExchangeDeclare (chp : loc) (env : Envelope) : M unit :=
  let '(event, _) := Unmarshal (T := Protocol.ExchangeDeclare) (env_Payload env) in
  DeclareExchange (ExchangeDeclare_Name event);;
  reply chp env ExchangeDeclareOKType (mkExchangeDeclareOK (ExchangeDeclare_Name event)).

Definition HandleQueueDeclare (chp : loc) (env : Envelope) : M unit :=
  let '(event, _) := Unmarshal (T := Protocol.QueueDeclare) (env_Payload env) in
  DeclareQueue (QueueDeclare_Name event) (QueueDeclare_DeadLetterExchange event)
    (QueueDeclare_DeadLetterRoutingKey event);;
  reply chp env QueueDeclareOKType (mkQueueDeclareOK (QueueDeclare_Name event)).

(** The error of [BindQueue] is discarded: the reply is always bind-ok. *)
Definition HandleQueueBind (chp : loc) (env : Envelope) : M unit :=
  let '(event, err) := Unmarshal (T := Protocol.QueueBind) (env_Payload env) in
  match err with
  | Some e => reply_error chp env e
  | None =>
      BindQueue (QueueBind_Exchange event) (QueueBind_Queue event) (QueueBind_RoutingKey event);;
      reply chp env QueueBindOKType mkQueueBindOK
  end.

(** Unknown methods are ignored. *)
Definition route (chp : loc) (env : Envelope) : M unit :=
  if decide (env_Type env = BasicPublishType) then HandlePublish chp env
  else if decide (env_Type env = BasicConsumeType) then HandleConsume chp env
  else if decide (env_Type env = BasicAckType) then HandleAck chp env
  else if decide (env_Type env = BasicNackType) then HandleNack chp env
  else if decide (env_Type env = QueueDeclareType) then HandleQueueDeclare chp env
  else if decide (env_Type env = ExchangeDeclareType) then HandleExchangeDeclare chp env
  else if decide (env_Type env = QueueBindType) then HandleQueueBind chp env
  else mret tt.
End channel.
