(* ===== verification/Connection.v ===== *)
(** * Connections (src/broker/connection.go)

    The handshake, the dispatch of envelopes to channels, opening and closing
    channels.  Writing is in [Transport]. *)

From S2P Require Import Prelude GoJson Protocol State Transport Queue Exchange Broker Channel.

(** [NewConnection] for a socket on which the peer will send [r]. *)
Definition NewConnection (r : Reader) : M loc :=
  p ← gets (λ w, fresh (dom (w_conn w)));
  put_conn p (mkConnection r [] ∅ StateAwaitProtocolHeader [] false true None);;
  mret p.

(** Reading from the connection's reader. *)
Definition conn_read {A} (f : Reader → A * Reader) (p : loc) : M A :=
  c ← get_conn p;
  let '(a, r) := f (cn_reader c) in
  put_conn p (set_reader r c);;
  mret a.

Definition set_conn_state (p : loc) (s : ConnectionState) : M unit :=
  c ← get_conn p; put_conn p (set_state s c).

Section connection.
Context `{Oracle}.

(** [conn.cleanup] *)
Definition conn_cleanup (p : loc) : M unit :=
  c ← get_conn p;
  chs ← range (map_to_list (cn_channels c));
  forM_ chs (λ '(_, ch), cleanup ch).

Definition routeToChannel (p : loc) (env : Envelope) : M unit :=
  c ← get_conn p;
  match cn_channels c !! env_ChannelID env with
  | None =>
      WriteEnvelope p (env_ChannelID env) ErrorType (env_RequestID env)
        (error_message "channel with requested channelID not open for communication");;
      mret tt
  | Some ch => route ch env
  end.

(** A decoding error is only logged; an open channel with the id is replaced. *)
Definition ChannelOpen (p : loc) (env : Envelope) : M unit :=
  let '(event, _) := Unmarshal (T := Protocol.ChannelOpen) (env_Payload env) in
  let id := ChannelOpen_ID event in
  c ← get_conn p;
  chp ← gets (λ w, fresh (dom (w_channel w)));
  put_channel chp (mkChannel id p ∅);;
  put_conn p (set_channels (<[id := chp]> (cn_channels c)) c);;
  WriteEnvelope p 0 ChannelOpenOKType (env_RequestID env) (mkChannelOpenOK id);;
  mret tt.

Definition ChannelClose (p : loc) (env : Envelope) : M unit :=
  let id := env_ChannelID env in
  c ← get_conn p;
  put_conn p (set_channels (delete id (cn_channels c)) c);;
  match cn_channels c !! id with
  | Some ch => cleanup ch
  | None => mret tt
  end;;
  WriteEnvelope p id ChannelCloseOKType (env_RequestID env) (mkChannelCloseOK id);;
  mret tt.

Definition Handle (p : loc) (env : Envelope) : M unit :=
  if decide (env_Type env = ChannelOpenType) then ChannelOpen p env
  else if decide (env_Type env = ChannelCloseType) then ChannelClose p env
  else routeToChannel p env.

(** One turn of [Serve]: [Some err] when the loop returns. *)
Definition serve_one (p : loc) : M (option string) :=
  r ← conn_read ReadEnvelope p;
  let '(env, err) := r in
  match err with
  | Some e => mret (Some e)
  | None => Handle p env;; mret None
  end.

(** [Serve], for at most [fuel] turns; [None] when the fuel is used up. *)
Fixpoint Serve (fuel : nat) (p : loc) : M (option string) :=
  match fuel with
  | O => mret None
  | S fuel' =>
      r ← serve_one p;
      match r with
      | Some e => mret (Some e)
      | None => Serve fuel' p
      end
  end.

(** [RunHandshake]; [Some err] is the error it returns. *)
Definition RunHandshake (p : loc) : M (option string) :=
  err ← conn_read ReadProtocolHeader p;
  match err with Some e => mret (Some e) | None =>
  set_conn_state p StateAwaitStartOK;;
  err ← WriteMessage p NewConnectionStart;
  match err with Some e => mret (Some e) | None =>
  r ← conn_read (ReadMessage (T := ConnectionStartOK)) p;
  match r.2 with Some e => mret (Some e) | None =>
  set_conn_state p StateAwaitTuneOK;;
  cfg ← gets w_config;
  WriteMessage p (NewConnectionTune (cfg_ChannelMax cfg) (cfg_FramesMax cfg) (cfg_HeartbeatSec cfg));;
  r ← conn_read (ReadMessage (T := ConnectionTuneOK)) p;
  match r.2 with Some e => mret (Some e) | None =>
  set_conn_state p StateAwaitOpen;;
  r ← conn_read (ReadMessage (T := ConnectionOpen)) p;
  match r.2 with Some e => mret (Some e) | None =>
  err ← WriteMessage p NewConnectionOpenOK;
  match err with Some e => mret (Some e) | None =>
  set_conn_state p StateOpen;;
  mret None
  end end end end end end.
End connection.

(** Reading changes the reader of the connection only. *)
Lemma conn_read_eq {A} (f : Reader → A * Reader) p w cn :
  w_conn w !! p = Some cn →
  conn_read f p w = Done (f (cn_reader cn)).1 (with_conn (<[p := set_reader (f (cn_reader cn)).2 cn]> (w_conn w)) w).
Proof.
  intros Hp. unfold conn_read, get_conn. rewrite (bind_deref _ _ _ cn) by done.
  by destruct (f (cn_reader cn)).
Qed.
