(* ===== verification/Invariant.v ===== *)
(** * The invariant of the store

    [WF]: no dangling pointers and the back pointers agree; [consumer_ok]: the
    bookkeeping of one consumer; [defect]: the difference between what the metrics
    say a queue should hold and what it holds.  [InvD d] bundles the three with a
    given defect per queue, so that a single assignment of the code, which moves a
    message from one account to another, is a lemma about how it shifts [d]. *)

From S2P Require Import Prelude GoJson Protocol State Transport Queue Exchange Broker.

(** ** Structure *)

(** The consumer a dispatch goroutine holds a pointer to. *)
Definition dispatch_consumer (d : Dispatcher) : option loc :=
  match d with DWriting c _ | DFailed c _ | DStuck c _ => Some c | _ => None end.

Record WF (w : World) : Prop := {
  wf_broker_queue : ∀ name p, b_queues (w_broker w) !! name = Some p →
    ∃ q, w_queue w !! p = Some q ∧ q_name q = name;
  wf_queue_broker : ∀ p q, w_queue w !! p = Some q → b_queues (w_broker w) !! q_name q = Some p;
  wf_broker_exchange : ∀ name p, b_exchanges (w_broker w) !! name = Some p →
    ∃ e, w_exchange w !! p = Some e ∧ e_name e = name;
  wf_binding : ∀ p e rk name qp, w_exchange w !! p = Some e → bound_queues e rk !! name = Some qp →
    ∃ q, w_queue w !! qp = Some q ∧ q_name q = name;
  wf_queue_consumer : ∀ p q c, w_queue w !! p = Some q → c ∈ q_consumers q →
    ∃ co, w_consumer w !! c = Some co ∧ c_queue co = p;
  wf_consumer : ∀ c co, w_consumer w !! c = Some co →
    is_Some (w_queue w !! c_queue co) ∧ is_Some (w_channel w !! c_channel co);
  wf_channel : ∀ p ch, w_channel w !! p = Some ch → is_Some (w_conn w !! ch_conn ch);
  wf_channel_consumer : ∀ p ch tag c, w_channel w !! p = Some ch → ch_consumers ch !! tag = Some c →
    ∃ co, w_consumer w !! c = Some co ∧ c_channel co = p ∧ c_tag co = tag;
  wf_conn_channel : ∀ p cn id chp, w_conn w !! p = Some cn → cn_channels cn !! id = Some chp →
    ∃ ch, w_channel w !! chp = Some ch ∧ ch_conn ch = p ∧ ch_id ch = id;
  wf_dispatch : ∀ p, is_Some (w_queue w !! p) → is_Some (w_dispatch w !! p);
  wf_dispatch_consumer : ∀ p d c, w_dispatch w !! p = Some d → dispatch_consumer d = Some c →
    ∃ co, w_consumer w !! c = Some co ∧ c_queue co = p;
  wf_dispatch_queue : ∀ p, is_Some (w_dispatch w !! p) → is_Some (w_queue w !! p);
}.

(** The fields of a queue and of a consumer that never change, or that only
    registering changes. *)
Definition q_skel (q : Queue) : string * gset loc := (q_name q, q_consumers q).
Definition c_skel (co : Consumer) : string * loc * loc := (c_tag co, c_queue co, c_channel co).

(** Two stores with the same structure. *)
Record same_skel (w w' : World) : Prop := {
  sk_broker : w_broker w' = w_broker w;
  sk_queue : q_skel <$> w_queue w' = q_skel <$> w_queue w;
  sk_exchange : w_exchange w' = w_exchange w;
  sk_consumer : c_skel <$> w_consumer w' = c_skel <$> w_consumer w;
  sk_channel : w_channel w' = w_channel w;
  sk_conn : cn_channels <$> w_conn w' = cn_channels <$> w_conn w;
}.

#[export] Instance same_skel_equiv : Equivalence same_skel.
Proof.
  split.
  - intros w. by split.
  - intros w1 w2 []. by split.
  - intros w1 w2 w3 [] []. split; congruence.
Qed.

Lemma fmap_lookup_eq {A B} (f : A → B) (m m' : gmap loc A) p a :
  f <$> m' = f <$> m → m' !! p = Some a → ∃ b, m !! p = Some b ∧ f b = f a.
Proof.
  intros E Hp. apply (f_equal (λ x, x !! p)) in E. rewrite !lookup_fmap, Hp in E. simpl in E.
  destruct (m !! p) as [b|]; [|done]. exists b. split; [done|]. by injection E.
Qed.

(** Looks an entry of one store up in the other. *)
Ltac skel_lookup H E :=
  let b := fresh "b" in let Hb := fresh "Hb" in let Eb := fresh "Eb" in
  destruct (fmap_lookup_eq _ _ _ _ _ E H) as (b & Hb & Eb).

Lemma WF_skel w w' :
  same_skel w w' →
  (∀ p, is_Some (w_dispatch w' !! p) ↔ is_Some (w_dispatch w !! p)) →
  (∀ p d c, w_dispatch w' !! p = Some d → dispatch_consumer d = Some c →
     ∃ co, w_consumer w' !! c = Some co ∧ c_queue co = p) →
  WF w → WF w'.
Proof.
  intros [Hb Hq He Hc Hch Hcn] Hd Hdc HWF. unfold c_skel, q_skel in *.
  assert (∀ p, is_Some (w_queue w' !! p) ↔ is_Some (w_queue w !! p)) as Hqs.
  { intros p. split; intros [q Hp]; [skel_lookup Hp Hq|skel_lookup Hp (eq_sym Hq)]; eauto. }
  assert (∀ p, is_Some (w_conn w' !! p) ↔ is_Some (w_conn w !! p)) as Hcns.
  { intros p. split; intros [q Hp]; [skel_lookup Hp Hcn|skel_lookup Hp (eq_sym Hcn)]; eauto. }
  assert (∀ c co, w_consumer w !! c = Some co → ∃ co', w_consumer w' !! c = Some co' ∧
    c_skel co' = c_skel co) as Hcs by (intros c co Hco; by skel_lookup Hco (eq_sym Hc); eauto).
  assert (∀ p q, w_queue w !! p = Some q → ∃ q', w_queue w' !! p = Some q' ∧ q_skel q' = q_skel q) as Hqs'
    by (intros p q Hp; by skel_lookup Hp (eq_sym Hq); eauto).
  unfold c_skel, q_skel in *. destruct HWF. split; rewrite ?Hb, ?He, ?Hch; intros.
  - edestruct wf_broker_queue0 as (q & Hp & ?); [done|].
    destruct (Hqs' _ _ Hp) as (q' & ? & ?). exists q'. split; congruence.
  - skel_lookup H Hq. apply wf_queue_broker0 in Hb0. congruence.
  - eauto.
  - edestruct wf_binding0 as (q & Hp & ?); [done..|].
    destruct (Hqs' _ _ Hp) as (q' & ? & ?). exists q'. split; congruence.
  - skel_lookup H Hq. injection Eb as _ Ec. rewrite <-Ec in *.
    edestruct wf_queue_consumer0 as (co & Hco & ?); [done..|].
    destruct (Hcs _ _ Hco) as (co' & ? & ?). exists co'. split; congruence.
  - skel_lookup H Hc. apply wf_consumer0 in Hb0 as [? ?]. injection Eb as _ <- <-. by rewrite Hqs.
  - rewrite Hcns. eauto.
  - edestruct wf_channel_consumer0 as (co & Hco & ? & ?); [done..|].
    destruct (Hcs _ _ Hco) as (co' & ? & ?). exists co'. split_and!; congruence.
  - skel_lookup H Hcn. eapply wf_conn_channel0; [done|congruence].
  - rewrite Hd. apply wf_dispatch0. by apply Hqs.
  - eauto.
  - apply Hqs, wf_dispatch_queue0. by apply Hd.
Qed.

(** ** Bookkeeping of a consumer *)

Record consumer_ok (co : Consumer) : Prop := {
  co_prefetch : c_prefetch co = prefetch;
  co_bound : c_inflight co ≤ c_prefetch co;
  co_tags : c_inflightTags co = dom (c_pendingMessages co);
  co_keys : ∀ t m, c_pendingMessages co !! t = Some m → m_DeliveryTag m = t;
}.

(** ** The ledger of a queue *)

(** What a metric call says about the number of messages queue [n] holds. *)
Definition metric_weight (n : string) (m : MetricCall) : Z :=
  match m with
  | Enqueued n' => if decide (n' = n) then 1 else 0
  | Acked n' | DeadLettered n' | Dropped n' => if decide (n' = n) then -1 else 0
  | _ => 0
  end.

Fixpoint balance (n : string) (l : list MetricCall) : Z :=
  match l with [] => 0 | m :: l' => metric_weight n m + balance n l' end.

Lemma balance_app n l1 l2 : balance n (l1 ++ l2) = balance n l1 + balance n l2.
Proof. induction l1; simpl; lia. Qed.

(** The sum of [inflight] over every consumer ever created on the queue. *)
Definition inflight_on (p : loc) (co : Consumer) : Z :=
  if decide (c_queue co = p) then c_inflight co else 0.
Definition inflight_sum (p : loc) (cs : gmap loc Consumer) : Z := map_sum (inflight_on p) cs.

Definition defect (w : World) (p : loc) (q : Queue) : Z :=
  balance (q_name q) (w_metrics w) - Z.of_nat (length (q_messages q)) - inflight_sum p (w_consumer w).

Record InvD (d : loc → Z) (w : World) : Prop := {
  inv_wf : WF w;
  inv_consumer : ∀ c co, w_consumer w !! c = Some co → consumer_ok co;
  inv_defect : ∀ p q, w_queue w !! p = Some q → defect w p q = d p;
  inv_unseen : ∀ n, b_queues (w_broker w) !! n = None → balance n (w_metrics w) = 0;
}.

Definition shift (p : loc) (k : Z) (d : loc → Z) : loc → Z :=
  λ p', if decide (p' = p) then d p' + k else d p'.

(** The invariant between two handlers: nothing is unaccounted for. *)
Definition Inv (w : World) : Prop := InvD (λ _, 0) w.

Lemma InvD_ext d d' w : (∀ p, is_Some (w_queue w !! p) → d p = d' p) → InvD d w → InvD d' w.
Proof. intros E [? ? Hd ?]. split; [done|done| |done]. intros p q Hp. rewrite <-E by eauto. eauto. Qed.

(** ** How single assignments move the invariant *)

Lemma skel_upd_queue p q q' w :
  w_queue w !! p = Some q → q_skel q' = q_skel q → same_skel w (upd_queue p q' w).
Proof.
  intros Hp E. split; try done. simpl. rewrite fmap_insert, E. apply insert_id.
  by rewrite lookup_fmap, Hp.
Qed.

Lemma skel_upd_consumer c co co' w :
  w_consumer w !! c = Some co → c_skel co' = c_skel co → same_skel w (upd_consumer c co' w).
Proof.
  intros Hp E. split; try done. simpl. rewrite fmap_insert, E. apply insert_id.
  by rewrite lookup_fmap, Hp.
Qed.

Lemma skel_io_eq w w' : io_eq w w' → same_skel w w'.
Proof.
  intros [???? ? ??? ? E]. split; try congruence.
  apply (f_equal (fmap (λ x : gmap Z loc * ConnectionState * Reader, x.1.1))) in E.
  by rewrite <-!map_fmap_compose in E.
Qed.

(** Same structure, same dispatchers, and consumers that keep their queue. *)
Lemma WF_same_dispatch w w' : same_skel w w' → w_dispatch w' = w_dispatch w → WF w → WF w'.
Proof.
  intros Hs Hd HWF. apply (WF_skel w); [done|by rewrite Hd| |done].
  intros p d c. rewrite Hd. intros Hp Hc. destruct (wf_dispatch_consumer w HWF p d c Hp Hc) as (co & Hco & <-).
  skel_lookup Hco (eq_sym (sk_consumer _ _ Hs)). injection Eb as _ E _. eauto.
Qed.

Lemma inv_upd_queue d p q q' w :
  w_queue w !! p = Some q → q_skel q' = q_skel q → InvD d w →
  InvD (shift p (Z.of_nat (length (q_messages q)) - Z.of_nat (length (q_messages q'))) d) (upd_queue p q' w).
Proof.
  intros Hp E [HWF Hco Hd Hu]. assert (same_skel w (upd_queue p q' w)) by (by eapply skel_upd_queue).
  split; [by eapply WF_same_dispatch|done| |done].
  intros p' q0. simpl. unfold shift. injection E as En _. case_decide; subst.
  - rewrite lookup_insert_eq. intros [= <-]. rewrite <-(Hd p q Hp). unfold defect; simpl. rewrite En. lia.
  - rewrite lookup_insert_ne by done. apply Hd.
Qed.

Lemma inflight_sum_update p c co co' cs :
  cs !! c = Some co → c_queue co' = c_queue co →
  inflight_sum p (<[c := co']> cs) =
    if decide (p = c_queue co) then inflight_sum p cs - c_inflight co + c_inflight co' else inflight_sum p cs.
Proof.
  intros Hc E. unfold inflight_sum. rewrite (map_sum_update _ _ _ co) by done.
  unfold inflight_on. rewrite E. destruct (decide (c_queue co = p)), (decide (p = c_queue co)); subst; lia || done.
Qed.

Lemma inv_upd_consumer d c co co' w :
  w_consumer w !! c = Some co → c_skel co' = c_skel co → consumer_ok co' → InvD d w →
  InvD (shift (c_queue co) (c_inflight co - c_inflight co') d) (upd_consumer c co' w).
Proof.
  intros Hc E Hok [HWF Hco Hd Hu]. assert (same_skel w (upd_consumer c co' w)) by (by eapply skel_upd_consumer).
  split; [by eapply WF_same_dispatch| | |done].
  - intros c'' co''. simpl. intros [[<- <-]|[? ?]]%lookup_insert_Some; eauto.
  - intros p q Hp. unfold defect; simpl. injection E as _ Eq _.
    rewrite (inflight_sum_update _ _ co) by done. unfold shift.
    rewrite <-(Hd p q Hp). unfold defect. case_decide; lia.
Qed.

Lemma inv_logged d d' m w :
  (∀ p q, w_queue w !! p = Some q → d' p = d p + metric_weight (q_name q) m) →
  (∀ n, b_queues (w_broker w) !! n = None → metric_weight n m = 0) →
  InvD d w → InvD d' (logged m w).
Proof.
  intros E En [HWF Hco Hd Hu]. split; [|done| |].
  - by apply (WF_same_dispatch w); [split|..].
  - intros p q Hp. rewrite (E p q Hp), <-(Hd p q Hp). unfold defect; simpl.
    rewrite balance_app. simpl. lia.
  - intros n Hn. simpl in *. rewrite balance_app, Hu by done. simpl. rewrite En by done. lia.
Qed.

(** Calls that say nothing about queue contents. *)
Lemma inv_logged_neutral d m w : (∀ n, metric_weight n m = 0) → InvD d w → InvD d (logged m w).
Proof. intros Hm. apply inv_logged; intros; rewrite Hm; lia. Qed.

(** Calls about the queue of name [q_name q]. *)
Lemma inv_logged_queue d m w p q k :
  w_queue w !! p = Some q → (∀ n, metric_weight n m = if decide (q_name q = n) then k else 0) →
  InvD d w → InvD (shift p k d) (logged m w).
Proof.
  intros Hp Hm Hinv. pose proof (wf_queue_broker _ (inv_wf _ _ Hinv) _ _ Hp) as E1.
  apply (inv_logged d); [| |done].
  2: { intros n Hn. rewrite Hm. case_decide; [|done]. congruence. }
  intros p' q' Hp'. rewrite Hm. unfold shift.
  pose proof (wf_queue_broker _ (inv_wf _ _ Hinv) _ _ Hp') as E2.
  repeat case_decide; subst; try lia; simplify_eq; congruence.
Qed.

Lemma inv_upd_dispatch d p di w :
  is_Some (w_queue w !! p) →
  (∀ c, dispatch_consumer di = Some c → ∃ co, w_consumer w !! c = Some co ∧ c_queue co = p) →
  InvD d w → InvD d (upd_dispatch p di w).
Proof.
  intros Hp Hdi [HWF Hco Hd Hu]. split; [|done..].
  apply (WF_skel w); [by split| |..|done]; simpl.
  - intros p'. destruct (decide (p = p')) as [->|]; [|by rewrite lookup_insert_ne].
    rewrite lookup_insert_eq. split; [intros _; by apply (wf_dispatch w HWF)|by eauto].
  - intros p' d' c [[<- <-]|[? Hp']]%lookup_insert_Some; [by apply Hdi|].
    by apply (wf_dispatch_consumer w HWF).
Qed.

Lemma inv_signalled d p w : InvD d w → InvD d (signalled p w).
Proof.
  intros [HWF Hco Hd Hu]. split; [|done..].
  apply (WF_skel w); [by split| |..|done]; simpl.
  - intros p'. rewrite lookup_alter. case_decide; [|done]. subst. by rewrite fmap_is_Some.
  - intros p' d' c. rewrite lookup_alter. case_decide as Hpp; subst.
    + intros (d0 & Hp' & ->)%fmap_Some Hc. destruct d0; simpl in Hc; try done;
        by eapply (wf_dispatch_consumer w HWF).
    + by apply (wf_dispatch_consumer w HWF).
Qed.

Lemma inv_io_eq d w w' : io_eq w w' → InvD d w → InvD d w'.
Proof.
  intros Hio [HWF Hco Hd Hu]. split.
  - apply (WF_same_dispatch w); [by apply skel_io_eq|by apply io_dispatch|done].
  - by rewrite (io_consumer _ _ Hio).
  - intros p q. rewrite (io_queue _ _ Hio). unfold defect.
    rewrite (io_metrics _ _ Hio), (io_consumer _ _ Hio). apply Hd.
  - rewrite (io_metrics _ _ Hio), (io_broker _ _ Hio). apply Hu.
Qed.

#[export] Instance InvD_proper d : Proper (io_eq ==> iff) (InvD d).
Proof. intros w w' Hw. split; apply inv_io_eq; [done|by symmetry]. Qed.

Lemma inv_ticked d w : InvD d w → InvD d (ticked w).
Proof. apply inv_io_eq, io_eq_tick. Qed.

Ltac shift_solve :=
  intros; unfold shift; simpl; repeat case_decide; subst; try lia; try congruence.

(** ** Changes of structure *)

Lemma WF_set_consumers w p q X :
  w_queue w !! p = Some q →
  (∀ c, c ∈ X → ∃ co, w_consumer w !! c = Some co ∧ c_queue co = p) →
  WF w → WF (upd_queue p (set_consumers X q) w).
Proof.
  intros Hp HX HWF. destruct HWF.
  assert (∀ p', is_Some (<[p:=set_consumers X q]> (w_queue w) !! p') ↔ is_Some (w_queue w !! p')) as Hs.
  { intros p'. rewrite lookup_insert. case_decide; subst; [|done]. by rewrite Hp. }
  assert (∀ p' q0, w_queue w !! p' = Some q0 →
    ∃ q1, <[p:=set_consumers X q]> (w_queue w) !! p' = Some q1 ∧ q_name q1 = q_name q0) as Hn.
  { intros p' q0 Hp'. rewrite lookup_insert. case_decide; simplify_eq; eauto. }
  split; simpl; intros; rewrite ?Hs; eauto.
  - edestruct wf_broker_queue0 as (q0 & Hp' & <-); [done|]. eauto.
  - apply lookup_insert_Some in H as [[<- <-]|[? ?]]; simpl in *; eauto.
  - edestruct wf_binding0 as (q0 & Hp' & <-); [done..|]. eauto.
  - apply lookup_insert_Some in H as [[<- <-]|[? ?]]; simpl in *; eauto.
  - by apply wf_dispatch0, Hs.
Qed.

Lemma WF_new_queue w name dlx rk p :
  b_queues (w_broker w) !! name = None → w_queue w !! p = None → WF w →
  WF (with_broker (mkBroker (<[name := p]> (b_queues (w_broker w))) (b_exchanges (w_broker w)))
       (upd_dispatch p DRunning (upd_queue p (mkQueue name [] ∅ 1 dlx rk) w))).
Proof.
  intros Hname Hp HWF. destruct HWF. split; simpl; intros; eauto.
  - apply lookup_insert_Some in H as [[<- <-]|[? Hn]]; [by eexists; rewrite lookup_insert_eq|].
    destruct (wf_broker_queue0 _ _ Hn) as (q & Hq & <-). exists q.
    rewrite lookup_insert_ne; [done|]. congruence.
  - apply lookup_insert_Some in H as [[<- <-]|[? Hq]]; simpl; [by rewrite lookup_insert_eq|].
    rewrite lookup_insert_ne; [by apply wf_queue_broker0|].
    intros ->. apply wf_queue_broker0 in Hq. congruence.
  - destruct (wf_binding0 _ _ _ _ _ H H0) as (q & Hq & <-). exists q.
    rewrite lookup_insert_ne; [done|]. congruence.
  - apply lookup_insert_Some in H as [[<- <-]|[? Hq]]; simpl in *; [set_solver|]. eauto.
  - destruct (wf_consumer0 _ _ H) as [[q Hq] ?]. split; [|done]. exists q.
    rewrite lookup_insert_ne; [done|]. congruence.
  - destruct (decide (p = p0)) as [->|]; [by rewrite lookup_insert_eq|].
    rewrite lookup_insert_ne in H by done. rewrite lookup_insert_ne by done. eauto.
  - apply lookup_insert_Some in H as [[<- <-]|[? Hq]]; simpl in *; [done|]. eauto.
  - destruct (decide (p = p0)) as [->|]; [by rewrite lookup_insert_eq|].
    rewrite lookup_insert_ne in H by done. rewrite lookup_insert_ne by done. eauto.
Qed.

Lemma WF_new_exchange w name p :
  b_exchanges (w_broker w) !! name = None → w_exchange w !! p = None → WF w →
  WF (with_broker (mkBroker (b_queues (w_broker w)) (<[name := p]> (b_exchanges (w_broker w))))
       (with_exchange (<[p := mkExchange name ∅]> (w_exchange w)) w)).
Proof.
  intros Hname Hp HWF. destruct HWF. split; simpl; intros; eauto.
  - apply lookup_insert_Some in H as [[<- <-]|[? Hn]]; [by eexists; rewrite lookup_insert_eq|].
    destruct (wf_broker_exchange0 _ _ Hn) as (e & He & <-). exists e.
    rewrite lookup_insert_ne; [done|]. congruence.
  - apply lookup_insert_Some in H as [[<- <-]|[? He]]; [|by eauto].
    unfold bound_queues in H0. simpl in H0. rewrite lookup_empty in H0. simpl in H0.
    by rewrite lookup_empty in H0.
Qed.

Lemma WF_bind w ep e qp q rk :
  w_exchange w !! ep = Some e → w_queue w !! qp = Some q → WF w →
  WF (with_exchange (<[ep := mkExchange (e_name e) (add_binding rk (q_name q) qp (e_bindings e))]>
       (w_exchange w)) w).
Proof.
  intros He Hq HWF. destruct HWF. split; simpl; intros; eauto.
  - destruct (wf_broker_exchange0 _ _ H) as (e' & He' & <-). rewrite lookup_insert.
    case_decide; simplify_eq; eauto.
  - apply lookup_insert_Some in H as [[<- <-]|[? He']]; [|by eauto].
    rewrite bound_queues_add_binding in H0. case_decide; subst; [|by eauto].
    apply lookup_insert_Some in H0 as [[<- <-]|[? ?]]; eauto.
Qed.

Lemma WF_add_consumer w c co :
  w_consumer w !! c = None → is_Some (w_queue w !! c_queue co) → is_Some (w_channel w !! c_channel co) →
  WF w → WF (upd_consumer c co w).
Proof.
  intros Hc Hq Hch HWF. destruct HWF.
  assert (∀ c' co', w_consumer w !! c' = Some co' → <[c:=co]> (w_consumer w) !! c' = Some co') as Hmono.
  { intros c' co' Hc'. rewrite lookup_insert_ne; [done|]. congruence. }
  split; simpl; intros; eauto.
  - destruct (wf_queue_consumer0 _ _ _ H H0) as (co' & ? & ?); eauto.
  - apply lookup_insert_Some in H as [[<- <-]|[? Hco]]; [done|by eauto].
  - destruct (wf_channel_consumer0 _ _ _ _ H H0) as (co' & ? & ? & ?). eauto.
  - destruct (wf_dispatch_consumer0 _ _ _ H H0) as (co' & ? & ?). eauto.
Qed.

Lemma WF_channel_consumer w chp ch c co :
  w_channel w !! chp = Some ch → w_consumer w !! c = Some co → c_channel co = chp → WF w →
  WF (with_channel (<[chp := mkChannel (ch_id ch) (ch_conn ch) (<[c_tag co := c]> (ch_consumers ch))]> (w_channel w)) w).
Proof.
  intros Hch Hc E HWF. destruct HWF. split; simpl; intros; eauto.
  - rewrite lookup_insert_is_Some'. apply wf_consumer0 in H as [? ?]. auto.
  - apply lookup_insert_Some in H as [[<- <-]|[? ?]]; simpl; eauto.
  - apply lookup_insert_Some in H as [[<- <-]|[? ?]]; simpl in *; [|by eauto].
    apply lookup_insert_Some in H0 as [[<- <-]|[? Ht]]; eauto.
  - destruct (wf_conn_channel0 _ _ _ _ H H0) as (ch' & Hch' & ? & ?).
    rewrite lookup_insert. case_decide; simplify_eq; eauto.
Qed.

(** A new consumer and its entry in its channel. *)
Lemma WF_new_consumer w c co chp ch :
  w_consumer w !! c = None → w_channel w !! chp = Some ch → is_Some (w_queue w !! c_queue co) →
  c_channel co = chp → WF w →
  WF (with_channel (<[chp := mkChannel (ch_id ch) (ch_conn ch) (<[c_tag co := c]> (ch_consumers ch))]> (w_channel w))
       (upd_consumer c co w)).
Proof.
  intros Hc Hch Hq <- HWF. apply (WF_channel_consumer (upd_consumer c co w) _ ch c co); [done| |done|].
  - simpl. by rewrite lookup_insert_eq.
  - apply WF_add_consumer; [done..|by eauto|done].
Qed.

Lemma WF_open_channel w p cn chp id :
  w_conn w !! p = Some cn → w_channel w !! chp = None → WF w →
  WF (with_conn (<[p := set_channels (<[id := chp]> (cn_channels cn)) cn]> (w_conn w))
       (with_channel (<[chp := mkChannel id p ∅]> (w_channel w)) w)).
Proof.
  intros Hcn Hchp HWF. destruct HWF. split; simpl; intros; eauto.
  - destruct (wf_consumer0 _ _ H). by rewrite lookup_insert_is_Some'; auto.
  - rewrite lookup_insert_is_Some'. apply lookup_insert_Some in H as [[<- <-]|[? ?]]; simpl; eauto.
  - apply lookup_insert_Some in H as [[<- <-]|[? ?]]; simpl in *; [by rewrite lookup_empty in H0|eauto].
  - apply lookup_insert_Some in H as [[<- <-]|[? Hp']]; simpl in *.
    + apply lookup_insert_Some in H0 as [[<- <-]|[? Hid]].
      * by eexists; rewrite lookup_insert_eq.
      * destruct (wf_conn_channel0 _ _ _ _ Hcn Hid) as (ch & ? & ? & ?). exists ch.
        rewrite lookup_insert_ne; [done|]. congruence.
    + destruct (wf_conn_channel0 _ _ _ _ Hp' H0) as (ch & ? & ? & ?). exists ch.
      rewrite lookup_insert_ne; [done|]. congruence.
Qed.

(** Connections change: the channels of an old one may only be forgotten. *)
Lemma WF_conn w p cn :
  (∀ id chp, cn_channels cn !! id = Some chp →
     ∃ cn0, w_conn w !! p = Some cn0 ∧ cn_channels cn0 !! id = Some chp) →
  WF w → WF (with_conn (<[p := cn]> (w_conn w)) w).
Proof.
  intros Hcn HWF. destruct HWF. split; simpl; intros; eauto.
  - rewrite lookup_insert_is_Some'. right. eauto.
  - apply lookup_insert_Some in H as [[<- <-]|[? Hp']]; simpl in *; [|eauto].
    apply Hcn in H0 as (cn0 & ? & ?). eauto.
Qed.

(** The accounts look at queues, consumers, metrics and the names of queues only. *)
Lemma InvD_struct d w w' :
  w_queue w' = w_queue w → w_consumer w' = w_consumer w → w_metrics w' = w_metrics w →
  b_queues (w_broker w') = b_queues (w_broker w) → WF w' → InvD d w → InvD d w'.
Proof.
  intros Eq Ec Em Eb HWF [_ Hco Hd Hu]. split; [done|by rewrite Ec| |by rewrite Eb, Em].
  intros p q Hq. rewrite Eq in Hq. rewrite <-(Hd p q Hq). unfold defect. by rewrite Em, Ec.
Qed.

(** A consumer that has not received anything yet. *)
Lemma inv_add_consumer d w c co :
  w_consumer w !! c = None → is_Some (w_queue w !! c_queue co) → is_Some (w_channel w !! c_channel co) →
  consumer_ok co → c_inflight co = 0 → InvD d w → InvD d (upd_consumer c co w).
Proof.
  intros Hc Hq Hch Hok H0 [HWF Hco Hd Hu]. split; [by apply WF_add_consumer| | |done]; simpl.
  - intros c' co'. rewrite lookup_insert_Some. naive_solver.
  - intros p q Hp. rewrite <-(Hd _ _ Hp). unfold defect; simpl. unfold inflight_sum.
    rewrite map_sum_insert_None by done. unfold inflight_on at 1. rewrite H0. case_decide; lia.
Qed.
