(* ===== verification/Accounting.v ===== *)
(** * Every operation keeps the invariant

    From a store that satisfies [InvD d], each operation of the broker runs
    without a panic and ends (or blocks) in a store that satisfies [InvD d]
    again: no dangling pointer, every consumer within its bounds, and the same
    number of unaccounted messages per queue. *)

From S2P Require Import Prelude GoJson Protocol State Transport Queue Exchange Broker Channel Connection.
From S2P Require Import Invariant.

(** ** Consumers *)

Lemma took_ok msg co : c_inflight co < c_prefetch co → consumer_ok co → consumer_ok (took msg co).
Proof.
  intros Hlt [Hpf Hb Htags Hk]. split; simpl; [done|lia| |].
  - rewrite dom_insert_L, Htags. set_solver.
  - intros t m [[<- <-]|[? ?]]%lookup_insert_Some; eauto.
Qed.

Lemma released_ok t co : consumer_ok co → consumer_ok (released t co).
Proof.
  intros [Hpf Hb Htags Hk]. split; simpl; [done|lia| |].
  - by rewrite dom_delete_L, Htags.
  - intros t' m [? ?]%lookup_delete_Some. eauto.
Qed.

(** After [unregisterConsumer] a consumer holds nothing. *)
Lemma emptied_ok co msgs tags :
  msgs ≡ₚ (map_to_list (c_pendingMessages co)).*2 →
  (∀ t, t ∈ tags ↔ t ∈ c_inflightTags co ∧ t ∉ m_DeliveryTag <$> msgs) →
  consumer_ok co →
  consumer_ok (set_inflight (c_inflight co - Z.of_nat (length msgs)) tags ∅ co).
Proof.
  intros Hm Ht [Hpf Hb Htags Hk]. split; simpl; [done|lia| |by intros ??; rewrite lookup_empty].
  rewrite dom_empty_L. apply leibniz_equiv. intros t. rewrite Ht, Htags.
  split; [|set_solver]. intros [[m Hmt]%elem_of_dom Hnot]. exfalso. apply Hnot.
  apply list_elem_of_fmap. exists m. split; [symmetry; eauto|].
  rewrite Hm. apply list_elem_of_fmap. exists (t, m). by rewrite elem_of_map_to_list.
Qed.

Lemma NewConsumer_ok tag p chp ch : consumer_ok (NewConsumer tag p chp ch).
Proof. split; simpl; [done|unfold prefetch; lia|by rewrite dom_empty_L|]. intros t m. by rewrite lookup_empty. Qed.

#[export] Hint Resolve took_ok released_ok NewConsumer_ok : gomq.

(** ** Queues *)

Section queue_ops.
Context `{Oracle} (d : loc → Z).
Implicit Types w : World.

Lemma queue_of_consumer w c co : InvD d w → w_consumer w !! c = Some co → is_Some (w_queue w !! c_queue co).
Proof. intros [HWF _ _ _] Hc. by apply (wf_consumer w HWF) in Hc as []. Qed.

Lemma inv_enqueue w p msg q :
  w_queue w !! p = Some q → InvD d w →
  InvD d (signalled p (upd_queue p (set_messages (q_messages q ++ [msg]) q) (logged (Enqueued (q_name q)) w))).
Proof.
  intros Hq Hinv. apply inv_signalled.
  eapply InvD_ext; [|eapply (inv_upd_queue _ p q); [done..|]; by eapply (inv_logged_queue d _ w p q 1)].
  shift_solve. rewrite length_app. simpl. lia.
Qed.

Lemma inv_nextTag w p q t : w_queue w !! p = Some q → InvD d w → InvD d (upd_queue p (set_nextTag t q) w).
Proof.
  intros Hq Hinv. eapply InvD_ext; [|by eapply (inv_upd_queue _ p q)]. shift_solve.
Qed.

Lemma skel_signalled p w : same_skel w (signalled p w).
Proof. by split. Qed.
Lemma skel_logged m w : same_skel w (logged m w).
Proof. by split. Qed.

Lemma pres_publish_to w ex rk body p :
  is_Some (w_queue w !! p) → InvD d w →
  wp (publish_to ex rk body p) (λ _ w', InvD d w' ∧ same_skel w w') (λ _, False) w.
Proof.
  intros [q Hq] Hinv. unfold publish_to, alloc_tag; unfold_prims. wp_run.
  set (w1 := upd_queue p (set_nextTag (u16 (q_nextTag q + 1)) q) w).
  assert (InvD d w1) by (by apply inv_nextTag).
  assert (same_skel w w1) by (by eapply skel_upd_queue).
  eapply wp_mono; [| |apply (wp_enqueue p _ w1 (set_nextTag (u16 (q_nextTag q + 1)) q)); simpl; by simplify_map_eq];
    [|done].
  intros [] w' ->. split; [apply inv_enqueue; [simpl; by simplify_map_eq|done]|].
  etrans; [done|]. etrans; [|apply skel_signalled]. etrans; [apply skel_logged|].
  eapply (skel_upd_queue p (set_nextTag (u16 (q_nextTag q + 1)) q)); [simpl; by simplify_map_eq|done].
Qed.

(** [Publish] neither loses nor invents messages. *)
Lemma pres_Publish w ex rk body :
  InvD d w → wp (Broker.Publish ex rk body) (λ _ w', InvD d w' ∧ same_skel w w') (λ _, False) w.
Proof.
  intros Hinv. unfold Broker.Publish. unfold inc. wp_run.
  destruct (b_exchanges (w_broker w) !! ex) as [ep|] eqn:Hep; wp_run.
  2: { split; [by apply inv_logged_neutral|apply skel_logged]. }
  destruct (wf_broker_exchange w (inv_wf _ _ Hinv) _ _ Hep) as (e & He & _).
  eapply wp_mono; [| |eapply (wp_getQueues ep rk (logged (Published ex) w)); exact He]; [|done].
  intros qs w' [[t ->] Hqs]. wp_step.
  set (w1 := with_tick t (logged (Published ex) w)).
  assert (InvD d w1 ∧ same_skel w w1) as [Hw1 Hs1].
  { split; [|by split]. apply (inv_io_eq _ (logged (Published ex) w)), inv_logged_neutral; [by split|done..]. }
  set (P := λ w2 : World, InvD d w2 ∧ same_skel w w2).
  assert (wp (if decide (qs = []) then modify (λ w, logged (PublishUnroutable ex) w) else mret tt)
            (λ _, P) (λ _, False) w1) as Hun.
  { case_decide; wp_run; [|by split]. split; [by apply inv_logged_neutral|etrans; [done|apply skel_logged]]. }
  eapply wp_mono; [| |exact Hun]; [|done]. intros [] w2 HP2. wp_step.
  eapply wp_mono; [| |apply (wp_forM P _ (λ _, False))]; [|done| |done].
  { intros [] w3 ?. by wp_run. }
  intros p w3 Hp [Hinv3 Hs3].
  assert (is_Some (w_queue w3 !! p)) as Hq.
  { rewrite Hqs in Hp. apply list_elem_of_fmap in Hp as ([n p'] & -> & Hp). simpl in *.
    apply elem_of_map_to_list in Hp.
    destruct (wf_binding w (inv_wf _ _ Hinv) _ _ _ _ _ He Hp) as (q & Hq & _).
    skel_lookup Hq (eq_sym (sk_queue _ _ Hs3)). eauto. }
  eapply wp_mono; [| |by apply pres_publish_to]; [|done].
  intros [] w4 [? ?]. split; [done|by etrans].
Qed.
End queue_ops.

(** ** The dispatch goroutine *)

Section dispatch_ops.
Context `{Oracle} (d : loc → Z).
Implicit Types w : World.

Lemma consumers_valid w p q :
  InvD d w → w_queue w !! p = Some q → ∀ c, c ∈ q_consumers q → is_Some (w_consumer w !! c).
Proof.
  intros Hinv Hq c Hc. destruct (wf_queue_consumer w (inv_wf _ _ Hinv) _ _ _ Hq Hc) as (co & ? & _). eauto.
Qed.

Lemma inv_take w p q c co msg rest :
  w_queue w !! p = Some q → q_messages q = msg :: rest → c ∈ q_consumers q →
  w_consumer w !! c = Some co → c_inflight co < c_prefetch co → InvD d w →
  InvD d (upd_dispatch p (DWriting c msg) (upd_consumer c (took msg co)
            (upd_queue p (set_messages rest q) (ticked w)))).
Proof.
  intros Hq Hm Hc Hco Hlt Hinv.
  destruct (wf_queue_consumer w (inv_wf _ _ Hinv) _ _ _ Hq Hc) as (co' & ? & Hcq). simplify_eq.
  apply inv_upd_dispatch; [simpl; rewrite lookup_insert_eq; by eauto| |].
  { simpl. intros c' [= <-]. rewrite lookup_insert_eq. eauto. }
  eapply InvD_ext; [|eapply (inv_upd_consumer _ c co); [done..|apply took_ok; [done|]|]].
  - instantiate (1 := shift (c_queue co) 1 d). shift_solve.
  - by eapply inv_consumer.
  - eapply InvD_ext; [|eapply (inv_upd_queue _ _ q); [done..|by apply inv_ticked]].
    shift_solve. rewrite Hm. simpl. lia.
Qed.

Lemma pres_dispatch_take w p :
  is_Some (w_queue w !! p) → InvD d w → wp (dispatch_take p) (λ _, InvD d) (λ _, False) w.
Proof.
  intros [q Hq] Hinv. eapply wp_mono; [| |apply (wp_dispatch_take p w q); [done|by eapply consumers_valid]];
    [|done].
  intros [] w'. unfold take_post. destruct (q_messages q) as [|msg rest] eqn:Hm.
  - intros ->. by apply inv_upd_dispatch; [eauto|..].
  - intros [[-> _]|(c & co & ? & ? & ? & ->)].
    + apply inv_upd_dispatch; [by eauto|done|by apply inv_ticked].
    + by eapply inv_take.
Qed.

Lemma pres_dispatch_requeue w p c msg co :
  w_consumer w !! c = Some co → c_queue co = p → InvD d w →
  wp (dispatch_requeue p c msg) (λ _, InvD d) (λ _, False) w.
Proof.
  intros Hco <- Hinv. destruct (queue_of_consumer d w c co) as [q Hq]; [done..|].
  eapply wp_mono; [| |by apply (wp_dispatch_requeue _ c msg w q co)]; [|done].
  intros [] w' ->. apply inv_upd_dispatch; [simpl; rewrite lookup_insert_eq; by eauto|done|].
  eapply InvD_ext; [|eapply (inv_upd_consumer _ c co); [done..|apply released_ok|]].
  - instantiate (1 := shift (c_queue co) (-1) d). shift_solve.
  - by eapply inv_consumer.
  - eapply InvD_ext; [|by eapply (inv_upd_queue _ _ q)]. shift_solve.
Qed.

Lemma pres_dispatch_write w p c msg co :
  w_consumer w !! c = Some co → c_queue co = p → InvD d w →
  wp (dispatch_write p c msg) (λ _, InvD d) (λ w', InvD d w' ∧ io_eq w w') w.
Proof.
  intros Hco <- Hinv. destruct (queue_of_consumer d w c co) as [q Hq]; [done..|].
  destruct (wf_consumer w (inv_wf _ _ Hinv) _ _ Hco) as [_ [ch Hch]].
  destruct (wf_channel w (inv_wf _ _ Hinv) _ _ Hch) as [cn Hcn].
  eapply wp_mono; [| |by eapply (wp_dispatch_write _ c msg w q co ch cn)].
  2: { intros w' Hio. split; [by rewrite <-Hio|done]. }
  intros [] w' (r & (w1 & Hio & ->) & _).
  assert (InvD d w1) by (by rewrite <-Hio).
  destruct r; (apply inv_upd_dispatch; [simpl; rewrite (io_queue _ _ Hio); by eauto| |by apply inv_logged_neutral]);
    simpl; [|done]. intros c' [= <-]. rewrite (io_consumer _ _ Hio). eauto.
Qed.

(** Any section of any dispatch goroutine. *)
Lemma pres_dispatch_section w p :
  is_Some (w_queue w !! p) → InvD d w →
  wp (dispatch_section p) (λ _, InvD d) (λ w', InvD d w' ∧ io_eq w w') w.
Proof.
  intros Hq Hinv. pose proof (wf_dispatch w (inv_wf _ _ Hinv) p Hq) as [di Hdi].
  unfold dispatch_section. wp_run.
  assert (∀ c, dispatch_consumer di = Some c → ∃ co, w_consumer w !! c = Some co ∧ c_queue co = p) as Hc
    by (intros c; by eapply wf_dispatch_consumer; [eapply inv_wf|]).
  destruct di as [| | |c msg|c msg|c msg]; try by (split; [|reflexivity]).
  - eapply wp_mono; [| |by apply pres_dispatch_take]; done.
  - destruct (Hc c) as (co & ? & ?); [done|]. by eapply pres_dispatch_write.
  - destruct (Hc c) as (co & ? & ?); [done|].
    eapply wp_mono; [| |by eapply pres_dispatch_requeue]; done.
Qed.
End dispatch_ops.

(** ** Registering and unregistering *)

(** What [unregisterConsumer] leaves alone, besides the output of connections. *)
Record reg_frame (w w' : World) : Prop := {
  rf_broker : w_broker w' = w_broker w;
  rf_consumer : c_skel <$> w_consumer w' = c_skel <$> w_consumer w;
  rf_channel : w_channel w' = w_channel w;
  rf_conn : w_conn w' = w_conn w;
}.

#[export] Instance reg_frame_preorder : PreOrder reg_frame.
Proof. split; [by intros w; split|]. intros w1 w2 w3 [] []. split; congruence. Qed.

Section register_ops.
Context `{Oracle} (d : loc → Z).
Implicit Types w : World.

Lemma inv_set_consumers w p q X :
  w_queue w !! p = Some q →
  (∀ c, c ∈ X → ∃ co, w_consumer w !! c = Some co ∧ c_queue co = p) →
  InvD d w → InvD d (upd_queue p (set_consumers X q) w).
Proof.
  intros Hq HX [HWF Hco Hd Hu]. split; [by apply WF_set_consumers|done| |done].
  intros p' q'. simpl. rewrite lookup_insert_Some. intros [[<- <-]|[? ?]]; [|by apply Hd].
  by rewrite <-(Hd _ _ Hq).
Qed.

Lemma pres_unregisterConsumer w p c q co :
  w_queue w !! p = Some q → w_consumer w !! c = Some co → InvD d w →
  wp (unregisterConsumer p c) (λ _ w', InvD d w' ∧ reg_frame w w') (λ _, False) w.
Proof.
  intros Hq Hco Hinv. eapply wp_mono; [| |by apply (wp_unregisterConsumer p c w q co)]; [|done].
  intros [] w'. case_decide as Hc; [|by intros ->].
  destruct (wf_queue_consumer w (inv_wf _ _ Hinv) _ _ _ Hq Hc) as (co' & ? & Hcq). simplify_eq.
  intros (msgs & tags & Hm & Ht & ->). split.
  2: { split; try done. simpl. rewrite fmap_insert. apply insert_id. by rewrite lookup_fmap, Hco. }
  apply inv_signalled, inv_logged_neutral; [done|].
  set (q1 := set_consumers (q_consumers q ∖ {[c]}) q).
  assert (InvD d (upd_queue (c_queue co) q1 (ticked w))) as H1.
  { apply inv_set_consumers; [done| |by apply inv_ticked].
    intros c' [? _]%elem_of_difference. by eapply (wf_queue_consumer w (inv_wf _ _ Hinv)). }
  assert (upd_queue (c_queue co) (set_messages (msgs ++ q_messages q) q1) (ticked w) =
          upd_queue (c_queue co) (set_messages (msgs ++ q_messages q) q1) (upd_queue (c_queue co) q1 (ticked w))) as ->.
  { unfold upd_queue, with_queue; simpl. by rewrite insert_insert_eq. }
  eapply InvD_ext; [|eapply (inv_upd_consumer _ c co); [done..|by eapply emptied_ok; [..|eapply inv_consumer]|]].
  - instantiate (1 := shift (c_queue co) (- Z.of_nat (length msgs)) d). shift_solve.
  - eapply InvD_ext; [|eapply (inv_upd_queue _ _ q1); [simpl; by rewrite lookup_insert_eq|done|done]].
    shift_solve. rewrite length_app. lia.
Qed.

Lemma pres_RegisterConsumer w tag queue chp :
  is_Some (w_channel w !! chp) → InvD d w →
  wp (RegisterConsumer tag queue chp)
    (λ _ w', InvD d w' ∧ is_Some (w_channel w' !! chp)) (λ _, False) w.
Proof.
  intros [ch Hch] Hinv. unfold RegisterConsumer; unfold_prims. wp_run.
  destruct (b_queues (w_broker w) !! queue) as [p|] eqn:Hp; wp_run; [|by eauto].
  destruct (wf_broker_queue w (inv_wf _ _ Hinv) _ _ Hp) as (q & Hq & <-).
  set (co := NewConsumer tag p chp ch). destruct (ch_consumers ch !! c_tag co) eqn:Htag; wp_run; [by eauto|].
  set (cp := fresh (dom (w_consumer w))).
  assert (w_consumer w !! cp = None) as Hcp by (apply not_elem_of_dom, is_fresh).
  eapply wp_mono; [| |eapply (wp_registerConsumer p cp (upd_consumer cp co w) q); exact Hq]; [|done].
  intros [] w' ->. wp_run.
  set (ch' := mkChannel (ch_id ch) (ch_conn ch) (<[c_tag co:=cp]> (ch_consumers ch))).
  split; [|exists ch'; simpl; by rewrite lookup_insert_eq].
  set (w1 := with_channel (<[chp := ch']> (w_channel w)) (upd_consumer cp co w)).
  assert (InvD d w1) as H1.
  { assert (InvD d (upd_consumer cp co w)) as H1
      by (apply inv_add_consumer; [done|by exists q|by exists ch|apply NewConsumer_ok|done..]).
    eapply InvD_struct; [..|exact H1]; try done. by apply WF_new_consumer; [..|eapply inv_wf]. }
  change (InvD d (logged (ConsumersRegistered (q_name q))
    (signalled p (upd_queue p (set_consumers (q_consumers q ∪ {[cp]}) q) w1)))).
  apply inv_logged_neutral; [done|]. apply inv_signalled, inv_set_consumers; [done| |done]. simpl.
  intros c [Hc| ->%elem_of_singleton]%elem_of_union; [|rewrite lookup_insert_eq; by eauto].
  destruct (wf_queue_consumer w (inv_wf _ _ Hinv) _ _ _ Hq Hc) as (co' & ? & ?). exists co'.
  rewrite lookup_insert_ne by congruence. done.
Qed.
End register_ops.

(** ** Acknowledgements *)

Section ack_ops.
Context `{Oracle} (d : loc → Z).
Implicit Types w : World.

(** A consumer gives a message up: its queue is owed one. *)
Lemma inv_release w c co t :
  w_consumer w !! c = Some co → InvD d w →
  InvD (shift (c_queue co) 1 d) (upd_consumer c (released t co) w).
Proof.
  intros Hco Hinv. eapply InvD_ext; [|eapply (inv_upd_consumer _ c co); [done..| |done]].
  - shift_solve.
  - by eapply released_ok, inv_consumer.
Qed.

(** One message of queue [p] is settled by a call on the metrics. *)
Lemma inv_settle w p q m :
  w_queue w !! p = Some q → (∀ n, metric_weight n m = if decide (q_name q = n) then -1 else 0) →
  InvD (shift p 1 d) w → InvD d (logged m w).
Proof.
  intros Hq Hm Hinv. eapply InvD_ext; [|by eapply (inv_logged_queue _ m w p q (-1))]. shift_solve.
Qed.

Lemma pres_Ack w name t :
  InvD d w → wp (Broker.Ack name t) (λ _ w', InvD d w' ∧ same_skel w w') (λ _, False) w.
Proof.
  intros Hinv. unfold Broker.Ack; unfold_prims. wp_run.
  destruct (b_queues (w_broker w) !! name) as [p|] eqn:Hp; wp_run; [|by split].
  destruct (wf_broker_queue w (inv_wf _ _ Hinv) _ _ Hp) as (q & Hq & Hn).
  eapply wp_deref; [exact Hq|]. wp_run. apply wp_range. intros cs Hcs. wp_step.
  eapply wp_mono; [| |apply (wp_for_return (λ w', w' = ticked w)
    (λ r w', match r with
             | Some _ => InvD (shift p 1 d) w' ∧ same_skel w w'
             | None => w' = ticked w end) _ (λ _, False))]; [|done| |done|done].
  - intros [[]|] w'; [|intros ->; wp_run; split; [by apply inv_ticked|by split]].
    intros [Hinv' Hs]. wp_run. subst name.
    skel_lookup Hq (eq_sym (sk_queue _ _ Hs)). injection Eb as En _.
    split; [|by etrans; [exact Hs|split]].
    eapply (inv_settle _ p b); [exact Hb|by rewrite En|by apply inv_signalled].
  - intros c w' Hc ->. rewrite Hcs, elem_of_elements in Hc. unfold ack_consumer; unfold_prims.
    destruct (wf_queue_consumer w (inv_wf _ _ Hinv) _ _ _ Hq Hc) as (co & Hco & <-).
    wp_step. eapply wp_deref; [exact Hco|]. case_decide; wp_run; [|done]. split.
    + by apply (inv_release (ticked w)), inv_ticked.
    + etrans; [|by eapply (skel_upd_consumer c co)]. by split.
Qed.

(** What becomes of a message its consumer gave up. *)
Lemma pres_nack_dispose w p msg b :
  is_Some (w_queue w !! p) → InvD (shift p 1 d) w →
  wp (nack_dispose p msg b) (λ _ w', InvD d w') (λ _, False) w.
Proof.
  intros [q Hq] Hinv. unfold nack_dispose; unfold_prims. wp_run.
  assert (InvD (shift p 1 d) (logged (Nacked (q_name q) (format_bool b)) w)) as H1
    by (by apply inv_logged_neutral).
  set (w1 := logged (Nacked (q_name q) (format_bool b)) w) in *.
  match goal with |- wp _ _ _ ?x => change x with w1 end.
  eapply wp_mono with (Q := λ _, InvD d) (B := λ _, False); [|done|].
  { intros [] w' ?. wp_run. by apply inv_signalled. }
  destruct b; [|case_decide]; wp_run.
  - eapply InvD_ext; [|by eapply (inv_upd_queue _ p q _ w1)]. shift_solve.
  - eapply wp_mono; [| |apply (pres_Publish d)]; [| done |by eapply (inv_settle w1 p q)].
    intros r w' [? _]. by wp_run.
  - by eapply (inv_settle w1 p q).
Qed.
End ack_ops.

(** ** Declarations *)

Lemma map_sum_zero `{Countable K} {V} (f : V → Z) (m : gmap K V) :
  (∀ k v, m !! k = Some v → f v = 0) → map_sum f m = 0.
Proof.
  induction m as [|k v m Hk _ IH] using map_first_key_ind; intros Hf; [by rewrite map_sum_empty|].
  rewrite map_sum_insert_None, (Hf k) by (done || by simplify_map_eq). rewrite IH; [done|].
  intros k' v' Hk'. apply (Hf k'). rewrite lookup_insert_ne; [done|congruence].
Qed.

Section declare_ops.
Implicit Types w : World.

Lemma pres_DeclareQueue w name dlx rk :
  Inv w → wp (DeclareQueue name dlx rk) (λ _ w', Inv w' ∧ w_channel w' = w_channel w) (λ _, False) w.
Proof.
  intros Hinv. unfold DeclareQueue, NewQueue, put_broker; unfold_prims. wp_run.
  destruct (b_queues (w_broker w) !! name) as [p|] eqn:Hn; wp_run; [done|]. split; [|done].
  set (p := fresh (dom (w_queue w))).
  assert (w_queue w !! p = None) as Hp by (apply not_elem_of_dom, is_fresh).
  destruct Hinv as [HWF Hco Hd Hu]. split; [by apply WF_new_queue|done|..]; simpl.
  - intros p' q' [[<- <-]|[? Hq']]%lookup_insert_Some; [|by apply Hd].
    unfold defect; simpl. rewrite Hu by done. unfold inflight_sum. rewrite map_sum_zero; [done|].
    intros c co Hc. unfold inflight_on. case_decide as E; [|done].
    destruct (wf_consumer w HWF _ _ Hc) as [[q Hq] _]. congruence.
  - intros n [? Hn']%lookup_insert_None. by apply Hu.
Qed.

Lemma pres_DeclareExchange w name :
  Inv w → wp (DeclareExchange name) (λ _ w', Inv w' ∧ w_channel w' = w_channel w) (λ _, False) w.
Proof.
  intros Hinv. unfold DeclareExchange, NewExchange, put_broker; unfold_prims. wp_run.
  destruct (b_exchanges (w_broker w) !! name) as [p|] eqn:Hn; wp_run; [done|]. split; [|done].
  set (p := fresh (dom (w_exchange w))).
  assert (w_exchange w !! p = None) as Hp by (apply not_elem_of_dom, is_fresh).
  destruct Hinv as [HWF Hco Hd Hu]. split; [by apply WF_new_exchange|done..].
Qed.

Lemma pres_BindQueue w ex qn rk :
  Inv w → wp (BindQueue ex qn rk) (λ _ w', Inv w' ∧ w_channel w' = w_channel w) (λ _, False) w.
Proof.
  intros Hinv. unfold BindQueue, bind; unfold_prims. wp_run.
  destruct (b_exchanges (w_broker w) !! ex) as [ep|] eqn:He; [|by wp_run].
  destruct (b_queues (w_broker w) !! qn) as [qp|] eqn:Hq; [|by wp_run].
  destruct (wf_broker_exchange w (inv_wf _ _ Hinv) _ _ He) as (e & He' & _).
  destruct (wf_broker_queue w (inv_wf _ _ Hinv) _ _ Hq) as (q & Hq' & _).
  wp_run. split; [|done]. destruct Hinv as [HWF Hco Hd Hu]. split; [by apply WF_bind|done..].
Qed.
End declare_ops.

(** ** Handlers *)

Section handlers.
Context `{Oracle}.
Implicit Types w : World.

Lemma pres_reply {T} `{JEncode T} w chp env ty (msg : T) :
  is_Some (w_channel w !! chp) → Inv w → wp (reply chp env ty msg) (λ _, Inv) Inv w.
Proof.
  intros [ch Hch] Hinv. unfold reply; unfold_prims. wp_run.
  eapply wp_mono; [| |apply wp_WriteEnvelope_frame; by eapply wf_channel, Hch; eapply inv_wf].
  - intros r w' Hio. wp_run. unfold Inv. by rewrite <-Hio.
  - intros w' Hio. unfold Inv. by rewrite <-Hio.
Qed.

(** A loop over the consumers of a channel, some of which are unregistered. *)
Lemma pres_cleanup w chp :
  is_Some (w_channel w !! chp) → Inv w →
  wp (cleanup chp) (λ _ w', Inv w' ∧ reg_frame w w') (λ _, False) w.
Proof.
  intros [ch Hch] Hinv. unfold cleanup; unfold_prims. wp_run. apply wp_range. intros cs Hcs.
  apply (wp_forM (λ w', Inv w' ∧ reg_frame w w')); [|split; [by apply inv_ticked|by split]].
  intros [tag c] w' Hc [Hinv' Hrf]. rewrite Hcs, elem_of_map_to_list in Hc.
  destruct (wf_channel_consumer w (inv_wf _ _ Hinv) _ _ _ _ Hch Hc) as (co & Hco & _).
  skel_lookup Hco (eq_sym (rf_consumer _ _ Hrf)).
  wp_step. eapply wp_deref; [exact Hb|].
  destruct (wf_consumer w' (inv_wf _ _ Hinv') _ _ Hb) as [[q Hq] _].
  eapply wp_mono; [| |by eapply pres_unregisterConsumer]; [|done].
  intros [] w2 [? ?]. split; [done|by etrans].
Qed.

Lemma pres_HandlePublish w chp env :
  is_Some (w_channel w !! chp) → Inv w → wp (HandlePublish chp env) (λ _, Inv) Inv w.
Proof.
  intros Hch Hinv. unfold HandlePublish. destruct (Unmarshal _) as [event [e|]]; [by wp_run|]. wp_step.
  eapply wp_mono; [| |apply (pres_Publish (λ _, 0)); exact Hinv]; [|done].
  intros [e|] w' [Hinv' Hs]; [|by wp_run]. apply pres_reply; [|done]. by rewrite (sk_channel _ _ Hs).
Qed.

Lemma pres_HandleConsume w chp env :
  is_Some (w_channel w !! chp) → Inv w → wp (HandleConsume chp env) (λ _, Inv) Inv w.
Proof.
  intros Hch Hinv. unfold HandleConsume. destruct (Unmarshal _) as [event [e|]]; [by apply pres_reply|].
  wp_step. eapply wp_mono; [| |apply (pres_RegisterConsumer (λ _, 0)); [exact Hch|exact Hinv]]; [|done].
  intros [e|tag] w' [Hinv' Hs]; by apply pres_reply.
Qed.

Lemma pres_HandleAck w chp env :
  is_Some (w_channel w !! chp) → Inv w → wp (HandleAck chp env) (λ _, Inv) Inv w.
Proof.
  intros Hch Hinv. unfold HandleAck. destruct (Unmarshal _) as [event [e|]]; [by apply pres_reply|].
  destruct Hch as [ch Hch]. unfold_prims. wp_run. apply wp_range. intros cs Hcs. wp_step.
  eapply wp_mono; [| |apply (wp_for_return (λ w', w' = ticked w) (λ _, Inv) _ Inv)]; [|done| | |done].
  - intros r w' ?. by wp_run.
  - intros [tag c] w' Hc ->. rewrite Hcs, elem_of_map_to_list in Hc.
    destruct (wf_channel_consumer w (inv_wf _ _ Hinv) _ _ _ _ Hch Hc) as (co & Hco & _).
    wp_step. eapply wp_deref; [exact Hco|]. case_decide; [|by wp_run].
    destruct (wf_consumer w (inv_wf _ _ Hinv) _ _ Hco) as [[q Hq] _].
    wp_step. eapply wp_deref; [exact Hq|]. wp_step.
    eapply wp_mono; [| |apply (pres_Ack (λ _, 0)); by apply inv_ticked]; [|done].
    intros r w' [? _]. by wp_run.
  - intros w' ->. by apply inv_ticked.
Qed.

Lemma pres_HandleNack w chp env :
  is_Some (w_channel w !! chp) → Inv w → wp (HandleNack chp env) (λ _, Inv) Inv w.
Proof.
  intros Hch Hinv. unfold HandleNack. destruct (Unmarshal _) as [event [e|]]; [by apply pres_reply|].
  destruct Hch as [ch Hch]. unfold_prims. wp_run. apply wp_range. intros cs Hcs. wp_step.
  eapply wp_mono; [| |apply (wp_for_return (λ w', w' = ticked w) (λ _, Inv) _ Inv)]; [|done| | |done].
  - intros r w' ?. by wp_run.
  - intros [tag c] w' Hc ->. rewrite Hcs, elem_of_map_to_list in Hc.
    destruct (wf_channel_consumer w (inv_wf _ _ Hinv) _ _ _ _ Hch Hc) as (co & Hco & _).
    destruct (wf_consumer w (inv_wf _ _ Hinv) _ _ Hco) as [Hq _].
    wp_step. unfold nack_take; unfold_prims. wp_step. eapply wp_deref; [exact Hco|].
    destruct (c_pendingMessages co !! Nack_DeliveryTag event) as [msg|]; wp_run; [|done].
    eapply wp_deref; [simpl; by rewrite lookup_insert_eq|]. wp_step. simpl.
    eapply wp_mono; [| |apply (pres_nack_dispose (λ _, 0) (upd_consumer c (released (Nack_DeliveryTag event) co) (ticked w)))];
      [|done|exact Hq|by apply (inv_release (λ _, 0) (ticked w)), inv_ticked].
    intros [] w' ?. by wp_run.
  - intros w' ->. by apply inv_ticked.
Qed.

Lemma pres_route w chp env :
  is_Some (w_channel w !! chp) → Inv w → wp (route chp env) (λ _, Inv) Inv w.
Proof.
  intros Hch Hinv. unfold route. repeat case_decide.
  - by apply pres_HandlePublish.
  - by apply pres_HandleConsume.
  - by apply pres_HandleAck.
  - by apply pres_HandleNack.
  - unfold HandleQueueDeclare. destruct (Unmarshal _) as [event e]. wp_step.
    eapply wp_mono; [| |by apply pres_DeclareQueue]; [|done].
    intros [] w' [? E]. apply pres_reply; [by rewrite E|done].
  - unfold HandleExchangeDeclare. destruct (Unmarshal _) as [event e]. wp_step.
    eapply wp_mono; [| |by apply pres_DeclareExchange]; [|done].
    intros [] w' [? E]. apply pres_reply; [by rewrite E|done].
  - unfold HandleQueueBind. destruct (Unmarshal _) as [event [e|]]; [by apply pres_reply|]. wp_step.
    eapply wp_mono; [| |by apply pres_BindQueue]; [|done].
    intros r w' [? E]. apply pres_reply; [by rewrite E|done].
  - by wp_run.
Qed.
End handlers.

(** ** Connections *)

Section connections.
Context `{Oracle}.
Implicit Types w : World.

Lemma inv_upd_conn d w p cn :
  (∀ id chp, cn_channels cn !! id = Some chp →
     ∃ cn0, w_conn w !! p = Some cn0 ∧ cn_channels cn0 !! id = Some chp) →
  InvD d w → InvD d (with_conn (<[p := cn]> (w_conn w)) w).
Proof. intros Hcn Hinv. eapply InvD_struct; [..|exact Hinv]; try done. by eapply WF_conn, inv_wf. Qed.

Lemma pres_conn_cleanup w p :
  is_Some (w_conn w !! p) → Inv w →
  wp (conn_cleanup p) (λ _ w', Inv w' ∧ reg_frame w w') (λ _, False) w.
Proof.
  intros [cn Hcn] Hinv. unfold conn_cleanup; unfold_prims. wp_run. apply wp_range. intros chs Hchs.
  apply (wp_forM (λ w', Inv w' ∧ reg_frame w w')); [|split; [by apply inv_ticked|by split]].
  intros [id chp] w' Hc [Hinv' Hrf]. rewrite Hchs, elem_of_map_to_list in Hc.
  destruct (wf_conn_channel w (inv_wf _ _ Hinv) _ _ _ _ Hcn Hc) as (ch & Hch & _).
  eapply wp_mono; [| |apply pres_cleanup]; [|done|rewrite (rf_channel _ _ Hrf); by eauto|done].
  intros [] w2 [? ?]. split; [done|by etrans].
Qed.

(** A reply on connection [p] at the end of a handler. *)
Lemma pres_conn_reply {T} `{JEncode T} w p id ty req (msg : T) :
  is_Some (w_conn w !! p) → Inv w →
  wp (WriteEnvelope p id ty req msg ≫= λ _, mret tt) (λ _, Inv) Inv w.
Proof.
  intros Hp Hinv. wp_step. eapply wp_mono; [| |by apply wp_WriteEnvelope_frame].
  - intros r w' Hio. wp_run. unfold Inv. by rewrite <-Hio.
  - intros w' Hio. unfold Inv. by rewrite <-Hio.
Qed.

Lemma pres_Handle w p env :
  is_Some (w_conn w !! p) → Inv w → wp (Handle p env) (λ _, Inv) Inv w.
Proof.
  intros [cn Hcn] Hinv. unfold Handle. case_decide; [|case_decide].
  - unfold ChannelOpen. destruct (Unmarshal _) as [event e]. unfold_prims. wp_run.
    set (chp := fresh (dom (w_channel w))).
    assert (w_channel w !! chp = None) as Hchp by (apply not_elem_of_dom, is_fresh).
    apply wp_bind_inv, pres_conn_reply; [simpl; rewrite lookup_insert_eq; by eauto|].
    destruct Hinv as [HWF Hco Hd Hu]. split; [by apply (WF_open_channel w)|done..].
  - unfold ChannelClose; unfold_prims. wp_run.
    set (w1 := with_conn _ w).
    assert (Inv w1) as Hw1.
    { apply inv_upd_conn; [|done]. simpl. intros id chp [_ ?]%lookup_delete_Some. eauto. }
    assert (is_Some (w_conn w1 !! p)) as Hp1 by (simpl; rewrite lookup_insert_eq; by eauto).
    destruct (cn_channels cn !! env_ChannelID env) as [chp|] eqn:Hid.
    + destruct (wf_conn_channel w (inv_wf _ _ Hinv) _ _ _ _ Hcn Hid) as (ch & Hch & _).
      eapply wp_mono; [| |apply pres_cleanup]; [|done|by exists ch|done].
      intros [] w2 [? Hrf]. apply pres_conn_reply; [by rewrite (rf_conn _ _ Hrf)|done].
    + wp_run. apply wp_bind_inv. by apply pres_conn_reply.
  - unfold routeToChannel; unfold_prims. wp_run.
    destruct (cn_channels cn !! env_ChannelID env) as [chp|] eqn:Hid.
    + destruct (wf_conn_channel w (inv_wf _ _ Hinv) _ _ _ _ Hcn Hid) as (ch & Hch & _).
      apply pres_route; [by eauto|done].
    + apply pres_conn_reply; [by eauto|done].
Qed.

Lemma pres_conn_read {A} (f : Reader → A * Reader) w p (Q : A → World → Prop) B cn :
  w_conn w !! p = Some cn → Inv w →
  (∀ a r w', f (cn_reader cn) = (a, r) → Inv w' →
     w' = with_conn (<[p := set_reader r cn]> (w_conn w)) w → Q a w') →
  wp (conn_read f p) Q B w.
Proof.
  intros Hcn Hinv HQ. unfold conn_read; unfold_prims. wp_run.
  destruct (f (cn_reader cn)) as [a r] eqn:E. wp_run. eapply HQ; [done| |done].
  apply inv_upd_conn; [|done]. simpl. eauto.
Qed.

Lemma pres_serve_one w p :
  is_Some (w_conn w !! p) → Inv w → wp (serve_one p) (λ _, Inv) Inv w.
Proof.
  intros [cn Hcn] Hinv. unfold serve_one. wp_step. eapply pres_conn_read; [done..|].
  intros [env [e|]] r w' _ Hinv' ->; [by wp_run|]. wp_step.
  eapply wp_mono; [| |apply pres_Handle]; [|done| |done].
  - intros [] w' ?. by wp_run.
  - simpl. rewrite lookup_insert_eq. by eauto.
Qed.

(** The invariant and a live pointer survive each step of the handshake. *)
Definition conn_inv (p : loc) (w : World) : Prop := Inv w ∧ is_Some (w_conn w !! p).

Lemma pres_read {A} (f : Reader → A * Reader) w p :
  conn_inv p w → wp (conn_read f p) (λ _, conn_inv p) Inv w.
Proof.
  intros [Hinv [cn Hcn]]. eapply pres_conn_read; [done..|]. intros a r w' _ ? ->. split; [done|].
  simpl. rewrite lookup_insert_eq. by eauto.
Qed.

Lemma pres_set_conn_state w p s : conn_inv p w → wp (set_conn_state p s) (λ _, conn_inv p) Inv w.
Proof.
  intros [Hinv [cn Hcn]]. unfold set_conn_state; unfold_prims. wp_run. split.
  - apply inv_upd_conn; [|done]. simpl. eauto.
  - simpl. rewrite lookup_insert_eq. by eauto.
Qed.

Lemma pres_WriteMessage {T} `{JEncode T} w p (msg : T) :
  conn_inv p w → wp (WriteMessage p msg) (λ _, conn_inv p) Inv w.
Proof.
  intros [Hinv Hp]. eapply wp_mono; [| |by apply wp_send_frame].
  - intros r w' Hio. split; [unfold Inv; by rewrite <-Hio|]. by rewrite <-(io_eq_conn w w').
  - intros w' Hio. unfold Inv. by rewrite <-Hio.
Qed.

Lemma pres_RunHandshake w p : conn_inv p w → wp (RunHandshake p) (λ _, conn_inv p) Inv w.
Proof.
  intros Hinv. unfold RunHandshake.
  repeat first
    [ progress (wp_step; cbn beta)
    | match goal with
      | |- wp (match ?o with Some _ => _ | None => _ end) _ _ _ => destruct o; [by wp_run|]
      | |- wp (conn_read _ _) _ _ _ => eapply wp_mono; [| |by apply pres_read]; [clear; intros ? ? ?|done]
      | |- wp (set_conn_state _ _) _ _ _ => eapply wp_mono; [| |by apply pres_set_conn_state]; [clear; intros ? ? ?|done]
      | |- wp (WriteMessage _ _) _ _ _ => eapply wp_mono; [| |by apply pres_WriteMessage]; [clear; intros ? ? ?|done]
      end ].
  done.
Qed.
End connections.
