(* ===== verification/Frame.v ===== *)
(** * What code leaves alone

    [respects R m]: whatever the store, [m] relates it by [R] to the one it leaves
    behind.  [Class Frame R] lists the commands through which broker code below the
    connection changes the store; a relation that all of them respect is respected
    by every handler, by every section of a dispatch goroutine and by every
    clean-up ([frame_route], [frame_dispatch_section], [frame_conn_cleanup]).  The
    proofs are syntactic, by the hint database [frame].

    Two instances: [grows] (no object is freed, no metric goes back, the server's
    set of connections is untouched) and [same_core] (the reader, the state and the
    channels of every connection are untouched). *)

From S2P Require Import Prelude GoJson Protocol State Transport Queue Exchange Broker Channel Connection.

Definition respects (R : relation World) {A} (m : M A) : Prop := ∀ w,
  match m w with Done _ w' | Blocked w' => R w w' | Panicked => True end.

Lemma wp_respects R {A} (m : M A) Q B w :
  respects R m → wp m Q B w → wp m (λ a w', Q a w' ∧ R w w') (λ w', B w' ∧ R w w') w.
Proof. intros Hm. specialize (Hm w). unfold wp. by destruct (m w). Qed.

Lemma respects_Done R {A} (m : M A) a w w' : respects R m → m w = Done a w' → R w w'.
Proof. intros Hm E. specialize (Hm w). by rewrite E in Hm. Qed.

Lemma respects_Blocked R {A} (m : M A) w w' : respects R m → m w = Blocked w' → R w w'.
Proof. intros Hm E. specialize (Hm w). by rewrite E in Hm. Qed.

(** The counters only [Server] increments. *)
Definition conn_metric (m : MetricCall) : bool :=
  match m with ConnectionsOpened | ConnectionsClosed | HandshakeFailures => true | _ => false end.

Class Frame `{Oracle} (R : relation World) := {
  #[global] fr_preorder :: PreOrder R;
  fr_put_queue p q : respects R (put_queue p q);
  fr_put_exchange p e : respects R (put_exchange p e);
  fr_put_consumer p c : respects R (put_consumer p c);
  fr_put_channel p c : respects R (put_channel p c);
  fr_set_dispatch p d : respects R (set_dispatch p d);
  fr_signal p : respects R (signal p);
  fr_inc m : conn_metric m = false → respects R (inc m);
  fr_put_broker b : respects R (put_broker b);
  fr_range A (l : list A) : respects R (range l);
  fr_send p v : respects R (send p v);
}.

Create HintDb frame.

Section control.
Context (R : relation World) `{!PreOrder R}.

Lemma respects_ret {A} (a : A) : respects R (mret a).
Proof. intros w. simpl. reflexivity. Qed.

Lemma respects_bind {A C} (m : M A) (f : A → M C) :
  respects R m → (∀ a, respects R (f a)) → respects R (m ≫= f).
Proof.
  intros Hm Hf w. unfold mbind, prog_bind. specialize (Hm w). destruct (m w) as [a w'|w'|]; [|done..].
  specialize (Hf a w'). destruct (f a w'); [by etrans..|done].
Qed.

Lemma respects_forM {A} (l : list A) (f : A → M unit) :
  (∀ a, respects R (f a)) → respects R (forM_ l f).
Proof. intros Hf. induction l; [apply respects_ret|]. by apply respects_bind. Qed.

Lemma respects_for_return {A B} (l : list A) (f : A → M (option B)) :
  (∀ a, respects R (f a)) → respects R (for_return l f).
Proof.
  intros Hf. induction l; [apply respects_ret|]. apply respects_bind; [done|].
  intros [r|]; [apply respects_ret|done].
Qed.

Lemma respects_gets {A} (f : World → A) : respects R (gets f).
Proof. intros w. simpl. reflexivity. Qed.

Lemma respects_block {A} : respects R (block : M A).
Proof. intros w. simpl. reflexivity. Qed.

Lemma respects_panic {A} : respects R (panic : M A).
Proof. done. Qed.

Lemma respects_deref {A} (f : World → option A) : respects R (deref f).
Proof. intros w. unfold deref. destruct (f w); [reflexivity|done]. Qed.

Lemma respects_get_queue p : respects R (get_queue p).
Proof. apply respects_deref. Qed.
Lemma respects_get_exchange p : respects R (get_exchange p).
Proof. apply respects_deref. Qed.
Lemma respects_get_consumer p : respects R (get_consumer p).
Proof. apply respects_deref. Qed.
Lemma respects_get_channel p : respects R (get_channel p).
Proof. apply respects_deref. Qed.
Lemma respects_get_conn p : respects R (get_conn p).
Proof. apply respects_deref. Qed.
End control.

Lemma respects_modify (R : relation World) (f : World → World) : (∀ w, R w (f w)) → respects R (modify f).
Proof. intros Hf w. apply Hf. Qed.

#[export] Hint Resolve respects_ret respects_gets respects_block respects_panic respects_deref respects_get_queue
  respects_get_exchange respects_get_consumer respects_get_channel respects_get_conn
  fr_put_queue fr_put_exchange fr_put_consumer fr_put_channel fr_set_dispatch fr_signal fr_inc
  fr_put_broker fr_range fr_send fr_preorder : frame.

(** Follows the syntax of a program down to its primitive commands. *)
Ltac frame_step :=
  lazymatch goal with
  | |- respects _ (_ ≫= _) => apply respects_bind; [typeclasses eauto| |intros ?]
  | |- respects _ (forM_ _ _) => apply respects_forM; [typeclasses eauto|intros ?]
  | |- respects _ (for_return _ _) => apply respects_for_return; [typeclasses eauto|intros ?]
  | |- respects _ (match ?x with _ => _ end) => destruct x
  | |- respects _ (let '_ := ?x in _) => destruct x
  | |- respects _ _ => solve [eauto with frame typeclass_instances]
  end.
Ltac frame_solve := repeat frame_step.

Section code.
Context `{Oracle} (R : relation World) `{!Frame R}.

Lemma frame_WriteEnvelope {T} `{JEncode T} p id ty req (msg : T) :
  respects R (WriteEnvelope p id ty req msg).
Proof. apply fr_send. Qed.
Lemma frame_WriteMessage {T} `{JEncode T} p (msg : T) : respects R (WriteMessage p msg).
Proof. apply fr_send. Qed.
Hint Resolve frame_WriteEnvelope frame_WriteMessage : frame.

Lemma frame_unregisterConsumer p c : respects R (unregisterConsumer p c).
Proof. unfold unregisterConsumer, requeue_pending. frame_solve. Qed.
Lemma frame_dispatch_section p : respects R (dispatch_section p).
Proof. unfold dispatch_section, dispatch_take, dispatch_write, dispatch_requeue, selectConsumer. frame_solve. Qed.
Hint Resolve frame_unregisterConsumer : frame.

Lemma frame_getQueues p rk : respects R (getQueues p rk).
Proof.
  unfold getQueues. frame_solve. generalize (@nil loc).
  induction a0 as [|[rk' m] kvs IH]; intros l; simpl; frame_solve; apply IH.
Qed.
Hint Resolve frame_getQueues : frame.

Lemma frame_Publish ex rk body : respects R (Broker.Publish ex rk body).
Proof. unfold Broker.Publish, publish_to, alloc_tag, enqueue. frame_solve. Qed.
Lemma frame_RegisterConsumer t q ch : respects R (RegisterConsumer t q ch).
Proof. unfold RegisterConsumer, registerConsumer. cbv zeta. frame_solve. Qed.
Lemma frame_Ack q t : respects R (Broker.Ack q t).
Proof. unfold Broker.Ack, ack_consumer. frame_solve. Qed.
Lemma frame_DeclareQueue n x y : respects R (DeclareQueue n x y).
Proof. unfold DeclareQueue, NewQueue. frame_solve. Qed.
Lemma frame_DeclareExchange n : respects R (DeclareExchange n).
Proof. unfold DeclareExchange, NewExchange. frame_solve. Qed.
Lemma frame_BindQueue e q rk : respects R (BindQueue e q rk).
Proof. unfold BindQueue, bind. frame_solve. Qed.
Hint Resolve frame_Publish frame_RegisterConsumer frame_Ack frame_DeclareQueue frame_DeclareExchange
  frame_BindQueue : frame.

Lemma frame_cleanup ch : respects R (cleanup ch).
Proof. unfold cleanup. frame_solve. Qed.
Hint Resolve frame_cleanup : frame.

Lemma frame_route ch env : respects R (route ch env).
Proof.
  unfold route, HandlePublish, HandleConsume, HandleAck, HandleNack, HandleQueueDeclare,
    HandleExchangeDeclare, HandleQueueBind, nack_take, nack_dispose, reply_error, reply.
  frame_solve.
Qed.
Hint Resolve frame_route : frame.

Lemma frame_conn_cleanup p : respects R (conn_cleanup p).
Proof. unfold conn_cleanup. frame_solve. Qed.
Hint Resolve frame_conn_cleanup : frame.

Lemma frame_routeToChannel p env : respects R (routeToChannel p env).
Proof. unfold routeToChannel. frame_solve. Qed.

(** The code of one connection, which also assigns to that connection. *)
Context (p : loc) (put_conn_ok : ∀ c, respects R (put_conn p c)).
Hint Resolve put_conn_ok frame_routeToChannel : frame.

Lemma frame_Handle env : respects R (Handle p env).
Proof. unfold Handle, ChannelOpen, ChannelClose. cbv zeta. frame_solve. Qed.
Hint Resolve frame_Handle : frame.

Lemma frame_conn_read {A} (f : Reader → A * Reader) : respects R (conn_read f p).
Proof. unfold conn_read. frame_solve. Qed.
Hint Resolve frame_conn_read : frame.

Lemma frame_serve_one : respects R (serve_one p).
Proof. unfold serve_one. frame_solve. Qed.

Lemma frame_RunHandshake : respects R (RunHandshake p).
Proof. unfold RunHandshake, set_conn_state. frame_solve. Qed.
End code.

#[export] Hint Resolve frame_dispatch_section frame_conn_cleanup frame_cleanup frame_route
  frame_routeToChannel frame_WriteEnvelope frame_WriteMessage : frame.

(** ** Nothing is freed and no metric goes back *)

Record grows (w w' : World) : Prop := {
  g_queue : dom (w_queue w) ⊆ dom (w_queue w');
  g_exchange : dom (w_exchange w) ⊆ dom (w_exchange w');
  g_consumer : dom (w_consumer w) ⊆ dom (w_consumer w');
  g_channel : dom (w_channel w) ⊆ dom (w_channel w');
  g_conn : dom (w_conn w) ⊆ dom (w_conn w');
  g_dispatch : dom (w_dispatch w) ⊆ dom (w_dispatch w');
  g_connections : w_connections w' = w_connections w;
  g_config : w_config w' = w_config w;
  g_metrics : ∃ l, w_metrics w' = w_metrics w ++ l ∧ Forall (λ m, conn_metric m = false) l;
}.

(** An update that adds no metric call. *)
Lemma grows_intro w w' :
  dom (w_queue w) ⊆ dom (w_queue w') → dom (w_exchange w) ⊆ dom (w_exchange w') →
  dom (w_consumer w) ⊆ dom (w_consumer w') → dom (w_channel w) ⊆ dom (w_channel w') →
  dom (w_conn w) ⊆ dom (w_conn w') → dom (w_dispatch w) ⊆ dom (w_dispatch w') →
  w_connections w' = w_connections w → w_config w' = w_config w → w_metrics w' = w_metrics w →
  grows w w'.
Proof. intros. split; try done. exists []. by rewrite app_nil_r. Qed.

#[export] Instance grows_preorder : PreOrder grows.
Proof.
  split; [by intros w; apply grows_intro|].
  intros w1 w2 w3 [?????? ?? (l1&E1&?)] [?????? ?? (l2&E2&?)]. split; try by etrans.
  exists (l1 ++ l2). split; [by rewrite E2, E1, <-app_assoc|by apply Forall_app].
Qed.

Lemma grows_io_eq w w' : io_eq w w' → grows w w'.
Proof.
  intros Hio. pose proof (io_eq_conn w w') as Hc. destruct Hio. apply grows_intro; try congruence.
  intros p. rewrite !elem_of_dom. apply Hc. by split.
Qed.

(** A write on any pointer: a missing connection panics. *)
Lemma send_io_eq `{Oracle} p v : respects io_eq (send p v).
Proof.
  intros w. destruct (w_conn w !! p) as [cn|] eqn:Hp.
  - pose proof (wp_send_frame p v w (mk_is_Some _ _ Hp)) as Hs. unfold wp in Hs. by destruct (send p v w).
  - unfold send, get_conn, mbind, prog_bind, deref. by rewrite Hp.
Qed.

Lemma respects_mono (R R' : relation World) {A} (m : M A) :
  (∀ w w', R w w' → R' w w') → respects R m → respects R' m.
Proof. intros HR Hm w. specialize (Hm w). destruct (m w); auto. Qed.

Lemma grows_put_conn p c : respects grows (put_conn p c).
Proof. apply respects_modify. intros w. apply grows_intro; simpl; try done. set_solver. Qed.

#[export] Instance grows_frame `{Oracle} : Frame grows.
Proof.
  split; [typeclasses eauto|..]; intros; try (apply respects_modify; intros w; apply grows_intro; simpl; try done;
    by (set_solver || rewrite ?dom_alter_L)).
  - apply respects_modify. intros w. split; simpl; try done. exists [m]. auto.
  - eapply respects_mono, send_io_eq. apply grows_io_eq.
Qed.

#[export] Hint Resolve grows_put_conn : frame.

Lemma grows_serve_one `{Oracle} p : respects grows (serve_one p).
Proof. apply frame_serve_one; auto with frame typeclass_instances. Qed.

Lemma grows_RunHandshake `{Oracle} p : respects grows (RunHandshake p).
Proof. apply frame_RunHandshake; auto with frame typeclass_instances. Qed.

(** ** The read side of connections

    [same_core]: of every connection; [others p]: of every connection but [p]. *)

Definition same_core (w w' : World) : Prop := conn_core <$> w_conn w' = conn_core <$> w_conn w.

#[export] Instance same_core_equiv : Equivalence same_core.
Proof. split; unfold same_core; [done|by intros ???|]. intros w1 w2 w3. congruence. Qed.

#[export] Instance same_core_frame `{Oracle} : Frame same_core.
Proof.
  split; [typeclasses eauto|..]; intros; try (by apply respects_modify).
  eapply respects_mono, send_io_eq. apply io_conn.
Qed.

Lemma same_core_lookup w w' p cn :
  same_core w w' → w_conn w !! p = Some cn → ∃ cn', w_conn w' !! p = Some cn' ∧ conn_core cn' = conn_core cn.
Proof.
  intros E Hp. apply (f_equal (λ x : gmap loc _, x !! p)) in E. rewrite !lookup_fmap, Hp in E.
  destruct (w_conn w' !! p) as [cn'|]; [|done]. injection E as E. exists cn'. split; [done|].
  unfold conn_core. congruence.
Qed.

Definition others (p : loc) (w w' : World) : Prop :=
  delete p (conn_core <$> w_conn w') = delete p (conn_core <$> w_conn w).

#[export] Instance others_equiv p : Equivalence (others p).
Proof. split; unfold others; [done|by intros ???|]. intros w1 w2 w3. congruence. Qed.

#[export] Instance others_frame `{Oracle} p : Frame (others p).
Proof.
  split; [typeclasses eauto|..]; intros;
    (eapply (respects_mono same_core); [by unfold others; intros ? ? ->|]);
    by auto with frame typeclass_instances.
Qed.

Lemma others_put_conn p c : respects (others p) (put_conn p c).
Proof. apply respects_modify. intros w. unfold others. simpl. by rewrite fmap_insert, delete_insert_eq. Qed.

Lemma others_serve_one `{Oracle} p : respects (others p) (serve_one p).
Proof. apply frame_serve_one; auto using others_put_conn with typeclass_instances. Qed.

Lemma others_RunHandshake `{Oracle} p : respects (others p) (RunHandshake p).
Proof. apply frame_RunHandshake; auto using others_put_conn with typeclass_instances. Qed.

Lemma others_lookup p p' w w' cn :
  others p w w' → p ≠ p' → w_conn w !! p' = Some cn →
  ∃ cn', w_conn w' !! p' = Some cn' ∧ conn_core cn' = conn_core cn.
Proof.
  intros E Hne Hp. apply (f_equal (λ x : gmap loc _, x !! p')) in E.
  rewrite !lookup_delete_ne, !lookup_fmap, Hp in E by done.
  destruct (w_conn w' !! p') as [cn'|]; [|done]. injection E as E1 E2. exists cn'. split; [done|].
  unfold conn_core. congruence.
Qed.

(** Envelopes never change the state or the reader of a connection. *)
Definition state_reader (c : Connection) : ConnectionState * Reader := (cn_state c, cn_reader c).

Definition same_session (w w' : World) : Prop := state_reader <$> w_conn w' = state_reader <$> w_conn w.

#[export] Instance same_session_equiv : Equivalence same_session.
Proof. split; unfold same_session; [done|by intros ???|]. intros w1 w2 w3. congruence. Qed.

Lemma same_core_session w w' : same_core w w' → same_session w w'.
Proof.
  intros E. apply (f_equal (fmap (λ x : gmap Z loc * ConnectionState * Reader, (x.1.2, x.2)))) in E.
  by rewrite <-!map_fmap_compose in E.
Qed.

#[export] Instance same_session_frame `{Oracle} : Frame same_session.
Proof.
  split; [typeclasses eauto|..]; intros; (eapply respects_mono; [apply same_core_session|]);
    by auto with frame typeclass_instances.
Qed.

Lemma same_session_put w p cn cn' :
  w_conn w !! p = Some cn → state_reader cn' = state_reader cn →
  same_session w (with_conn (<[p := cn']> (w_conn w)) w).
Proof.
  intros Hp E. unfold same_session. simpl. rewrite fmap_insert, E. apply insert_id. by rewrite lookup_fmap, Hp.
Qed.

(** After an update of the store that is itself in [R]. *)
Lemma respects_after (R : relation World) `{!PreOrder R} {A} (m : M A) w w1 :
  respects R m → R w w1 → match m w1 with Done _ w' | Blocked w' => R w w' | Panicked => True end.
Proof. intros Hm HR. specialize (Hm w1). destruct (m w1); [by etrans..|done]. Qed.

Lemma session_Handle `{Oracle} p env : respects same_session (Handle p env).
Proof.
  unfold Handle. case_decide; [|case_decide]; [..|by apply frame_routeToChannel, _].
  - unfold ChannelOpen. destruct (Unmarshal _) as [event e]. intros w; unfold_prims.
    destruct (w_conn w !! p) as [cn|] eqn:Hp; [|by rewrite bind_deref_nil].
    erewrite bind_deref by done. rewrite bind_gets, !bind_modify.
    apply (respects_after same_session); [by frame_solve|].
    by eapply (same_session_put (with_channel _ w)).
  - unfold ChannelClose. intros w; unfold_prims. cbv zeta.
    destruct (w_conn w !! p) as [cn|] eqn:Hp; [|by rewrite bind_deref_nil].
    erewrite bind_deref by done. rewrite bind_modify.
    apply (respects_after same_session); [by frame_solve|by eapply same_session_put].
Qed.

Lemma same_session_lookup w w' p cn :
  same_session w w' → w_conn w !! p = Some cn →
  ∃ cn', w_conn w' !! p = Some cn' ∧ cn_state cn' = cn_state cn ∧ cn_reader cn' = cn_reader cn.
Proof.
  intros E Hp. apply (f_equal (λ x : gmap loc _, x !! p)) in E. rewrite !lookup_fmap, Hp in E.
  destruct (w_conn w' !! p) as [cn'|]; [|done]. injection E as E1 E2. by exists cn'.
Qed.
