(* ===== verification/Server.v ===== *)
(** * The server and the whole process (src/broker/server.go, src/broker/metrics.go)

    [HandleConnection] and its deferred clean-up, the state collector that a scrape
    runs, and the process as a transition system: connections are accepted, each
    runs its handshake and then one [Serve] turn at a time, the dispatch goroutine
    of each queue runs one critical section at a time, and sockets fail.

    The theorems say that every reachable store satisfies [Inv], that nothing
    panics there, and that the connection counters and the gauge agree. *)

From S2P Require Import Prelude GoJson Protocol State Transport Queue Exchange Broker Channel Connection Invariant Accounting Frame.

(** [NewServer] *)
Definition NewServer (cfg : ServerConfig) : World :=
  mkWorld NewBroker ∅ ∅ ∅ ∅ ∅ ∅ cfg [] ∅ 0.

(** [HandleConnection], up to the deferred function. *)
Definition open_connection (r : Reader) : M loc :=
  p ← NewConnection r;
  modify (λ w, with_connections (w_connections w ∪ {[p]}) w);;
  inc ConnectionsOpened;;
  mret p.

Definition closed_socket : string := "use of closed network connection".

Section server.
Context `{Oracle}.

(** The deferred function of [HandleConnection]. *)
Definition close_connection (p : loc) : M unit :=
  inc ConnectionsClosed;;
  shutdown p;;
  conn_cleanup p;;
  modify (λ w, with_connections (w_connections w ∖ {[p]}) w);;
  c ← get_conn p;
  put_conn p (set_broken (Some closed_socket) c).

(** [HandleConnection], with at most [fuel] turns of [Serve]; [false] when they
    are used up. *)
Definition HandleConnection (fuel : nat) (r : Reader) : M bool :=
  p ← open_connection r;
  err ← RunHandshake p;
  match err with
  | Some _ => inc HandshakeFailures;; close_connection p;; mret true
  | None =>
      r ← Serve fuel p;
      match r with
      | Some _ => close_connection p;; mret true
      | None => mret false
      end
  end.
End server.

(** ** The state collector *)

(** The gauges [Collect] sends, with their label values. *)
Inductive Sample : Type :=
| SConnections (n : nat)
| SQueues (n : nat)
| SExchanges (n : nat)
| SQueueMessages (n : nat) (queue : string)
| SQueueConsumers (n : nat) (queue : string)
| SConsumerInflight (n : Z) (queue consumer : string).

(** [for _, x := range l { ch <- ... }] *)
Fixpoint sample_each {A} (l : list A) (f : A → M (list Sample)) : M (list Sample) :=
  match l with
  | [] => mret []
  | x :: l' => s ← f x; s' ← sample_each l' f; mret (s ++ s')
  end.

Section collect.
Context `{Oracle}.

Definition collect_queue (p : loc) : M (list Sample) :=
  q ← get_queue p;
  cs ← range (elements (q_consumers q));
  s ← sample_each cs (λ c, co ← get_consumer c; mret [SConsumerInflight (c_inflight co) (q_name q) (c_tag co)]);
  mret (SQueueMessages (length (q_messages q)) (q_name q) ::
        SQueueConsumers (size (q_consumers q)) (q_name q) :: s).

Definition Collect : M (list Sample) :=
  n ← gets (λ w, size (w_connections w));
  b ← gets w_broker;
  qs ← range (map_to_list (b_queues b));
  s ← sample_each qs (λ '(_, p), collect_queue p);
  mret (SConnections n :: SQueues (size (b_queues b)) :: SExchanges (size (b_exchanges b)) :: s).
End collect.

(** ** The process *)

(** Where the goroutine of a connection is: a goroutine that is [PBlocked] waits
    for ever on an unanswered write. *)
Inductive Phase : Type := PHandshake | PServing | PClosing | PClosed | PBlocked.

#[export] Instance Phase_eq_dec : EqDecision Phase.
Proof. solve_decision. Defined.

Record Sys := mkSys { sys_world : World; sys_phase : gmap loc Phase }.

Section steps.
Context `{Oracle}.

Inductive step : Sys → Sys → Prop :=
| step_accept r p w w' ph :
    open_connection r w = Done p w' → step (mkSys w ph) (mkSys w' (<[p := PHandshake]> ph))
| step_handshake p w w' ph :
    ph !! p = Some PHandshake → RunHandshake p w = Done None w' →
    step (mkSys w ph) (mkSys w' (<[p := PServing]> ph))
| step_handshake_failed p e w w' ph :
    ph !! p = Some PHandshake → RunHandshake p w = Done (Some e) w' →
    step (mkSys w ph) (mkSys (logged HandshakeFailures w') (<[p := PClosing]> ph))
| step_handshake_blocked p w w' ph :
    ph !! p = Some PHandshake → RunHandshake p w = Blocked w' →
    step (mkSys w ph) (mkSys w' (<[p := PBlocked]> ph))
| step_serve p w w' ph :
    ph !! p = Some PServing → serve_one p w = Done None w' → step (mkSys w ph) (mkSys w' ph)
| step_serve_end p e w w' ph :
    ph !! p = Some PServing → serve_one p w = Done (Some e) w' →
    step (mkSys w ph) (mkSys w' (<[p := PClosing]> ph))
| step_serve_blocked p w w' ph :
    ph !! p = Some PServing → serve_one p w = Blocked w' →
    step (mkSys w ph) (mkSys w' (<[p := PBlocked]> ph))
| step_close p w w' ph :
    ph !! p = Some PClosing → close_connection p w = Done tt w' →
    step (mkSys w ph) (mkSys w' (<[p := PClosed]> ph))
| step_dispatch q w w' ph :
    dispatch_section q w = Done tt w' → step (mkSys w ph) (mkSys w' ph)
| step_dispatch_stuck q c m w w' ph :
    w_dispatch w !! q = Some (DWriting c m) → dispatch_section q w = Blocked w' →
    step (mkSys w ph) (mkSys (upd_dispatch q (DStuck c m) w') ph)
| step_network p c e w ph :
    w_conn w !! p = Some c →
    step (mkSys w ph) (mkSys (with_conn (<[p := set_broken (Some e) c]> (w_conn w)) w) ph).

Definition start (cfg : ServerConfig) : Sys := mkSys (NewServer cfg) ∅.

Definition reachable (cfg : ServerConfig) (s : Sys) : Prop := rtc step (start cfg) s.
End steps.

(** ** The invariant of the process *)

Definition is_opened (m : MetricCall) : bool := bool_decide (m = ConnectionsOpened).
Definition is_closed (m : MetricCall) : bool := bool_decide (m = ConnectionsClosed).

(** [ConnectionsOpened] minus [ConnectionsClosed] *)
Definition conn_balance (l : list MetricCall) : Z := countZ is_opened l - countZ is_closed l.

Lemma conn_balance_app l1 l2 : conn_balance (l1 ++ l2) = conn_balance l1 + conn_balance l2.
Proof. unfold conn_balance. rewrite !countZ_app. lia. Qed.

Lemma conn_balance_quiet l : Forall (λ m, conn_metric m = false) l → conn_balance l = 0.
Proof.
  unfold conn_balance. induction 1 as [|m l Hm _ IH]; [done|]. simpl.
  destruct m; try discriminate Hm; simpl; lia.
Qed.

Record SysInv (s : Sys) : Prop := {
  si_inv : Inv (sys_world s);
  si_phase : ∀ p, is_Some (sys_phase s !! p) → is_Some (w_conn (sys_world s) !! p);
  si_connections : ∀ p, p ∈ w_connections (sys_world s) ↔
    ∃ f, sys_phase s !! p = Some f ∧ f ≠ PClosed;
  si_balance : conn_balance (w_metrics (sys_world s)) = Z.of_nat (size (w_connections (sys_world s)));
}.

(** A step that the server itself does not take, with an unchanged or open phase. *)
Lemma SysInv_grows w w' ph ph' :
  grows w w' → Inv w' → dom ph' ⊆ dom ph →
  (∀ p, (∃ f, ph' !! p = Some f ∧ f ≠ PClosed) ↔ (∃ f, ph !! p = Some f ∧ f ≠ PClosed)) →
  SysInv (mkSys w ph) → SysInv (mkSys w' ph').
Proof.
  intros [_ _ _ _ Hc _ Hcs _ (l & Hl & Hq)] Hinv Hdom Hph [_ Hp Hi Hb]. split; simpl in *; [done|..].
  - intros p. rewrite <-!elem_of_dom. intros ?. apply Hc, elem_of_dom, Hp, elem_of_dom. set_solver.
  - intros p. by rewrite Hcs, Hph.
  - by rewrite Hl, Hcs, conn_balance_app, (conn_balance_quiet l), Hb by done; lia.
Qed.

Lemma phase_update (ph : gmap loc Phase) p f f' :
  ph !! p = Some f → f ≠ PClosed → f' ≠ PClosed →
  dom (<[p := f']> ph) ⊆ dom ph ∧
  ∀ p', (∃ g, <[p := f']> ph !! p' = Some g ∧ g ≠ PClosed) ↔ (∃ g, ph !! p' = Some g ∧ g ≠ PClosed).
Proof.
  intros Hp Hf Hf'. split.
  - rewrite dom_insert. apply elem_of_dom_2 in Hp. set_solver.
  - intros p'. destruct (decide (p = p')) as [<-|]; [|by rewrite lookup_insert_ne].
    rewrite lookup_insert_eq. naive_solver.
Qed.

(** The set of connections is not part of the broker's invariant. *)
Lemma inv_connections X w : Inv w → Inv (with_connections X w).
Proof. intros [[] ? ? ?]. by split; [split|..]. Qed.

Section invariant.
Context `{Oracle}.

Lemma SysInv_start cfg : SysInv (start cfg).
Proof.
  split; simpl.
  - split; try done. split; cbn; setoid_rewrite lookup_empty; try done; by intros p [].
  - intros p. rewrite lookup_empty. by intros [].
  - intros p. rewrite lookup_empty. set_solver.
  - done.
Qed.

Lemma SysInv_accept r p w w' ph :
  open_connection r w = Done p w' → SysInv (mkSys w ph) → SysInv (mkSys w' (<[p := PHandshake]> ph)).
Proof.
  unfold open_connection, NewConnection; unfold_prims. intros Ho [Hinv Hp Hi Hb]. simpl in *.
  set (p0 := fresh (dom (w_conn w))) in *. set (cn := mkConnection _ _ _ _ _ _ _ _) in *.
  injection Ho as <- <-.
  assert (w_conn w !! p0 = None) as Hp0 by (apply not_elem_of_dom, is_fresh).
  assert (ph !! p0 = None) as Hph0.
  { apply eq_None_not_Some. intros ?%Hp. rewrite Hp0 in *. by eapply is_Some_None. }
  assert (p0 ∉ w_connections w) as Hni by (rewrite Hi, Hph0; naive_solver).
  split; simpl.
  - apply (inv_logged_neutral _ ConnectionsOpened
      (with_connections (w_connections w ∪ {[p0]}) (with_conn (<[p0 := cn]> (w_conn w)) w))); [done|].
    by apply inv_connections, inv_upd_conn.
  - intros p. rewrite !lookup_insert_is_Some'. naive_solver.
  - intros p. destruct (decide (p = p0)) as [->|].
    + rewrite lookup_insert_eq. set_solver.
    + rewrite lookup_insert_ne by done. set_solver.
  - rewrite conn_balance_app, Hb, size_union, size_singleton by set_solver. simpl. unfold conn_balance. simpl. lia.
Qed.

Lemma pres_close_connection w p :
  conn_inv p w → wp (close_connection p) (λ _ w', Inv w' ∧
    w_connections w' = w_connections w ∖ {[p]} ∧ dom (w_conn w) ⊆ dom (w_conn w') ∧
    ∃ l, w_metrics w' = w_metrics w ++ ConnectionsClosed :: l ∧ Forall (λ m, conn_metric m = false) l)
    (λ _, False) w.
Proof.
  intros [Hinv [cn Hcn]]. unfold close_connection, shutdown; unfold_prims. wp_run.
  set (w1 := with_conn _ _).
  assert (Inv w1) as Hw1.
  { apply (inv_upd_conn _ (logged ConnectionsClosed w)); [simpl; by eauto|]. by apply inv_logged_neutral. }
  assert (w_conn w1 !! p = Some (set_closed true cn)) as Hp1 by (simpl; by rewrite lookup_insert_eq).
  eapply wp_mono; [| |apply (wp_respects grows); [by apply frame_conn_cleanup, _|by apply pres_conn_cleanup; [eauto|]]]; [|naive_solver].
  intros [] w2 [[Hw2 Hrf] Hg]. wp_run. eapply wp_deref; [simpl; by rewrite (rf_conn _ _ Hrf)|]. wp_run.
  destruct Hg as [_ _ _ _ Hgc _ Hgs _ (l & Hl & Hq)]. simpl. split_and!.
  - assert (Inv (with_connections (w_connections w2 ∖ {[p]}) w2)) as Hw3 by
      by apply inv_connections.
    eapply (inv_upd_conn _ _ p) in Hw3; [exact Hw3|]. simpl. intros id chp Hid.
    exists (set_closed true cn). by rewrite (rf_conn _ _ Hrf), Hp1.
  - by rewrite Hgs.
  - rewrite (rf_conn _ _ Hrf). simpl. set_solver.
  - exists l. rewrite Hl. simpl. by rewrite <-app_assoc.
Qed.

Lemma SysInv_close p w w' ph :
  ph !! p = Some PClosing → close_connection p w = Done tt w' →
  SysInv (mkSys w ph) → SysInv (mkSys w' (<[p := PClosed]> ph)).
Proof.
  intros Hph E [Hinv Hp Hi Hb]. simpl in *.
  assert (is_Some (w_conn w !! p)) as Hcn by (apply Hp; eauto).
  assert (p ∈ w_connections w) as Hin by (apply Hi; eauto).
  pose proof (pres_close_connection w p (conj Hinv Hcn)) as Hpost. unfold wp in Hpost. rewrite E in Hpost.
  destruct Hpost as (Hinv' & Hcs & Hdom & l & Hl & Hq). split; simpl; [done|..].
  - intros p'. rewrite lookup_insert_is_Some'. intros Hp'. apply elem_of_dom, Hdom, elem_of_dom.
    destruct Hp' as [<-|?]; auto.
  - intros p'. rewrite Hcs. destruct (decide (p = p')) as [<-|].
    + rewrite lookup_insert_eq. set_solver.
    + rewrite lookup_insert_ne by done. rewrite <-Hi. set_solver.
  - rewrite Hl, Hcs, conn_balance_app, Hb. change (ConnectionsClosed :: l) with ([ConnectionsClosed] ++ l).
    rewrite conn_balance_app, (conn_balance_quiet l) by done.
    rewrite size_difference, size_singleton by set_solver.
    assert (size ({[p]} : gset loc) ≤ size (w_connections w))%nat as Hs by (apply subseteq_size; set_solver).
    rewrite size_singleton in Hs.
    unfold conn_balance; simpl. lia.
Qed.

Lemma SysInv_failure w ph : SysInv (mkSys w ph) → SysInv (mkSys (logged HandshakeFailures w) ph).
Proof.
  intros [Hinv Hp Hi Hb]. split; simpl in *; [by apply inv_logged_neutral|done..|].
  rewrite conn_balance_app, Hb. unfold conn_balance; simpl. lia.
Qed.

(** A program of the process, run to its end or to where it blocks. *)
Lemma SysInv_run {A} (m : M A) a w w' ph ph' :
  respects grows m → wp m (λ _, Inv) Inv w → (m w = Done a w' ∨ m w = Blocked w') →
  dom ph' ⊆ dom ph ∧
  (∀ p, (∃ f, ph' !! p = Some f ∧ f ≠ PClosed) ↔ (∃ f, ph !! p = Some f ∧ f ≠ PClosed)) →
  SysInv (mkSys w ph) → SysInv (mkSys w' ph').
Proof.
  intros Hm Hwp E [? ?]. specialize (Hm w). unfold wp in Hwp.
  apply SysInv_grows; [|..|done|done]; destruct E as [E|E]; by rewrite E in *.
Qed.

Lemma dispatch_queue q w :
  Inv w → dispatch_section q w ≠ Panicked → is_Some (w_queue w !! q).
Proof.
  intros Hinv Hs. apply (wf_dispatch_queue w (inv_wf _ _ Hinv)). unfold dispatch_section in Hs.
  destruct (w_dispatch w !! q) eqn:E; [done|]. destruct Hs.
  unfold mbind, prog_bind, deref. by rewrite E.
Qed.

Lemma pres_section q w :
  Inv w → dispatch_section q w ≠ Panicked → wp (dispatch_section q) (λ _, Inv) Inv w.
Proof.
  intros Hinv Hs. eapply wp_mono; [| |apply (pres_dispatch_section (λ _, 0)); [by eapply dispatch_queue|done]];
    naive_solver.
Qed.

Lemma SysInv_stuck q c m w w' ph :
  w_dispatch w !! q = Some (DWriting c m) → dispatch_section q w = Blocked w' →
  SysInv (mkSys w ph) → SysInv (mkSys (upd_dispatch q (DStuck c m) w') ph).
Proof.
  intros Hd E HI. pose proof (si_inv _ HI) as Hinv. simpl in Hinv.
  assert (is_Some (w_queue w !! q)) as Hq by (apply dispatch_queue; [done|by rewrite E]).
  pose proof (pres_dispatch_section (λ _, 0) w q Hq Hinv) as Hpost. unfold wp in Hpost. rewrite E in Hpost.
  destruct Hpost as [Hinv' Hio].
  apply (SysInv_grows w _ ph); [|..|done|done|done].
  - etrans; [by apply grows_io_eq|]. apply grows_intro; simpl; try done. set_solver.
  - apply inv_upd_dispatch; [by rewrite (io_queue _ _ Hio)| |done].
    intros c' [= <-]. rewrite (io_consumer _ _ Hio). by eapply wf_dispatch_consumer; [apply Hinv|..].
Qed.

Lemma SysInv_step s s' : step s s' → SysInv s → SysInv s'.
Proof.
  intros Hstep HI. pose proof (si_inv _ HI) as Hinv.
  assert (∀ p f, sys_phase s !! p = Some f → conn_inv p (sys_world s)) as Hci.
  { intros p f Hp. split; [done|]. apply (si_phase _ HI). eauto. }
  assert (∀ p, is_Some (w_conn (sys_world s) !! p) → wp (serve_one p) (λ _, Inv) Inv (sys_world s)) as Hserve
    by (intros; by apply pres_serve_one).
  assert (∀ p, conn_inv p (sys_world s) → wp (RunHandshake p) (λ _, Inv) Inv (sys_world s)) as Hhs.
  { intros p Hc. eapply wp_mono; [| |by apply pres_RunHandshake]; [by intros ? ? []|done]. }
  destruct Hstep; simpl in *.
  1: by eapply SysInv_accept.
  1-3: assert (wp (RunHandshake p) (λ _, Inv) Inv w) as Hwp by (by eapply Hhs, Hci).
  4-6: assert (wp (serve_one p) (λ _, Inv) Inv w) as Hwp by (eapply Hserve; by eapply Hci).
  all: try (eapply (SysInv_run _ None); [|exact Hwp|by eauto|by eapply phase_update|exact HI]; by auto using grows_serve_one, grows_RunHandshake with frame typeclass_instances).
  - apply SysInv_failure. eapply (SysInv_run _ (Some e)); [|exact Hwp|by eauto|by eapply phase_update|exact HI].
    auto using grows_serve_one, grows_RunHandshake with frame typeclass_instances.
  - eapply (SysInv_run _ None); [|exact Hwp|by eauto|done|exact HI]. auto using grows_serve_one, grows_RunHandshake with frame typeclass_instances.
  - eapply (SysInv_run _ (Some e)); [|exact Hwp|by eauto|by eapply phase_update|exact HI]. auto using grows_serve_one, grows_RunHandshake with frame typeclass_instances.
  - by eapply SysInv_close.
  - eapply (SysInv_run _ tt); [|apply pres_section; [done|]|by eauto|done|exact HI]; [by auto using grows_serve_one, grows_RunHandshake with frame typeclass_instances|].
    congruence.
  - by eapply SysInv_stuck.
  - apply (SysInv_grows w _ ph); [|..|done|done|done].
    + apply grows_intro; simpl; try done. set_solver.
    + apply inv_upd_conn; [|done]. simpl. eauto.
Qed.
End invariant.

(** ** Runs *)

Section runs.
Context `{Oracle}.

Lemma reachable_SysInv cfg s : reachable cfg s → SysInv s.
Proof.
  intros Hr. assert (SysInv (start cfg)) as HI by apply SysInv_start.
  unfold reachable in Hr. induction Hr; eauto using SysInv_step.
Qed.

Lemma reachable_Inv cfg s : reachable cfg s → Inv (sys_world s).
Proof. intros Hr. by eapply si_inv, reachable_SysInv. Qed.

(** [Serve] is a sequence of turns. *)
Lemma Serve_steps fuel p w ph e w' :
  ph !! p = Some PServing → Serve fuel p w = Done (Some e) w' →
  rtc step (mkSys w ph) (mkSys w' (<[p := PClosing]> ph)).
Proof.
  revert w. induction fuel as [|fuel IH]; intros w Hph E; [done|].
  cbn [Serve] in E. unfold mbind, prog_bind in E.
  destruct (serve_one p w) as [[e'|] w1| |] eqn:E1; [|..|done|done].
  - injection E as -> ->. by eapply rtc_once, step_serve_end.
  - eapply rtc_l; [by eapply step_serve|eauto].
Qed.

Lemma Serve_fuel_steps fuel p w ph w' :
  ph !! p = Some PServing → Serve fuel p w = Done None w' → rtc step (mkSys w ph) (mkSys w' ph).
Proof.
  revert w. induction fuel as [|fuel IH]; intros w Hph E.
  { injection E as ->. apply rtc_refl. }
  cbn [Serve] in E. unfold mbind, prog_bind in E.
  destruct (serve_one p w) as [[e'|] w1| |] eqn:E1; [done| |done|done].
  eapply rtc_l; [by eapply step_serve|eauto].
Qed.
End runs.
