(* ===== verification/Scenario.v ===== *)
(** * Executable runs

    The transition system of [Server] as a function of a script of actions, sound
    for [step], and the lines a client sends.  Scripts are evaluated to exhibit
    reachable states. *)

From S2P Require Import Prelude GoJson Protocol State Transport Queue Exchange Broker Channel Connection Invariant Accounting Frame Server.

(** What the scheduler runs next. *)
Inductive Action : Type :=
| AAccept (r : Reader)
| AHandshake (p : loc)
| AServe (p : loc)
| AClose (p : loc)
| ADispatch (q : loc)
| ANetwork (p : loc) (e : string).

Section exec.
Context `{Oracle}.

Definition act (a : Action) (s : Sys) : option Sys :=
  let w := sys_world s in
  let ph := sys_phase s in
  match a with
  | AAccept r =>
      match open_connection r w with
      | Done p w' => Some (mkSys w' (<[p := PHandshake]> ph))
      | _ => None
      end
  | AHandshake p =>
      if decide (ph !! p = Some PHandshake) then
        match RunHandshake p w with
        | Done None w' => Some (mkSys w' (<[p := PServing]> ph))
        | Done (Some e) w' => Some (mkSys (logged HandshakeFailures w') (<[p := PClosing]> ph))
        | Blocked w' => Some (mkSys w' (<[p := PBlocked]> ph))
        | Panicked => None
        end
      else None
  | AServe p =>
      if decide (ph !! p = Some PServing) then
        match serve_one p w with
        | Done None w' => Some (mkSys w' ph)
        | Done (Some e) w' => Some (mkSys w' (<[p := PClosing]> ph))
        | Blocked w' => Some (mkSys w' (<[p := PBlocked]> ph))
        | Panicked => None
        end
      else None
  | AClose p =>
      if decide (ph !! p = Some PClosing) then
        match close_connection p w with
        | Done _ w' => Some (mkSys w' (<[p := PClosed]> ph))
        | _ => None
        end
      else None
  | ADispatch q =>
      match dispatch_section q w, w_dispatch w !! q with
      | Done _ w', _ => Some (mkSys w' ph)
      | Blocked w', Some (DWriting c m) => Some (mkSys (upd_dispatch q (DStuck c m) w') ph)
      | _, _ => None
      end
  | ANetwork p e =>
      match w_conn w !! p with
      | Some c => Some (mkSys (with_conn (<[p := set_broken (Some e) c]> (w_conn w)) w) ph)
      | None => None
      end
  end.

Fixpoint exec (l : list Action) (s : Sys) : option Sys :=
  match l with
  | [] => Some s
  | a :: l' => match act a s with Some s' => exec l' s' | None => None end
  end.

Lemma act_step a s s' : act a s = Some s' → step s s'.
Proof.
  destruct s as [w ph], a; cbn [act sys_world sys_phase]; intros E;
    repeat (case_match; try done); simplify_eq;
    repeat match goal with u : unit |- _ => destruct u end; eauto using step.
Qed.

Lemma exec_steps l s s' : exec l s = Some s' → rtc step s s'.
Proof.
  revert s. induction l as [|a l IH]; intros s E; cbn [exec] in E; [by simplify_eq|].
  destruct (act a s) as [s1|] eqn:Ea; [|done]. eapply rtc_l; eauto using act_step.
Qed.

(** A script from the start of the server. *)
Definition run (cfg : ServerConfig) (l : list Action) : option Sys := exec l (start cfg).

Lemma run_reachable cfg l s : run cfg l = Some s → reachable cfg s.
Proof. apply exec_steps. Qed.
End exec.

(** ** What clients send *)

Definition header_line : line := mkLine ProtocolHeader (inl "invalid character 'G' looking for beginning of value").

Definition send_line {T} `{JEncode T} (t : T) : line := json_line "" (Marshal t).

Definition env_line {T} `{JEncode T} (id req : Z) (ty : Method) (msg : T) : line :=
  send_line (mkEnvelope id req ty (Some (Marshal msg))).

Definition handshake_lines : list line :=
  [header_line; send_line (NewConnectionStartOK "client" "guest" "guest");
   send_line (NewConnectionTuneOK 10 4096 30); send_line NewConnectionOpen].

(** A client that shakes hands, sends [l] and closes. *)
Definition client (l : list line) : Reader := mkReader (handshake_lines ++ l) "EOF".

Definition open_channel (id : Z) : line := env_line 0 1 ChannelOpenType (mkChannelOpen id).
Definition close_channel (id : Z) : line := env_line id 1 ChannelCloseType (mkChannelClose id).
Definition declare_exchange (id : Z) (e : string) : line :=
  env_line id 1 ExchangeDeclareType (mkExchangeDeclare e).
Definition declare_queue (id : Z) (q dlx rk : string) : line :=
  env_line id 1 QueueDeclareType (mkQueueDeclare q dlx rk).
Definition bind_queue (id : Z) (q e rk : string) : line := env_line id 1 QueueBindType (mkQueueBind q e rk).
Definition publish (id : Z) (e rk : string) (body : bytes) : line :=
  env_line id 1 BasicPublishType (mkPublish e rk (Some body)).
Definition consume (id : Z) (q tag : string) : line := env_line id 1 BasicConsumeType (mkConsume q tag).
Definition ack (id t : Z) : line := env_line id 1 BasicAckType (mkAck t).
Definition nack (id t : Z) (requeue : option bool) : line := env_line id 1 BasicNackType (mkNack t requeue).

(** The address of the first object in a heap. *)
Definition loc0 : loc := 0%nat.

Definition serve_turns (n : nat) (p : loc) : list Action := replicate n (AServe p).

(** ** A run with two clients

    A producer that declares an exchange, a dead-letter exchange and a queue for
    each, and publishes three messages; a consumer that acknowledges the first and
    rejects the second.  The third stays in flight. *)

Definition demo_cfg : ServerConfig := mkServerConfig 10 4096 30.

Definition demo_producer : Reader := client [
  open_channel 1; declare_exchange 1 "ex"; declare_exchange 1 "dead";
  declare_queue 1 "jobs" "dead" ""; declare_queue 1 "graveyard" "" "";
  bind_queue 1 "jobs" "ex" "k"; bind_queue 1 "graveyard" "dead" "k";
  publish 1 "ex" "k" [Byte.x61]; publish 1 "ex" "k" [Byte.x62]; publish 1 "ex" "k" [Byte.x63]].

Definition demo_consumer : Reader := client [
  open_channel 7; consume 7 "jobs" ""; ack 7 1; nack 7 2 (Some false)].

Definition jobs : loc := 0%nat.
Definition graveyard : loc := 1%nat.

(** Both clients are connected and the producer has published. *)
Definition demo_setup : list Action :=
  [AAccept demo_producer; AHandshake 0%nat; AAccept demo_consumer; AHandshake 1%nat] ++
  serve_turns 10 0%nat ++ serve_turns 2 1%nat.

(** The dispatcher has handed out the three messages. *)
Definition demo_delivered : list Action := demo_setup ++ replicate 6 (ADispatch jobs).

(** The consumer has answered two of them. *)
Definition demo_settled : list Action := demo_delivered ++ serve_turns 2 1%nat.

Section demo.
#[local] Existing Instance oracle_id.

Definition demo_state (l : list Action) : Sys := default (start demo_cfg) (run demo_cfg l).

Lemma demo_reachable l : run demo_cfg l = Some (demo_state l) → reachable demo_cfg (demo_state l).
Proof. apply run_reachable. Qed.
End demo.
