(* ===== verification/Process.v ===== *)
(** * Properties of every run of the process

    Safety properties of the states the transition system of [Server] reaches:
    the ledger of each queue, the prefetch bound, the absence of panics, the
    connection gauge, monotonicity of the counters; and the relation between the
    sequential [HandleConnection] and the transition system, with termination. *)

From S2P Require Import Prelude GoJson Protocol State Transport Queue Exchange Broker Channel Connection Invariant Accounting Frame Server Scenario.

(** The value of a counter after the calls of [l]. *)
Definition counter (m : MetricCall) (l : list MetricCall) : Z := countZ (λ x, bool_decide (x = m)) l.

Lemma counter_app m l1 l2 : counter m (l1 ++ l2) = counter m l1 + counter m l2.
Proof. apply countZ_app. Qed.

Lemma counter_cons m x l : counter m (x :: l) = (if decide (x = m) then 1 else 0) + counter m l.
Proof. unfold counter. simpl. by case_decide; case_bool_decide. Qed.

Lemma counter_zero m l : counter m l = 0 → m ∉ l.
Proof.
  intros Hz (l1 & l2 & ->)%list_elem_of_split. rewrite counter_app, counter_cons in Hz.
  pose proof (countZ_nonneg (λ x, bool_decide (x = m)) l1). pose proof (countZ_nonneg (λ x, bool_decide (x = m)) l2).
  unfold counter in Hz. case_decide; [lia|done].
Qed.

Lemma balance_counters n l :
  balance n l = counter (Enqueued n) l - counter (Acked n) l - counter (DeadLettered n) l - counter (Dropped n) l.
Proof.
  induction l as [|m l IH]; [done|]. simpl. rewrite IH, !counter_cons.
  destruct m; simpl; repeat case_decide; simplify_eq; lia.
Qed.

(** The messages of the queue at [p] that its consumers hold, by their counters. *)
Definition total_inflight (p : loc) (w : World) : Z := inflight_sum p (w_consumer w).

(** ** Serving ends *)

Section serving.
Context `{Oracle}.

(** A turn of [Serve] that continues has consumed one line. *)
Lemma serve_one_consumes p w w' cn :
  w_conn w !! p = Some cn → serve_one p w = Done None w' →
  ∃ cn' l, w_conn w' !! p = Some cn' ∧ r_lines (cn_reader cn) = l :: r_lines (cn_reader cn').
Proof.
  intros Hp. unfold serve_one. rewrite (bind_Done _ _ _ _ _ (conn_read_eq ReadEnvelope p w cn Hp)).
  unfold ReadEnvelope, read_line. destruct (r_lines (cn_reader cn)) as [|l ls]; [done|].
  destruct (unmarshal_line l) as [env [e|]]; [done|].
  set (cn1 := set_reader _ cn). set (w1 := with_conn (<[p := cn1]> (w_conn w)) w). simpl.
  intros E. pose proof (session_Handle p env w1) as Hs. unfold mbind, prog_bind in E.
  destruct (Handle p env w1) as [[] w2| |]; [|done..]. injection E as ->.
  destruct (same_session_lookup w1 w' p cn1) as (cn' & Hp' & _ & Er); [done|simpl; by rewrite lookup_insert_eq|].
  exists cn', l. split; [done|]. by rewrite Er.
Qed.

Lemma Serve_total fuel p w cn :
  Inv w → w_conn w !! p = Some cn → (length (r_lines (cn_reader cn)) < fuel)%nat →
  wp (Serve fuel p) (λ r w', is_Some r ∧ conn_inv p w') Inv w.
Proof.
  revert w cn. induction fuel as [|fuel IH]; intros w cn Hinv Hp Hlen; [lia|].
  cbn [Serve]. pose proof (pres_serve_one w p (mk_is_Some _ _ Hp) Hinv) as Hpres.
  pose proof (grows_serve_one p w) as Hg. unfold wp, mbind, prog_bind in *.
  destruct (serve_one p w) as [[e|] w1|w1|] eqn:E; [| |done..].
  - split; [done|]. split; [done|]. apply elem_of_dom, (g_conn _ _ Hg), elem_of_dom. eauto.
  - destruct (serve_one_consumes p w w1 cn) as (cn' & l & Hp' & Hl); [done..|].
    apply (IH w1 cn'); [done..|]. rewrite Hl in Hlen. simpl in Hlen. lia.
Qed.
End serving.

(** ** The state of a connection and the phase of its goroutine *)

Definition phase_ok (f : Phase) (cn : Connection) : Prop :=
  match f with
  | PHandshake => cn_state cn = StateAwaitProtocolHeader ∧ cn_channels cn = ∅
  | PServing => cn_state cn = StateOpen
  | PClosing | PClosed | PBlocked => True
  end.

Definition PhaseInv (s : Sys) : Prop := ∀ p f cn,
  sys_phase s !! p = Some f → w_conn (sys_world s) !! p = Some cn → phase_ok f cn.

Lemma phase_ok_core f cn cn' : conn_core cn' = conn_core cn → phase_ok f cn → phase_ok f cn'.
Proof. unfold conn_core. intros [= E1 E2 E3]. destruct f; simpl; by rewrite ?E1, ?E2. Qed.

(** A step of connection [p] alone. *)
Lemma PhaseInv_others p f w w' ph :
  others p w w' → (∀ cn, w_conn w' !! p = Some cn → phase_ok f cn) →
  PhaseInv (mkSys w ph) → PhaseInv (mkSys w' (<[p := f]> ph)).
Proof.
  intros Ho Hp HI p' f' cn. simpl. intros [[<- <-]|[Hne Hf]]%lookup_insert_Some Hcn; [by apply Hp|].
  destruct (others_lookup p p' w' w cn) as (cn0 & Hcn0 & E); [by symmetry|done..|].
  eapply phase_ok_core; [symmetry; exact E|]. by eapply (HI p').
Qed.

Lemma PhaseInv_same w w' ph : same_core w w' → PhaseInv (mkSys w ph) → PhaseInv (mkSys w' ph).
Proof.
  intros Hc HI p f cn. simpl. intros Hf Hcn.
  destruct (same_core_lookup w' w p cn) as (cn0 & ? & E); [by symmetry|done|].
  eapply phase_ok_core; [symmetry; exact E|]. by eapply (HI p).
Qed.

Section phases.
Context `{Oracle}.

(** A handshake that succeeds ends in [StateOpen]. *)
Lemma RunHandshake_open p w w' cn :
  RunHandshake p w = Done None w' → w_conn w' !! p = Some cn → cn_state cn = StateOpen.
Proof.
  unfold RunHandshake. intros E.
  repeat (apply bind_Done_inv in E as (? & ? & ? & E); try (case_match; [done|])).
  injection E as ->. intros Hcn.
  match goal with Hs : set_conn_state _ StateOpen _ = _ |- _ => rename Hs into Es end.
  apply bind_Done_inv in Es as (cn0 & w1 & _ & Es). unfold put_conn, modify in Es. injection Es as _ <-.
  simpl in Hcn. rewrite lookup_insert_eq in Hcn. by injection Hcn as <-.
Qed.

Lemma state_serve_one p w w' r cn' :
  is_Some (w_conn w !! p) → serve_one p w = Done r w' → w_conn w' !! p = Some cn' →
  ∃ cn, w_conn w !! p = Some cn ∧ cn_state cn' = cn_state cn.
Proof.
  intros [cn Hcn]. unfold serve_one. rewrite (bind_Done _ _ _ _ _ (conn_read_eq ReadEnvelope p w cn Hcn)).
  destruct (ReadEnvelope (cn_reader cn)) as [[env err] rd]; cbn [fst snd].
  set (w1 := with_conn _ w). assert (w_conn w1 !! p = Some (set_reader rd cn)) as Hp1
    by (simpl; by rewrite lookup_insert_eq).
  destruct err as [e|].
  - intros [= <- <-]. rewrite Hp1. intros [= <-]. eauto.
  - intros (u & w2 & Eh & [= <- <-])%bind_Done_inv Hcn'.
    pose proof (session_Handle p env w1) as Hs. rewrite Eh in Hs.
    destruct (same_session_lookup w1 w2 p _ Hs Hp1) as (cn2 & ? & E & _). simplify_eq. eauto.
Qed.

Lemma others_close_connection p : respects (others p) (close_connection p).
Proof.
  unfold close_connection, shutdown. frame_solve; try apply others_put_conn; by apply respects_modify.
Qed.

Lemma PhaseInv_accept r p w w' ph :
  open_connection r w = Done p w' → SysInv (mkSys w ph) → PhaseInv (mkSys w ph) →
  PhaseInv (mkSys w' (<[p := PHandshake]> ph)).
Proof.
  intros E _ HI. unfold open_connection, NewConnection in E; unfold_prims. injection E as <- <-.
  apply (PhaseInv_others _ _ w); [|simpl; rewrite lookup_insert_eq; by intros cn [= <-]|done].
  unfold others. simpl. by rewrite fmap_insert, delete_insert_eq.
Qed.

Lemma PhaseInv_step s s' : SysInv s → step s s' → PhaseInv s → PhaseInv s'.
Proof.
  intros HS Hstep HI.
  assert (∀ p f, sys_phase s !! p = Some f → is_Some (w_conn (sys_world s) !! p)) as Hlive
    by (intros; apply (si_phase _ HS); eauto).
  destruct Hstep; simpl in *.
  - by eapply PhaseInv_accept.
  - apply (PhaseInv_others p _ w); [by eapply respects_Done; [apply others_RunHandshake|]| |done].
    intros cn Hcn. by eapply RunHandshake_open.
  - apply (PhaseInv_others p _ w); [|done..].
    assert (others p w w') by (by eapply respects_Done; [apply others_RunHandshake|]). done.
  - apply (PhaseInv_others p _ w); [|done..]. by eapply respects_Blocked; [apply others_RunHandshake|].
  - rewrite <-(insert_id ph p PServing) by done.
    apply (PhaseInv_others p _ w); [by eapply respects_Done; [apply others_serve_one|]| |done].
    intros cn' Hcn'. destruct (state_serve_one p w w' None cn') as (cn & Hcn & E); [by eauto..|].
    simpl. rewrite E. by eapply (HI p PServing cn).
  - apply (PhaseInv_others p _ w); [|done..]. by eapply respects_Done; [apply others_serve_one|].
  - apply (PhaseInv_others p _ w); [|done..]. by eapply respects_Blocked; [apply others_serve_one|].
  - apply (PhaseInv_others p _ w); [|done..]. by eapply respects_Done; [apply others_close_connection|].
  - apply (PhaseInv_same w); [|done]. by eapply respects_Done; [apply (frame_dispatch_section same_core)|].
  - apply (PhaseInv_same w); [|done].
    assert (same_core w w') by (by eapply respects_Blocked; [apply (frame_dispatch_section same_core)|]). done.
  - apply (PhaseInv_same w); [|done]. unfold same_core. simpl. rewrite fmap_insert.
    apply insert_id. by rewrite lookup_fmap, H0.
Qed.

Lemma reachable_PhaseInv cfg s : reachable cfg s → PhaseInv s.
Proof.
  intros Hr. assert (SysInv (start cfg)) as HS by apply SysInv_start.
  assert (PhaseInv (start cfg)) as HI by (by intros p f cn).
  unfold reachable in Hr. induction Hr; eauto using SysInv_step, PhaseInv_step.
Qed.
End phases.

(** ** Reading only consumes *)

Definition lines_left (w : World) (p : loc) : nat :=
  match w_conn w !! p with Some cn => length (r_lines (cn_reader cn)) | None => 0 end.

Definition readers_shrink (w w' : World) : Prop := ∀ p, (lines_left w' p ≤ lines_left w p)%nat.

#[export] Instance readers_shrink_preorder : PreOrder readers_shrink.
Proof. split; [by intros w p|]. intros w1 w2 w3 H1 H2 p. specialize (H1 p). specialize (H2 p). lia. Qed.

Lemma session_readers_shrink w w' : same_session w w' → readers_shrink w w'.
Proof.
  intros Hs p. unfold lines_left. destruct (w_conn w' !! p) as [cn'|] eqn:Hp; [|lia].
  destruct (same_session_lookup w' w p cn') as (cn & -> & _ & ->); [by symmetry|done|]. lia.
Qed.

Section shrink.
Context `{Oracle}.

#[local] Instance readers_shrink_frame : Frame readers_shrink.
Proof.
  split; [typeclasses eauto|..]; intros;
    (eapply (respects_mono same_session); [apply session_readers_shrink|]);
    by auto with frame typeclass_instances.
Qed.

Lemma shrink_conn_read {A} (f : Reader → A * Reader) p :
  (∀ r, (length (r_lines (f r).2) ≤ length (r_lines r))%nat) → respects readers_shrink (conn_read f p).
Proof.
  intros Hf w. destruct (w_conn w !! p) as [cn|] eqn:Hp.
  - rewrite (conn_read_eq f p w cn Hp). intros p'. unfold lines_left. simpl. rewrite lookup_insert.
    case_decide; [|done]. subst. rewrite Hp. simpl. apply Hf.
  - unfold conn_read, get_conn. by rewrite bind_deref_nil.
Qed.

Lemma shrink_set_state p st : respects readers_shrink (set_conn_state p st).
Proof.
  intros w. unfold set_conn_state, get_conn. destruct (w_conn w !! p) as [cn|] eqn:Hp; [|by rewrite bind_deref_nil].
  rewrite (bind_deref _ _ _ cn) by done. intros p'. unfold lines_left. simpl. rewrite lookup_insert.
  case_decide; [|done]. subst. by rewrite Hp.
Qed.

Lemma shrink_ReadMessage {T} `{JStruct T} r : (length (r_lines (ReadMessage (T := T) r).2) ≤ length (r_lines r))%nat.
Proof. unfold ReadMessage, read_line. destruct (r_lines r) eqn:E; simpl; rewrite ?E; simpl; lia. Qed.

Lemma shrink_ReadProtocolHeader r : (length (r_lines (ReadProtocolHeader r).2) ≤ length (r_lines r))%nat.
Proof.
  unfold ReadProtocolHeader, read_line. destruct (r_lines r) eqn:E; simpl; rewrite ?E; [done|].
  case_decide; simpl; lia.
Qed.

Lemma shrink_RunHandshake p : respects readers_shrink (RunHandshake p).
Proof.
  unfold RunHandshake. frame_solve;
    auto using shrink_conn_read, shrink_set_state, shrink_ReadMessage, shrink_ReadProtocolHeader.
Qed.

(** Once accepted, a connection is open and its goroutine will run the handshake. *)
Lemma open_connection_post r w :
  Inv w → wp (open_connection r) (λ p w', conn_inv p w' ∧ lines_left w' p = length (r_lines r) ∧
    p = fresh (dom (w_conn w))) (λ _, False) w.
Proof.
  intros Hinv. unfold open_connection, NewConnection; unfold_prims. wp_run.
  set (p := fresh _). set (cn := mkConnection _ _ _ _ _ _ _ _). split; [split|].
  - apply (inv_logged_neutral _ ConnectionsOpened
      (with_connections (w_connections w ∪ {[p]}) (with_conn (<[p := cn]> (w_conn w)) w))); [done|].
    by apply inv_connections, inv_upd_conn.
  - simpl. rewrite lookup_insert_eq. by eauto.
  - unfold lines_left. simpl. by rewrite lookup_insert_eq.
Qed.

Lemma HandleConnection_total fuel r w :
  Inv w → (length (r_lines r) < fuel)%nat →
  wp (HandleConnection fuel r) (λ finished w', finished = true ∧ Inv w' ∧
    fresh (dom (w_conn w)) ∉ w_connections w') Inv w.
Proof.
  intros Hinv Hlen. unfold HandleConnection. wp_step.
  eapply wp_mono; [| |by apply open_connection_post]; [|done]. intros p w1 (Hci & Hl & <-).
  assert (∀ w2, conn_inv p w2 → wp (close_connection p ≫= λ _, mret true) (λ finished w', finished = true ∧ Inv w' ∧
    p ∉ w_connections w') Inv w2) as Hclose.
  { intros w2 Hw2. wp_step. eapply wp_mono; [| |by apply pres_close_connection]; [|done].
    intros [] w3 (? & E & _). wp_run. rewrite E. set_solver. }
  wp_step. eapply wp_mono; [| |apply (wp_respects readers_shrink); [apply shrink_RunHandshake|by apply pres_RunHandshake]];
    [|naive_solver].
  intros [e|] w2 [Hw2 Hsh].
  - wp_step. unfold inc. wp_run. apply wp_bind_inv, Hclose. destruct Hw2 as [? Hp]. split; [|exact Hp].
    by apply inv_logged_neutral.
  - destruct Hw2 as [Hinv2 [cn Hcn]]. wp_step.
    eapply wp_mono; [| |apply (Serve_total fuel p w2 cn)]; [|done..|].
    + intros [e|] w3 [Hs Hw3]; [by apply Hclose|by destruct Hs].
    + specialize (Hsh p). unfold lines_left in Hsh at 1. rewrite Hcn, Hl in Hsh. lia.
Qed.
End shrink.

(** ** Metrics only grow *)

Section metrics.
Context `{Oracle}.

Lemma grows_prefix w w' : grows w w' → w_metrics w `prefix_of` w_metrics w'.
Proof. intros [_ _ _ _ _ _ _ _ (l & -> & _)]. by eexists. Qed.

Definition longer_log (w w' : World) : Prop := w_metrics w `prefix_of` w_metrics w'.

#[local] Instance longer_log_preorder : PreOrder longer_log.
Proof. split; unfold longer_log; [by intros ?|]. intros w1 w2 w3 ? ?. by etrans. Qed.

Lemma longer_grows {A} (m : M A) : respects grows m → respects longer_log m.
Proof. apply respects_mono. intros ? ?. apply grows_prefix. Qed.

Lemma longer_close_connection p : respects longer_log (close_connection p).
Proof.
  unfold close_connection, shutdown. frame_solve;
    first [by apply longer_grows; eauto with frame typeclass_instances
          |apply respects_modify; intros w; unfold longer_log; simpl; first [by eexists|reflexivity]].
Qed.

Lemma step_longer s s' : step s s' → longer_log (sys_world s) (sys_world s').
Proof.
  destruct 1; simpl; try done.
  - unfold open_connection, NewConnection in *; unfold_prims.
    injection H0 as <- <-. unfold longer_log. simpl. by eexists.
  - by eapply respects_Done; [apply longer_grows, grows_RunHandshake|].
  - etrans; [by eapply respects_Done; [apply longer_grows, grows_RunHandshake|]|].
    unfold longer_log. simpl. by eexists.
  - by eapply respects_Blocked; [apply longer_grows, grows_RunHandshake|].
  - by eapply respects_Done; [apply longer_grows, grows_serve_one|].
  - by eapply respects_Done; [apply longer_grows, grows_serve_one|].
  - by eapply respects_Blocked; [apply longer_grows, grows_serve_one|].
  - by eapply respects_Done; [apply longer_close_connection|].
  - by eapply respects_Done; [apply longer_grows, (frame_dispatch_section grows)|].
  - assert (longer_log w w') by (by eapply respects_Blocked; [apply longer_grows, (frame_dispatch_section grows)|]).
    done.
  - unfold longer_log. simpl. reflexivity.
Qed.
End metrics.

(** ** The state collector *)

(** The samples of one queue and of the process, with the consumers in map order. *)
Definition queue_samples (w : World) (q : Queue) : list Sample :=
  SQueueMessages (length (q_messages q)) (q_name q) :: SQueueConsumers (size (q_consumers q)) (q_name q) ::
  omap (λ c, (λ co, SConsumerInflight (c_inflight co) (q_name q) (c_tag co)) <$> w_consumer w !! c)
    (elements (q_consumers q)).

Definition state_samples (w : World) : list Sample :=
  SConnections (size (w_connections w)) :: SQueues (size (b_queues (w_broker w))) ::
  SExchanges (size (b_exchanges (w_broker w))) ::
  concat (omap (λ '(_, p), queue_samples w <$> w_queue w !! p) (map_to_list (b_queues (w_broker w)))).

Section collect_spec.
Context `{Oracle}.

(** A loop that samples each item without changing the store. *)
Lemma wp_sample_each {A} (l : list A) (f : A → M (list Sample)) (g : A → list Sample) w0 t :
  (∀ x t', x ∈ l → wp (f x) (λ s w', s ≡ₚ g x ∧ ∃ t'', w' = with_tick t'' w0) (λ _, False) (with_tick t' w0)) →
  wp (sample_each l f) (λ s w', s ≡ₚ concat (g <$> l) ∧ ∃ t', w' = with_tick t' w0) (λ _, False) (with_tick t w0).
Proof.
  revert t. induction l as [|x l IH]; intros t Hf; cbn [sample_each]; [wp_run; by eauto|].
  wp_step. eapply wp_mono; [| |apply Hf; set_solver]; [|done]. intros s w' [Hs [t1 ->]].
  wp_step. eapply wp_mono; [| |apply IH; intros; apply Hf; set_solver]; [|done].
  intros s' w' [Hs' Ht]. wp_run. split; [|done]. simpl. by rewrite Hs, Hs'.
Qed.

Lemma omap_concat {A B} (g : A → option B) (l : list A) : omap g l = concat ((λ x, option_list (g x)) <$> l).
Proof. induction l as [|x l IH]; csimpl; [done|]. destruct (g x); csimpl; by rewrite IH. Qed.

Lemma wp_collect_queue w0 t p q :
  Inv w0 → w_queue w0 !! p = Some q →
  wp (collect_queue p) (λ s w', s ≡ₚ queue_samples w0 q ∧ ∃ t', w' = with_tick t' w0) (λ _, False) (with_tick t w0).
Proof.
  intros Hinv Hq. unfold collect_queue; unfold_prims. wp_run. apply wp_range. intros cs Hcs. wp_step.
  change (with_tick _ (with_tick t w0)) with (with_tick (S t) w0).
  eapply wp_mono; [| |apply (wp_sample_each cs _ (λ c, option_list
    ((λ co, SConsumerInflight (c_inflight co) (q_name q) (c_tag co)) <$> w_consumer w0 !! c)) w0)]; [|done|].
  - intros s w' [Hs Ht]. wp_run. split; [|done]. unfold queue_samples. rewrite Hs, omap_concat.
    do 2 f_equiv. by apply concat_fmap_perm.
  - intros c t' Hc. rewrite Hcs, elem_of_elements in Hc.
    destruct (wf_queue_consumer w0 (inv_wf _ _ Hinv) _ _ _ Hq Hc) as (co & Hco & _).
    wp_step. eapply wp_deref; [exact Hco|]. wp_run. rewrite Hco. simpl. eauto.
Qed.

(** [Collect] reports the state and leaves it alone. *)
Lemma wp_Collect w :
  Inv w → wp Collect (λ s w', s ≡ₚ state_samples w ∧ ∃ t, w' = with_tick t w) (λ _, False) w.
Proof.
  intros Hinv. unfold Collect. wp_run. apply wp_range. intros qs Hqs. wp_step.
  eapply wp_mono; [| |apply (wp_sample_each qs _ (λ '(_, p), concat (option_list (queue_samples w <$> w_queue w !! p))) w)];
    [|done|].
  - intros s w' [Hs Ht]. wp_run. split; [|done]. unfold state_samples. do 3 f_equiv. rewrite Hs.
    rewrite (concat_fmap_perm _ _ _ Hqs). clear. induction (map_to_list _) as [|[n p] l IH]; csimpl; [done|].
    destruct (w_queue w !! p); csimpl; by rewrite ?app_nil_r, IH.
  - intros [n p] t' Hn. rewrite Hqs, elem_of_map_to_list in Hn.
    destruct (wf_broker_queue w (inv_wf _ _ Hinv) _ _ Hn) as (q & Hq & _).
    eapply wp_mono; [| |by apply wp_collect_queue]; [|done]. intros s w' [Hs Ht]. split; [|done].
    rewrite Hs, Hq. simpl. by rewrite app_nil_r.
Qed.
End collect_spec.

(** ** Claims *)

Section claims.
Context `{Oracle}.

(** C7: The books of a queue balance in every state in which no handler or dispatch
    section is half done: the counter of messages appended ([Enqueued]) equals the
    length of the buffer plus the [inflight] counters of all its consumers, present and
    past, plus the counters of acknowledged, dead-lettered and dropped messages, through
    any order of handlers, dispatch sections, disconnects and socket failures.  It is a
    balance of counts and not of the identity of messages: an [inflight] counter is
    signed; it is -1 after a delivery that fails behind a disconnect, and counts two where a
    reused tag has overwritten a held message ([Findings]). *)
Theorem ledger_balances cfg s p q :
  reachable cfg s → w_queue (sys_world s) !! p = Some q →
  counter (Enqueued (q_name q)) (w_metrics (sys_world s)) =
    Z.of_nat (length (q_messages q)) + total_inflight p (sys_world s) +
    counter (Acked (q_name q)) (w_metrics (sys_world s)) +
    counter (DeadLettered (q_name q)) (w_metrics (sys_world s)) +
    counter (Dropped (q_name q)) (w_metrics (sys_world s)).
Proof.
  intros Hr Hq. pose proof (inv_defect _ _ (reachable_Inv _ _ Hr) p q Hq) as Hd.
  unfold defect in Hd. rewrite balance_counters in Hd. unfold total_inflight. lia.
Qed.

(** In every reachable state every consumer ever created keeps its books: its
    prefetch is 10, it never holds more than that, its set of in-flight tags is
    exactly the set of tags of its pending messages, and each pending message is
    stored under its own delivery tag. *)
Theorem consumer_within_prefetch cfg s c co :
  reachable cfg s → w_consumer (sys_world s) !! c = Some co →
  c_prefetch co = 10 ∧ c_inflight co ≤ 10 ∧ c_inflightTags co = dom (c_pendingMessages co) ∧
  ∀ t m, c_pendingMessages co !! t = Some m → m_DeliveryTag m = t.
Proof.
  intros Hr Hc. destruct (inv_consumer _ _ (reachable_Inv _ _ Hr) c co Hc) as [Hp Hb Ht Hk].
  rewrite Hp in Hb. auto.
Qed.

(** Nothing panics: in every reachable state the handshake, a turn of [Serve]
    on any input, the clean-up of a closing connection, the next section of every
    dispatch goroutine and a metrics scrape run without a nil or dangling
    dereference, and the clean-up and the scrape do not block either. *)
Theorem no_panics cfg s :
  reachable cfg s →
  (∀ p, sys_phase s !! p = Some PHandshake → RunHandshake p (sys_world s) ≠ Panicked) ∧
  (∀ p, sys_phase s !! p = Some PServing → serve_one p (sys_world s) ≠ Panicked) ∧
  (∀ p, sys_phase s !! p = Some PClosing → ∃ w', close_connection p (sys_world s) = Done tt w') ∧
  (∀ q, is_Some (w_queue (sys_world s) !! q) → dispatch_section q (sys_world s) ≠ Panicked) ∧
  (∃ l w', Collect (sys_world s) = Done l w').
Proof.
  intros Hr. pose proof (reachable_SysInv _ _ Hr) as HS. pose proof (si_inv _ HS) as Hinv.
  assert (∀ p f, sys_phase s !! p = Some f → conn_inv p (sys_world s)) as Hc
    by (split; [done|]; apply (si_phase _ HS); eauto).
  split_and!.
  - intros p Hp E. pose proof (pres_RunHandshake _ p (Hc _ _ Hp)) as Hw. unfold wp in Hw. by rewrite E in Hw.
  - intros p Hp E. pose proof (pres_serve_one _ p (proj2 (Hc _ _ Hp)) Hinv) as Hw. unfold wp in Hw. by rewrite E in Hw.
  - intros p Hp. pose proof (pres_close_connection _ p (Hc _ _ Hp)) as Hw. unfold wp in Hw.
    destruct (close_connection p _) as [[] w'| |]; [|done..]. eauto.
  - intros q Hq E. pose proof (pres_dispatch_section _ _ q Hq Hinv) as Hw. unfold wp in Hw. by rewrite E in Hw.
  - pose proof (wp_Collect _ Hinv) as Hw. unfold wp in Hw. destruct (Collect _); [eauto|done..].
Qed.

(** In every reachable state the counters of opened and closed connections
    differ by the number of connections in the server's table (the
    golangmq_connections gauge), and the table holds exactly the connections
    whose clean-up has not completed. *)
Theorem connection_gauge cfg s :
  reachable cfg s →
  counter ConnectionsOpened (w_metrics (sys_world s)) - counter ConnectionsClosed (w_metrics (sys_world s)) =
    Z.of_nat (size (w_connections (sys_world s))) ∧
  ∀ p, p ∈ w_connections (sys_world s) ↔ ∃ f, sys_phase s !! p = Some f ∧ f ≠ PClosed.
Proof. intros Hr. destruct (reachable_SysInv _ _ Hr) as [_ _ Hi Hb]. done. Qed.

(** C25: In every reachable state a connection whose envelopes are being served is
    in [StateOpen], and one that still has to shake hands is in
    [StateAwaitProtocolHeader] and has no channels: no method is handled before
    the handshake has completed. *)
Theorem served_only_when_open cfg s p cn :
  reachable cfg s → w_conn (sys_world s) !! p = Some cn →
  (sys_phase s !! p = Some PServing → cn_state cn = StateOpen) ∧
  (sys_phase s !! p = Some PHandshake → cn_state cn = StateAwaitProtocolHeader ∧ cn_channels cn = ∅).
Proof.
  intros Hr Hp. pose proof (reachable_PhaseInv _ _ Hr) as HI. split; intros Hf; by apply (HI p _ cn Hf Hp).
Qed.

(** No counter ever decreases along a run, whatever the interleaving. *)
Theorem counters_never_decrease s s' m :
  rtc step s s' → counter m (w_metrics (sys_world s)) ≤ counter m (w_metrics (sys_world s')).
Proof.
  induction 1 as [|s1 s2 s3 Hs _ IH]; [done|]. destruct (step_longer _ _ Hs) as [l E].
  rewrite E, counter_app in IH. pose proof (countZ_nonneg (λ x, bool_decide (x = m)) l). unfold counter in *. lia.
Qed.

(** [HandleConnection] is the run of one connection alone: when it returns,
    its effect is that of a sequence of steps of the process (accept, handshake,
    [Serve] turns, clean-up) at the end of which the connection is closed. *)
Theorem handle_connection_refines fuel r w w' ph :
  HandleConnection fuel r w = Done true w' →
  rtc step (mkSys w ph) (mkSys w' (<[fresh (dom (w_conn w)) := PClosed]> ph)).
Proof.
  unfold HandleConnection. intros (p & w1 & Eo & E)%bind_Done_inv.
  assert (p = fresh (dom (w_conn w))) as <-.
  { unfold open_connection, NewConnection in Eo; unfold_prims. by injection Eo as <- <-. }
  eapply rtc_l; [by eapply (step_accept r)|].
  apply bind_Done_inv in E as ([e|] & w2 & Eh & E).
  - apply bind_Done_inv in E as (u1 & w3 & Ei & E). apply bind_Done_inv in E as ([] & w4 & Ec & [= ->]).
    injection Ei as _ <-.
    eapply rtc_l; [eapply step_handshake_failed; [by rewrite lookup_insert_eq|done]|].
    rewrite insert_insert_eq. eapply rtc_l; [eapply step_close; [by rewrite lookup_insert_eq|done]|].
    by rewrite insert_insert_eq.
  - apply bind_Done_inv in E as ([e|] & w3 & Es & E); [|done].
    apply bind_Done_inv in E as ([] & w4 & Ec & [= ->]).
    eapply rtc_l; [eapply step_handshake; [by rewrite lookup_insert_eq|done]|]. rewrite insert_insert_eq.
    etrans; [eapply Serve_steps; [by rewrite lookup_insert_eq|done]|]. rewrite insert_insert_eq.
    eapply rtc_l; [eapply step_close; [by rewrite lookup_insert_eq|done]|]. by rewrite insert_insert_eq.
Qed.

(** C26: [HandleConnection] terminates: with more turns than the client sends
    lines, it either finishes, with the connection removed from the server's
    table and the broker's invariant intact, or its goroutine is blocked for ever
    on an unanswered write; it does not panic and does not run out of turns. *)
Theorem handle_connection_terminates fuel r w :
  Inv w → (length (r_lines r) < fuel)%nat →
  match HandleConnection fuel r w with
  | Done finished w' => finished = true ∧ Inv w' ∧ fresh (dom (w_conn w)) ∉ w_connections w'
  | Blocked w' => Inv w'
  | Panicked => False
  end.
Proof. apply HandleConnection_total. Qed.

(** A metrics scrape in any reachable state sends, up to the order of the map
    ranges, exactly the gauges of that state (connections, queues, exchanges, and
    per queue its depth, its number of consumers and the in-flight count of each
    registered consumer), and changes nothing. *)
Theorem collect_reports_state cfg s :
  reachable cfg s →
  ∃ l t, Collect (sys_world s) = Done l (with_tick t (sys_world s)) ∧ l ≡ₚ state_samples (sys_world s).
Proof.
  intros Hr. pose proof (wp_Collect _ (reachable_Inv _ _ Hr)) as Hw. unfold wp in Hw.
  destruct (Collect _) as [l w'| |]; [|done..]. destruct Hw as [Hl [t ->]]. by exists l, t.
Qed.
End claims.

(** ** The claims at concrete runs *)

Section witnesses.
#[local] Existing Instance oracle_id.

(** The state after the run of [Scenario] with two clients. *)
Definition settled : Sys := demo_state demo_settled.

Lemma settled_reachable : reachable demo_cfg settled.
Proof. apply demo_reachable. vm_compute. reflexivity. Qed.

(** Three messages entered the queue: one is in flight, one was acknowledged and
    one dead-lettered. *)
Lemma ledger_balances_witness : ∃ q,
  w_queue (sys_world settled) !! jobs = Some q ∧ q_name q = "jobs" ∧
  total_inflight jobs (sys_world settled) = 1 ∧
  counter (Enqueued (q_name q)) (w_metrics (sys_world settled)) =
    Z.of_nat (length (q_messages q)) + total_inflight jobs (sys_world settled) +
    counter (Acked (q_name q)) (w_metrics (sys_world settled)) +
    counter (DeadLettered (q_name q)) (w_metrics (sys_world settled)) +
    counter (Dropped (q_name q)) (w_metrics (sys_world settled)).
Proof.
  eexists. split; [vm_compute; reflexivity|]. split; [reflexivity|]. split; [vm_compute; reflexivity|].
  apply (ledger_balances demo_cfg settled jobs); [apply settled_reachable|vm_compute; reflexivity].
Defined.

Lemma consumer_within_prefetch_witness : ∃ co,
  w_consumer (sys_world settled) !! 0%nat = Some co ∧ c_inflight co = 1 ∧
  c_prefetch co = 10 ∧ c_inflight co ≤ 10 ∧ c_inflightTags co = dom (c_pendingMessages co) ∧
  ∀ t m, c_pendingMessages co !! t = Some m → m_DeliveryTag m = t.
Proof.
  eexists. split; [vm_compute; reflexivity|]. split; [reflexivity|].
  apply (consumer_within_prefetch demo_cfg settled 0%nat); [apply settled_reachable|vm_compute; reflexivity].
Defined.

Lemma no_panics_witness : sys_phase settled !! 0%nat = Some PServing ∧
  serve_one 0%nat (sys_world settled) ≠ Panicked.
Proof.
  split; [vm_compute; reflexivity|].
  apply (no_panics demo_cfg settled settled_reachable). vm_compute. reflexivity.
Defined.

Lemma connection_gauge_witness :
  counter ConnectionsOpened (w_metrics (sys_world settled)) - counter ConnectionsClosed (w_metrics (sys_world settled)) =
    Z.of_nat (size (w_connections (sys_world settled))) ∧ size (w_connections (sys_world settled)) = 2%nat.
Proof.
  split; [apply (connection_gauge demo_cfg settled settled_reachable)|vm_compute; reflexivity].
Defined.

Lemma served_only_when_open_witness : ∃ cn,
  w_conn (sys_world settled) !! 1%nat = Some cn ∧ cn_state cn = StateOpen.
Proof.
  eexists. split; [vm_compute; reflexivity|].
  eapply (served_only_when_open demo_cfg settled 1%nat); [apply settled_reachable|vm_compute; reflexivity..].
Defined.

Lemma counters_never_decrease_witness :
  counter (Acked "jobs") (w_metrics (sys_world (demo_state demo_delivered))) ≤
  counter (Acked "jobs") (w_metrics (sys_world settled)).
Proof.
  apply counters_never_decrease. apply (exec_steps (serve_turns 2 1%nat)). vm_compute. reflexivity.
Defined.

Lemma handle_connection_refines_witness : ∃ w',
  HandleConnection 20 demo_producer (NewServer demo_cfg) = Done true w' ∧
  rtc step (mkSys (NewServer demo_cfg) ∅) (mkSys w' (<[fresh (dom (w_conn (NewServer demo_cfg))) := PClosed]> ∅)).
Proof.
  eexists. split; [vm_compute; reflexivity|].
  apply (handle_connection_refines 20 demo_producer). vm_compute. reflexivity.
Defined.

Lemma handle_connection_terminates_witness : ∃ w',
  HandleConnection 20 demo_producer (NewServer demo_cfg) = Done true w' ∧ Inv w'.
Proof.
  pose proof (handle_connection_terminates 20 demo_producer (NewServer demo_cfg)
    (si_inv _ (SysInv_start demo_cfg)) ltac:(vm_compute; lia)) as Hw.
  destruct (HandleConnection 20 demo_producer (NewServer demo_cfg)) as [b w'| |] eqn:E;
    [|vm_compute in E; discriminate E..].
  destruct Hw as (-> & Hw & _). exists w'. split; [reflexivity|exact Hw].
Defined.

Lemma collect_reports_state_witness : ∃ l t,
  Collect (sys_world settled) = Done l (with_tick t (sys_world settled)) ∧ l ≡ₚ state_samples (sys_world settled).
Proof. apply (collect_reports_state demo_cfg settled settled_reachable). Defined.
End witnesses.
