(* ===== verification/Metrics.v ===== *)
(** * The metrics and their labels (src/broker/metrics.go)

    The descriptions the code gives the Prometheus library, the labels each [Inc] and
    each gauge carries, and the series of a scrape.  The library itself is not
    modelled: it panics on a wrong number of label values and on a second registration
    of a name, and fails a scrape that sends one series twice. *)

From S2P Require Import Prelude GoJson Protocol State Transport Queue Exchange Broker Channel Connection Invariant Accounting Frame Server Scenario Process.

(** ** Descriptions *)

Record Desc := mkDesc { d_name : string; d_help : string; d_labels : list string }.

#[export] Instance Desc_eq_dec : EqDecision Desc.
Proof. solve_decision. Defined.

Definition newCounterVec (name help : string) (labels : list string) : Desc := mkDesc name help labels.
Definition newCounter (name help : string) : Desc := mkDesc name help [].

(** [Metrics], without the registry *)
Record Metrics := mkMetrics {
  me_Published : Desc; me_PublishUnroutable : Desc; me_PublishErrors : Desc; me_Enqueued : Desc; me_Delivered : Desc;
  me_DeliverErrors : Desc; me_Acked : Desc; me_Nacked : Desc; me_DeadLettered : Desc; me_Dropped : Desc;
  me_ConnectionsOpened : Desc; me_ConnectionsClosed : Desc; me_HandshakeFailures : Desc;
  me_ConsumersRegistered : Desc; me_ConsumersUnregistered : Desc;
}.

Definition NewMetrics : Metrics := {|
  me_Published := newCounterVec "golangmq_publish_total" "Publish calls accepted for a known exchange" ["exchange"];
  me_PublishUnroutable := newCounterVec "golangmq_publish_unroutable_total" "Publish calls that matched 0 queues (silent drop)" ["exchange"];
  me_PublishErrors := newCounter "golangmq_publish_errors_total" "Publish calls rejected (exchange not found)";
  me_Enqueued := newCounterVec "golangmq_enqueue_total" "Messages appended to a queue buffer" ["queue"];
  me_Delivered := newCounterVec "golangmq_deliver_total" "basic.deliver written to a consumer successfully" ["queue"];
  me_DeliverErrors := newCounterVec "golangmq_deliver_errors_total" "Deliver writes that failed (message re-enqueued)" ["queue"];
  me_Acked := newCounterVec "golangmq_ack_total" "Acks processed" ["queue"];
  me_Nacked := newCounterVec "golangmq_nack_total" "Nacks processed" ["queue"; "requeue"];
  me_DeadLettered := newCounterVec "golangmq_dead_letter_total" "Nack without requeue, DLX republish executed" ["queue"];
  me_Dropped := newCounterVec "golangmq_drop_total" "Nack without requeue and no DLX, message discarded" ["queue"];
  me_ConnectionsOpened := newCounter "golangmq_connections_opened_total" "Connections accepted and registered";
  me_ConnectionsClosed := newCounter "golangmq_connections_closed_total" "Connections cleaned up";
  me_HandshakeFailures := newCounter "golangmq_handshake_failures_total" "Handshakes that failed";
  me_ConsumersRegistered := newCounterVec "golangmq_consumers_registered_total" "Consumers registered" ["queue"];
  me_ConsumersUnregistered := newCounterVec "golangmq_consumers_unregistered_total" "Consumers removed" ["queue"];
|}.

(** [reg.MustRegister(...)], after the library's own collectors *)
Definition registered (m : Metrics) : list Desc :=
  [me_Published m; me_PublishUnroutable m; me_PublishErrors m; me_Enqueued m; me_Delivered m; me_DeliverErrors m;
   me_Acked m; me_Nacked m; me_DeadLettered m; me_Dropped m; me_ConnectionsOpened m; me_ConnectionsClosed m;
   me_HandshakeFailures m; me_ConsumersRegistered m; me_ConsumersUnregistered m].

Definition queueMessagesDesc : Desc := mkDesc "golangmq_queue_messages" "Current depth of a queue" ["queue"].
Definition queueConsumersDesc : Desc := mkDesc "golangmq_queue_consumers" "Current number of consumers on a queue" ["queue"].
Definition consumerInflightDesc : Desc :=
  mkDesc "golangmq_consumer_inflight" "Messages currently inflight for a consumer" ["queue"; "consumer"].
Definition queuesDesc : Desc := mkDesc "golangmq_queues" "Current number of declared queues" [].
Definition exchangesDesc : Desc := mkDesc "golangmq_exchanges" "Current number of declared exchanges" [].
Definition connectionsDesc : Desc := mkDesc "golangmq_connections" "Current number of open connections" [].

Definition Describe : list Desc :=
  [queueMessagesDesc; queueConsumersDesc; consumerInflightDesc; queuesDesc; exchangesDesc; connectionsDesc].

(** ** Series *)

(** The counter an [Inc] is on and its label values. *)
Definition inc_target (m : Metrics) (c : MetricCall) : Desc * list string :=
  match c with
  | Published e => (me_Published m, [e])
  | PublishUnroutable e => (me_PublishUnroutable m, [e])
  | PublishErrors => (me_PublishErrors m, [])
  | Enqueued q => (me_Enqueued m, [q])
  | Delivered q => (me_Delivered m, [q])
  | DeliverErrors q => (me_DeliverErrors m, [q])
  | Acked q => (me_Acked m, [q])
  | Nacked q r => (me_Nacked m, [q; r])
  | DeadLettered q => (me_DeadLettered m, [q])
  | Dropped q => (me_Dropped m, [q])
  | ConnectionsOpened => (me_ConnectionsOpened m, [])
  | ConnectionsClosed => (me_ConnectionsClosed m, [])
  | HandshakeFailures => (me_HandshakeFailures m, [])
  | ConsumersRegistered q => (me_ConsumersRegistered m, [q])
  | ConsumersUnregistered q => (me_ConsumersUnregistered m, [q])
  end.

(** The description and the label values of a gauge [Collect] sends. *)
Definition series (s : Sample) : Desc * list string :=
  match s with
  | SConnections _ => (connectionsDesc, [])
  | SQueues _ => (queuesDesc, [])
  | SExchanges _ => (exchangesDesc, [])
  | SQueueMessages _ q => (queueMessagesDesc, [q])
  | SQueueConsumers _ q => (queueConsumersDesc, [q])
  | SConsumerInflight _ q c => (consumerInflightDesc, [q; c])
  end.

(** A series of one of the descriptions. *)
Definition well_labelled (descs : list Desc) (x : Desc * list string) : Prop :=
  x.1 ∈ descs ∧ length x.2 = length (d_labels x.1).

(** The consumers of every queue have different tags. *)
Definition consumer_tags (w : World) (q : Queue) : list string :=
  omap (λ c, c_tag <$> w_consumer w !! c) (elements (q_consumers q)).
Definition distinct_tags (w : World) : Prop := ∀ p q, w_queue w !! p = Some q → NoDup (consumer_tags w q).

Lemma inc_well_labelled c : well_labelled (registered NewMetrics) (inc_target NewMetrics c).
Proof. destruct c; (split; [cbv [inc_target fst registered]; set_solver|reflexivity]). Qed.

Lemma series_well_labelled s : well_labelled Describe (series s).
Proof. destruct s; (split; [cbv [series fst Describe]; set_solver|reflexivity]). Qed.

Lemma descriptions_distinct : NoDup (d_name <$> registered NewMetrics ++ Describe).
Proof. apply (bool_decide_unpack _). vm_compute. exact I. Qed.

(** ** The series of a scrape *)

(** The samples of the queue at an address. *)
Definition samples_at (w : World) (p : loc) : list Sample := default [] (queue_samples w <$> w_queue w !! p).

Lemma state_samples_bind w :
  state_samples w =
    SConnections (size (w_connections w)) :: SQueues (size (b_queues (w_broker w))) :: SExchanges (size (b_exchanges (w_broker w))) ::
    (map_to_list (b_queues (w_broker w)) ≫= λ x, samples_at w x.2).
Proof.
  unfold state_samples. do 3 f_equal. induction (map_to_list _) as [|[n p] l IH]; csimpl; [done|].
  unfold samples_at at 1. destruct (w_queue w !! p); csimpl; by rewrite IH.
Qed.

Lemma series_queue w q :
  series <$> queue_samples w q =
    (queueMessagesDesc, [q_name q]) :: (queueConsumersDesc, [q_name q]) ::
    ((λ tag, (consumerInflightDesc, [q_name q; tag])) <$> consumer_tags w q).
Proof.
  unfold queue_samples, consumer_tags. csimpl. do 2 f_equal. induction (elements _) as [|c l IH]; csimpl; [done|].
  destruct (w_consumer w !! c); csimpl; by rewrite IH.
Qed.

Lemma NoDup_series_queue w q : NoDup (series <$> queue_samples w q) ↔ NoDup (consumer_tags w q).
Proof.
  rewrite series_queue, !NoDup_cons. split.
  - intros (_ & _ & Hn). by eapply NoDup_fmap_1.
  - intros Hn. split_and!; [..|apply NoDup_fmap_2; [|done]; intros x y E; by simplify_eq].
    + intros [?|(tag & ? & _)%list_elem_of_fmap]%elem_of_cons; by simplify_eq.
    + intros (tag & ? & _)%list_elem_of_fmap; by simplify_eq.
Qed.

(** Every series of a queue carries its name. *)
Lemma series_queue_name w q x : x ∈ series <$> queue_samples w q → head x.2 = Some (q_name q).
Proof.
  rewrite series_queue, !elem_of_cons. intros [->|[->|(tag & -> & _)%list_elem_of_fmap]]; done.
Qed.

Lemma NoDup_samples w : WF w → NoDup (series <$> state_samples w) ↔ distinct_tags w.
Proof.
  intros HW. rewrite state_samples_bind. csimpl.
  assert (∀ l : list (string * loc), series <$> (l ≫= λ x, samples_at w x.2) = l ≫= λ x, series <$> samples_at w x.2) as Hb.
  { induction l as [|x l IH]; csimpl; [done|]. by rewrite fmap_app, IH. }
  rewrite Hb. rewrite !NoDup_cons. split.
  - intros (_ & _ & _ & Hn) p q Hq. apply NoDup_series_queue.
    pose proof (wf_queue_broker w HW p q Hq) as Hp. apply elem_of_map_to_list, list_elem_of_split in Hp as (l1 & l2 & Hl).
    rewrite Hl, bind_app, NoDup_app in Hn. destruct Hn as (_ & _ & Hn). csimpl in Hn. apply NoDup_app in Hn as [Hn _].
    unfold samples_at in Hn. by rewrite Hq in Hn.
  - intros Hd.
    assert (∀ x, x ∈ map_to_list (b_queues (w_broker w)) ≫= (λ x, series <$> samples_at w x.2) → head x.2 ≠ None) as Hhd.
    { intros x ([n p] & Hx & _)%list_elem_of_bind. simpl in Hx. unfold samples_at in Hx. destruct (w_queue w !! p) as [q|]; simpl in Hx;
        [apply series_queue_name in Hx; by rewrite Hx|by apply elem_of_nil in Hx]. }
    split_and!.
    + rewrite !elem_of_cons. intros [?|[?|Hx]]; [done..|]. by apply Hhd in Hx.
    + rewrite !elem_of_cons. intros [?|Hx]; [done..|]. by apply Hhd in Hx.
    + intros Hx. by apply Hhd in Hx.
    + apply NoDup_bind; [| |apply NoDup_map_to_list].
      * intros [n1 p1] [n2 p2] y H1%elem_of_map_to_list H2%elem_of_map_to_list Hy1 Hy2. simpl in *.
        destruct (wf_broker_queue w HW _ _ H1) as (q1 & Hq1 & Hn1), (wf_broker_queue w HW _ _ H2) as (q2 & Hq2 & Hn2).
        unfold samples_at in *. rewrite Hq1 in Hy1. rewrite Hq2 in Hy2. apply series_queue_name in Hy1, Hy2. simplify_eq. congruence.
      * intros [n p] _. unfold samples_at. simpl. destruct (w_queue w !! p) as [q|] eqn:Hq; simpl; [|constructor].
        apply NoDup_series_queue. by eapply Hd.
Qed.

(** C27: The metrics in any reachable state: no name is registered twice, every increment so
    far was on a registered counter with as many label values as it has labels; and
    a scrape changes nothing, sends exactly the gauges of that state up to the order
    of the map ranges, each described and with its labels, and sends no series twice
    exactly when the consumers of each queue have different tags. *)
Theorem scrape_series `{Oracle} (cfg : ServerConfig) (s : Sys) :
  reachable cfg s →
  NoDup (d_name <$> registered NewMetrics ++ Describe) ∧
  Forall (well_labelled (registered NewMetrics)) (inc_target NewMetrics <$> w_metrics (sys_world s)) ∧
  ∃ l t, Collect (sys_world s) = Done l (with_tick t (sys_world s)) ∧ l ≡ₚ state_samples (sys_world s) ∧
    Forall (well_labelled Describe) (series <$> l) ∧
    (NoDup (series <$> l) ↔ distinct_tags (sys_world s)).
Proof.
  intros Hr. split; [apply descriptions_distinct|]. split; [apply Forall_fmap, Forall_true, inc_well_labelled|].
  pose proof (reachable_Inv _ _ Hr) as Hinv. pose proof (wp_Collect _ Hinv) as Hw. unfold wp in Hw.
  destruct (Collect _) as [l w'| |]; [|done..]. destruct Hw as [Hl [t ->]]. exists l, t. split; [done|]. split; [done|].
  split; [apply Forall_fmap, Forall_true, series_well_labelled|]. rewrite Hl. apply NoDup_samples, (inv_wf _ _ Hinv).
Qed.

(** The state after the run of [Scenario] with two clients. *)
Lemma scrape_series_witness :
  ∃ l t, @Collect oracle_id (sys_world settled) = Done l (with_tick t (sys_world settled)) ∧
    (NoDup (series <$> l) ↔ distinct_tags (sys_world settled)).
Proof.
  destruct (@scrape_series oracle_id demo_cfg settled settled_reachable) as (_ & _ & l & t & E & _ & _ & Hn).
  exists l, t. split; [exact E|exact Hn].
Defined.
