(* ===== verification/Routing.v ===== *)
(** * The routing contract of the broker

    An abstract broker without pointers, locks or map orders: queues by name, and
    per exchange and routing key the set of bound queue names.  [abs] maps a store
    to it; the refinement theorem says that declaring, binding and publishing on
    the store are the abstract operations on its image, results included. *)

From S2P Require Import Prelude GoJson Protocol State Transport Queue Exchange Broker Channel Connection Invariant Accounting Frame Server Scenario.

(** ** The abstract broker *)

Record SQueue := mkSQueue {
  sq_ready : list Message;
  sq_next : Z;
  sq_dlx : string;
  sq_dlxRoutingKey : string;
}.

Record Spec := mkSpec {
  sp_queues : gmap string SQueue;
  sp_exchanges : gmap string (gmap string (gset string));
}.

(** The calls of the broker that this contract covers. *)
Inductive Call : Type :=
| CDeclareQueue (name dlx dlxRoutingKey : string)
| CDeclareExchange (name : string)
| CBindQueue (exchange queue routingKey : string)
| CPublish (exchange routingKey : string) (body : option bytes).

(** A message appended to a queue under the queue's next delivery tag. *)
Definition spec_push (exchange rk : string) (body : option bytes) (q : SQueue) : SQueue :=
  mkSQueue (sq_ready q ++ [mkMessage (sq_next q) body exchange rk]) (u16 (sq_next q + 1))
    (sq_dlx q) (sq_dlxRoutingKey q).

Definition spec_call (c : Call) (s : Spec) : option string * Spec :=
  match c with
  | CDeclareQueue n dlx rk =>
      match sp_queues s !! n with
      | Some _ => (None, s)
      | None => (None, mkSpec (<[n := mkSQueue [] 1 dlx rk]> (sp_queues s)) (sp_exchanges s))
      end
  | CDeclareExchange n =>
      match sp_exchanges s !! n with
      | Some _ => (None, s)
      | None => (None, mkSpec (sp_queues s) (<[n := ∅]> (sp_exchanges s)))
      end
  | CBindQueue ex q rk =>
      match sp_exchanges s !! ex, sp_queues s !! q with
      | None, _ => (Some "exchange not found", s)
      | Some _, None => (Some "queue not found", s)
      | Some bs, Some _ =>
          (None, mkSpec (sp_queues s) (<[ex := <[rk := default ∅ (bs !! rk) ∪ {[q]}]> bs]> (sp_exchanges s)))
      end
  | CPublish ex rk body =>
      match sp_exchanges s !! ex with
      | None => (Some ("exchange " +:+ quote ex +:+ " not found"), s)
      | Some bs =>
          (None, mkSpec (map_imap (λ n q, Some (if decide (n ∈ default ∅ (bs !! rk)) then spec_push ex rk body q else q))
                           (sp_queues s)) (sp_exchanges s))
      end
  end.

(** The same calls on the store. *)
Definition broker_call `{Oracle} (c : Call) : M (option string) :=
  match c with
  | CDeclareQueue n dlx rk => DeclareQueue n dlx rk;; mret None
  | CDeclareExchange n => DeclareExchange n;; mret None
  | CBindQueue ex q rk => BindQueue ex q rk
  | CPublish ex rk body => Broker.Publish ex rk body
  end.

(** ** Abstraction *)

Definition abs_queue (q : Queue) : SQueue :=
  mkSQueue (q_messages q) (q_nextTag q) (q_dlx q) (q_dlxRoutingKey q).

Definition abs_exchange (e : Exchange) : gmap string (gset string) := dom <$> e_bindings e.

Definition abs (w : World) : Spec :=
  mkSpec (omap (λ p, abs_queue <$> w_queue w !! p) (b_queues (w_broker w)))
    (omap (λ p, abs_exchange <$> w_exchange w !! p) (b_exchanges (w_broker w))).

Lemma abs_queue_lookup w n :
  sp_queues (abs w) !! n = b_queues (w_broker w) !! n ≫= λ p, abs_queue <$> w_queue w !! p.
Proof. apply lookup_omap. Qed.

Lemma abs_exchange_lookup w n :
  sp_exchanges (abs w) !! n = b_exchanges (w_broker w) !! n ≫= λ p, abs_exchange <$> w_exchange w !! p.
Proof. apply lookup_omap. Qed.

Lemma Spec_eq s s' :
  (∀ n, sp_queues s !! n = sp_queues s' !! n) → (∀ n, sp_exchanges s !! n = sp_exchanges s' !! n) → s = s'.
Proof. destruct s, s'; simpl. intros. f_equal; by apply map_eq. Qed.

Lemma abs_exchange_bound e rk : default ∅ (abs_exchange e !! rk) = dom (bound_queues e rk).
Proof.
  unfold abs_exchange, bound_queues. rewrite lookup_fmap.
  destruct (e_bindings e !! rk); simpl; [done|]. by rewrite dom_empty_L.
Qed.

Lemma abs_exchange_add e rk n qp :
  abs_exchange (mkExchange (e_name e) (add_binding rk n qp (e_bindings e))) =
  <[rk := default ∅ (abs_exchange e !! rk) ∪ {[n]}]> (abs_exchange e).
Proof.
  unfold abs_exchange at 1. simpl. unfold add_binding. rewrite fmap_insert, dom_insert_L.
  rewrite abs_exchange_bound. unfold bound_queues. f_equal. set_solver.
Qed.

(** ** The exact effect of publishing *)

(** The queue after a publish. *)
Definition pushed (ex rk : string) (body : option bytes) (q : Queue) : Queue :=
  set_messages (q_messages q ++ [mkMessage (q_nextTag q) body ex rk]) (set_nextTag (u16 (q_nextTag q + 1)) q).

Section publish.
Context `{Oracle}.

Lemma wp_publish_to ex rk body p w q :
  w_queue w !! p = Some q →
  wp (publish_to ex rk body p)
    (λ _ w', w' = signalled p (logged (Enqueued (q_name q)) (upd_queue p (pushed ex rk body q) w))) (λ _, False) w.
Proof.
  intros Hq. unfold publish_to, alloc_tag; unfold_prims. wp_run.
  eapply wp_mono; [| |eapply wp_enqueue; simpl; by rewrite lookup_insert_eq]; [|done].
  intros [] w' ->. unfold signalled, logged, upd_queue, with_queue; simpl. by rewrite insert_insert_eq.
Qed.

(** What a publish to the queues of [qs] makes of the store. *)
Record published (ex rk : string) (body : option bytes) (qs : list loc) (w w' : World) : Prop := {
  pub_queue : ∀ p, w_queue w' !! p =
    (λ q, if decide (p ∈ qs) then pushed ex rk body q else q) <$> w_queue w !! p;
  pub_broker : w_broker w' = w_broker w;
  pub_exchange : w_exchange w' = w_exchange w;
  pub_consumer : w_consumer w' = w_consumer w;
  pub_channel : w_channel w' = w_channel w;
  pub_conn : w_conn w' = w_conn w;
}.

Lemma wp_publish_loop ex rk body qs w :
  NoDup qs → (∀ p, p ∈ qs → is_Some (w_queue w !! p)) →
  wp (forM_ qs (publish_to ex rk body)) (λ _ w', published ex rk body qs w w' ∧
    ∃ l, w_metrics w' = w_metrics w ++ l ∧
      l = omap (λ p, (λ q, Enqueued (q_name q)) <$> w_queue w !! p) qs) (λ _, False) w.
Proof.
  revert w. induction qs as [|p qs IH]; intros w Hnd Hq; cbn [forM_].
  { wp_run. split; [|exists []; by rewrite app_nil_r]. split; try done. intros p. simpl.
    by destruct (w_queue w !! p). }
  apply NoDup_cons in Hnd as [Hp Hnd]. destruct (Hq p) as [q Hqp]; [set_solver|]. wp_step.
  eapply wp_mono; [| |by apply wp_publish_to]; [|done]. intros [] w1 ->.
  eapply wp_mono; [| |apply IH]; [|done..|].
  - intros [] w2 [[Hqs ?????] (l & Hl & El)]. simpl in *. split.
    + split; try done. intros p'. rewrite Hqs. destruct (decide (p = p')) as [<-|].
      * rewrite lookup_insert_eq, Hqp. simpl. repeat case_decide; done || set_solver.
      * rewrite lookup_insert_ne by done. destruct (w_queue w !! p'); simpl; [|done].
        repeat case_decide; done || set_solver.
    + exists (Enqueued (q_name q) :: l). rewrite Hl, <-app_assoc. split; [done|]. csimpl. rewrite Hqp. csimpl.
      f_equal. rewrite El. apply list_omap_ext, Forall2_same_length_lookup_2; [done|].
      intros i p1 p2 Hp1 Hp2. simplify_eq. rewrite lookup_insert_ne; [done|].
      intros <-. apply Hp. by eapply list_elem_of_lookup_2.
  - intros p' Hp'. simpl. destruct (decide (p = p')) as [<-|]; [set_solver|].
    rewrite lookup_insert_ne by done. apply Hq. set_solver.
Qed.

(** The queues a routing key selects are distinct. *)
Lemma bound_NoDup w ep e rk :
  WF w → w_exchange w !! ep = Some e → NoDup (map_to_list (bound_queues e rk)).*2.
Proof.
  intros HWF He. apply NoDup_fmap_2_strong; [|apply NoDup_map_to_list].
  intros [n1 p1] [n2 p2] H1%elem_of_map_to_list H2%elem_of_map_to_list. simpl. intros <-.
  destruct (wf_binding w HWF _ _ _ _ _ He H1) as (q1 & Hq1 & <-).
  destruct (wf_binding w HWF _ _ _ _ _ He H2) as (q2 & Hq2 & <-). by simplify_eq.
Qed.

(** A bound queue is bound under its own name. *)
Lemma bound_name w ep e rk p q :
  WF w → w_exchange w !! ep = Some e → w_queue w !! p = Some q →
  p ∈ (map_to_list (bound_queues e rk)).*2 ↔ q_name q ∈ dom (bound_queues e rk).
Proof.
  intros HWF He Hq. rewrite list_elem_of_fmap, elem_of_dom. split.
  - intros ([n p'] & -> & Hn%elem_of_map_to_list). simpl in *.
    destruct (wf_binding w HWF _ _ _ _ _ He Hn) as (q' & ? & <-). simplify_eq. by eexists.
  - intros [p' Hp']. destruct (wf_binding w HWF _ _ _ _ _ He Hp') as (q' & Hq' & En).
    exists (q_name q, p'). split; [|by apply elem_of_map_to_list]. simpl.
    apply (wf_queue_broker w HWF) in Hq, Hq'. congruence.
Qed.

Lemma wp_Publish ex rk body w ep e :
  WF w → b_exchanges (w_broker w) !! ex = Some ep → w_exchange w !! ep = Some e →
  wp (Broker.Publish ex rk body) (λ r w', r = None ∧
    ∃ qs, qs ≡ₚ (map_to_list (bound_queues e rk)).*2 ∧ published ex rk body qs w w' ∧
      w_metrics w' = w_metrics w ++ [Published ex] ++
        (if decide (qs = []) then [PublishUnroutable ex] else []) ++
        omap (λ p, (λ q, Enqueued (q_name q)) <$> w_queue w !! p) qs) (λ _, False) w.
Proof.
  intros HWF Hep He. unfold Broker.Publish, inc. wp_run. rewrite Hep. wp_run.
  eapply wp_mono; [| |eapply (wp_getQueues ep rk (logged (Published ex) w)); exact He]; [|done].
  intros qs w' [[t ->] Hqs]. wp_step. set (w1 := with_tick t _).
  set (w2 := if decide (qs = []) then logged (PublishUnroutable ex) w1 else w1).
  assert (wp (if decide (qs = []) then modify (λ w, logged (PublishUnroutable ex) w) else mret tt)
            (λ _ w', w' = w2) (λ _, False) w1) as Hun by (unfold w2; case_decide; by wp_run).
  eapply wp_mono; [| |exact Hun]; [|done]. intros [] w' ->. wp_step.
  assert (w_queue w2 = w_queue w) as Eq by (unfold w2; by case_decide).
  eapply wp_mono; [| |apply wp_publish_loop]; [|done| |].
  - intros [] w3 [[Hq H1 H2 H3 H4 H5] (l & Hl & El)]. wp_run. split; [done|]. exists qs. rewrite Eq in *.
    split; [done|]. split; [split; [done|..]; unfold w2 in *; by case_decide|].
    rewrite Hl, El. unfold w2. case_decide; simpl; by rewrite <-?app_assoc.
  - rewrite Hqs. by eapply bound_NoDup.
  - intros p. rewrite Hqs, Eq. intros ([n p'] & -> & Hn%elem_of_map_to_list)%list_elem_of_fmap.
    destruct (wf_binding w HWF _ _ _ _ _ He Hn) as (q & Hq & _). by eexists.
Qed.
End publish.

Lemma Publish_returns `{Oracle} ex rk body w :
  WF w → ∃ r w', Broker.Publish ex rk body w = Done r w'.
Proof.
  intros HWF. destruct (b_exchanges (w_broker w) !! ex) as [ep|] eqn:Hex.
  - destruct (wf_broker_exchange w HWF _ _ Hex) as (e & He & _).
    destruct (wp_returns _ _ _ (wp_Publish ex rk body w ep e HWF Hex He)) as (r & w' & E & _). eauto.
  - unfold Broker.Publish. rewrite bind_gets, Hex. simpl. by eauto.
Qed.

Lemma map_fst_elements `{Countable K} {A} (m : gmap K A) : (map_to_list m).*1 ≡ₚ elements (dom m).
Proof.
  apply NoDup_Permutation; [apply NoDup_fst_map_to_list|apply NoDup_elements|].
  intros k. rewrite elem_of_elements, elem_of_dom, list_elem_of_fmap. split.
  - intros ([k' v] & -> & Hk%elem_of_map_to_list). by eexists.
  - intros [v Hk]. exists (k, v). split; [done|]. by apply elem_of_map_to_list.
Qed.

(** The names under which the queues of a routing key are enqueued. *)
Lemma bound_names w ep e rk qs :
  WF w → w_exchange w !! ep = Some e → qs ≡ₚ (map_to_list (bound_queues e rk)).*2 →
  omap (λ p, q_name <$> w_queue w !! p) qs ≡ₚ elements (dom (bound_queues e rk)).
Proof.
  intros HWF He ->. rewrite <-map_fst_elements.
  assert (∀ l : list (string * loc), l ⊆ map_to_list (bound_queues e rk) →
    omap (λ p, q_name <$> w_queue w !! p) l.*2 = l.*1) as ->; [|done..].
  induction l as [|[n p] l IH]; intros Hl; [done|]. csimpl.
  assert ((n, p) ∈ map_to_list (bound_queues e rk)) as Hn%elem_of_map_to_list by set_solver.
  destruct (wf_binding w HWF _ _ _ _ _ He Hn) as (q & -> & <-). csimpl. rewrite IH; [done|set_solver].
Qed.

(** ** Refinement *)

Section refinement.
Context `{Oracle}.

(** The abstraction reads the broker's maps, the queues and the exchanges. *)
Lemma abs_frame w w' :
  w_broker w' = w_broker w → w_queue w' = w_queue w → w_exchange w' = w_exchange w → abs w' = abs w.
Proof. unfold abs. by intros -> -> ->. Qed.

Lemma abs_DeclareQueue n dlx rk w :
  Inv w → wp (DeclareQueue n dlx rk) (λ _ w', spec_call (CDeclareQueue n dlx rk) (abs w) = (None, abs w')) (λ _, False) w.
Proof.
  intros Hinv. unfold DeclareQueue, NewQueue, put_broker; unfold_prims. wp_run. cbn [spec_call].
  rewrite abs_queue_lookup. destruct (b_queues (w_broker w) !! n) as [p|] eqn:Hn; simpl.
  - destruct (wf_broker_queue w (inv_wf _ _ Hinv) _ _ Hn) as (q & Hq & _). rewrite Hq. by wp_run.
  - wp_run. f_equal. set (p := fresh (dom (w_queue w))).
    assert (w_queue w !! p = None) as Hp by (apply not_elem_of_dom, is_fresh).
    apply Spec_eq; intros m; [|done]. cbn [sp_queues]. rewrite abs_queue_lookup. simpl.
    destruct (decide (n = m)) as [<-|].
    + rewrite !lookup_insert_eq. simpl. by rewrite lookup_insert_eq.
    + rewrite !lookup_insert_ne by done. rewrite lookup_omap.
      destruct (b_queues (w_broker w) !! m) as [p'|] eqn:Hm; simpl; [|done].
      destruct (wf_broker_queue w (inv_wf _ _ Hinv) _ _ Hm) as (q & Hq & _).
      rewrite lookup_insert_ne; [done|congruence].
Qed.

Lemma abs_DeclareExchange n w :
  Inv w → wp (DeclareExchange n) (λ _ w', spec_call (CDeclareExchange n) (abs w) = (None, abs w')) (λ _, False) w.
Proof.
  intros Hinv. unfold DeclareExchange, NewExchange, put_broker; unfold_prims. wp_run. cbn [spec_call].
  rewrite abs_exchange_lookup. destruct (b_exchanges (w_broker w) !! n) as [p|] eqn:Hn; simpl.
  - destruct (wf_broker_exchange w (inv_wf _ _ Hinv) _ _ Hn) as (q & Hq & _). rewrite Hq. by wp_run.
  - wp_run. f_equal. set (p := fresh (dom (w_exchange w))).
    assert (w_exchange w !! p = None) as Hp by (apply not_elem_of_dom, is_fresh).
    apply Spec_eq; intros m; [done|]. cbn [sp_exchanges]. rewrite abs_exchange_lookup. simpl.
    destruct (decide (n = m)) as [<-|].
    + rewrite !lookup_insert_eq. simpl. by rewrite lookup_insert_eq.
    + rewrite !lookup_insert_ne by done. rewrite lookup_omap.
      destruct (b_exchanges (w_broker w) !! m) as [p'|] eqn:Hm; simpl; [|done].
      destruct (wf_broker_exchange w (inv_wf _ _ Hinv) _ _ Hm) as (q & Hq & _).
      rewrite lookup_insert_ne; [done|congruence].
Qed.

Lemma abs_BindQueue ex n rk w :
  Inv w → wp (BindQueue ex n rk) (λ r w', spec_call (CBindQueue ex n rk) (abs w) = (r, abs w')) (λ _, False) w.
Proof.
  intros Hinv. unfold BindQueue, bind; unfold_prims. wp_run. cbn [spec_call].
  rewrite abs_exchange_lookup, abs_queue_lookup.
  destruct (b_exchanges (w_broker w) !! ex) as [ep|] eqn:Hex; simpl; [|by wp_run].
  destruct (wf_broker_exchange w (inv_wf _ _ Hinv) _ _ Hex) as (e & He & En). rewrite He. simpl.
  destruct (b_queues (w_broker w) !! n) as [qp|] eqn:Hn; simpl; [|by wp_run].
  destruct (wf_broker_queue w (inv_wf _ _ Hinv) _ _ Hn) as (q & Hq & <-). rewrite Hq. simpl. wp_run.
  f_equal. apply Spec_eq; intros m; [done|]. cbn [sp_exchanges]. rewrite abs_exchange_lookup. simpl.
  destruct (decide (ex = m)) as [<-|].
  - rewrite lookup_insert_eq, Hex. simpl. rewrite lookup_insert_eq. simpl. by rewrite abs_exchange_add.
  - rewrite lookup_insert_ne, lookup_omap by done.
    destruct (b_exchanges (w_broker w) !! m) as [p'|] eqn:Hm; simpl; [|done].
    destruct (wf_broker_exchange w (inv_wf _ _ Hinv) _ _ Hm) as (e' & He' & <-).
    rewrite lookup_insert_ne; [done|]. intros ->. congruence.
Qed.

Lemma abs_Publish ex rk body w :
  Inv w → wp (Broker.Publish ex rk body) (λ r w', spec_call (CPublish ex rk body) (abs w) = (r, abs w')) (λ _, False) w.
Proof.
  intros Hinv. pose proof (inv_wf _ _ Hinv) as HWF. cbn [spec_call]. rewrite abs_exchange_lookup.
  destruct (b_exchanges (w_broker w) !! ex) as [ep|] eqn:Hex; simpl.
  2: { unfold Broker.Publish, inc. wp_run. rewrite Hex. by wp_run. }
  destruct (wf_broker_exchange w HWF _ _ Hex) as (e & He & _). rewrite He. simpl.
  eapply wp_mono; [| |by eapply wp_Publish]; [|done].
  intros r w' (-> & qs & Hqs & [Hq Hb Hx _ _ _] & _). f_equal. apply Spec_eq; intros m.
  - cbn [sp_queues]. rewrite map_lookup_imap, lookup_omap, abs_queue_lookup, Hb.
    destruct (b_queues (w_broker w) !! m) as [p|] eqn:Hm; simpl; [|done].
    destruct (wf_broker_queue w HWF _ _ Hm) as (q & Hqp & <-). rewrite Hq, Hqp. simpl. f_equal.
    rewrite abs_exchange_bound.
    assert (p ∈ qs ↔ q_name q ∈ dom (bound_queues e rk)) by (rewrite Hqs; by eapply bound_name).
    do 2 case_decide; done || tauto.
  - cbn [sp_exchanges]. by rewrite lookup_omap, abs_exchange_lookup, Hb, Hx.
Qed.

Lemma abs_call c w :
  Inv w → wp (broker_call c) (λ r w', spec_call c (abs w) = (r, abs w') ∧ Inv w') (λ _, False) w.
Proof.
  intros Hinv. eapply wp_mono; [| |apply (wp_conj _ (λ r w', spec_call c (abs w) = (r, abs w')) (λ _, Inv) (λ _, False) (λ _, False))].
  - done.
  - by intros w' [].
  - destruct c; simpl; [| |by apply abs_BindQueue|by apply abs_Publish].
    + wp_step. eapply wp_mono; [| |by apply abs_DeclareQueue]; [|done]. intros [] w' ?. by wp_run.
    + wp_step. eapply wp_mono; [| |by apply abs_DeclareExchange]; [|done]. intros [] w' ?. by wp_run.
  - destruct c; simpl.
    + wp_step. eapply wp_mono; [| |by apply pres_DeclareQueue]; [|done]. intros [] w' [? _]. by wp_run.
    + wp_step. eapply wp_mono; [| |by apply pres_DeclareExchange]; [|done]. intros [] w' [? _]. by wp_run.
    + eapply wp_mono; [| |by apply pres_BindQueue]; [|done]. by intros r w' [? _].
    + eapply wp_mono; [| |by apply (pres_Publish (λ _, 0))]; [|done]. by intros r w' [? _].
Qed.
End refinement.

(** ** Claims *)

(** A sequence of abstract calls, with their results. *)
Fixpoint spec_calls (cs : list Call) (s : Spec) : list (option string) * Spec :=
  match cs with
  | [] => ([], s)
  | c :: cs' =>
      let '(r, s1) := spec_call c s in
      let '(rs, s2) := spec_calls cs' s1 in (r :: rs, s2)
  end.

(** The same sequence on the store. *)
Fixpoint broker_calls `{Oracle} (cs : list Call) : M (list (option string)) :=
  match cs with
  | [] => mret []
  | c :: cs' => r ← broker_call c; rs ← broker_calls cs'; mret (r :: rs)
  end.

Section claims.
Context `{Oracle}.

Lemma abs_calls cs w :
  Inv w → ∃ rs w', broker_calls cs w = Done rs w' ∧ spec_calls cs (abs w) = (rs, abs w') ∧ Inv w'.
Proof.
  revert w. induction cs as [|c cs IH]; intros w Hinv; [by exists [], w|].
  pose proof (abs_call c w Hinv) as Hc. unfold wp in Hc. simpl.
  destruct (broker_call c w) as [r w1| |] eqn:E; [|done..]. destruct Hc as [Es Hinv1].
  destruct (IH w1 Hinv1) as (rs & w2 & E2 & Es2 & Hinv2). exists (r :: rs), w2.
  rewrite (bind_Done _ _ _ _ _ E), (bind_Done _ _ _ _ _ E2), Es, Es2. done.
Qed.

(** C2: The broker refines the abstract broker: any sequence of declarations,
    bindings and publishes, run on a store that satisfies the invariant, returns
    (without panic or block) exactly the results of the abstract sequence, and
    leaves the store whose abstraction is the abstract final state.  The order in
    which Go visits its maps is not observable. *)
Theorem broker_refines_spec cs w :
  Inv w → ∃ rs w', broker_calls cs w = Done rs w' ∧ spec_calls cs (abs w) = (rs, abs w') ∧ Inv w'.
Proof. apply abs_calls. Qed.

(** C11: Publishing to a declared exchange appends the message, under the queue's
    next delivery tag, to the end of every queue bound with the routing key and
    to no other queue, advances exactly those queues' tags (modulo 2^16), touches
    no consumer, channel or connection, and counts one publish, one enqueue per
    bound queue, and an unroutable publish when there is none. *)
Theorem publish_routes ex rk body w ep e :
  Inv w → b_exchanges (w_broker w) !! ex = Some ep → w_exchange w !! ep = Some e →
  ∃ w', Broker.Publish ex rk body w = Done None w' ∧
    (∀ p q, w_queue w !! p = Some q → w_queue w' !! p = Some (
       if decide (q_name q ∈ dom (bound_queues e rk)) then
         mkQueue (q_name q) (q_messages q ++ [mkMessage (q_nextTag q) body ex rk]) (q_consumers q)
           ((q_nextTag q + 1) `mod` 65536) (q_dlx q) (q_dlxRoutingKey q)
       else q)) ∧
    w_consumer w' = w_consumer w ∧ w_channel w' = w_channel w ∧ w_conn w' = w_conn w ∧
    ∃ ns, ns ≡ₚ elements (dom (bound_queues e rk)) ∧
      w_metrics w' = w_metrics w ++ [Published ex] ++
        (if decide (ns = []) then [PublishUnroutable ex] else []) ++ (Enqueued <$> ns).
Proof.
  intros Hinv Hex He. pose proof (inv_wf _ _ Hinv) as HWF.
  pose proof (wp_Publish ex rk body w ep e HWF Hex He) as Hw. unfold wp in Hw.
  destruct (Broker.Publish ex rk body w) as [r w'| |]; [|done..].
  destruct Hw as (-> & qs & Hqs & [Hq Hb Hx Hc Hch Hcn] & Hm). exists w'. split; [done|]. split.
  { clear Hm. intros p q Hp. rewrite Hq, Hp. simpl. f_equal.
    assert (p ∈ qs ↔ q_name q ∈ dom (bound_queues e rk)) by (rewrite Hqs; by eapply bound_name).
    do 2 case_decide; done || tauto. }
  split_and!; [done..|]. exists (omap (λ p, q_name <$> w_queue w !! p) qs).
  assert (omap (λ p, q_name <$> w_queue w !! p) qs ≡ₚ elements (dom (bound_queues e rk))) as Hns
    by (by eapply bound_names).
  split; [done|]. rewrite Hm. do 2 f_equal.
  assert (length qs = length (omap (λ p, q_name <$> w_queue w !! p) qs)) as Hlen.
  { rewrite Hns, Hqs, <-map_fst_elements. by rewrite !length_fmap. }
  f_equal.
  { destruct (omap (λ p, q_name <$> w_queue w !! p) qs), qs; done. }
  clear. induction qs as [|p qs IH]; csimpl; [done|].
  destruct (w_queue w !! p); csimpl; by rewrite IH.
Qed.

(** Publishing to an undeclared exchange returns the error that names it,
    counts a publish error and changes nothing else. *)
Theorem publish_unknown_exchange ex rk body w :
  b_exchanges (w_broker w) !! ex = None →
  Broker.Publish ex rk body w =
    Done (Some ("exchange " +:+ quote ex +:+ " not found")) (logged PublishErrors w).
Proof. intros Hex. unfold Broker.Publish. rewrite bind_gets, Hex. done. Qed.

(** The two nested range loops of [getQueues] compute a lookup: they return
    the queues bound with exactly the given routing key, each once, and change
    nothing. *)
Theorem get_queues_is_lookup ep rk w e :
  w_exchange w !! ep = Some e →
  ∃ qs t, getQueues ep rk w = Done qs (with_tick t w) ∧ qs ≡ₚ (map_to_list (bound_queues e rk)).*2.
Proof.
  intros He. pose proof (wp_getQueues ep rk w e He) as Hw. unfold wp in Hw.
  destruct (getQueues ep rk w) as [qs w'| |]; [|done..]. destruct Hw as [[t ->] Hqs]. by exists qs, t.
Qed.
End claims.

(** ** The claims at concrete stores *)

Section witnesses.
#[local] Existing Instance oracle_rev.

Definition routing_calls : list Call := [
  CDeclareExchange "ex"; CDeclareQueue "a" "" ""; CDeclareQueue "b" "" ""; CBindQueue "ex" "a" "k";
  CBindQueue "ex" "b" "k"; CBindQueue "ex" "c" "k"; CPublish "ex" "k" (Some [Byte.x61]); CPublish "no" "k" None].

(** The store after them. *)
Definition routed : World :=
  match broker_calls routing_calls (NewServer demo_cfg) with Done _ w => w | _ => NewServer demo_cfg end.

Lemma start_Inv : Inv (NewServer demo_cfg).
Proof. apply (si_inv _ (SysInv_start demo_cfg)). Qed.

Lemma broker_refines_spec_witness : ∃ rs w',
  broker_calls routing_calls (NewServer demo_cfg) = Done rs w' ∧
  spec_calls routing_calls (abs (NewServer demo_cfg)) = (rs, abs w') ∧ Inv w'.
Proof. apply (broker_refines_spec routing_calls), start_Inv. Defined.

Lemma routed_Inv : Inv routed.
Proof.
  pose proof (abs_calls routing_calls (NewServer demo_cfg) start_Inv) as (rs & w' & E & _ & Hinv).
  unfold routed. by rewrite E.
Qed.

Lemma publish_routes_witness : ∃ e w',
  w_exchange routed !! 0%nat = Some e ∧ elements (dom (bound_queues e "k")) = ["a"; "b"] ∧
  Broker.Publish "ex" "k" (Some [Byte.x62]) routed = Done None w' ∧ w_consumer w' = w_consumer routed.
Proof.
  assert (w_exchange routed !! 0%nat = Some (mkExchange "ex" {["k" := <["b" := 1%nat]> {["a" := 0%nat]}]})) as He
    by (vm_compute; reflexivity).
  destruct (publish_routes "ex" "k" (Some [Byte.x62]) routed 0%nat _ routed_Inv
    ltac:(vm_compute; reflexivity) He) as (w' & E & _ & Ec & _).
  eexists _, w'. split; [exact He|]. split; [vm_compute; reflexivity|]. split; [exact E|exact Ec].
Defined.

Lemma publish_unknown_exchange_witness :
  Broker.Publish "nope" "k" None routed =
    Done (Some ("exchange " +:+ quote "nope" +:+ " not found")) (logged PublishErrors routed).
Proof. apply publish_unknown_exchange. vm_compute. reflexivity. Defined.

Lemma get_queues_is_lookup_witness : ∃ e qs t,
  w_exchange routed !! 0%nat = Some e ∧ getQueues 0%nat "k" routed = Done qs (with_tick t routed) ∧
  qs ≡ₚ (map_to_list (bound_queues e "k")).*2.
Proof.
  destruct (w_exchange routed !! 0%nat) as [e|] eqn:E; [|vm_compute in E; discriminate E].
  destruct (get_queues_is_lookup 0%nat "k" routed e E) as (qs & t & Hq). exists e, qs, t. by split.
Defined.
End witnesses.
