(* ===== verification/Delivery.v ===== *)
(** * What happens to messages

    The messages a queue is responsible for ([contents]: its buffer and what its
    consumers hold), and what each operation does to them: a dispatch section moves
    them, a disconnect returns them, an ack removes one, a nack returns, re-routes
    or discards one.  The effects of the handlers are exact, errors included. *)

From S2P Require Import Prelude GoJson Protocol State Transport Queue Exchange Broker Channel Connection Invariant Accounting Frame Server Scenario Routing.

(** ** Contents *)

Definition pending_msgs (co : Consumer) : list Message := (map_to_list (c_pendingMessages co)).*2.

Definition held_on (p : loc) (co : Consumer) : list Message :=
  if decide (c_queue co = p) then pending_msgs co else [].

(** The messages held by the consumers of queue [p]. *)
Definition held (p : loc) (cs : gmap loc Consumer) : list Message :=
  concat ((λ x : loc * Consumer, held_on p x.2) <$> map_to_list cs).

(** The messages queue [p] is responsible for: its buffer and what every consumer created
    on it holds, registered or not. *)
Definition contents (w : World) (p : loc) : list Message :=
  match w_queue w !! p with
  | Some q => q_messages q ++ held p (w_consumer w)
  | None => []
  end.

Lemma held_delete p cs c co :
  cs !! c = Some co → held p cs ≡ₚ held_on p co ++ held p (delete c cs).
Proof.
  intros Hc. unfold held. rewrite <-(insert_delete_id cs c co Hc) at 1.
  rewrite (concat_fmap_perm _ _ _ (map_to_list_insert _ c co ltac:(by rewrite lookup_delete_eq))). done.
Qed.

(** Replacing a consumer replaces its share. *)
Lemma held_update p cs c co co' :
  cs !! c = Some co → held p (<[c := co']> cs) ≡ₚ held_on p co' ++ held p (delete c cs).
Proof.
  intros Hc. rewrite (held_delete p (<[c := co']> cs) c co') by (by rewrite lookup_insert_eq).
  by rewrite delete_insert_eq.
Qed.

Lemma pending_took msg co :
  c_pendingMessages co !! m_DeliveryTag msg = None → pending_msgs (took msg co) ≡ₚ msg :: pending_msgs co.
Proof. intros Hn. unfold pending_msgs. simpl. by rewrite map_to_list_insert. Qed.

Lemma pending_released t co msg :
  c_pendingMessages co !! t = Some msg → pending_msgs co ≡ₚ msg :: pending_msgs (released t co).
Proof.
  intros Ht. unfold pending_msgs. simpl. rewrite <-(insert_delete_id _ t msg Ht) at 1.
  by rewrite map_to_list_insert by (by rewrite lookup_delete_eq).
Qed.

Lemma held_took p cs c co msg :
  cs !! c = Some co → c_queue co = p → c_pendingMessages co !! m_DeliveryTag msg = None →
  held p (<[c := took msg co]> cs) ≡ₚ msg :: held p cs.
Proof.
  intros Hc Hp Hn. rewrite (held_update p cs c co), (held_delete p cs c co) by done.
  unfold held_on. simpl. rewrite !decide_True, pending_took by done. done.
Qed.

Lemma held_released p cs c co t msg :
  cs !! c = Some co → c_queue co = p → c_pendingMessages co !! t = Some msg →
  held p cs ≡ₚ msg :: held p (<[c := released t co]> cs).
Proof.
  intros Hc Hp Hn. rewrite (held_update p cs c co), (held_delete p cs c co) by done.
  unfold held_on. simpl. rewrite !decide_True by done. by rewrite (pending_released t co msg).
Qed.

(** Other queues do not notice. *)
Lemma held_other p cs c co co' :
  cs !! c = Some co → c_queue co' = c_queue co → c_queue co ≠ p → held p (<[c := co']> cs) ≡ₚ held p cs.
Proof.
  intros Hc Eq Hp. rewrite (held_update p cs c co), (held_delete p cs c co) by done.
  unfold held_on. rewrite Eq. by rewrite !decide_False.
Qed.

Lemma contents_io_eq w w' p : io_eq w w' → contents w' p = contents w p.
Proof. intros Hio. unfold contents. by rewrite (io_queue _ _ Hio), (io_consumer _ _ Hio). Qed.

(** A message in a consumer is among the contents of the consumer's queue. *)
Lemma pending_contents w p q c co t msg :
  w_queue w !! p = Some q → w_consumer w !! c = Some co → c_queue co = p →
  c_pendingMessages co !! t = Some msg → msg ∈ held p (w_consumer w).
Proof. intros Hq Hc Hp Ht. rewrite held_released by done. set_solver. Qed.

(** ** Dispatching *)

(** The message a dispatch goroutine is writing is pending in its consumer; a
    disconnect of that consumer in the meantime is what breaks it. *)
Definition owned (w : World) (p : loc) : Prop :=
  match w_dispatch w !! p with
  | Some (DWriting c m) | Some (DFailed c m) =>
      ∃ co, w_consumer w !! c = Some co ∧ c_pendingMessages co !! m_DeliveryTag m = Some m
  | _ => True
  end.

Definition tags (l : list Message) : list Z := m_DeliveryTag <$> l.

Section dispatch.
Context `{Oracle}.

Lemma contents_take w p q c co msg rest p' :
  Inv w → w_queue w !! p = Some q → q_messages q = msg :: rest → c ∈ q_consumers q →
  w_consumer w !! c = Some co → c_pendingMessages co !! m_DeliveryTag msg = None →
  contents (upd_dispatch p (DWriting c msg) (upd_consumer c (took msg co)
    (upd_queue p (set_messages rest q) (ticked w)))) p' ≡ₚ contents w p'.
Proof.
  intros Hinv Hq Hm Hc Hco Hn. destruct (wf_queue_consumer w (inv_wf _ _ Hinv) _ _ _ Hq Hc) as (co' & ? & Hcq).
  simplify_eq. unfold contents; simpl. rewrite lookup_insert. case_decide as Hp; [subst p'|].
  - rewrite Hq, Hm. simpl. rewrite held_took by done. by rewrite <-Permutation_middle.
  - destruct (w_queue w !! p'); [|done]. by rewrite (held_other p' _ c co) by done.
Qed.

Lemma contents_requeue w p q c co msg p' :
  w_queue w !! p = Some q → w_consumer w !! c = Some co → c_queue co = p →
  c_pendingMessages co !! m_DeliveryTag msg = Some msg →
  contents (upd_dispatch p DRunning (upd_consumer c (released (m_DeliveryTag msg) co)
    (upd_queue p (set_messages (msg :: q_messages q) q) w))) p' ≡ₚ contents w p'.
Proof.
  intros Hq Hco <- Hn. unfold contents; simpl. rewrite lookup_insert. case_decide as Hp; [subst p'|].
  - rewrite Hq. simpl. rewrite (held_released _ (w_consumer w) c co _ msg) by done. by rewrite <-Permutation_middle.
  - destruct (w_queue w !! p'); [|done]. by rewrite (held_other p' _ c co) by done.
Qed.

Lemma NoDup_tags_fresh w p q msg rest c co :
  w_queue w !! p = Some q → q_messages q = msg :: rest → w_consumer w !! c = Some co → c_queue co = p →
  consumer_ok co → NoDup (tags (contents w p)) → c_pendingMessages co !! m_DeliveryTag msg = None.
Proof.
  intros Hq Hm Hco Hcq Hok Hnd. unfold contents in Hnd. rewrite Hq, Hm in Hnd.
  destruct (c_pendingMessages co !! m_DeliveryTag msg) as [m'|] eqn:E; [|done]. exfalso.
  apply NoDup_cons in Hnd as [Hnot _]. apply Hnot. apply list_elem_of_fmap. exists m'.
  split; [symmetry; by apply (co_keys co Hok)|]. apply elem_of_app. right. by eapply pending_contents.
Qed.

Lemma wp_dispatch_conserves w p q :
  Inv w → w_queue w !! p = Some q → NoDup (tags (contents w p)) → owned w p →
  wp (dispatch_section p) (λ _ w', (∀ p', contents w' p' ≡ₚ contents w p') ∧ owned w' p)
    (λ w', ∀ p', contents w' p' = contents w p') w.
Proof.
  intros Hinv Hq Hnd Hown. pose proof (inv_wf _ _ Hinv) as HWF.
  destruct (wf_dispatch w HWF p) as [d Hd]; [by eauto|]. unfold dispatch_section. wp_run.
  unfold owned in Hown. rewrite Hd in Hown.
  assert (∀ c, dispatch_consumer d = Some c → ∃ co, w_consumer w !! c = Some co ∧ c_queue co = p) as Hdc
    by (intros c; by eapply wf_dispatch_consumer).
  destruct d as [| | |c msg|c msg|c msg]; try done.
  - eapply wp_mono; [| |apply (wp_dispatch_take p w q Hq); by eapply consumers_valid]; [|done].
    intros [] w'. unfold take_post, owned. destruct (q_messages q) as [|msg rest] eqn:Hm.
    { intros ->. simpl. by rewrite lookup_insert_eq. }
    intros [[-> _]|(c & co & Hc & Hco & Hlt & ->)]; simpl; rewrite lookup_insert_eq; [done|].
    destruct (wf_queue_consumer w HWF _ _ _ Hq Hc) as (co' & ? & Hcq). simplify_eq.
    assert (c_pendingMessages co !! m_DeliveryTag msg = None) as Hn
      by (eapply NoDup_tags_fresh; [done..|by eapply inv_consumer|done]).
    split; [intros p'; by eapply contents_take|].
    exists (took msg co). rewrite lookup_insert_eq. split; [done|]. simpl. by rewrite lookup_insert_eq.
  - destruct (Hdc c) as (co & Hco & Hcq); [done|]. destruct Hown as (co' & Hco' & Hpend). rewrite Hco in Hco'. injection Hco' as <-.
    destruct (wf_consumer w HWF _ _ Hco) as [_ [ch Hch]]. destruct (wf_channel w HWF _ _ Hch) as [cn Hcn].
    eapply wp_mono; [| |by apply (wp_dispatch_write _ c msg w q co ch cn)].
    + intros [] w' (r & (w1 & Hio & ->) & _). destruct r; simpl.
      * split; [intros p'; by rewrite <-(contents_io_eq w w1)|]. unfold owned. simpl. rewrite lookup_insert_eq.
        rewrite (io_consumer _ _ Hio). by exists co.
      * split; [intros p'; by rewrite <-(contents_io_eq w w1)|]. unfold owned. simpl. by rewrite lookup_insert_eq.
    + intros w' Hio p'. by apply contents_io_eq.
  - destruct (Hdc c) as (co & Hco & Hcq); [done|]. destruct Hown as (co' & Hco' & Hpend). rewrite Hco in Hco'. injection Hco' as <-.
    eapply wp_mono; [| |by apply (wp_dispatch_requeue _ c msg w q co)]; [|done].
    intros [] w' ->. split; [intros p'; by apply contents_requeue|].
    unfold owned. simpl. by rewrite lookup_insert_eq.
Qed.
End dispatch.

(** ** Acknowledging *)

Section settle.
Context `{Oracle}.

(** [Broker.Ack] on a declared queue. *)
Definition ack_post (name : string) (p : loc) (q : Queue) (t : Z) (w : World) (r : option string) (w' : World) : Prop :=
  match r with
  | None => ∃ c co, c ∈ q_consumers q ∧ w_consumer w !! c = Some co ∧ t ∈ c_inflightTags co ∧
      w' = logged (Acked name) (signalled p (upd_consumer c (released t co) (ticked w)))
  | Some e => e = "delivery tag " +:+ pretty t +:+ " not found in any consumer on queue " +:+ quote name ∧
      w' = ticked w ∧ ∀ c co, c ∈ q_consumers q → w_consumer w !! c = Some co → t ∉ c_inflightTags co
  end.

Lemma wp_Ack name t w p q :
  Inv w → b_queues (w_broker w) !! name = Some p → w_queue w !! p = Some q →
  wp (Broker.Ack name t) (ack_post name p q t w) (λ _, False) w.
Proof.
  intros Hinv Hp Hq. unfold Broker.Ack; unfold_prims. wp_run. rewrite Hp. wp_run. apply wp_range. intros cs Hcs.
  wp_step.
  eapply wp_mono; [| |apply (wp_scan
    (λ c (_ : unit) w', ∃ co, w_consumer w !! c = Some co ∧ t ∈ c_inflightTags co ∧
       w' = upd_consumer c (released t co) (ticked w))
    (λ c, ∀ co, w_consumer w !! c = Some co → t ∉ c_inflightTags co))].
  2: exact (λ _, id).
  - intros [[]|] w'.
    + intros (c & Hc & co & Hco & Ht & ->). wp_run. exists c, co. rewrite Hcs, elem_of_elements in Hc. done.
    + intros [-> Hm]. wp_run. split_and!; [done..|]. intros c co Hc. apply Hm. by rewrite Hcs, elem_of_elements.
  - intros c Hc. rewrite Hcs, elem_of_elements in Hc.
    destruct (wf_queue_consumer w (inv_wf _ _ Hinv) _ _ _ Hq Hc) as (co & Hco & _).
    unfold ack_consumer; unfold_prims. wp_step. eapply wp_deref; [exact Hco|]. case_decide; wp_run.
    + by exists co.
    + split; [done|]. intros co' ?. by simplify_eq.
Qed.

(** [HandleAck]: a consumer of the channel that holds the tag decides the queue;
    a tag no consumer of the channel holds is ignored, without a reply. *)
Lemma wp_HandleAck chp env t w ch :
  Inv w → w_channel w !! chp = Some ch → Unmarshal (env_Payload env) = (mkAck t, None) →
  wp (HandleAck chp env) (λ _ w',
    (∃ tag c co q r, ch_consumers ch !! tag = Some c ∧ w_consumer w !! c = Some co ∧ t ∈ c_inflightTags co ∧
       w_queue w !! c_queue co = Some q ∧ ack_post (q_name q) (c_queue co) q t (ticked w) r w') ∨
    (w' = ticked w ∧ ∀ tag c co, ch_consumers ch !! tag = Some c → w_consumer w !! c = Some co →
       t ∉ c_inflightTags co)) (λ _, False) w.
Proof.
  intros Hinv Hch Hu. pose proof (inv_wf _ _ Hinv) as HWF. unfold HandleAck. rewrite Hu; unfold_prims. wp_run.
  apply wp_range. intros cs Hcs. wp_step.
  eapply wp_mono; [| |apply (wp_scan
    (λ x (_ : unit) w', ∃ co q r, w_consumer w !! x.2 = Some co ∧ t ∈ c_inflightTags co ∧
       w_queue w !! c_queue co = Some q ∧ ack_post (q_name q) (c_queue co) q t (ticked w) r w')
    (λ x, ∀ co, w_consumer w !! x.2 = Some co → t ∉ c_inflightTags co))].
  2: exact (λ _, id).
  - intros [[]|] w'.
    + intros ([tag c] & Hc & co & q & r & ?). wp_run. left. exists tag, c, co, q, r.
      rewrite Hcs, elem_of_map_to_list in Hc. done.
    + intros [-> Hm]. wp_run. right. split; [done|]. intros tag c co Hc. apply (Hm (tag, c)).
      by rewrite Hcs, elem_of_map_to_list.
  - intros [tag c] Hc. rewrite Hcs, elem_of_map_to_list in Hc.
    destruct (wf_channel_consumer w HWF _ _ _ _ Hch Hc) as (co & Hco & _).
    wp_step. eapply wp_deref; [exact Hco|]. case_decide; wp_run.
    2: { split; [done|]. simpl. intros co' ?. by simplify_eq. }
    destruct (wf_consumer w HWF _ _ Hco) as [[q Hq] _].
    eapply wp_deref; [exact Hq|]. wp_step.
    eapply wp_mono; [| |apply (wp_Ack _ t (ticked w) (c_queue co) q);
      [by apply inv_ticked|by apply (wf_queue_broker w HWF)|exact Hq]]; [|done].
    intros r w' Hr. wp_run. by exists co, q, r.
Qed.

(** ** Rejecting *)

(** The effect of [nack_dispose] when the message does not go to an exchange. *)
Definition requeued (p : loc) (q : Queue) (msg : Message) (w : World) : World :=
  signalled p (upd_queue p (set_messages (msg :: q_messages q) q) (logged (Nacked (q_name q) "true") w)).
Definition dropped (p : loc) (q : Queue) (w : World) : World :=
  signalled p (logged (Dropped (q_name q)) (logged (Nacked (q_name q) "false") w)).

(** The routing key a dead-lettered message gets. *)
Definition dead_key (q : Queue) (msg : Message) : string :=
  if decide (q_dlxRoutingKey q = "") then m_RoutingKey msg else q_dlxRoutingKey q.

Definition dispose_post (p : loc) (q : Queue) (msg : Message) (requeue : bool) (w w' : World) : Prop :=
  if requeue then w' = requeued p q msg w
  else if decide (q_dlx q = "") then w' = dropped p q w
  else ∃ r w1, Broker.Publish (q_dlx q) (dead_key q msg) (m_Body msg)
                 (logged (DeadLettered (q_name q)) (logged (Nacked (q_name q) "false") w)) = Done r w1 ∧
         w' = signalled p w1.

Lemma wp_nack_dispose p q msg b w :
  w_queue w !! p = Some q → WF w →
  wp (nack_dispose p msg b) (λ _, dispose_post p q msg b w) (λ _, False) w.
Proof.
  intros Hq HWF. unfold nack_dispose, dispose_post; unfold_prims. wp_run. destruct b; [by wp_run|].
  destruct (decide (q_dlx q = "")) as [E|E].
  - rewrite decide_False by (intros Hd; by apply Hd). by wp_run.
  - rewrite decide_True by done. wp_run. fold (dead_key q msg).
    set (w1 := with_metrics _ (with_metrics _ w)).
    change w1 with (logged (DeadLettered (q_name q)) (logged (Nacked (q_name q) "false") w)).
    destruct (Publish_returns (q_dlx q) (dead_key q msg) (m_Body msg)
      (logged (DeadLettered (q_name q)) (logged (Nacked (q_name q) "false") w))) as (r & w2 & Ep).
    { do 2 (eapply WF_same_dispatch; [apply skel_logged|done|]). done. }
    eapply wp_Done; [exact Ep|]. wp_run. by exists r, w2.
Qed.

(** [HandleNack]: one consumer of the channel that has the message pending gives
    it up, and the message is disposed of; otherwise nothing happens. *)
Lemma wp_HandleNack chp env t rq w ch :
  Inv w → w_channel w !! chp = Some ch → Unmarshal (env_Payload env) = (mkNack t rq, None) →
  wp (HandleNack chp env) (λ _ w',
    (∃ tag c co q msg, ch_consumers ch !! tag = Some c ∧ w_consumer w !! c = Some co ∧
       c_pendingMessages co !! t = Some msg ∧ w_queue w !! c_queue co = Some q ∧
       dispose_post (c_queue co) q msg (default true rq) (upd_consumer c (released t co) (ticked w)) w') ∨
    (w' = ticked w ∧ ∀ tag c co, ch_consumers ch !! tag = Some c → w_consumer w !! c = Some co →
       c_pendingMessages co !! t = None)) (λ _, False) w.
Proof.
  intros Hinv Hch Hu. pose proof (inv_wf _ _ Hinv) as HWF. unfold HandleNack. rewrite Hu; unfold_prims. wp_run.
  apply wp_range. intros cs Hcs. wp_step.
  eapply wp_mono; [| |apply (wp_scan
    (λ x (_ : unit) w', ∃ co q msg, w_consumer w !! x.2 = Some co ∧ c_pendingMessages co !! t = Some msg ∧
       w_queue w !! c_queue co = Some q ∧
       dispose_post (c_queue co) q msg (default true rq) (upd_consumer x.2 (released t co) (ticked w)) w')
    (λ x, ∀ co, w_consumer w !! x.2 = Some co → c_pendingMessages co !! t = None))].
  2: exact (λ _, id).
  - intros [[]|] w'.
    + intros ([tag c] & Hc & co & q & msg & ?). wp_run. left. exists tag, c, co, q, msg.
      rewrite Hcs, elem_of_map_to_list in Hc. done.
    + intros [-> Hm]. wp_run. right. split; [done|]. intros tag c co Hc. apply (Hm (tag, c)).
      by rewrite Hcs, elem_of_map_to_list.
  - intros [tag c] Hc. rewrite Hcs, elem_of_map_to_list in Hc.
    destruct (wf_channel_consumer w HWF _ _ _ _ Hch Hc) as (co & Hco & _).
    destruct (wf_consumer w HWF _ _ Hco) as [[q Hq] _].
    wp_step. unfold nack_take; unfold_prims. wp_step. eapply wp_deref; [exact Hco|]. simpl.
    destruct (c_pendingMessages co !! t) as [msg|] eqn:Hp; wp_run.
    2: { split; [done|]. intros co' ?. by simplify_eq. }
    eapply wp_deref; [simpl; by rewrite lookup_insert_eq|]. wp_step. simpl.
    eapply wp_mono; [| |apply (wp_nack_dispose _ q _ _ (upd_consumer c (released t co) (ticked w)))];
      [|done|exact Hq|].
    { intros [] w' Hd. wp_run. by exists co, q, msg. }
    eapply WF_same_dispatch; [by eapply (skel_upd_consumer c co)|done|].
    by eapply inv_wf, (inv_ticked (λ _, 0)).
Qed.
End settle.

(** ** Disconnecting *)

(** Consumer [c] is registered nowhere. *)
Definition gone (w : World) (c : loc) : Prop := ∀ p q, w_queue w !! p = Some q → c ∉ q_consumers q.

(** No queue gains a consumer. *)
Definition shrinks (w w' : World) : Prop := ∀ p q', w_queue w' !! p = Some q' →
  ∃ q, w_queue w !! p = Some q ∧ q_consumers q' ⊆ q_consumers q.

#[export] Instance shrinks_preorder : PreOrder shrinks.
Proof.
  split; [intros w p q Hq; by eauto|]. intros w1 w2 w3 H1 H2 p q3 H3.
  destruct (H2 _ _ H3) as (q2 & Hq2 & ?), (H1 _ _ Hq2) as (q1 & Hq1 & ?). exists q1. split; [done|set_solver].
Qed.

Lemma gone_shrinks w w' c : shrinks w w' → gone w c → gone w' c.
Proof. intros Hs Hg p q' Hq'. destruct (Hs _ _ Hq') as (q & Hq & Hsub). specialize (Hg _ _ Hq). set_solver. Qed.

(** The messages the consumers [cs] hold. *)
Definition pending_of (w : World) (cs : list loc) : list Message :=
  concat ((λ c, from_option pending_msgs [] (w_consumer w !! c)) <$> cs).

(** The consumers of [cs] registered with a queue. *)
Definition leaving (q : Queue) (cs : list loc) : list loc := elements (q_consumers q ∩ list_to_set cs).

(** What a clean-up that has dealt with the consumers of [cs] has done. *)
Record cleaned (cs : list loc) (w w' : World) : Prop := {
  cl_inv : Inv w';
  cl_frame : reg_frame w w';
  cl_shrinks : shrinks w w';
  cl_contents : ∀ p, contents w' p ≡ₚ contents w p;
  cl_gone : ∀ c, c ∈ cs → gone w' c;
  cl_returned : ∀ p q, w_queue w !! p = Some q → ∃ q' back, w_queue w' !! p = Some q' ∧
    q_consumers q' = q_consumers q ∖ list_to_set cs ∧
    q_messages q' = back ++ q_messages q ∧ back ≡ₚ pending_of w (leaving q cs);
  cl_emptied : ∀ p q c, w_queue w !! p = Some q → c ∈ q_consumers q → c ∈ cs →
    c_pendingMessages <$> w_consumer w' !! c = Some ∅;
  cl_others : ∀ c, c ∉ cs ∨ gone w c → w_consumer w' !! c = w_consumer w !! c;
}.

Lemma leaving_nil q : leaving q [] = [].
Proof. unfold leaving. simpl. by rewrite intersection_empty_r_L, elements_empty. Qed.

(** First those of [cs] leave, then those of [cs']. *)
Lemma leaving_app q q' cs cs' :
  q_consumers q' = q_consumers q ∖ list_to_set cs →
  leaving q (cs ++ cs') ≡ₚ leaving q' cs' ++ leaving q cs.
Proof.
  intros E. unfold leaving. rewrite E, list_to_set_app_L, <-elements_disj_union by set_solver.
  f_equiv. intros c. destruct (decide (c ∈@{gset loc} list_to_set cs)); set_solver.
Qed.

Lemma pending_of_app w cs cs' : pending_of w (cs ++ cs') = pending_of w cs ++ pending_of w cs'.
Proof. unfold pending_of. by rewrite fmap_app, concat_app. Qed.

Lemma pending_of_same w w' cs :
  (∀ c, c ∈ cs → w_consumer w' !! c = w_consumer w !! c) → pending_of w' cs = pending_of w cs.
Proof.
  intros E. unfold pending_of. f_equal. apply list_fmap_ext. intros i c Hi. rewrite E; [done|].
  by eapply list_elem_of_lookup_2.
Qed.

Lemma pending_of_perm w cs cs' : cs ≡ₚ cs' → pending_of w cs ≡ₚ pending_of w cs'.
Proof. intros E. unfold pending_of. by apply concat_fmap_perm. Qed.

(** A clean-up of nobody that leaves queues and consumers alone. *)
Lemma cleaned_none w w' :
  Inv w' → reg_frame w w' → w_queue w' = w_queue w → w_consumer w' = w_consumer w → cleaned [] w w'.
Proof.
  intros Hinv Hf Eq Ec. split; [done|done|..].
  - intros p q. rewrite Eq. eauto.
  - intros p. unfold contents. by rewrite Eq, Ec.
  - intros c Hc. by apply elem_of_nil in Hc.
  - intros p q Hq. exists q, []. rewrite Eq, leaving_nil. simpl. split_and!; [done|set_solver|done..].
  - intros p q c _ _ Hc. by apply elem_of_nil in Hc.
  - intros c _. by rewrite Ec.
Qed.

Lemma cleaned_trans cs cs' w w1 w2 : cleaned cs w w1 → cleaned cs' w1 w2 → cleaned (cs ++ cs') w w2.
Proof.
  intros [_ F1 S1 C1 G1 R1 E1 O1] [I2 F2 S2 C2 G2 R2 E2 O2].
  split; [done|by etrans|by etrans|intros p; by rewrite C2, C1|..].
  - intros c [Hc|Hc]%elem_of_app; [|by apply G2]. eapply gone_shrinks; [exact S2|by apply G1].
  - intros p q Hq. destruct (R1 p q Hq) as (q1 & b1 & Hq1 & Ec1 & Em1 & Hb1).
    destruct (R2 p q1 Hq1) as (q2 & b2 & Hq2 & Ec2 & Em2 & Hb2). exists q2, (b2 ++ b1).
    split_and!; [done| |by rewrite Em2, Em1, app_assoc|].
    + rewrite Ec2, Ec1, list_to_set_app_L. set_solver.
    + rewrite (pending_of_perm _ _ _ (leaving_app q q1 cs cs' Ec1)), pending_of_app, Hb1, Hb2. f_equiv.
      rewrite (pending_of_same w w1); [done|]. intros c. unfold leaving. rewrite Ec1. intros Hc.
      apply O1. left. set_solver.
  - intros p q c Hq Hc Hin. destruct (decide (c ∈ cs)) as [Hcs|Hcs].
    + rewrite O2 by (right; by apply G1). by eapply E1.
    + destruct (R1 p q Hq) as (q1 & b1 & Hq1 & Ec1 & _). apply (E2 p q1); [done|rewrite Ec1; set_solver|set_solver].
  - intros c Hc. rewrite O2, O1; [done|set_solver|].
    destruct Hc as [?|Hc]; [set_solver|right]. by eapply gone_shrinks.
Qed.

Lemma cleaned_same cs cs' w w' : (∀ c, c ∈ cs ↔ c ∈ cs') → cleaned cs w w' → cleaned cs' w w'.
Proof.
  intros E []. assert (list_to_set cs' =@{gset loc} list_to_set cs) as Es by set_solver.
  split; [done..| | | |].
  - intros c Hc. apply cl_gone0. by apply E.
  - unfold leaving in *. by rewrite Es.
  - intros p q c Hq Hc Hin. eapply cl_emptied0; [done..|]. by apply E.
  - intros c Hc. apply cl_others0. by rewrite E.
Qed.

Lemma cleaned_ticked w : Inv w → cleaned [] w (ticked w).
Proof. intros Hinv. apply cleaned_none; [by apply inv_ticked|by split|done..]. Qed.

Section disconnect.
Context `{Oracle}.

Lemma contents_unregister w q co c msgs tgs p :
  w_queue w !! c_queue co = Some q → w_consumer w !! c = Some co → msgs ≡ₚ pending_msgs co →
  contents (upd_consumer c (set_inflight (c_inflight co - Z.of_nat (length msgs)) tgs ∅ co)
    (upd_queue (c_queue co) (set_messages (msgs ++ q_messages q) (set_consumers (q_consumers q ∖ {[c]}) q))
      (ticked w))) p ≡ₚ contents w p.
Proof.
  intros Hq Hco Hm. unfold contents; simpl. rewrite lookup_insert. case_decide as Hp; [subst p|].
  - rewrite Hq. simpl. rewrite (held_update _ _ c co), (held_delete _ (w_consumer w) c co) by done.
    unfold held_on. simpl. rewrite !decide_True by done. unfold pending_msgs at 1. simpl.
    rewrite map_to_list_empty. simpl. rewrite Hm, !app_assoc. f_equiv. apply Permutation_app_comm.
  - destruct (w_queue w !! p); [|done]. by rewrite (held_other p _ c co) by done.
Qed.

(** The clean-up of a consumer that is registered nowhere. *)
Lemma cleaned_absent w c : Inv w → gone w c → cleaned [c] w w.
Proof.
  intros Hinv Hg. destruct (cleaned_none w w Hinv ltac:(by split) eq_refl eq_refl).
  split; [done..| | | |done].
  - intros c' ->%list_elem_of_singleton. done.
  - intros p q Hq. exists q, []. pose proof (Hg p q Hq). split_and!; [done|set_solver|done|].
    unfold leaving. replace (q_consumers q ∩ list_to_set [c]) with (∅ : gset loc) by set_solver. done.
  - intros p q c' Hq Hc ->%list_elem_of_singleton. by destruct (Hg p q Hq).
Qed.

Lemma cleaned_unregister w c co :
  Inv w → w_consumer w !! c = Some co →
  wp (unregisterConsumer (c_queue co) c) (λ _, cleaned [c] w) (λ _, False) w.
Proof.
  intros Hinv Hco. pose proof (inv_wf _ _ Hinv) as HWF.
  destruct (wf_consumer w HWF _ _ Hco) as [[q Hq] _].
  eapply wp_mono; [| |apply (wp_conj _ _ _ _ _ w (wp_unregisterConsumer (c_queue co) c w q co Hq Hco)
    (pres_unregisterConsumer (λ _, 0) w _ c q co Hq Hco Hinv))]; [|by intros w' []].
  intros [] w' [Hpost [Hinv' Hrf]].
  assert (∀ p q', w_queue w !! p = Some q' → c ∈ q_consumers q' → p = c_queue co) as Hown.
  { intros p q' Hp Hc. destruct (wf_queue_consumer w HWF _ _ _ Hp Hc) as (co' & ? & ?). by simplify_eq. }
  case_decide as Hc.
  2: { subst w'. apply cleaned_absent; [done..|]. intros p q' Hp Hc'.
       rewrite (Hown _ _ Hp Hc') in Hp. by simplify_eq. }
  destruct Hpost as (msgs & tgs & Hm & _ & ->). split; [done|done|..].
  - intros p q'. simpl. rewrite lookup_insert_Some. intros [[<- <-]|[? ?]]; [|by eauto].
    exists q. split; [done|]. simpl. set_solver.
  - intros p. by apply contents_unregister.
  - intros c' ->%list_elem_of_singleton p q'. simpl. rewrite lookup_insert_Some.
    intros [[<- <-]|[Hne Hp]]; simpl; [set_solver|]. intros Hc'. apply Hne. symmetry. by eapply Hown.
  - intros p q' Hp. simpl. rewrite lookup_insert. case_decide as E; [subst p|].
    + simplify_eq. eexists _, msgs. split_and!; [done|simpl; set_solver|done|]. unfold leaving, pending_of.
      replace (q_consumers q ∩ list_to_set [c]) with ({[c]} : gset loc) by set_solver.
      rewrite elements_singleton. simpl. by rewrite Hco, app_nil_r.
    + exists q', []. split_and!; [done| |done|].
      * apply leibniz_equiv. intros c'. simpl. split; [|set_solver]. intros Hc'.
        assert (c' ≠ c) by (intros ->; apply E; symmetry; by eapply Hown). set_solver.
      * unfold leaving. replace (q_consumers q' ∩ list_to_set [c]) with (∅ : gset loc); [done|].
        apply leibniz_equiv. intros c'. simpl. split; [set_solver|]. intros [Hc' ?%elem_of_union]%elem_of_intersection.
        exfalso. apply E. symmetry. eapply (Hown p q'); [done|]. set_solver.
  - intros p q' c' _ _ ->%list_elem_of_singleton. simpl. by rewrite lookup_insert_eq.
  - intros c' Hc'. simpl. apply lookup_insert_ne. intros <-.
    destruct Hc' as [?|Hg]; [set_solver|]. by apply (Hg _ _ Hq).
Qed.

(** The consumers of a channel. *)
Definition channel_consumers (ch : Channel) : list loc := (map_to_list (ch_consumers ch)).*2.

Lemma cleaned_cleanup w chp ch :
  Inv w → w_channel w !! chp = Some ch → wp (cleanup chp) (λ _, cleaned (channel_consumers ch) w) (λ _, False) w.
Proof.
  intros Hinv Hch. unfold cleanup; unfold_prims. wp_run. apply wp_range. intros cs Hcs.
  eapply wp_mono; [| |apply (wp_forM_ind (λ pre, cleaned pre.*2 w) _ (λ _, False) [])]; [|done| |by apply cleaned_ticked].
  { intros [] w'. apply cleaned_same. unfold channel_consumers. simpl. intros c. by rewrite Hcs. }
  intros pre [tag c] w' Hc Hcl. rewrite Hcs, elem_of_map_to_list in Hc.
  destruct (wf_channel_consumer w (inv_wf _ _ Hinv) _ _ _ _ Hch Hc) as (co & Hco & _).
  skel_lookup Hco (eq_sym (rf_consumer _ _ (cl_frame _ _ _ Hcl))).
  wp_step. eapply wp_deref; [exact Hb|].
  eapply wp_mono; [| |apply cleaned_unregister; [apply Hcl|exact Hb]]; [|done].
  intros [] w2 Hcl2. rewrite fmap_app. by eapply cleaned_trans.
Qed.

(** The consumers of all channels of a connection. *)
Definition conn_consumers (w : World) (cn : Connection) : list loc :=
  concat ((λ x, from_option channel_consumers [] (w_channel w !! x.2)) <$> map_to_list (cn_channels cn)).

Lemma cleaned_conn_cleanup w p cn :
  Inv w → w_conn w !! p = Some cn → wp (conn_cleanup p) (λ _, cleaned (conn_consumers w cn) w) (λ _, False) w.
Proof.
  intros Hinv Hcn. unfold conn_cleanup; unfold_prims. wp_run. apply wp_range. intros chs Hchs.
  set (g := λ x : Z * loc, from_option channel_consumers [] (w_channel w !! x.2)).
  eapply wp_mono; [| |apply (wp_forM_ind (λ pre, cleaned (concat (g <$> pre)) w) _ (λ _, False) [])];
    [|done| |by apply cleaned_ticked].
  { intros [] w'. apply cleaned_same. unfold conn_consumers. simpl. intros c.
    by rewrite (concat_fmap_perm g _ _ Hchs). }
  intros pre [id chp] w' Hc Hcl. rewrite Hchs, elem_of_map_to_list in Hc.
  destruct (wf_conn_channel w (inv_wf _ _ Hinv) _ _ _ _ Hcn Hc) as (ch & Hch & _).
  eapply wp_mono; [| |apply (cleaned_cleanup w' chp ch); [apply Hcl|]]; [|done|].
  - intros [] w2 Hcl2. rewrite fmap_app, concat_app. simpl. unfold g at 2. simpl. rewrite Hch. simpl.
    rewrite app_nil_r. by eapply cleaned_trans.
  - by rewrite (rf_channel _ _ (cl_frame _ _ _ Hcl)).
Qed.
End disconnect.

(** ** Draining a queue to one consumer *)

(** [k] iterations of the dispatch loop. *)
Fixpoint dispatch_iterations `{Oracle} (k : nat) (p : loc) : M unit :=
  match k with
  | O => mret tt
  | S k' => dispatch_iteration p;; dispatch_iterations k' p
  end.

(** The line written for a message. *)
Definition deliver_line (co : Consumer) (ch : Channel) (msg : Message) : json :=
  Marshal (mkEnvelope (ch_id ch) 0 BasicDeliverType (Some (Marshal
    (mkDeliver (m_DeliveryTag msg) (m_Body msg) (m_Exchange msg) (m_RoutingKey msg) (c_tag co))))).

(** A queue with one consumer on an open connection. *)
Record single_consumer (w : World) (p c : loc) (q : Queue) (co : Consumer) (ch : Channel) (cn : Connection) : Prop := {
  sc_queue : w_queue w !! p = Some q;
  sc_registered : q_consumers q = {[c]};
  sc_consumer : w_consumer w !! c = Some co;
  sc_channel : w_channel w !! c_channel co = Some ch;
  sc_conn : w_conn w !! ch_conn ch = Some cn;
  sc_open : cn_closed cn = false;
  sc_working : cn_broken cn = None;
}.

Section drain.
Context `{Oracle}.

Lemma wp_dispatch_iteration w p c q co ch cn msg rest :
  single_consumer w p c q co ch cn → q_messages q = msg :: rest → c_inflight co < c_prefetch co →
  wp (dispatch_iteration p) (λ _ w',
    single_consumer w' p c (set_messages rest q) (took msg co) ch (set_out (cn_out cn ++ [deliver_line co ch msg]) cn) ∧
    w_dispatch w' !! p = Some DRunning ∧ w_metrics w' = w_metrics w ++ [Delivered (q_name q)]) (λ _, False) w.
Proof.
  intros [Hq Hr Hco Hch Hcn Hcl Hbr] Hm Hlt. unfold dispatch_iteration. wp_step.
  eapply wp_mono; [| |apply (wp_dispatch_take p w q Hq)]; [|done|].
  2: { intros c'. rewrite Hr. intros ->%elem_of_singleton. by eauto. }
  intros [] w'. unfold take_post. rewrite Hm. intros [[_ Hfull]|(c' & co' & Hc' & Hco' & _ & ->)].
  { specialize (Hfull c co). rewrite Hr in Hfull. specialize (Hfull ltac:(set_solver) Hco). lia. }
  rewrite Hr in Hc'. apply elem_of_singleton in Hc' as ->. simplify_eq.
  wp_step. eapply wp_deref; [simpl; by rewrite lookup_insert_eq|].
  unfold dispatch_write; unfold_prims. wp_step.
  set (w1 := upd_dispatch _ _ _).
  wp_step. eapply wp_deref; [simpl; by rewrite lookup_insert_eq|].
  wp_step. eapply wp_deref; [simpl; by rewrite lookup_insert_eq|].
  wp_step. eapply wp_deref; [exact Hch|]. wp_step. unfold WriteEnvelope.
  eapply wp_mono; [| |apply (wp_send _ _ w1 cn); exact Hcn].
  2: { intros w' [[Hc _] _]. congruence. }
  intros r w2 [Hs Hio]. unfold send_post, pump_post in Hs. rewrite Hcl, Hbr in Hs.
  destruct Hs as [[? _]|[_ [-> Hconn]]]; [done|]. wp_run.
  eapply wp_deref; [simpl; by rewrite lookup_insert_eq|]. wp_run.
  split; [split|split]; simpl.
  - rewrite (io_queue _ _ Hio). simpl. by rewrite lookup_insert_eq.
  - done.
  - rewrite (io_consumer _ _ Hio). simpl. by rewrite lookup_insert_eq.
  - by rewrite (io_channel _ _ Hio).
  - rewrite Hconn. by rewrite lookup_insert_eq.
  - done.
  - done.
  - by rewrite lookup_insert_eq.
  - rewrite (io_metrics _ _ Hio). done.
Qed.

Lemma wp_dispatch_iterations k w p c q co ch cn :
  single_consumer w p c q co ch cn → (k ≤ length (q_messages q))%nat →
  c_inflight co + Z.of_nat k ≤ c_prefetch co →
  wp (dispatch_iterations k p) (λ _ w', ∃ co',
    single_consumer w' p c (set_messages (drop k (q_messages q)) q) co' ch
      (set_out (cn_out cn ++ (deliver_line co ch <$> take k (q_messages q))) cn) ∧
    c_inflight co' = c_inflight co + Z.of_nat k ∧
    w_metrics w' = w_metrics w ++ replicate k (Delivered (q_name q))) (λ _, False) w.
Proof.
  revert w q co cn. induction k as [|k IH]; intros w q co cn Hsc Hk Hp; cbn [dispatch_iterations].
  - wp_run. exists co. rewrite take_0, drop_0. cbn [fmap list_fmap replicate]. rewrite !app_nil_r, set_messages_id.
    split_and!; [by destruct cn|lia|done].
  - destruct (q_messages q) as [|msg rest] eqn:Hm; simpl in Hk; [lia|]. wp_step.
    eapply wp_mono; [| |eapply wp_dispatch_iteration; [exact Hsc|done|lia]]; [|done].
    intros [] w1 (Hsc1 & _ & Hl1).
    eapply wp_mono; [| |apply (IH w1 _ _ _ Hsc1)]; [|done|simpl; lia|simpl; lia].
    intros [] w2 (co' & Hsc2 & Hin & Hl2). exists co'. simpl in *. split_and!.
    + by rewrite <-app_assoc in Hsc2.
    + lia.
    + by rewrite Hl2, Hl1, <-app_assoc.
Qed.
End drain.

(** ** Claims *)

(** The tag a consumer gets: the one asked for, or a default that counts the
    consumers of the channel. *)
Definition resolved_tag (tag : string) (ch : Channel) : string :=
  if decide (tag = "") then
    "ch." +:+ pretty (ch_id ch) +:+ ".consumer." +:+ pretty (Z.of_nat (size (ch_consumers ch)) + 1)
  else tag.

Section claims.
Context `{Oracle}.

(** C3: A dispatch goroutine neither loses nor duplicates a message: as long as
    the messages of its queue have distinct delivery tags and the message it is
    writing is still pending in its consumer, its next section (taking a message,
    writing it, or putting it back after a failed write) leaves the contents of
    every queue the same up to order, and keeps that ownership; a section that
    blocks leaves them the same too. *)
Theorem dispatch_conserves w p q :
  Inv w → w_queue w !! p = Some q → NoDup (tags (contents w p)) → owned w p →
  match dispatch_section p w with
  | Done _ w' => (∀ p', contents w' p' ≡ₚ contents w p') ∧ owned w' p
  | Blocked w' => ∀ p', contents w' p' = contents w p'
  | Panicked => False
  end.
Proof. apply wp_dispatch_conserves. Qed.

(** C8: Delivery is in order: with one consumer on an open connection and room
    for [k] more messages, [k] iterations of the dispatch loop write the first [k]
    messages of the queue to the connection, in order and nothing else, leave the
    rest in the queue, add [k] to the consumer's in-flight count and count [k]
    deliveries. *)
Theorem dispatch_is_fifo k w p c q co ch cn :
  single_consumer w p c q co ch cn → (k ≤ length (q_messages q))%nat →
  c_inflight co + Z.of_nat k ≤ c_prefetch co →
  ∃ w' co' cn', dispatch_iterations k p w = Done tt w' ∧
    w_queue w' !! p = Some (set_messages (drop k (q_messages q)) q) ∧
    w_consumer w' !! c = Some co' ∧ c_inflight co' = c_inflight co + Z.of_nat k ∧
    w_conn w' !! ch_conn ch = Some cn' ∧
    cn_out cn' = cn_out cn ++ (deliver_line co ch <$> take k (q_messages q)) ∧
    w_metrics w' = w_metrics w ++ replicate k (Delivered (q_name q)).
Proof.
  intros Hsc Hk Hp. destruct (wp_returns _ _ _ (wp_dispatch_iterations k w p c q co ch cn Hsc Hk Hp))
    as ([] & w' & E & co' & [] & Hin & Hl). eexists w', co', _. by split_and!.
Qed.

(** The first section of the dispatch loop, completely: on an empty queue it
    waits for messages; if every registered consumer is at its prefetch it waits
    for a consumer and takes nothing; otherwise it moves the oldest message to a
    registered consumer that is below its prefetch, recording it in flight and
    pending there, and will write it next. *)
Theorem dispatch_take_spec w p q :
  Inv w → w_queue w !! p = Some q →
  ∃ w', dispatch_take p w = Done tt w' ∧
    match q_messages q with
    | [] => w' = upd_dispatch p DWaitMessages w
    | msg :: rest =>
        (w' = upd_dispatch p DWaitConsumer (ticked w) ∧
           ∀ c co, c ∈ q_consumers q → w_consumer w !! c = Some co → c_prefetch co ≤ c_inflight co) ∨
        ∃ c co, c ∈ q_consumers q ∧ w_consumer w !! c = Some co ∧ c_inflight co < c_prefetch co ∧
          w' = upd_dispatch p (DWriting c msg) (upd_consumer c
                 (set_inflight (c_inflight co + 1) (c_inflightTags co ∪ {[m_DeliveryTag msg]})
                    (<[m_DeliveryTag msg := msg]> (c_pendingMessages co)) co)
                 (upd_queue p (set_messages rest q) (ticked w)))
    end.
Proof.
  intros Hinv Hq. destruct (wp_returns _ _ _ (wp_dispatch_take p w q Hq (consumers_valid _ w p q Hinv Hq)))
    as ([] & w' & E & Hpost). by exists w'.
Qed.

(** C12: [Broker.Ack] settles exactly one message: if a registered consumer of the
    queue has the tag in flight it succeeds, one such consumer gives up that tag
    and its message (so the queue's contents lose exactly that message), the
    dispatcher is woken and one ack is counted; otherwise it returns the
    not-found error and changes nothing. *)
Theorem ack_settles_one name t w p q :
  Inv w → b_queues (w_broker w) !! name = Some p → w_queue w !! p = Some q →
  ∃ r w', Broker.Ack name t w = Done r w' ∧
    match r with
    | None => ∃ c co msg, c ∈ q_consumers q ∧ w_consumer w !! c = Some co ∧
        c_pendingMessages co !! t = Some msg ∧ contents w p ≡ₚ msg :: contents w' p ∧
        w' = logged (Acked name) (signalled p (upd_consumer c
               (set_inflight (c_inflight co - 1) (c_inflightTags co ∖ {[t]}) (delete t (c_pendingMessages co)) co)
               (ticked w)))
    | Some e => e = "delivery tag " +:+ pretty t +:+ " not found in any consumer on queue " +:+ quote name ∧
        w' = ticked w ∧ ∀ c co, c ∈ q_consumers q → w_consumer w !! c = Some co → t ∉ c_inflightTags co
    end.
Proof.
  intros Hinv Hp Hq. destruct (wp_returns _ _ _ (wp_Ack name t w p q Hinv Hp Hq)) as (r & w' & E & Hpost).
  exists r, w'. split; [done|]. destruct r as [e|]; [done|].
  destruct Hpost as (c & co & Hc & Hco & Ht & ->).
  pose proof (inv_consumer _ _ Hinv _ _ Hco) as Hok. rewrite (co_tags _ Hok) in Ht.
  apply elem_of_dom in Ht as [msg Hmsg]. exists c, co, msg. split_and!; [done..| |done].
  destruct (wf_queue_consumer w (inv_wf _ _ Hinv) _ _ _ Hq Hc) as (co' & ? & Hcq). simplify_eq.
  unfold contents. simpl. rewrite Hq. rewrite (held_released _ (w_consumer w) c co t msg) by done.
  by rewrite <-Permutation_middle.
Qed.

(** A basic.ack on a channel: if some consumer of the channel has the tag in
    flight, [Broker.Ack] is run on the queue of one such consumer; if none has,
    the ack is ignored, without a reply and without any change. *)
Theorem handle_ack_spec chp env t w ch :
  Inv w → w_channel w !! chp = Some ch → is_u16 t → env_Payload env = Some (Marshal (mkAck t)) →
  ∃ w', HandleAck chp env w = Done tt w' ∧
    ((∃ tag c co q r, ch_consumers ch !! tag = Some c ∧ w_consumer w !! c = Some co ∧ t ∈ c_inflightTags co ∧
        w_queue w !! c_queue co = Some q ∧ ack_post (q_name q) (c_queue co) q t (ticked w) r w') ∨
     (w' = ticked w ∧ ∀ tag c co, ch_consumers ch !! tag = Some c → w_consumer w !! c = Some co →
        t ∉ c_inflightTags co)).
Proof.
  intros Hinv Hch Ht Hp.
  assert (Unmarshal (env_Payload env) = (mkAck t, None)) as Hu by (rewrite Hp; by apply codec_roundtrip).
  destruct (wp_returns _ _ _ (wp_HandleAck chp env t w ch Hinv Hch Hu)) as ([] & w' & E & Hpost). by exists w'.
Qed.

(** C13: A basic.nack on a channel: if some consumer of the channel has the
    message pending, one such consumer gives it up and the message is disposed of
    (requeue, the default: back to the front of its queue; otherwise with a
    dead-letter exchange: published there under the configured or its own routing
    key; otherwise dropped), with the matching counters and the dispatcher woken;
    if none has, nothing happens. *)
Theorem handle_nack_spec chp env t rq w ch :
  Inv w → w_channel w !! chp = Some ch → is_u16 t → env_Payload env = Some (Marshal (mkNack t rq)) →
  ∃ w', HandleNack chp env w = Done tt w' ∧
    ((∃ tag c co q msg, ch_consumers ch !! tag = Some c ∧ w_consumer w !! c = Some co ∧
        c_pendingMessages co !! t = Some msg ∧ w_queue w !! c_queue co = Some q ∧
        let w1 := upd_consumer c (released t co) (ticked w) in
        if default true rq then
          w' = signalled (c_queue co) (upd_queue (c_queue co) (set_messages (msg :: q_messages q) q)
                 (logged (Nacked (q_name q) "true") w1))
        else if decide (q_dlx q = "") then
          w' = signalled (c_queue co) (logged (Dropped (q_name q)) (logged (Nacked (q_name q) "false") w1))
        else ∃ r w2,
          Broker.Publish (q_dlx q) (if decide (q_dlxRoutingKey q = "") then m_RoutingKey msg else q_dlxRoutingKey q)
            (m_Body msg) (logged (DeadLettered (q_name q)) (logged (Nacked (q_name q) "false") w1)) = Done r w2 ∧
          w' = signalled (c_queue co) w2) ∨
     (w' = ticked w ∧ ∀ tag c co, ch_consumers ch !! tag = Some c → w_consumer w !! c = Some co →
        c_pendingMessages co !! t = None)).
Proof.
  intros Hinv Hch Ht Hp.
  assert (Unmarshal (env_Payload env) = (mkNack t rq, None)) as Hu by (rewrite Hp; by apply codec_roundtrip).
  destruct (wp_returns _ _ _ (wp_HandleNack chp env t rq w ch Hinv Hch Hu)) as ([] & w' & E & Hpost). by exists w'.
Qed.

(** C9: A disconnect returns everything to the queues.  When the clean-up of a
    connection has run, every queue has lost exactly the consumers of the channels in the
    connection's table, and the messages those consumers held stand in its buffer, in
    front of what was there; the consumers that were registered hold nothing any more, no
    other consumer has changed, and no message has been lost or invented anywhere. *)
Theorem disconnect_returns_messages w p cn :
  Inv w → w_conn w !! p = Some cn →
  ∃ w', conn_cleanup p w = Done tt w' ∧ Inv w' ∧
    (∀ qp q, w_queue w !! qp = Some q → ∃ q' back, w_queue w' !! qp = Some q' ∧
       q_consumers q' = q_consumers q ∖ list_to_set (conn_consumers w cn) ∧
       q_messages q' = back ++ q_messages q ∧
       back ≡ₚ pending_of w (elements (q_consumers q ∩ list_to_set (conn_consumers w cn)))) ∧
    (∀ qp q c, w_queue w !! qp = Some q → c ∈ q_consumers q → c ∈ conn_consumers w cn →
       c_pendingMessages <$> w_consumer w' !! c = Some ∅) ∧
    (∀ c, c ∉ conn_consumers w cn → w_consumer w' !! c = w_consumer w !! c) ∧
    ∀ qp, contents w' qp ≡ₚ contents w qp.
Proof.
  intros Hinv Hcn. destruct (wp_returns _ _ _ (cleaned_conn_cleanup w p cn Hinv Hcn)) as ([] & w' & E & []).
  exists w'. split_and!; [done..|by auto|done].
Qed.

(** Registering a consumer, on every branch: an undeclared queue and a tag
    already in use on the channel are refused without any change; otherwise a new
    idle consumer with prefetch 10 is added to the queue and to the channel under
    the resolved tag, the dispatcher is woken and the registration is counted. *)
Theorem register_consumer_spec tag queue chp w ch :
  w_channel w !! chp = Some ch → WF w →
  match b_queues (w_broker w) !! queue with
  | None => RegisterConsumer tag queue chp w = Done (inl "queue not found") w
  | Some p =>
      ∃ q, w_queue w !! p = Some q ∧
      let t := resolved_tag tag ch in
      match ch_consumers ch !! t with
      | Some _ => RegisterConsumer tag queue chp w =
          Done (inl ("consumer tag " +:+ quote t +:+ " already in use on channel " +:+ pretty (ch_id ch))) w
      | None => ∃ c, w_consumer w !! c = None ∧
          RegisterConsumer tag queue chp w = Done (inr t) (logged (ConsumersRegistered queue)
            (with_channel (<[chp := mkChannel (ch_id ch) (ch_conn ch) (<[t := c]> (ch_consumers ch))]> (w_channel w))
              (signalled p (upd_queue p (set_consumers (q_consumers q ∪ {[c]}) q)
                (upd_consumer c (mkConsumer t p chp 10 0 ∅ ∅) w)))))
      end
  end.
Proof.
  intros Hch HWF. unfold RegisterConsumer, registerConsumer; unfold_prims. rewrite bind_gets.
  destruct (b_queues (w_broker w) !! queue) as [p|] eqn:Hp; [|done].
  destruct (wf_broker_queue w HWF _ _ Hp) as (q & Hq & _). exists q. split; [done|].
  rewrite (bind_deref _ _ _ ch) by done. cbv zeta. unfold NewConsumer, resolved_tag; cbn [c_tag].
  set (t := if decide (tag = "") then _ else tag).
  destruct (ch_consumers ch !! t) eqn:Ht; [done|]. exists (fresh (dom (w_consumer w))). split.
  { apply not_elem_of_dom, is_fresh. }
  rewrite bind_gets, bind_modify.
  unfold mbind, prog_bind, deref, modify. simpl. by rewrite Hq.
Qed.
End claims.

(** ** The claims at concrete stores *)

Section witnesses.
#[local] Existing Instance oracle_id.

(** Three messages ready and an idle consumer; then all three in flight. *)
Definition ready : World := sys_world (demo_state demo_setup).
Definition delivered : World := sys_world (demo_state demo_delivered).

Lemma ready_Inv : Inv ready.
Proof. apply (reachable_Inv demo_cfg (demo_state demo_setup)), demo_reachable. vm_compute. reflexivity. Qed.

Lemma delivered_Inv : Inv delivered.
Proof. apply (reachable_Inv demo_cfg (demo_state demo_delivered)), demo_reachable. vm_compute. reflexivity. Qed.

Lemma two_u16 : is_u16 2.
Proof. split; vm_compute; [discriminate|reflexivity]. Qed.

(** The consumer's channel in both. *)
Definition demo_channel : loc := 1%nat.

Lemma dispatch_conserves_witness : ∃ w',
  dispatch_section jobs ready = Done tt w' ∧ contents w' jobs ≡ₚ contents ready jobs ∧ owned w' jobs.
Proof.
  destruct (w_queue ready !! jobs) as [q|] eqn:Hq; [|vm_compute in Hq; discriminate Hq].
  assert (NoDup (tags (contents ready jobs))) as Hnd by (apply (bool_decide_unpack _); vm_compute; exact I).
  assert (owned ready jobs) as Ho by (vm_compute; exact I).
  pose proof (dispatch_conserves ready jobs q ready_Inv Hq Hnd Ho) as Hc.
  destruct (dispatch_section jobs ready) as [[] w'| |] eqn:E; [|vm_compute in E; discriminate E..].
  exists w'. split; [reflexivity|]. split; [apply Hc|apply Hc].
Defined.

Lemma dispatch_is_fifo_witness : ∃ q co ch cn w' co' cn',
  single_consumer ready jobs 0%nat q co ch cn ∧ length (q_messages q) = 3%nat ∧
  dispatch_iterations 2 jobs ready = Done tt w' ∧
  w_queue w' !! jobs = Some (set_messages (drop 2 (q_messages q)) q) ∧
  w_consumer w' !! 0%nat = Some co' ∧ c_inflight co' = c_inflight co + 2 ∧
  w_conn w' !! ch_conn ch = Some cn' ∧
  cn_out cn' = cn_out cn ++ (deliver_line co ch <$> take 2 (q_messages q)).
Proof.
  assert (∃ q co ch cn, single_consumer ready jobs 0%nat q co ch cn ∧ length (q_messages q) = 3%nat ∧
    c_inflight co + Z.of_nat 2 ≤ c_prefetch co) as (q & co & ch & cn & Hsc & Hl & Hp).
  { do 4 eexists. split; [split; vm_compute; reflexivity|]. split; [reflexivity|]. simpl. lia. }
  destruct (dispatch_is_fifo 2 ready jobs 0%nat q co ch cn Hsc ltac:(lia) Hp)
    as (w' & co' & cn' & E & Hq & Hc & Hi & Hcn & Ho & _).
  exists q, co, ch, cn, w', co', cn'. by split_and!.
Defined.

Lemma dispatch_take_spec_witness : ∃ q w',
  w_queue ready !! jobs = Some q ∧ dispatch_take jobs ready = Done tt w'.
Proof.
  destruct (w_queue ready !! jobs) as [q|] eqn:Hq; [|vm_compute in Hq; discriminate Hq].
  destruct (dispatch_take_spec ready jobs q ready_Inv Hq) as (w' & E & _). exists q, w'. split; [reflexivity|exact E].
Defined.

Lemma ack_settles_one_witness : ∃ w',
  Broker.Ack "jobs" 2 delivered = Done None w' ∧ ∃ msg, contents delivered jobs ≡ₚ msg :: contents w' jobs.
Proof.
  destruct (w_queue delivered !! jobs) as [q|] eqn:Hq; [|vm_compute in Hq; discriminate Hq].
  destruct (ack_settles_one "jobs" 2 delivered jobs q delivered_Inv ltac:(vm_compute; reflexivity) Hq)
    as (r & w' & E & Hr).
  destruct r as [e|]; [vm_compute in E; discriminate E|].
  destruct Hr as (c & co & msg & _ & _ & _ & Hc & _). exists w'. split; [exact E|]. exists msg. exact Hc.
Defined.

Definition ack_env (t : Z) : Envelope := mkEnvelope 7 1 BasicAckType (Some (Marshal (mkAck t))).
Definition nack_env (t : Z) (rq : option bool) : Envelope :=
  mkEnvelope 7 1 BasicNackType (Some (Marshal (mkNack t rq))).

Lemma handle_ack_spec_witness : ∃ w', HandleAck demo_channel (ack_env 2) delivered = Done tt w'.
Proof.
  destruct (w_channel delivered !! demo_channel) as [ch|] eqn:Hch; [|vm_compute in Hch; discriminate Hch].
  destruct (handle_ack_spec demo_channel (ack_env 2) 2 delivered ch delivered_Inv Hch two_u16 eq_refl)
    as (w' & E & _). exists w'. exact E.
Defined.

Lemma handle_nack_spec_witness : ∃ w', HandleNack demo_channel (nack_env 2 (Some false)) delivered = Done tt w'.
Proof.
  destruct (w_channel delivered !! demo_channel) as [ch|] eqn:Hch; [|vm_compute in Hch; discriminate Hch].
  destruct (handle_nack_spec demo_channel (nack_env 2 (Some false)) 2 (Some false) delivered ch delivered_Inv Hch
    two_u16 eq_refl) as (w' & E & _). exists w'. exact E.
Defined.

Lemma disconnect_returns_messages_witness : ∃ cn q w' q' back,
  w_conn delivered !! 1%nat = Some cn ∧ w_queue delivered !! jobs = Some q ∧
  conn_cleanup 1%nat delivered = Done tt w' ∧ w_queue w' !! jobs = Some q' ∧
  q_messages q' = back ++ q_messages q ∧ length back = 3%nat.
Proof.
  destruct (w_conn delivered !! 1%nat) as [cn|] eqn:Hcn; [|vm_compute in Hcn; discriminate Hcn].
  destruct (w_queue delivered !! jobs) as [q|] eqn:Hq; [|vm_compute in Hq; discriminate Hq].
  destruct (disconnect_returns_messages delivered 1%nat cn delivered_Inv Hcn) as (w' & E & _ & Hr & _).
  destruct (Hr jobs q Hq) as (q' & back & Hq' & _ & Em & Hb). exists cn, q, w', q', back.
  do 5 (split; [assumption || reflexivity|]). apply Permutation_length in Hb. rewrite Hb.
  vm_compute in Hcn, Hq. injection Hcn as <-. injection Hq as <-. vm_compute. reflexivity.
Defined.

Lemma register_consumer_spec_witness : ∃ w',
  RegisterConsumer "" "graveyard" demo_channel ready = Done (inr "ch.7.consumer.2") w'.
Proof.
  assert (∃ ch, w_channel ready !! demo_channel = Some ch ∧ resolved_tag "" ch = "ch.7.consumer.2" ∧
    ch_consumers ch !! "ch.7.consumer.2" = None) as (ch & Hch & Ht & Hn)
    by (eexists; split; [vm_compute; reflexivity|split; vm_compute; reflexivity]).
  pose proof (register_consumer_spec "" "graveyard" demo_channel ready ch Hch (inv_wf _ _ ready_Inv)) as Hr.
  assert (b_queues (w_broker ready) !! "graveyard" = Some graveyard) as Hg by (vm_compute; reflexivity).
  rewrite Hg in Hr. destruct Hr as (q & _ & Hr). cbv zeta in Hr. rewrite Ht, Hn in Hr.
  destruct Hr as (c & _ & E). eexists. exact E.
Defined.
End witnesses.
