(* ===== verification/Session.v ===== *)
(** * Connections: handshake, channels and the wire

    The handshake against a pure reference, opening and closing channels, replies
    on unknown channels, the behaviour of writes by the state of the connection,
    and the round trip of every message over the wire. *)

From S2P Require Import Prelude GoJson Protocol State Transport Queue Exchange Broker Channel Connection Invariant Accounting Frame Server Scenario Routing Delivery.

(** ** The handshake as a function of what the peer sends *)

(** Where a handshake ends: the error if any, the state of the connection, the
    messages written, and what is left to read. *)
Record HandshakeResult := mkHandshakeResult {
  hr_error : option string;
  hr_state : ConnectionState;
  hr_written : list json;
  hr_reader : Reader;
}.

Definition tune_of (cfg : ServerConfig) : ConnectionTune :=
  NewConnectionTune (cfg_ChannelMax cfg) (cfg_FramesMax cfg) (cfg_HeartbeatSec cfg).

(** Four lines are read; the broker answers the first three reads. *)
Definition handshake (cfg : ServerConfig) (r0 : Reader) : HandshakeResult :=
  let '(e0, r1) := ReadProtocolHeader r0 in
  match e0 with
  | Some e => mkHandshakeResult (Some e) StateAwaitProtocolHeader [] r1
  | None =>
      let '((_, e1), r2) := ReadMessage (T := ConnectionStartOK) r1 in
      match e1 with
      | Some e => mkHandshakeResult (Some e) StateAwaitStartOK [Marshal NewConnectionStart] r2
      | None =>
          let '((_, e2), r3) := ReadMessage (T := ConnectionTuneOK) r2 in
          match e2 with
          | Some e => mkHandshakeResult (Some e) StateAwaitTuneOK
                        [Marshal NewConnectionStart; Marshal (tune_of cfg)] r3
          | None =>
              let '((_, e3), r4) := ReadMessage (T := ConnectionOpen) r3 in
              match e3 with
              | Some e => mkHandshakeResult (Some e) StateAwaitOpen
                            [Marshal NewConnectionStart; Marshal (tune_of cfg)] r4
              | None => mkHandshakeResult None StateOpen
                          [Marshal NewConnectionStart; Marshal (tune_of cfg); Marshal NewConnectionOpenOK] r4
              end
          end
      end
  end.

Section handshake.
Context `{Oracle}.

Definition upd_conn (p : loc) (cn : Connection) (w : World) : World := with_conn (<[p := cn]> (w_conn w)) w.

Lemma upd_conn_twice p cn cn' w : upd_conn p cn' (upd_conn p cn w) = upd_conn p cn' w.
Proof. unfold upd_conn, with_conn; simpl. by rewrite insert_insert_eq. Qed.

Lemma upd_conn_lookup p cn w : w_conn (upd_conn p cn w) !! p = Some cn.
Proof. simpl. by rewrite lookup_insert_eq. Qed.

(** The three commands of the handshake, on a connection whose socket works. *)
Lemma read_eq {A} (f : Reader → A * Reader) p cn w :
  conn_read f p (upd_conn p cn w) = Done (f (cn_reader cn)).1 (upd_conn p (set_reader (f (cn_reader cn)).2 cn) w).
Proof. rewrite (conn_read_eq _ _ _ cn (upd_conn_lookup p cn w)). apply (f_equal (Done _)), upd_conn_twice. Qed.

Lemma set_state_eq p st cn w :
  set_conn_state p st (upd_conn p cn w) = Done tt (upd_conn p (set_state st cn) w).
Proof.
  unfold set_conn_state, get_conn. rewrite (bind_deref _ _ _ cn) by apply upd_conn_lookup.
  apply (f_equal (Done _)), upd_conn_twice.
Qed.

Lemma write_eq p v cn w :
  cn_closed cn = false → cn_broken cn = None →
  send p v (upd_conn p cn w) = Done None (upd_conn p (set_out (cn_out cn ++ [v]) cn) w).
Proof.
  intros Hcl Hbr. unfold send, get_conn. rewrite (bind_deref _ _ _ cn) by apply upd_conn_lookup.
  rewrite Hcl. unfold writePump, get_conn. rewrite (bind_deref _ _ _ cn) by apply upd_conn_lookup.
  rewrite Hbr. unfold put_conn. rewrite bind_modify. apply (f_equal (Done _)), upd_conn_twice.
Qed.

(** Runs the next command of a handshake. *)
Ltac hs_step :=
  erewrite bind_Done by first [apply read_eq|apply set_state_eq|by apply write_eq]; cbn beta iota.

Lemma RunHandshake_eq p cn w :
  cn_state cn = StateAwaitProtocolHeader → cn_closed cn = false → cn_broken cn = None →
  RunHandshake p (upd_conn p cn w) =
    let h := handshake (w_config w) (cn_reader cn) in
    Done (hr_error h) (upd_conn p (set_reader (hr_reader h) (set_state (hr_state h)
      (set_out (cn_out cn ++ hr_written h) cn))) w).
Proof.
  intros Hst Hcl Hbr. unfold RunHandshake, handshake, WriteMessage.
  hs_step.
  destruct (ReadProtocolHeader (cn_reader cn)) as [[e|] r1]; cbn [fst snd].
  { simpl. rewrite app_nil_r. do 2 f_equal. destruct cn; simpl in *. by subst. }
  hs_step.
  hs_step.
  hs_step. cbn [cn_reader set_reader set_out set_state].
  destruct (ReadMessage r1) as [[m1 [e|]] r2]; cbn [fst snd]; [done|].
  hs_step. rewrite bind_gets.
  hs_step.
  hs_step. cbn [cn_reader set_reader set_out set_state].
  destruct (ReadMessage r2) as [[m2 [e|]] r3]; cbn [fst snd].
  { simpl. by rewrite <-app_assoc. }
  hs_step.
  hs_step. cbn [cn_reader set_reader set_out set_state].
  destruct (ReadMessage r3) as [[m3 [e|]] r4]; cbn [fst snd].
  { simpl. by rewrite <-app_assoc. }
  hs_step.
  hs_step. simpl. by rewrite <-!app_assoc.
Qed.
End handshake.

(** ** Replies *)

(** A connection on which writes succeed. *)
Definition healthy (cn : Connection) : Prop := cn_closed cn = false ∧ cn_broken cn = None.

Lemma upd_conn_id p cn w : w_conn w !! p = Some cn → upd_conn p cn w = w.
Proof. intros Hp. unfold upd_conn. rewrite insert_id by done. by destruct w. Qed.

(** The line of an envelope. *)
Definition env_json {T} `{JEncode T} (id : Z) (ty : Method) (req : Z) (msg : T) : json :=
  Marshal (mkEnvelope id req ty (Some (Marshal msg))).

Lemma WriteEnvelope_eq `{Oracle} {T} `{JEncode T} p id ty req (msg : T) w cn :
  w_conn w !! p = Some cn → healthy cn →
  WriteEnvelope p id ty req msg w = Done None (upd_conn p (set_out (cn_out cn ++ [env_json id ty req msg]) cn) w).
Proof. intros Hp [Hcl Hbr]. rewrite <-(upd_conn_id p cn w Hp) at 1. by apply write_eq. Qed.

(** ** Claims *)

Section claims.
Context `{Oracle}.

(** C10: The handshake of the broker is the reference handshake: on a new
    connection whose socket works, [RunHandshake] reads, writes, moves through the
    connection states and fails exactly as [handshake] says, for every input,
    and changes nothing but that connection. *)
Theorem handshake_refines p cn w :
  w_conn w !! p = Some cn → cn_state cn = StateAwaitProtocolHeader → healthy cn →
  let h := handshake (w_config w) (cn_reader cn) in
  RunHandshake p w = Done (hr_error h) (upd_conn p (set_reader (hr_reader h) (set_state (hr_state h)
    (set_out (cn_out cn ++ hr_written h) cn))) w).
Proof.
  intros Hp Hst [Hcl Hbr]. cbv zeta. rewrite <-(upd_conn_id p cn w Hp) at 1. by rewrite RunHandshake_eq.
Qed.

(** A line that does not decode: neither side holds. *)
Ltac refuse E :=
  split; [by intros [? ?]|intros (? & ? & ? & ? & Hl & _ & ? & ? & ?); simplify_eq; by rewrite E in *].

(** The handshake accepts a peer exactly when its first line is the protocol
    header and each of the next three lines decodes as the struct the broker
    expects there; the rest of the stream is then left to [Serve]. *)
Theorem handshake_accepts cfg r rest :
  (hr_error (handshake cfg r) = None ∧ hr_reader (handshake cfg r) = mkReader rest (r_end r)) ↔
  ∃ l0 l1 l2 l3, r_lines r = l0 :: l1 :: l2 :: l3 :: rest ∧ l_text l0 = ProtocolHeader ∧
    (unmarshal_line (T := ConnectionStartOK) l1).2 = None ∧
    (unmarshal_line (T := ConnectionTuneOK) l2).2 = None ∧
    (unmarshal_line (T := ConnectionOpen) l3).2 = None.
Proof.
  destruct r as [ls e]. unfold handshake, ReadProtocolHeader, ReadMessage, read_line. simpl.
  destruct ls as [|l0 ls]; simpl; [naive_solver|].
  destruct (decide (l_text l0 ≠ ProtocolHeader)) as [Hh|Hh]; simpl; [naive_solver|].
  assert (l_text l0 = ProtocolHeader) as Hh' by (by destruct (decide (l_text l0 = ProtocolHeader))).
  destruct ls as [|l1 ls]; simpl; [naive_solver|].
  destruct (unmarshal_line (T := ConnectionStartOK) l1) as [m1 [e1|]] eqn:E1; simpl; [refuse E1|].
  destruct ls as [|l2 ls]; simpl; [naive_solver|].
  destruct (unmarshal_line (T := ConnectionTuneOK) l2) as [m2 [e2|]] eqn:E2; simpl; [refuse E2|].
  destruct ls as [|l3 ls]; simpl; [naive_solver|].
  destruct (unmarshal_line (T := ConnectionOpen) l3) as [m3 [e3|]] eqn:E3; simpl; [refuse E3|].
  split.
  - intros [_ [= ->]]. exists l0, l1, l2, l3. by rewrite E1, E2, E3.
  - intros (? & ? & ? & ? & [= -> -> -> -> ->] & _). done.
Qed.

(** Channel.open on a healthy connection: a new channel object with the
    requested id and no consumers takes that id's place in the connection's table
    (whatever was there before), and channel.open-ok with the id is written on
    channel 0; nothing else changes. *)
Theorem channel_open_spec p env id w cn :
  w_conn w !! p = Some cn → healthy cn → is_u16 id → env_Payload env = Some (Marshal (mkChannelOpen id)) →
  ∃ chp, w_channel w !! chp = None ∧
    ChannelOpen p env w = Done tt (upd_conn p
      (set_out (cn_out cn ++ [env_json 0 ChannelOpenOKType (env_RequestID env) (mkChannelOpenOK id)])
        (set_channels (<[id := chp]> (cn_channels cn)) cn))
      (with_channel (<[chp := mkChannel id p ∅]> (w_channel w)) w)).
Proof.
  intros Hp Hh Hid Hpay. exists (fresh (dom (w_channel w))). split; [apply not_elem_of_dom, is_fresh|].
  assert (Unmarshal (env_Payload env) = (mkChannelOpen id, None)) as Hu by (rewrite Hpay; by apply codec_roundtrip).
  unfold ChannelOpen. rewrite Hu; unfold_prims. rewrite (bind_deref _ _ _ cn) by done.
  rewrite bind_gets, !bind_modify. erewrite bind_Done by (apply WriteEnvelope_eq; [apply upd_conn_lookup|done]).
  apply (f_equal (Done _)), upd_conn_twice.
Qed.

(** Channel.close on a healthy connection: the channel leaves the table, every
    consumer it had is unregistered with its pending messages returned (the
    contents of every queue stay the same up to order), and channel.close-ok is
    written. *)
Theorem channel_close_spec p env w cn chp ch :
  Inv w → w_conn w !! p = Some cn → healthy cn →
  cn_channels cn !! env_ChannelID env = Some chp → w_channel w !! chp = Some ch →
  ∃ w', ChannelClose p env w = Done tt w' ∧ Inv w' ∧
    (∃ cn', w_conn w' !! p = Some cn' ∧ cn_channels cn' = delete (env_ChannelID env) (cn_channels cn) ∧
       cn_out cn' = cn_out cn ++ [env_json (env_ChannelID env) ChannelCloseOKType (env_RequestID env)
                                    (mkChannelCloseOK (env_ChannelID env))]) ∧
    (∀ tag c, ch_consumers ch !! tag = Some c → gone w' c) ∧
    ∀ q, contents w' q ≡ₚ contents w q.
Proof.
  intros Hinv Hp Hh Hid Hch. unfold ChannelClose; unfold_prims. cbv zeta.
  rewrite (bind_deref _ _ _ cn) by done. rewrite bind_modify, Hid.
  set (cn1 := set_channels _ cn). change (with_conn _ w) with (upd_conn p cn1 w).
  assert (Inv (upd_conn p cn1 w)) as Hinv1.
  { apply inv_upd_conn; [|done]. simpl. intros i chp' [_ ?]%lookup_delete_Some. eauto. }
  destruct (wp_returns _ _ _ (cleaned_cleanup (upd_conn p cn1 w) chp ch Hinv1 Hch)) as ([] & w2 & E & Hcl).
  rewrite (bind_Done _ _ _ _ _ E).
  assert (w_conn w2 !! p = Some cn1) as Hp2 by (rewrite (rf_conn _ _ (cl_frame _ _ _ Hcl)); apply upd_conn_lookup).
  erewrite bind_Done by (apply WriteEnvelope_eq; [exact Hp2|done]). eexists. split; [done|].
  split; [apply inv_upd_conn; [simpl; by eauto|apply Hcl]|]. split; [|split].
  - eexists. by rewrite upd_conn_lookup.
  - intros tag c Hc. apply (cl_gone _ _ _ Hcl). apply list_elem_of_fmap. exists (tag, c).
    by rewrite elem_of_map_to_list.
  - intros q. apply (cl_contents _ _ _ Hcl q).
Qed.

(** An envelope for a channel id that is not open (and that is not itself a
    channel.open or channel.close) is answered with an error on that id with the
    request's id, and changes nothing else. *)
Theorem unknown_channel_error p env w cn :
  w_conn w !! p = Some cn → healthy cn → cn_channels cn !! env_ChannelID env = None →
  env_Type env ≠ ChannelOpenType → env_Type env ≠ ChannelCloseType →
  Handle p env w = Done tt (upd_conn p (set_out (cn_out cn ++ [env_json (env_ChannelID env) ErrorType
    (env_RequestID env) (mkError "" "channel with requested channelID not open for communication")]) cn) w).
Proof.
  intros Hp Hh Hid H1 H2. unfold Handle. rewrite !decide_False by done. unfold routeToChannel; unfold_prims.
  rewrite (bind_deref _ _ _ cn) by done. rewrite Hid.
  by erewrite bind_Done by (by apply WriteEnvelope_eq).
Qed.

(** A write, by the state of the connection: on an open connection with a
    working socket the line is appended to the output and the write succeeds; on
    an open connection whose socket fails it returns the socket's error, closes
    the connection and stops the pump; on a closed connection it either returns
    "connection closed", or is still served by a pump that has not stopped, or
    is left in the write channel and blocks its goroutine for ever. *)
Theorem send_spec p v w cn :
  w_conn w !! p = Some cn →
  match send p v w with
  | Done r w' =>
      (cn_closed cn = true ∧ r = Some "connection closed" ∧ w_conn w' = w_conn w) ∨
      ((cn_closed cn = false ∨ cn_pump cn = true) ∧
       match cn_broken cn with
       | Some err => r = Some err ∧ w_conn w' = <[p := set_closed true (set_pump false cn)]> (w_conn w)
       | None => r = None ∧ w_conn w' = <[p := set_out (cn_out cn ++ [v]) cn]> (w_conn w)
       end)
  | Blocked w' =>
      cn_closed cn = true ∧ (length (cn_writeCh cn) < 64)%nat ∧
      w_conn w' = <[p := set_pump false (set_writeCh (cn_writeCh cn ++ [v]) cn)]> (w_conn w)
  | Panicked => False
  end.
Proof.
  intros Hp. pose proof (wp_send p v w cn Hp) as Hs. unfold wp in Hs.
  destruct (send p v w) as [r w'|w'|]; [|by destruct Hs as [? _]|done]. by destruct Hs as [Hs _].
Qed.

(** Whatever struct the broker sends in an envelope on a healthy connection,
    the peer reads back: the line written decodes to an envelope with the same
    channel id, request id and type, and its payload decodes to the struct. *)
Theorem envelope_roundtrip {T} `{Codec T} p id ty req (msg : T) w cn :
  w_conn w !! p = Some cn → healthy cn → is_u16 id → is_u16 req → j_valid msg →
  ∃ v, WriteEnvelope p id ty req msg w = Done None (upd_conn p (set_out (cn_out cn ++ [v]) cn) w) ∧
    ∀ text rest e, ∃ payload,
      ReadEnvelope (mkReader (mkLine text (inr v) :: rest) e) =
        ((mkEnvelope id req ty (Some payload), None), mkReader rest e) ∧
      Unmarshal (Some payload) = (msg, None).
Proof.
  intros Hp Hh Hid Hreq Hmsg. exists (env_json id ty req msg). split; [by apply WriteEnvelope_eq|].
  intros text rest e. exists (Marshal msg). split; [|by apply codec_roundtrip].
  assert (Unmarshal (Some (env_json id ty req msg)) = (mkEnvelope id req ty (Some (Marshal msg)), None)) as Hu
    by (apply (codec_roundtrip (mkEnvelope id req ty (Some (Marshal msg)))); by split_and!).
  unfold ReadEnvelope, read_line, unmarshal_line. cbn [r_lines r_end l_json]. by rewrite Hu.
Qed.

(** Every message a client sends survives the wire: encoding it and decoding
    the result gives it back, for all field values (16-bit ids and tags, arbitrary
    byte bodies through base64, present or absent requeue flags and dead-letter
    fields). *)
Theorem client_messages_roundtrip :
  (∀ m : Protocol.Publish, Unmarshal (Some (Marshal m)) = (m, None)) ∧
  (∀ m : Consume, Unmarshal (Some (Marshal m)) = (m, None)) ∧
  (∀ m : Protocol.QueueDeclare, Unmarshal (Some (Marshal m)) = (m, None)) ∧
  (∀ m : Protocol.ExchangeDeclare, Unmarshal (Some (Marshal m)) = (m, None)) ∧
  (∀ m : Protocol.QueueBind, Unmarshal (Some (Marshal m)) = (m, None)) ∧
  (∀ m : Protocol.Ack, is_u16 (Ack_DeliveryTag m) → Unmarshal (Some (Marshal m)) = (m, None)) ∧
  (∀ m : Protocol.Nack, is_u16 (Nack_DeliveryTag m) → Unmarshal (Some (Marshal m)) = (m, None)) ∧
  (∀ m : Protocol.ChannelOpen, is_u16 (ChannelOpen_ID m) → Unmarshal (Some (Marshal m)) = (m, None)) ∧
  (∀ m : Deliver, is_u16 (Deliver_DeliveryTag m) → Unmarshal (Some (Marshal m)) = (m, None)).
Proof. split_and!; intros; by apply codec_roundtrip. Qed.
End claims.

(** ** The claims at concrete stores *)

Section witnesses.
#[local] Existing Instance oracle_id.

(** A connection that was just accepted, and one that serves. *)
Definition accepted : World := sys_world (demo_state [AAccept demo_producer]).
Definition serving : World := sys_world (demo_state demo_delivered).

Lemma serving_Inv : Inv serving.
Proof. apply (reachable_Inv demo_cfg (demo_state demo_delivered)), demo_reachable. vm_compute. reflexivity. Qed.

Lemma serving_conn : ∃ cn, w_conn serving !! 1%nat = Some cn ∧ healthy cn ∧
  cn_channels cn !! 7 = Some 1%nat ∧ cn_channels cn !! 9 = None.
Proof. eexists. split; [vm_compute; reflexivity|]. split; [split; reflexivity|]. split; vm_compute; reflexivity. Qed.

Lemma handshake_refines_witness : ∃ cn,
  w_conn accepted !! 0%nat = Some cn ∧ cn_reader cn = demo_producer ∧
  RunHandshake 0%nat accepted = Done (hr_error (handshake (w_config accepted) (cn_reader cn)))
    (upd_conn 0%nat (set_reader (hr_reader (handshake (w_config accepted) (cn_reader cn)))
      (set_state (hr_state (handshake (w_config accepted) (cn_reader cn)))
        (set_out (cn_out cn ++ hr_written (handshake (w_config accepted) (cn_reader cn))) cn))) accepted) ∧
  hr_error (handshake (w_config accepted) (cn_reader cn)) = None.
Proof.
  eexists. split; [vm_compute; reflexivity|]. split; [vm_compute; reflexivity|].
  split; [|vm_compute; reflexivity].
  apply (handshake_refines 0%nat); [vm_compute; reflexivity|reflexivity|split; reflexivity].
Defined.

Definition open_env (id : Z) : Envelope := mkEnvelope 0 5 ChannelOpenType (Some (Marshal (mkChannelOpen id))).
Definition close_env (id : Z) : Envelope := mkEnvelope id 5 ChannelCloseType None.

Lemma nine_u16 : is_u16 9.
Proof. split; vm_compute; [discriminate|reflexivity]. Qed.

Lemma channel_open_spec_witness : ∃ chp w',
  w_channel serving !! chp = None ∧ ChannelOpen 1%nat (open_env 9) serving = Done tt w'.
Proof.
  destruct serving_conn as (cn & Hp & Hh & _).
  destruct (channel_open_spec 1%nat (open_env 9) 9 serving cn Hp Hh nine_u16 eq_refl) as (chp & Hn & E).
  exists chp. eexists. split; [exact Hn|exact E].
Defined.

Lemma channel_close_spec_witness : ∃ w',
  ChannelClose 1%nat (close_env 7) serving = Done tt w' ∧ gone w' 0%nat ∧ contents w' jobs ≡ₚ contents serving jobs.
Proof.
  destruct serving_conn as (cn & Hp & Hh & Hid & _).
  assert (∃ ch, w_channel serving !! 1%nat = Some ch ∧ ch_consumers ch !! "ch.7.consumer.1" = Some 0%nat)
    as (ch & Hch & Hc) by (eexists; split; vm_compute; reflexivity).
  destruct (channel_close_spec 1%nat (close_env 7) serving cn 1%nat ch serving_Inv Hp Hh Hid Hch)
    as (w' & E & _ & _ & Hg & Hcont).
  exists w'. split; [exact E|]. split; [exact (Hg _ _ Hc)|apply Hcont].
Defined.

Lemma unknown_channel_error_witness : ∃ w',
  Handle 1%nat (mkEnvelope 9 5 BasicPublishType None) serving = Done tt w'.
Proof.
  destruct serving_conn as (cn & Hp & Hh & _ & Hid). eexists.
  exact (unknown_channel_error 1%nat (mkEnvelope 9 5 BasicPublishType None) serving cn Hp Hh Hid
    ltac:(discriminate) ltac:(discriminate)).
Defined.

Lemma send_spec_witness : ∃ w', send 1%nat JNull serving = Done None w'.
Proof.
  destruct serving_conn as (cn & Hp & [Hcl Hbr] & _).
  pose proof (send_spec 1%nat JNull serving cn Hp) as Hs. rewrite Hcl, Hbr in Hs.
  destruct (send 1%nat JNull serving) as [r w'|w'|]; [|destruct Hs as [Hs _]; discriminate Hs|destruct Hs].
  destruct Hs as [[Hs _]|[_ [-> _]]]; [discriminate Hs|]. exists w'. reflexivity.
Defined.

Lemma envelope_roundtrip_witness : ∃ v w',
  WriteEnvelope 1%nat 9 BasicDeliverType 0 (mkDeliver 9 (Some [Byte.x61]) "ex" "k" "t") serving = Done None w' ∧
  ∀ text rest e, ∃ payload,
    ReadEnvelope (mkReader (mkLine text (inr v) :: rest) e) =
      ((mkEnvelope 9 0 BasicDeliverType (Some payload), None), mkReader rest e) ∧
    Unmarshal (Some payload) = (mkDeliver 9 (Some [Byte.x61]) "ex" "k" "t", None).
Proof.
  destruct serving_conn as (cn & Hp & Hh & _).
  assert (is_u16 0) as H0 by (split; vm_compute; [discriminate|reflexivity]).
  assert (j_valid (mkDeliver 9 (Some [Byte.x61]) "ex" "k" "t")) as Hv by (simpl; exact nine_u16).
  destruct (envelope_roundtrip 1%nat 9 BasicDeliverType 0 (mkDeliver 9 (Some [Byte.x61]) "ex" "k" "t")
    serving cn Hp Hh nine_u16 H0 Hv) as (v & E & Hr).
  exists v. eexists. split; [exact E|exact Hr].
Defined.

Lemma client_messages_roundtrip_witness :
  Unmarshal (Some (Marshal (mkPublish "ex" "k" (Some [Byte.x61; Byte.xff])))) =
    (mkPublish "ex" "k" (Some [Byte.x61; Byte.xff]), None) ∧
  Unmarshal (Some (Marshal (mkNack 9 (Some false)))) = (mkNack 9 (Some false), None).
Proof.
  destruct client_messages_roundtrip as (Hpub & _ & _ & _ & _ & _ & Hnack & _).
  split; [apply Hpub|apply Hnack, nine_u16].
Defined.
End witnesses.
