(* ===== verification/Findings.v ===== *)
(** * Where the broker departs from what it means to do

    Reachable states and exact effects that exhibit the departures: a duplicated
    message, a leaked consumer, a stalled queue, a misleading reply, duplicate
    gauges, an ambiguous ack, a reused delivery tag.  Each is evaluated on a
    concrete run of [Scenario]. *)

From S2P Require Import Prelude GoJson Protocol State Transport Queue Exchange Broker Channel Connection Invariant Accounting Frame Server Scenario Routing Delivery Session.

(** A script that evaluates to a state is a run of the process. *)
Lemma evaluates (o : Oracle) l (P : Sys → Prop) s :
  @run o demo_cfg l = Some s → P s → ∃ s, @reachable o demo_cfg s ∧ P s.
Proof. intros E HP. exists s. split; [by eapply run_reachable|done]. Qed.

Ltac evaluate script := eapply (evaluates _ script); [vm_compute; reflexivity|].

(** A consumer that subscribes and then closes. *)
Definition short_consumer : Reader := client [open_channel 7; consume 7 "jobs" ""].

Definition duplicate_script : list Action :=
  [AAccept demo_producer; AHandshake 0%nat; AAccept short_consumer; AHandshake 1%nat] ++
  serve_turns 10 0%nat ++ serve_turns 2 1%nat ++
  [ADispatch jobs; ANetwork 1%nat "broken pipe"; ADispatch jobs; AServe 1%nat; AClose 1%nat; ADispatch jobs].

(** C38: The delivery of a message fails, the consumer's connection is cleaned up, which
    returns the pending message to the queue, and then the dispatch goroutine puts
    the same message back once more: three messages were enqueued, the queue holds
    four, and the in-flight count of the departed consumer is -1. *)
Theorem duplicate_after_disconnect : ∃ s, @reachable oracle_id demo_cfg s ∧
  (λ q, tags (q_messages q)) <$> w_queue (sys_world s) !! jobs = Some [1; 1; 2; 3] ∧
  c_inflight <$> w_consumer (sys_world s) !! 0%nat = Some (-1) ∧
  sys_phase s !! 1%nat = Some PClosed.
Proof. evaluate duplicate_script. split_and!; vm_compute; reflexivity. Qed.

Definition leak_script : list Action :=
  [AAccept demo_producer; AHandshake 0%nat;
   AAccept (client [open_channel 7; consume 7 "jobs" ""; open_channel 7]); AHandshake 1%nat] ++
  serve_turns 10 0%nat ++ serve_turns 4 1%nat ++ [AClose 1%nat].

(** Opening a channel id that is already open drops the old channel without
    cleaning it up: after the connection has closed, its consumer is still
    registered on the queue. *)
Theorem reopened_channel_leaks : ∃ s, @reachable oracle_id demo_cfg s ∧
  sys_phase s !! 1%nat = Some PClosed ∧
  q_consumers <$> w_queue (sys_world s) !! jobs = Some {[0%nat]} ∧
  c_channel <$> w_consumer (sys_world s) !! 0%nat = Some 1%nat ∧
  ch_conn <$> w_channel (sys_world s) !! 1%nat = Some 1%nat.
Proof. evaluate leak_script. split_and!; vm_compute; reflexivity. Qed.

(** A runtime in which the two cases of a [select] alternate. *)
Definition oracle_alternate : Oracle :=
  {| shuffle := λ _ _ l, l; shuffle_perm := λ _ _ l, Permutation_refl l; coin := Nat.even |}.

Definition stall_script : list Action :=
  [AAccept demo_producer; AHandshake 0%nat; AAccept short_consumer; AHandshake 1%nat;
   AAccept (client [open_channel 1; consume 1 "jobs" ""]); AHandshake 2%nat] ++
  serve_turns 10 0%nat ++ serve_turns 2 1%nat ++ [ADispatch jobs] ++ serve_turns 1 1%nat ++
  [AClose 1%nat] ++ serve_turns 2 2%nat ++ [ADispatch jobs].

(** C39: A consumer disconnects between the moment its message is taken and the write:
    the write enters the channel of a connection whose pump has gone and is never
    answered.  The dispatch goroutine of the queue waits for ever, although
    messages are ready and another consumer is idle. *)
Theorem dispatcher_can_stall : ∃ s, @reachable oracle_alternate demo_cfg s ∧
  (∃ c m, w_dispatch (sys_world s) !! jobs = Some (DStuck c m)) ∧
  @dispatch_section oracle_alternate jobs (sys_world s) = Blocked (sys_world s) ∧
  (λ q, (tags (q_messages q), q_consumers q)) <$> w_queue (sys_world s) !! jobs = Some ([1; 2; 3], {[1%nat]}) ∧
  c_inflight <$> w_consumer (sys_world s) !! 1%nat = Some 0.
Proof.
  evaluate stall_script. split; [do 2 eexists; vm_compute; reflexivity|]. split_and!; vm_compute; reflexivity.
Qed.

(** The reply to a queue.bind that failed is still bind-ok. *)
Theorem failed_bind_is_confirmed `{Oracle} chp env ex qn rk w ch cn :
  env_Payload env = Some (Marshal (mkQueueBind qn ex rk)) → b_exchanges (w_broker w) !! ex = None →
  w_channel w !! chp = Some ch → w_conn w !! ch_conn ch = Some cn → healthy cn →
  HandleQueueBind chp env w = Done tt (upd_conn (ch_conn ch) (set_out (cn_out cn ++
    [env_json (env_ChannelID env) QueueBindOKType (env_RequestID env) mkQueueBindOK]) cn) w).
Proof.
  intros Hp Hex Hch Hcn Hh. unfold HandleQueueBind.
  assert (Unmarshal (env_Payload env) = (mkQueueBind qn ex rk, None)) as -> by (rewrite Hp; by apply codec_roundtrip).
  unfold BindQueue. cbn [QueueBind_Exchange QueueBind_Queue QueueBind_RoutingKey].
  erewrite bind_Done by (rewrite bind_gets, Hex; reflexivity).
  unfold reply, get_channel. rewrite (bind_deref _ _ _ ch) by done.
  by erewrite bind_Done by (by apply WriteEnvelope_eq).
Qed.

Definition twins_script : list Action :=
  [AAccept demo_producer; AHandshake 0%nat;
   AAccept (client [open_channel 1; consume 1 "jobs" ""]); AHandshake 1%nat;
   AAccept (client [open_channel 1; consume 1 "jobs" ""]); AHandshake 2%nat] ++
  serve_turns 10 0%nat ++ serve_turns 2 1%nat ++ serve_turns 2 2%nat.

(** Default consumer tags are unique per channel only: two connections that use the
    same channel id and consume from the same queue make [Collect] send two gauges
    with the same name and labels, which the Prometheus registry rejects. *)
Theorem default_tags_collide_in_gauges : ∃ s, @reachable oracle_id demo_cfg s ∧
  ∃ l w', @Collect oracle_id (sys_world s) = Done l w' ∧
    countZ (λ x, match x with
                 | SConsumerInflight _ q t => bool_decide (q = "jobs" ∧ t = "ch.1.consumer.1")
                 | _ => false end) l = 2.
Proof.
  evaluate twins_script. do 2 eexists. split; [vm_compute; reflexivity|]. vm_compute. reflexivity.
Qed.

(** A consumer of two queues on one channel: both have tag 1 in flight. *)
Definition two_queues : list Action :=
  [AAccept (client [open_channel 1; declare_exchange 1 "ex"; declare_queue 1 "a" "" ""; declare_queue 1 "b" "" "";
      bind_queue 1 "a" "ex" "k"; bind_queue 1 "b" "ex" "k"; consume 1 "a" ""; consume 1 "b" "";
      publish 1 "ex" "k" [Byte.x61]; ack 1 1]); AHandshake 0%nat] ++
  serve_turns 9 0%nat ++ [ADispatch 0%nat; ADispatch 0%nat; ADispatch 1%nat; ADispatch 1%nat] ++ serve_turns 1 0%nat.

(** Delivery tags are counted per queue but acknowledged per channel: the same ack
    settles the message of one queue or of the other, by the order in which Go
    visits the channel's consumers. *)
Theorem ack_is_ambiguous :
  (∃ s, @reachable oracle_id demo_cfg s ∧ Acked "a" ∈ w_metrics (sys_world s)) ∧
  (∃ s, @reachable oracle_rev demo_cfg s ∧ Acked "b" ∈ w_metrics (sys_world s)).
Proof.
  split; evaluate two_queues; apply (bool_decide_unpack _); vm_compute; exact I.
Qed.

(** A default consumer tag can collide with one the client chose itself. *)
Theorem default_tag_can_be_taken `{Oracle} chp w ch p queue c :
  w_channel w !! chp = Some ch → b_queues (w_broker w) !! queue = Some p →
  ch_consumers ch = {["ch." +:+ pretty (ch_id ch) +:+ ".consumer." +:+ pretty 2 := c]} →
  ∃ e, RegisterConsumer "" queue chp w = Done (inl e) w.
Proof.
  intros Hch Hp Hcs. unfold RegisterConsumer; unfold_prims. rewrite bind_gets, Hp.
  rewrite (bind_deref _ _ _ ch) by done. cbv zeta. unfold NewConsumer. cbn [c_tag].
  rewrite decide_True by done. rewrite Hcs, map_size_singleton. change (Z.of_nat 1 + 1) with 2.
  rewrite lookup_singleton_eq. by eexists.
Qed.

(** The handshake looks at no field of what the peer sends: three empty objects do. *)
Theorem handshake_checks_nothing cfg :
  let obj := mkLine "{}" (inr (JObj [])) in
  hr_error (handshake cfg (mkReader [header_line; obj; obj; obj] "EOF")) = None.
Proof. reflexivity. Qed.

(** A read error in place of the protocol header is reported as a header. *)
Theorem missing_header_is_accepted e : ReadProtocolHeader (mkReader [] e) = (None, mkReader [] e).
Proof. reflexivity. Qed.

(** After 65536 publishes a queue hands out the same delivery tag again... *)
Theorem tags_repeat ex rk body q :
  is_u16 (q_nextTag q) → q_nextTag (Nat.iter (Z.to_nat 65536) (pushed ex rk body) q) = q_nextTag q.
Proof.
  assert (∀ k, is_u16 (q_nextTag q) → q_nextTag (Nat.iter k (pushed ex rk body) q) = u16 (q_nextTag q + Z.of_nat k)) as Hk.
  { intros k Hq. induction k as [|k IH]; [simpl; rewrite Z.add_0_r; symmetry; by apply u16_id|].
    rewrite Nat.iter_succ. simpl. rewrite IH. unfold u16. rewrite Zplus_mod_idemp_l. f_equal. lia. }
  intros Hq. rewrite Hk by done. rewrite Z2Nat.id by lia. unfold u16.
  replace (q_nextTag q + 65536) with (q_nextTag q + 1 * 65536) by lia. rewrite Z.mod_add by lia. by apply u16_id.
Qed.

(** ... and a consumer that still holds the first message under it loses that
    message when it is handed the second. *)
Theorem reused_tag_loses_message msg old co :
  c_pendingMessages co !! m_DeliveryTag msg = Some old →
  pending_msgs (took msg co) ≡ₚ msg :: (map_to_list (delete (m_DeliveryTag msg) (c_pendingMessages co))).*2 ∧
  pending_msgs co ≡ₚ old :: (map_to_list (delete (m_DeliveryTag msg) (c_pendingMessages co))).*2 ∧
  c_inflight (took msg co) = c_inflight co + 1.
Proof.
  intros Hold. split_and!; [|by apply pending_released|done]. unfold pending_msgs. simpl.
  rewrite <-insert_delete_eq, map_to_list_insert by (by rewrite lookup_delete_eq). done.
Qed.
