(* ===== verification/Goroutines.v ===== *)
(** * The broker at the granularity of its locks

    The code of src/broker as goroutines that interleave between any two critical
    sections.  [q.mu] is a lock with an owner, [q.cond] a condition variable;
    what [c.mu], [b.mu], [e.mu] protect and the reads of immutable fields are atomic
    sections, for nothing inside them waits; [Mutexes] has these mutexes too.  Each function of the code that takes [q.mu], or that
    is split by a lock of its own, is written here in continuation-passing style,
    line by line; the sections themselves are those of [Queue], [Broker] and
    [Channel]. *)

From S2P Require Import Prelude GoJson Protocol State Transport Queue Exchange Broker Channel Connection Server.

(** ** Goroutines *)

(** Where a goroutine starts or goes on: [HandleConnection], the head of [Serve],
    the head of [dispatchLoop], its test of [len(q.messages)] under the lock, and the
    start of a scrape. *)
Inductive label : Type :=
| LHandle (r : Reader)
| LServe (conn : loc)
| LDispatch (q : loc)
| LCheck (q : loc)
| LScrape.

Inductive code : Type :=
| Ret
| Jump (l : label)
| Sec {B : Type} (m : M B) (k : B → code)
| Lock (q : loc) (k : code)
| Unlock (q : loc) (k : code)
| Wait (q : loc) (k : code)
| Signal (q : loc) (k : code)
| Go (l : label) (k : code).

(** [for _, x := range l { body }] *)
Fixpoint for_each {A} (l : list A) (body : A → code → code) (k : code) : code :=
  match l with
  | [] => k
  | x :: l' => body x (for_each l' body k)
  end.

Section code.
Context `{Oracle}.

(** *** queue.go *)

Definition g_registerConsumer (p c : loc) (k : code) : code :=
  Lock p (Sec (q ← get_queue p; put_queue p (set_consumers (q_consumers q ∪ {[c]}) q)) (λ _,
  Unlock p (Signal p k))).

(** The section of [unregisterConsumer] under [c.mu]. *)
Definition return_pending (p c : loc) : M unit :=
  co ← get_consumer c;
  pending ← range (map_to_list (c_pendingMessages co));
  forM_ pending (λ '(_, msg), requeue_pending p c msg);;
  co' ← get_consumer c;
  put_consumer c (set_inflight (c_inflight co') (c_inflightTags co') ∅ co').

Definition g_unregisterConsumer (p c : loc) (k : code) : code :=
  Lock p (Sec (get_queue p) (λ q,
  if decide (c ∈ q_consumers q) then
    Sec (put_queue p (set_consumers (q_consumers q ∖ {[c]}) q)) (λ _,
    Sec (return_pending p c) (λ _,
    Unlock p (
    Sec (inc (ConsumersUnregistered (q_name q))) (λ _,
    Signal p k))))
  else Unlock p k)).

(** [selectConsumer], under [q.mu]; each consumer is read under its own lock. *)
Fixpoint scan_consumers (cs : list loc) (k : option loc → code) : code :=
  match cs with
  | [] => k None
  | c :: cs' =>
      Sec (co ← get_consumer c; mret (bool_decide (c_inflight co < c_prefetch co))) (λ free : bool,
      if free then k (Some c) else scan_consumers cs' k)
  end.

Definition g_selectConsumer (p : loc) (k : option loc → code) : code :=
  Sec (q ← get_queue p; range (elements (q_consumers q))) (λ cs, scan_consumers cs k).

(** [msg := q.messages[0]; q.messages = q.messages[1:]] *)
Definition pop_message (p : loc) : M Message :=
  q ← get_queue p;
  match q_messages q with
  | [] => panic
  | msg :: rest => put_queue p (set_messages rest q);; mret msg
  end.

(** The two sections of [dispatchLoop] under [consumer.mu]. *)
Definition hand_over (c : loc) (msg : Message) : M unit :=
  co ← get_consumer c;
  put_consumer c (set_inflight (c_inflight co + 1) (c_inflightTags co ∪ {[m_DeliveryTag msg]})
                    (<[m_DeliveryTag msg := msg]> (c_pendingMessages co)) co).
Definition take_back (c : loc) (msg : Message) : M unit :=
  co ← get_consumer c;
  put_consumer c (set_inflight (c_inflight co - 1) (c_inflightTags co ∖ {[m_DeliveryTag msg]})
                    (delete (m_DeliveryTag msg) (c_pendingMessages co)) co).

(** [q.messages = append([]Message{msg}, q.messages...)] *)
Definition push_front (p : loc) (msg : Message) : M unit :=
  q ← get_queue p;
  put_queue p (set_messages (msg :: q_messages q) q).

(** [consumer.channel.conn.WriteEnvelope(..., protocol.Deliver{...})] *)
Definition write_delivery (c : loc) (msg : Message) : M (option string) :=
  co ← get_consumer c;
  ch ← get_channel (c_channel co);
  WriteEnvelope (ch_conn ch) (ch_id ch) BasicDeliverType 0 (deliver_of msg (c_tag co)).

(** [q.metrics.X.WithLabelValues(q.name).Inc()] *)
Definition inc_queue (f : string → MetricCall) (p : loc) : M unit :=
  q ← get_queue p; inc (f (q_name q)).

(** [dispatchLoop] from the selection of a consumer, with [q.mu] held. *)
Definition g_dispatch_to (p : loc) (r : option loc) : code :=
  match r with
  | None => Wait p (Unlock p (Jump (LDispatch p)))
  | Some c =>
      Sec (pop_message p) (λ msg,
      Sec (hand_over c msg) (λ _,
      Unlock p (
      Sec (write_delivery c msg) (λ err,
      match err with
      | Some _ =>
          Sec (inc_queue DeliverErrors p) (λ _,
          Lock p (
          Sec (push_front p msg) (λ _,
          Sec (take_back c msg) (λ _,
          Unlock p (Jump (LDispatch p))))))
      | None => Sec (inc_queue Delivered p) (λ _, Jump (LDispatch p))
      end))))
  end.

Definition g_dispatch_check (p : loc) : code :=
  Sec (get_queue p) (λ q,
  match q_messages q with
  | [] => Wait p (Jump (LCheck p))
  | _ :: _ => g_selectConsumer p (g_dispatch_to p)
  end).

Definition push_back (p : loc) (msg : Message) : M unit :=
  q ← get_queue p;
  put_queue p (set_messages (q_messages q ++ [msg]) q).

Definition g_enqueue (p : loc) (msg : Message) (k : code) : code :=
  Sec (inc_queue Enqueued p) (λ _,
  Lock p (Sec (push_back p msg) (λ _,
  Unlock p (Signal p k)))).

(** *** broker.go *)

(** [NewQueue] starts the dispatch goroutine, which gets to run after the section. *)
Definition declare_section (name dlx rk : string) : M (option loc) :=
  b ← gets w_broker;
  match b_queues b !! name with
  | Some _ => mret None
  | None =>
      p ← NewQueue name dlx rk;
      put_broker (mkBroker (<[name := p]> (b_queues b)) (b_exchanges b));;
      mret (Some p)
  end.

Definition g_DeclareQueue (name dlx rk : string) (k : code) : code :=
  Sec (declare_section name dlx rk) (λ new,
  match new with
  | Some p => Go (LDispatch p) k
  | None => k
  end).

Definition g_publish_to (ex rk : string) (body : option bytes) (p : loc) (k : code) : code :=
  Lock p (Sec (alloc_tag p) (λ tag,
  Unlock p (g_enqueue p (mkMessage tag body ex rk) k))).

Definition g_Publish (ex rk : string) (body : option bytes) (k : option string → code) : code :=
  Sec (gets w_broker) (λ b,
  match b_exchanges b !! ex with
  | None => Sec (inc PublishErrors) (λ _, k (Some ("exchange " +:+ quote ex +:+ " not found")))
  | Some ep =>
      Sec (inc (Published ex)) (λ _,
      Sec (getQueues ep rk) (λ queues,
      let loop := for_each queues (g_publish_to ex rk body) (k None) in
      if decide (queues = []) then Sec (inc (PublishUnroutable ex)) (λ _, loop) else loop))
  end).

Definition g_RegisterConsumer (consumerTag queue : string) (chp : loc) (k : string + string → code) : code :=
  Sec (gets w_broker) (λ b,
  match b_queues b !! queue with
  | None => k (inl "queue not found")
  | Some q =>
      Sec (get_channel chp) (λ ch,
      let c := NewConsumer consumerTag q chp ch in
      match ch_consumers ch !! c_tag c with
      | Some _ => k (inl ("consumer tag " +:+ quote (c_tag c) +:+ " already in use on channel " +:+ pretty (ch_id ch)))
      | None =>
          Sec (cp ← gets (λ w, fresh (dom (w_consumer w))); put_consumer cp c;; mret cp) (λ cp,
          g_registerConsumer q cp (
          Sec (ch ← get_channel chp;
               put_channel chp (mkChannel (ch_id ch) (ch_conn ch) (<[c_tag c := cp]> (ch_consumers ch)))) (λ _,
          Sec (inc (ConsumersRegistered queue)) (λ _,
          k (inr (c_tag c))))))
      end)
  end).

(** [BindQueue]: the two tables are read under [b.mu], the binding is made under [e.mu]. *)
Definition g_BindQueue (exchangeName queueName routingKey : string) (k : option string → code) : code :=
  Sec (gets w_broker) (λ b,
  match b_exchanges b !! exchangeName, b_queues b !! queueName with
  | None, _ => k (Some "exchange not found")
  | Some _, None => k (Some "queue not found")
  | Some ex, Some q => Sec (bind ex q routingKey) (λ _, k None)
  end).

(** [Ack] under [q.mu]: one consumer after the other, each under its own lock. *)
Fixpoint ack_scan (p : loc) (queueName : string) (tag : Z) (cs : list loc) (k : option string → code) : code :=
  match cs with
  | [] => Unlock p (k (Some ("delivery tag " +:+ pretty tag +:+ " not found in any consumer on queue " +:+ quote queueName)))
  | c :: cs' =>
      Sec (ack_consumer tag c) (λ found,
      match found with
      | Some _ => Unlock p (Signal p (Sec (inc (Acked queueName)) (λ _, k None)))
      | None => ack_scan p queueName tag cs' k
      end)
  end.

Definition g_Ack (queueName : string) (tag : Z) (k : option string → code) : code :=
  Sec (gets w_broker) (λ b,
  match b_queues b !! queueName with
  | None => k (Some ("queue " +:+ quote queueName +:+ " not found"))
  | Some p =>
      Lock p (Sec (q ← get_queue p; range (elements (q_consumers q))) (λ cs, ack_scan p queueName tag cs k))
  end).

(** *** channel.go *)

Definition g_cleanup (chp : loc) (k : code) : code :=
  Sec (ch ← get_channel chp; range (map_to_list (ch_consumers ch))) (λ cs,
  for_each cs (λ '(_, c) k, Sec (get_consumer c) (λ co, g_unregisterConsumer (c_queue co) c k)) k).

Definition g_reply_error (chp : loc) (env : Envelope) (err : string) (k : code) : code :=
  Sec (reply_error chp env err) (λ _, k).

Definition g_HandlePublish (chp : loc) (env : Envelope) (k : code) : code :=
  let '(event, err) := Unmarshal (T := Protocol.Publish) (env_Payload env) in
  match err with
  | Some _ => k
  | None =>
      g_Publish (Publish_Exchange event) (Publish_RoutingKey event) (Publish_Body event) (λ err,
      match err with
      | Some e => g_reply_error chp env e k
      | None => k
      end)
  end.

Definition g_HandleConsume (chp : loc) (env : Envelope) (k : code) : code :=
  let '(event, err) := Unmarshal (T := Consume) (env_Payload env) in
  match err with
  | Some e => g_reply_error chp env e k
  | None =>
      g_RegisterConsumer (Consume_ConsumerTag event) (Consume_Queue event) chp (λ r,
      match r with
      | inl e => g_reply_error chp env e k
      | inr tag => Sec (reply chp env BasicConsumeOKType (mkConsumeOK tag)) (λ _, k)
      end)
  end.

(** The loop of [HandleAck]: each consumer is looked at under its lock, which is
    released before [Broker.Ack] is called. *)
Fixpoint ack_loop (tag : Z) (cs : list (string * loc)) (k : code) : code :=
  match cs with
  | [] => k
  | (_, c) :: cs' =>
      Sec (co ← get_consumer c; mret (bool_decide (tag ∈ c_inflightTags co))) (λ ok : bool,
      if ok then
        Sec (co ← get_consumer c; q ← get_queue (c_queue co); mret (q_name q)) (λ name,
        g_Ack name tag (λ _, k))
      else ack_loop tag cs' k)
  end.

Definition g_HandleAck (chp : loc) (env : Envelope) (k : code) : code :=
  let '(event, err) := Unmarshal (T := Protocol.Ack) (env_Payload env) in
  match err with
  | Some e => g_reply_error chp env e k
  | None =>
      Sec (ch ← get_channel chp; range (map_to_list (ch_consumers ch))) (λ cs,
      ack_loop (Ack_DeliveryTag event) cs k)
  end.

Definition g_nack_dispose (p : loc) (msg : Message) (requeue : bool) (k : code) : code :=
  Sec (inc_queue (λ n, Nacked n (format_bool requeue)) p) (λ _,
  if requeue then
    Lock p (Sec (push_front p msg) (λ _, Unlock p (Signal p k)))
  else
    Sec (get_queue p) (λ q,
    if decide (q_dlx q ≠ "") then
      Sec (inc (DeadLettered (q_name q))) (λ _,
      g_Publish (q_dlx q) (if decide (q_dlxRoutingKey q = "") then m_RoutingKey msg else q_dlxRoutingKey q)
        (m_Body msg) (λ _, Signal p k))
    else Sec (inc (Dropped (q_name q))) (λ _, Signal p k))).

Fixpoint nack_loop (tag : Z) (requeue : bool) (cs : list (string * loc)) (k : code) : code :=
  match cs with
  | [] => k
  | (_, c) :: cs' =>
      Sec (nack_take tag c) (λ m,
      match m with
      | Some msg => Sec (get_consumer c) (λ co, g_nack_dispose (c_queue co) msg requeue k)
      | None => nack_loop tag requeue cs' k
      end)
  end.

Definition g_HandleNack (chp : loc) (env : Envelope) (k : code) : code :=
  let '(event, err) := Unmarshal (T := Protocol.Nack) (env_Payload env) in
  match err with
  | Some e => g_reply_error chp env e k
  | None =>
      Sec (ch ← get_channel chp; range (map_to_list (ch_consumers ch))) (λ cs,
      nack_loop (Nack_DeliveryTag event) (requeue_flag event) cs k)
  end.

Definition g_HandleExchangeDeclare (chp : loc) (env : Envelope) (k : code) : code :=
  let '(event, _) := Unmarshal (T := Protocol.ExchangeDeclare) (env_Payload env) in
  Sec (DeclareExchange (ExchangeDeclare_Name event)) (λ _,
  Sec (reply chp env ExchangeDeclareOKType (mkExchangeDeclareOK (ExchangeDeclare_Name event))) (λ _, k)).

Definition g_HandleQueueDeclare (chp : loc) (env : Envelope) (k : code) : code :=
  let '(event, _) := Unmarshal (T := Protocol.QueueDeclare) (env_Payload env) in
  g_DeclareQueue (QueueDeclare_Name event) (QueueDeclare_DeadLetterExchange event)
    (QueueDeclare_DeadLetterRoutingKey event)
  (Sec (reply chp env QueueDeclareOKType (mkQueueDeclareOK (QueueDeclare_Name event))) (λ _, k)).

Definition g_HandleQueueBind (chp : loc) (env : Envelope) (k : code) : code :=
  let '(event, err) := Unmarshal (T := Protocol.QueueBind) (env_Payload env) in
  match err with
  | Some e => g_reply_error chp env e k
  | None =>
      g_BindQueue (QueueBind_Exchange event) (QueueBind_Queue event) (QueueBind_RoutingKey event) (λ _,
      Sec (reply chp env QueueBindOKType mkQueueBindOK) (λ _, k))
  end.

Definition g_route (chp : loc) (env : Envelope) (k : code) : code :=
  if decide (env_Type env = BasicPublishType) then g_HandlePublish chp env k
  else if decide (env_Type env = BasicConsumeType) then g_HandleConsume chp env k
  else if decide (env_Type env = BasicAckType) then g_HandleAck chp env k
  else if decide (env_Type env = BasicNackType) then g_HandleNack chp env k
  else if decide (env_Type env = QueueDeclareType) then g_HandleQueueDeclare chp env k
  else if decide (env_Type env = ExchangeDeclareType) then g_HandleExchangeDeclare chp env k
  else if decide (env_Type env = QueueBindType) then g_HandleQueueBind chp env k
  else k.

(** *** connection.go, server.go *)

Definition g_conn_cleanup (p : loc) (k : code) : code :=
  Sec (c ← get_conn p; range (map_to_list (cn_channels c))) (λ chs,
  for_each chs (λ '(_, ch) k, g_cleanup ch k) k).

(** The section of [ChannelOpen] under [c.mu]. *)
Definition install_channel (p : loc) (id : Z) : M unit :=
  c ← get_conn p;
  chp ← gets (λ w, fresh (dom (w_channel w)));
  put_channel chp (mkChannel id p ∅);;
  put_conn p (set_channels (<[id := chp]> (cn_channels c)) c).

Definition g_ChannelOpen (p : loc) (env : Envelope) (k : code) : code :=
  let '(event, _) := Unmarshal (T := Protocol.ChannelOpen) (env_Payload env) in
  let id := ChannelOpen_ID event in
  Sec (install_channel p id) (λ _,
  Sec (WriteEnvelope p 0 ChannelOpenOKType (env_RequestID env) (mkChannelOpenOK id)) (λ _, k)).

Definition g_ChannelClose (p : loc) (env : Envelope) (k : code) : code :=
  let id := env_ChannelID env in
  let answer := Sec (WriteEnvelope p id ChannelCloseOKType (env_RequestID env) (mkChannelCloseOK id)) (λ _, k) in
  Sec (c ← get_conn p; put_conn p (set_channels (delete id (cn_channels c)) c);; mret (cn_channels c !! id)) (λ ch,
  match ch with
  | Some ch => g_cleanup ch answer
  | None => answer
  end).

Definition g_Handle (p : loc) (env : Envelope) (k : code) : code :=
  if decide (env_Type env = ChannelOpenType) then g_ChannelOpen p env k
  else if decide (env_Type env = ChannelCloseType) then g_ChannelClose p env k
  else
    Sec (c ← get_conn p; mret (cn_channels c !! env_ChannelID env)) (λ ch,
    match ch with
    | None =>
        Sec (WriteEnvelope p (env_ChannelID env) ErrorType (env_RequestID env)
               (error_message "channel with requested channelID not open for communication")) (λ _, k)
    | Some ch => g_route ch env k
    end).

(** The deferred function of [HandleConnection]. *)
Definition g_close (p : loc) : code :=
  Sec (inc ConnectionsClosed) (λ _,
  Sec (shutdown p) (λ _,
  g_conn_cleanup p (
  Sec (modify (λ w, with_connections (w_connections w ∖ {[p]}) w)) (λ _,
  Sec (c ← get_conn p; put_conn p (set_broken (Some closed_socket) c)) (λ _,
  Ret))))).

Definition g_Serve (p : loc) : code :=
  Sec (conn_read ReadEnvelope p) (λ '(env, err),
  match err with
  | Some _ => g_close p
  | None => g_Handle p env (Jump (LServe p))
  end).

(** [RunHandshake]: each read and each write is a section. *)
Definition g_RunHandshake (p : loc) (k : option string → code) : code :=
  Sec (conn_read ReadProtocolHeader p) (λ err,
  match err with Some e => k (Some e) | None =>
  Sec (set_conn_state p StateAwaitStartOK) (λ _,
  Sec (WriteMessage p NewConnectionStart) (λ err,
  match err with Some e => k (Some e) | None =>
  Sec (conn_read (ReadMessage (T := ConnectionStartOK)) p) (λ r,
  match r.2 with Some e => k (Some e) | None =>
  Sec (set_conn_state p StateAwaitTuneOK) (λ _,
  Sec (gets w_config) (λ cfg,
  Sec (WriteMessage p (NewConnectionTune (cfg_ChannelMax cfg) (cfg_FramesMax cfg) (cfg_HeartbeatSec cfg))) (λ _,
  Sec (conn_read (ReadMessage (T := ConnectionTuneOK)) p) (λ r,
  match r.2 with Some e => k (Some e) | None =>
  Sec (set_conn_state p StateAwaitOpen) (λ _,
  Sec (conn_read (ReadMessage (T := ConnectionOpen)) p) (λ r,
  match r.2 with Some e => k (Some e) | None =>
  Sec (WriteMessage p NewConnectionOpenOK) (λ err,
  match err with Some e => k (Some e) | None =>
  Sec (set_conn_state p StateOpen) (λ _, k None)
  end) end)) end)))) end) end)) end).

Definition g_HandleConnection (r : Reader) : code :=
  Sec (NewConnection r) (λ p,
  Sec (modify (λ w, with_connections (w_connections w ∪ {[p]}) w)) (λ _,
  Sec (inc ConnectionsOpened) (λ _,
  g_RunHandshake p (λ err,
  match err with
  | Some _ => Sec (inc HandshakeFailures) (λ _, g_close p)
  | None => Jump (LServe p)
  end)))).

(** *** metrics.go *)

(** [Collect] on the consumers of a queue whose lock it holds: each is read under its own
    lock.  The gauges go to the channel of the registry; [acc] is what was sent. *)
Fixpoint collect_consumers (name : string) (cs : list loc) (acc : list Sample) (k : list Sample → code) : code :=
  match cs with
  | [] => k acc
  | c :: cs' =>
      Sec (co ← get_consumer c; mret (SConsumerInflight (c_inflight co) name (c_tag co))) (λ s,
      collect_consumers name cs' (acc ++ [s]) k)
  end.

Definition g_collect_queue (p : loc) (acc : list Sample) (k : list Sample → code) : code :=
  Lock p (
  Sec (get_queue p) (λ q,
  Sec (range (elements (q_consumers q))) (λ cs,
  collect_consumers (q_name q) cs
    (acc ++ [SQueueMessages (length (q_messages q)) (q_name q); SQueueConsumers (size (q_consumers q)) (q_name q)])
    (λ acc, Unlock p (k acc))))).

(** [for _, q := range b.queues { ... }] *)
Fixpoint collect_queues_of (qs : list (string * loc)) (acc : list Sample) (k : list Sample → code) : code :=
  match qs with
  | [] => k acc
  | (_, p) :: qs' => g_collect_queue p acc (λ acc, collect_queues_of qs' acc k)
  end.

Definition g_Collect (k : list Sample → code) : code :=
  Sec (gets (λ w, size (w_connections w))) (λ n,
  Sec (gets w_broker) (λ b,
  Sec (range (map_to_list (b_queues b))) (λ qs,
  collect_queues_of qs [SConnections n; SQueues (size (b_queues b)); SExchanges (size (b_exchanges b))] k))).

Definition body (l : label) : code :=
  match l with
  | LHandle r => g_HandleConnection r
  | LServe p => g_Serve p
  | LDispatch p => Lock p (Jump (LCheck p))
  | LCheck p => g_dispatch_check p
  | LScrape => g_Collect (λ _, Ret)
  end.
End code.

(** ** The scheduler *)

(** A goroutine runs, sleeps in [q.cond.Wait()], or is blocked for ever in a write. *)
Inductive thread : Type :=
| Running (c : code)
| Asleep (q : loc) (k : code)
| Blocked_write.

Abbreviation tid := nat.

(** The store, the owner of each [q.mu] that is held, and the goroutines. *)
Record Proc := mkProc { p_world : World; p_locks : gmap loc tid; p_threads : gmap tid thread }.

Definition set_thread (t : tid) (th : thread) (s : Proc) : Proc :=
  mkProc (p_world s) (p_locks s) (<[t := th]> (p_threads s)).

Section sched.
Context `{Oracle}.

(** One step of goroutine [t]. *)
Inductive tstep (t : tid) : Proc → Proc → Prop :=
| t_jump w ls ts l :
    ts !! t = Some (Running (Jump l)) →
    tstep t (mkProc w ls ts) (mkProc w ls (<[t := Running (body l)]> ts))
| t_sec w w' ls ts B (m : M B) (k : B → code) b :
    ts !! t = Some (Running (Sec m k)) → m w = Done b w' →
    tstep t (mkProc w ls ts) (mkProc w' ls (<[t := Running (k b)]> ts))
| t_block w w' ls ts B (m : M B) (k : B → code) :
    ts !! t = Some (Running (Sec m k)) → m w = Blocked w' →
    tstep t (mkProc w ls ts) (mkProc w' ls (<[t := Blocked_write]> ts))
| t_lock w ls ts p k :
    ts !! t = Some (Running (Lock p k)) → ls !! p = None →
    tstep t (mkProc w ls ts) (mkProc w (<[p := t]> ls) (<[t := Running k]> ts))
| t_unlock w ls ts p k :
    ts !! t = Some (Running (Unlock p k)) → ls !! p = Some t →
    tstep t (mkProc w ls ts) (mkProc w (delete p ls) (<[t := Running k]> ts))
| t_wait w ls ts p k :
    ts !! t = Some (Running (Wait p k)) → ls !! p = Some t →
    tstep t (mkProc w ls ts) (mkProc w (delete p ls) (<[t := Asleep p k]> ts))
| t_wake w ls ts p k t' k' :
    ts !! t = Some (Running (Signal p k)) → ts !! t' = Some (Asleep p k') →
    tstep t (mkProc w ls ts) (mkProc w ls (<[t := Running k]> (<[t' := Running (Lock p k')]> ts)))
| t_signal w ls ts p k :
    ts !! t = Some (Running (Signal p k)) → (∀ t' k', ts !! t' ≠ Some (Asleep p k')) →
    tstep t (mkProc w ls ts) (mkProc w ls (<[t := Running k]> ts))
| t_go w ls ts l k t' :
    ts !! t = Some (Running (Go l k)) → ts !! t' = None →
    tstep t (mkProc w ls ts) (mkProc w ls (<[t' := Running (Jump l)]> (<[t := Running k]> ts))).

(** The process: a goroutine steps, a connection is accepted, a socket fails, the
    metrics are scraped. *)
Inductive pstep : Proc → Proc → Prop :=
| p_thread t s s' : tstep t s s' → pstep s s'
| p_accept r w ls ts t :
    ts !! t = None → pstep (mkProc w ls ts) (mkProc w ls (<[t := Running (Jump (LHandle r))]> ts))
| p_network p c e w ls ts :
    w_conn w !! p = Some c →
    pstep (mkProc w ls ts) (mkProc (with_conn (<[p := set_broken (Some e) c]> (w_conn w)) w) ls ts)
| p_scrape w ls ts t :
    ts !! t = None → pstep (mkProc w ls ts) (mkProc w ls (<[t := Running (Jump LScrape)]> ts)).

Definition boot (cfg : ServerConfig) : Proc := mkProc (NewServer cfg) ∅ ∅.

Definition running (cfg : ServerConfig) (s : Proc) : Prop := rtc pstep (boot cfg) s.
End sched.
