(* ===== verification/Schedules.v ===== *)
(** * Executable schedules

    The scheduler of [Goroutines] as a function of a script that says which goroutine
    steps next, sound for [pstep]. *)

From S2P Require Import Prelude GoJson Protocol State Transport Queue Exchange Broker Channel Connection Server Goroutines.

(** The goroutine [Signal] wakes, if one sleeps on [q]. *)
Definition sleeper (q : loc) (ts : gmap tid thread) : option (tid * code) :=
  head (omap (λ '(t, th), match th with
                          | Asleep q' k => if decide (q' = q) then Some (t, k) else None
                          | _ => None
                          end) (map_to_list ts)).

Lemma sleeper_Some q ts t k : sleeper q ts = Some (t, k) → ts !! t = Some (Asleep q k).
Proof.
  unfold sleeper. intros E. apply head_Some_elem_of, list_elem_of_omap in E as ([t' th] & Hin & E).
  apply elem_of_map_to_list in Hin. destruct th; try done. case_decide; by simplify_eq.
Qed.

Lemma sleeper_None q ts t k : sleeper q ts = None → ts !! t ≠ Some (Asleep q k).
Proof.
  unfold sleeper. intros E%head_None Ht.
  assert ((t, k) ∈ @nil (tid * code)) as []%elem_of_nil. rewrite <-E.
  apply list_elem_of_omap. exists (t, Asleep q k). split; [by apply elem_of_map_to_list|]. by rewrite decide_True.
Qed.

Inductive Schedule : Type :=
| SRun (t : tid) (n : nat)
| SAccept (r : Reader)
| SNetwork (p : loc) (e : string)
| SScrape.

Section exec.
Context `{Oracle}.

(** One step of goroutine [t]. *)
Definition trun (t : tid) (s : Proc) : option Proc :=
  let '(mkProc w ls ts) := s in
  match ts !! t with
  | Some (Running c) =>
      match c with
      | Ret => None
      | Jump l => Some (mkProc w ls (<[t := Running (body l)]> ts))
      | Sec m k =>
          match m w with
          | Done b w' => Some (mkProc w' ls (<[t := Running (k b)]> ts))
          | Blocked w' => Some (mkProc w' ls (<[t := Blocked_write]> ts))
          | Panicked => None
          end
      | Lock p k =>
          match ls !! p with
          | None => Some (mkProc w (<[p := t]> ls) (<[t := Running k]> ts))
          | Some _ => None
          end
      | Unlock p k =>
          if decide (ls !! p = Some t) then Some (mkProc w (delete p ls) (<[t := Running k]> ts)) else None
      | Wait p k =>
          if decide (ls !! p = Some t) then Some (mkProc w (delete p ls) (<[t := Asleep p k]> ts)) else None
      | Signal p k =>
          match sleeper p ts with
          | Some (t', k') => Some (mkProc w ls (<[t := Running k]> (<[t' := Running (Lock p k')]> ts)))
          | None => Some (mkProc w ls (<[t := Running k]> ts))
          end
      | Go l k =>
          Some (mkProc w ls (<[fresh (dom ts) := Running (Jump l)]> (<[t := Running k]> ts)))
      end
  | _ => None
  end.

Lemma trun_tstep t s s' : trun t s = Some s' → tstep t s s'.
Proof.
  destruct s as [w ls ts]. cbn [trun]. destruct (ts !! t) as [[c| |]|] eqn:Ht; [|done..].
  destruct c; intros E; simplify_eq.
  - by apply t_jump.
  - destruct (m w) eqn:Em; simplify_eq; [by eapply t_sec|by eapply t_block].
  - destruct (ls !! q) eqn:El; simplify_eq. by eapply t_lock.
  - case_decide; simplify_eq. by eapply t_unlock.
  - case_decide; simplify_eq. by eapply t_wait.
  - destruct (sleeper q ts) as [[t' k']|] eqn:Es; simplify_eq.
    + eapply t_wake; [done|]. by apply sleeper_Some.
    + eapply t_signal; [done|]. intros t' k'. by apply sleeper_None.
  - eapply t_go; [done|]. apply not_elem_of_dom, is_fresh.
Qed.

Fixpoint trun_n (n : nat) (t : tid) (s : Proc) : option Proc :=
  match n with
  | O => Some s
  | S n' => match trun t s with Some s' => trun_n n' t s' | None => None end
  end.

Definition schedule_one (a : Schedule) (s : Proc) : option Proc :=
  match a with
  | SRun t n => trun_n n t s
  | SAccept r =>
      Some (mkProc (p_world s) (p_locks s)
              (<[fresh (dom (p_threads s)) := Running (Jump (LHandle r))]> (p_threads s)))
  | SNetwork p e =>
      match w_conn (p_world s) !! p with
      | Some c => Some (mkProc (with_conn (<[p := set_broken (Some e) c]> (w_conn (p_world s))) (p_world s))
                          (p_locks s) (p_threads s))
      | None => None
      end
  | SScrape =>
      Some (mkProc (p_world s) (p_locks s)
              (<[fresh (dom (p_threads s)) := Running (Jump LScrape)]> (p_threads s)))
  end.

Fixpoint schedule (l : list Schedule) (s : Proc) : option Proc :=
  match l with
  | [] => Some s
  | a :: l' => match schedule_one a s with Some s' => schedule l' s' | None => None end
  end.

Lemma trun_n_steps n t s s' : trun_n n t s = Some s' → rtc pstep s s'.
Proof.
  revert s. induction n as [|n IH]; intros s E; cbn [trun_n] in E; [by simplify_eq|].
  destruct (trun t s) as [s1|] eqn:Et; [|done]. eapply rtc_l; [|by apply IH].
  eapply p_thread. by apply trun_tstep.
Qed.

Lemma schedule_one_steps a s s' : schedule_one a s = Some s' → rtc pstep s s'.
Proof.
  destruct a as [t n|r|p e|]; cbn [schedule_one].
  - apply trun_n_steps.
  - destruct s as [w ls ts]; cbn [p_world p_locks p_threads]. intros [= <-]. apply rtc_once, p_accept, not_elem_of_dom, is_fresh.
  - destruct s as [w ls ts]; cbn [p_world p_locks p_threads]. intros E. apply rtc_once.
    destruct (w_conn w !! p) eqn:Ec; simplify_eq. by eapply p_network.
  - destruct s as [w ls ts]; cbn [p_world p_locks p_threads]. intros [= <-]. apply rtc_once, p_scrape, not_elem_of_dom, is_fresh.
Qed.

Lemma schedule_running cfg l s : schedule l (boot cfg) = Some s → running cfg s.
Proof.
  unfold running. generalize (boot cfg) as s0. induction l as [|a l IH]; intros s0 E; cbn [schedule] in E.
  { by simplify_eq. }
  destruct (schedule_one a s0) as [s1|] eqn:Ea; [|done]. etrans; [by eapply schedule_one_steps|]. by apply IH.
Qed.
End exec.
