(* ===== verification/Rely.v ===== *)
(** * Reasoning about goroutines: rely and guarantee

    What a goroutine may rely on while others run depends on the [q.mu] it holds:
    nothing is ever freed, names and back pointers never change, the queue whose lock
    it holds is untouched, and the consumers of that queue only get emptier.  [safe]
    says that a goroutine keeps the invariant of the store up to a debt it will pay
    back, guarantees to the others what they rely on, never panics, holds at most one
    [q.mu] at a time and gives it back; [Inv_proc] lifts that to the whole process. *)

From S2P Require Import Prelude GoJson Protocol State Transport Queue Exchange Broker Channel Connection Invariant Accounting Frame Server Goroutines.

(** ** What others may do *)

(** A consumer that holds no more messages than its counter says. *)
Definition within (co : Consumer) : Prop := Z.of_nat (size (c_pendingMessages co)) ≤ c_inflight co.

(** A delivery of queue [p] has failed: its counter of such errors has moved. *)
Definition failed_delivery (w : World) (p : loc) : Prop :=
  ∃ q, w_queue w !! p = Some q ∧ DeliverErrors (q_name q) ∈ w_metrics w.

(** The counter of consumer [c] covers what it holds, up to failed deliveries of its queue:
    a dispatch goroutine that takes a message back after a failed write decrements the
    counter also when the message was acknowledged, rejected or returned meanwhile. *)
Definition covered (w : World) (c : loc) : Prop :=
  ∀ co, w_consumer w !! c = Some co → within co ∨ failed_delivery w (c_queue co).

(** The environment of a goroutine that holds the lock [h]. *)
Record rely (h : option loc) (w w' : World) : Prop := {
  rl_names : ∀ n p, b_queues (w_broker w) !! n = Some p → b_queues (w_broker w') !! n = Some p;
  rl_queue : ∀ p q, w_queue w !! p = Some q →
    ∃ q', w_queue w' !! p = Some q' ∧ q_name q' = q_name q ∧ (h = Some p → q' = q);
  rl_exchange : ∀ p, is_Some (w_exchange w !! p) → is_Some (w_exchange w' !! p);
  rl_consumer : ∀ c co, w_consumer w !! c = Some co →
    ∃ co', w_consumer w' !! c = Some co' ∧ c_skel co' = c_skel co ∧
      (h = Some (c_queue co) → c_inflight co' ≤ c_inflight co);
  rl_channel : ∀ p, is_Some (w_channel w !! p) → is_Some (w_channel w' !! p);
  rl_conn : ∀ p, is_Some (w_conn w !! p) → is_Some (w_conn w' !! p);
  rl_metrics : ∀ m, m ∈ w_metrics w → m ∈ w_metrics w';
  rl_covered : ∀ c, covered w c → covered w' c;
}.

(** What a goroutine that holds [h] does to others. *)
Definition guar (h : option loc) (w w' : World) : Prop := ∀ h', h' = None ∨ h' ≠ h → rely h' w w'.

#[export] Instance rely_preorder h : PreOrder (rely h).
Proof.
  split.
  - intros w. split; eauto 10 with lia.
  - intros w1 w2 w3 R1 R2. split.
    + intros n p Hn. by apply (rl_names _ _ _ R2), (rl_names _ _ _ R1).
    + intros p q Hq. destruct (rl_queue _ _ _ R1 _ _ Hq) as (q2 & Hq2 & E2 & F2).
      destruct (rl_queue _ _ _ R2 _ _ Hq2) as (q3 & Hq3 & E3 & F3). exists q3. split_and!; [done|congruence|].
      intros Hh. by rewrite F3, F2.
    + intros p Hp. by apply (rl_exchange _ _ _ R2), (rl_exchange _ _ _ R1).
    + intros c co Hc. destruct (rl_consumer _ _ _ R1 _ _ Hc) as (c2 & Hc2 & E2 & F2).
      destruct (rl_consumer _ _ _ R2 _ _ Hc2) as (c3 & Hc3 & E3 & F3). exists c3. split_and!; [done|congruence|].
      intros Hh. assert (c_queue c2 = c_queue co) as Eq by (unfold c_skel in E2; congruence).
      specialize (F2 Hh). rewrite <-Eq in Hh. specialize (F3 Hh). lia.
    + intros p Hp. by apply (rl_channel _ _ _ R2), (rl_channel _ _ _ R1).
    + intros p Hp. by apply (rl_conn _ _ _ R2), (rl_conn _ _ _ R1).
    + intros m Hm. by apply (rl_metrics _ _ _ R2), (rl_metrics _ _ _ R1).
    + intros c Hc. by apply (rl_covered _ _ _ R2), (rl_covered _ _ _ R1).
Qed.

#[export] Instance guar_preorder h : PreOrder (guar h).
Proof. split; [by intros w h' _|]. intros w1 w2 w3 G1 G2 h' Hh. etrans; eauto. Qed.

Lemma rely_None h w w' : rely h w w' → rely None w w'.
Proof.
  intros [Rn Rq Re Rc Rch Rcn Rm Rh]. split; [done| |done| |done..].
  - intros p q Hq. destruct (Rq p q Hq) as (q' & ? & ? & _). by exists q'.
  - intros c co Hc. destruct (Rc c co Hc) as (co' & ? & ? & _). by exists co'.
Qed.

Lemma guar_rely h w w' : guar h w w' → rely None w w'.
Proof. intros G. apply G. by left. Qed.

(** ** Guarantees of single updates *)

Section guarantees.
Implicit Types (w : World) (h : option loc).

Lemma failed_delivery_mono w w' p :
  (∀ q, w_queue w !! p = Some q → ∃ q', w_queue w' !! p = Some q' ∧ q_name q' = q_name q) →
  (∀ m, m ∈ w_metrics w → m ∈ w_metrics w') → failed_delivery w p → failed_delivery w' p.
Proof.
  intros Hq Hm (q & Hp & Hf). destruct (Hq q Hp) as (q' & ? & En). exists q'. split; [done|].
  rewrite En. by apply Hm.
Qed.

(** No consumer changes, queues keep their names, counters only grow. *)
Lemma covered_mono w w' c :
  w_consumer w' = w_consumer w →
  (∀ p q, w_queue w !! p = Some q → ∃ q', w_queue w' !! p = Some q' ∧ q_name q' = q_name q) →
  (∀ m, m ∈ w_metrics w → m ∈ w_metrics w') → covered w c → covered w' c.
Proof.
  intros Ec Hq Hm Hc co. rewrite Ec. intros [?|?]%Hc; [by left|right].
  by apply (failed_delivery_mono w); [apply Hq|..].
Qed.

(** Nothing of what others look at changes. *)
Lemma guar_same h w w' :
  w_broker w' = w_broker w → w_queue w' = w_queue w → w_exchange w' = w_exchange w → w_consumer w' = w_consumer w →
  w_channel w' = w_channel w → (∀ p, is_Some (w_conn w !! p) → is_Some (w_conn w' !! p)) →
  (∀ m, m ∈ w_metrics w → m ∈ w_metrics w') → guar h w w'.
Proof.
  intros Eb Eq Ee Ec Ech Hcn Hm h' _. split; try rewrite ?Eb, ?Eq, ?Ee, ?Ec, ?Ech; try done; [by eauto|..].
  - intros c co Hc. exists co. split_and!; [done..|lia].
  - intros c. apply covered_mono; [done| |done]. rewrite Eq. eauto.
Qed.

Lemma guar_logged h w m : guar h w (logged m w).
Proof. apply guar_same; try done. simpl. set_solver. Qed.

Lemma guar_ticked h w : guar h w (ticked w).
Proof. by apply guar_same. Qed.

Lemma guar_io_eq h w w' : io_eq w w' → guar h w w'.
Proof.
  intros Hio. pose proof (io_eq_conn w w') as Hc. apply guar_same; try by destruct Hio.
  - intros p. by apply Hc.
  - by rewrite (io_metrics _ _ Hio).
Qed.

Lemma guar_put_conn h w p c : guar h w (with_conn (<[p := c]> (w_conn w)) w).
Proof. apply guar_same; try done. intros p' Hp. simpl. rewrite lookup_insert_is_Some'. by right. Qed.

Lemma guar_upd_queue h w p q q' :
  w_queue w !! p = Some q → q_name q' = q_name q → h = Some p → guar h w (upd_queue p q' w).
Proof.
  intros Hq En -> h' Hh. split; simpl; try done.
  - intros p' q0 Hq0. destruct (decide (p' = p)) as [->|Hne].
    + simplify_eq. rewrite lookup_insert_eq. exists q'. split_and!; [done..|]. intros ->. naive_solver.
    + rewrite lookup_insert_ne by done. eauto.
  - intros c co Hc. exists co. split_and!; [done..|lia].
  - intros c. apply covered_mono; [done| |done]. intros p' q0 Hq0. simpl. rewrite lookup_insert.
    case_decide; simplify_eq; eauto.
Qed.

Lemma guar_upd_consumer h w c co co' :
  w_consumer w !! c = Some co → c_skel co' = c_skel co →
  (h = Some (c_queue co) ∨ c_inflight co' ≤ c_inflight co) →
  ((within co → within co') ∨ failed_delivery w (c_queue co)) → guar h w (upd_consumer c co' w).
Proof.
  intros Hc Es Hi Hw h' Hh. split; simpl; try done; [by eauto|..].
  - intros c0 co0 Hc0. destruct (decide (c0 = c)) as [->|Hne].
    + rewrite Hc in Hc0. injection Hc0 as <-. rewrite lookup_insert_eq. exists co'. split_and!; [done..|].
      intros ->. clear Es Hw. naive_solver.
    + rewrite lookup_insert_ne by done. exists co0. split_and!; [done..|lia].
  - intros c0 Hh0 co0. simpl. intros [[<- <-]|[_ ?]]%lookup_insert_Some; [|by apply Hh0].
    assert (c_queue co' = c_queue co) as -> by (unfold c_skel in Es; congruence).
    destruct Hw as [Hw|?]; [|by right]. destruct (Hh0 co Hc) as [?|?]; [left; by apply Hw|by right].
Qed.

Lemma guar_put_channel h w p ch : guar h w (with_channel (<[p := ch]> (w_channel w)) w).
Proof.
  intros h' _. split; simpl; try done; [by eauto| |].
  - intros c co Hc. exists co. split_and!; [done..|lia].
  - intros p' Hp. rewrite lookup_insert_is_Some'. by right.
Qed.

Lemma guar_new_consumer h w c co : w_consumer w !! c = None → within co → guar h w (upd_consumer c co w).
Proof.
  intros Hc Hw h' _. split; simpl; try done; [by eauto|..].
  - intros c' co' Hc'. exists co'. rewrite lookup_insert_ne by congruence. split_and!; [done..|lia].
  - intros c' Hh co'. simpl. intros [[_ <-]|[_ ?]]%lookup_insert_Some; [by left|by apply Hh].
Qed.
End guarantees.

(** ** What a consumer holds *)

Lemma within_took msg co : within co → within (took msg co).
Proof.
  unfold within, took; simpl. rewrite map_size_insert.
  destruct (c_pendingMessages co !! m_DeliveryTag msg); simpl; lia.
Qed.

Lemma within_released t co : is_Some (c_pendingMessages co !! t) → within co → within (released t co).
Proof.
  unfold within, released; simpl. rewrite map_size_delete. intros [m Hm]. rewrite Hm.
  assert (size (c_pendingMessages co) ≠ 0%nat) by (apply (map_size_ne_0_lookup_2 _ t); eauto).
  simpl. lia.
Qed.

(** Every pending message taken away. *)
Lemma within_emptied co msgs tags :
  msgs ≡ₚ (map_to_list (c_pendingMessages co)).*2 → within co →
  within (set_inflight (c_inflight co - Z.of_nat (length msgs)) tags ∅ co).
Proof.
  unfold within; simpl. intros ->. rewrite length_fmap, length_map_to_list, map_size_empty. lia.
Qed.

(** ** Debts *)

(** A goroutine that is between two sections of an operation may hold a message that
    no counter accounts for, or have put one into the store that is still counted
    elsewhere. *)
Inductive debt : Type := Settled | Holds (q : loc) | Twice (q : loc).

Definition amount (d : debt) (p : loc) : Z :=
  match d with
  | Settled => 0
  | Holds q => if decide (p = q) then 1 else 0
  | Twice q => if decide (p = q) then -1 else 0
  end.

Lemma amount_bound d p : -1 ≤ amount d p ≤ 1.
Proof. destruct d; simpl; repeat case_decide; lia. Qed.

(** The store while a goroutine's debt goes from [d] to [d']. *)
Definition moved (d d' : debt) (D : loc → Z) : loc → Z := λ p, D p - amount d p + amount d' p.

Ltac moved_solve := intros; unfold moved, shift; simpl; repeat case_decide; subst; try lia; try congruence.

Lemma moved_same d D w : InvD D w → InvD (moved d d D) w.
Proof. apply InvD_ext. moved_solve. Qed.

(** The queue a debt is about exists. *)
Definition debt_ok (d : debt) (w : World) : Prop :=
  match d with Settled => True | Holds q | Twice q => is_Some (w_queue w !! q) end.

(** The invariant of a store in which goroutines have debts [D] in all. *)
Definition InvC (D : loc → Z) (w : World) : Prop :=
  InvD D w ∧ ∀ p, w_queue w !! p = None → D p = 0.

(** ** Safe code *)

(** What must hold where a loop goes on. *)
Definition label_pre (l : label) (h : option loc) (w : World) : Prop :=
  match l with
  | LHandle _ | LScrape => h = None
  | LServe p => h = None ∧ is_Some (w_conn w !! p)
  | LDispatch q => h = None ∧ is_Some (w_queue w !! q)
  | LCheck q => h = Some q ∧ is_Some (w_queue w !! q)
  end.

(** [safe d h w c]: a goroutine that is about to run [c], with debt [d] and lock [h],
    and that last saw the store [w]. *)
Fixpoint safe (d : debt) (h : option loc) (w : World) (c : code) : Prop :=
  match c with
  | Ret => d = Settled ∧ h = None
  | Jump l => d = Settled ∧ label_pre l h w
  | Sec m k => ∀ w1 D, rely h w w1 → InvC D w1 →
      wp m (λ b w2, ∃ d', debt_ok d' w2 ∧ InvD (moved d d' D) w2 ∧ guar h w1 w2 ∧ safe d' h w2 (k b))
           (λ w2, d = Settled ∧ h = None ∧ InvD D w2 ∧ guar None w1 w2) w1
  | Lock p k => h = None ∧ ∀ w1, rely None w w1 → safe d (Some p) w1 k
  | Unlock p k => h = Some p ∧ safe d None w k
  | Wait p k => h = Some p ∧ d = Settled ∧ ∀ w1, rely None w w1 → safe d (Some p) w1 k
  | Signal p k => safe d h w k
  | Go l k => label_pre l None w ∧ safe d h w k
  end.

Lemma label_pre_stable l h h' w w' : rely h' w w' → label_pre l h w → label_pre l h w'.
Proof.
  intros R. destruct l; simpl; [done|..|done]; intros [-> Hp]; (split; [done|]).
  1: by apply (rl_conn _ _ _ R).
  1,2: destruct Hp as [q0 Hq]; destruct (rl_queue _ _ _ R _ _ Hq) as (q' & ? & _); by eauto.
Qed.

Lemma safe_stable d h w w' c : rely h w w' → safe d h w c → safe d h w' c.
Proof.
  revert d h. induction c as [|l|B m k IH|p k IH|p k IH|p k IH|p k IH|l k IH]; intros d h R; simpl.
  - done.
  - intros [? ?]. split; [done|]. by eapply label_pre_stable.
  - intros Hs w1 D R1. apply Hs. by etrans.
  - intros [-> Hs]. split; [done|]. intros w1 R1. apply Hs. by etrans.
  - intros [-> Hs]. split; [done|]. apply IH; [by eapply rely_None|done].
  - intros (-> & -> & Hs). split_and!; [done..|]. intros w1 R1. apply Hs. etrans; [by eapply rely_None|done].
  - by apply IH.
  - intros [? ?]. split; [by eapply label_pre_stable|by apply IH].
Qed.
