(* ===== verification/Sections.v ===== *)
(** * The code of every goroutine is safe

    One lemma per function of [Goroutines], with the facts it needs about the store its
    goroutine last saw; [safe_body] puts them together.  The sections are those of the
    sequential model, so their effects on the invariant are lemmas of [Invariant] and
    [Accounting]. *)

From S2P Require Import Prelude GoJson Protocol State Transport Queue Exchange Broker Channel Connection Invariant Accounting Frame Server Goroutines Rely.

(** ** Facts that survive what others do *)

Definition has_queue (w : World) (p : loc) : Prop := is_Some (w_queue w !! p).
Definition on_queue (w : World) (c p : loc) : Prop := ∃ co, w_consumer w !! c = Some co ∧ c_queue co = p.
Definition has_channel (w : World) (p : loc) : Prop := is_Some (w_channel w !! p).
Definition has_conn (w : World) (p : loc) : Prop := is_Some (w_conn w !! p).

(** A consumer of [p] with a free slot: it stays free while [p]'s lock is held. *)
Definition free (w : World) (c p : loc) : Prop :=
  ∃ co, w_consumer w !! c = Some co ∧ c_queue co = p ∧ c_inflight co < prefetch.

Section stable.
Context (h : option loc) (w w' : World) (R : rely h w w').

Lemma has_queue_stable p : has_queue w p → has_queue w' p.
Proof. intros [q Hq]. destruct (rl_queue _ _ _ R _ _ Hq) as (q' & ? & _). by exists q'. Qed.

Lemma on_queue_stable c p : on_queue w c p → on_queue w' c p.
Proof.
  intros (co & Hc & <-). destruct (rl_consumer _ _ _ R _ _ Hc) as (co' & ? & E & _). exists co'.
  split; [done|]. unfold c_skel in E. congruence.
Qed.

Lemma has_channel_stable p : has_channel w p → has_channel w' p.
Proof. apply (rl_channel _ _ _ R). Qed.

Lemma has_conn_stable p : has_conn w p → has_conn w' p.
Proof. apply (rl_conn _ _ _ R). Qed.

Lemma free_stable c p : h = Some p → free w c p → free w' c p.
Proof.
  intros Hh (co & Hc & <- & Hf). destruct (rl_consumer _ _ _ R _ _ Hc) as (co' & ? & E & Hle). exists co'.
  split_and!; [done|unfold c_skel in E; congruence|]. specialize (Hle Hh). lia.
Qed.

Lemma failed_delivery_stable p : failed_delivery w p → failed_delivery w' p.
Proof.
  apply failed_delivery_mono; [|by apply R]. intros q Hq.
  destruct (rl_queue _ _ _ R _ _ Hq) as (q' & ? & ? & _). by exists q'.
Qed.

Lemma queue_stable p q : h = Some p → w_queue w !! p = Some q → w_queue w' !! p = Some q.
Proof. intros Hh Hq. destruct (rl_queue _ _ _ R _ _ Hq) as (q' & ? & _ & E). by rewrite <-E. Qed.
End stable.

Create HintDb rely.
#[export] Hint Resolve has_queue_stable on_queue_stable has_channel_stable has_conn_stable free_stable queue_stable
  safe_stable rely_None guar_rely guar_logged guar_ticked guar_put_conn guar_put_channel guar_io_eq : rely.

(** ** Sections *)

Section sections.
Context `{Oracle}.
Implicit Types (w : World) (d : debt) (h : option loc).

(** A section that ends with debt [d' b] and in a store of which [Q b] holds. *)
Lemma safe_sec {B} (d' : B → debt) (Q : B → World → Prop) d h w (m : M B) (k : B → code) :
  (∀ w1 D, rely h w w1 → InvC D w1 →
     wp m (λ b w2, debt_ok (d' b) w2 ∧ InvD (moved d (d' b) D) w2 ∧ guar h w1 w2 ∧ Q b w2)
       (λ w2, d = Settled ∧ h = None ∧ InvD D w2 ∧ guar None w1 w2) w1) →
  (∀ b w2, rely None w w2 → Q b w2 → safe (d' b) h w2 (k b)) → safe d h w (Sec m k).
Proof.
  intros Hm Hk w1 D R Hinv. eapply wp_mono; [| |by apply Hm]; [|done].
  intros b w2 (? & ? & Hg & HQ). exists (d' b). split_and!; [done..|]. apply Hk; [|done].
  etrans; [by eapply rely_None|by eapply guar_rely].
Qed.

(** A section that changes nothing others rely on and leaves the accounts alone. *)
Lemma safe_inert {B} (Q : B → World → Prop) d h w (m : M B) (k : B → code) :
  debt_ok d w →
  (∀ w1 D, rely h w w1 → InvC D w1 → wp m (λ b w2, InvD D w2 ∧ guar None w1 w2 ∧ Q b w2) (λ _, False) w1) →
  (∀ b w2, rely h w w2 → Q b w2 → safe d h w2 (k b)) → safe d h w (Sec m k).
Proof.
  intros Hd Hm Hk. apply (safe_sec (λ _, d) (λ b w2, rely h w w2 ∧ Q b w2)).
  - intros w1 D R Hinv. eapply wp_mono; [| |by apply Hm]; [|done]. intros b w2 (Hi & Hg & HQ).
    assert (rely h w1 w2) as Rg by (apply Hg; destruct h; auto).
    split_and!; [|by apply moved_same|intros h' _; apply Hg; destruct h'; by auto|by etrans|done].
    destruct d; simpl in *; [done|..]; (eapply has_queue_stable; [|exact Hd]); by etrans.
  - intros b w2 _ [R HQ]. by apply Hk.
Qed.

Lemma safe_gets {A} (f : World → A) d h w (k : A → code) :
  debt_ok d w → (∀ w1 D, rely h w w1 → InvC D w1 → safe d h w1 (k (f w1))) → safe d h w (Sec (gets f) k).
Proof.
  intros Hd Hk. apply (safe_inert (λ a w2, a = f w2 ∧ ∃ D, InvC D w2)); [done|..].
  - intros w1 D R Hinv. wp_run. split_and!; [apply Hinv|reflexivity|done|by exists D].
  - intros a w2 R [-> [D HD]]. by eapply Hk.
Qed.

Lemma safe_deref {A} (f : World → option A) d h w (k : A → code) :
  debt_ok d w → (∀ w1, rely h w w1 → is_Some (f w1)) →
  (∀ w1 D a, rely h w w1 → InvC D w1 → f w1 = Some a → safe d h w1 (k a)) → safe d h w (Sec (deref f) k).
Proof.
  intros Hd Hf Hk. apply (safe_inert (λ a w2, f w2 = Some a ∧ ∃ D, InvC D w2)); [done|..].
  - intros w1 D R Hinv. destruct (Hf w1 R) as [a Ha]. eapply wp_deref; [done|].
    split_and!; [apply Hinv|reflexivity|done|by exists D].
  - intros a w2 R [? [D HD]]. by eapply Hk.
Qed.

(** A metric call that says nothing about the contents of queues. *)
Lemma safe_inc d h w m (k : unit → code) :
  debt_ok d w → (∀ n, metric_weight n m = 0) → safe d h w (k tt) → safe d h w (Sec (inc m) k).
Proof.
  intros Hd Hm Hk. apply (safe_inert (λ _ _, True)); [done|..].
  - intros w1 D R [Hinv _]. unfold inc. wp_run. split_and!; [by apply inv_logged_neutral|apply guar_logged|done].
  - intros [] w2 R _. by eapply safe_stable.
Qed.

(** [for range] over what is read in the same section. *)
Lemma safe_range {A C} (f : World → option A) (g : A → list C) d h w (k : list C → code) :
  debt_ok d w → (∀ w1, rely h w w1 → is_Some (f w1)) →
  (∀ w1 D a l, rely h w w1 → InvC D w1 → f w1 = Some a → l ≡ₚ g a → safe d h w1 (k l)) →
  safe d h w (Sec (a ← deref f; range (g a)) k).
Proof.
  intros Hd Hf Hk. apply (safe_inert (λ l w2, safe d h w2 (k l))); [done|..].
  - intros w1 D R Hinv. destruct (Hf w1 R) as [a Ha]. wp_step. eapply wp_deref; [done|].
    apply wp_range. intros l Hl. split_and!; [by apply inv_ticked, Hinv|apply guar_ticked|].
    eapply safe_stable; [apply (guar_ticked None); destruct h; by auto|by eapply Hk].
  - done.
Qed.

(** A write to a connection, which may block. *)
Lemma safe_write {B} w (m : M B) (k : B → code) :
  (∀ w1 D, rely None w w1 → InvD D w1 → wp m (λ _, io_eq w1) (io_eq w1) w1) →
  (∀ b, safe Settled None w (k b)) → safe Settled None w (Sec m k).
Proof.
  intros Hm Hk w1 D R [Hinv _]. eapply wp_mono; [| |by eapply Hm].
  - intros b w2 Hio. exists Settled. split_and!; [done|apply moved_same; by rewrite <-Hio|by apply guar_io_eq|].
    eapply safe_stable; [|apply Hk]. etrans; [done|]. apply (guar_rely None). by apply guar_io_eq.
  - intros w2 Hio. split_and!; [done..|by rewrite <-Hio|by apply guar_io_eq].
Qed.

Lemma safe_for_each {A} d w (l : list A) body k :
  (∀ x w' k', x ∈ l → rely None w w' → safe d None w' k' → safe d None w' (body x k')) →
  safe d None w k → safe d None w (for_each l body k).
Proof.
  intros Hb Hk. induction l as [|x l IH]; [done|]. simpl. apply Hb; [set_solver|done|].
  apply IH. intros. apply Hb; [set_solver|done..].
Qed.
End sections.

(** ** queue.go *)

Section queues.
Context `{Oracle}.
Implicit Types (w : World) (d : debt) (h : option loc).

(** The queue whose lock is held gets new contents. *)
Lemma safe_put_messages {B} d d' p w (m : M B) (k : B → code) (P : B → Queue → Prop) :
  has_queue w p → debt_ok d' w →
  (∀ w1 q, rely (Some p) w w1 → w_queue w1 !! p = Some q →
     wp m (λ b w2, ∃ l, w2 = upd_queue p (set_messages l q) w1 ∧ P b (set_messages l q) ∧
       ∀ p', amount d' p' = amount d p' +
               (if decide (p' = p) then Z.of_nat (length (q_messages q)) - Z.of_nat (length l) else 0))
       (λ _, False) w1) →
  (∀ b w2 q, rely None w w2 → w_queue w2 !! p = Some q → P b q →
     (∀ c, free w c p → free w2 c p) → safe d' (Some p) w2 (k b)) →
  safe d (Some p) w (Sec m k).
Proof.
  intros Hq Hd Hm Hk. apply (safe_sec (λ _, d') (λ b w2, (∃ q, w_queue w2 !! p = Some q ∧ P b q) ∧
    ∀ c, free w c p → free w2 c p)).
  - intros w1 D R [Hinv _]. destruct (has_queue_stable _ _ _ R p Hq) as [q Hq1].
    eapply wp_mono; [| |by apply (Hm w1 q)]; [|done]. intros b w2 (l & -> & HP & Ha).
    assert (guar (Some p) w1 (upd_queue p (set_messages l q) w1)) as Hg by (by eapply guar_upd_queue).
    split_and!; [| |done|by eexists; simpl; rewrite lookup_insert_eq|].
    + destruct d'; [done|..]; (eapply has_queue_stable; [by eapply guar_rely|]);
        (eapply has_queue_stable; [exact R|exact Hd]).
    + eapply InvD_ext; [|by eapply (inv_upd_queue D p q)]. intros p' _. unfold moved, shift. rewrite Ha.
      simpl. case_decide; lia.
    + intros c Hf. destruct (free_stable _ _ _ R c p) as (co & ? & ? & ?); [done..|]. by exists co.
  - intros b w2 R [(q & ? & ?) ?]. by eapply Hk.
Qed.

Lemma safe_push_front d d' p w msg (k : unit → code) :
  has_queue w p → debt_ok d' w → (∀ p', amount d' p' = amount d p' - if decide (p' = p) then 1 else 0) →
  (∀ w2, rely None w w2 → safe d' (Some p) w2 (k tt)) → safe d (Some p) w (Sec (push_front p msg) k).
Proof.
  intros Hq Hd Ha Hk. apply (safe_put_messages d d' p w _ _ (λ _ _, True)); [done..| |].
  - intros w1 q R Hq1. unfold push_front; unfold_prims. wp_run. eexists. split_and!; [done..|].
    intros p'. rewrite Ha. simpl. case_decide; lia.
  - intros [] w2 q R _ _ _. by apply Hk.
Qed.

Lemma safe_push_back p w msg (k : unit → code) :
  has_queue w p → (∀ w2, rely None w w2 → safe Settled (Some p) w2 (k tt)) →
  safe (Holds p) (Some p) w (Sec (push_back p msg) k).
Proof.
  intros Hq Hk. apply (safe_put_messages _ Settled p w _ _ (λ _ _, True)); [done..| |].
  - intros w1 q R Hq1. unfold push_back; unfold_prims. wp_run. eexists. split_and!; [done..|].
    intros p'. rewrite length_app. simpl. case_decide; lia.
  - intros [] w2 q R _ _ _. by apply Hk.
Qed.

(** A metric call about queue [p] that moves a debt. *)
Lemma safe_inc_queue d d' h p w f x (k : unit → code) :
  has_queue w p → debt_ok d' w →
  (∀ n n', metric_weight n' (f n) = if decide (n = n') then x else 0) →
  (∀ p', amount d' p' = amount d p' + if decide (p' = p) then x else 0) →
  safe d' h w (k tt) → safe d h w (Sec (inc_queue f p) k).
Proof.
  intros Hq Hd Hf Ha Hk. apply (safe_sec (λ _, d') (λ _ w2, rely h w w2)).
  - intros w1 D R [Hinv _]. destruct (has_queue_stable _ _ _ R p Hq) as [q Hq1].
    unfold inc_queue, inc; unfold_prims. wp_run. split_and!; [| |apply guar_logged|etrans; [done|]].
    + destruct d'; [done|..]; by apply (has_queue_stable _ _ _ R).
    + eapply InvD_ext; [|by eapply (inv_logged_queue D _ w1 p q x)]. intros p' _. unfold moved, shift.
      rewrite Ha. case_decide; lia.
    + apply (guar_logged None). destruct h; auto.
  - intros [] w2 _ R. by eapply safe_stable.
Qed.

Lemma safe_inc_queue_neutral d h p w f (k : unit → code) :
  has_queue w p → debt_ok d w → (∀ n n', metric_weight n' (f n) = 0) →
  safe d h w (k tt) → safe d h w (Sec (inc_queue f p) k).
Proof.
  intros Hq Hd Hf. apply (safe_inc_queue _ _ _ _ _ _ 0); [done..| |].
  - intros n n'. rewrite Hf. by case_decide.
  - intros. case_decide; lia.
Qed.

(** The counter of failed deliveries remembers that there was one. *)
Lemma safe_inc_failed p w (k : unit → code) :
  has_queue w p → (∀ w2, rely None w w2 → failed_delivery w2 p → safe Settled None w2 (k tt)) →
  safe Settled None w (Sec (inc_queue DeliverErrors p) k).
Proof.
  intros Hq Hk. apply (safe_inert (λ _ w2, failed_delivery w2 p)); [done|..].
  - intros w1 D R [Hinv _]. destruct (has_queue_stable _ _ _ R p Hq) as [q Hq1].
    unfold inc_queue, inc; unfold_prims. wp_run. split_and!; [by apply inv_logged_neutral|apply guar_logged|].
    exists q. split; [done|]. simpl. set_solver.
  - intros [] w2 R Hf. by apply Hk.
Qed.

Lemma safe_g_enqueue p w msg k :
  has_queue w p → safe Settled None w k → safe Settled None w (g_enqueue p msg k).
Proof.
  intros Hq Hk. unfold g_enqueue. apply (safe_inc_queue _ (Holds p) _ _ _ _ 1); [done..|].
  split; [done|]. intros w1 R. apply safe_push_back; [by eapply has_queue_stable|].
  intros w2 R2. split; [done|]. simpl. eapply safe_stable; [|done]. by etrans.
Qed.

Lemma guar_add_consumer p q c w :
  w_queue w !! p = Some q → guar (Some p) w (upd_queue p (set_consumers (q_consumers q ∪ {[c]}) q) w).
Proof. intros. by eapply guar_upd_queue. Qed.

Lemma safe_g_registerConsumer p c w k :
  on_queue w c p → has_queue w p → safe Settled None w k → safe Settled None w (g_registerConsumer p c k).
Proof.
  intros Hc Hq Hk. split; [done|]. intros w1 R1. apply (safe_sec (λ _, Settled) (λ _ _, True)).
  - intros w2 D R2 [Hinv _]. destruct (has_queue_stable _ _ _ R2 p) as [q Hq2]; [by eapply has_queue_stable|].
    unfold_prims. wp_run. split_and!; [done| |by apply guar_add_consumer|done].
    apply moved_same, inv_set_consumers; [done| |done].
    intros c' [Hc'| ->%elem_of_singleton]%elem_of_union.
    + by eapply (wf_queue_consumer w2 (inv_wf _ _ Hinv)).
    + eapply on_queue_stable; [exact R2|]. by eapply on_queue_stable.
  - intros [] w2 R2 _. split; [done|]. simpl. eapply safe_stable; [|done]. by etrans.
Qed.

(** The messages a consumer holds go back to the queue whose lock is held. *)
Lemma wp_return_pending D p c w q co :
  w_queue w !! p = Some q → w_consumer w !! c = Some co → c_queue co = p → InvD D w →
  wp (return_pending p c) (λ _ w2, InvD D w2 ∧ guar (Some p) w w2) (λ _, False) w.
Proof.
  intros Hq Hco <- Hinv. unfold return_pending; unfold_prims. wp_step. eapply wp_deref; [exact Hco|].
  wp_step. apply wp_range. intros l Hl. wp_step.
  eapply wp_mono; [| |eapply (wp_requeue_loop _ c l (ticked w) q co); [exact Hq|exact Hco]]; [|done].
  intros [] w2 (tags & -> & Htags). wp_step. eapply wp_deref; [simpl; by rewrite lookup_insert_eq|]. wp_run.
  set (msgs := reverse l.*2).
  set (co' := set_inflight (c_inflight co - Z.of_nat (length msgs)) tags ∅ co).
  set (q' := set_messages (msgs ++ q_messages q) q).
  assert (msgs ≡ₚ (map_to_list (c_pendingMessages co)).*2) as Hm by (unfold msgs; by rewrite reverse_Permutation, Hl).
  eapply (eq_rect (upd_consumer c co' (upd_queue (c_queue co) q' (ticked w))) (λ x, InvD D x ∧ guar _ w x)).
  2: { unfold upd_consumer, upd_queue, with_consumer; simpl. rewrite insert_insert_eq. unfold co', msgs.
       by rewrite length_reverse, length_fmap. }
  assert (consumer_ok co') as Hok.
  { eapply emptied_ok; [exact Hm| |by eapply inv_consumer]. intros t. rewrite Htags. unfold msgs.
    by rewrite (reverse_Permutation l.*2). }
  split.
  - eapply InvD_ext; [|eapply (inv_upd_consumer (shift (c_queue co) (- Z.of_nat (length msgs)) D) c co); [done..|]].
    + shift_solve.
    + eapply InvD_ext; [|eapply (inv_upd_queue D _ q); [exact Hq|done|by apply inv_ticked]].
      shift_solve. rewrite length_app. lia.
  - etrans; [apply guar_ticked|]. etrans; [by eapply (guar_upd_queue _ _ _ q q')|].
    eapply (guar_upd_consumer _ _ c co co'); [done..|by left|left; by apply within_emptied].
Qed.

Lemma safe_g_unregisterConsumer p c w k :
  on_queue w c p → has_queue w p → safe Settled None w k → safe Settled None w (g_unregisterConsumer p c k).
Proof.
  intros Hc Hq Hk. split; [done|]. intros w1 R1. apply safe_deref; [done| |].
  { intros w2 R2. eapply has_queue_stable; [exact R2|]. by eapply has_queue_stable. }
  intros w2 D q R2 [Hinv _] Hq2. assert (rely None w w2) as R by (etrans; [done|by eapply rely_None]).
  case_decide as Hin; [|split; [done|]; by eapply safe_stable].
  apply (safe_sec (λ _, Settled) (λ _ _, True)).
  { intros w3 D3 R3 [Hinv3 _]. pose proof (queue_stable _ _ _ R3 p q eq_refl Hq2) as Hq3.
    unfold_prims. wp_run. split_and!; [done| |by eapply guar_upd_queue|done].
    apply moved_same, inv_set_consumers; [done| |done]. intros c' [Hc' _]%elem_of_difference.
    by eapply (wf_queue_consumer w3 (inv_wf _ _ Hinv3)). }
  intros [] w3 R3 _. apply (safe_sec (λ _, Settled) (λ _ _, True)).
  { intros w4 D4 R4 [Hinv4 _]. assert (rely None w w4) as R5 by (do 2 (etrans; [done|]); by eapply rely_None).
    destruct (has_queue_stable _ _ _ R5 p Hq) as [q4 Hq4].
    destruct (on_queue_stable _ _ _ R5 c p Hc) as (co & Hco & Ep).
    eapply wp_mono; [| |by eapply wp_return_pending]; [|done].
    intros [] w5 [? ?]. split_and!; [done|by apply moved_same|done..]. }
  intros [] w4 R4 _. split; [done|]. apply safe_inc; [done..|]. simpl. eapply safe_stable; [|done].
  by do 2 (etrans; [done|]).
Qed.

(** *** The dispatch goroutine *)

Lemma safe_scan_consumers p cs w k :
  (∀ c, c ∈ cs → on_queue w c p) → safe Settled (Some p) w (k None) →
  (∀ c w1, rely (Some p) w w1 → free w1 c p → safe Settled (Some p) w1 (k (Some c))) →
  safe Settled (Some p) w (scan_consumers cs k).
Proof.
  revert w. induction cs as [|c cs IH]; intros w Hcs HN HS; [done|]. cbn [scan_consumers].
  apply (safe_inert (λ (b : bool) w2, b = true → free w2 c p)); [done|..].
  - intros w1 D R [Hinv _]. destruct (on_queue_stable _ _ _ R c p) as (co & Hco & Ep); [apply Hcs; set_solver|].
    unfold_prims. wp_run. split_and!; [done|reflexivity|].
    rewrite bool_decide_eq_true, (co_prefetch co) by (by eapply inv_consumer). intros. by exists co.
  - intros [] w2 R Hf; [by apply HS, Hf|]. apply IH.
    + intros c' Hc'. eapply on_queue_stable; [exact R|]. apply Hcs. set_solver.
    + by eapply safe_stable.
    + intros c' w3 R3. apply HS. by etrans.
Qed.

Lemma safe_hand_over c p w msg (k : unit → code) :
  free w c p → (∀ w2, rely None w w2 → safe Settled (Some p) w2 (k tt)) →
  safe (Holds p) (Some p) w (Sec (hand_over c msg) k).
Proof.
  intros Hf Hk. apply (safe_sec (λ _, Settled) (λ _ _, True)).
  - intros w1 D R [Hinv _]. destruct (free_stable _ _ _ R c p eq_refl Hf) as (co & Hco & <- & Hlt).
    pose proof (inv_consumer _ _ Hinv c co Hco) as Hok. unfold hand_over; unfold_prims. wp_run.
    split_and!; [done| |eapply (guar_upd_consumer _ _ c co (took msg co)); [done..|by left|left; apply within_took]|done].
    eapply InvD_ext; [|eapply (inv_upd_consumer D c co (took msg co)); [done..| |done]].
    + moved_solve.
    + apply took_ok; [by rewrite (co_prefetch co Hok)|done].
  - intros [] w2 R _. by apply Hk.
Qed.

Lemma safe_take_back c p w msg (k : unit → code) :
  on_queue w c p → failed_delivery w p → (∀ w2, rely None w w2 → safe Settled (Some p) w2 (k tt)) →
  safe (Twice p) (Some p) w (Sec (take_back c msg) k).
Proof.
  intros Hc Hf Hk. apply (safe_sec (λ _, Settled) (λ _ _, True)).
  - intros w1 D R [Hinv _]. destruct (on_queue_stable _ _ _ R c p Hc) as (co & Hco & <-).
    unfold take_back; unfold_prims. wp_run.
    assert (failed_delivery w1 (c_queue co)) by (by eapply failed_delivery_stable).
    split_and!; [done| |eapply (guar_upd_consumer _ _ c co (released (m_DeliveryTag msg) co)); [done..|by left|by right]|done].
    eapply InvD_ext; [|by eapply (inv_release D w1 c co)]. moved_solve.
  - intros [] w2 R _. by apply Hk.
Qed.

Lemma safe_write_delivery c w msg (k : option string → code) :
  (∃ p, on_queue w c p) → (∀ r, safe Settled None w (k r)) →
  safe Settled None w (Sec (write_delivery c msg) k).
Proof.
  intros [p Hc] Hk. apply safe_write; [|done]. intros w1 D R Hinv.
  destruct (on_queue_stable _ _ _ R c p Hc) as (co & Hco & _).
  destruct (wf_consumer w1 (inv_wf _ _ Hinv) _ _ Hco) as [_ [ch Hch]].
  unfold write_delivery; unfold_prims. wp_run.
  apply wp_WriteEnvelope_frame. by apply (wf_channel w1 (inv_wf _ _ Hinv) _ _ Hch).
Qed.

Lemma safe_again p w : has_queue w p → safe Settled None w (Jump (LDispatch p)).
Proof. intros. by split. Qed.

Lemma safe_g_dispatch_to p r w :
  (∃ q, w_queue w !! p = Some q ∧ q_messages q ≠ []) → (∀ c, r = Some c → free w c p) →
  safe Settled (Some p) w (g_dispatch_to p r).
Proof.
  intros (q & Hq & Hm) Hr. assert (has_queue w p) as Hp by (by exists q).
  destruct r as [c|]; cbn [g_dispatch_to].
  2: { split_and!; [done..|]. intros w1 R. split; [done|]. apply safe_again. by apply (has_queue_stable _ _ _ R). }
  specialize (Hr c eq_refl).
  assert (on_queue w c p) as Hc by (destruct Hr as (co & ? & ? & _); by exists co).
  apply (safe_put_messages _ (Holds p) p w _ _ (λ _ _, True)); [done..| |].
  { intros w1 q1 R Hq1. pose proof (queue_stable _ _ _ R p q eq_refl Hq). assert (q1 = q) as -> by congruence.
    unfold pop_message; unfold_prims. wp_run. destruct (q_messages q) as [|m ms] eqn:E; [done|]. wp_run.
    exists ms. split_and!; [done..|]. intros p'. simpl. case_decide; lia. }
  intros msg w1 _ R1 _ _ Hf. apply safe_hand_over; [by apply Hf|]. intros w2 R2. split; [done|].
  assert (rely None w w2) as R by (by etrans).
  apply safe_write_delivery; [exists p; by eapply on_queue_stable|]. intros [e|].
  - apply safe_inc_failed; [by eapply has_queue_stable|]. intros w2' R2' Hfd. split; [done|]. intros w3 R3.
    assert (rely None w w3) as R' by (do 2 (etrans; [done|]); done).
    apply (safe_push_front _ (Twice p)); [by eapply has_queue_stable|by apply (has_queue_stable _ _ _ R')|..].
    { intros p'. simpl. case_decide; lia. }
    intros w4 R4. apply safe_take_back; [eapply on_queue_stable; [exact R4|]; by eapply on_queue_stable|..].
    { apply (failed_delivery_stable _ _ _ R4), (failed_delivery_stable _ _ _ R3), Hfd. }
    intros w5 R5. split; [done|]. apply safe_again. do 2 (eapply has_queue_stable; [eassumption|]).
    by eapply has_queue_stable.
  - apply safe_inc_queue_neutral; [by eapply has_queue_stable|done..|].
    apply safe_again. by apply (has_queue_stable _ _ _ R).
Qed.

Lemma safe_g_dispatch_check p w : has_queue w p → safe Settled (Some p) w (g_dispatch_check p).
Proof.
  intros Hp. apply safe_deref; [done|intros w1 R; by apply (has_queue_stable _ _ _ R)|].
  intros w1 D q R1 [Hinv _] Hq1. destruct (q_messages q) as [|m ms] eqn:Hm.
  { split_and!; [done..|]. intros w2 R2. split_and!; [done..|]. split; [done|]. apply (has_queue_stable _ _ _ R2). by exists q. }
  apply safe_range; [done|intros w2 R; apply (has_queue_stable _ _ _ R); by exists q|].
  intros w2 D2 q2 cs R2 [Hinv2 _] Hq2 Hcs. pose proof (queue_stable _ _ _ R2 p q eq_refl Hq1). assert (q2 = q) as -> by congruence.
  assert (∀ w', rely (Some p) w2 w' → ∃ q', w_queue w' !! p = Some q' ∧ q_messages q' ≠ []) as Hq'.
  { intros w' R. exists q. split; [by apply (queue_stable _ _ _ R)|]. by rewrite Hm. }
  apply safe_scan_consumers.
  - intros c Hc. rewrite Hcs, elem_of_elements in Hc. by eapply (wf_queue_consumer w2 (inv_wf _ _ Hinv2)).
  - apply safe_g_dispatch_to; [by apply Hq'|done].
  - intros c w3 R3 Hf. apply safe_g_dispatch_to; [by apply Hq'|]. by intros c' [= <-].
Qed.
End queues.

(** ** broker.go *)

(** A queue and its name; a consumer, its queue and its channel. *)
Definition named (w : World) (p : loc) (n : string) : Prop := ∃ q, w_queue w !! p = Some q ∧ q_name q = n.
Definition is_consumer (w : World) (c : loc) (s : string * loc * loc) : Prop :=
  ∃ co, w_consumer w !! c = Some co ∧ c_skel co = s.

Lemma named_stable h w w' p n : rely h w w' → named w p n → named w' p n.
Proof. intros R (q & Hq & <-). destruct (rl_queue _ _ _ R _ _ Hq) as (q' & ? & ? & _). by exists q'. Qed.

Lemma is_consumer_stable h w w' c s : rely h w w' → is_consumer w c s → is_consumer w' c s.
Proof.
  intros R (co & Hc & <-). destruct (rl_consumer _ _ _ R _ _ Hc) as (co' & ? & ? & _). exists co'. by split.
Qed.

Lemma named_has_queue w p n : named w p n → has_queue w p.
Proof. intros (q & ? & _). by exists q. Qed.

Section brokers.
Context `{Oracle}.
Implicit Types (w : World) (d : debt) (h : option loc).

(** The message whose call on the metrics settles the account. *)
Lemma safe_settle h p n w m (k : unit → code) :
  named w p n → (∀ n', metric_weight n' m = if decide (n = n') then -1 else 0) →
  safe Settled h w (k tt) → safe (Holds p) h w (Sec (inc m) k).
Proof.
  intros Hn Hm Hk. apply (safe_sec (λ _, Settled) (λ _ w2, rely h w w2)).
  - intros w1 D R [Hinv _]. destruct (named_stable _ _ _ _ _ R Hn) as (q & Hq & <-).
    unfold inc. wp_run. split_and!; [done| |apply guar_logged|].
    + eapply InvD_ext; [|by eapply (inv_logged_queue D _ w1 p q (-1))]. moved_solve.
    + etrans; [done|]. apply (guar_logged None). destruct h; auto.
  - intros [] w2 _ R. by eapply safe_stable.
Qed.

Lemma safe_g_publish_to ex rk body p w k :
  has_queue w p → safe Settled None w k → safe Settled None w (g_publish_to ex rk body p k).
Proof.
  intros Hq Hk. split; [done|]. intros w1 R1. apply (safe_sec (λ _, Settled) (λ _ _, True)).
  - intros w2 D R2 [Hinv _]. destruct (has_queue_stable _ _ _ R2 p) as [q Hq2]; [by eapply has_queue_stable|].
    unfold alloc_tag; unfold_prims. wp_run.
    split_and!; [done|by apply moved_same, inv_nextTag|by eapply guar_upd_queue|done].
  - intros tag w2 R2 _. assert (rely None w w2) by (by etrans). split; [done|].
    apply safe_g_enqueue; [by eapply has_queue_stable|by eapply safe_stable].
Qed.

(** The queues [getQueues] returns exist. *)
Lemma safe_getQueues ep rk w (k : list loc → code) :
  is_Some (w_exchange w !! ep) →
  (∀ qs w1, rely None w w1 → Forall (has_queue w1) qs → safe Settled None w1 (k qs)) →
  safe Settled None w (Sec (getQueues ep rk) k).
Proof.
  intros He Hk. apply (safe_inert (λ qs w2, Forall (has_queue w2) qs)); [done|..|by intros; apply Hk].
  intros w1 D R [Hinv _]. destruct (rl_exchange _ _ _ R _ He) as [e He1].
  eapply wp_mono; [| |by apply (wp_getQueues ep rk w1 e)]; [|done]. intros qs w2 [[t ->] Hqs].
  split_and!; [by eapply inv_io_eq, Hinv; apply io_eq_tick|by apply guar_io_eq, io_eq_tick|].
  rewrite Hqs. apply Forall_fmap, Forall_forall. intros [n p] Hp%elem_of_map_to_list. simpl in *.
  destruct (wf_binding w1 (inv_wf _ _ Hinv) _ _ _ _ _ He1 Hp) as (q & ? & _). by exists q.
Qed.

Lemma safe_g_Publish ex rk body w (k : option string → code) :
  (∀ r, safe Settled None w (k r)) → safe Settled None w (g_Publish ex rk body k).
Proof.
  intros Hk. apply safe_gets; [done|]. intros w1 D R1 [Hinv _].
  destruct (b_exchanges (w_broker w1) !! ex) as [ep|] eqn:He.
  2: { apply safe_inc; [done..|]. eapply safe_stable; [exact R1|apply Hk]. }
  destruct (wf_broker_exchange w1 (inv_wf _ _ Hinv) _ _ He) as (e & He1 & _).
  apply safe_inc; [done..|]. apply safe_getQueues; [by exists e|]. intros qs w2 R2 Hqs.
  assert (safe Settled None w2 (for_each qs (g_publish_to ex rk body) (k None))) as Hl.
  { apply safe_for_each; [|eapply (safe_stable _ _ w); [by etrans|apply Hk]]. intros p w3 k' Hp R3 Hk'.
    apply safe_g_publish_to; [|done]. eapply has_queue_stable; [exact R3|]. by eapply Forall_forall in Hp. }
  cbv zeta. case_decide; [|done]. by apply safe_inc.
Qed.

Lemma safe_g_DeclareQueue name dlx rk w k :
  safe Settled None w k → safe Settled None w (g_DeclareQueue name dlx rk k).
Proof.
  intros Hk. apply (safe_sec (λ _, Settled) (λ new w2, ∀ p, new = Some p → has_queue w2 p)).
  - intros w1 D R [Hinv HD]. unfold declare_section, NewQueue, put_broker; unfold_prims. wp_run.
    destruct (b_queues (w_broker w1) !! name) as [p|] eqn:Hn; wp_run.
    { split_and!; [done|by apply moved_same|reflexivity|done]. }
    set (p := fresh (dom (w_queue w1))).
    assert (w_queue w1 !! p = None) as Hp by (apply not_elem_of_dom, is_fresh).
    split_and!; [done| | |intros p' [= <-]; unfold has_queue; simpl; by rewrite lookup_insert_eq].
    + apply moved_same. destruct Hinv as [HWF Hco Hd Hu]. split; [by apply WF_new_queue|done|..]; simpl.
      * intros p' q' [[<- <-]|[? Hq']]%lookup_insert_Some; [|by apply Hd].
        unfold defect; simpl. rewrite Hu, HD by done. unfold inflight_sum. rewrite map_sum_zero; [done|].
        intros c co Hc. unfold inflight_on. case_decide as E; [|done].
        destruct (wf_consumer w1 HWF _ _ Hc) as [[q Hq] _]. congruence.
      * intros n [? Hn']%lookup_insert_None. by apply Hu.
    + intros h _. split; simpl; try done.
      * intros n p' Hn'. rewrite lookup_insert_ne; [done|]. congruence.
      * intros p' q Hq. exists q. rewrite lookup_insert_ne; [done|]. congruence.
      * intros c co Hc. exists co. split_and!; [done..|lia].
      * intros c. apply covered_mono; [done| |done]. intros p' q Hq. exists q. simpl.
        rewrite lookup_insert_ne; [done|]. congruence.
  - intros new w2 R Hnew. destruct new as [p|]; [|by eapply safe_stable].
    split; [split; [done|by apply Hnew]|by eapply safe_stable].
Qed.

Lemma safe_DeclareExchange name w (k : unit → code) :
  safe Settled None w (k tt) → safe Settled None w (Sec (DeclareExchange name) k).
Proof.
  intros Hk. apply (safe_inert (λ _ _, True)); [done|..].
  - intros w1 D R [Hinv _]. unfold DeclareExchange, NewExchange, put_broker; unfold_prims. wp_run.
    destruct (b_exchanges (w_broker w1) !! name) as [p|] eqn:Hn; wp_run; [by split_and!|].
    assert (w_exchange w1 !! fresh (dom (w_exchange w1)) = None) by apply not_elem_of_dom, is_fresh.
    split_and!; [|intros h _; split; simpl; try done; [by eauto|..]|done].
    + eapply InvD_struct; [..|exact Hinv]; try done. by apply WF_new_exchange, Hinv.
    + intros p Hp. rewrite lookup_insert_is_Some'. by right.
    + intros c co Hc. exists co. split_and!; [done..|lia].
  - intros [] w2 R _. by eapply safe_stable.
Qed.

Lemma safe_bind_section ep qp rk w (k : unit → code) :
  is_Some (w_exchange w !! ep) → has_queue w qp → safe Settled None w (k tt) → safe Settled None w (Sec (bind ep qp rk) k).
Proof.
  intros He Hq Hk. apply (safe_inert (λ _ _, True)); [done|..|intros [] w2 R _; by eapply safe_stable].
  intros w1 D R [Hinv _]. destruct (rl_exchange _ _ _ R _ He) as [e He1].
  destruct (has_queue_stable _ _ _ R _ Hq) as [q Hq1]. unfold bind; unfold_prims. wp_run.
  split_and!; [|intros h _; split; simpl; try done; [by eauto|..]|done].
  - eapply InvD_struct; [..|exact Hinv]; try done. by apply WF_bind, Hinv.
  - intros p Hp. rewrite lookup_insert_is_Some'. by right.
  - intros c co Hc. exists co. split_and!; [done..|lia].
Qed.

Lemma safe_g_BindQueue ex qn rk w (k : option string → code) :
  (∀ r, safe Settled None w (k r)) → safe Settled None w (g_BindQueue ex qn rk k).
Proof.
  intros Hk. apply safe_gets; [done|]. intros w1 D R [Hinv _].
  assert (∀ r, safe Settled None w1 (k r)) by (intros; by eapply safe_stable).
  destruct (b_exchanges (w_broker w1) !! ex) as [ep|] eqn:He; [|done].
  destruct (b_queues (w_broker w1) !! qn) as [qp|] eqn:Hq; [|done].
  destruct (wf_broker_exchange w1 (inv_wf _ _ Hinv) _ _ He) as (e & He' & _).
  destruct (wf_broker_queue w1 (inv_wf _ _ Hinv) _ _ Hq) as (q & Hq' & _).
  apply safe_bind_section; [by exists e|by exists q|done].
Qed.
End brokers.

(** ** Consumers come and go *)

Section consumers.
Context `{Oracle}.
Implicit Types (w : World) (d : debt) (h : option loc).

(** [channel.consumers[tag] = consumer] *)
Lemma safe_channel_consumer chp tag cp p w (k : unit → code) :
  has_channel w chp → is_consumer w cp (tag, p, chp) → safe Settled None w (k tt) →
  safe Settled None w (Sec (ch ← get_channel chp;
    put_channel chp (mkChannel (ch_id ch) (ch_conn ch) (<[tag := cp]> (ch_consumers ch)))) k).
Proof.
  intros Hch Hc Hk. apply (safe_inert (λ _ _, True)); [done|..|intros [] w2 R _; by eapply safe_stable].
  intros w1 D R [Hinv _]. destruct (has_channel_stable _ _ _ R _ Hch) as [ch Hch1].
  destruct (is_consumer_stable _ _ _ _ _ R Hc) as (co & Hco & E). unfold c_skel in E. injection E as <- _ Ech.
  unfold_prims. wp_run. split_and!; [|apply guar_put_channel|done].
  eapply InvD_struct; [..|exact Hinv]; try done. by apply WF_channel_consumer, Hinv.
Qed.

Lemma safe_new_consumer tag p chp ch w (k : loc → code) :
  has_queue w p → has_channel w chp →
  (∀ cp w2, rely None w w2 → is_consumer w2 cp (c_skel (NewConsumer tag p chp ch)) → safe Settled None w2 (k cp)) →
  safe Settled None w (Sec (cp ← gets (λ w, fresh (dom (w_consumer w)));
    put_consumer cp (NewConsumer tag p chp ch);; mret cp) k).
Proof.
  intros Hq Hch Hk. set (co := NewConsumer tag p chp ch) in *.
  apply (safe_inert (λ cp w2, is_consumer w2 cp (c_skel co))); [done|..|by intros; apply Hk].
  intros w1 D R [Hinv _]. unfold_prims. wp_run. set (cp := fresh (dom (w_consumer w1))).
  assert (w_consumer w1 !! cp = None) as Hcp by (apply not_elem_of_dom, is_fresh).
  split_and!; [|by apply (guar_new_consumer None w1 cp co)|exists co; simpl; by rewrite lookup_insert_eq].
  apply (inv_add_consumer D w1 cp co); [done|by apply (has_queue_stable _ _ _ R)|
    by apply (has_channel_stable _ _ _ R)|apply NewConsumer_ok|done..].
Qed.

Lemma safe_g_RegisterConsumer tag queue chp w (k : string + string → code) :
  has_channel w chp → (∀ r, safe Settled None w (k r)) → safe Settled None w (g_RegisterConsumer tag queue chp k).
Proof.
  intros Hch Hk. assert (∀ w' r, rely None w w' → safe Settled None w' (k r)) as Hk'
    by (intros; by eapply safe_stable, Hk).
  apply safe_gets; [done|]. intros w1 D R1 [Hinv _].
  destruct (b_queues (w_broker w1) !! queue) as [p|] eqn:Hp; [|by apply Hk'].
  destruct (wf_broker_queue w1 (inv_wf _ _ Hinv) _ _ Hp) as (q & Hq & <-).
  assert (has_queue w1 p) as Hq1 by (by exists q).
  apply safe_deref; [done|intros w2 R2; apply (has_channel_stable _ _ _ R2), (has_channel_stable _ _ _ R1), Hch|].
  intros w2 D2 ch R2 _ Hch2. cbv zeta. destruct (ch_consumers ch !! _); [apply Hk'; by etrans|].
  apply safe_new_consumer; [by eapply has_queue_stable|by exists ch|]. intros cp w3 R3 Hcp.
  assert (rely None w w3) as R by (do 2 (etrans; [eassumption|]); done).
  assert (has_queue w3 p) by apply (has_queue_stable _ _ _ R3), (has_queue_stable _ _ _ R2), Hq1.
  apply safe_g_registerConsumer; [|done|].
  { destruct Hcp as (co & ? & E). exists co. split; [done|]. by injection E. }
  apply (safe_channel_consumer chp _ cp p); [by eapply has_channel_stable|done|].
  apply safe_inc; [done..|]. by apply Hk'.
Qed.

Lemma safe_ack_scan p n t cs w (k : option string → code) :
  named w p n → (∀ c, c ∈ cs → on_queue w c p) → (∀ r, safe Settled None w (k r)) →
  safe Settled (Some p) w (ack_scan p n t cs k).
Proof.
  revert w. induction cs as [|c cs IH]; intros w Hn Hcs Hk; [by split|]. cbn [ack_scan].
  apply (safe_sec (λ r, match r with Some _ => Holds p | None => Settled end) (λ _ _, True)).
  - intros w1 D R [Hinv _]. destruct (on_queue_stable _ _ _ R c p) as (co & Hco & <-); [apply Hcs; set_solver|].
    unfold ack_consumer; unfold_prims. wp_run.
    case_decide; wp_run; (split_and!; [|..|done]); try done.
    + apply (has_queue_stable _ _ _ R). by eapply named_has_queue.
    + eapply InvD_ext; [|by eapply (inv_release D w1 c co t)]. moved_solve.
    + eapply (guar_upd_consumer _ _ c co (released t co)); [done..|by left|left; apply within_released].
      apply elem_of_dom. by rewrite <-(co_tags co) by (by eapply inv_consumer).
    + by apply moved_same.
  - intros [[]|] w2 R _.
    + split; [done|]. simpl. apply (safe_settle None p n); [by eapply named_stable|done|]. by eapply safe_stable, Hk.
    + apply IH; [by eapply named_stable| |by intros; eapply safe_stable, Hk].
      intros c' Hc'. eapply on_queue_stable; [exact R|]. apply Hcs. set_solver.
Qed.

Lemma safe_g_Ack n t w (k : option string → code) :
  (∀ r, safe Settled None w (k r)) → safe Settled None w (g_Ack n t k).
Proof.
  intros Hk. apply safe_gets; [done|]. intros w1 D R1 [Hinv _].
  destruct (b_queues (w_broker w1) !! n) as [p|] eqn:Hp; [|by eapply safe_stable, Hk].
  assert (named w1 p n) as Hn by (by apply (wf_broker_queue w1 (inv_wf _ _ Hinv))).
  split; [done|]. intros w2 R2. apply safe_range; [done|..].
  { intros w3 R3. apply (has_queue_stable _ _ _ R3), (has_queue_stable _ _ _ R2). by eapply named_has_queue. }
  intros w3 D3 q cs R3 [Hinv3 _] Hq Hcs.
  assert (rely None w1 w3) as R by (etrans; [done|by eapply rely_None]).
  apply safe_ack_scan; [by eapply named_stable| |intros; eapply (safe_stable _ _ w); [by etrans|apply Hk]].
  intros c Hc. rewrite Hcs, elem_of_elements in Hc. by eapply (wf_queue_consumer w3 (inv_wf _ _ Hinv3)).
Qed.
End consumers.

(** ** channel.go *)

Section channels.
Context `{Oracle}.
Implicit Types (w : World).

(** The consumers a channel knows, in the order of a [range]. *)
Lemma safe_channel_range chp w (k : list (string * loc) → code) :
  has_channel w chp →
  (∀ cs w1, rely None w w1 → (∀ x, x ∈ cs → ∃ s, is_consumer w1 x.2 s) → safe Settled None w1 (k cs)) →
  safe Settled None w (Sec (ch ← get_channel chp; range (map_to_list (ch_consumers ch))) k).
Proof.
  intros Hch Hk. apply safe_range; [done|intros w1 R; by apply (has_channel_stable _ _ _ R)|].
  intros w1 D ch cs R [Hinv _] Hch1 Hcs. apply Hk; [done|]. intros [tag c] Hc.
  rewrite Hcs, elem_of_map_to_list in Hc.
  destruct (wf_channel_consumer w1 (inv_wf _ _ Hinv) _ _ _ _ Hch1 Hc) as (co & ? & _). by exists (c_skel co), co.
Qed.

Lemma safe_get_consumer d c s w (k : Consumer → code) :
  debt_ok d w → is_consumer w c s →
  (∀ w1 co, rely None w w1 → has_queue w1 (c_queue co) → on_queue w1 c (c_queue co) → c_skel co = s →
     safe d None w1 (k co)) →
  safe d None w (Sec (get_consumer c) k).
Proof.
  intros Hd Hc Hk. apply safe_deref; [done|..].
  { intros w1 R. destruct (is_consumer_stable _ _ _ _ _ R Hc) as (co & ? & _). by exists co. }
  intros w1 D co R [Hinv _] Hco. apply Hk; [done| |by exists co|].
  - by apply (wf_consumer w1 (inv_wf _ _ Hinv) _ _ Hco).
  - destruct (is_consumer_stable _ _ _ _ _ R Hc) as (co' & ? & <-). congruence.
Qed.

Lemma safe_g_cleanup chp w k : has_channel w chp → safe Settled None w k → safe Settled None w (g_cleanup chp k).
Proof.
  intros Hch Hk. apply safe_channel_range; [done|]. intros cs w1 R1 Hcs.
  apply safe_for_each; [|by eapply safe_stable]. intros [tag c] w2 k' Hc R2 Hk'.
  destruct (Hcs _ Hc) as [s Hs]. apply (safe_get_consumer Settled c s); [done|by eapply is_consumer_stable|].
  intros w3 co R3 Hq Hon _. apply safe_g_unregisterConsumer; [done..|]. by eapply safe_stable.
Qed.

Lemma safe_reply {T} `{JEncode T} chp env ty (msg : T) w (k : unit → code) :
  has_channel w chp → safe Settled None w (k tt) → safe Settled None w (Sec (reply chp env ty msg) k).
Proof.
  intros Hch Hk. apply safe_write; [|by intros []]. intros w1 D R Hinv.
  destruct (has_channel_stable _ _ _ R _ Hch) as [ch Hch1]. unfold reply; unfold_prims. wp_run.
  eapply wp_mono; [| |apply wp_WriteEnvelope_frame; by apply (wf_channel w1 (inv_wf _ _ Hinv) _ _ Hch1)]; [|done].
  intros r w2 ?. by wp_run.
Qed.

Lemma safe_g_HandlePublish chp env w k :
  has_channel w chp → safe Settled None w k → safe Settled None w (g_HandlePublish chp env k).
Proof.
  intros Hch Hk. unfold g_HandlePublish. destruct (Unmarshal _) as [event [e|]]; [done|].
  apply safe_g_Publish. intros [e|]; [by apply safe_reply|done].
Qed.

Lemma safe_g_HandleConsume chp env w k :
  has_channel w chp → safe Settled None w k → safe Settled None w (g_HandleConsume chp env k).
Proof.
  intros Hch Hk. unfold g_HandleConsume. destruct (Unmarshal _) as [event [e|]]; [by apply safe_reply|].
  apply safe_g_RegisterConsumer; [done|]. intros [e|tag]; by apply safe_reply.
Qed.

Lemma safe_ack_loop t cs w k :
  (∀ x, x ∈ cs → ∃ s, is_consumer w x.2 s) → safe Settled None w k → safe Settled None w (ack_loop t cs k).
Proof.
  revert w. induction cs as [|[tag c] cs IH]; intros w Hcs Hk; [done|]. cbn [ack_loop].
  destruct (Hcs (tag, c)) as [s Hs]; [set_solver|]. simpl in Hs.
  assert (∀ w1, rely None w w1 → ∃ co, w_consumer w1 !! c = Some co) as Hc.
  { intros w1 R. destruct (is_consumer_stable _ _ _ _ _ R Hs) as (co & ? & _). by exists co. }
  apply (safe_inert (λ _ _, True)); [done|..].
  { intros w1 D R [Hinv _]. destruct (Hc w1 R) as [co Hco]. unfold_prims. wp_run. by split_and!. }
  intros [] w1 R1 _.
  2: { apply IH; [|by eapply safe_stable]. intros x Hx. destruct (Hcs x) as [s' ?]; [set_solver|].
       exists s'. by eapply is_consumer_stable. }
  apply (safe_inert (λ _ _, True)); [done|..].
  { intros w2 D R [Hinv _]. destruct (Hc w2) as [co Hco]; [by etrans|].
    destruct (wf_consumer w2 (inv_wf _ _ Hinv) _ _ Hco) as [[q Hq] _]. unfold_prims. wp_run. by split_and!. }
  intros n w2 R2 _. apply safe_g_Ack. intros _. eapply (safe_stable _ _ w); [by etrans|done].
Qed.

Lemma safe_g_HandleAck chp env w k :
  has_channel w chp → safe Settled None w k → safe Settled None w (g_HandleAck chp env k).
Proof.
  intros Hch Hk. unfold g_HandleAck. destruct (Unmarshal _) as [event [e|]]; [by apply safe_reply|].
  apply safe_channel_range; [done|]. intros cs w1 R1 Hcs. apply safe_ack_loop; [done|by eapply safe_stable].
Qed.

Lemma safe_g_nack_dispose p msg b w k :
  has_queue w p → safe Settled None w k → safe (Holds p) None w (g_nack_dispose p msg b k).
Proof.
  intros Hq Hk. apply safe_inc_queue_neutral; [done..|]. destruct b.
  { split; [done|]. intros w1 R1. apply (safe_push_front _ Settled); [by eapply has_queue_stable|done|..].
    - intros p'. simpl. case_decide; lia.
    - intros w2 R2. split; [done|]. eapply (safe_stable _ _ w); [by etrans|done]. }
  apply safe_deref; [done|intros w1 R; by apply (has_queue_stable _ _ _ R)|]. intros w1 D q R1 _ Hq1.
  assert (named w1 p (q_name q)) by (by exists q). assert (safe Settled None w1 k) by (by eapply safe_stable).
  case_decide; eapply safe_settle; try done. by apply safe_g_Publish.
Qed.

Lemma safe_nack_loop t b cs w k :
  (∀ x, x ∈ cs → ∃ s, is_consumer w x.2 s) → safe Settled None w k → safe Settled None w (nack_loop t b cs k).
Proof.
  revert w. induction cs as [|[tag c] cs IH]; intros w Hcs Hk; [done|]. cbn [nack_loop].
  destruct (Hcs (tag, c)) as [[[tg p] ch] Hs]; [set_solver|]. simpl in Hs.
  apply (safe_sec (λ r, match r with Some _ => Holds p | None => Settled end)
           (λ r w2, r ≠ None → has_queue w2 p)).
  - intros w1 D R [Hinv _]. destruct (is_consumer_stable _ _ _ _ _ R Hs) as (co & Hco & E). injection E as _ <- _.
    destruct (wf_consumer w1 (inv_wf _ _ Hinv) _ _ Hco) as [Hq _].
    unfold nack_take; unfold_prims. wp_run.
    destruct (c_pendingMessages co !! t) as [msg|] eqn:Et; wp_run; (split_and!; [done| | |done]).
    + eapply InvD_ext; [|by eapply (inv_release D w1 c co t)]. moved_solve.
    + eapply (guar_upd_consumer _ _ c co (released t co)); [done..|right; simpl; lia|left].
      by apply within_released.
    + by apply moved_same.
    + reflexivity.
  - intros [msg|] w2 R Hq.
    + apply (safe_get_consumer (Holds p) c (tg, p, ch)); [by apply Hq|by eapply is_consumer_stable|].
      intros w3 co R3 Hq3 _ E. unfold c_skel in E. injection E as _ <- _.
      apply safe_g_nack_dispose; [done|]. eapply (safe_stable _ _ w); [by etrans|done].
    + apply IH; [|by eapply safe_stable]. intros x Hx. destruct (Hcs x) as [s' ?]; [set_solver|].
      exists s'. by eapply is_consumer_stable.
Qed.

Lemma safe_g_HandleNack chp env w k :
  has_channel w chp → safe Settled None w k → safe Settled None w (g_HandleNack chp env k).
Proof.
  intros Hch Hk. unfold g_HandleNack. destruct (Unmarshal _) as [event [e|]]; [by apply safe_reply|].
  apply safe_channel_range; [done|]. intros cs w1 R1 Hcs. apply safe_nack_loop; [done|by eapply safe_stable].
Qed.

Lemma safe_g_route chp env w k :
  has_channel w chp → safe Settled None w k → safe Settled None w (g_route chp env k).
Proof.
  intros Hch Hk. unfold g_route. repeat case_decide.
  - by apply safe_g_HandlePublish.
  - by apply safe_g_HandleConsume.
  - by apply safe_g_HandleAck.
  - by apply safe_g_HandleNack.
  - unfold g_HandleQueueDeclare. destruct (Unmarshal _) as [event e]. apply safe_g_DeclareQueue. by apply safe_reply.
  - unfold g_HandleExchangeDeclare. destruct (Unmarshal _) as [event e]. apply safe_DeclareExchange. by apply safe_reply.
  - unfold g_HandleQueueBind. destruct (Unmarshal _) as [event [e|]]; [by apply safe_reply|].
    apply safe_g_BindQueue. intros r. by apply safe_reply.
  - done.
Qed.
End channels.

(** ** metrics.go *)

Section scrapes.
Context `{Oracle}.
Implicit Types (w : World) (h : option loc).

(** The order of a [range] is picked. *)
Lemma safe_shuffle {A} (l : list A) h w (k : list A → code) :
  (∀ l' w1, rely h w w1 → l' ≡ₚ l → safe Settled h w1 (k l')) → safe Settled h w (Sec (range l) k).
Proof.
  intros Hk. apply (safe_inert (λ l' _, l' ≡ₚ l)); [done|..|by intros; apply Hk].
  intros w1 D R [Hinv _]. apply wp_range. intros l' Hl. split_and!; [by apply inv_ticked|apply guar_ticked|done].
Qed.

Lemma safe_collect_consumers p name cs acc w (k : list Sample → code) :
  (∀ c, c ∈ cs → on_queue w c p) → (∀ acc w1, rely (Some p) w w1 → safe Settled (Some p) w1 (k acc)) →
  safe Settled (Some p) w (collect_consumers name cs acc k).
Proof.
  revert w acc. induction cs as [|c cs IH]; intros w acc Hcs Hk; [by apply Hk|]. cbn [collect_consumers].
  apply (safe_inert (λ _ _, True)); [done|..].
  - intros w1 D R [Hinv _]. destruct (on_queue_stable _ _ _ R c p) as (co & Hco & _); [apply Hcs; set_solver|].
    unfold_prims. wp_run. by split_and!.
  - intros s w2 R _. apply IH; [|intros; apply Hk; by etrans].
    intros c' Hc'. eapply on_queue_stable; [exact R|]. apply Hcs. set_solver.
Qed.

Lemma safe_g_collect_queue p acc w (k : list Sample → code) :
  has_queue w p → (∀ acc w1, rely None w w1 → safe Settled None w1 (k acc)) →
  safe Settled None w (g_collect_queue p acc k).
Proof.
  intros Hp Hk. split; [done|]. intros w1 R1. apply safe_deref; [done|..].
  { intros w2 R2. apply (has_queue_stable _ _ _ R2). by apply (has_queue_stable _ _ _ R1). }
  intros w2 D q R2 [Hinv _] Hq. apply safe_shuffle. intros cs w3 R3 Hcs. apply safe_collect_consumers.
  - intros c Hc. rewrite Hcs, elem_of_elements in Hc. apply (on_queue_stable _ _ _ R3).
    by eapply (wf_queue_consumer w2 (inv_wf _ _ Hinv)).
  - intros acc' w4 R4. split; [done|]. apply Hk. etrans; [done|]. eapply rely_None. etrans; [done|]. by etrans.
Qed.

Lemma safe_collect_queues_of qs acc w (k : list Sample → code) :
  (∀ x, x ∈ qs → has_queue w x.2) → (∀ acc w1, rely None w w1 → safe Settled None w1 (k acc)) →
  safe Settled None w (collect_queues_of qs acc k).
Proof.
  revert w acc. induction qs as [|[n p] qs IH]; intros w acc Hqs Hk; [by apply Hk|]. cbn [collect_queues_of].
  apply safe_g_collect_queue; [apply (Hqs (n, p)); set_solver|]. intros acc' w1 R. apply IH.
  - intros x Hx. apply (has_queue_stable _ _ _ R), Hqs. set_solver.
  - intros. apply Hk. by etrans.
Qed.

Lemma safe_g_Collect w : safe Settled None w (g_Collect (λ _, Ret)).
Proof.
  apply safe_gets; [done|]. intros w1 D1 R1 _. apply safe_gets; [done|]. intros w2 D2 R2 [Hinv _].
  apply safe_shuffle. intros qs w3 R3 Hqs. apply safe_collect_queues_of; [|done].
  intros [n p] Hx. rewrite Hqs, elem_of_map_to_list in Hx. apply (has_queue_stable _ _ _ R3).
  destruct (wf_broker_queue w2 (inv_wf _ _ Hinv) _ _ Hx) as (q & ? & _). by exists q.
Qed.
End scrapes.

(** ** connection.go, server.go *)

Section connections.
Context `{Oracle}.
Implicit Types (w : World).

(** A section that assigns to one connection and forgets at most channels. *)
Lemma safe_upd_conn {B} p w (m : M B) (k : B → code) :
  has_conn w p →
  (∀ w1 cn, w_conn w1 !! p = Some cn →
     wp m (λ _ w2, ∃ cn', w2 = with_conn (<[p := cn']> (w_conn w1)) w1 ∧ cn_channels cn' ⊆ cn_channels cn)
       (λ _, False) w1) →
  (∀ b, safe Settled None w (k b)) → safe Settled None w (Sec m k).
Proof.
  intros Hp Hm Hk. apply (safe_inert (λ _ _, True)); [done|..|intros b w2 R _; by eapply safe_stable, Hk].
  intros w1 D R [Hinv _]. destruct (has_conn_stable _ _ _ R p Hp) as [cn Hcn].
  eapply wp_mono; [| |by apply (Hm w1 cn)]; [|done]. intros b w2 (cn' & -> & Hsub).
  split_and!; [|apply guar_put_conn|done]. apply inv_upd_conn; [|done]. intros id chp Hid.
  exists cn. split; [done|]. by eapply lookup_weaken.
Qed.

Lemma safe_conn_read {A} (f : Reader → A * Reader) p w (k : A → code) :
  has_conn w p → (∀ a, safe Settled None w (k a)) → safe Settled None w (Sec (conn_read f p) k).
Proof.
  intros Hp. apply (safe_upd_conn p); [done|]. intros w1 cn Hcn. unfold conn_read; unfold_prims. wp_run.
  destruct (f (cn_reader cn)) as [a r]. wp_run. by eexists.
Qed.

Lemma safe_set_conn_state p s w (k : unit → code) :
  has_conn w p → safe Settled None w (k tt) → safe Settled None w (Sec (set_conn_state p s) k).
Proof.
  intros Hp Hk. apply (safe_upd_conn p); [done|..|by intros []]. intros w1 cn Hcn.
  unfold set_conn_state; unfold_prims. wp_run. by eexists.
Qed.

Lemma safe_conn_write {T} `{JEncode T} p w (m : M (option string)) (k : option string → code) :
  has_conn w p → (∀ w1, has_conn w1 p → wp m (λ _, io_eq w1) (io_eq w1) w1) →
  (∀ r, safe Settled None w (k r)) → safe Settled None w (Sec m k).
Proof. intros Hp Hm. apply safe_write. intros w1 D R _. apply Hm. by eapply has_conn_stable. Qed.

Lemma safe_WriteEnvelope {T} `{JEncode T} p id ty req (msg : T) w (k : option string → code) :
  has_conn w p → (∀ r, safe Settled None w (k r)) → safe Settled None w (Sec (WriteEnvelope p id ty req msg) k).
Proof. intros Hp. apply (safe_conn_write (T := T) p); [done|]. intros. by apply wp_WriteEnvelope_frame. Qed.

Lemma safe_WriteMessage {T} `{JEncode T} p (msg : T) w (k : option string → code) :
  has_conn w p → (∀ r, safe Settled None w (k r)) → safe Settled None w (Sec (WriteMessage p msg) k).
Proof. intros Hp. apply (safe_conn_write (T := T) p); [done|]. intros. by apply wp_send_frame. Qed.

Lemma safe_g_conn_cleanup p w k : has_conn w p → safe Settled None w k → safe Settled None w (g_conn_cleanup p k).
Proof.
  intros Hp Hk. apply safe_range; [done|intros w1 R; by apply (has_conn_stable _ _ _ R)|].
  intros w1 D cn chs R1 [Hinv _] Hcn Hchs. apply safe_for_each; [|by eapply safe_stable].
  intros [id chp] w2 k' Hc R2 Hk'. rewrite Hchs, elem_of_map_to_list in Hc.
  destruct (wf_conn_channel w1 (inv_wf _ _ Hinv) _ _ _ _ Hcn Hc) as (ch & Hch & _).
  apply safe_g_cleanup; [|done]. apply (has_channel_stable _ _ _ R2). by exists ch.
Qed.

Lemma safe_install_channel p id w (k : unit → code) :
  has_conn w p → safe Settled None w (k tt) → safe Settled None w (Sec (install_channel p id) k).
Proof.
  intros Hp Hk. apply (safe_inert (λ _ _, True)); [done|..|intros [] w2 R _; by eapply safe_stable].
  intros w1 D R [Hinv _]. destruct (has_conn_stable _ _ _ R p Hp) as [cn Hcn].
  unfold install_channel; unfold_prims. wp_run. set (chp := fresh (dom (w_channel w1))).
  assert (w_channel w1 !! chp = None) as Hchp by (apply not_elem_of_dom, is_fresh).
  split_and!; [|etrans; [apply (guar_put_channel None w1 chp)|apply guar_put_conn]|done].
  eapply InvD_struct; [..|exact Hinv]; try done. by apply (WF_open_channel w1), Hinv.
Qed.

Lemma safe_g_ChannelClose p env w k :
  has_conn w p → safe Settled None w k → safe Settled None w (g_ChannelClose p env k).
Proof.
  intros Hp Hk. unfold g_ChannelClose. cbv zeta.
  apply (safe_inert (λ r w2, ∀ ch, r = Some ch → has_channel w2 ch)); [done|..].
  - intros w1 D R [Hinv _]. destruct (has_conn_stable _ _ _ R p Hp) as [cn Hcn]. unfold_prims. wp_run.
    split_and!; [|apply guar_put_conn|].
    + apply inv_upd_conn; [|done]. simpl. intros id chp [_ ?]%lookup_delete_Some. eauto.
    + intros chp Hch. destruct (wf_conn_channel w1 (inv_wf _ _ Hinv) _ _ _ _ Hcn Hch) as (ch & ? & _). by exists ch.
  - intros r w2 R Hch.
    assert (∀ T `{JEncode T} (m : T), safe Settled None w2
      (Sec (WriteEnvelope p (env_ChannelID env) ChannelCloseOKType (env_RequestID env) m) (λ _, k))) as Ha.
    { intros. apply safe_WriteEnvelope; [by eapply has_conn_stable|]. intros _. by eapply safe_stable. }
    destruct r as [ch|]; [|apply Ha]. apply safe_g_cleanup; [by apply Hch|apply Ha].
Qed.

Lemma safe_g_Handle p env w k : has_conn w p → safe Settled None w k → safe Settled None w (g_Handle p env k).
Proof.
  intros Hp Hk. unfold g_Handle. case_decide; [|case_decide].
  - unfold g_ChannelOpen. destruct (Unmarshal _) as [event e]. cbv zeta. apply safe_install_channel; [done|].
    by apply safe_WriteEnvelope.
  - by apply safe_g_ChannelClose.
  - apply (safe_inert (λ r w2, ∀ ch, r = Some ch → has_channel w2 ch)); [done|..].
    + intros w1 D R [Hinv _]. destruct (has_conn_stable _ _ _ R p Hp) as [cn Hcn]. unfold_prims. wp_run.
      split_and!; [done|reflexivity|]. intros chp Hch.
      destruct (wf_conn_channel w1 (inv_wf _ _ Hinv) _ _ _ _ Hcn Hch) as (ch & ? & _). by exists ch.
    + intros [ch|] w2 R Hch.
      * apply safe_g_route; [by apply Hch|by eapply safe_stable].
      * apply safe_WriteEnvelope; [by eapply has_conn_stable|]. intros _. by eapply safe_stable.
Qed.

(** The table of connections is nothing the others rely on. *)
Lemma safe_connections (f : World → gset loc) w (k : unit → code) :
  safe Settled None w (k tt) → safe Settled None w (Sec (modify (λ w, with_connections (f w) w)) k).
Proof.
  intros Hk. apply (safe_inert (λ _ _, True)); [done|..|intros [] w2 R _; by eapply safe_stable].
  intros w1 D R [Hinv _]. wp_run. split_and!; [|by apply guar_same|done].
  eapply InvD_struct; [..|exact Hinv]; try done. apply (WF_same_dispatch w1); [by split|done|apply Hinv].
Qed.

Lemma safe_g_close p w : has_conn w p → safe Settled None w (g_close p).
Proof.
  intros Hp. unfold g_close. apply safe_inc; [done..|]. apply (safe_upd_conn p); [done|..|intros _].
  { intros w1 cn Hcn. eapply wp_mono; [| |by apply (wp_shutdown p w1 cn)]; [|done]. intros [] w2 ->. by eexists. }
  apply safe_g_conn_cleanup; [done|]. apply safe_connections, (safe_upd_conn p); [done|..|intros _; done].
  intros w2 cn Hcn. unfold_prims. wp_run. by eexists.
Qed.

Ltac handshake_step Hk :=
  lazymatch goal with
  | |- safe _ _ _ (Sec (conn_read _ _) _) => apply safe_conn_read; [done|intros ?]
  | |- safe _ _ _ (Sec (set_conn_state _ _) _) => apply safe_set_conn_state; [done|]
  | |- safe _ _ _ (Sec (WriteMessage _ _) _) => apply safe_WriteMessage; [done|intros ?]
  | |- safe _ _ _ (match ?o with Some _ => _ | None => _ end) => destruct o
  | |- _ => apply Hk
  end.

Lemma safe_g_RunHandshake p w (k : option string → code) :
  has_conn w p → (∀ r, safe Settled None w (k r)) → safe Settled None w (g_RunHandshake p k).
Proof.
  intros Hp Hk. unfold g_RunHandshake.
  repeat handshake_step Hk.
  apply safe_gets; [done|]. intros w1 D R _.
  assert (has_conn w1 p) by (by eapply has_conn_stable).
  assert (∀ r, safe Settled None w1 (k r)) as Hk1 by (intros; by eapply safe_stable).
  repeat handshake_step Hk1.
Qed.

Lemma safe_NewConnection r w (k : loc → code) :
  (∀ p w1, rely None w w1 → has_conn w1 p → safe Settled None w1 (k p)) → safe Settled None w (Sec (NewConnection r) k).
Proof.
  intros Hk. apply (safe_inert (λ p w2, has_conn w2 p)); [done|..|by intros; apply Hk].
  intros w1 D R [Hinv _]. unfold NewConnection; unfold_prims. wp_run.
  split_and!; [by apply inv_upd_conn|apply guar_put_conn|]. unfold has_conn. simpl. rewrite lookup_insert_eq. by eauto.
Qed.

(** Wherever a loop goes on, the code there is safe. *)
Lemma safe_body l h w : label_pre l h w → safe Settled h w (body l).
Proof.
  destruct l as [r|p|p|p|]; [intros ->| | | |intros ->; apply safe_g_Collect]; [|intros [-> Hp]..]; cbn [body].
  - unfold g_HandleConnection. apply safe_NewConnection. intros p w1 _ Hp. apply safe_connections, safe_inc; [done..|].
    apply safe_g_RunHandshake; [done|]. intros [e|]; [|by split]. apply safe_inc; [done..|]. by apply safe_g_close.
  - unfold g_Serve. apply safe_conn_read; [done|]. intros [env [e|]]; [by apply safe_g_close|].
    apply safe_g_Handle; [done|]. by split.
  - split; [done|]. intros w1 R. split; [done|]. split; [done|]. by apply (has_queue_stable _ _ _ R).
  - by apply safe_g_dispatch_check.
Qed.
End connections.
