(* ===== verification/Concurrency.v ===== *)
(** * The process as interleaved goroutines

    [procs_ok] holds of every state the process of [Goroutines] reaches: each goroutine
    is safe with its own debt and its own lock, and the debts add up to what is missing
    from the accounts of the store.  The theorems say that no interleaving of critical
    sections makes a goroutine panic, overruns the window of a consumer, deadlocks on
    the locks of queues, or makes the counters of a queue wrong by more than the
    messages that goroutines are moving at that moment. *)

From S2P Require Import Prelude GoJson Protocol State Transport Queue Exchange Broker Channel Connection Invariant Accounting Frame Server Scenario Process Goroutines Schedules Rely Sections.

(** Goroutine [t] holds [h] and no other lock. *)
Definition holds (ls : gmap loc tid) (t : tid) (h : option loc) : Prop := ∀ p, ls !! p = Some t ↔ h = Some p.

Definition thread_ok `{Oracle} (w : World) (ls : gmap loc tid) (t : tid) (d : debt) (th : thread) : Prop :=
  ∃ h, holds ls t h ∧ debt_ok d w ∧
    match th with
    | Running c => safe d h w c
    | Asleep p k => h = None ∧ safe d None w (Lock p k) ∧ d = Settled
    | Blocked_write => h = None ∧ d = Settled
    end.

(** What is missing from the accounts of [p]. *)
Definition owed (Δ : gmap tid debt) (p : loc) : Z := map_sum (λ d, amount d p) Δ.

Record procs_ok `{Oracle} (Δ : gmap tid debt) (s : Proc) : Prop := {
  po_dom : dom Δ = dom (p_threads s);
  po_thread : ∀ t d th, Δ !! t = Some d → p_threads s !! t = Some th → thread_ok (p_world s) (p_locks s) t d th;
  po_locks : ∀ p t, p_locks s !! p = Some t → is_Some (p_threads s !! t);
  po_inv : InvD (owed Δ) (p_world s);
  po_covered : ∀ c, covered (p_world s) c;
}.

Section preservation.
Context `{Oracle}.
Implicit Types (w : World) (ls : gmap loc tid) (ts : gmap tid thread).

Lemma debt_ok_stable d h w w' : rely h w w' → debt_ok d w → debt_ok d w'.
Proof. intros R. destruct d; [done|..]; apply (has_queue_stable _ _ _ R). Qed.

Lemma procs_debt Δ s t th :
  procs_ok Δ s → p_threads s !! t = Some th → ∃ d, Δ !! t = Some d ∧ thread_ok (p_world s) (p_locks s) t d th.
Proof.
  intros Hok Ht. assert (t ∈ dom Δ) as [d Hd]%elem_of_dom.
  { rewrite (po_dom _ _ Hok). apply elem_of_dom. by exists th. }
  exists d. split; [done|]. by eapply po_thread.
Qed.

Lemma procs_debt_running Δ s t c :
  procs_ok Δ s → p_threads s !! t = Some (Running c) →
  ∃ d h, Δ !! t = Some d ∧ holds (p_locks s) t h ∧ debt_ok d (p_world s) ∧ safe d h (p_world s) c.
Proof. intros Hok Ht. destruct (procs_debt _ _ _ _ Hok Ht) as (d & ? & h & ? & ? & ?). by exists d, h. Qed.

(** Debts are about queues that exist. *)
Lemma procs_InvC Δ s : procs_ok Δ s → InvC (owed Δ) (p_world s).
Proof.
  intros Hok. split; [apply Hok|]. intros p Hp. apply map_sum_zero. intros t d Hd.
  assert (t ∈ dom (p_threads s)) as [th Ht]%elem_of_dom.
  { rewrite <-(po_dom _ _ Hok). apply elem_of_dom. by exists d. }
  destruct (po_thread _ _ Hok _ _ _ Hd Ht) as (h & _ & Hok' & _).
  destruct d as [|q|q]; simpl; [done|..]; case_decide; subst; try done; destruct Hok'; congruence.
Qed.

Lemma owed_update Δ t d d' p : Δ !! t = Some d → owed (<[t := d']> Δ) p = moved d d' (owed Δ) p.
Proof. intros Hd. unfold owed, moved. by rewrite (map_sum_update _ _ _ d). Qed.

(** Another goroutine is still safe after [t] has done something. *)
Lemma thread_ok_other w w' ls ls' t h t' d th :
  holds ls t h → guar h w w' → t' ≠ t → (∀ p, ls' !! p = Some t' ↔ ls !! p = Some t') →
  thread_ok w ls t' d th → thread_ok w' ls' t' d th.
Proof.
  intros Hh Hg Hne Hls (h' & Hh' & Hd & Hth).
  assert (rely h' w w') as R.
  { apply Hg. destruct h' as [p|]; [right|by left]. intros E. symmetry in E. apply Hh in E.
    pose proof (proj2 (Hh' p) eq_refl). congruence. }
  exists h'. split_and!; [|by eapply debt_ok_stable|].
  - intros p. by rewrite Hls.
  - destruct th as [c|p k|]; [by eapply safe_stable| |done].
    destruct Hth as (? & ? & ?). split; [done|]. split; [|done]. eapply safe_stable; [by eapply rely_None|done].
Qed.

(** One goroutine acts: its new debt and lock, and what it did to the store. *)
Lemma procs_act Δ w w' ls ls' ts t d d' th th' h :
  procs_ok Δ (mkProc w ls ts) → ts !! t = Some th → Δ !! t = Some d → holds ls t h → guar h w w' →
  (∀ p t', t' ≠ t → ls' !! p = Some t' ↔ ls !! p = Some t') →
  thread_ok w' ls' t d' th' → InvD (moved d d' (owed Δ)) w' →
  procs_ok (<[t := d']> Δ) (mkProc w' ls' (<[t := th']> ts)).
Proof.
  intros Hok Ht Hd Hh Hg Hls Hth' Hinv. split; simpl.
  - rewrite !dom_insert_L. by rewrite (po_dom _ _ Hok).
  - intros t' d0 th0. rewrite !lookup_insert_Some. intros [[<- <-]|[Hne Hd0]] [[E <-]|[? Ht0]]; try done.
    eapply thread_ok_other; [exact Hh|exact Hg|done|by intros; apply Hls|]. by eapply (po_thread _ _ Hok).
  - intros p t' Hp. rewrite lookup_insert_is_Some'. destruct (decide (t = t')) as [|Hne]; [by left|right].
    apply (po_locks _ _ Hok p). simpl. by apply Hls.
  - eapply InvD_ext; [|exact Hinv]. intros p _. symmetry. by apply owed_update.
  - intros c. apply (rl_covered _ _ _ (guar_rely _ _ _ Hg)), (po_covered _ _ Hok).
Qed.

(** The same without a change of the store or of the debt. *)
Lemma procs_move Δ w ls ls' ts t d th th' :
  procs_ok Δ (mkProc w ls ts) → ts !! t = Some th → Δ !! t = Some d →
  (∀ p t', t' ≠ t → ls' !! p = Some t' ↔ ls !! p = Some t') → thread_ok w ls' t d th' →
  procs_ok Δ (mkProc w ls' (<[t := th']> ts)).
Proof.
  intros Hok Ht Hd Hls Hth'. destruct (po_thread _ _ Hok _ _ _ Hd Ht) as (h & Hh & _).
  rewrite <-(insert_id Δ t d) by done.
  eapply (procs_act Δ w w); [exact Hok|exact Ht|exact Hd|exact Hh|reflexivity|done|done|]. apply moved_same, Hok.
Qed.

(** A new goroutine. *)
Lemma procs_new Δ w ls ts t l :
  procs_ok Δ (mkProc w ls ts) → ts !! t = None → label_pre l None w →
  procs_ok (<[t := Settled]> Δ) (mkProc w ls (<[t := Running (Jump l)]> ts)).
Proof.
  intros Hok Ht Hl. assert (Δ !! t = None) as Hd.
  { apply not_elem_of_dom. rewrite (po_dom _ _ Hok). simpl. by apply not_elem_of_dom. }
  split; simpl.
  - rewrite !dom_insert_L. by rewrite (po_dom _ _ Hok).
  - intros t' d th. rewrite !lookup_insert_Some. intros [[<- <-]|[Hne Hd0]] [[E <-]|[? Ht0]]; try done.
    + exists None. split_and!; [|done|by split]. intros p. split; [|done]. intros Hp.
      apply (po_locks _ _ Hok) in Hp as [th Hth]. simpl in Hth. congruence.
    + by eapply (po_thread _ _ Hok).
  - intros p t' Hp. rewrite lookup_insert_is_Some'. right. by apply (po_locks _ _ Hok p).
  - eapply InvD_ext; [|apply Hok]. intros p _. unfold owed. rewrite map_sum_insert_None by done. simpl. lia.
  - apply Hok.
Qed.

(** The store changes without any goroutine. *)
Lemma procs_world Δ w w' ls ts :
  guar None w w' → (∀ D, InvD D w → InvD D w') → procs_ok Δ (mkProc w ls ts) → procs_ok Δ (mkProc w' ls ts).
Proof.
  intros Hg Hinv Hok. split; simpl; [apply Hok| |apply Hok|by apply Hinv, Hok|].
  2: { intros c. apply (rl_covered _ _ _ (guar_rely _ _ _ Hg)), (po_covered _ _ Hok). }
  intros t d th Hd Ht. destruct (po_thread _ _ Hok _ _ _ Hd Ht) as (h & Hh & Hdo & Hth).
  assert (rely h w w') as R by (apply Hg; destruct h; auto).
  exists h. split_and!; [done|by eapply debt_ok_stable|].
  destruct th as [c|p k|]; [by eapply safe_stable| |done].
  destruct Hth as (? & ? & ?). split; [done|]. split; [|done]. eapply safe_stable; [by eapply rely_None|done].
Qed.

(** A lock is taken and given back. *)
Lemma holds_take ls t p : holds ls t None → ls !! p = None → holds (<[p := t]> ls) t (Some p).
Proof.
  intros Hh Hp p'. rewrite lookup_insert_Some. split; [|intros [= <-]; by left].
  intros [[<- _]|[_ E]]; [done|]. by apply Hh in E.
Qed.

Lemma holds_give ls t p : holds ls t (Some p) → holds (delete p ls) t None.
Proof.
  intros Hh p'. rewrite lookup_delete_Some. split; [|done]. intros [Hne E]. apply Hh in E. congruence.
Qed.

Lemma procs_tstep Δ s s' t : procs_ok Δ s → tstep t s s' → ∃ Δ', procs_ok Δ' s'.
Proof.
  intros Hok Hstep. pose proof (procs_InvC _ _ Hok) as Hinv. destruct Hstep;
    destruct (procs_debt_running _ _ _ _ Hok H0) as (d & h & Hd & Hh & Hdo & Hs); simpl in *.
  - exists Δ. destruct Hs as [-> Hl]. eapply (procs_move _ _ ls); [done..|]. exists h. split_and!; [done..|].
    by apply safe_body.
  - specialize (Hs w (owed Δ) ltac:(reflexivity) Hinv). unfold wp in Hs. rewrite H1 in Hs.
    destruct Hs as (d' & ? & ? & ? & ?). exists (<[t := d']> Δ).
    eapply (procs_act _ w); [done..|by exists h|done].
  - specialize (Hs w (owed Δ) ltac:(reflexivity) Hinv). unfold wp in Hs. rewrite H1 in Hs.
    destruct Hs as (-> & -> & ? & ?). exists (<[t := Settled]> Δ).
    eapply (procs_act _ w _ ls); [done..|by exists None|by apply moved_same].
  - destruct Hs as [-> Hk]. exists Δ. eapply (procs_move _ _ ls); [done..| |].
    + intros p' t' Hne. rewrite lookup_insert_Some. naive_solver.
    + exists (Some p). split_and!; [by apply holds_take|done|]. by apply Hk.
  - destruct Hs as [-> Hk]. exists Δ. eapply (procs_move _ _ ls); [done..| |].
    + intros p' t' Hne. rewrite lookup_delete_Some. naive_solver.
    + exists None. split_and!; [by eapply holds_give|done..].
  - destruct Hs as (-> & -> & Hk). exists Δ. eapply (procs_move _ _ ls); [done..| |].
    + intros p' t' Hne. rewrite lookup_delete_Some. naive_solver.
    + exists None. split_and!; [by eapply holds_give|done..].
  - exists Δ. assert (t ≠ t') by congruence.
    destruct (procs_debt _ _ _ _ Hok H1) as (d' & Hd' & h' & Hh' & Hdo' & -> & Hk' & ->); simpl in *.
    eapply (procs_move _ _ ls); [|by rewrite lookup_insert_ne|done|done|by exists h].
    eapply (procs_move _ _ ls); [done..|by exists None].
  - exists Δ. eapply (procs_move _ _ ls); [done..|by exists h].
  - destruct Hs as [Hl Hk]. exists (<[t' := Settled]> Δ). assert (t ≠ t') by congruence.
    apply procs_new; [|by rewrite lookup_insert_ne|done].
    eapply (procs_move _ _ ls); [done..|by exists h].
Qed.

Lemma procs_pstep Δ s s' : procs_ok Δ s → pstep s s' → ∃ Δ', procs_ok Δ' s'.
Proof.
  intros Hok Hs. destruct Hs as [t s1 s1' Hs|r w ls ts t Ht|p c e w ls ts Hc|w ls ts t Ht]; [exact (procs_tstep _ _ _ _ Hok Hs)|..].
  - exists (<[t := Settled]> Δ). by apply procs_new.
  - exists Δ. eapply (procs_world _ w); [apply guar_put_conn| |done].
    intros D HD. apply inv_upd_conn; [|done]. simpl. eauto.
  - exists (<[t := Settled]> Δ). by apply procs_new.
Qed.

Lemma procs_boot cfg : procs_ok ∅ (boot cfg).
Proof.
  split; simpl; [by rewrite !dom_empty_L|done..| |done].
  split; [apply (inv_wf _ _ (si_inv _ (SysInv_start cfg)))|..]; simpl; by setoid_rewrite lookup_empty.
Qed.

Lemma procs_running cfg s : running cfg s → ∃ Δ, procs_ok Δ s.
Proof.
  intros Hr. eapply (rtc_ind_r (λ s, ∃ Δ, procs_ok Δ s)); [exists ∅; apply procs_boot| |exact Hr].
  intros s1 s2 _ Hs [Δ HΔ]. by eapply procs_pstep.
Qed.
End preservation.

(** ** Counting goroutines *)

(** A goroutine in the middle of an operation: not finished, not at the head of its
    loop, not asleep and not blocked. *)
Definition busy (th : thread) : bool :=
  match th with
  | Running Ret | Running (Jump _) | Asleep _ _ | Blocked_write => false
  | Running _ => true
  end.

Definition busy_count (s : Proc) : Z := map_sum (λ th, if busy th then 1 else 0) (p_threads s).

(** Sums over two maps with the same keys. *)
Lemma map_sum_abs_le `{Countable K} {A B} (f : A → Z) (g : B → Z) (m1 : gmap K A) (m2 : gmap K B) :
  dom m1 = dom m2 → (∀ k a b, m1 !! k = Some a → m2 !! k = Some b → Z.abs (f a) ≤ g b) →
  Z.abs (map_sum f m1) ≤ map_sum g m2.
Proof.
  revert m2. induction m1 as [|k a m1 Hk _ IH] using map_first_key_ind; intros m2 Hdom Hle.
  { rewrite dom_empty_L in Hdom. symmetry in Hdom. apply dom_empty_inv_L in Hdom as ->. by rewrite !map_sum_empty. }
  assert (k ∈ dom m2) as [b Hb]%elem_of_dom by (rewrite <-Hdom; set_solver).
  rewrite map_sum_insert_None by done.
  pose proof (Hle k a b ltac:(by rewrite lookup_insert_eq) Hb).
  assert (Z.abs (map_sum f m1) ≤ map_sum g (delete k m2)) as IH'; [apply IH|].
  - rewrite dom_delete_L, <-Hdom, dom_insert_L. apply not_elem_of_dom in Hk. set_solver.
  - intros k' a' b' Ha' [? ?]%lookup_delete_Some. apply (Hle k'); [|done]. by rewrite lookup_insert_ne.
  - rewrite (map_sum_delete g m2 k b) in IH' by done. lia.
Qed.

Section claims.
Context `{Oracle}.

(** A goroutine has a debt only in the middle of an operation. *)
Lemma owed_busy Δ s p : procs_ok Δ s → Z.abs (owed Δ p) ≤ busy_count s.
Proof.
  intros Hok. apply map_sum_abs_le; [apply Hok|]. intros t d th Hd Ht.
  destruct (po_thread _ _ Hok _ _ _ Hd Ht) as (h & _ & _ & Hth). pose proof (amount_bound d p).
  destruct th as [c|q k|]; [|destruct Hth as (_ & _ & ->); by simpl|destruct Hth as (_ & ->); by simpl].
  destruct c; simpl; try lia; destruct Hth as [-> _]; by simpl.
Qed.

(** C1: However the critical sections of the goroutines interleave, the books of a
    queue are wrong by at most one message per goroutine that is in the middle of an
    operation, and balance when none is. *)
Theorem interleaved_ledger cfg s p q :
  running cfg s → w_queue (p_world s) !! p = Some q →
  Z.abs (counter (Enqueued (q_name q)) (w_metrics (p_world s)) -
    (Z.of_nat (length (q_messages q)) + total_inflight p (p_world s) +
     counter (Acked (q_name q)) (w_metrics (p_world s)) +
     counter (DeadLettered (q_name q)) (w_metrics (p_world s)) +
     counter (Dropped (q_name q)) (w_metrics (p_world s)))) ≤ busy_count s.
Proof.
  intros [Δ Hok]%procs_running Hq. pose proof (owed_busy Δ s p Hok) as Hb.
  rewrite <-(inv_defect _ _ (po_inv _ _ Hok) p q Hq) in Hb. unfold defect in Hb.
  rewrite balance_counters in Hb. unfold total_inflight.
  match goal with H : Z.abs ?x ≤ _ |- Z.abs ?y ≤ _ => replace y with x by lia end. done.
Qed.

Lemma procs_no_panic Δ s t B (m : M B) k :
  procs_ok Δ s → p_threads s !! t = Some (Running (Sec m k)) → m (p_world s) ≠ Panicked.
Proof.
  intros Hok Ht E. destruct (procs_debt_running _ _ _ _ Hok Ht) as (d & h & _ & _ & _ & Hs).
  specialize (Hs (p_world s) (owed Δ) ltac:(reflexivity) (procs_InvC _ _ Hok)). unfold wp in Hs. by rewrite E in Hs.
Qed.

(** C5: No interleaving of critical sections makes a goroutine panic: the next section of
    every goroutine runs without a nil or dangling dereference. *)
Theorem interleaved_no_panic cfg s t B (m : M B) k :
  running cfg s → p_threads s !! t = Some (Running (Sec m k)) → m (p_world s) ≠ Panicked.
Proof. intros [Δ Hok]%procs_running Ht. by eapply procs_no_panic. Qed.

(** C6: A consumer is never sent more than its window, although the dispatch goroutine
    finds the slot free in one section and takes it in another and settlements run in
    between.  In every interleaving the counter [inflight] is at most 10, the tags in
    flight are those of the messages held, and as long as no delivery of the queue has
    failed the counter covers the messages held, so the consumer holds at most 10 of them.
    (After a failed delivery the counter may be too low: the dispatch goroutine takes back
    a message that was acknowledged, rejected or returned while it was being written.) *)
Theorem interleaved_prefetch cfg s c co q :
  running cfg s → w_consumer (p_world s) !! c = Some co → w_queue (p_world s) !! c_queue co = Some q →
  c_inflight co ≤ 10 ∧
  c_inflightTags co = dom (c_pendingMessages co) ∧
  (∀ t m, c_pendingMessages co !! t = Some m → m_DeliveryTag m = t) ∧
  (counter (DeliverErrors (q_name q)) (w_metrics (p_world s)) = 0 →
   Z.of_nat (size (c_pendingMessages co)) ≤ c_inflight co).
Proof.
  intros [Δ Hok]%procs_running Hc Hq. destruct (inv_consumer _ _ (po_inv _ _ Hok) c co Hc) as [Hp Hb Ht Hk].
  rewrite Hp in Hb. split_and!; [done..|]. intros Hn.
  destruct (po_covered _ _ Hok c co Hc) as [?|(q' & Hq' & Hf)]; [done|]. simplify_eq.
  by apply counter_zero in Hn.
Qed.

(** A goroutine that is neither asleep nor blocked, has not returned, and does not wait
    for a lock, has a step. *)
Lemma runs_on Δ s t c :
  procs_ok Δ s → p_threads s !! t = Some (Running c) →
  (∃ s', tstep t s s') ∨ c = Ret ∨ ∃ p k t', c = Lock p k ∧ p_locks s !! p = Some t'.
Proof.
  intros Hok Ht. destruct (procs_debt_running _ _ _ _ Hok Ht) as (d & h & _ & Hh & _ & Hs).
  assert (∀ s', trun t s = Some s' → ∃ s', tstep t s s') as Hrun by (intros s' E; exists s'; by apply trun_tstep).
  destruct s as [w ls ts]; simpl in *. rewrite Ht in Hrun.
  destruct c as [|l|B m k|p k|p k|p k|p k|l k]; simpl in Hs; [by auto|left; by eapply Hrun|..].
  - left. specialize (Hs w (owed Δ) ltac:(reflexivity) (procs_InvC _ _ Hok)). unfold wp in Hs.
    destruct (m w); [by eapply Hrun..|done].
  - destruct (ls !! p) as [t'|] eqn:Hp; [right; right; by exists p, k, t'|left; by eapply Hrun].
  - left. destruct Hs as [-> _]. pose proof (proj2 (Hh p) eq_refl) as Hp. rewrite decide_True in Hrun by done.
    by eapply Hrun.
  - left. destruct Hs as [-> _]. pose proof (proj2 (Hh p) eq_refl) as Hp. rewrite decide_True in Hrun by done.
    by eapply Hrun.
  - left. destruct (sleeper p ts) as [[t' k']|]; by eapply Hrun.
  - left. by eapply Hrun.
Qed.

(** The owner of a queue's lock holds no other and can step. *)
Lemma owner_steps Δ s p t :
  procs_ok Δ s → p_locks s !! p = Some t →
  (∀ p', p_locks s !! p' = Some t → p' = p) ∧ ∃ s', tstep t s s'.
Proof.
  intros Hok Hp. destruct (po_locks _ _ Hok p t Hp) as [th Ht].
  destruct (procs_debt _ _ _ _ Hok Ht) as (d & _ & h & Hh & _ & Hth).
  assert (h = Some p) as -> by (by apply Hh). split; [intros p' E; apply Hh in E; congruence|].
  destruct th as [c| |]; [|by destruct Hth as [? _]..].
  destruct (runs_on _ _ _ _ Hok Ht) as [?|[-> |(p' & k & t' & -> & _)]]; [done|by destruct Hth..].
Qed.

(** Deadlock freedom: no goroutine ever holds the locks of two queues; the owner of a
    queue's lock can always take its next step; and a goroutine that cannot step has
    returned, sleeps in [cond.Wait], is blocked in an unanswered write, or waits for a
    lock whose owner can step. *)
Theorem no_deadlock cfg s :
  running cfg s →
  (∀ p t, p_locks s !! p = Some t → (∀ p', p_locks s !! p' = Some t → p' = p) ∧ ∃ s', tstep t s s') ∧
  (∀ t th, p_threads s !! t = Some th →
     (∃ s', tstep t s s') ∨ th = Running Ret ∨ th = Blocked_write ∨ (∃ p k, th = Asleep p k) ∨
     ∃ p k t' s', th = Running (Lock p k) ∧ p_locks s !! p = Some t' ∧ tstep t' s s').
Proof.
  intros [Δ Hok]%procs_running. split; [intros p t; by eapply owner_steps|]. intros t th Ht.
  destruct th as [c|p k|]; [|by do 3 right; left; exists p, k|by auto].
  destruct (runs_on _ _ _ _ Hok Ht) as [?|[-> |(p & k & t' & -> & Hp)]]; [by auto..|].
  do 4 right. destruct (owner_steps _ _ _ _ Hok Hp) as [_ [s' ?]]. by exists p, k, t', s'.
Qed.
End claims.

(** ** Schedules *)

(** A producer that fills a queue with eleven messages, and a consumer that receives ten
    of them and rejects the first. *)
Definition eleven_producer : Reader := client ([
  open_channel 1; declare_exchange 1 "ex"; declare_queue 1 "jobs" "" ""; bind_queue 1 "jobs" "ex" "k"] ++
  replicate 11 (publish 1 "ex" "k" [Byte.x61])).

Definition rejecting_consumer : Reader := client [open_channel 7; consume 7 "jobs" ""; nack 7 1 (Some false)].

(** Goroutine 0 serves the producer, 1 dispatches, 2 serves the consumer.  The dispatch
    goroutine has found the consumer full and is about to wait, with the lock held. *)
Definition full_schedule : list Schedule :=
  [SAccept eleven_producer; SRun 0%nat 191; SAccept rejecting_consumer; SRun 2%nat 33; SRun 1%nat 116].

(** The consumer has given up a message and counted it as rejected, not yet as dropped. *)
Definition between_schedule : list Schedule := full_schedule ++ [SRun 2%nat 6].

Section witnesses.
#[local] Existing Instance oracle_id.

Definition scheduled (l : list Schedule) : Proc := default (boot demo_cfg) (schedule l (boot demo_cfg)).

Lemma scheduled_running l :
  match schedule l (boot demo_cfg) with Some _ => true | None => false end = true → running demo_cfg (scheduled l).
Proof.
  unfold scheduled. destruct (schedule l (boot demo_cfg)) as [s|] eqn:E; [|done]. intros _. by eapply schedule_running.
Qed.

Lemma between_running : running demo_cfg (scheduled between_schedule).
Proof. apply scheduled_running. vm_compute. reflexivity. Qed.

Lemma interleaved_ledger_witness :
  ∃ q, w_queue (p_world (scheduled between_schedule)) !! jobs = Some q ∧ length (q_messages q) = 1%nat ∧
  Z.abs (counter (Enqueued (q_name q)) (w_metrics (p_world (scheduled between_schedule))) -
    (Z.of_nat (length (q_messages q)) + total_inflight jobs (p_world (scheduled between_schedule)) +
     counter (Acked (q_name q)) (w_metrics (p_world (scheduled between_schedule))) +
     counter (DeadLettered (q_name q)) (w_metrics (p_world (scheduled between_schedule))) +
     counter (Dropped (q_name q)) (w_metrics (p_world (scheduled between_schedule))))) ≤
    busy_count (scheduled between_schedule).
Proof.
  eexists. split; [vm_compute; reflexivity|]. split; [reflexivity|].
  apply (interleaved_ledger demo_cfg (scheduled between_schedule) jobs); [apply between_running|].
  vm_compute. reflexivity.
Defined.

Definition is_section (o : option thread) : bool :=
  match o with Some (Running (Sec _ _)) => true | _ => false end.

Lemma interleaved_no_panic_witness :
  ∃ B (m : M B) k, p_threads (scheduled between_schedule) !! 2%nat = Some (Running (Sec m k)) ∧
    m (p_world (scheduled between_schedule)) ≠ Panicked.
Proof.
  assert (is_section (p_threads (scheduled between_schedule) !! 2%nat) = true) as Hs by (vm_compute; reflexivity).
  destruct (p_threads (scheduled between_schedule) !! 2%nat) as [[[| |B m k| | | | |]| |]|] eqn:E; try discriminate Hs.
  exists B, m, k. split; [reflexivity|].
  exact (interleaved_no_panic demo_cfg _ 2%nat B m k between_running E).
Defined.

Lemma interleaved_prefetch_witness :
  ∃ co q, w_consumer (p_world (scheduled full_schedule)) !! 0%nat = Some co ∧
    w_queue (p_world (scheduled full_schedule)) !! c_queue co = Some q ∧
    counter (DeliverErrors (q_name q)) (w_metrics (p_world (scheduled full_schedule))) = 0 ∧
    size (c_pendingMessages co) = 10%nat ∧ Z.of_nat (size (c_pendingMessages co)) ≤ c_inflight co ≤ 10.
Proof.
  eexists. eexists. split; [vm_compute; reflexivity|]. split; [vm_compute; reflexivity|].
  split; [vm_compute; reflexivity|]. split; [vm_compute; reflexivity|].
  edestruct (interleaved_prefetch demo_cfg (scheduled full_schedule) 0%nat) as (Hb & _ & _ & Hh).
  - apply scheduled_running. vm_compute. reflexivity.
  - vm_compute. reflexivity.
  - vm_compute. reflexivity.
  - split; [apply Hh; vm_compute; reflexivity|exact Hb].
Defined.

Lemma no_deadlock_witness :
  p_locks (scheduled between_schedule) !! jobs = Some 1%nat ∧
  ∃ s', tstep 1%nat (scheduled between_schedule) s'.
Proof.
  split; [vm_compute; reflexivity|].
  apply (proj1 (no_deadlock demo_cfg (scheduled between_schedule) between_running) jobs 1%nat).
  vm_compute. reflexivity.
Defined.

(** The consumer rejects a message between the dispatch goroutine's look at it and its
    [Wait]. *)
Definition lost_schedule : list Schedule := full_schedule ++ [SRun 2%nat 10; SRun 1%nat 1].

(** C40: A wake-up can be lost.  [HandleNack] frees a slot of the consumer and signals
    without the lock of the queue; when it does so after [selectConsumer] has found the
    consumer full and before [Wait], the dispatch goroutine sleeps although the queue has
    a message and its consumer a free slot, and every other goroutine is back at
    reading from its client. *)
Theorem lost_wakeup : ∃ s, running demo_cfg s ∧
  p_threads s !! 0%nat = Some (Running (Jump (LServe 0%nat))) ∧
  p_threads s !! 1%nat = Some (Asleep jobs (Unlock jobs (Jump (LDispatch jobs)))) ∧
  p_threads s !! 2%nat = Some (Running (Jump (LServe 1%nat))) ∧
  size (p_threads s) = 3%nat ∧ p_locks s = ∅ ∧
  (λ q, (m_DeliveryTag <$> q_messages q, q_consumers q)) <$> w_queue (p_world s) !! jobs = Some ([11], {[0%nat]}) ∧
  c_inflight <$> w_consumer (p_world s) !! 0%nat = Some 9.
Proof.
  exists (scheduled lost_schedule). split; [apply scheduled_running; vm_compute; reflexivity|].
  repeat (split; [vm_compute; reflexivity|]). vm_compute. reflexivity.
Qed.
End witnesses.
