(* ===== verification/Sequential.v ===== *)
(** * A goroutine that is not interrupted

    [solo c] runs the code of a goroutine with nobody in between.  For every handler,
    for the handshake and for the clean-up of a connection it is the function of
    [Channel], [Connection] and [Server] of the same name, so the atomic steps of
    [Server] are schedules of [Goroutines] in which a handler is not preempted. *)

From S2P Require Import Prelude GoJson Protocol State Transport Queue Exchange Broker Channel Connection Server Goroutines Scenario.

(** ** Programs with the same effect *)

Record prog_eq {A} (m m' : M A) : Prop := same_run { run_eq : ∀ w, m w = m' w }.
Infix "≈" := prog_eq (at level 70, no associativity) : gomq_scope.

#[export] Instance prog_eq_equiv {A} : Equivalence (@prog_eq A).
Proof.
  split; [done|intros x y Hx; split; intros w; by rewrite (run_eq _ _ Hx)|].
  intros x y z Hx Hy. split. intros w. by rewrite (run_eq _ _ Hx), (run_eq _ _ Hy).
Qed.

#[export] Instance prog_bind_proper {A B} :
  Proper (pointwise_relation A (@prog_eq B) ==> @prog_eq A ==> @prog_eq B) (@mbind M _ A B).
Proof.
  intros f f' Hf m m' Hm. split. intros w. unfold mbind, prog_bind. rewrite (run_eq _ _ Hm).
  destruct (m' w); [apply Hf|done..].
Qed.

Section laws.
Context {A B C : Type}.

Lemma prog_assoc (m : M A) (f : A → M B) (g : B → M C) : (m ≫= f) ≫= g ≈ m ≫= λ a, f a ≫= g.
Proof. split. intros w. unfold mbind, prog_bind. by destruct (m w). Qed.

Lemma prog_assoc_l (m : M A) (f : A → M B) (g : B → M C) x :
  m ≫= (λ a, f a ≫= g) ≈ x → (m ≫= f) ≫= g ≈ x.
Proof. intros <-. apply prog_assoc. Qed.

Lemma prog_assoc_r (m : M A) (f : A → M B) (g : B → M C) x :
  x ≈ m ≫= (λ a, f a ≫= g) → x ≈ (m ≫= f) ≫= g.
Proof. intros ->. symmetry. apply prog_assoc. Qed.

Lemma prog_ret_l (a : A) (f : A → M B) : mret a ≫= f ≈ f a.
Proof. done. Qed.

Lemma prog_bind_ext (m m' : M A) (f f' : A → M B) :
  m ≈ m' → (∀ a, f a ≈ f' a) → m ≫= f ≈ m' ≫= f'.
Proof. intros Hm Hf. by apply prog_bind_proper. Qed.
End laws.

(** Lines the first commands of the two sides up, and goes past them. *)
Ltac line_up :=
  repeat match goal with
         | |- (_ ≫= _) ≫= _ ≈ _ => apply prog_assoc_l
         | |- _ ≈ (_ ≫= _) ≫= _ => apply prog_assoc_r
         end.
Ltac go_past := line_up; apply prog_bind_ext; [reflexivity|].

(** ** Running alone *)

(** [Signal] wakes the dispatch goroutine as in the sequential model; locks are free. *)
Fixpoint solo (c : code) : M unit :=
  match c with
  | Ret | Jump _ | Wait _ _ => mret tt
  | Sec m k => b ← m; solo (k b)
  | Lock _ k | Unlock _ k | Go _ k => solo k
  | Signal q k => signal q;; solo k
  end.

Section queues.
Context `{Oracle}.

Lemma solo_enqueue p msg k : solo (g_enqueue p msg k) ≈ (enqueue p msg;; solo k).
Proof.
  split. intros w. unfold g_enqueue, enqueue, inc_queue, push_back; cbn [solo]; unfold_prims.
  unfold mbind, prog_bind, deref, modify; simpl. destruct (w_queue w !! p) as [q|] eqn:Hq; [|done].
  simpl. by rewrite Hq.
Qed.

Lemma solo_registerConsumer p c k : solo (g_registerConsumer p c k) ≈ (registerConsumer p c;; solo k).
Proof.
  split. intros w. unfold g_registerConsumer, registerConsumer; cbn [solo]; unfold_prims.
  unfold mbind, prog_bind, deref, modify; simpl. by destruct (w_queue w !! p).
Qed.

Lemma solo_unregisterConsumer p c k : solo (g_unregisterConsumer p c k) ≈ (unregisterConsumer p c;; solo k).
Proof.
  unfold g_unregisterConsumer, unregisterConsumer, return_pending; cbn [solo].
  go_past. intros q. case_decide; cbn [solo]; [|done]. go_past. intros []. go_past. intros co. go_past. intros l.
  go_past. intros []. go_past. intros co'. go_past. intros []. go_past. by intros [].
Qed.

Lemma solo_publish_to ex rk body p k :
  solo (g_publish_to ex rk body p k) ≈ (publish_to ex rk body p;; solo k).
Proof. unfold g_publish_to, publish_to; cbn [solo]. go_past. intros tag. apply solo_enqueue. Qed.

Lemma solo_for_each {A} (l : list A) (f : A → code → code) (g : A → M unit) k :
  (∀ x k, solo (f x k) ≈ (g x;; solo k)) → solo (for_each l f k) ≈ (forM_ l g;; solo k).
Proof.
  intros Hf. induction l as [|x l IH]; [done|]. cbn [for_each forM_]. rewrite Hf. go_past. by intros [].
Qed.
End queues.

Section brokers.
Context `{Oracle}.

Lemma solo_Publish ex rk body (k : option string → code) :
  solo (g_Publish ex rk body k) ≈ Broker.Publish ex rk body ≫= λ r, solo (k r).
Proof.
  unfold g_Publish, Broker.Publish; cbn [solo]. go_past. intros b.
  destruct (b_exchanges b !! ex) as [ep|]; cbn [solo]; go_past; intros []; [|done]. go_past. intros qs. line_up.
  assert (∀ k, solo (for_each qs (g_publish_to ex rk body) k) ≈ (forM_ qs (publish_to ex rk body);; solo k)) as Hl
    by (intros; apply solo_for_each; intros; apply solo_publish_to).
  case_decide; cbn [solo]; [go_past; intros []|rewrite prog_ret_l]; line_up; apply Hl.
Qed.

Lemma solo_DeclareQueue name dlx rk k : solo (g_DeclareQueue name dlx rk k) ≈ (DeclareQueue name dlx rk;; solo k).
Proof.
  split. intros w. unfold g_DeclareQueue, DeclareQueue, declare_section; cbn [solo].
  unfold mbind, prog_bind, gets; simpl. by destruct (b_queues (w_broker w) !! name).
Qed.

Lemma solo_RegisterConsumer tag queue chp (k : string + string → code) :
  solo (g_RegisterConsumer tag queue chp k) ≈ RegisterConsumer tag queue chp ≫= λ r, solo (k r).
Proof.
  unfold g_RegisterConsumer, RegisterConsumer; cbn [solo]. go_past. intros b.
  destruct (b_queues b !! queue) as [p|]; [|done]. cbn [solo]. split. intros w.
  unfold registerConsumer; unfold_prims. unfold mbind, prog_bind, deref, gets, modify, mret, prog_ret.
  destruct (w_channel w !! chp) as [ch|] eqn:Hch; [|done]. cbv zeta.
  destruct (ch_consumers ch !! c_tag (NewConsumer tag p chp ch)); [done|].
  unfold g_registerConsumer; cbn [solo]; unfold_prims. unfold mbind, prog_bind, deref, gets, modify, mret, prog_ret; simpl.
  destruct (w_queue w !! p) as [q|]; [|done]. simpl. by rewrite Hch.
Qed.

Lemma solo_BindQueue ex qn rk (k : option string → code) :
  solo (g_BindQueue ex qn rk k) ≈ BindQueue ex qn rk ≫= λ r, solo (k r).
Proof.
  unfold g_BindQueue, BindQueue; cbn [solo]. go_past. intros b.
  destruct (b_exchanges b !! ex) as [ep|]; [|done]. destruct (b_queues b !! qn) as [qp|]; [|done].
  cbn [solo]. go_past. by intros [].
Qed.

Lemma solo_ack_scan p n t cs (k : option string → code) :
  solo (ack_scan p n t cs k) ≈
  (r ← for_return cs (ack_consumer t);
   match r with
   | Some _ => signal p;; inc (Acked n);; solo (k None)
   | None => solo (k (Some ("delivery tag " +:+ pretty t +:+ " not found in any consumer on queue " +:+ quote n)))
   end).
Proof.
  induction cs as [|c cs IH]; [done|]. cbn [ack_scan solo for_return]. go_past. intros [[]|]; [|done]. done.
Qed.

Lemma solo_Ack n t (k : option string → code) :
  solo (g_Ack n t k) ≈ Broker.Ack n t ≫= λ r, solo (k r).
Proof.
  unfold g_Ack, Broker.Ack; cbn [solo]. go_past. intros b.
  destruct (b_queues b !! n) as [p|]; [|done]. cbn [solo]. go_past. intros q. go_past. intros cs.
  rewrite solo_ack_scan. go_past. intros [[]|]; [|done]. go_past. intros []. go_past. by intros [].
Qed.
End brokers.

(** ** Handlers *)

Section handlers.
Context `{Oracle}.

Lemma solo_cleanup chp k : solo (g_cleanup chp k) ≈ (cleanup chp;; solo k).
Proof.
  unfold g_cleanup, cleanup; cbn [solo]. go_past. intros ch. go_past. intros cs. apply solo_for_each.
  intros [tag c] k'. cbn [solo]. go_past. intros co. apply solo_unregisterConsumer.
Qed.

(** A loop that returns when it finds something. *)
Lemma solo_ack_loop t cs k :
  solo (ack_loop t cs k) ≈
  (for_return cs (λ '(_, c),
     co ← get_consumer c;
     if decide (t ∈ c_inflightTags co) then
       q ← get_queue (c_queue co); Broker.Ack (q_name q) t;; mret (Some tt)
     else mret None);; solo k).
Proof.
  induction cs as [|[tag c] cs IH]; [done|]. cbn [ack_loop for_return solo]. split. intros w.
  unfold_prims. unfold mbind, prog_bind, deref, gets, mret, prog_ret.
  destruct (w_consumer w !! c) as [co|] eqn:Hc; [|done].
  case_bool_decide; [rewrite decide_True by done|rewrite decide_False by done]; cbn [solo].
  - unfold mbind, prog_bind. rewrite Hc. destruct (w_queue w !! c_queue co) as [q|]; [|done].
    rewrite (run_eq _ _ (solo_Ack _ _ _)). unfold mbind, prog_bind. by destruct (Broker.Ack (q_name q) t w).
  - apply IH.
Qed.

(** [q := get_queue p; inc (f q.name); m q]: reading the queue again changes nothing. *)
Lemma solo_inc_queue {A} f p (m : M A) (m' : Queue → M A) :
  (∀ q w, w_queue w !! p = Some q → m w = m' q w) →
  (inc_queue f p;; m) ≈ (q ← get_queue p; inc (f (q_name q));; m' q).
Proof.
  intros Hm. split. intros w. unfold inc_queue; unfold_prims. unfold mbind, prog_bind, deref, modify.
  destruct (w_queue w !! p) as [q|] eqn:Hq; [|done]. by apply Hm.
Qed.

Lemma solo_nack_dispose p msg b k : solo (g_nack_dispose p msg b k) ≈ (nack_dispose p msg b;; solo k).
Proof.
  unfold g_nack_dispose, nack_dispose; cbn [solo]. line_up.
  etrans; [apply (solo_inc_queue (λ n, Nacked n (format_bool b)) p _ (λ q, solo
    (if b then Lock p (Sec (put_queue p (set_messages (msg :: q_messages q) q)) (λ _, Unlock p (Signal p k)))
     else if decide (q_dlx q ≠ "") then
       Sec (inc (DeadLettered (q_name q))) (λ _,
       g_Publish (q_dlx q) (if decide (q_dlxRoutingKey q = "") then m_RoutingKey msg else q_dlxRoutingKey q)
         (m_Body msg) (λ _, Signal p k))
     else Sec (inc (Dropped (q_name q))) (λ _, Signal p k))))|].
  - intros q w Hq. destruct b; cbn [solo].
    + unfold push_front; unfold_prims. unfold mbind, prog_bind, deref. by rewrite Hq.
    + unfold_prims. by rewrite (bind_deref _ _ _ q).
  - go_past. intros q. go_past. intros []. destruct b; [|case_decide]; cbn [solo].
    + go_past. by intros [].
    + go_past. intros []. rewrite solo_Publish. go_past. by intros r.
    + go_past. by intros [].
Qed.

Lemma solo_nack_loop t b cs k :
  solo (nack_loop t b cs k) ≈
  (for_return cs (λ '(_, c),
     m ← nack_take t c;
     match m with
     | None => mret None
     | Some msg => co ← get_consumer c; nack_dispose (c_queue co) msg b;; mret (Some tt)
     end);; solo k).
Proof.
  induction cs as [|[tag c] cs IH]; [done|]. cbn [nack_loop for_return solo]. go_past.
  intros [msg|]; cbn [solo]; [|exact IH]. go_past. intros co. rewrite solo_nack_dispose. go_past. by intros [].
Qed.

Lemma solo_route chp env k : solo (g_route chp env k) ≈ (route chp env;; solo k).
Proof.
  unfold g_route, route. repeat case_decide.
  - unfold g_HandlePublish, HandlePublish. destruct (Unmarshal _) as [event [e|]]; [done|].
    rewrite solo_Publish. go_past. by intros [e|].
  - unfold g_HandleConsume, HandleConsume. destruct (Unmarshal _) as [event [e|]]; [done|].
    rewrite solo_RegisterConsumer. go_past. by intros [e|r].
  - unfold g_HandleAck, HandleAck. destruct (Unmarshal _) as [event [e|]]; [done|]. cbn [solo].
    go_past. intros ch. go_past. intros cs. rewrite solo_ack_loop. go_past. by intros [].
  - unfold g_HandleNack, HandleNack. destruct (Unmarshal _) as [event [e|]]; [done|]. cbn [solo].
    go_past. intros ch. go_past. intros cs. rewrite solo_nack_loop. go_past. by intros [].
  - unfold g_HandleQueueDeclare, HandleQueueDeclare. destruct (Unmarshal _) as [event e].
    rewrite solo_DeclareQueue. go_past. by intros [].
  - unfold g_HandleExchangeDeclare, HandleExchangeDeclare. destruct (Unmarshal _) as [event e]. cbn [solo].
    go_past. by intros [].
  - unfold g_HandleQueueBind, HandleQueueBind. destruct (Unmarshal _) as [event [e|]]; [done|].
    rewrite solo_BindQueue. go_past. by intros r.
  - done.
Qed.

Lemma solo_conn_cleanup p k : solo (g_conn_cleanup p k) ≈ (conn_cleanup p;; solo k).
Proof.
  unfold g_conn_cleanup, conn_cleanup; cbn [solo]. go_past. intros c. go_past. intros chs.
  apply solo_for_each. intros [id ch] k'. apply solo_cleanup.
Qed.
End handlers.

(** ** The scrape *)

Section scrapes.
Context `{Oracle}.

Lemma solo_collect_consumers name cs acc (k : list Sample → code) :
  solo (collect_consumers name cs acc k) ≈
  sample_each cs (λ c, co ← get_consumer c; mret [SConsumerInflight (c_inflight co) name (c_tag co)]) ≫=
    λ s, solo (k (acc ++ s)).
Proof.
  revert acc. induction cs as [|c cs IH]; intros acc; cbn [collect_consumers sample_each solo].
  { rewrite prog_ret_l. by rewrite app_nil_r. }
  go_past. intros co. line_up. rewrite !prog_ret_l, IH. line_up. apply prog_bind_ext; [done|].
  intros s. by rewrite prog_ret_l, <-app_assoc.
Qed.

Lemma solo_collect_queue p acc (k : list Sample → code) :
  solo (g_collect_queue p acc k) ≈ collect_queue p ≫= λ s, solo (k (acc ++ s)).
Proof.
  unfold g_collect_queue, collect_queue; cbn [solo]. go_past. intros q. go_past. intros cs.
  rewrite solo_collect_consumers. go_past. intros s. rewrite prog_ret_l. cbn [solo]. by rewrite <-app_assoc.
Qed.

Lemma solo_collect_queues_of qs acc (k : list Sample → code) :
  solo (collect_queues_of qs acc k) ≈ sample_each qs (λ '(_, p), collect_queue p) ≫= λ s, solo (k (acc ++ s)).
Proof.
  revert acc. induction qs as [|[n p] qs IH]; intros acc; cbn [collect_queues_of sample_each].
  { rewrite prog_ret_l. by rewrite app_nil_r. }
  rewrite solo_collect_queue. go_past. intros s. rewrite IH. go_past. intros s'.
  by rewrite prog_ret_l, app_assoc.
Qed.

Lemma solo_Collect (k : list Sample → code) : solo (g_Collect k) ≈ Collect ≫= λ s, solo (k s).
Proof.
  unfold g_Collect, Collect; cbn [solo]. go_past. intros n. go_past. intros b. go_past. intros qs.
  rewrite solo_collect_queues_of. go_past. intros s. by rewrite prog_ret_l.
Qed.
End scrapes.

(** ** Connections *)

Section connections.
Context `{Oracle}.

Lemma solo_close p : solo (g_close p) ≈ close_connection p.
Proof.
  unfold g_close, close_connection; cbn [solo]. go_past. intros []. go_past. intros [].
  rewrite solo_conn_cleanup. cbn [solo]. go_past. intros []. go_past. intros []. line_up.
  split. intros w. unfold_prims. unfold mbind, prog_bind, deref. by destruct (w_conn w !! p).
Qed.

Lemma solo_RunHandshake p (k : option string → code) :
  solo (g_RunHandshake p k) ≈ RunHandshake p ≫= λ r, solo (k r).
Proof.
  unfold g_RunHandshake, RunHandshake; cbn [solo].
  repeat first [progress (go_past; intros ?)
               | match goal with |- context [match ?o with Some _ => _ | None => _ end] => destruct o; cbn [solo]; [done|] end ].
  done.
Qed.

Lemma solo_Handle p env k : solo (g_Handle p env k) ≈ (Handle p env;; solo k).
Proof.
  unfold g_Handle, Handle. case_decide; [|case_decide].
  - unfold g_ChannelOpen, ChannelOpen, install_channel. destruct (Unmarshal _) as [event e]. cbn [solo].
    go_past. intros c. go_past. intros chp. go_past. intros []. go_past. intros []. go_past. by intros r.
  - unfold g_ChannelClose, ChannelClose; cbn [solo]. go_past. intros c. go_past. intros []. line_up.
    rewrite prog_ret_l. destruct (cn_channels c !! env_ChannelID env) as [ch|].
    + rewrite solo_cleanup. cbn [solo]. go_past. intros []. go_past. by intros r.
    + cbn [solo]. rewrite prog_ret_l. go_past. by intros r.
  - unfold routeToChannel; cbn [solo]. go_past. intros c. rewrite prog_ret_l.
    destruct (cn_channels c !! env_ChannelID env) as [ch|]; [apply solo_route|].
    cbn [solo]. go_past. by intros r.
Qed.

(** The handlers that the process of [Server] runs as one step are the code of the
    goroutines run without interruption: for the handling of any envelope, for the
    handshake, for the clean-up of a connection and for a scrape, on every store, both
    end in the same store, block in the same store or panic alike. *)
Theorem handlers_are_uninterrupted p env w :
  solo (g_Handle p env Ret) w = Handle p env w ∧
  solo (g_close p) w = close_connection p w ∧
  (∀ k, solo (g_RunHandshake p k) w = (RunHandshake p ≫= λ r, solo (k r)) w) ∧
  ∀ k, solo (g_Collect k) w = (Collect ≫= λ s, solo (k s)) w.
Proof.
  split; [|split; [apply solo_close|split; intros k; [apply solo_RunHandshake|apply solo_Collect]]].
  rewrite (run_eq _ _ (solo_Handle p env Ret)). unfold mbind, prog_bind. simpl. by destruct (Handle p env w) as [[]| |].
Qed.
End connections.
