(* ===== verification/Mutexes.v ===== *)
(** * The broker with all its mutexes

    [Goroutines] has the locks of queues; what the other mutexes protect is a section
    there.  Here every [Lock] and [Unlock] of src/broker is an operation: [Server.mu],
    [Connection.mu], [Broker.mu], [Exchange.mu], [Queue.mu] and [Consumer.mu].  The code
    of every function is that of [Goroutines] with the missing mutexes put in, and the
    scheduler ([fstep], [fpstep]) makes a goroutine wait for any of them.  [LockOrder]
    relates the two levels and proves that no mutex deadlocks. *)

From S2P Require Import Prelude GoJson Protocol State Transport Queue Exchange Broker Channel Connection Server Goroutines Schedules.

Inductive mutex : Type :=
| MServer
| MConn (p : loc)
| MBroker
| MExchange (p : loc)
| MQueue (p : loc)
| MConsumer (p : loc).

#[export] Instance mutex_eq_dec : EqDecision mutex.
Proof. solve_decision. Defined.

#[export] Instance mutex_countable : Countable mutex.
Proof.
  refine (inj_countable'
    (λ m, match m with
          | MServer => (0, 0) | MConn p => (1, p) | MBroker => (2, 0)
          | MExchange p => (3, p) | MQueue p => (4, p) | MConsumer p => (5, p)
          end : nat * loc)%nat
    (λ x, match x with
          | (0, _) => MServer | (1, p) => MConn p | (2, _) => MBroker
          | (3, p) => MExchange p | (4, p) => MQueue p | (_, p) => MConsumer p
          end)%nat _).
  by intros [].
Defined.

(** The order in which a goroutine may take mutexes. *)
Definition rank (m : mutex) : nat :=
  match m with
  | MServer => 0
  | MConn _ => 1
  | MBroker => 2
  | MExchange _ => 3
  | MQueue _ => 4
  | MConsumer _ => 5
  end.

Inductive fcode : Type :=
| FRet
| FJump (l : label)
| FSec {B : Type} (m : M B) (k : B → fcode)
| FLock (mu : mutex) (k : fcode)
| FUnlock (mu : mutex) (k : fcode)
| FWait (q : loc) (k : fcode)
| FSignal (q : loc) (k : fcode)
| FGo (l : label) (k : fcode).

(** [mu.Lock(); b := m; mu.Unlock()] *)
Definition Under {B} (mu : mutex) (m : M B) (k : B → fcode) : fcode :=
  FLock mu (FSec m (λ b, FUnlock mu (k b))).

Fixpoint f_for_each {A} (l : list A) (body : A → fcode → fcode) (k : fcode) : fcode :=
  match l with
  | [] => k
  | x :: l' => body x (f_for_each l' body k)
  end.

Section code.
Context `{Oracle}.

(** ** queue.go *)

Definition f_registerConsumer (p c : loc) (k : fcode) : fcode :=
  Under (MQueue p) (q ← get_queue p; put_queue p (set_consumers (q_consumers q ∪ {[c]}) q)) (λ _, FSignal p k).

Definition f_unregisterConsumer (p c : loc) (k : fcode) : fcode :=
  FLock (MQueue p) (FSec (get_queue p) (λ q,
  if decide (c ∈ q_consumers q) then
    FSec (put_queue p (set_consumers (q_consumers q ∖ {[c]}) q)) (λ _,
    Under (MConsumer c) (return_pending p c) (λ _,
    FUnlock (MQueue p) (
    FSec (inc (ConsumersUnregistered (q_name q))) (λ _,
    FSignal p k))))
  else FUnlock (MQueue p) k)).

Fixpoint f_scan_consumers (cs : list loc) (k : option loc → fcode) : fcode :=
  match cs with
  | [] => k None
  | c :: cs' =>
      Under (MConsumer c) (co ← get_consumer c; mret (bool_decide (c_inflight co < c_prefetch co))) (λ free : bool,
      if free then k (Some c) else f_scan_consumers cs' k)
  end.

Definition f_selectConsumer (p : loc) (k : option loc → fcode) : fcode :=
  FSec (q ← get_queue p; range (elements (q_consumers q))) (λ cs, f_scan_consumers cs k).

(** [dispatchLoop] from the selection of a consumer, with [q.mu] held. *)
Definition f_dispatch_to (p : loc) (r : option loc) : fcode :=
  match r with
  | None => FWait p (FUnlock (MQueue p) (FJump (LDispatch p)))
  | Some c =>
      FSec (pop_message p) (λ msg,
      Under (MConsumer c) (hand_over c msg) (λ _,
      FUnlock (MQueue p) (
      FSec (write_delivery c msg) (λ err,
      match err with
      | Some _ =>
          FSec (inc_queue DeliverErrors p) (λ _,
          FLock (MQueue p) (
          FSec (push_front p msg) (λ _,
          Under (MConsumer c) (take_back c msg) (λ _,
          FUnlock (MQueue p) (FJump (LDispatch p))))))
      | None => FSec (inc_queue Delivered p) (λ _, FJump (LDispatch p))
      end))))
  end.

Definition f_dispatch_check (p : loc) : fcode :=
  FSec (get_queue p) (λ q,
  match q_messages q with
  | [] => FWait p (FJump (LCheck p))
  | _ :: _ => f_selectConsumer p (f_dispatch_to p)
  end).

Definition f_enqueue (p : loc) (msg : Message) (k : fcode) : fcode :=
  FSec (inc_queue Enqueued p) (λ _,
  Under (MQueue p) (push_back p msg) (λ _, FSignal p k)).

(** ** broker.go *)

(** [NewQueue] starts its goroutine with [b.mu] held. *)
Definition f_DeclareQueue (name dlx rk : string) (k : fcode) : fcode :=
  FLock MBroker (FSec (declare_section name dlx rk) (λ new,
  match new with
  | Some p => FGo (LDispatch p) (FUnlock MBroker k)
  | None => FUnlock MBroker k
  end)).

Definition f_DeclareExchange (name : string) (k : fcode) : fcode :=
  Under MBroker (DeclareExchange name) (λ _, k).

Definition f_BindQueue (exchangeName queueName routingKey : string) (k : option string → fcode) : fcode :=
  Under MBroker (gets w_broker) (λ b,
  match b_exchanges b !! exchangeName, b_queues b !! queueName with
  | None, _ => k (Some "exchange not found")
  | Some _, None => k (Some "queue not found")
  | Some ex, Some q => Under (MExchange ex) (bind ex q routingKey) (λ _, k None)
  end).

Definition f_publish_to (ex rk : string) (body : option bytes) (p : loc) (k : fcode) : fcode :=
  Under (MQueue p) (alloc_tag p) (λ tag, f_enqueue p (mkMessage tag body ex rk) k).

Definition f_Publish (ex rk : string) (body : option bytes) (k : option string → fcode) : fcode :=
  Under MBroker (gets w_broker) (λ b,
  match b_exchanges b !! ex with
  | None => FSec (inc PublishErrors) (λ _, k (Some ("exchange " +:+ quote ex +:+ " not found")))
  | Some ep =>
      FSec (inc (Published ex)) (λ _,
      Under (MExchange ep) (getQueues ep rk) (λ queues,
      let loop := f_for_each queues (f_publish_to ex rk body) (k None) in
      if decide (queues = []) then FSec (inc (PublishUnroutable ex)) (λ _, loop) else loop))
  end).

Definition f_RegisterConsumer (consumerTag queue : string) (chp : loc) (k : string + string → fcode) : fcode :=
  Under MBroker (gets w_broker) (λ b,
  match b_queues b !! queue with
  | None => k (inl "queue not found")
  | Some q =>
      FSec (get_channel chp) (λ ch,
      let c := NewConsumer consumerTag q chp ch in
      match ch_consumers ch !! c_tag c with
      | Some _ => k (inl ("consumer tag " +:+ quote (c_tag c) +:+ " already in use on channel " +:+ pretty (ch_id ch)))
      | None =>
          FSec (cp ← gets (λ w, fresh (dom (w_consumer w))); put_consumer cp c;; mret cp) (λ cp,
          f_registerConsumer q cp (
          FSec (ch ← get_channel chp;
                put_channel chp (mkChannel (ch_id ch) (ch_conn ch) (<[c_tag c := cp]> (ch_consumers ch)))) (λ _,
          FSec (inc (ConsumersRegistered queue)) (λ _,
          k (inr (c_tag c))))))
      end)
  end).

Fixpoint f_ack_scan (p : loc) (queueName : string) (tag : Z) (cs : list loc) (k : option string → fcode) : fcode :=
  match cs with
  | [] => FUnlock (MQueue p) (k (Some ("delivery tag " +:+ pretty tag +:+ " not found in any consumer on queue " +:+ quote queueName)))
  | c :: cs' =>
      Under (MConsumer c) (ack_consumer tag c) (λ found,
      match found with
      | Some _ => FUnlock (MQueue p) (FSignal p (FSec (inc (Acked queueName)) (λ _, k None)))
      | None => f_ack_scan p queueName tag cs' k
      end)
  end.

Definition f_Ack (queueName : string) (tag : Z) (k : option string → fcode) : fcode :=
  Under MBroker (gets w_broker) (λ b,
  match b_queues b !! queueName with
  | None => k (Some ("queue " +:+ quote queueName +:+ " not found"))
  | Some p =>
      FLock (MQueue p) (FSec (q ← get_queue p; range (elements (q_consumers q))) (λ cs, f_ack_scan p queueName tag cs k))
  end).

(** ** channel.go *)

Definition f_cleanup (chp : loc) (k : fcode) : fcode :=
  FSec (ch ← get_channel chp; range (map_to_list (ch_consumers ch))) (λ cs,
  f_for_each cs (λ '(_, c) k, FSec (get_consumer c) (λ co, f_unregisterConsumer (c_queue co) c k)) k).

Definition f_reply_error (chp : loc) (env : Envelope) (err : string) (k : fcode) : fcode :=
  FSec (reply_error chp env err) (λ _, k).

Definition f_HandlePublish (chp : loc) (env : Envelope) (k : fcode) : fcode :=
  let '(event, err) := Unmarshal (T := Protocol.Publish) (env_Payload env) in
  match err with
  | Some _ => k
  | None =>
      f_Publish (Publish_Exchange event) (Publish_RoutingKey event) (Publish_Body event) (λ err,
      match err with
      | Some e => f_reply_error chp env e k
      | None => k
      end)
  end.

Definition f_HandleConsume (chp : loc) (env : Envelope) (k : fcode) : fcode :=
  let '(event, err) := Unmarshal (T := Consume) (env_Payload env) in
  match err with
  | Some e => f_reply_error chp env e k
  | None =>
      f_RegisterConsumer (Consume_ConsumerTag event) (Consume_Queue event) chp (λ r,
      match r with
      | inl e => f_reply_error chp env e k
      | inr tag => FSec (reply chp env BasicConsumeOKType (mkConsumeOK tag)) (λ _, k)
      end)
  end.

Fixpoint f_ack_loop (tag : Z) (cs : list (string * loc)) (k : fcode) : fcode :=
  match cs with
  | [] => k
  | (_, c) :: cs' =>
      Under (MConsumer c) (co ← get_consumer c; mret (bool_decide (tag ∈ c_inflightTags co))) (λ ok : bool,
      if ok then
        FSec (co ← get_consumer c; q ← get_queue (c_queue co); mret (q_name q)) (λ name,
        f_Ack name tag (λ _, k))
      else f_ack_loop tag cs' k)
  end.

Definition f_HandleAck (chp : loc) (env : Envelope) (k : fcode) : fcode :=
  let '(event, err) := Unmarshal (T := Protocol.Ack) (env_Payload env) in
  match err with
  | Some e => f_reply_error chp env e k
  | None =>
      FSec (ch ← get_channel chp; range (map_to_list (ch_consumers ch))) (λ cs,
      f_ack_loop (Ack_DeliveryTag event) cs k)
  end.

Definition f_nack_dispose (p : loc) (msg : Message) (requeue : bool) (k : fcode) : fcode :=
  FSec (inc_queue (λ n, Nacked n (format_bool requeue)) p) (λ _,
  if requeue then
    Under (MQueue p) (push_front p msg) (λ _, FSignal p k)
  else
    FSec (get_queue p) (λ q,
    if decide (q_dlx q ≠ "") then
      FSec (inc (DeadLettered (q_name q))) (λ _,
      f_Publish (q_dlx q) (if decide (q_dlxRoutingKey q = "") then m_RoutingKey msg else q_dlxRoutingKey q)
        (m_Body msg) (λ _, FSignal p k))
    else FSec (inc (Dropped (q_name q))) (λ _, FSignal p k))).

Fixpoint f_nack_loop (tag : Z) (requeue : bool) (cs : list (string * loc)) (k : fcode) : fcode :=
  match cs with
  | [] => k
  | (_, c) :: cs' =>
      Under (MConsumer c) (nack_take tag c) (λ m,
      match m with
      | Some msg => FSec (get_consumer c) (λ co, f_nack_dispose (c_queue co) msg requeue k)
      | None => f_nack_loop tag requeue cs' k
      end)
  end.

Definition f_HandleNack (chp : loc) (env : Envelope) (k : fcode) : fcode :=
  let '(event, err) := Unmarshal (T := Protocol.Nack) (env_Payload env) in
  match err with
  | Some e => f_reply_error chp env e k
  | None =>
      FSec (ch ← get_channel chp; range (map_to_list (ch_consumers ch))) (λ cs,
      f_nack_loop (Nack_DeliveryTag event) (requeue_flag event) cs k)
  end.

Definition f_HandleExchangeDeclare (chp : loc) (env : Envelope) (k : fcode) : fcode :=
  let '(event, _) := Unmarshal (T := Protocol.ExchangeDeclare) (env_Payload env) in
  f_DeclareExchange (ExchangeDeclare_Name event)
  (FSec (reply chp env ExchangeDeclareOKType (mkExchangeDeclareOK (ExchangeDeclare_Name event))) (λ _, k)).

Definition f_HandleQueueDeclare (chp : loc) (env : Envelope) (k : fcode) : fcode :=
  let '(event, _) := Unmarshal (T := Protocol.QueueDeclare) (env_Payload env) in
  f_DeclareQueue (QueueDeclare_Name event) (QueueDeclare_DeadLetterExchange event)
    (QueueDeclare_DeadLetterRoutingKey event)
  (FSec (reply chp env QueueDeclareOKType (mkQueueDeclareOK (QueueDeclare_Name event))) (λ _, k)).

Definition f_HandleQueueBind (chp : loc) (env : Envelope) (k : fcode) : fcode :=
  let '(event, err) := Unmarshal (T := Protocol.QueueBind) (env_Payload env) in
  match err with
  | Some e => f_reply_error chp env e k
  | None =>
      f_BindQueue (QueueBind_Exchange event) (QueueBind_Queue event) (QueueBind_RoutingKey event) (λ _,
      FSec (reply chp env QueueBindOKType mkQueueBindOK) (λ _, k))
  end.

Definition f_route (chp : loc) (env : Envelope) (k : fcode) : fcode :=
  if decide (env_Type env = BasicPublishType) then f_HandlePublish chp env k
  else if decide (env_Type env = BasicConsumeType) then f_HandleConsume chp env k
  else if decide (env_Type env = BasicAckType) then f_HandleAck chp env k
  else if decide (env_Type env = BasicNackType) then f_HandleNack chp env k
  else if decide (env_Type env = QueueDeclareType) then f_HandleQueueDeclare chp env k
  else if decide (env_Type env = ExchangeDeclareType) then f_HandleExchangeDeclare chp env k
  else if decide (env_Type env = QueueBindType) then f_HandleQueueBind chp env k
  else k.

(** ** connection.go, server.go *)

(** [c.mu] is held while every channel is cleaned up. *)
Definition f_conn_cleanup (p : loc) (k : fcode) : fcode :=
  FLock (MConn p) (FSec (c ← get_conn p; range (map_to_list (cn_channels c))) (λ chs,
  f_for_each chs (λ '(_, ch) k, f_cleanup ch k) (FUnlock (MConn p) k))).

Definition f_ChannelOpen (p : loc) (env : Envelope) (k : fcode) : fcode :=
  let '(event, _) := Unmarshal (T := Protocol.ChannelOpen) (env_Payload env) in
  let id := ChannelOpen_ID event in
  Under (MConn p) (install_channel p id) (λ _,
  FSec (WriteEnvelope p 0 ChannelOpenOKType (env_RequestID env) (mkChannelOpenOK id)) (λ _, k)).

(** The channel is cleaned up after [c.mu] is given back. *)
Definition f_ChannelClose (p : loc) (env : Envelope) (k : fcode) : fcode :=
  let id := env_ChannelID env in
  let answer := FSec (WriteEnvelope p id ChannelCloseOKType (env_RequestID env) (mkChannelCloseOK id)) (λ _, k) in
  Under (MConn p) (c ← get_conn p; put_conn p (set_channels (delete id (cn_channels c)) c);; mret (cn_channels c !! id)) (λ ch,
  match ch with
  | Some ch => f_cleanup ch answer
  | None => answer
  end).

Definition f_Handle (p : loc) (env : Envelope) (k : fcode) : fcode :=
  if decide (env_Type env = ChannelOpenType) then f_ChannelOpen p env k
  else if decide (env_Type env = ChannelCloseType) then f_ChannelClose p env k
  else
    Under (MConn p) (c ← get_conn p; mret (cn_channels c !! env_ChannelID env)) (λ ch,
    match ch with
    | None =>
        FSec (WriteEnvelope p (env_ChannelID env) ErrorType (env_RequestID env)
               (error_message "channel with requested channelID not open for communication")) (λ _, k)
    | Some ch => f_route ch env k
    end).

Definition f_close (p : loc) : fcode :=
  FSec (inc ConnectionsClosed) (λ _,
  FSec (shutdown p) (λ _,
  f_conn_cleanup p (
  Under MServer (modify (λ w, with_connections (w_connections w ∖ {[p]}) w)) (λ _,
  FSec (c ← get_conn p; put_conn p (set_broken (Some closed_socket) c)) (λ _,
  FRet))))).

Definition f_Serve (p : loc) : fcode :=
  FSec (conn_read ReadEnvelope p) (λ '(env, err),
  match err with
  | Some _ => f_close p
  | None => f_Handle p env (FJump (LServe p))
  end).

(** [RunHandshake] takes no mutex. *)
Definition f_RunHandshake (p : loc) (k : option string → fcode) : fcode :=
  FSec (conn_read ReadProtocolHeader p) (λ err,
  match err with Some e => k (Some e) | None =>
  FSec (set_conn_state p StateAwaitStartOK) (λ _,
  FSec (WriteMessage p NewConnectionStart) (λ err,
  match err with Some e => k (Some e) | None =>
  FSec (conn_read (ReadMessage (T := ConnectionStartOK)) p) (λ r,
  match r.2 with Some e => k (Some e) | None =>
  FSec (set_conn_state p StateAwaitTuneOK) (λ _,
  FSec (gets w_config) (λ cfg,
  FSec (WriteMessage p (NewConnectionTune (cfg_ChannelMax cfg) (cfg_FramesMax cfg) (cfg_HeartbeatSec cfg))) (λ _,
  FSec (conn_read (ReadMessage (T := ConnectionTuneOK)) p) (λ r,
  match r.2 with Some e => k (Some e) | None =>
  FSec (set_conn_state p StateAwaitOpen) (λ _,
  FSec (conn_read (ReadMessage (T := ConnectionOpen)) p) (λ r,
  match r.2 with Some e => k (Some e) | None =>
  FSec (WriteMessage p NewConnectionOpenOK) (λ err,
  match err with Some e => k (Some e) | None =>
  FSec (set_conn_state p StateOpen) (λ _, k None)
  end) end)) end)))) end) end)) end).

Definition f_HandleConnection (r : Reader) : fcode :=
  FSec (NewConnection r) (λ p,
  Under MServer (modify (λ w, with_connections (w_connections w ∪ {[p]}) w)) (λ _,
  FSec (inc ConnectionsOpened) (λ _,
  f_RunHandshake p (λ err,
  match err with
  | Some _ => FSec (inc HandshakeFailures) (λ _, f_close p)
  | None => FJump (LServe p)
  end)))).

(** ** metrics.go *)

Fixpoint f_collect_consumers (name : string) (cs : list loc) (acc : list Sample) (k : list Sample → fcode) : fcode :=
  match cs with
  | [] => k acc
  | c :: cs' =>
      Under (MConsumer c) (co ← get_consumer c; mret (SConsumerInflight (c_inflight co) name (c_tag co))) (λ s,
      f_collect_consumers name cs' (acc ++ [s]) k)
  end.

Definition f_collect_queue (p : loc) (acc : list Sample) (k : list Sample → fcode) : fcode :=
  FLock (MQueue p) (
  FSec (get_queue p) (λ q,
  FSec (range (elements (q_consumers q))) (λ cs,
  f_collect_consumers (q_name q) cs
    (acc ++ [SQueueMessages (length (q_messages q)) (q_name q); SQueueConsumers (size (q_consumers q)) (q_name q)])
    (λ acc, FUnlock (MQueue p) (k acc))))).

Fixpoint f_collect_queues_of (qs : list (string * loc)) (acc : list Sample) (k : list Sample → fcode) : fcode :=
  match qs with
  | [] => k acc
  | (_, p) :: qs' => f_collect_queue p acc (λ acc, f_collect_queues_of qs' acc k)
  end.

(** [s.mu] is given back before [b.mu] is taken; [b.mu] is held to the end. *)
Definition f_Collect (k : list Sample → fcode) : fcode :=
  Under MServer (gets (λ w, size (w_connections w))) (λ n,
  FLock MBroker (
  FSec (gets w_broker) (λ b,
  FSec (range (map_to_list (b_queues b))) (λ qs,
  f_collect_queues_of qs [SConnections n; SQueues (size (b_queues b)); SExchanges (size (b_exchanges b))]
    (λ acc, FUnlock MBroker (k acc)))))).

Definition f_body (l : label) : fcode :=
  match l with
  | LHandle r => f_HandleConnection r
  | LServe p => f_Serve p
  | LDispatch p => FLock (MQueue p) (FJump (LCheck p))
  | LCheck p => f_dispatch_check p
  | LScrape => f_Collect (λ _, FRet)
  end.
End code.

(** ** The scheduler *)

Inductive fthread : Type :=
| FRunning (c : fcode)
| FAsleep (q : loc) (k : fcode)
| FBlocked_write.

(** The store, the owner of each mutex that is held, and the goroutines. *)
Record FProc := mkFProc { f_world : World; f_held : gmap mutex tid; f_threads : gmap tid fthread }.

Section sched.
Context `{Oracle}.

Inductive fstep (t : tid) : FProc → FProc → Prop :=
| f_jump w ls ts l :
    ts !! t = Some (FRunning (FJump l)) →
    fstep t (mkFProc w ls ts) (mkFProc w ls (<[t := FRunning (f_body l)]> ts))
| f_sec w w' ls ts B (m : M B) (k : B → fcode) b :
    ts !! t = Some (FRunning (FSec m k)) → m w = Done b w' →
    fstep t (mkFProc w ls ts) (mkFProc w' ls (<[t := FRunning (k b)]> ts))
| f_block w w' ls ts B (m : M B) (k : B → fcode) :
    ts !! t = Some (FRunning (FSec m k)) → m w = Blocked w' →
    fstep t (mkFProc w ls ts) (mkFProc w' ls (<[t := FBlocked_write]> ts))
| f_lock w ls ts mu k :
    ts !! t = Some (FRunning (FLock mu k)) → ls !! mu = None →
    fstep t (mkFProc w ls ts) (mkFProc w (<[mu := t]> ls) (<[t := FRunning k]> ts))
| f_unlock w ls ts mu k :
    ts !! t = Some (FRunning (FUnlock mu k)) → ls !! mu = Some t →
    fstep t (mkFProc w ls ts) (mkFProc w (delete mu ls) (<[t := FRunning k]> ts))
| f_wait w ls ts p k :
    ts !! t = Some (FRunning (FWait p k)) → ls !! MQueue p = Some t →
    fstep t (mkFProc w ls ts) (mkFProc w (delete (MQueue p) ls) (<[t := FAsleep p k]> ts))
| f_wake w ls ts p k t' k' :
    ts !! t = Some (FRunning (FSignal p k)) → ts !! t' = Some (FAsleep p k') →
    fstep t (mkFProc w ls ts)
      (mkFProc w ls (<[t := FRunning k]> (<[t' := FRunning (FLock (MQueue p) k')]> ts)))
| f_signal w ls ts p k :
    ts !! t = Some (FRunning (FSignal p k)) → (∀ t' k', ts !! t' ≠ Some (FAsleep p k')) →
    fstep t (mkFProc w ls ts) (mkFProc w ls (<[t := FRunning k]> ts))
| f_go w ls ts l k t' :
    ts !! t = Some (FRunning (FGo l k)) → ts !! t' = None →
    fstep t (mkFProc w ls ts) (mkFProc w ls (<[t' := FRunning (FJump l)]> (<[t := FRunning k]> ts))).

Inductive fpstep : FProc → FProc → Prop :=
| fp_thread t s s' : fstep t s s' → fpstep s s'
| fp_accept r w ls ts t :
    ts !! t = None → fpstep (mkFProc w ls ts) (mkFProc w ls (<[t := FRunning (FJump (LHandle r))]> ts))
| fp_network p c e w ls ts :
    w_conn w !! p = Some c →
    fpstep (mkFProc w ls ts) (mkFProc (with_conn (<[p := set_broken (Some e) c]> (w_conn w)) w) ls ts)
| fp_scrape w ls ts t :
    ts !! t = None → fpstep (mkFProc w ls ts) (mkFProc w ls (<[t := FRunning (FJump LScrape)]> ts)).

Definition f_boot (cfg : ServerConfig) : FProc := mkFProc (NewServer cfg) ∅ ∅.

Definition f_running (cfg : ServerConfig) (s : FProc) : Prop := rtc fpstep (f_boot cfg) s.
End sched.

(** ** Executable schedules *)

(** The goroutine [Signal] wakes, if one sleeps on [q]. *)
Definition f_sleeper (q : loc) (ts : gmap tid fthread) : option (tid * fcode) :=
  head (omap (λ '(t, th), match th with
                          | FAsleep q' k => if decide (q' = q) then Some (t, k) else None
                          | _ => None
                          end) (map_to_list ts)).

Lemma f_sleeper_Some q ts t k : f_sleeper q ts = Some (t, k) → ts !! t = Some (FAsleep q k).
Proof.
  unfold f_sleeper. intros E. apply head_Some_elem_of, list_elem_of_omap in E as ([t' th] & Hin & E).
  apply elem_of_map_to_list in Hin. destruct th; try done. case_decide; by simplify_eq.
Qed.

Lemma f_sleeper_None q ts t k : f_sleeper q ts = None → ts !! t ≠ Some (FAsleep q k).
Proof.
  unfold f_sleeper. intros E%head_None Ht.
  assert ((t, k) ∈ @nil (tid * fcode)) as []%elem_of_nil. rewrite <-E.
  apply list_elem_of_omap. exists (t, FAsleep q k). split; [by apply elem_of_map_to_list|]. by rewrite decide_True.
Qed.

Section exec.
Context `{Oracle}.

(** One step of goroutine [t]. *)
Definition frun (t : tid) (s : FProc) : option FProc :=
  let '(mkFProc w ls ts) := s in
  match ts !! t with
  | Some (FRunning c) =>
      match c with
      | FRet => None
      | FJump l => Some (mkFProc w ls (<[t := FRunning (f_body l)]> ts))
      | FSec m k =>
          match m w with
          | Done b w' => Some (mkFProc w' ls (<[t := FRunning (k b)]> ts))
          | Blocked w' => Some (mkFProc w' ls (<[t := FBlocked_write]> ts))
          | Panicked => None
          end
      | FLock mu k =>
          match ls !! mu with
          | None => Some (mkFProc w (<[mu := t]> ls) (<[t := FRunning k]> ts))
          | Some _ => None
          end
      | FUnlock mu k =>
          if decide (ls !! mu = Some t) then Some (mkFProc w (delete mu ls) (<[t := FRunning k]> ts)) else None
      | FWait p k =>
          if decide (ls !! MQueue p = Some t)
          then Some (mkFProc w (delete (MQueue p) ls) (<[t := FAsleep p k]> ts)) else None
      | FSignal p k =>
          match f_sleeper p ts with
          | Some (t', k') =>
              Some (mkFProc w ls (<[t := FRunning k]> (<[t' := FRunning (FLock (MQueue p) k')]> ts)))
          | None => Some (mkFProc w ls (<[t := FRunning k]> ts))
          end
      | FGo l k => Some (mkFProc w ls (<[fresh (dom ts) := FRunning (FJump l)]> (<[t := FRunning k]> ts)))
      end
  | _ => None
  end.

Lemma frun_fstep t s s' : frun t s = Some s' → fstep t s s'.
Proof.
  destruct s as [w ls ts]. cbn [frun]. destruct (ts !! t) as [[c| |]|] eqn:Ht; [|done..].
  destruct c; intros E; simplify_eq.
  - by apply f_jump.
  - destruct (m w) eqn:Em; simplify_eq; [by eapply f_sec|by eapply f_block].
  - destruct (ls !! mu) eqn:El; simplify_eq. by eapply f_lock.
  - case_decide; simplify_eq. by eapply f_unlock.
  - case_decide; simplify_eq. by eapply f_wait.
  - destruct (f_sleeper q ts) as [[t' k']|] eqn:Es; simplify_eq.
    + eapply f_wake; [done|]. by apply f_sleeper_Some.
    + eapply f_signal; [done|]. intros t' k'. by apply f_sleeper_None.
  - eapply f_go; [done|]. apply not_elem_of_dom, is_fresh.
Qed.

Fixpoint frun_n (n : nat) (t : tid) (s : FProc) : option FProc :=
  match n with
  | O => Some s
  | S n' => match frun t s with Some s' => frun_n n' t s' | None => None end
  end.

Definition f_spawn (l : label) (s : FProc) : FProc :=
  mkFProc (f_world s) (f_held s) (<[fresh (dom (f_threads s)) := FRunning (FJump l)]> (f_threads s)).

Definition f_schedule_one (a : Schedule) (s : FProc) : option FProc :=
  match a with
  | SRun t n => frun_n n t s
  | SAccept r => Some (f_spawn (LHandle r) s)
  | SNetwork p e =>
      match w_conn (f_world s) !! p with
      | Some c => Some (mkFProc (with_conn (<[p := set_broken (Some e) c]> (w_conn (f_world s))) (f_world s))
                          (f_held s) (f_threads s))
      | None => None
      end
  | SScrape => Some (f_spawn LScrape s)
  end.

Fixpoint f_schedule (l : list Schedule) (s : FProc) : option FProc :=
  match l with
  | [] => Some s
  | a :: l' => match f_schedule_one a s with Some s' => f_schedule l' s' | None => None end
  end.

Lemma frun_n_steps n t s s' : frun_n n t s = Some s' → rtc fpstep s s'.
Proof.
  revert s. induction n as [|n IH]; intros s E; cbn [frun_n] in E; [by simplify_eq|].
  destruct (frun t s) as [s1|] eqn:Et; [|done]. eapply rtc_l; [|by apply IH].
  eapply fp_thread. by apply frun_fstep.
Qed.

Lemma f_schedule_one_steps a s s' : f_schedule_one a s = Some s' → rtc fpstep s s'.
Proof.
  destruct a as [t n|r|p e|], s as [w ls ts]; cbn [f_schedule_one]; unfold f_spawn; simpl; [apply frun_n_steps|..].
  - intros [= <-]. apply rtc_once, fp_accept, not_elem_of_dom, is_fresh.
  - destruct (w_conn w !! p) eqn:Ec; intros E; simplify_eq. by eapply rtc_once, fp_network.
  - intros [= <-]. apply rtc_once, fp_scrape, not_elem_of_dom, is_fresh.
Qed.

Lemma f_schedule_running cfg l s : f_schedule l (f_boot cfg) = Some s → f_running cfg s.
Proof.
  unfold f_running. generalize (f_boot cfg) as s0. induction l as [|a l IH]; intros s0 E; cbn [f_schedule] in E.
  { by simplify_eq. }
  destruct (f_schedule_one a s0) as [s1|] eqn:Ea; [|done]. etrans; [by eapply f_schedule_one_steps|]. by apply IH.
Qed.
End exec.
