(* ===== verification/LockOrder.v ===== *)
(** * The order of the mutexes

    [protected mu] is the data that [mu] protects; [keeps h f c] says that the code [f]
    with all mutexes, run by a goroutine that holds [h], takes mutexes in increasing
    [rank], gives them back in the opposite order, holds none when it waits for the
    network or sleeps, changes what a mutex protects only while holding it, and is the
    code [c] of [Goroutines] when the mutexes other than those of queues are forgotten.
    Every function keeps that.  Hence a run of [Mutexes] is a run of [Goroutines], and
    its goroutines, scrapes included, cannot deadlock. *)

From S2P Require Import Prelude GoJson Protocol State Transport Queue Exchange Broker Channel Connection Invariant Accounting Frame Server Scenario Process Goroutines Schedules Rely Sections Concurrency Mutexes.

(** ** What a mutex protects *)

Definition protected (mu : mutex) (w w' : World) : Prop :=
  match mu with
  | MServer => w_connections w' = w_connections w
  | MConn p => ∀ cn, w_conn w !! p = Some cn → ∃ cn', w_conn w' !! p = Some cn' ∧ cn_channels cn' = cn_channels cn
  | MBroker => w_broker w' = w_broker w
  | MExchange p => ∀ e, w_exchange w !! p = Some e → w_exchange w' !! p = Some e
  | MQueue p => ∀ q, w_queue w !! p = Some q → w_queue w' !! p = Some q
  | MConsumer p => ∀ c, w_consumer w !! p = Some c → w_consumer w' !! p = Some c
  end.

#[export] Instance protected_preorder mu : PreOrder (protected mu).
Proof.
  split.
  - intros w. destruct mu; simpl; eauto.
  - intros w1 w2 w3. destruct mu; simpl; try congruence; [|by eauto..].
    intros H1 H2 cn Hcn. destruct (H1 cn Hcn) as (cn2 & Hcn2 & <-). apply (H2 cn2 Hcn2).
Qed.

(** What changes is protected by a mutex of [h]. *)
Definition guarded (h : list mutex) (w w' : World) : Prop := ∀ mu, mu ∉ h → protected mu w w'.

#[export] Instance guarded_preorder h : PreOrder (guarded h).
Proof. split; [by intros w mu _|]. intros w1 w2 w3 G1 G2 mu Hmu. etrans; eauto. Qed.

Section guards.
Context `{Oracle}.
Implicit Types (h : list mutex).

(** Nothing that any mutex protects changes. *)
Lemma guarded_same h (f : World → World) :
  (∀ w, w_broker (f w) = w_broker w ∧ w_queue (f w) = w_queue w ∧ w_exchange (f w) = w_exchange w ∧
     w_consumer (f w) = w_consumer w ∧ w_conn (f w) = w_conn w ∧ w_connections (f w) = w_connections w) →
  respects (guarded h) (modify f).
Proof.
  intros Hf. apply respects_modify. intros w [] _; simpl; destruct (Hf w) as (Eb & Eq & Ee & Ec & En & Es);
    rewrite ?Eb, ?Eq, ?Ee, ?Ec, ?En, ?Es; eauto.
Qed.

Lemma guarded_put_channel h p c : respects (guarded h) (put_channel p c).
Proof. by apply guarded_same. Qed.
Lemma guarded_set_dispatch h p d : respects (guarded h) (set_dispatch p d).
Proof. by apply guarded_same. Qed.
Lemma guarded_inc h m : respects (guarded h) (inc m).
Proof. by apply guarded_same. Qed.
Lemma guarded_range h {A} (l : list A) : respects (guarded h) (range l).
Proof. intros w. simpl. intros [] _; simpl; eauto. Qed.

Lemma guarded_io_eq h w w' : io_eq w w' → guarded h w w'.
Proof.
  intros Hio [] _; simpl; destruct Hio; try congruence.
  intros cn Hcn. destruct (same_core_lookup w w' p cn) as (cn' & Hcn' & E); [done..|]. exists cn'. split; [done|].
  unfold conn_core in E. congruence.
Qed.

Lemma guarded_send h p v : respects (guarded h) (send p v).
Proof. eapply respects_mono; [apply guarded_io_eq|apply send_io_eq]. Qed.

(** One object changes, under its mutex. *)
Lemma guarded_put_queue h p q : MQueue p ∈ h → respects (guarded h) (put_queue p q).
Proof.
  intros Hp. apply respects_modify. intros w [] Hmu; simpl; eauto.
  intros q' Hq'. by rewrite lookup_insert_ne by congruence.
Qed.
Lemma guarded_put_exchange h p e : MExchange p ∈ h → respects (guarded h) (put_exchange p e).
Proof.
  intros Hp. apply respects_modify. intros w [] Hmu; simpl; eauto.
  intros e' He'. by rewrite lookup_insert_ne by congruence.
Qed.
Lemma guarded_put_consumer h p c : MConsumer p ∈ h → respects (guarded h) (put_consumer p c).
Proof.
  intros Hp. apply respects_modify. intros w [] Hmu; simpl; eauto.
  intros c' Hc'. by rewrite lookup_insert_ne by congruence.
Qed.
Lemma guarded_put_conn h p c : MConn p ∈ h → respects (guarded h) (put_conn p c).
Proof.
  intros Hp. apply respects_modify. intros w [] Hmu; simpl; eauto.
  intros c' Hc'. rewrite lookup_insert_ne by congruence. eauto.
Qed.
Lemma guarded_put_broker h b : MBroker ∈ h → respects (guarded h) (put_broker b).
Proof. intros Hp. apply respects_modify. intros w [] Hmu; simpl; eauto; done. Qed.
Lemma guarded_connections h (f : World → gset loc) :
  MServer ∈ h → respects (guarded h) (modify (λ w, with_connections (f w) w)).
Proof. intros Hp. apply respects_modify. intros w [] Hmu; simpl; eauto; done. Qed.

(** A new object is nobody's yet. *)
Lemma guarded_new_queue h q : respects (guarded h) (p ← gets (λ w, fresh (dom (w_queue w))); put_queue p q;; mret p).
Proof.
  intros w [] _; simpl; eauto. intros q' Hq'. rewrite lookup_insert_ne; [done|]. intros <-.
  eapply (is_fresh (dom (w_queue w))), elem_of_dom_2, Hq'.
Qed.
Lemma guarded_new_exchange h e :
  respects (guarded h) (p ← gets (λ w, fresh (dom (w_exchange w))); put_exchange p e;; mret p).
Proof.
  intros w [] _; simpl; eauto. intros e' He'. rewrite lookup_insert_ne; [done|]. intros <-.
  eapply (is_fresh (dom (w_exchange w))), elem_of_dom_2, He'.
Qed.
Lemma guarded_new_consumer h c :
  respects (guarded h) (p ← gets (λ w, fresh (dom (w_consumer w))); put_consumer p c;; mret p).
Proof.
  intros w [] _; simpl; eauto. intros c' Hc'. rewrite lookup_insert_ne; [done|]. intros <-.
  eapply (is_fresh (dom (w_consumer w))), elem_of_dom_2, Hc'.
Qed.
Lemma guarded_new_conn h c : respects (guarded h) (p ← gets (λ w, fresh (dom (w_conn w))); put_conn p c;; mret p).
Proof.
  intros w [] _; simpl; eauto. intros c' Hc'. rewrite lookup_insert_ne; [by eauto|]. intros <-.
  eapply (is_fresh (dom (w_conn w))), elem_of_dom_2, Hc'.
Qed.

(** A connection changes, but not its channels. *)
Lemma guarded_upd_conn h p (f : Connection → Connection) {A} (g : Connection → A) :
  (∀ c, cn_channels (f c) = cn_channels c) →
  respects (guarded h) (c ← get_conn p; put_conn p (f c);; mret (g c)).
Proof.
  intros Hf w. unfold get_conn, put_conn, mbind, prog_bind, deref, modify, mret, prog_ret.
  destruct (w_conn w !! p) as [c|] eqn:Hp; [|done]. intros [] _; simpl; eauto. intros cn Hcn.
  destruct (decide (p0 = p)) as [->|]; [|rewrite lookup_insert_ne by done; by eauto].
  rewrite lookup_insert_eq. simplify_eq. eauto.
Qed.
End guards.

#[export] Hint Resolve guarded_put_channel guarded_set_dispatch guarded_inc guarded_range guarded_send guarded_put_queue
  guarded_put_exchange guarded_put_consumer guarded_put_conn guarded_put_broker guarded_connections
  list_elem_of_here list_elem_of_further : frame.

(** ** Sections that wait for nobody *)

Class NoWait {A} (m : M A) : Prop := no_wait w w' : m w ≠ Blocked w'.

#[export] Instance nowait_ret {A} (a : A) : NoWait (mret a).
Proof. done. Qed.
#[export] Instance nowait_gets {A} (f : World → A) : NoWait (gets f).
Proof. done. Qed.
#[export] Instance nowait_modify f : NoWait (modify f).
Proof. done. Qed.
#[export] Instance nowait_deref {A} (f : World → option A) : NoWait (deref f).
Proof. intros w w'. unfold deref. by destruct (f w). Qed.
#[export] Instance nowait_panic {A} : NoWait (panic : M A).
Proof. done. Qed.
#[export] Instance nowait_range `{Oracle} {A} (l : list A) : NoWait (range l).
Proof. done. Qed.
#[export] Instance nowait_bind {A B} (m : M A) (f : A → M B) : NoWait m → (∀ a, NoWait (f a)) → NoWait (m ≫= f).
Proof.
  intros Hm Hf w w'. unfold mbind, prog_bind. specialize (Hm w). destruct (m w) as [a w1|w1|]; [apply Hf|by edestruct Hm|done].
Qed.
#[export] Instance nowait_forM {A} (l : list A) (f : A → M unit) : (∀ a, NoWait (f a)) → NoWait (forM_ l f).
Proof. intros Hf. induction l; typeclasses eauto. Qed.

#[export] Hint Extern 5 (NoWait (match ?x with _ => _ end)) => destruct x : typeclass_instances.
#[export] Hint Extern 2 (NoWait (get_queue _)) => apply nowait_deref : typeclass_instances.
#[export] Hint Extern 2 (NoWait (get_exchange _)) => apply nowait_deref : typeclass_instances.
#[export] Hint Extern 2 (NoWait (get_consumer _)) => apply nowait_deref : typeclass_instances.
#[export] Hint Extern 2 (NoWait (get_conn _)) => apply nowait_deref : typeclass_instances.
#[export] Hint Extern 2 (NoWait (put_queue _ _)) => apply nowait_modify : typeclass_instances.
#[export] Hint Extern 2 (NoWait (put_exchange _ _)) => apply nowait_modify : typeclass_instances.
#[export] Hint Extern 2 (NoWait (put_consumer _ _)) => apply nowait_modify : typeclass_instances.
#[export] Hint Extern 2 (NoWait (put_channel _ _)) => apply nowait_modify : typeclass_instances.
#[export] Hint Extern 2 (NoWait (put_conn _ _)) => apply nowait_modify : typeclass_instances.
#[export] Hint Extern 2 (NoWait (put_broker _)) => apply nowait_modify : typeclass_instances.
#[export] Hint Extern 2 (NoWait (set_dispatch _ _)) => apply nowait_modify : typeclass_instances.

(** The sections that run under a mutex. *)
Section nowait.
Context `{Oracle}.

#[export] Instance nowait_return_pending p c : NoWait (return_pending p c).
Proof. unfold return_pending, requeue_pending. typeclasses eauto. Qed.
#[export] Instance nowait_pop_message p : NoWait (pop_message p).
Proof. unfold pop_message. typeclasses eauto. Qed.
#[export] Instance nowait_hand_over c msg : NoWait (hand_over c msg).
Proof. unfold hand_over. typeclasses eauto. Qed.
#[export] Instance nowait_take_back c msg : NoWait (take_back c msg).
Proof. unfold take_back. typeclasses eauto. Qed.
#[export] Instance nowait_push_front p msg : NoWait (push_front p msg).
Proof. unfold push_front. typeclasses eauto. Qed.
#[export] Instance nowait_push_back p msg : NoWait (push_back p msg).
Proof. unfold push_back. typeclasses eauto. Qed.
#[export] Instance nowait_alloc_tag p : NoWait (alloc_tag p).
Proof. unfold alloc_tag. typeclasses eauto. Qed.
#[export] Instance nowait_declare_section n x y : NoWait (declare_section n x y).
Proof. unfold declare_section, NewQueue. typeclasses eauto. Qed.
#[export] Instance nowait_DeclareExchange n : NoWait (DeclareExchange n).
Proof. unfold DeclareExchange, NewExchange. typeclasses eauto. Qed.
#[export] Instance nowait_bind_queue e q rk : NoWait (bind e q rk).
Proof. unfold bind. typeclasses eauto. Qed.
#[export] Instance nowait_getQueues e rk : NoWait (getQueues e rk).
Proof.
  unfold getQueues. repeat (apply nowait_bind; [typeclasses eauto|intros ?]). generalize (@nil loc).
  induction a0 as [|[rk' m] kvs IH]; intros l; simpl; [typeclasses eauto|]. case_decide; [|apply IH].
  apply nowait_bind; [typeclasses eauto|intros ?; apply IH].
Qed.
#[export] Instance nowait_ack_consumer t c : NoWait (ack_consumer t c).
Proof. unfold ack_consumer. typeclasses eauto. Qed.
#[export] Instance nowait_nack_take t c : NoWait (nack_take t c).
Proof. unfold nack_take. typeclasses eauto. Qed.
#[export] Instance nowait_install_channel p id : NoWait (install_channel p id).
Proof. unfold install_channel. typeclasses eauto. Qed.
End nowait.

(** ** Code that keeps to the order *)

(** What a goroutine holds where it goes on. *)
Definition label_held (l : label) : list mutex := match l with LCheck q => [MQueue q] | _ => [] end.

(** A section a goroutine may run while it holds [h]. *)
Definition in_section (h : list mutex) {B} (m : M B) : Prop := respects (guarded h) m ∧ (h ≠ [] → NoWait m).

Definition below (mu : mutex) (h : list mutex) : Prop := Forall (λ m, rank m < rank mu)%nat h.

Fixpoint keeps (h : list mutex) (f : fcode) (c : code) : Prop :=
  match f with
  | FRet => h = [] ∧ c = Ret
  | FJump l => h = label_held l ∧ c = Jump l
  | FSec m k => in_section h m ∧ ∃ k', c = Sec m k' ∧ ∀ b, keeps h (k b) (k' b)
  | FLock mu k =>
      below mu h ∧
      match mu with
      | MQueue p => ∃ c', c = Lock p c' ∧ keeps (mu :: h) k c'
      | _ => keeps (mu :: h) k c
      end
  | FUnlock mu k =>
      ∃ h', h = mu :: h' ∧
      match mu with
      | MQueue p => ∃ c', c = Unlock p c' ∧ keeps h' k c'
      | _ => keeps h' k c
      end
  | FWait p k => h = [MQueue p] ∧ ∃ c', c = Wait p c' ∧ keeps h k c'
  | FSignal p k => ∃ c', c = Signal p c' ∧ keeps h k c'
  | FGo l k => label_held l = [] ∧ ∃ c', c = Go l c' ∧ keeps h k c'
  end.

Section rules.
Context `{Oracle}.
Implicit Types (h : list mutex) (k f : fcode) (c : code).

Lemma keeps_sec h {B} (m : M B) (k : B → fcode) (k' : B → code) :
  in_section h m → (∀ b, keeps h (k b) (k' b)) → keeps h (FSec m k) (Sec m k').
Proof. intros Hm Hk. split; [done|]. by exists k'. Qed.

Lemma keeps_lock_queue h p k c :
  below (MQueue p) h → keeps (MQueue p :: h) k c → keeps h (FLock (MQueue p) k) (Lock p c).
Proof. intros Hb Hk. split; [done|]. by exists c. Qed.

Lemma keeps_unlock_queue h p k c : keeps h k c → keeps (MQueue p :: h) (FUnlock (MQueue p) k) (Unlock p c).
Proof. intros Hk. exists h. split; [done|]. by exists c. Qed.

Lemma keeps_signal h p k c : keeps h k c → keeps h (FSignal p k) (Signal p c).
Proof. intros Hk. by exists c. Qed.

Lemma keeps_wait p k c : keeps [MQueue p] k c → keeps [MQueue p] (FWait p k) (Wait p c).
Proof. intros Hk. split; [done|]. by exists c. Qed.

Definition is_queue (mu : mutex) : bool := match mu with MQueue _ => true | _ => false end.

Lemma keeps_lock h mu k c : is_queue mu = false → below mu h → keeps (mu :: h) k c → keeps h (FLock mu k) c.
Proof. intros Hq Hb Hk. split; [done|]. by destruct mu. Qed.

Lemma keeps_unlock h mu k c : is_queue mu = false → keeps h k c → keeps (mu :: h) (FUnlock mu k) c.
Proof. intros Hq Hk. exists h. split; [done|]. by destruct mu. Qed.

Lemma keeps_under_queue h p {B} (m : M B) (k : B → fcode) (k' : B → code) :
  below (MQueue p) h → in_section (MQueue p :: h) m → (∀ b, keeps h (k b) (k' b)) →
  keeps h (Under (MQueue p) m k) (Lock p (Sec m (λ b, Unlock p (k' b)))).
Proof. intros Hb Hm Hk. apply keeps_lock_queue, keeps_sec; [done..|]. intros b. by apply keeps_unlock_queue. Qed.

Lemma keeps_under h mu {B} (m : M B) (k : B → fcode) (k' : B → code) :
  is_queue mu = false → below mu h → in_section (mu :: h) m → (∀ b, keeps h (k b) (k' b)) →
  keeps h (Under mu m k) (Sec m k').
Proof. intros Hq Hb Hm Hk. apply keeps_lock; [done..|]. apply keeps_sec; [done|]. intros b. by apply keeps_unlock. Qed.

Lemma keeps_for_each {A} h (l : list A) bf bc k c :
  (∀ x k c, x ∈ l → keeps h k c → keeps h (bf x k) (bc x c)) → keeps h k c →
  keeps h (f_for_each l bf k) (for_each l bc c).
Proof.
  intros Hb Hk. induction l as [|x l IH]; [done|]. simpl. apply Hb; [set_solver|]. apply IH.
  intros. apply Hb; [set_solver|done].
Qed.
End rules.

Lemma below_cons mu m h : (rank m < rank mu)%nat → below mu h → below mu (m :: h).
Proof. by constructor. Qed.

Lemma below_mono mu mu' h : below mu h → (rank mu ≤ rank mu')%nat → below mu' h.
Proof. intros Hb Hle. eapply Forall_impl; [exact Hb|]. simpl. lia. Qed.

Ltac below_solve :=
  lazymatch goal with
  | |- below _ [] => apply Forall_nil_2
  | |- below _ (_ :: _) => apply below_cons; [simpl; lia|below_solve]
  | |- below _ _ => eapply below_mono; [eassumption|simpl; lia]
  end.

(** A section: what it changes by [frame], that it does not wait by [NoWait]. *)
Ltac section_solve := split; [frame_solve|try done; intros _; typeclasses eauto].

Ltac keeps_step :=
  lazymatch goal with
  | |- keeps _ (Under (MQueue _) _ _) _ => apply keeps_under_queue; [below_solve| |intros ?]
  | |- keeps _ (Under _ _ _) _ => apply keeps_under; [done|below_solve| |intros ?]
  | |- keeps _ (FSec _ _) _ => apply keeps_sec; [|intros ?]
  | |- keeps _ (FLock (MQueue _) _) _ => apply keeps_lock_queue; [below_solve|]
  | |- keeps _ (FLock _ _) _ => apply keeps_lock; [done|below_solve|]
  | |- keeps _ (FUnlock (MQueue _) _) _ => apply keeps_unlock_queue
  | |- keeps _ (FUnlock _ _) _ => apply keeps_unlock; [done|]
  | |- keeps _ (FSignal _ _) _ => apply keeps_signal
  | |- keeps _ (FWait _ _) _ => apply keeps_wait
  | |- keeps _ (FJump _) _ => by split
  | |- keeps _ FRet _ => by split
  | |- keeps _ (match ?x with _ => _ end) _ => destruct x
  | |- keeps _ _ _ => by auto
  | |- in_section _ _ => solve [section_solve]
  end.
Ltac keeps_solve := repeat keeps_step.

(** ** queue.go *)

Section queues.
Context `{Oracle}.
Implicit Types (h : list mutex) (k : fcode).

Lemma keeps_registerConsumer p c k (k' : code) : keeps [] k k' → keeps [] (f_registerConsumer p c k) (g_registerConsumer p c k').
Proof. intros Hk. unfold f_registerConsumer, g_registerConsumer. keeps_solve. Qed.

Lemma keeps_unregisterConsumer h p c k (k' : code) :
  below (MQueue p) h → keeps h k k' → keeps h (f_unregisterConsumer p c k) (g_unregisterConsumer p c k').
Proof.
  intros Hb Hk. unfold f_unregisterConsumer, g_unregisterConsumer, return_pending, requeue_pending. keeps_solve.
Qed.

Lemma keeps_scan_consumers h cs (k : option loc → fcode) (k' : option loc → code) p :
  h = [MQueue p] → (∀ r, keeps h (k r) (k' r)) → keeps h (f_scan_consumers cs k) (scan_consumers cs k').
Proof. intros -> Hk. induction cs as [|c cs IH]; [apply Hk|]. cbn [f_scan_consumers scan_consumers]. keeps_solve. Qed.

Lemma keeps_dispatch_to p r : keeps [MQueue p] (f_dispatch_to p r) (g_dispatch_to p r).
Proof.
  unfold f_dispatch_to, g_dispatch_to, pop_message, hand_over, write_delivery, WriteEnvelope, inc_queue, push_front, take_back.
  keeps_solve.
Qed.
End queues.

Section brokers.
Context `{Oracle}.
Implicit Types (h : list mutex) (k : fcode).

Lemma keeps_dispatch_check p : keeps [MQueue p] (f_dispatch_check p) (g_dispatch_check p).
Proof.
  unfold f_dispatch_check, g_dispatch_check, f_selectConsumer, g_selectConsumer. keeps_solve.
  eapply keeps_scan_consumers; [done|]. intros r. apply keeps_dispatch_to.
Qed.

Lemma keeps_enqueue p msg k (k' : code) : keeps [] k k' → keeps [] (f_enqueue p msg k) (g_enqueue p msg k').
Proof. intros Hk. unfold f_enqueue, g_enqueue, inc_queue, push_back. keeps_solve. Qed.

(** ** broker.go *)

Lemma guarded_declare_section h n x y : MBroker ∈ h → respects (guarded h) (declare_section n x y).
Proof.
  intros Hb w. unfold declare_section, NewQueue. unfold mbind at 1, prog_bind at 1, gets at 1.
  destruct (b_queues (w_broker w) !! n) as [p|]; [by apply respects_ret, _|].
  intros mu Hmu. destruct mu; simpl; eauto; try done. intros q' Hq'. rewrite lookup_insert_ne; [done|]. intros <-.
  eapply (is_fresh (dom (w_queue w))), elem_of_dom_2, Hq'.
Qed.

Lemma guarded_DeclareExchange h n : MBroker ∈ h → respects (guarded h) (DeclareExchange n).
Proof.
  intros Hb. unfold DeclareExchange, NewExchange. frame_step; [frame_step|]. destruct (b_exchanges a !! n); [frame_step|].
  apply respects_bind; [typeclasses eauto|apply guarded_new_exchange|intros p; frame_solve].
Qed.

Lemma guarded_getQueues h p rk : respects (guarded h) (getQueues p rk).
Proof.
  unfold getQueues. frame_solve. generalize (@nil loc).
  induction a0 as [|[rk' m] kvs IH]; intros l; simpl; frame_solve; apply IH.
Qed.
Hint Resolve guarded_declare_section guarded_DeclareExchange guarded_getQueues guarded_new_consumer : frame.

Lemma keeps_DeclareQueue n x y k (k' : code) : keeps [] k k' → keeps [] (f_DeclareQueue n x y k) (g_DeclareQueue n x y k').
Proof.
  intros Hk. unfold f_DeclareQueue, g_DeclareQueue. keeps_solve.
  split; [done|]. eexists. split; [done|]. keeps_solve.
Qed.

Lemma keeps_DeclareExchange n k (k' : code) :
  keeps [] k k' → keeps [] (f_DeclareExchange n k) (Sec (DeclareExchange n) (λ _, k')).
Proof. intros Hk. unfold f_DeclareExchange. keeps_solve. Qed.

Lemma keeps_BindQueue ex qn rk (k : option string → fcode) (k' : option string → code) :
  (∀ r, keeps [] (k r) (k' r)) → keeps [] (f_BindQueue ex qn rk k) (g_BindQueue ex qn rk k').
Proof. intros Hk. unfold f_BindQueue, g_BindQueue, bind. keeps_solve. Qed.

Lemma keeps_publish_to ex rk body p k (k' : code) :
  keeps [] k k' → keeps [] (f_publish_to ex rk body p k) (g_publish_to ex rk body p k').
Proof. intros Hk. unfold f_publish_to, g_publish_to, alloc_tag. keeps_solve. by apply keeps_enqueue. Qed.

Lemma keeps_Publish ex rk body (k : option string → fcode) (k' : option string → code) :
  (∀ r, keeps [] (k r) (k' r)) → keeps [] (f_Publish ex rk body k) (g_Publish ex rk body k').
Proof.
  intros Hk. unfold f_Publish, g_Publish. keeps_step; [keeps_step|]. destruct (b_exchanges b !! ex) as [ep|]; [|keeps_solve].
  keeps_step; [keeps_step|]. keeps_step; [keeps_step|]. cbv zeta.
  assert (keeps [] (f_for_each b1 (f_publish_to ex rk body) (k None)) (for_each b1 (g_publish_to ex rk body) (k' None)))
    by (apply keeps_for_each; [intros; by apply keeps_publish_to|done]).
  keeps_solve.
Qed.

Lemma keeps_RegisterConsumer tag queue chp (k : string + string → fcode) (k' : string + string → code) :
  (∀ r, keeps [] (k r) (k' r)) → keeps [] (f_RegisterConsumer tag queue chp k) (g_RegisterConsumer tag queue chp k').
Proof.
  intros Hk. unfold f_RegisterConsumer, g_RegisterConsumer. keeps_step; [keeps_step|].
  destruct (b_queues b !! queue) as [q|]; [|keeps_solve]. keeps_step; [keeps_step|]. cbv zeta.
  destruct (ch_consumers b0 !! _); [keeps_solve|]. keeps_step; [split; [apply guarded_new_consumer|done]|].
  apply keeps_registerConsumer. keeps_solve.
Qed.

Lemma keeps_ack_scan p n t cs (k : option string → fcode) (k' : option string → code) :
  (∀ r, keeps [] (k r) (k' r)) → keeps [MQueue p] (f_ack_scan p n t cs k) (ack_scan p n t cs k').
Proof.
  intros Hk. induction cs as [|c cs IH]; cbn [f_ack_scan ack_scan]; unfold ack_consumer; keeps_solve.
Qed.

Lemma keeps_Ack n t (k : option string → fcode) (k' : option string → code) :
  (∀ r, keeps [] (k r) (k' r)) → keeps [] (f_Ack n t k) (g_Ack n t k').
Proof.
  intros Hk. unfold f_Ack, g_Ack. keeps_step; [keeps_step|]. destruct (b_queues b !! n) as [p|]; [|keeps_solve].
  keeps_step. keeps_step; [keeps_step|]. by apply keeps_ack_scan.
Qed.
End brokers.

(** ** channel.go *)

Section channels.
Context `{Oracle}.
Implicit Types (h : list mutex) (k : fcode).

Lemma section_more h {B} (m : M B) : in_section [] m → NoWait m → in_section h m.
Proof.
  intros [Hm _] Hw. split; [|done]. eapply respects_mono; [|exact Hm]. intros w w' G mu _. apply G. set_solver.
Qed.

Lemma keeps_cleanup h chp k (k' : code) :
  below (MQueue 0%nat) h → keeps h k k' →
  keeps h (f_cleanup chp k) (g_cleanup chp k').
Proof.
  intros Hb Hk. unfold f_cleanup, g_cleanup. keeps_step; [apply section_more; [section_solve|typeclasses eauto]|].
  apply keeps_for_each; [|done]. intros [tag c] k1 c1 _ Hk1. keeps_step; [apply section_more; [section_solve|typeclasses eauto]|].
  by apply keeps_unregisterConsumer.
Qed.

Lemma section_reply {T} `{JEncode T} chp env ty (msg : T) : in_section [] (reply chp env ty msg).
Proof. unfold reply, WriteEnvelope. section_solve. Qed.

Lemma keeps_reply_error chp env e k (k' : code) : keeps [] k k' → keeps [] (f_reply_error chp env e k) (g_reply_error chp env e k').
Proof. intros Hk. apply keeps_sec; [apply section_reply|done]. Qed.

Lemma keeps_reply {T} `{JEncode T} chp env ty (msg : T) k (k' : code) :
  keeps [] k k' → keeps [] (FSec (reply chp env ty msg) (λ _, k)) (Sec (reply chp env ty msg) (λ _, k')).
Proof. intros Hk. apply keeps_sec; [apply section_reply|done]. Qed.

Lemma keeps_ack_loop t cs k (k' : code) : keeps [] k k' → keeps [] (f_ack_loop t cs k) (ack_loop t cs k').
Proof.
  intros Hk. induction cs as [|[tag c] cs IH]; [done|]. cbn [f_ack_loop ack_loop]. keeps_solve. by apply keeps_Ack.
Qed.

Lemma keeps_nack_dispose p msg b k (k' : code) :
  keeps [] k k' → keeps [] (f_nack_dispose p msg b k) (g_nack_dispose p msg b k').
Proof.
  intros Hk. unfold f_nack_dispose, g_nack_dispose, inc_queue, push_front. keeps_solve.
  apply keeps_Publish. intros r. keeps_solve.
Qed.

Lemma keeps_nack_loop t b cs k (k' : code) : keeps [] k k' → keeps [] (f_nack_loop t b cs k) (nack_loop t b cs k').
Proof.
  intros Hk. induction cs as [|[tag c] cs IH]; [done|]. cbn [f_nack_loop nack_loop]. unfold nack_take. keeps_solve.
  by apply keeps_nack_dispose.
Qed.

Lemma keeps_route chp env k (k' : code) : keeps [] k k' → keeps [] (f_route chp env k) (g_route chp env k').
Proof.
  intros Hk. unfold f_route, g_route. repeat case_decide; [..|done].
  - unfold f_HandlePublish, g_HandlePublish. destruct (Unmarshal _) as [event [e|]]; [done|].
    apply keeps_Publish. intros [e|]; [by apply keeps_reply_error|done].
  - unfold f_HandleConsume, g_HandleConsume. destruct (Unmarshal _) as [event [e|]]; [by apply keeps_reply_error|].
    apply keeps_RegisterConsumer. intros [e|t]; [by apply keeps_reply_error|by apply keeps_reply].
  - unfold f_HandleAck, g_HandleAck. destruct (Unmarshal _) as [event [e|]]; [by apply keeps_reply_error|].
    keeps_solve. by apply keeps_ack_loop.
  - unfold f_HandleNack, g_HandleNack. destruct (Unmarshal _) as [event [e|]]; [by apply keeps_reply_error|].
    keeps_solve. by apply keeps_nack_loop.
  - unfold f_HandleQueueDeclare, g_HandleQueueDeclare. destruct (Unmarshal _). by apply keeps_DeclareQueue, keeps_reply.
  - unfold f_HandleExchangeDeclare, g_HandleExchangeDeclare. destruct (Unmarshal _). by apply keeps_DeclareExchange, keeps_reply.
  - unfold f_HandleQueueBind, g_HandleQueueBind. destruct (Unmarshal _) as [event [e|]]; [by apply keeps_reply_error|].
    apply keeps_BindQueue. intros r. by apply keeps_reply.
Qed.
End channels.

(** ** connection.go, server.go, metrics.go *)

Section connections.
Context `{Oracle}.
Implicit Types (h : list mutex) (k : fcode).

Lemma keeps_conn_cleanup p k (k' : code) : keeps [] k k' → keeps [] (f_conn_cleanup p k) (g_conn_cleanup p k').
Proof.
  intros Hk. unfold f_conn_cleanup, g_conn_cleanup. keeps_step. keeps_step; [keeps_step|].
  apply keeps_for_each; [|by apply keeps_unlock]. intros [id ch] k2 c2 _ Hk2. apply keeps_cleanup; [below_solve|done].
Qed.

Lemma section_WriteEnvelope {T} `{JEncode T} p id ty req (msg : T) : in_section [] (WriteEnvelope p id ty req msg).
Proof. unfold WriteEnvelope. section_solve. Qed.
Lemma section_WriteMessage {T} `{JEncode T} p (msg : T) : in_section [] (WriteMessage p msg).
Proof. unfold WriteMessage. section_solve. Qed.

(** Assignments to a connection that leave its channels alone need no mutex. *)
Lemma section_upd_conn p (f : Connection → Connection) :
  (∀ c, cn_channels (f c) = cn_channels c) → in_section [] (c ← get_conn p; put_conn p (f c)).
Proof.
  intros Hf. split; [|done]. intros w. pose proof (guarded_upd_conn [] p f (λ _, tt) Hf w) as G. revert G.
  unfold get_conn, put_conn, mbind, prog_bind, deref, modify, mret, prog_ret. by destruct (w_conn w !! p).
Qed.
Lemma section_conn_read {A} (f : Reader → A * Reader) p : in_section [] (conn_read f p).
Proof.
  split; [|done]. intros w.
  pose proof (guarded_upd_conn [] p (λ c, set_reader (f (cn_reader c)).2 c) (λ c, (f (cn_reader c)).1) (λ _, eq_refl) w) as G.
  revert G. unfold conn_read, get_conn, put_conn, mbind, prog_bind, deref, modify, mret, prog_ret.
  destruct (w_conn w !! p) as [c|]; [|done]. by destruct (f (cn_reader c)).
Qed.
Lemma section_NewConnection r : in_section [] (NewConnection r).
Proof. split; [apply guarded_new_conn|done]. Qed.

Lemma keeps_close p : keeps [] (f_close p) (g_close p).
Proof.
  unfold f_close, g_close. keeps_step; [keeps_step|]. keeps_step; [by apply section_upd_conn|].
  apply keeps_conn_cleanup. keeps_solve. by apply section_upd_conn.
Qed.

Lemma keeps_Handle p env k (k' : code) : keeps [] k k' → keeps [] (f_Handle p env k) (g_Handle p env k').
Proof.
  intros Hk. unfold f_Handle, g_Handle. case_decide; [|case_decide].
  - unfold f_ChannelOpen, g_ChannelOpen, install_channel. destruct (Unmarshal _) as [event e]. cbv zeta.
    keeps_step; [keeps_step|]. keeps_step; [apply section_WriteEnvelope|done].
  - unfold f_ChannelClose, g_ChannelClose. cbv zeta. keeps_step; [keeps_step|].
    destruct b as [ch|]; [apply keeps_cleanup; [below_solve|]|]; (keeps_step; [apply section_WriteEnvelope|done]).
  - keeps_step; [keeps_step|]. destruct b as [ch|]; [by apply keeps_route|]. keeps_step; [apply section_WriteEnvelope|done].
Qed.

Ltac handshake_keeps Hk :=
  lazymatch goal with
  | |- keeps _ (FSec (conn_read _ _) _) _ => apply keeps_sec; [apply section_conn_read|intros ?]
  | |- keeps _ (FSec (set_conn_state _ _) _) _ => apply keeps_sec; [by apply section_upd_conn|intros ?]
  | |- keeps _ (FSec (WriteMessage _ _) _) _ => apply keeps_sec; [apply section_WriteMessage|intros ?]
  | |- keeps _ (FSec (gets _) _) _ => apply keeps_sec; [section_solve|intros ?]
  | |- keeps _ (match ?o with Some _ => _ | None => _ end) _ => destruct o
  | |- _ => apply Hk
  end.

Lemma keeps_RunHandshake p (k : option string → fcode) (k' : option string → code) :
  (∀ r, keeps [] (k r) (k' r)) → keeps [] (f_RunHandshake p k) (g_RunHandshake p k').
Proof. intros Hk. unfold f_RunHandshake, g_RunHandshake. repeat handshake_keeps Hk. Qed.

Lemma keeps_collect_consumers h n cs acc p (k : list Sample → fcode) (k' : list Sample → code) :
  h = [MQueue p; MBroker] → (∀ acc, keeps h (k acc) (k' acc)) →
  keeps h (f_collect_consumers n cs acc k) (collect_consumers n cs acc k').
Proof.
  intros -> Hk. revert acc. induction cs as [|c cs IH]; intros acc; [apply Hk|].
  cbn [f_collect_consumers collect_consumers]. keeps_solve.
Qed.

Lemma keeps_collect_queues_of qs acc (k : list Sample → fcode) (k' : list Sample → code) :
  (∀ acc, keeps [MBroker] (k acc) (k' acc)) →
  keeps [MBroker] (f_collect_queues_of qs acc k) (collect_queues_of qs acc k').
Proof.
  intros Hk. revert acc. induction qs as [|[n p] qs IH]; intros acc; [apply Hk|].
  cbn [f_collect_queues_of collect_queues_of]. unfold f_collect_queue, g_collect_queue.
  keeps_step. do 2 (keeps_step; [keeps_step|]). eapply keeps_collect_consumers; [done|].
  intros acc'. by apply keeps_unlock_queue.
Qed.

Lemma keeps_Collect (k : list Sample → fcode) (k' : list Sample → code) :
  (∀ acc, keeps [] (k acc) (k' acc)) → keeps [] (f_Collect k) (g_Collect k').
Proof.
  intros Hk. unfold f_Collect, g_Collect. keeps_solve. apply keeps_collect_queues_of. intros acc. by apply keeps_unlock.
Qed.

Lemma keeps_body l : keeps (label_held l) (f_body l) (body l).
Proof.
  destruct l as [r|p|p|p|]; cbn [label_held f_body body].
  - unfold f_HandleConnection, g_HandleConnection. keeps_step; [apply section_NewConnection|].
    keeps_step; [keeps_step|]. keeps_step; [keeps_step|]. apply keeps_RunHandshake.
    intros [e|]; [|keeps_solve]. keeps_step; [keeps_step|]. apply keeps_close.
  - unfold f_Serve, g_Serve. keeps_step; [apply section_conn_read|]. destruct b as [env [e|]]; [apply keeps_close|].
    apply keeps_Handle. keeps_solve.
  - keeps_solve.
  - apply keeps_dispatch_check.
  - apply keeps_Collect. intros acc. keeps_solve.
Qed.
End connections.

(** ** A run with all mutexes is a run with the locks of queues *)

(** [h] is what goroutine [t] holds. *)
Definition owns (ls : gmap mutex tid) (t : tid) (h : list mutex) : Prop := NoDup h ∧ ∀ mu, ls !! mu = Some t ↔ mu ∈ h.

Definition tkeeps (h : list mutex) (th : fthread) (th' : thread) : Prop :=
  match th, th' with
  | FRunning f, Running c => keeps h f c
  | FAsleep q k, Asleep q' k' => q' = q ∧ h = [] ∧ keeps [MQueue q] k k'
  | FBlocked_write, Blocked_write => h = []
  | _, _ => False
  end.

Record matches (s : FProc) (s' : Proc) : Prop := {
  ma_world : p_world s' = f_world s;
  ma_locks : ∀ p, p_locks s' !! p = f_held s !! MQueue p;
  ma_thread : ∀ t th, f_threads s !! t = Some th →
    ∃ th' h, p_threads s' !! t = Some th' ∧ owns (f_held s) t h ∧ tkeeps h th th';
  ma_new : ∀ t, f_threads s !! t = None → p_threads s' !! t = None;
  ma_held : ∀ mu t, f_held s !! mu = Some t → is_Some (f_threads s !! t);
}.

Lemma owns_push ls t h mu : owns ls t h → ls !! mu = None → owns (<[mu := t]> ls) t (mu :: h).
Proof.
  intros [Hn Hh] Hmu. split.
  - constructor; [|done]. intros Hin. apply Hh in Hin. congruence.
  - intros mu'. rewrite lookup_insert_Some, elem_of_cons, <-Hh. naive_solver congruence.
Qed.

Lemma owns_pop ls t h mu : owns ls t (mu :: h) → owns (delete mu ls) t h.
Proof.
  intros [[Hnot Hn]%NoDup_cons Hh]. split; [done|]. intros mu'. rewrite lookup_delete_Some, Hh, elem_of_cons.
  split; [naive_solver congruence|]. intros Hin. split; [by intros <-|by right].
Qed.

Lemma owns_top ls t h mu : owns ls t (mu :: h) → ls !! mu = Some t.
Proof. intros [_ Hh]. apply Hh. set_solver. Qed.

Lemma owns_other ls ls' t h :
  (∀ mu, ls' !! mu = Some t ↔ ls !! mu = Some t) → owns ls t h → owns ls' t h.
Proof. intros Hls [Hn Hh]. split; [done|]. intros mu. by rewrite Hls. Qed.

(** One goroutine acts, at both levels. *)
Lemma matches_act w w1 ls ls1 ts lc lc1 tc t th th1 th1' h1 :
  matches (mkFProc w ls ts) (mkProc w lc tc) → ts !! t = Some th →
  (∀ p, lc1 !! p = ls1 !! MQueue p) → (∀ mu t', t' ≠ t → ls1 !! mu = Some t' ↔ ls !! mu = Some t') →
  owns ls1 t h1 → tkeeps h1 th1 th1' →
  matches (mkFProc w1 ls1 (<[t := th1]> ts)) (mkProc w1 lc1 (<[t := th1']> tc)).
Proof.
  intros Hm Ht Hl Hls Ho Hk. split; simpl; [done|done|..].
  - intros t' th'. rewrite lookup_insert_Some. intros [[<- <-]|[Hne Ht']].
    + exists th1', h1. by rewrite lookup_insert_eq.
    + destruct (ma_thread _ _ Hm t' th' Ht') as (thc & h & Hc & Hh & Hth). exists thc, h.
      rewrite lookup_insert_ne by done. split_and!; [done| |done]. eapply owns_other; [|exact Hh]. intros; by apply Hls.
  - intros t' [Ht' Hne]%lookup_insert_None. rewrite lookup_insert_ne by done. by apply (ma_new _ _ Hm).
  - intros mu t' Hmu. rewrite lookup_insert_is_Some'. destruct (decide (t = t')) as [|Hne]; [by left|right].
    apply (ma_held _ _ Hm mu). simpl. by apply Hls.
Qed.

(** The same when no mutex changes hands. *)
Lemma matches_move w w1 ls ts lc tc t th th1 th1' h :
  matches (mkFProc w ls ts) (mkProc w lc tc) → ts !! t = Some th → owns ls t h → tkeeps h th1 th1' →
  matches (mkFProc w1 ls (<[t := th1]> ts)) (mkProc w1 lc (<[t := th1']> tc)).
Proof. intros Hm Ht Ho Hk. eapply matches_act; [exact Hm|exact Ht|apply (ma_locks _ _ Hm)|done|exact Ho|exact Hk]. Qed.

Lemma matches_spawn w ls ts lc tc t l :
  matches (mkFProc w ls ts) (mkProc w lc tc) → ts !! t = None → label_held l = [] →
  matches (mkFProc w ls (<[t := FRunning (FJump l)]> ts)) (mkProc w lc (<[t := Running (Jump l)]> tc)).
Proof.
  intros Hm Ht Hl. split; simpl; [done|apply (ma_locks _ _ Hm)|..].
  - intros t' th'. rewrite lookup_insert_Some. intros [[<- <-]|[Hne Ht']].
    + exists (Running (Jump l)), []. rewrite lookup_insert_eq. split_and!; [done| |by split]. split; [constructor|].
      intros mu. split; [|set_solver]. intros Hmu. destruct (ma_held _ _ Hm mu t Hmu) as [th Hth]. simpl in Hth. congruence.
    + rewrite lookup_insert_ne by done. by apply (ma_thread _ _ Hm).
  - intros t' [Ht' Hne]%lookup_insert_None. rewrite lookup_insert_ne by done. by apply (ma_new _ _ Hm).
  - intros mu t' Hmu. rewrite lookup_insert_is_Some'. right. by apply (ma_held _ _ Hm mu).
Qed.

(** A mutex is taken or given back: the lock of a queue on both levels, any other on one. *)
Lemma insert_others (ls : gmap mutex tid) mu t : ls !! mu = None →
  ∀ mu' t', t' ≠ t → <[mu := t]> ls !! mu' = Some t' ↔ ls !! mu' = Some t'.
Proof. intros Hmu mu' t' Hne. rewrite lookup_insert_Some. naive_solver congruence. Qed.

Lemma delete_others (ls : gmap mutex tid) mu t : ls !! mu = Some t →
  ∀ mu' t', t' ≠ t → delete mu ls !! mu' = Some t' ↔ ls !! mu' = Some t'.
Proof. intros Hmu mu' t' Hne. rewrite lookup_delete_Some. naive_solver congruence. Qed.

Lemma queue_insert (lc : gmap loc tid) (ls : gmap mutex tid) p t :
  (∀ p, lc !! p = ls !! MQueue p) → ∀ p', <[p := t]> lc !! p' = <[MQueue p := t]> ls !! MQueue p'.
Proof.
  intros Hl p'. destruct (decide (p' = p)) as [->|]; [by rewrite !lookup_insert_eq|].
  by rewrite !lookup_insert_ne by congruence.
Qed.

Lemma queue_delete (lc : gmap loc tid) (ls : gmap mutex tid) p :
  (∀ p, lc !! p = ls !! MQueue p) → ∀ p', delete p lc !! p' = delete (MQueue p) ls !! MQueue p'.
Proof.
  intros Hl p'. destruct (decide (p' = p)) as [->|]; [by rewrite !lookup_delete_eq|].
  by rewrite !lookup_delete_ne by congruence.
Qed.

Section simulation.
Context `{Oracle}.

Lemma matches_running w ls ts s' t f :
  matches (mkFProc w ls ts) s' → ts !! t = Some (FRunning f) →
  ∃ lc tc c h, s' = mkProc w lc tc ∧ tc !! t = Some (Running c) ∧ owns ls t h ∧ keeps h f c.
Proof.
  intros Hm Ht. destruct (ma_thread _ _ Hm t _ Ht) as (th' & h & Hc & Ho & Hk). destruct s' as [w' lc tc].
  pose proof (ma_world _ _ Hm) as E. simpl in *. subst w'. destruct th' as [c| |]; [|done..]. by exists lc, tc, c, h.
Qed.

(** [FLock] and [FUnlock]. *)
Lemma matches_lock w ls ts lc tc t mu k c h :
  matches (mkFProc w ls ts) (mkProc w lc tc) → ts !! t = Some (FRunning (FLock mu k)) → ls !! mu = None →
  tc !! t = Some (Running c) → owns ls t h → keeps h (FLock mu k) c →
  ∃ s1', rtc pstep (mkProc w lc tc) s1' ∧ matches (mkFProc w (<[mu := t]> ls) (<[t := FRunning k]> ts)) s1'.
Proof.
  intros Hm Ht Hmu Hc Ho [_ Hk]. pose proof (owns_push _ _ _ _ Ho Hmu) as Ho1.
  pose proof (insert_others ls mu t Hmu) as Hls. pose proof (ma_locks _ _ Hm) as Hl. simpl in Hl.
  destruct (is_queue mu) eqn:Eq.
  - destruct mu as [| | | |p|]; try done. destruct Hk as (c' & -> & Hk). eexists. split.
    + apply rtc_once. eapply p_thread, t_lock; [done|]. by rewrite Hl.
    + eapply matches_act; [exact Hm|exact Ht|by apply queue_insert|done|exact Ho1|exact Hk].
  - exists (mkProc w lc tc). split; [done|]. rewrite <-(insert_id tc t (Running c)) by done.
    eapply matches_act; [exact Hm|exact Ht| |done|exact Ho1|by destruct mu].
    intros p. rewrite lookup_insert_ne; [apply Hl|]. by intros ->.
Qed.

Lemma matches_unlock w ls ts lc tc t mu k c h :
  matches (mkFProc w ls ts) (mkProc w lc tc) → ts !! t = Some (FRunning (FUnlock mu k)) →
  tc !! t = Some (Running c) → owns ls t h → keeps h (FUnlock mu k) c →
  ∃ s1', rtc pstep (mkProc w lc tc) s1' ∧ matches (mkFProc w (delete mu ls) (<[t := FRunning k]> ts)) s1'.
Proof.
  intros Hm Ht Hc Ho (h' & -> & Hk). pose proof (owns_pop _ _ _ _ Ho) as Ho1. pose proof (owns_top _ _ _ _ Ho) as Hmu.
  pose proof (delete_others ls mu t Hmu) as Hls. pose proof (ma_locks _ _ Hm) as Hl. simpl in Hl.
  destruct (is_queue mu) eqn:Eq.
  - destruct mu as [| | | |p|]; try done. destruct Hk as (c' & -> & Hk). eexists. split.
    + apply rtc_once. eapply p_thread, t_unlock; [done|]. by rewrite Hl.
    + eapply matches_act; [exact Hm|exact Ht|by apply queue_delete|done|exact Ho1|exact Hk].
  - exists (mkProc w lc tc). split; [done|]. rewrite <-(insert_id tc t (Running c)) by done.
    eapply matches_act; [exact Hm|exact Ht| |done|exact Ho1|by destruct mu].
    intros p. rewrite lookup_delete_ne; [apply Hl|]. by intros ->.
Qed.

Lemma asleep_iff w ls ts lc tc p :
  matches (mkFProc w ls ts) (mkProc w lc tc) → (∀ t' k, ts !! t' ≠ Some (FAsleep p k)) →
  ∀ t' k, tc !! t' ≠ Some (Asleep p k).
Proof.
  intros Hm Hno t' k Hc. destruct (ts !! t') as [th|] eqn:Ht.
  - destruct (ma_thread _ _ Hm t' th Ht) as (th' & h & Hc' & _ & Hk). simpl in Hc'. rewrite Hc in Hc'. injection Hc' as <-.
    destruct th as [|q k0|]; try done. destruct Hk as [-> _]. by eapply Hno.
  - pose proof (ma_new _ _ Hm t' Ht) as E. simpl in E. congruence.
Qed.

Lemma matches_fstep s s1 s' t : matches s s' → fstep t s s1 → ∃ s1', rtc pstep s' s1' ∧ matches s1 s1'.
Proof.
  intros Hm Hs. destruct Hs; destruct (matches_running _ _ _ _ _ _ Hm H0) as (lc & tc & c & h & -> & Hc & Ho & Hk).
  - destruct Hk as [-> ->]. eexists. split; [by eapply rtc_once, p_thread, t_jump|].
    eapply matches_move; [exact Hm|exact H0|exact Ho|apply keeps_body].
  - destruct Hk as (_ & k' & -> & Hk). eexists. split; [by eapply rtc_once, p_thread, t_sec|].
    eapply matches_move; [exact Hm|exact H0|exact Ho|apply Hk].
  - destruct Hk as ([_ Hw] & k' & -> & _). eexists. split; [by eapply rtc_once, p_thread, t_block|].
    assert (h = []) as -> by (destruct h as [|mu h]; [done|by destruct (Hw ltac:(done) w w')]).
    eapply matches_move; [exact Hm|exact H0|exact Ho|done].
  - by eapply matches_lock.
  - by eapply matches_unlock.
  - destruct Hk as (-> & c' & -> & Hk). pose proof (ma_locks _ _ Hm) as Hl. simpl in Hl.
    eexists. split; [eapply rtc_once, p_thread, t_wait; [done|by rewrite Hl]|].
    eapply (matches_act _ _ _ _ _ _ _ _ _ _ _ _ []);
      [exact Hm|exact H0|by apply queue_delete|by apply delete_others|by apply owns_pop|done].
  - destruct Hk as (c' & -> & Hk). assert (t ≠ t') by congruence.
    destruct (ma_thread _ _ Hm t' _ H1) as (th' & h' & Hc' & Ho' & Hk'). simpl in Hc'.
    destruct th' as [|q k0|]; try done. destruct Hk' as (-> & -> & Hk').
    eexists. split; [eapply rtc_once, p_thread, t_wake; done|].
    eapply (matches_move w); [|by rewrite lookup_insert_ne|exact Ho|exact Hk].
    eapply matches_move; [exact Hm|exact H1|exact Ho'|]. apply keeps_lock_queue; [below_solve|done].
  - destruct Hk as (c' & -> & Hk). eexists. split; [eapply rtc_once, p_thread, t_signal; [done|by eapply asleep_iff]|].
    eapply matches_move; [exact Hm|exact H0|exact Ho|exact Hk].
  - destruct Hk as (Hl & c' & -> & Hk). assert (t ≠ t') by congruence.
    eexists. split; [eapply rtc_once, p_thread, t_go; [done|]|]; [by apply (ma_new _ _ Hm)|].
    apply matches_spawn; [|by rewrite lookup_insert_ne|done]. eapply matches_move; [exact Hm|exact H0|exact Ho|exact Hk].
Qed.

Lemma matches_fpstep s s1 s' : matches s s' → fpstep s s1 → ∃ s1', rtc pstep s' s1' ∧ matches s1 s1'.
Proof.
  intros Hm Hs. destruct Hs as [t s s1 Hs|r w ls ts t Ht|p c e w ls ts Hp|w ls ts t Ht]; [by eapply matches_fstep|..];
    destruct s' as [w' lc tc]; pose proof (ma_world _ _ Hm) as E; simpl in E; subst w'.
  - eexists. split; [by eapply rtc_once, p_accept, (ma_new _ _ Hm)|by apply matches_spawn].
  - eexists. split; [by eapply rtc_once, p_network|]. destruct Hm. by split.
  - eexists. split; [by eapply rtc_once, p_scrape, (ma_new _ _ Hm)|by apply matches_spawn].
Qed.

Lemma matches_boot cfg : matches (f_boot cfg) (boot cfg).
Proof. by split. Qed.

Lemma f_running_matches cfg s : f_running cfg s → ∃ s', running cfg s' ∧ matches s s'.
Proof.
  intros Hr. eapply (rtc_ind_r (λ s, ∃ s', running cfg s' ∧ matches s s')); [| |exact Hr].
  - exists (boot cfg). split; [constructor|apply matches_boot].
  - intros s1 s2 _ Hs (s' & Hr' & Hm). destruct (matches_fpstep _ _ _ Hm Hs) as (s2' & Hs' & Hm').
    exists s2'. split; [|done]. unfold running; by etrans.
Qed.
End simulation.

(** ** The claims *)

Section claims.
Context `{Oracle}.

(** A goroutine that runs has a step, has returned, or waits for a mutex that is held. *)
Lemma f_runs_on cfg s s' t f :
  running cfg s' → matches s s' → f_threads s !! t = Some (FRunning f) →
  (∃ s1, fstep t s s1) ∨ f = FRet ∨ ∃ mu k t', f = FLock mu k ∧ f_held s !! mu = Some t'.
Proof.
  intros [Δ Hok]%procs_running Hm Ht. destruct s as [w ls ts]. simpl in *.
  destruct (matches_running _ _ _ _ _ _ Hm Ht) as (lc & tc & c & h & -> & Hc & Ho & Hk).
  destruct f as [|l|B m k|mu k|mu k|p k|p k|l k]; [by auto|left; eexists; by apply f_jump|..].
  - left. destruct Hk as (_ & k' & -> & _). pose proof (procs_no_panic _ _ _ _ _ _ Hok Hc) as Hn. simpl in Hn.
    destruct (m w) as [b w'|w'|] eqn:Em; [eexists; by eapply f_sec|eexists; by eapply f_block|done].
  - destruct (ls !! mu) as [t'|] eqn:Hmu; [by right; right; eauto|left; eexists; by apply f_lock].
  - left. destruct Hk as (h' & -> & _). eexists. eapply f_unlock; [done|by eapply owns_top].
  - left. destruct Hk as (-> & _). eexists. eapply f_wait; [done|by eapply owns_top].
  - left. destruct Hk as (c' & -> & _). destruct (sleeper p tc) as [[t' k']|] eqn:Es.
    + apply sleeper_Some in Es. destruct (ts !! t') as [th|] eqn:Ht'; [|pose proof (ma_new _ _ Hm t' Ht') as E; simpl in E; congruence].
      destruct (ma_thread _ _ Hm t' th Ht') as (th' & h' & Hc' & _ & Hk'). simpl in Hc'. rewrite Es in Hc'. injection Hc' as <-.
      destruct th as [|q k0|]; try done. destruct Hk' as [-> _]. eexists. by eapply f_wake.
    + eexists. eapply f_signal; [done|]. intros t' k' Ht'.
      destruct (ma_thread _ _ Hm t' _ Ht') as (th' & h' & Hc' & _ & Hk'). simpl in Hc'.
      destruct th' as [|q k0|]; try done. destruct Hk' as [-> _]. by eapply sleeper_None.
  - left. destruct (exist_fresh (dom ts)) as [t' Hf]. eexists. eapply f_go; [done|by apply not_elem_of_dom].
Qed.

(** Mutexes are taken in the order of their ranks. *)
Lemma f_order s s' t mu mu' k :
  matches s s' → f_threads s !! t = Some (FRunning (FLock mu k)) → f_held s !! mu' = Some t → (rank mu' < rank mu)%nat.
Proof.
  intros Hm Ht Hmu. destruct s as [w ls ts]. destruct (matches_running _ _ _ _ _ _ Hm Ht) as (lc & tc & c & h & _ & _ & Ho & Hk).
  destruct Hk as [Hb _]. unfold below in Hb. rewrite Forall_forall in Hb. apply Hb, Ho, Hmu.
Qed.

(** Nobody who has returned, sleeps or is stuck in a write holds a mutex. *)
Lemma f_idle s s' t th :
  matches s s' → f_threads s !! t = Some th → th = FRunning FRet ∨ th = FBlocked_write ∨ (∃ q k, th = FAsleep q k) →
  ∀ mu, f_held s !! mu ≠ Some t.
Proof.
  intros Hm Ht Hth mu Hmu. destruct (ma_thread _ _ Hm t th Ht) as (th' & h & _ & [_ Ho] & Hk).
  assert (h = []) as ->; [|apply Ho in Hmu; set_solver].
  destruct Hth as [->|[->|(q & k & ->)]]; destruct th'; try done; naive_solver.
Qed.

(** The holder of a mutex can step, or waits for one of a higher rank, whose holder
    can step or waits in turn. *)
Lemma f_holder_chain cfg s s' n mu t :
  running cfg s' → matches s s' → (6 ≤ rank mu + n)%nat → f_held s !! mu = Some t →
  ∃ mu' t' s1, (rank mu ≤ rank mu')%nat ∧ f_held s !! mu' = Some t' ∧ fstep t' s s1.
Proof.
  intros Hr Hm. revert mu t. induction n as [|n IH]; intros mu t Hn Hmu.
  { exfalso. destruct mu; simpl in Hn; lia. }
  destruct (ma_held _ _ Hm mu t Hmu) as [th Ht]. destruct th as [f|q k|].
  - destruct (f_runs_on _ _ _ _ _ Hr Hm Ht) as [[s1 Hs]|[-> |(mu' & k & t' & -> & Hmu')]].
    + by exists mu, t, s1.
    + by edestruct (f_idle _ _ t _ Hm Ht); eauto.
    + pose proof (f_order _ _ _ _ _ _ Hm Ht Hmu).
      destruct (IH mu' t') as (mu2 & t2 & s1 & ? & ? & ?); [lia|done|]. exists mu2, t2, s1. split; [lia|done].
  - by edestruct (f_idle _ _ t _ Hm Ht); eauto.
  - by edestruct (f_idle _ _ t _ Hm Ht); eauto.
Qed.

(** C4: With every mutex of the broker explicit, no goroutine, scrapes of the metrics
    included, deadlocks: a goroutine takes a mutex only while all it holds come before
    it in the order server, connection, broker, exchange, queue, consumer; while some
    mutex is held, a goroutine that holds one of at least its rank can step; and a
    goroutine that cannot step waits for a mutex that is held, or has returned, sleeps
    in [cond.Wait] or is stuck in a write, and then holds no mutex. *)
Theorem mutexes_no_deadlock cfg s :
  f_running cfg s →
  (∀ t mu mu' k, f_threads s !! t = Some (FRunning (FLock mu k)) → f_held s !! mu' = Some t → (rank mu' < rank mu)%nat) ∧
  (∀ mu t, f_held s !! mu = Some t →
     ∃ mu' t' s1, (rank mu ≤ rank mu')%nat ∧ f_held s !! mu' = Some t' ∧ fstep t' s s1) ∧
  (∀ t th, f_threads s !! t = Some th →
     (∃ s1, fstep t s s1) ∨
     (∃ mu k t', th = FRunning (FLock mu k) ∧ f_held s !! mu = Some t') ∨
     ((th = FRunning FRet ∨ th = FBlocked_write ∨ ∃ q k, th = FAsleep q k) ∧ ∀ mu, f_held s !! mu ≠ Some t)).
Proof.
  intros (s' & Hr & Hm)%f_running_matches. split_and!.
  - intros. by eapply f_order.
  - intros mu t. apply (f_holder_chain cfg s s' 6); [done..|lia].
  - intros t th Ht. destruct th as [f|q k|]; [|right; right; split; [|eapply f_idle]; by eauto..].
    destruct (f_runs_on _ _ _ _ _ Hr Hm Ht) as [?|[-> |(mu & k & t' & -> & ?)]]; [by left| |].
    + right; right; split; [by left|eapply f_idle; by eauto].
    + right; left. by exists mu, k, t'.
Qed.

(** A run with every mutex is a run of the goroutines with the locks of queues
    only: some run of [Goroutines] has the same store, the same owners of the locks of
    queues, and every goroutine that is about to run a section runs the same section
    there.  What holds of every interleaving of [Goroutines] thus holds here. *)
Theorem mutexes_refine cfg s :
  f_running cfg s → ∃ s', running cfg s' ∧ p_world s' = f_world s ∧
    (∀ p, p_locks s' !! p = f_held s !! MQueue p) ∧
    (∀ t B (m : M B) k, f_threads s !! t = Some (FRunning (FSec m k)) →
       ∃ k', p_threads s' !! t = Some (Running (Sec m k'))) ∧
    ∀ t q k, f_threads s !! t = Some (FAsleep q k) → ∃ k', p_threads s' !! t = Some (Asleep q k').
Proof.
  intros (s' & Hr & Hm)%f_running_matches. exists s'. split_and!; [done|apply Hm..| |].
  - intros t B m k Ht. destruct (ma_thread _ _ Hm _ _ Ht) as ([c| |] & h & Hc & _ & Hk); [|done..].
    destruct Hk as (_ & k' & -> & _). by exists k'.
  - intros t q k Ht. destruct (ma_thread _ _ Hm _ _ Ht) as ([|q' c|] & h & Hc & _ & Hk); [done| |done].
    destruct Hk as [-> _]. by exists c.
Qed.

(** C16: What a mutex protects (the table of connections, the channels of a connection,
    the tables of the broker, the bindings of an exchange, a queue, a consumer) changes
    only in a step of the goroutine that holds it. *)
Theorem mutex_protects cfg s s1 mu :
  f_running cfg s → fpstep s s1 →
  protected mu (f_world s) (f_world s1) ∨ ∃ t, f_held s !! mu = Some t ∧ fstep t s s1.
Proof.
  intros (s' & Hr & Hm)%f_running_matches Hs.
  destruct Hs as [t s s1 Hs|r w ls ts t Ht|p c e w ls ts Hp|w ls ts t Ht]; [|left; reflexivity| |left; reflexivity].
  - assert (∀ w ls ts w' B (m : M B) k, s = mkFProc w ls ts → ts !! t = Some (FRunning (FSec m k)) →
      match m w with Done _ w1 | Blocked w1 => w1 = w' | Panicked => False end →
      protected mu w w' ∨ ∃ t, ls !! mu = Some t ∧ fstep t s s1) as Hsec.
    { intros w ls ts w' B m k -> Ht Hw. destruct (matches_running _ _ _ _ _ _ Hm Ht) as (lc & tc & c & h & _ & _ & [_ Ho] & Hk).
      destruct Hk as ([Hg _] & _). destruct (decide (mu ∈ h)) as [Hin|Hin]; [right; exists t; split; [by apply Ho|done]|left].
      specialize (Hg w). destruct (m w); simplify_eq; try done; by apply Hg. }
    destruct Hs; try (left; reflexivity).
    + apply (Hsec w ls ts w' B m k); [done..|]. by rewrite H1.
    + apply (Hsec w ls ts w' B m k); [done..|]. by rewrite H1.
  - left. destruct mu; simpl; eauto. intros cn Hcn. destruct (decide (p0 = p)) as [->|]; simplify_map_eq; eauto.
Qed.
End claims.

(** ** A contended state *)

(** Goroutine 0 serves a client that declares a queue, 1 dispatches that queue and has
    its mutex, 2 is a scrape that has the mutex of the broker and waits for the queue. *)
Definition declaring : Reader := client [open_channel 1; declare_queue 1 "jobs" "" ""].
Definition contended_schedule : list Schedule := [SAccept declaring; SRun 0%nat 35; SRun 1%nat 2; SScrape; SRun 2%nat 7].

Section witnesses.
#[local] Existing Instance oracle_id.

Definition contended : FProc := default (f_boot demo_cfg) (f_schedule contended_schedule (f_boot demo_cfg)).

Lemma contended_running : f_running demo_cfg contended.
Proof.
  unfold contended. destruct (f_schedule contended_schedule (f_boot demo_cfg)) as [s|] eqn:E; [|constructor].
  by eapply f_schedule_running.
Qed.

Lemma mutexes_no_deadlock_witness :
  f_held contended !! MBroker = Some 2%nat ∧ f_held contended !! MQueue jobs = Some 1%nat ∧
  (∃ k, f_threads contended !! 2%nat = Some (FRunning (FLock (MQueue jobs) k))) ∧
  ∃ mu' t' s1, (rank MBroker ≤ rank mu')%nat ∧ f_held contended !! mu' = Some t' ∧ fstep t' contended s1.
Proof.
  split; [vm_compute; reflexivity|]. split; [vm_compute; reflexivity|]. split; [eexists; vm_compute; reflexivity|].
  apply (proj1 (proj2 (mutexes_no_deadlock demo_cfg contended contended_running)) MBroker 2%nat).
  vm_compute. reflexivity.
Defined.

Lemma mutexes_refine_witness :
  ∃ s', running demo_cfg s' ∧ p_world s' = f_world contended ∧ p_locks s' !! jobs = Some 1%nat.
Proof.
  destruct (mutexes_refine demo_cfg contended contended_running) as (s' & Hr & Hw & Hl & _).
  exists s'. split; [exact Hr|]. split; [exact Hw|]. rewrite Hl. vm_compute. reflexivity.
Defined.

Lemma mutex_protects_witness :
  ∃ s1, fpstep contended s1 ∧
    (protected (MQueue jobs) (f_world contended) (f_world s1) ∨
     ∃ t, f_held contended !! MQueue jobs = Some t ∧ fstep t contended s1).
Proof.
  assert (match frun 1%nat contended with Some _ => true | None => false end = true) as Hrun by (vm_compute; reflexivity).
  destruct (frun 1%nat contended) as [s1|] eqn:E; [|discriminate Hrun].
  assert (fpstep contended s1) as Hs by (eapply fp_thread, frun_fstep, E).
  exists s1. split; [exact Hs|]. exact (mutex_protects demo_cfg contended s1 (MQueue jobs) contended_running Hs).
Defined.
End witnesses.
