(* ===== verification/Progress.v ===== *)
(** * Goroutines can finish what they do

    From every state the process of [Mutexes] reaches, it can go on so that every mutex
    is given back ([drain]), and then any goroutine can be run alone to the end of its
    operation.  The run of one goroutine is an induction on its code ([run_down]): it
    takes mutexes of growing rank only, so the ones it needs are free when the others
    hold lower ones. *)

From S2P Require Import Prelude GoJson Protocol State Transport Queue Exchange Broker Channel Connection Invariant Accounting Frame Server Scenario Process Goroutines Schedules Rely Sections Concurrency Mutexes LockOrder.

(** Returned, at the head of a loop, in [cond.Wait], or stuck in a write. *)
Definition at_rest (th : fthread) : Prop :=
  match th with
  | FRunning FRet => True
  | FRunning (FJump l) => label_held l = []
  | FRunning _ => False
  | FAsleep _ _ | FBlocked_write => True
  end.

(** No path leads back to the test of [len(q.messages)] without sleeping. *)
Fixpoint no_check (f : fcode) : Prop :=
  match f with
  | FRet | FWait _ _ => True
  | FJump l => label_held l = []
  | FSec m k => ∀ b, no_check (k b)
  | FLock _ k | FUnlock _ k | FSignal _ k | FGo _ k => no_check k
  end.

Section progress.
Context `{Oracle}.

Lemma no_check_scan cs (k : option loc → fcode) : (∀ r, no_check (k r)) → no_check (f_scan_consumers cs k).
Proof. intros Hk. induction cs as [|c cs IH]; [apply Hk|]. simpl. intros []; [apply Hk|done]. Qed.

Lemma no_check_dispatch p : no_check (f_dispatch_check p).
Proof.
  intros q. destruct (q_messages q) as [|m ms]; [done|]. intros cs. apply no_check_scan.
  intros [c|]; simpl; [|done]. intros msg _ err. by destruct err.
Qed.

(** What a step of goroutine [t] preserves. *)
Definition live (cfg : ServerConfig) (s : FProc) : Prop := ∃ s', running cfg s' ∧ matches s s'.

Lemma live_step cfg s s1 t : live cfg s → fstep t s s1 → live cfg s1.
Proof.
  intros (s' & Hr & Hm) Hs. destruct (matches_fstep _ _ _ _ Hm Hs) as (s1' & Hs' & Hm'). exists s1'.
  split; [|done]. unfold running in *. by etrans.
Qed.

(** A section is never stuck. *)
Lemma live_section cfg w ls ts t B (m : M B) k :
  live cfg (mkFProc w ls ts) → ts !! t = Some (FRunning (FSec m k)) → m w ≠ Panicked.
Proof.
  intros (s' & [Δ Hok]%procs_running & Hm) Ht.
  destruct (matches_running _ _ _ _ _ _ Hm Ht) as (lc & tc & c & h & -> & Hc & _ & _ & k' & -> & _).
  apply (procs_no_panic _ _ _ _ _ _ Hok Hc).
Qed.

(** A signal always goes through, and keeps the mutexes. *)
Lemma signal_step w ls ts t p k :
  ts !! t = Some (FRunning (FSignal p k)) →
  ∃ ts1, fstep t (mkFProc w ls ts) (mkFProc w ls ts1) ∧ ts1 !! t = Some (FRunning k).
Proof.
  intros Ht. destruct (f_sleeper p ts) as [[t' k']|] eqn:Es.
  - apply f_sleeper_Some in Es. eexists. split; [by eapply f_wake|]. by rewrite lookup_insert_eq.
  - eexists. split; [eapply f_signal; [done|]; intros; by apply f_sleeper_None|]. by rewrite lookup_insert_eq.
Qed.

(** The mutexes that are held once those of [h1] and the first of [base] are given back. *)
Definition released_of (h1 base : list mutex) (ls ls1 : gmap mutex tid) : Prop :=
  ∀ mu, ls1 !! mu = if decide (mu ∈ h1 ++ take 1 base) then None else ls !! mu.

(** Goroutine [t] holds [h1] and, below them, [base]; the others hold nothing above
    [base].  What it takes next is free. *)
Definition unobstructed (t : tid) (base : list mutex) (ls : gmap mutex tid) : Prop :=
  ∀ mu t', t' ≠ t → ls !! mu = Some t' → ∃ m, m ∈ base ∧ (rank mu ≤ rank m)%nat.

Lemma next_is_free t h1 base ls mu :
  unobstructed t base ls → owns ls t (h1 ++ base) → below mu (h1 ++ base) → ls !! mu = None.
Proof.
  intros Hu [_ Ho] Hb. unfold below in Hb. rewrite Forall_forall in Hb.
  destruct (ls !! mu) as [t'|] eqn:Hmu; [exfalso|done]. destruct (decide (t' = t)) as [->|Hne].
  - apply Ho, Hb in Hmu. lia.
  - destruct (Hu mu t' Hne Hmu) as (m & Hm & Hle). specialize (Hb m ltac:(set_solver)). lia.
Qed.

(** The contract of [run_down] for one piece of code. *)
Definition finishes (cfg : ServerConfig) (t : tid) (f : fcode) : Prop := ∀ s h1 base c,
  live cfg s → f_threads s !! t = Some (FRunning f) → owns (f_held s) t (h1 ++ base) → keeps (h1 ++ base) f c →
  unobstructed t base (f_held s) →
  ∃ s1 th, rtc fpstep s s1 ∧ f_threads s1 !! t = Some th ∧ (base = [] → at_rest th) ∧
    released_of h1 base (f_held s) (f_held s1).

Lemma released_nothing base ls : base = [] → released_of [] base ls ls.
Proof. intros -> mu. by rewrite decide_False by set_solver. Qed.

(** Giving back the first of [base] is the end of the run. *)
Lemma released_first mu base ls : released_of [] (mu :: base) ls (delete mu ls).
Proof.
  intros mu'. cbn [take app]. destruct (decide (mu' = mu)) as [->|Hne].
  - by rewrite lookup_delete_eq, decide_True by set_solver.
  - by rewrite lookup_delete_ne, decide_False by set_solver.
Qed.

Lemma released_taken mu t h1 base ls ls1 :
  ls !! mu = None → released_of (mu :: h1) base (<[mu := t]> ls) ls1 → released_of h1 base ls ls1.
Proof.
  intros Hmu Hr mu'. rewrite Hr. cbn [app]. destruct (decide (mu' = mu)) as [->|Hne].
  - rewrite decide_True by set_solver. by case_decide.
  - rewrite lookup_insert_ne by done. repeat case_decide; set_solver.
Qed.

Lemma released_given mu h1 base ls ls1 :
  released_of h1 base (delete mu ls) ls1 → released_of (mu :: h1) base ls ls1.
Proof.
  intros Hr mu'. rewrite Hr. cbn [app]. destruct (decide (mu' = mu)) as [->|Hne].
  - rewrite lookup_delete_eq, (decide_True (P := mu ∈ mu :: _)) by set_solver. by case_decide.
  - rewrite lookup_delete_ne by done. repeat case_decide; set_solver.
Qed.

(** One step, then the rest of the run. *)
Lemma finishes_step cfg t f ls ts w w1 ls1 ts1 h1 base h1' c' :
  finishes cfg t f → live cfg (mkFProc w ls ts) → fstep t (mkFProc w ls ts) (mkFProc w1 ls1 ts1) →
  ts1 !! t = Some (FRunning f) → owns ls1 t (h1' ++ base) → keeps (h1' ++ base) f c' → unobstructed t base ls1 →
  (∀ ls2, released_of h1' base ls1 ls2 → released_of h1 base ls ls2) →
  ∃ s1 th, rtc fpstep (mkFProc w ls ts) s1 ∧ f_threads s1 !! t = Some th ∧ (base = [] → at_rest th) ∧
    released_of h1 base ls (f_held s1).
Proof.
  intros Hf Hl Hs Ht Ho Hk Hu Hr.
  destruct (Hf (mkFProc w1 ls1 ts1) h1' base c') as (s1 & th & Hs1 & ? & ? & ?); [by eapply live_step|done..|].
  exists s1, th. split_and!; [|done|done|by apply Hr]. eapply rtc_l; [by eapply fp_thread|done].
Qed.

Lemma unobstructed_insert t base ls mu : unobstructed t base ls → unobstructed t base (<[mu := t]> ls).
Proof. intros Hu mu' t' Hne. rewrite lookup_insert_Some. intros [[_ ?]|[_ ?]]; [congruence|by eauto]. Qed.

Lemma unobstructed_delete t base ls mu : unobstructed t base ls → unobstructed t base (delete mu ls).
Proof. intros Hu mu' t' Hne [_ Hmu]%lookup_delete_Some. eauto. Qed.

Lemma run_down cfg t f : no_check f ∨ (∀ p, finishes cfg t (f_dispatch_check p)) → finishes cfg t f.
Proof.
  intros Hf. induction f as [|l|B m k IH|mu k IH|mu k IH|p k IH|p k IH|l k IH];
    intros [w ls ts] h1 base c Hl Ht Ho Hk Hu; simpl in *.
  - destruct Hk as [[-> ->]%app_eq_nil _]. eexists _, _. split_and!; [done|exact Ht|done|by apply released_nothing].
  - destruct Hk as [E _]. destruct (label_held l) as [|mu h] eqn:El.
    + apply app_eq_nil in E as [-> ->]. eexists _, _. split_and!; [done|exact Ht|done|by apply released_nothing].
    + destruct Hf as [?|Hf]; [done|]. destruct l as [| | |p|]; try done. simpl in El. injection El as <- <-.
      eapply (finishes_step cfg t _ ls ts w w ls _ h1 base h1); [apply (Hf p)|done|by apply f_jump|by rewrite lookup_insert_eq|done| |done|done].
      rewrite E. apply (keeps_body (LCheck p)).
  - destruct Hk as ([_ Hw] & k' & -> & Hk). pose proof (live_section _ _ _ _ _ _ _ _ Hl Ht) as Hp.
    destruct (m w) as [b w1|w1|] eqn:Em; [| |done].
    + eapply (finishes_step cfg t (k b) ls ts w w1 ls _ h1 base h1);
        [apply IH; naive_solver|done|by eapply f_sec|by rewrite lookup_insert_eq|done|apply Hk|done|done].
    + destruct (h1 ++ base) as [|mu h] eqn:E; [|by destruct (Hw ltac:(done) w w1)].
      apply app_eq_nil in E as [-> ->]. eexists (mkFProc w1 ls _), _.
      split_and!; [by eapply rtc_once, fp_thread, f_block|simpl; by rewrite lookup_insert_eq|done|by apply released_nothing].
  - destruct Hk as [Hb Hk]. pose proof (next_is_free _ _ _ _ _ Hu Ho Hb) as Hmu.
    assert (∃ c', keeps (mu :: h1 ++ base) k c') as [c' Hk'] by (destruct mu; naive_solver).
    eapply (finishes_step cfg t k ls ts w w (<[mu := t]> ls) _ h1 base (mu :: h1));
      [apply IH; naive_solver|done|by apply f_lock|by rewrite lookup_insert_eq|by apply owns_push|exact Hk'|
       by apply unobstructed_insert|intros ls2; by apply released_taken].
  - destruct Hk as (h' & E & Hk). assert (ls !! mu = Some t) as Hmu by (eapply owns_top; by rewrite <-E).
    destruct h1 as [|mu1 h1]; simpl in E.
    + subst base. eexists (mkFProc w (delete mu ls) _), _.
      split_and!; [by eapply rtc_once, fp_thread, f_unlock|simpl; by rewrite lookup_insert_eq|done|apply released_first].
    + injection E as -> <-. assert (∃ c', keeps (h1 ++ base) k c') as [c' Hk'] by (destruct mu; naive_solver).
      eapply (finishes_step cfg t k ls ts w w (delete mu ls) _ (mu :: h1) base h1);
        [apply IH; naive_solver|done|by apply f_unlock|by rewrite lookup_insert_eq|by apply owns_pop|exact Hk'|
         by apply unobstructed_delete|intros ls2; by apply released_given].
  - destruct Hk as [E _]. assert (ls !! MQueue p = Some t) as Hmu by (eapply owns_top; by rewrite <-E).
    eexists (mkFProc w (delete (MQueue p) ls) _), _.
    split_and!; [by eapply rtc_once, fp_thread, f_wait|simpl; by rewrite lookup_insert_eq|done|].
    destruct h1 as [|mu1 h1]; simpl in E; [subst base; apply released_first|].
    injection E as -> [-> ->]%app_eq_nil. apply released_given, released_nothing. done.
  - destruct Hk as (c' & -> & Hk). destruct (signal_step w ls ts t p k Ht) as (ts1 & Hs & Ht1).
    eapply (finishes_step cfg t k ls ts w w ls ts1 h1 base h1); [by apply IH|done..].
  - destruct Hk as (_ & c' & -> & Hk). destruct (exist_fresh (dom ts)) as [t' Hfr%not_elem_of_dom].
    eapply (finishes_step cfg t k ls ts w w ls _ h1 base h1);
      [by apply IH|done|by eapply (f_go t w ls ts l k t')| |done..].
    rewrite lookup_insert_ne by congruence. by rewrite lookup_insert_eq.
Qed.

Lemma run_finishes cfg t f : finishes cfg t f.
Proof. apply run_down. right. intros p. apply run_down. left. apply no_check_dispatch. Qed.

Lemma live_steps cfg s s1 : live cfg s → rtc fpstep s s1 → live cfg s1.
Proof.
  intros Hl Hs. revert Hl. induction Hs as [s|s s1 s2 Hs _ IH]; [done|]. intros (s' & Hr & Hm). apply IH.
  destruct (matches_fpstep _ _ _ Hm Hs) as (s1' & Hs' & Hm'). exists s1'. split; [|done]. unfold running in *. by etrans.
Qed.

Definition not_below (x y : mutex) : Prop := (rank y ≤ rank x)%nat.

#[local] Instance not_below_trans : Transitive not_below.
Proof. intros x y z. unfold not_below. lia. Qed.
#[local] Instance not_below_dec x y : Decision (not_below x y).
Proof. unfold not_below. apply _. Defined.

(** Of the mutexes that are held, one of the highest rank. *)
Lemma highest_held (ls : gmap mutex tid) :
  ls ≠ ∅ → ∃ mu t, ls !! mu = Some t ∧ ∀ mu' t', ls !! mu' = Some t' → (rank mu' ≤ rank mu)%nat.
Proof.
  intros Hne. destruct (minimal_exists_elem_of not_below (dom ls)) as (mu & Hmu & Hmin).
  { intros E. apply Hne. by apply dom_empty_inv. }
  apply elem_of_dom in Hmu as [t Ht]. exists mu, t. split; [done|]. intros mu' t' Hmu'.
  destruct (decide (rank mu' ≤ rank mu)%nat) as [|Hn]; [done|]. apply (Hmin mu'); [|unfold not_below; lia].
  apply elem_of_dom. by exists t'.
Qed.

(** The holder of that one can go on until it has given it back. *)
Lemma release_one cfg s :
  live cfg s → f_held s ≠ ∅ → ∃ s1, rtc fpstep s s1 ∧ (size (f_held s1) < size (f_held s))%nat.
Proof.
  intros Hl Hne. destruct (highest_held _ Hne) as (mu & t & Hmu & Hmax). pose proof Hl as (s' & Hr & Hm).
  destruct (ma_held _ _ Hm mu t Hmu) as [th Ht].
  destruct (ma_thread _ _ Hm t th Ht) as (th' & h & _ & Ho & Hk).
  assert (mu ∈ h) as Hin by (by apply Ho). destruct th as [f|q k|], th' as [c|q' c|]; try done.
  2: { destruct Hk as (_ & -> & _). set_solver. }
  2: { simpl in Hk. subst h. set_solver. }
  apply list_elem_of_split in Hin as (h1 & h2 & ->).
  destruct (run_finishes cfg t f s h1 (mu :: h2) c) as (s1 & th1 & Hs & _ & _ & Hrel); [done..| |].
  { intros mu' t' _ Hmu'. exists mu. split; [set_solver|by eapply Hmax]. }
  exists s1. split; [done|]. rewrite <-!size_dom. apply subset_size. split.
  - intros mu'. rewrite !elem_of_dom, Hrel. case_decide; [by intros []|done].
  - intros Hsub. specialize (Hsub mu ltac:(apply elem_of_dom; by exists t)). apply elem_of_dom in Hsub.
    rewrite Hrel, decide_True in Hsub by set_solver. by destruct Hsub.
Qed.

Lemma drain cfg s : live cfg s → ∃ s1, rtc fpstep s s1 ∧ f_held s1 = ∅.
Proof.
  remember (size (f_held s)) as n eqn:En. revert s En.
  induction (lt_wf n) as [n _ IH]; intros s -> Hl. destruct (decide (f_held s = ∅)) as [|Hne]; [by exists s|].
  destruct (release_one cfg s Hl Hne) as (s1 & Hs & Hlt).
  destruct (IH _ Hlt s1 eq_refl) as (s2 & Hs2 & ?); [by eapply live_steps|]. exists s2. split; [by etrans|done].
Qed.

(** No goroutine is forgotten. *)
Lemma threads_stay s s1 t : rtc fpstep s s1 → is_Some (f_threads s !! t) → is_Some (f_threads s1 !! t).
Proof.
  induction 1 as [s|s s1 s2 Hs _ IH]; [done|]. intros Ht. apply IH.
  destruct Hs as [t' s s1 Hs| | |]; [destruct Hs|..]; simpl in *; rewrite ?lookup_insert_is_Some'; auto.
Qed.

Lemma can_finish cfg s t :
  live cfg s → is_Some (f_threads s !! t) →
  ∃ s1 th, rtc fpstep s s1 ∧ f_held s1 = ∅ ∧ f_threads s1 !! t = Some th ∧ at_rest th.
Proof.
  intros Hl Ht. destruct (drain cfg s Hl) as (s1 & Hs & He).
  destruct (threads_stay _ _ t Hs Ht) as [th Ht1]. pose proof (live_steps _ _ _ Hl Hs) as Hl1.
  destruct th as [f|q k|]; [|by exists s1, (FAsleep q k)|by exists s1, FBlocked_write]. pose proof Hl1 as (s' & Hr & Hm).
  destruct (ma_thread _ _ Hm t _ Ht1) as ([c| |] & h & _ & Ho & Hk); [|done..].
  assert (h = []) as ->. { destruct h as [|mu h]; [done|]. apply owns_top in Ho. by rewrite He in Ho. }
  destruct (run_finishes cfg t f s1 [] [] c) as (s2 & th & Hs2 & ? & Hrest & Hrel); [done..| |].
  { intros mu t' _. by rewrite He. }
  exists s2, th. split_and!; [by etrans| |done|by apply Hrest]. apply map_eq. intros mu. rewrite Hrel, He.
  by case_decide.
Qed.

(** C17: No goroutine is ever shut out: from every reachable state, with every mutex of
    the broker explicit and a scrape among the goroutines, the process can go on to a
    state in which no mutex is held, and in which any goroutine one chooses has finished
    what it was doing: it has returned, is back at the head of its loop, sleeps in
    [cond.Wait] or is stuck in a write. *)
Theorem operations_can_finish cfg s t :
  f_running cfg s → is_Some (f_threads s !! t) →
  ∃ s1 th, rtc fpstep s s1 ∧ f_held s1 = ∅ ∧ f_threads s1 !! t = Some th ∧ at_rest th.
Proof. intros Hl%f_running_matches. by apply (can_finish cfg). Qed.

(** *** Scrapes *)

(** Code that only reads, writes and locks: it neither waits nor loops. *)
Fixpoint plain (f : fcode) : Prop :=
  match f with
  | FRet => True
  | FSec m k => NoWait m ∧ ∀ b, plain (k b)
  | FLock _ k | FUnlock _ k => plain k
  | _ => False
  end.

Lemma plain_collect_consumers n cs acc (k : list Sample → fcode) :
  (∀ acc, plain (k acc)) → plain (f_collect_consumers n cs acc k).
Proof.
  intros Hk. revert acc. induction cs as [|c cs IH]; intros acc; [apply Hk|].
  split; [typeclasses eauto|]. intros s. apply IH.
Qed.

Lemma plain_collect_queues_of qs acc (k : list Sample → fcode) :
  (∀ acc, plain (k acc)) → plain (f_collect_queues_of qs acc k).
Proof.
  intros Hk. revert acc. induction qs as [|[n p] qs IH]; intros acc; [apply Hk|].
  split; [typeclasses eauto|]. intros q. split; [typeclasses eauto|]. intros cs.
  apply plain_collect_consumers. intros acc'. apply IH.
Qed.

Lemma plain_Collect : plain (f_Collect (λ _, FRet)).
Proof.
  split; [typeclasses eauto|]. intros n. split; [typeclasses eauto|]. intros b. split; [typeclasses eauto|]. intros qs.
  by apply plain_collect_queues_of.
Qed.

(** A goroutine in the middle of a scrape. *)
Definition scraping (o : option fthread) : Prop := ∃ f, o = Some (FRunning f) ∧ plain f.

(** A step of another goroutine, or of none. *)
Lemma scraping_other (ts : gmap tid fthread) t t' th : t' ≠ t → scraping (ts !! t) → scraping (<[t' := th]> ts !! t).
Proof. intros Hne. by rewrite lookup_insert_ne. Qed.

Lemma scraping_own (ts : gmap tid fthread) t f : plain f → scraping (<[t := FRunning f]> ts !! t).
Proof. intros Hf. exists f. by rewrite lookup_insert_eq. Qed.

Lemma scraping_fstep s s1 t t' : fstep t' s s1 → scraping (f_threads s !! t) → scraping (f_threads s1 !! t).
Proof.
  intros Hs Ht. destruct (decide (t' = t)) as [->|Hne].
  - destruct Hs; simpl in *; destruct Ht as (f & Ht & Hf); simplify_eq; simpl in Hf; try done;
      try (apply scraping_own; naive_solver).
    destruct Hf as [Hw _]. by destruct (Hw w w').
  - destruct Hs; simpl in *; repeat apply scraping_other; try done.
    all: intros ->; destruct Ht as (f & Ht & _); congruence.
Qed.

Lemma scraping_steps s s1 t : rtc fpstep s s1 → scraping (f_threads s !! t) → scraping (f_threads s1 !! t).
Proof.
  induction 1 as [s|s s1 s2 Hs _ IH]; [done|]. intros Ht. apply IH.
  destruct Hs as [t' s s1 Hs|r w ls ts t' Ht'| |w ls ts t' Ht']; [by eapply scraping_fstep|..|done|]; simpl in *.
  all: apply scraping_other; [intros ->; destruct Ht as (f & Ht & _); congruence|done].
Qed.

(** A scrape can always be brought to its end, whatever the other goroutines hold and
    wait for at that moment. *)
Theorem scrape_can_finish cfg s t :
  f_running cfg s → f_threads s !! t = Some (FRunning (FJump LScrape)) ∨ scraping (f_threads s !! t) →
  ∃ s1, rtc fpstep s s1 ∧ f_threads s1 !! t = Some (FRunning FRet).
Proof.
  intros Hl%f_running_matches Ht. fold (live cfg s) in Hl.
  assert (∃ s0, rtc fpstep s s0 ∧ scraping (f_threads s0 !! t)) as (s0 & Hs0 & Hscr).
  { destruct Ht as [Ht|Ht]; [|by exists s]. destruct s as [w ls ts]. eexists.
    split; [by eapply rtc_once, fp_thread, f_jump|]. apply scraping_own, plain_Collect. }
  assert (is_Some (f_threads s0 !! t)) as Hin by (destruct Hscr as (f & -> & _); by eauto).
  destruct (can_finish cfg s0 t) as (s1 & th & Hs & _ & Hth & Hrest); [by eapply live_steps|done|].
  exists s1. split; [by etrans|]. destruct (scraping_steps _ _ t Hs Hscr) as (f & Hf & Hp). simplify_eq. by destruct f.
Qed.
End progress.

Section witnesses.
#[local] Existing Instance oracle_id.

(** The scrape of the contended state can finish although the queue it waits for is held. *)
Lemma operations_can_finish_witness :
  (∃ k, f_threads contended !! 2%nat = Some (FRunning (FLock (MQueue jobs) k))) ∧
  ∃ s1 th, rtc fpstep contended s1 ∧ f_held s1 = ∅ ∧ f_threads s1 !! 2%nat = Some th ∧ at_rest th.
Proof.
  split; [eexists; vm_compute; reflexivity|].
  apply (operations_can_finish demo_cfg contended 2%nat contended_running).
  eexists. vm_compute. reflexivity.
Defined.

(** A scrape that starts while a client is being served. *)
Lemma scrape_can_finish_witness :
  ∃ s1, rtc fpstep (f_spawn LScrape contended) s1 ∧ f_threads s1 !! 3%nat = Some (FRunning FRet).
Proof.
  apply (scrape_can_finish demo_cfg (f_spawn LScrape contended) 3%nat).
  - eapply rtc_r; [apply contended_running|]. unfold f_spawn. destruct contended as [w ls ts]; simpl.
    apply fp_scrape, not_elem_of_dom, is_fresh.
  - left. vm_compute. reflexivity.
Defined.
End witnesses.
