(* ===== verification/Bufio.v ===== *)
(** * Go's bufio.Writer

    The buffered writer behind the CSV output of the benchmark and behind the line
    codec of the protocol: 4096 bytes of buffer over an [io.Writer], and the first
    error kept for ever.  [Class Destination] is the contract the documentation of
    [io.Writer] gives; what is proved of the buffered writer is proved against it. *)

From S2P Require Import Prelude.

(** ** Slices of strings *)

Fixpoint str_take (n : nat) (s : string) : string :=
  match n, s with S n', String a s' => String a (str_take n' s') | _, _ => "" end.
Fixpoint str_drop (n : nat) (s : string) : string :=
  match n, s with S n', String a s' => str_drop n' s' | _, _ => s end.

Lemma str_app_cons x (a b : string) : String x a +:+ b = String x (a +:+ b).
Proof. done. Qed.

Lemma str_nil_app (s : string) : "" +:+ s = s.
Proof. done. Qed.

Lemma str_length_app (a b : string) : String.length (a +:+ b) = (String.length a + String.length b)%nat.
Proof. induction a as [|x a IH]; [done|]. rewrite str_app_cons. simpl. by rewrite IH. Qed.

Lemma str_app_assoc (a b c : string) : a +:+ (b +:+ c) = (a +:+ b) +:+ c.
Proof. induction a as [|x a IH]; [done|]. by rewrite !str_app_cons, IH. Qed.

Lemma str_app_nil (s : string) : s +:+ "" = s.
Proof. induction s as [|x s IH]; [done|]. by rewrite str_app_cons, IH. Qed.

Lemma str_take_drop n s : str_take n s +:+ str_drop n s = s.
Proof. revert n. induction s as [|a s IH]; intros [|n]; cbn [str_take str_drop]; [done..|]. by rewrite str_app_cons, IH. Qed.

Lemma str_drop_all n s : (String.length s ≤ n)%nat → str_drop n s = "".
Proof. revert n. induction s as [|a s IH]; intros [|n]; simpl; intros; [done..|lia|apply IH; lia]. Qed.

Lemma str_take_all n s : (String.length s ≤ n)%nat → str_take n s = s.
Proof. revert n. induction s as [|a s IH]; intros [|n]; simpl; intros; [done..|lia|]. rewrite IH; [done|lia]. Qed.

Lemma str_length_drop n s : String.length (str_drop n s) = (String.length s - n)%nat.
Proof. revert n. induction s as [|a s IH]; intros [|n]; simpl; [done..|]. apply IH. Qed.

(** What holds of every character. *)
Fixpoint all_chars (P : Ascii.ascii → Prop) (s : string) : Prop :=
  match s with EmptyString => True | String a s' => P a ∧ all_chars P s' end.

Lemma all_chars_app P s t : all_chars P s → all_chars P t → all_chars P (s +:+ t).
Proof. induction s as [|a s IH]; intros Hs Ht; [done|]. destruct Hs. rewrite str_app_cons. split; [done|by apply IH]. Qed.

Lemma all_chars_mono (P Q : Ascii.ascii → Prop) s : (∀ a, P a → Q a) → all_chars P s → all_chars Q s.
Proof. intros HPQ. induction s as [|a s IH]; [done|]. intros [? ?]. split; [by apply HPQ|by apply IH]. Qed.

(** [p] is an initial segment of [s]. *)
Definition str_prefix (p s : string) : Prop := ∃ t, s = p +:+ t.

#[export] Instance str_prefix_preorder : PreOrder str_prefix.
Proof.
  split; [intros s; exists ""; by rewrite str_app_nil|].
  intros a b c [t ->] [u ->]. exists (t +:+ u). by rewrite str_app_assoc.
Qed.

Lemma str_prefix_app p s : str_prefix p (p +:+ s).
Proof. by exists s. Qed.

Lemma str_prefix_take n s : str_prefix (str_take n s) s.
Proof. exists (str_drop n s). by rewrite str_take_drop. Qed.

Lemma str_prefix_app_l a p s : str_prefix p s → str_prefix (a +:+ p) (a +:+ s).
Proof. intros [t ->]. exists t. by rewrite str_app_assoc. Qed.

(** ** Destinations *)

(** [io.Writer]: [Write] returns the number of bytes written, and an error when it is
    less than all of them. *)
Class Destination (D : Type) := {
  dst_write : D → string → nat * option string * D;
  dst_content : D → string;
  dst_bound : ∀ d s, ((dst_write d s).1.1 ≤ String.length s)%nat;
  dst_short : ∀ d s, ((dst_write d s).1.1 < String.length s)%nat → (dst_write d s).1.2 ≠ None;
  dst_append : ∀ d s, dst_content (dst_write d s).2 = dst_content d +:+ str_take (dst_write d s).1.1 s;
}.

(** A disk with room for so many more bytes. *)
Record Disk := mkDisk { disk_room : nat; disk_data : string }.

Definition disk_write (d : Disk) (s : string) : nat * option string * Disk :=
  if decide (String.length s ≤ disk_room d)%nat then
    (String.length s, None, mkDisk (disk_room d - String.length s) (disk_data d +:+ s))
  else (disk_room d, Some "no space left on device", mkDisk 0 (disk_data d +:+ str_take (disk_room d) s)).

#[export] Program Instance Disk_destination : Destination Disk := {|
  dst_write := disk_write; dst_content := disk_data |}.
Next Obligation. intros d s. unfold disk_write. case_decide; simpl; lia. Qed.
Next Obligation. intros d s. unfold disk_write. case_decide; simpl; [lia|done]. Qed.
Next Obligation. intros d s. unfold disk_write. case_decide; simpl; [by rewrite str_take_all|done]. Qed.

(** ** The writer *)

Record Writer (D : Type) := mkWriter { b_err : option string; b_buf : string; b_dst : D }.
Arguments mkWriter {D} _ _ _.
Arguments b_err {D} _.
Arguments b_buf {D} _.
Arguments b_dst {D} _.

(** [defaultBufSize] *)
Definition buf_size : nat := 4096.

(** [bufio.NewWriter] *)
Definition NewWriter {D} (d : D) : Writer D := mkWriter None "" d.

Section writer.
Context {D : Type} `{Destination D}.
Implicit Types (b : Writer D) (s : string).

(** [Flush] *)
Definition Flush (b : Writer D) : option string * Writer D :=
  match b_err b with
  | Some e => (Some e, b)
  | None =>
      if decide (b_buf b = "") then (None, b) else
      let '(n, err, d) := dst_write (b_dst b) (b_buf b) in
      let err := if decide (n < String.length (b_buf b))%nat then
                   match err with None => Some "short write" | Some e => Some e end
                 else err in
      match err with
      | Some e => (Some e, mkWriter (Some e) (str_drop n (b_buf b)) d)
      | None => (None, mkWriter None "" d)
      end
  end.

(** [WriteString]: while the string does not fit, an empty buffer is by-passed and a
    partly filled one is filled and flushed. *)
Fixpoint write_loop (fuel : nat) (s : string) (b : Writer D) : string * Writer D :=
  match fuel with
  | O => (s, b)
  | S fuel' =>
      let avail := (buf_size - String.length (b_buf b))%nat in
      if decide ((avail < String.length s)%nat ∧ b_err b = None) then
        if decide (b_buf b = "") then
          let '(n, err, d) := dst_write (b_dst b) s in
          write_loop fuel' (str_drop n s) (mkWriter err "" d)
        else
          let b' := (Flush (mkWriter None (b_buf b +:+ str_take avail s) (b_dst b))).2 in
          write_loop fuel' (str_drop avail s) b'
      else (s, b)
  end.

(** Three turns are enough: fill the buffer, by-pass it, leave. *)
Definition WriteString (s : string) (b : Writer D) : option string * Writer D :=
  let '(s', b') := write_loop 3 s b in
  match b_err b' with
  | Some e => (Some e, b')
  | None => (None, mkWriter None (b_buf b' +:+ s') (b_dst b'))
  end.

(** [Write]: the loop of [WriteString], on a slice of bytes. *)
Definition Write (s : string) (b : Writer D) : option string * Writer D := WriteString s b.

(** [WriteByte]: a full buffer is flushed first. *)
Definition WriteByte (c : Ascii.ascii) (b : Writer D) : option string * Writer D :=
  match b_err b with
  | Some e => (Some e, b)
  | None =>
      let put (b : Writer D) := (None, mkWriter None (b_buf b +:+ String c "") (b_dst b)) in
      if decide (buf_size ≤ String.length (b_buf b))%nat then
        let '(err, b') := Flush b in
        match err with Some e => (Some e, b') | None => put b' end
      else put b
  end.

(** What has been written, whether it has reached the destination or not. *)
Definition written (b : Writer D) : string := dst_content (b_dst b) +:+ b_buf b.

(** ** What the writer does *)

(** An error that was kept is returned and nothing changes. *)
Lemma Flush_failed b e : b_err b = Some e → Flush b = (Some e, b).
Proof. intros E. unfold Flush. by rewrite E. Qed.

Lemma WriteString_failed b s e : b_err b = Some e → WriteString s b = (Some e, b).
Proof.
  intros E. unfold WriteString. cbn [write_loop]. rewrite decide_False by (rewrite E; naive_solver). by rewrite E.
Qed.

(** A flush either empties the buffer into the destination, or fails having written an
    initial segment of what was pending. *)
Definition flush_post (b : Writer D) (r : option string) (b' : Writer D) : Prop :=
  b_err b' = r ∧
  match r with
  | None => dst_content (b_dst b') = written b ∧ b_buf b' = ""
  | Some _ => str_prefix (dst_content (b_dst b)) (dst_content (b_dst b')) ∧
              str_prefix (dst_content (b_dst b')) (written b)
  end.

Lemma Flush_spec b : b_err b = None → flush_post b (Flush b).1 (Flush b).2.
Proof.
  intros E. unfold Flush, flush_post, written. rewrite E. case_decide as Hb.
  { simpl. by rewrite Hb, str_app_nil. }
  pose proof (dst_bound (b_dst b) (b_buf b)) as H1. pose proof (dst_short (b_dst b) (b_buf b)) as H2.
  pose proof (dst_append (b_dst b) (b_buf b)) as H3. destruct (dst_write (b_dst b) (b_buf b)) as [[n err] d]. simpl in *.
  assert (str_prefix (dst_content (b_dst b)) (dst_content d) ∧
          str_prefix (dst_content d) (dst_content (b_dst b) +:+ b_buf b)) as Hp.
  { rewrite H3. split; [apply str_prefix_app|apply str_prefix_app_l, str_prefix_take]. }
  case_decide; [specialize (H2 ltac:(done)); by destruct err|].
  destruct err; simpl; [done|]. split; [done|]. by rewrite H3, str_take_all by lia.
Qed.

(** [WriteString] either takes the whole string in, or fails having passed on an
    initial segment of everything written so far. *)
Definition write_post (b : Writer D) (s : string) (r : option string) (b' : Writer D) : Prop :=
  b_err b' = r ∧
  match r with
  | None => written b' = written b +:+ s ∧ str_prefix (dst_content (b_dst b)) (dst_content (b_dst b'))
  | Some _ => str_prefix (dst_content (b_dst b)) (dst_content (b_dst b')) ∧
              str_prefix (dst_content (b_dst b')) (written b +:+ s)
  end.

(** One turn of the loop that by-passes the empty buffer. *)
Lemma bypass_spec b s n err d :
  b_buf b = "" → dst_write (b_dst b) s = (n, err, d) →
  (err = None → str_drop n s = "" ∧ dst_content d = written b +:+ s) ∧
  str_prefix (dst_content (b_dst b)) (dst_content d) ∧ str_prefix (dst_content d) (written b +:+ s).
Proof.
  intros Hb E. pose proof (dst_bound (b_dst b) s) as H1. pose proof (dst_short (b_dst b) s) as H2.
  pose proof (dst_append (b_dst b) s) as H3. rewrite E in H1, H2, H3. simpl in *. unfold written.
  rewrite Hb, str_app_nil, H3. split; [|split; [apply str_prefix_app|apply str_prefix_app_l, str_prefix_take]].
  intros ->. assert (String.length s ≤ n)%nat by (destruct (decide (n < String.length s)%nat); [by destruct H2|lia]).
  by rewrite str_drop_all, str_take_all.
Qed.

Lemma WriteString_empty b s :
  b_err b = None → b_buf b = "" → ∀ fuel s' b', write_loop (S (S fuel)) s b = (s', b') →
  match b_err b' with
  | None => written b' +:+ s' = written b +:+ s ∧ str_prefix (dst_content (b_dst b)) (dst_content (b_dst b'))
  | Some _ => str_prefix (dst_content (b_dst b)) (dst_content (b_dst b')) ∧
              str_prefix (dst_content (b_dst b')) (written b +:+ s)
  end.
Proof.
  intros E Hb fuel s' b' Hl. cbn [write_loop] in Hl. rewrite Hb in Hl. case_decide.
  2: { simplify_eq. rewrite E. by split. }
  rewrite decide_True in Hl by done. destruct (dst_write (b_dst b) s) as [[n err] d] eqn:Ew.
  destruct (bypass_spec b s n err d Hb Ew) as (Hok & Hp1 & Hp2). rewrite decide_False in Hl.
  2: { intros [Hlt Herr]. destruct (Hok Herr) as [Hd _]. rewrite Hd in Hlt. cbn [String.length] in Hlt. lia. }
  injection Hl as <- <-. cbn [b_err b_dst]. destruct err; [done|]. destruct (Hok eq_refl) as [-> Hc].
  unfold written at 1. cbn [b_buf b_dst]. by rewrite !str_app_nil.
Qed.

Lemma WriteString_spec b s : b_err b = None → write_post b s (WriteString s b).1 (WriteString s b).2.
Proof.
  intros E. unfold WriteString. destruct (write_loop 3 s b) as [s' b'] eqn:Hl.
  assert (match b_err b' with
    | None => written b' +:+ s' = written b +:+ s ∧ str_prefix (dst_content (b_dst b)) (dst_content (b_dst b'))
    | Some _ => str_prefix (dst_content (b_dst b)) (dst_content (b_dst b')) ∧
                str_prefix (dst_content (b_dst b')) (written b +:+ s) end) as HQ.
  { destruct (decide (b_buf b = "")) as [Hb|Hb]; [by eapply (WriteString_empty b s E Hb 1)|].
    cbn [write_loop] in Hl. case_decide; [|simplify_eq; by rewrite E]. rewrite decide_False in Hl by done.
    set (avail := (buf_size - String.length (b_buf b))%nat) in *.
    set (b1 := mkWriter None (b_buf b +:+ str_take avail s) (b_dst b)) in *.
    assert (written b1 +:+ str_drop avail s = written b +:+ s) as Hw.
    { unfold written, b1; simpl. by rewrite <-!str_app_assoc, str_take_drop. }
    assert (str_prefix (written b1) (written b +:+ s)) as Hpre by (rewrite <-Hw; apply str_prefix_app).
    pose proof (Flush_spec b1 eq_refl) as Hf. destruct (Flush b1) as [r b2]. simpl in Hf, Hl. destruct Hf as [Er Hf].
    destruct r as [e|].
    - destruct Hf as [Hp1 Hp2]. rewrite decide_False in Hl by (rewrite Er; naive_solver). simplify_eq. rewrite Er.
      split; [done|]. by etrans.
    - destruct Hf as [Hc Hb2].
      pose proof (WriteString_empty b2 (str_drop avail s) Er Hb2 0 s' b' Hl) as Hq.
      assert (written b2 = written b1) as Hb12 by (unfold written at 1; by rewrite Hb2, str_app_nil).
      rewrite Hb12, Hw in Hq. rewrite Hc in Hq.
      assert (str_prefix (dst_content (b_dst b)) (written b1)) as Hp0.
      { unfold written, b1; simpl. apply str_prefix_app. }
      destruct (b_err b'), Hq as [Hq1 Hq2]; [split; [by etrans|done]|split; [done|by etrans]]. }
  unfold write_post. destruct (b_err b') as [e|] eqn:Eb; simpl; [by rewrite Eb|].
  destruct HQ as [Hw Hp]. split; [done|]. split; [|done]. rewrite <-Hw. unfold written; simpl. by rewrite str_app_assoc.
Qed.

Lemma WriteByte_spec b c : b_err b = None → write_post b (String c "") (WriteByte c b).1 (WriteByte c b).2.
Proof.
  intros E. unfold WriteByte. rewrite E. case_decide.
  - pose proof (Flush_spec b E) as Hf. destruct (Flush b) as [[e|] b'].
    + destruct Hf as (E' & H1 & H2). split; [done|]. split; [done|]. etrans; [done|apply str_prefix_app].
    + destruct Hf as (E' & Hc & Hb). split; [done|]. simpl in *. unfold written at 1; simpl. rewrite Hb, Hc. split; [done|].
      apply str_prefix_app.
  - split; [done|]. unfold written; simpl. by rewrite str_app_assoc.
Qed.

(** *** A write that is flushed *)

(** Nothing is pending and nothing has failed. *)
Definition clean (b : Writer D) : Prop := b_err b = None ∧ b_buf b = "".

(** [s] has reached the destination, or writing it failed after an initial segment. *)
Definition sent (b : Writer D) (s : string) (res : option string * Writer D) : Prop :=
  b_err res.2 = res.1 ∧
  match res.1 with
  | None => clean res.2 ∧ dst_content (b_dst res.2) = dst_content (b_dst b) +:+ s
  | Some _ => str_prefix (dst_content (b_dst b)) (dst_content (b_dst res.2)) ∧
              str_prefix (dst_content (b_dst res.2)) (dst_content (b_dst b) +:+ s)
  end.

Lemma clean_written b : clean b → written b = dst_content (b_dst b).
Proof. intros [_ Hb]. unfold written. by rewrite Hb, str_app_nil. Qed.

Lemma sent_failed b s t e b' :
  clean b → write_post b s (Some e) b' → str_prefix s t → sent b t (Some e, b').
Proof.
  intros Hc (E & H1 & H2) Ht. split; [done|]. split; [done|]. etrans; [apply H2|]. rewrite clean_written by done.
  by apply str_prefix_app_l.
Qed.

(** A successful write, flushed. *)
Lemma flush_sent b s b' : clean b → write_post b s None b' → sent b s (Flush b').
Proof.
  intros Hc (E & Hw & Hp). rewrite (clean_written b) in Hw by done. pose proof (Flush_spec b' E) as Hf.
  destruct (Flush b') as [[e|] b2]; destruct Hf as [E2 Hf]; split; try done; simpl in *; rewrite Hw in Hf.
  - destruct Hf. split; [by etrans|done].
  - by destruct Hf.
Qed.

(** Writes one after the other. *)
Lemma write_post_seq b s t b1 r b2 :
  write_post b s None b1 → write_post b1 t r b2 → write_post b (s +:+ t) r b2.
Proof.
  intros (E1 & Hw1 & Hp1) (E2 & H2). split; [done|]. rewrite Hw1, <-str_app_assoc in H2.
  destruct r, H2 as [H2 H3]; split; [by etrans|done|done|by etrans].
Qed.
End writer.
