(* ===== verification/JsonText.v ===== *)
(** * The text of JSON (encoding/json)

    How [json.Marshal] writes a value and how [json.Unmarshal] reads one: escapes, UTF-8,
    surrogates, numbers, white space, the limit on nesting.  A string is its bytes.
    The reader is the grammar of the library's scanner; what it rejects is [None]. *)

From S2P Require Import Prelude GoJson Bufio.

(** ** Bytes *)

Abbreviation ascii := Ascii.ascii.

Definition code (a : ascii) : Z := Z.of_nat (Ascii.nat_of_ascii a).
Definition char (n : Z) : ascii := Ascii.ascii_of_nat (Z.to_nat n).

Definition between (lo x hi : Z) : bool := bool_decide (lo ≤ x ∧ x ≤ hi).

(** A continuation byte of UTF-8. *)
Definition cont (a : ascii) : bool := between 128 (code a) 191.

(** The range of the second byte, by the first. *)
Definition second_lo (x : Z) : Z := if decide (x = 224) then 160 else if decide (x = 240) then 144 else 128.
Definition second_hi (x : Z) : Z := if decide (x = 237) then 159 else if decide (x = 244) then 143 else 191.

(** The length of the rune at the start of [s] as [utf8.DecodeRuneInString] reads it, 0 where
    the bytes are not UTF-8. *)
Definition rune_len (s : string) : nat :=
  match s with
  | "" => 0%nat
  | String a s1 =>
      let x := code a in
      if decide (x < 128) then 1%nat
      else if decide (x < 194) then 0%nat
      else match s1 with
      | "" => 0%nat
      | String b s2 =>
          if negb (between (second_lo x) (code b) (second_hi x)) then 0%nat
          else if decide (x < 224) then 2%nat
          else match s2 with
          | "" => 0%nat
          | String c s3 =>
              if negb (cont c) then 0%nat
              else if decide (x < 240) then 3%nat
              else match s3 with
              | "" => 0%nat
              | String d _ => if cont d && bool_decide (x < 245) then 4%nat else 0%nat
              end
          end
      end
  end.

(** [utf8.ValidString], inside a rune with [skip] bytes to come *)
Fixpoint utf8_from (skip : nat) (s : string) : bool :=
  match s with
  | "" => bool_decide (skip = 0%nat)
  | String a s' =>
      match skip with
      | S k => utf8_from k s'
      | O => match rune_len s with O => false | S k => utf8_from k s' end
      end
  end.
Definition utf8 (s : string) : bool := utf8_from 0 s.

(** ** Writing *)

Definition quote_mark : ascii := char 34.
Definition backslash : ascii := char 92.

Definition hex (n : Z) : ascii := char (if decide (n < 10) then 48 + n else 87 + n).

(** [\u00XX] *)
Definition esc_u (x : Z) : string :=
  String backslash (String (char 117) (String (char 48) (String (char 48) (String (hex (x `div` 16)) (String (hex (x `mod` 16)) ""))))).

(** An ASCII character: [appendString] with the HTML-safe set. *)
Definition esc (a : ascii) : string :=
  let x := code a in
  let bs c := String backslash (String (char c) "") in
  if decide (x = 34 ∨ x = 92) then String backslash (String a "")
  else if decide (x = 8) then bs 98
  else if decide (x = 12) then bs 102
  else if decide (x = 10) then bs 110
  else if decide (x = 13) then bs 114
  else if decide (x = 9) then bs 116
  else if decide (x < 32 ∨ x = 60 ∨ x = 62 ∨ x = 38) then esc_u x
  else String a "".

(** The line separators U+2028 and U+2029, by their last byte. *)
Definition line_sep (s : string) : option ascii :=
  match s with
  | String a (String b (String c _)) =>
      if bool_decide (code a = 226 ∧ code b = 128 ∧ (code c = 168 ∨ code c = 169)) then Some c else None
  | _ => None
  end.

Fixpoint enc_chars (skip : nat) (s : string) : string :=
  match s with
  | "" => ""
  | String a s' =>
      match skip with
      | S k => String a (enc_chars k s')
      | O =>
          match line_sep s, s' with
          | Some c, String _ (String _ s3) => "\u202" +:+ String (hex (code c - 160)) (enc_chars 0 s3)
          | _, _ =>
              match rune_len s with
              | O => "\ufffd" +:+ enc_chars 0 s'
              | 1%nat => esc a +:+ enc_chars 0 s'
              | S k => String a (enc_chars k s')
              end
          end
      end
  end.

Definition enc_string (s : string) : string := String quote_mark (enc_chars 0 s +:+ String quote_mark "").

Fixpoint Join (l : list string) (sep : string) : string :=
  match l with
  | [] => ""
  | [s] => s
  | s :: l' => s +:+ sep +:+ Join l' sep
  end.

(** The compact text of a value. *)
Fixpoint print (v : json) : string :=
  match v with
  | JNull => "null"
  | JBool b => if b then "true" else "false"
  | JNum lit => lit
  | JStr s => enc_string s
  | JArr l => "[" +:+ Join (map print l) "," +:+ "]"
  | JObj l => "{" +:+ Join (map (λ '(k, v), enc_string k +:+ ":" +:+ print v) l) "," +:+ "}"
  end.

Example print_example :
  print (JObj [("a", JNum "1"); ("<b>", JArr [JNull; JBool true; JStr "x y"])]) =
  "{" +:+ enc_string "a" +:+ ":1," +:+ enc_string "<b>" +:+ ":[null,true," +:+ enc_string "x y" +:+ "]}".
Proof. vm_compute. reflexivity. Qed.

(** ** Reading *)

Definition unhex (a : ascii) : option Z :=
  let x := code a in
  if between 48 x 57 then Some (x - 48)
  else if between 97 x 102 then Some (x - 87)
  else if between 65 x 70 then Some (x - 55)
  else None.

(** [getu4], after the [\u] *)
Definition unhex4 (a b c d : ascii) : option Z :=
  x ← unhex a; y ← unhex b; z ← unhex c; w ← unhex d; Some (((x * 16 + y) * 16 + z) * 16 + w).

(** The escapes of one character. *)
Definition unesc (a : ascii) : option ascii :=
  let x := code a in
  if decide (x = 34 ∨ x = 92 ∨ x = 47) then Some a
  else if decide (x = 98) then Some (char 8)
  else if decide (x = 102) then Some (char 12)
  else if decide (x = 110) then Some (char 10)
  else if decide (x = 114) then Some (char 13)
  else if decide (x = 116) then Some (char 9)
  else None.

(** [utf8.EncodeRune] *)
Definition enc_rune (u : Z) : string :=
  let b n := char n in
  if decide (u < 128) then String (b u) ""
  else if decide (u < 2048) then String (b (192 + u `div` 64)) (String (b (128 + u `mod` 64)) "")
  else if decide (u < 65536) then
    String (b (224 + u `div` 4096)) (String (b (128 + (u `div` 64) `mod` 64)) (String (b (128 + u `mod` 64)) ""))
  else
    String (b (240 + u `div` 262144)) (String (b (128 + (u `div` 4096) `mod` 64))
      (String (b (128 + (u `div` 64) `mod` 64)) (String (b (128 + u `mod` 64)) ""))).

Definition replacement : Z := 65533.
Definition high_surrogate (u : Z) : bool := between 55296 u 56319.
Definition low_surrogate (u : Z) : bool := between 56320 u 57343.
Definition surrogate_pair (u v : Z) : Z := 65536 + (u - 55296) * 1024 + (v - 56320).

(** The text of a string after its opening mark: the string, and what follows the closing one. *)
Definition pushed (t : string) (r : option (string * string)) : option (string * string) :=
  match r with Some (s, rest) => Some (t +:+ s, rest) | None => None end.

Fixpoint dec_chars (skip : nat) (s : string) : option (string * string) :=
  match s with
  | "" => None
  | String a s1 =>
      match skip with
      | S k => pushed (String a "") (dec_chars k s1)
      | O =>
          if decide (a = quote_mark) then Some ("", s1)
          else if decide (a = backslash) then
            match s1 with
            | "" => None
            | String e s2 =>
                match unesc e with
                | Some c => pushed (String c "") (dec_chars 0 s2)
                | None =>
                    if decide (code e ≠ 117) then None else
                    match s2 with
                    | String h1 (String h2 (String h3 (String h4 s3))) =>
                        match unhex4 h1 h2 h3 h4 with
                        | None => None
                        | Some u =>
                            if high_surrogate u then
                              match s3 with
                              | String b (String u' (String g1 (String g2 (String g3 (String g4 s4))))) =>
                                  if bool_decide (b = backslash ∧ code u' = 117) then
                                    match unhex4 g1 g2 g3 g4 with
                                    | Some v =>
                                        if low_surrogate v then pushed (enc_rune (surrogate_pair u v)) (dec_chars 0 s4)
                                        else pushed (enc_rune replacement) (dec_chars 0 s3)
                                    | None => pushed (enc_rune replacement) (dec_chars 0 s3)
                                    end
                                  else pushed (enc_rune replacement) (dec_chars 0 s3)
                              | _ => pushed (enc_rune replacement) (dec_chars 0 s3)
                              end
                            else if low_surrogate u then pushed (enc_rune replacement) (dec_chars 0 s3)
                            else pushed (enc_rune u) (dec_chars 0 s3)
                        end
                    | _ => None
                    end
                end
            end
          else if decide (code a < 32) then None
          else
            match rune_len s with
            | O => pushed (enc_rune replacement) (dec_chars 0 s1)
            | S k => pushed (String a "") (dec_chars k s1)
            end
      end
  end.

Definition is_space (a : ascii) : bool := bool_decide (code a = 32 ∨ code a = 9 ∨ code a = 10 ∨ code a = 13).
Fixpoint skip_ws (s : string) : string :=
  match s with
  | String a s' => if is_space a then skip_ws s' else s
  | "" => ""
  end.

Definition is_digit (a : ascii) : bool := between 48 (code a) 57.
Fixpoint take_digits (s : string) : string * string :=
  match s with
  | String a s' => if is_digit a then let '(d, r) := take_digits s' in (String a d, r) else ("", s)
  | "" => ("", "")
  end.

(** One digit or more. *)
Definition digits1 (s : string) : option (string * string) :=
  match take_digits s with ("", _) => None | r => Some r end.

(** [0 | [1-9][0-9]*] *)
Definition int_part (s : string) : option (string * string) :=
  match s with
  | String a s' => if decide (code a = 48) then Some (String a "", s') else digits1 s
  | "" => None
  end.

Definition frac_part (s : string) : option (string * string) :=
  match s with
  | String a s' => if decide (code a = 46) then pushed (String a "") (digits1 s') else Some ("", s)
  | "" => Some ("", "")
  end.

Definition exp_part (s : string) : option (string * string) :=
  match s with
  | String a s' =>
      if decide (code a = 101 ∨ code a = 69) then
        match s' with
        | String b s2 =>
            if decide (code b = 43 ∨ code b = 45) then pushed (String a (String b "")) (digits1 s2)
            else pushed (String a "") (digits1 s')
        | "" => None
        end
      else Some ("", s)
  | "" => Some ("", "")
  end.

(** A number, as its literal. *)
Definition read_number (s : string) : option (string * string) :=
  let '(sign, s) := match s with
                    | String a s' => if decide (code a = 45) then (String a "", s') else ("", s)
                    | "" => ("", "")
                    end in
  '(i, s) ← int_part s;
  '(f, s) ← frac_part s;
  '(e, s) ← exp_part s;
  Some (sign +:+ i +:+ f +:+ e, s).

(** The rest after a given text. *)
Fixpoint after (t s : string) : option string :=
  match t, s with
  | "", _ => Some s
  | String a t', String b s' => if decide (a = b) then after t' s' else None
  | _, "" => None
  end.

(** The scanner refuses more than 10000 open arrays and objects. *)
Definition max_depth : Z := 10000.

(** A value, the elements of an array after the first [[], the members of an object after
    the first [{]; every call takes a unit of fuel, a text of [n] bytes at most [2 * n + 1]. *)
Fixpoint read_value (fuel : nat) (depth : Z) (s : string) {struct fuel} : option (json * string) :=
  match fuel with
  | O => None
  | S fuel' =>
      match skip_ws s with
      | "" => None
      | String a s1 =>
          let x := code a in
          if decide (x = 123) then
            if decide (depth ≤ 0) then None else
            match skip_ws s1 with
            | String b s2 => if decide (code b = 125) then Some (JObj [], s2)
                             else '(l, r) ← read_members fuel' (depth - 1) s1; Some (JObj l, r)
            | "" => None
            end
          else if decide (x = 91) then
            if decide (depth ≤ 0) then None else
            match skip_ws s1 with
            | String b s2 => if decide (code b = 93) then Some (JArr [], s2)
                             else '(l, r) ← read_elems fuel' (depth - 1) s1; Some (JArr l, r)
            | "" => None
            end
          else if decide (x = 34) then '(t, r) ← dec_chars 0 s1; Some (JStr t, r)
          else if decide (x = 110) then r ← after "ull" s1; Some (JNull, r)
          else if decide (x = 116) then r ← after "rue" s1; Some (JBool true, r)
          else if decide (x = 102) then r ← after "alse" s1; Some (JBool false, r)
          else '(lit, r) ← read_number (String a s1); Some (JNum lit, r)
      end
  end
with read_elems (fuel : nat) (depth : Z) (s : string) {struct fuel} : option (list json * string) :=
  match fuel with
  | O => None
  | S fuel' =>
      '(v, r) ← read_value fuel' depth s;
      match skip_ws r with
      | String a r' =>
          if decide (code a = 44) then '(l, r) ← read_elems fuel' depth r'; Some (v :: l, r)
          else if decide (code a = 93) then Some ([v], r')
          else None
      | "" => None
      end
  end
with read_members (fuel : nat) (depth : Z) (s : string) {struct fuel} : option (list (string * json) * string) :=
  match fuel with
  | O => None
  | S fuel' =>
      match skip_ws s with
      | String q s1 =>
          if decide (q ≠ quote_mark) then None else
          '(k, r) ← dec_chars 0 s1;
          match skip_ws r with
          | String c r1 =>
              if decide (code c ≠ 58) then None else
              '(v, r) ← read_value fuel' depth r1;
              match skip_ws r with
              | String a r' =>
                  if decide (code a = 44) then '(l, r) ← read_members fuel' depth r'; Some ((k, v) :: l, r)
                  else if decide (code a = 125) then Some ([(k, v)], r')
                  else None
              | "" => None
              end
          | "" => None
          end
      | "" => None
      end
  end.

(** The value of a whole text. *)
Definition read (s : string) : option json :=
  '(v, r) ← read_value (2 * String.length s + 1) max_depth s;
  match skip_ws r with "" => Some v | _ => None end.

Example read_example :
  read (" { " +:+ enc_string "a" +:+ " : [1, -2.5e3 ,true,null] , " +:+ enc_string "b" +:+ ":{}} ") =
  Some (JObj [("a", JArr [JNum "1"; JNum "-2.5e3"; JBool true; JNull]); ("b", JObj [])]).
Proof. vm_compute. reflexivity. Qed.

(** ** Strings survive *)

Lemma char_code a : char (code a) = a.
Proof. unfold char, code. rewrite Nat2Z.id. apply Ascii.ascii_nat_embedding. Qed.

Lemma code_range a : 0 ≤ code a < 256.
Proof. unfold code. pose proof (Ascii.nat_ascii_bounded a). lia. Qed.

(** What is true of the 256 characters is evaluated. *)
Lemma all_ascii (P : ascii → bool) : forallb (λ n, P (char (Z.of_nat n))) (seq 0 256) = true → ∀ a, P a = true.
Proof.
  intros Hall a. rewrite forallb_forall in Hall. rewrite <-(char_code a). pose proof (code_range a).
  rewrite <-(Z2Nat.id (code a)) by lia. apply Hall, list_elem_of_In, elem_of_seq. lia.
Qed.

Definition dec_rest (t : string) (s : string) : option (string * string) := pushed t (dec_chars 0 s).

(** The three ways a character is written. *)
Lemma dec_backslash e c t : unesc e = Some c → dec_chars 0 (String backslash (String e t)) = dec_rest (String c "") t.
Proof. intros He. cbn [dec_chars]. rewrite decide_False, decide_True by done. by rewrite He. Qed.

Lemma dec_u h1 h2 h3 h4 u t :
  unhex4 h1 h2 h3 h4 = Some u → high_surrogate u = false → low_surrogate u = false →
  dec_chars 0 (String backslash (String (char 117) (String h1 (String h2 (String h3 (String h4 t)))))) = dec_rest (enc_rune u) t.
Proof.
  intros Hu Hh Hl. cbn [dec_chars]. rewrite decide_False, decide_True by done. change (unesc (char 117)) with (@None ascii). cbv iota.
  rewrite decide_False by (intros H; by apply H). by rewrite Hu, Hh, Hl.
Qed.

Lemma dec_plain a t : code a ≠ 34 → code a ≠ 92 → 32 ≤ code a < 128 → dec_chars 0 (String a t) = dec_rest (String a "") t.
Proof.
  intros Hq Hb Hr. cbn [dec_chars]. rewrite decide_False by (intros ->; by apply Hq). rewrite decide_False by (intros ->; by apply Hb).
  rewrite decide_False by lia. cbn [rune_len]. by rewrite decide_True by lia.
Qed.

Lemma unhex_hex n : 0 ≤ n < 16 → unhex (hex n) = Some n.
Proof.
  intros Hn. assert (forallb (λ k, bool_decide (unhex (hex (Z.of_nat k)) = Some (Z.of_nat k))) (seq 0 16) = true) as Hall by (vm_compute; reflexivity).
  rewrite forallb_forall in Hall. specialize (Hall (Z.to_nat n)). rewrite Z2Nat.id in Hall by lia.
  apply (bool_decide_eq_true_1 _), Hall, list_elem_of_In, elem_of_seq. lia.
Qed.

Lemma dec_esc a t : code a < 128 → dec_chars 0 (esc a +:+ t) = dec_rest (String a "") t.
Proof.
  intros Ha. pose proof (code_range a). unfold esc. repeat case_decide; rewrite ?str_app_cons; try (apply dec_backslash).
  - unfold unesc. by rewrite decide_True by lia.
  - rewrite <-(char_code a). by replace (code a) with 8.
  - rewrite <-(char_code a). by replace (code a) with 12.
  - rewrite <-(char_code a). by replace (code a) with 10.
  - rewrite <-(char_code a). by replace (code a) with 13.
  - rewrite <-(char_code a). by replace (code a) with 9.
  - unfold esc_u. rewrite !str_app_cons. pose proof (Z_div_mod_eq_full (code a) 16). pose proof (Z.mod_pos_bound (code a) 16).
    erewrite (dec_u _ _ _ _ (code a)).
    + unfold enc_rune. rewrite decide_True by done. by rewrite char_code.
    + unfold unhex4. rewrite !unhex_hex by (lia || (split; [apply Z.div_pos; lia|apply Z.div_lt_upper_bound; lia])).
      change (unhex (char 48)) with (Some 0). simpl. f_equal. lia.
    + apply bool_decide_false. lia.
    + apply bool_decide_false. lia.
  - apply dec_plain; lia.
Qed.

Lemma dec_line_sep c t :
  code c = 168 ∨ code c = 169 →
  dec_chars 0 ("\u202" +:+ String (hex (code c - 160)) t) = dec_rest (String (char 226) (String (char 128) (String c ""))) t.
Proof.
  intros Hc. change ("\u202" +:+ String (hex (code c - 160)) t) with
    (String backslash (String (char 117) (String (char 50) (String (char 48) (String (char 50) (String (hex (code c - 160)) t)))))).
  destruct Hc as [Hc|Hc]; rewrite Hc, <-(char_code c), Hc; [rewrite (dec_u _ _ _ _ 8232)|rewrite (dec_u _ _ _ _ 8233)]; try reflexivity;
    f_equal; vm_compute; reflexivity.
Qed.

(** Inside a rune the bytes are copied, so that it is recognised again. *)
Lemma rune_len_copied a s k t : rune_len (String a s) = S k → rune_len (String a (enc_chars k s +:+ t)) = S k.
Proof.
  unfold rune_len. destruct (decide (code a < 128)); [intros [= <-]; done|]. destruct (decide (code a < 194)); [done|].
  destruct s as [|b s]; [done|]. destruct (negb (between _ (code b) _)) eqn:Eb; [done|].
  destruct (decide (code a < 224)); [intros [= <-]; cbn [enc_chars]; by rewrite str_app_cons, Eb|].
  destruct s as [|c s]; [done|]. destruct (negb (cont c)) eqn:Ec; [done|].
  destruct (decide (code a < 240)); [intros [= <-]; cbn [enc_chars]; by rewrite !str_app_cons, Eb, Ec|].
  destruct s as [|d s]; [done|]. destruct (cont d && _) eqn:Ed; [|done]. intros [= <-]. cbn [enc_chars]. by rewrite !str_app_cons, Eb, Ec, Ed.
Qed.

Lemma rune_len_ascii a s : rune_len (String a s) = 1%nat → code a < 128.
Proof.
  unfold rune_len. destruct (decide (code a < 128)); [done|]. intros E. exfalso. revert E.
  repeat (case_match; try done).
Qed.

Lemma rune_len_wide a s k : rune_len (String a s) = S (S k) → 194 ≤ code a.
Proof.
  unfold rune_len. destruct (decide (code a < 128)); [done|]. destruct (decide (code a < 194)); [done|]. lia.
Qed.

Lemma line_sep_Some s c :
  line_sep s = Some c → ∃ t, s = String (char 226) (String (char 128) (String c t)) ∧ (code c = 168 ∨ code c = 169) ∧ rune_len s = 3%nat.
Proof.
  destruct s as [|a [|b [|c' t]]]; try done. cbn [line_sep]. case_bool_decide as H; [|done]. intros [= <-].
  destruct H as (Ha & Hb & Hc). exists t. rewrite <-(char_code a), <-(char_code b), Ha, Hb. split; [done|]. split; [done|].
  destruct Hc as [Hc|Hc]; rewrite <-(char_code c'), Hc; vm_compute; reflexivity.
Qed.

Lemma pushed_cons a t r : pushed (String a "") (Some (t, r)) = Some (String a t, r).
Proof. done. Qed.

(** What is written of a UTF-8 string is read back, whatever follows its closing mark. *)
Lemma dec_enc_chars n s skip rest :
  (String.length s ≤ n)%nat → utf8_from skip s = true →
  dec_chars skip (enc_chars skip s +:+ String quote_mark rest) = Some (s, rest).
Proof.
  revert s skip. induction n as [|n IH]; intros s skip Hl Hu.
  { destruct s; [|simpl in Hl; lia]. simpl in Hu. apply bool_decide_eq_true in Hu as ->. done. }
  destruct s as [|a s]; [simpl in Hu; apply bool_decide_eq_true in Hu as ->; done|]. cbn [String.length] in Hl.
  destruct skip as [|k].
  2: { cbn [enc_chars utf8_from] in Hu |- *. rewrite str_app_cons. cbn [dec_chars]. by rewrite IH by (done || lia). }
  cbn [utf8_from] in Hu. destruct (line_sep (String a s)) as [c|] eqn:El.
  - apply line_sep_Some in El as (t & Es & Hc & Hr). rewrite Hr in Hu. injection Es as -> ->.
    cbn [utf8_from] in Hu. cbn [String.length] in Hl.
    assert (enc_chars 0 (String (char 226) (String (char 128) (String c t))) = "\u202" +:+ String (hex (code c - 160)) (enc_chars 0 t)) as ->.
    { cbn [enc_chars]. destruct Hc as [Hc|Hc]; rewrite <-(char_code c), Hc; reflexivity. }
    rewrite <-str_app_assoc, (str_app_cons (hex _)), dec_line_sep by done. unfold dec_rest. by rewrite IH by (done || lia).
  - cbn [enc_chars]. rewrite El. destruct (rune_len (String a s)) as [|[|k]] eqn:Er; [done| |].
    + rewrite <-str_app_assoc, dec_esc by (by eapply rune_len_ascii). unfold dec_rest. by rewrite IH by (done || lia).
    + pose proof (rune_len_wide _ _ _ Er) as Hw. rewrite str_app_cons. cbn [dec_chars].
      rewrite decide_False by (intros ->; by apply Hw). rewrite decide_False by (intros ->; by apply Hw).
      rewrite decide_False by lia. rewrite (rune_len_copied _ _ _ _ Er). by rewrite IH by (done || lia).
Qed.

Lemma dec_enc_string s rest : utf8 s = true → dec_chars 0 (enc_chars 0 s +:+ String quote_mark rest) = Some (s, rest).
Proof. intros Hs. by apply (dec_enc_chars (String.length s)). Qed.

(** ** Numbers survive *)

(** The rest does not continue a number. *)
Definition stops (rest : string) : Prop :=
  match rest with "" => True | String a _ => is_digit a = false ∧ code a ≠ 46 ∧ code a ≠ 101 ∧ code a ≠ 69 end.

Lemma digit_is_digit a : is_Some (digit_val a) ↔ is_digit a = true.
Proof.
  unfold digit_val, is_digit, between, code, Ascii.nat_of_ascii. rewrite bool_decide_eq_true. case_decide.
  - split; [intros _; lia|by eexists].
  - split; [by intros []|lia].
Qed.

Lemma pretty_digits (n : N) : all_chars (λ a, is_digit a = true) (pretty n).
Proof.
  pose proof (parse_dec_pretty_N n) as E. unfold parse_dec in E. destruct (pretty n) as [|a s] eqn:Ep; [done|].
  rewrite <-Ep in *. clear Ep a s. revert E. generalize 0%N at 1 as acc. generalize (pretty n) as s.
  induction s as [|a s IH]; intros acc E; [done|]. simpl in E. destruct (digit_val a) eqn:Ea; [|done].
  split; [apply digit_is_digit; by rewrite Ea|by eapply IH].
Qed.

Lemma pretty_go_lead x s : (0 < x)%N → ∃ a t, pretty_N_go x s = String a t ∧ is_digit a = true ∧ code a ≠ 48.
Proof.
  revert s. induction (N.lt_wf_0 x) as [x _ IH]; intros s Hx. rewrite pretty_N_go_step by done.
  destruct (decide (x < 10)%N) as [Hs|Hs].
  - rewrite N.div_small, N.mod_small by done. rewrite pretty_N_go_0. eexists _, _. split; [done|].
    destruct x as [|p]; [lia|]. do 4 (destruct p as [p|p|]; try lia; try done).
  - apply IH; [apply N.div_lt; lia|]. apply N.div_str_pos. lia.
Qed.

Lemma take_digits_all d rest : all_chars (λ a, is_digit a = true) d → stops rest → take_digits (d +:+ rest) = (d, rest).
Proof.
  induction d as [|a d IH]; intros Hd Hr.
  - change ("" +:+ rest) with rest. destruct rest as [|b rest]; [done|]. simpl in *. by destruct Hr as [-> _].
  - destruct Hd as [Ha Hd]. rewrite str_app_cons. cbn [take_digits]. by rewrite Ha, IH.
Qed.

Lemma int_part_pretty (n : N) rest : stops rest → int_part (pretty n +:+ rest) = Some (pretty n, rest).
Proof.
  intros Hr. destruct (decide (n = 0)%N) as [->|Hn].
  - done.
  - pose proof (take_digits_all (pretty n) rest (pretty_digits n) Hr) as Ht.
    assert (∃ a t, pretty n = String a t ∧ is_digit a = true ∧ code a ≠ 48) as (a & t & Ep & _ & Ha).
    { unfold pretty, pretty_N. rewrite decide_False by done. apply pretty_go_lead. lia. }
    rewrite Ep in *. rewrite str_app_cons in *. unfold int_part, digits1. rewrite decide_False by done. by rewrite Ht.
Qed.

Lemma frac_stops rest : stops rest → frac_part rest = Some ("", rest).
Proof. destruct rest; [done|]. intros (_ & ? & _). simpl. by rewrite decide_False. Qed.
Lemma exp_stops rest : stops rest → exp_part rest = Some ("", rest).
Proof. destruct rest; [done|]. intros (_ & _ & ? & ?). simpl. by rewrite decide_False by lia. Qed.

(** The literal of an integer. *)
Lemma read_number_pretty (z : Z) rest : stops rest → read_number (pretty z +:+ rest) = Some (pretty z, rest).
Proof.
  intros Hr. destruct z as [|p|p].
  - unfold read_number. change (pretty 0 +:+ rest) with (String (char 48) rest). simpl. rewrite frac_stops by done. simpl.
    by rewrite exp_stops.
  - change (pretty (Z.pos p)) with (pretty (N.pos p)). pose proof (int_part_pretty (N.pos p) rest Hr) as Hi.
    unfold read_number. destruct (pretty (N.pos p)) as [|a t] eqn:Ep.
    { pose proof (parse_dec_pretty_N (N.pos p)) as E. by rewrite Ep in E. }
    rewrite str_app_cons in *. assert (is_digit a = true) as Ha.
    { pose proof (pretty_digits (N.pos p)) as Hd. rewrite Ep in Hd. apply Hd. }
    rewrite decide_False by (intros E; unfold is_digit, between in Ha; rewrite E in Ha; done). rewrite Hi. simpl.
    rewrite frac_stops by done. simpl. rewrite exp_stops by done. simpl. rewrite ?str_app_nil. done.
  - change (pretty (Z.neg p)) with (String (char 45) (pretty (N.pos p))). rewrite str_app_cons. unfold read_number.
    rewrite decide_True by done. rewrite int_part_pretty by done. simpl. rewrite frac_stops by done. simpl.
    rewrite exp_stops by done. simpl. by rewrite !str_app_nil.
Qed.

(** ** Values survive *)

Section JsonInd.
Context (P : json → Prop) (Hnull : P JNull) (Hbool : ∀ b, P (JBool b)) (Hnum : ∀ lit, P (JNum lit)) (Hstr : ∀ s, P (JStr s)).
Context (Harr : ∀ l, Forall P l → P (JArr l)) (Hobj : ∀ l, Forall (λ kv, P kv.2) l → P (JObj l)).

Definition json_nested : ∀ v, P v :=
  fix go v := match v with
    | JNull => Hnull
    | JBool b => Hbool b
    | JNum lit => Hnum lit
    | JStr s => Hstr s
    | JArr l => Harr l ((fix all l : Forall P l :=
        match l with [] => Forall_nil_2 _ | v :: l' => Forall_cons_2 _ _ _ (go v) (all l') end) l)
    | JObj l => Hobj l ((fix all l : Forall (λ kv, P kv.2) l :=
        match l with [] => Forall_nil_2 _ | kv :: l' => Forall_cons_2 _ _ _ (go kv.2) (all l') end) l)
    end.
End JsonInd.

(** A value whose text says what it is: integer literals, strings in UTF-8. *)
Fixpoint jtext (v : json) : Prop :=
  match v with
  | JNull | JBool _ => True
  | JNum lit => ∃ z : Z, lit = pretty z
  | JStr s => utf8 s = true
  | JArr l => foldr (λ v P, jtext v ∧ P) True l
  | JObj l => foldr (λ '(k, v) P, (utf8 k = true ∧ jtext v) ∧ P) True l
  end.

(** How deep arrays and objects are nested, and the calls it takes to read a value. *)
Fixpoint depth (v : json) : Z :=
  match v with
  | JArr l => 1 + foldr (λ v d, depth v `max` d) 0 l
  | JObj l => 1 + foldr (λ '(_, v) d, depth v `max` d) 0 l
  | _ => 0
  end.
Fixpoint calls (v : json) : nat :=
  match v with
  | JArr l => S (foldr (λ v n, S (calls v + n)) 0%nat l)
  | JObj l => S (foldr (λ '(_, v) n, S (calls v + n)) 0%nat l)
  | _ => 1%nat
  end.

Lemma depth_elems l : 0 ≤ foldr (λ v d, depth v `max` d) 0 l.
Proof. induction l; simpl; lia. Qed.
Lemma depth_members (l : list (string * json)) : 0 ≤ foldr (λ '(_, v) d, depth v `max` d) 0 l.
Proof. induction l as [|[]]; simpl; lia. Qed.
Lemma depth_nonneg v : 0 ≤ depth v.
Proof. destruct v as [| | | |l|l]; try done; cbn [depth]; [pose proof (depth_elems l)|pose proof (depth_members l)]; lia. Qed.

Lemma skip_ws_head a t : is_space a = false → skip_ws (String a t) = String a t.
Proof. intros Ha. simpl. by rewrite Ha. Qed.

(** The first character of a value. *)
Lemma print_head v : jtext v → ∃ a t, print v = String a t ∧ is_space a = false ∧ code a ≠ 93 ∧ code a ≠ 125.
Proof.
  destruct v as [|[]|lit|s|l|l]; cbn [jtext print]; intros Hv.
  1-3,5-7: eexists _, _; split; [reflexivity|done].
  destruct Hv as [z ->]. destruct z as [|p|p]; [by eexists _, _| |by eexists _, _].
  change (pretty (Z.pos p)) with (pretty (N.pos p)). pose proof (pretty_digits (N.pos p)) as Hd.
  destruct (pretty (N.pos p)) as [|a t] eqn:Ep.
  { pose proof (parse_dec_pretty_N (N.pos p)) as E. by rewrite Ep in E. }
  exists a, t. split; [done|]. destruct Hd as [Ha _]. unfold is_digit, between in Ha. rewrite bool_decide_eq_true in Ha.
  split; [apply bool_decide_false; lia|lia].
Qed.

(** The parts of [read_value], one per kind of value. *)
Lemma read_string fuel d s rest : utf8 s = true → read_value (S fuel) d (enc_string s +:+ rest) = Some (JStr s, rest).
Proof.
  intros Hs. unfold enc_string. rewrite str_app_cons. cbn [read_value]. rewrite skip_ws_head by done. cbv zeta.
  change (code quote_mark) with 34. do 2 (rewrite decide_False by done). rewrite decide_True by done.
  rewrite <-str_app_assoc. rewrite (str_app_cons quote_mark). by rewrite dec_enc_string.
Qed.

Lemma read_literal fuel d z rest : stops rest → read_value (S fuel) d (pretty (z : Z) +:+ rest) = Some (JNum (pretty z), rest).
Proof.
  intros Hr. pose proof (read_number_pretty z rest Hr) as Hn.
  destruct (print_head (JNum (pretty z))) as (a & t & E & Ha & _); [by exists z|]. cbn [print] in E. rewrite E in *.
  rewrite str_app_cons in *. cbn [read_value]. rewrite skip_ws_head by done. cbv zeta.
  assert (is_digit a = true ∨ code a = 45) as Hd.
  { destruct z as [|p|p]; [injection E as <- <-; by left| |injection E as <- <-; by right].
    left. change (pretty (Z.pos p)) with (pretty (N.pos p)) in E. pose proof (pretty_digits (N.pos p)) as Hd. rewrite E in Hd. apply Hd. }
  unfold is_digit, between in Hd. rewrite bool_decide_eq_true in Hd. do 6 (rewrite decide_False by lia). by rewrite Hn.
Qed.

(** The text of the value is read back, whatever follows that cannot continue a number. *)
Definition reads (v : json) : Prop :=
  ∀ fuel d rest, jtext v → (calls v ≤ fuel)%nat → depth v ≤ d → stops rest → read_value fuel d (print v +:+ rest) = Some (v, rest).

Lemma stops_char a rest : is_digit a = false → code a ≠ 46 → code a ≠ 101 → code a ≠ 69 → stops (String a rest).
Proof. done. Qed.

Lemma read_elems_print l fuel d rest :
  l ≠ [] → Forall reads l → foldr (λ v P, jtext v ∧ P) True l → (foldr (λ v n, S (calls v + n)) 0 l ≤ fuel)%nat →
  foldr (λ v d, depth v `max` d) 0 l ≤ d →
  read_elems fuel d (Join (map print l) "," +:+ String (char 93) rest) = Some (l, rest).
Proof.
  intros Hl HR. revert fuel Hl. induction HR as [|v l Hv HR IH]; intros fuel Hl Ht Hf Hd; [done|].
  cbn [foldr] in Ht, Hf, Hd. destruct Ht as [Htv Ht]. destruct fuel as [|fuel]; [lia|]. cbn [read_elems].
  destruct l as [|w l].
  - cbn [map Join]. rewrite Hv by (done || lia). simpl. done.
  - assert (Join (map print (v :: w :: l)) "," +:+ String (char 93) rest =
      print v +:+ String (char 44) (Join (map print (w :: l)) "," +:+ String (char 93) rest)) as ->.
    { cbn [map Join]. by rewrite <-!str_app_assoc. }
    rewrite Hv by (done || lia). cbn [mbind option_bind]. rewrite skip_ws_head by done. rewrite decide_True by done.
    by rewrite IH by (done || lia).
Qed.

Definition member (kv : string * json) : string := let '(k, v) := kv in enc_string k +:+ ":" +:+ print v.

Lemma read_members_print l fuel d rest :
  l ≠ [] → Forall (λ kv, reads kv.2) l → foldr (λ '(k, v) P, (utf8 k = true ∧ jtext v) ∧ P) True l →
  (foldr (λ '(_, v) n, S (calls v + n)) 0 l ≤ fuel)%nat → foldr (λ '(_, v) d, depth v `max` d) 0 l ≤ d →
  read_members fuel d (Join (map member l) "," +:+ String (char 125) rest) = Some (l, rest).
Proof.
  intros Hl HR. revert fuel Hl. induction HR as [|[k v] l Hv HR IH]; intros fuel Hl Ht Hf Hd; [done|].
  cbn [foldr] in Ht, Hf, Hd. destruct Ht as [[Hk Htv] Ht]. destruct fuel as [|fuel]; [lia|]. cbn [snd] in Hv.
  assert (∀ text, skip_ws (enc_string k +:+ text) = String quote_mark (enc_chars 0 k +:+ String quote_mark text)) as Hkey.
  { intros text. unfold enc_string. rewrite str_app_cons, skip_ws_head by done. by rewrite <-str_app_assoc, (str_app_cons quote_mark). }
  assert (∀ text, is_digit text = false → code text ≠ 46 → code text ≠ 101 → code text ≠ 69 → ∀ tail, 
    read_value fuel d (print v +:+ String text tail) = Some (v, String text tail)) as Hval.
  { intros. apply Hv; [done|lia|lia|done]. }
  destruct l as [|w l].
  - cbn [map Join member]. rewrite <-!str_app_assoc. cbn [read_members]. rewrite Hkey. rewrite decide_False by (intros H; by apply H).
    rewrite dec_enc_string by done. cbn [mbind option_bind]. rewrite (str_app_cons _ ""), skip_ws_head by done.
    rewrite decide_False by (intros H; by apply H). change ("" +:+ ?x) with x. rewrite Hval by done. done.
  - assert (Join (map member ((k, v) :: w :: l)) "," +:+ String (char 125) rest =
      enc_string k +:+ String (char 58) (print v +:+ String (char 44) (Join (map member (w :: l)) "," +:+ String (char 125) rest))) as ->.
    { cbn [map Join member]. by rewrite <-!str_app_assoc. }
    cbn [read_members]. rewrite Hkey. rewrite decide_False by (intros H; by apply H).
    rewrite dec_enc_string by done. cbn [mbind option_bind]. rewrite skip_ws_head by done.
    rewrite decide_False by (intros H; by apply H). rewrite Hval by done. cbn [mbind option_bind].
    rewrite skip_ws_head by done. rewrite decide_True by done. by rewrite IH by (done || lia).
Qed.

Lemma Join_head {A} (f : A → string) x l sep : ∃ t, Join (map f (x :: l)) sep = f x +:+ t.
Proof. destruct l; cbn [map Join]; eexists; [by rewrite str_app_nil|done]. Qed.

Lemma read_array l : Forall reads l → reads (JArr l).
Proof.
  intros HR fuel d rest Ht Hf Hd _. cbn [jtext calls depth] in Ht, Hf, Hd. destruct fuel as [|fuel]; [lia|].
  pose proof (depth_elems l).
  cbn [print]. rewrite <-!str_app_assoc. change ("[" +:+ ?x) with (String (char 91) x). change ("]" +:+ ?x) with (String (char 93) x).
  cbn [read_value]. rewrite skip_ws_head by done. cbv zeta. rewrite decide_False, decide_True, decide_False by (done || lia).
  destruct l as [|v l]; [done|]. destruct (Join_head print v l ",") as [t Hj].
  destruct (print_head v) as (a & u & Hp & Hs & Ha & _); [apply Ht|].
  rewrite Hj at 1. rewrite Hp, !str_app_cons, skip_ws_head, decide_False by done.
  by rewrite read_elems_print by (done || lia).
Qed.

Lemma read_object l : Forall (λ kv, reads kv.2) l → reads (JObj l).
Proof.
  intros HR fuel d rest Ht Hf Hd _. cbn [jtext calls depth] in Ht, Hf, Hd. destruct fuel as [|fuel]; [lia|].
  pose proof (depth_members l).
  cbn [print]. rewrite <-!str_app_assoc. change ("{" +:+ ?x) with (String (char 123) x). change ("}" +:+ ?x) with (String (char 125) x).
  change (λ '(k, v), enc_string k +:+ ":" +:+ print v) with member.
  cbn [read_value]. rewrite skip_ws_head by done. cbv zeta. rewrite decide_True, decide_False by (done || lia).
  destruct l as [|[k v] l]; [done|]. destruct (Join_head member (k, v) l ",") as [t Hj].
  assert (member (k, v) = String quote_mark ((enc_chars 0 k +:+ String quote_mark "") +:+ ":" +:+ print v)) as Hm by done.
  rewrite Hj at 1. rewrite Hm, !str_app_cons, skip_ws_head, decide_False by done.
  by rewrite read_members_print by (done || lia).
Qed.

Lemma reads_all v : reads v.
Proof.
  induction v as [|b|lit|s|l IH|l IH] using json_nested.
  - intros [|fuel] d rest _ Hf _ _; [cbn [calls] in Hf; lia|done].
  - intros [|fuel] d rest _ Hf _ _; [cbn [calls] in Hf; lia|by destruct b].
  - intros [|fuel] d rest [z ->] Hf _ Hr; [cbn [calls] in Hf; lia|]. by apply read_literal.
  - intros [|fuel] d rest Hs Hf _ _; [cbn [calls] in Hf; lia|]. by apply read_string.
  - by apply read_array.
  - by apply read_object.
Qed.

(** *** The fuel is enough *)

Lemma calls_list {A} (f : A → nat) (p : A → string) (l : list A) :
  Forall (λ x, f x ≤ 2 * String.length (p x) ∧ 0 < String.length (p x))%nat l →
  (foldr (λ x n, S (f x + n)) 0 l ≤ 2 * String.length (Join (map p l) ",") + 1)%nat.
Proof.
  induction 1 as [|x l [Hx _] Hl IH]; [simpl; lia|]. destruct l as [|y l]; [simpl in *; lia|].
  cbn [map Join] in *. cbn [foldr] in *. rewrite !str_length_app. simpl String.length. lia.
Qed.

Lemma calls_length v : jtext v → (calls v ≤ 2 * String.length (print v))%nat.
Proof.
  induction v as [|b|lit|s|l IH|l IH] using json_nested; intros Ht.
  - simpl; lia.
  - destruct b; simpl; lia.
  - destruct (print_head (JNum lit)) as (a & t & E & _); [done|]. rewrite E. simpl. lia.
  - simpl. lia.
  - cbn [calls print]. rewrite !str_length_app. simpl String.length.
    assert (Forall (λ v, calls v ≤ 2 * String.length (print v) ∧ 0 < String.length (print v))%nat l) as Hl.
    { cbn [jtext] in Ht. induction IH as [|v l Hv IH IHl]; constructor; [|by apply IHl, Ht].
      split; [by apply Hv, Ht|]. destruct (print_head v) as (a & t & -> & _); [apply Ht|simpl; lia]. }
    apply calls_list in Hl. lia.
  - cbn [calls print]. rewrite !str_length_app. simpl String.length.
    change (λ '(k, v), enc_string k +:+ ":" +:+ print v) with member.
    assert (Forall (λ kv, calls kv.2 ≤ 2 * String.length (member kv) ∧ 0 < String.length (member kv))%nat l) as Hl.
    { cbn [jtext] in Ht. induction IH as [|[k v] l Hv IH IHl]; constructor; [|by apply IHl, Ht].
      unfold member. rewrite !str_length_app. simpl in *. split; [|lia]. destruct Ht as [[_ Ht] _]. specialize (Hv Ht). lia. }
    apply calls_list in Hl. simpl in Hl.
    assert (foldr (λ '(_, v) n, S (calls v + n)) 0 l = foldr (λ x n, S (calls x.2 + n)) 0 l)%nat as ->; [|lia].
    clear. induction l as [|[k v] l IH]; [done|]. simpl. by rewrite IH.
Qed.

(** What is written of a value is read back as that value, also with white space after it. *)
Lemma read_print v w : jtext v → depth v ≤ max_depth → all_chars (λ a, is_space a = true) w → read (print v +:+ w) = Some v.
Proof.
  intros Ht Hd Hw. unfold read. pose proof (calls_length v Ht). rewrite str_length_app. rewrite reads_all; [|done|lia|done|].
  - cbn [mbind option_bind]. enough (skip_ws w = "") as -> by done.
    induction w as [|a w IH]; [done|]. destruct Hw as [Ha Hw]. simpl. rewrite Ha. by apply IH.
  - destruct w as [|a w]; [done|]. destruct Hw as [Ha _]. unfold is_space in Ha. rewrite bool_decide_eq_true in Ha. simpl.
    unfold is_digit, between. rewrite bool_decide_eq_false. lia.
Qed.

(** ** No control character is written *)

Definition printable (a : ascii) : Prop := 32 ≤ code a.

(** The first [k] bytes belong to a rune of several bytes. *)
Fixpoint high_bytes (k : nat) (s : string) : Prop :=
  match k, s with S k', String a s' => 128 ≤ code a ∧ high_bytes k' s' | _, _ => True end.

Lemma rune_len_high a s k : rune_len (String a s) = S (S k) → 128 ≤ code a ∧ high_bytes (S k) s.
Proof.
  intros E. split; [pose proof (rune_len_wide _ _ _ E); lia|]. revert E.
  unfold rune_len, cont, between, second_lo, second_hi. destruct (decide (code a < 128)); [done|].
  destruct (decide (code a < 194)); [done|]. destruct s as [|b s]; [done|].
  destruct (negb _) eqn:Eb; [done|]. apply negb_false_iff, bool_decide_eq_true in Eb.
  assert (128 ≤ code b) by (repeat case_decide; lia). clear Eb.
  destruct (decide (code a < 224)); [by intros [= <-]|].
  destruct s as [|c s]; [done|]. destruct (negb _) eqn:Ec; [done|]. apply negb_false_iff, bool_decide_eq_true in Ec.
  destruct (decide (code a < 240)); [intros [= <-]; simpl; split_and!; lia || done|].
  destruct s as [|d s]; [done|]. destruct (bool_decide _) eqn:Ed; [|done]. apply bool_decide_eq_true in Ed.
  case_bool_decide; [|done]. intros [= <-]. simpl. split_and!; lia || done.
Qed.

Lemma esc_printable a : all_chars printable (esc a).
Proof.
  assert (∀ s, forallb (λ a, bool_decide (32 ≤ code a)) (String.list_ascii_of_string s) = true → all_chars printable s) as Hs.
  { induction s as [|b s IH]; [done|]. simpl. rewrite andb_true_iff, bool_decide_eq_true. intros [? ?]. split; [done|by apply IH]. }
  apply Hs. revert a. apply all_ascii. vm_compute. reflexivity.
Qed.

Lemma enc_chars_printable n s skip :
  (String.length s ≤ n)%nat → high_bytes skip s → all_chars printable (enc_chars skip s).
Proof.
  revert s skip. induction n as [|n IH]; intros s skip Hl Hh; [by destruct s; [|simpl in Hl; lia]|].
  destruct s as [|a s]; [done|]. cbn [String.length] in Hl. destruct skip as [|k]; cbn [enc_chars].
  2: { destruct Hh as [Ha Hh]. split; [unfold printable; lia|]. apply IH; [lia|done]. }
  destruct (line_sep (String a s)) as [c|] eqn:El.
  - apply line_sep_Some in El as (t & Es & Hc & _). injection Es as -> ->. cbn [String.length] in Hl.
    apply all_chars_app; [done|]. split; [|apply IH; [lia|done]].
    destruct Hc as [Hc|Hc]; rewrite Hc; done.
  - assert (all_chars printable (enc_chars 0 s)) as H0 by (apply IH; [lia|done]).
    destruct (rune_len (String a s)) as [|[|k]] eqn:Er.
    + apply all_chars_app; done.
    + apply all_chars_app; [apply esc_printable|done].
    + apply rune_len_high in Er as [Ha Hh']. split; [unfold printable; lia|]. apply IH; [lia|done].
Qed.

Lemma enc_string_printable s : all_chars printable (enc_string s).
Proof.
  split; [done|]. apply all_chars_app; [|done]. by apply (enc_chars_printable (String.length s)).
Qed.

Lemma Join_all_chars P l sep : all_chars P sep → Forall (all_chars P) l → all_chars P (Join l sep).
Proof.
  intros Hsep. induction 1 as [|s l Hs Hl IH]; [done|]. destruct l; [done|]. cbn [Join]. by repeat apply all_chars_app.
Qed.

Lemma print_printable v : jtext v → all_chars printable (print v).
Proof.
  induction v as [|b|lit|s|l IH|l IH] using json_nested; intros Ht.
  - done.
  - by destruct b.
  - destruct Ht as [z ->]. cbn [print]. assert (∀ n : N, all_chars printable (pretty n)) as HN.
    { intros n. eapply all_chars_mono; [|apply pretty_digits]. intros a. unfold is_digit, between, printable.
      rewrite bool_decide_eq_true. lia. }
    destruct z as [|p|p]; [apply (HN 0%N)|apply (HN (N.pos p))|]. by split; [|apply (HN (N.pos p))].
  - apply enc_string_printable.
  - cbn [print]. apply all_chars_app; [done|]. apply all_chars_app; [|done]. apply Join_all_chars; [done|].
    cbn [jtext] in Ht. induction IH as [|v l Hv IH IHl]; constructor; [by apply Hv, Ht|by apply IHl, Ht].
  - cbn [print]. apply all_chars_app; [done|]. apply all_chars_app; [|done]. apply Join_all_chars; [done|].
    cbn [jtext] in Ht. induction IH as [|[k v] l Hv IH IHl]; constructor; [|by apply IHl, Ht].
    apply all_chars_app; [apply enc_string_printable|]. apply all_chars_app; [done|]. apply Hv, Ht.
Qed.

(** ** The fuel of [read] is enough for every text *)

Abbreviation len := String.length.

Lemma skip_ws_len s : (len (skip_ws s) ≤ len s)%nat.
Proof. induction s as [|a s IH]; [done|]. simpl. case_match; simpl; lia. Qed.

Lemma pushed_Some u o t r : pushed u o = Some (t, r) → ∃ t', o = Some (t', r).
Proof. destruct o as [[t' r']|]; [|done]. intros [= _ <-]. by exists t'. Qed.

Lemma dec_chars_len n s skip t r : (len s ≤ n)%nat → dec_chars skip s = Some (t, r) → (len r < len s)%nat.
Proof.
  revert s skip t r. induction n as [|n IH]; intros s skip t r Hl E; [by destruct s; [|simpl in Hl; lia]|].
  assert (∀ u s' k, pushed u (dec_chars k s') = Some (t, r) → (len s' ≤ n)%nat → (len r < len s')%nat) as Hp.
  { intros u s' k Hp Hs'. apply pushed_Some in Hp as [t' Hp]. by eapply IH. }
  clear IH. destruct s as [|a s]; [done|]. cbn [dec_chars] in E. simpl in Hl |- *.
  repeat (case_match; subst; try done); simplify_eq; try lia; apply Hp in E; simpl in *; lia.
Qed.

Lemma take_digits_len s : (len (take_digits s).2 + len (take_digits s).1 = len s)%nat.
Proof. induction s as [|a s IH]; [done|]. cbn [take_digits]. case_match; [|simpl; lia]. destruct (take_digits s). simpl in *. lia. Qed.

Lemma digits1_len s t r : digits1 s = Some (t, r) → (len r < len s)%nat.
Proof.
  unfold digits1. pose proof (take_digits_len s). destruct (take_digits s) as [[|a d] r']; [done|]. intros [= _ <-]. simpl in *. lia.
Qed.

Lemma read_number_len s t r : read_number s = Some (t, r) → (len r < len s)%nat.
Proof.
  assert (∀ u s' t r, pushed u (digits1 s') = Some (t, r) → (len r < len s')%nat) as Hp.
  { intros u s' t' r' H. apply pushed_Some in H as [? H]. by eapply digits1_len. }
  unfold read_number. destruct (match s with "" => _ | _ => _ end) as [sign s0] eqn:E0.
  assert (len s0 ≤ len s)%nat as H0 by (destruct s; repeat (case_match; try done); simplify_eq; simpl; lia).
  clear E0. destruct (int_part s0) as [[i s1]|] eqn:E1; [|done]. cbn [mbind option_bind].
  assert (len s1 < len s0)%nat as H1.
  { unfold int_part in E1. repeat (case_match; try done); simplify_eq; [simpl; lia|by eapply digits1_len]. }
  destruct (frac_part s1) as [[f s2]|] eqn:E2; [|done]. cbn [mbind option_bind].
  assert (len s2 ≤ len s1)%nat as H2.
  { unfold frac_part in E2. repeat (case_match; try done); simplify_eq; try done. apply Hp in E2. simpl in *. lia. }
  destruct (exp_part s2) as [[e s3]|] eqn:E3; [|done]. cbn [mbind option_bind]. intros [= _ <-].
  enough (len s3 ≤ len s2)%nat by lia.
  unfold exp_part in E3. repeat (case_match; try done); simplify_eq; try done; apply Hp in E3; simpl in *; lia.
Qed.

Lemma after_len u s r : after u s = Some r → (len r ≤ len s)%nat.
Proof.
  revert s. induction u as [|a u IH]; intros s E; [by injection E as <-|]. destruct s as [|b s]; [done|].
  simpl in E. case_decide; [|done]. apply IH in E. simpl. lia.
Qed.

(** Steps through a reader that returned, and turns what it read into lengths. *)
Ltac lens :=
  repeat match goal with
  | H : skip_ws ?x = _ |- _ =>
      let L := fresh in pose proof (skip_ws_len x) as L; rewrite H in L; cbn [String.length] in L; clear H
  | H : dec_chars 0 ?x = Some _ |- _ => apply (dec_chars_len (len x)) in H; [|done]
  | H : after _ _ = Some _ |- _ => apply after_len in H
  | H : read_number _ = Some _ |- _ => apply read_number_len in H; cbn [String.length] in H
  end.

Ltac opts H :=
  repeat match type of H with
  | Some _ = Some _ => injection H as ? ?; subst
  | None = Some _ => discriminate H
  | context [match ?x with _ => _ end] =>
      match type of x with
      | option (_ * _) => let E := fresh "E" in destruct x as [[]|] eqn:E
      | _ => let E := fresh "E" in destruct x eqn:E
      end
  end.

Lemma read_len fuel : ∀ d s,
  (∀ v r, read_value fuel d s = Some (v, r) → len r < len s)%nat ∧
  (∀ l r, read_elems fuel d s = Some (l, r) → len r < len s)%nat ∧
  (∀ l r, read_members fuel d s = Some (l, r) → len r < len s)%nat.
Proof.
  induction fuel as [|fuel IH]; intros d s; [done|].
  assert (∀ d s v r, read_value fuel d s = Some (v, r) → len r < len s)%nat as IHv by (intros d' s'; apply (IH d' s')).
  assert (∀ d s v r, read_elems fuel d s = Some (v, r) → len r < len s)%nat as IHe by (intros d' s'; apply (IH d' s')).
  assert (∀ d s v r, read_members fuel d s = Some (v, r) → len r < len s)%nat as IHm by (intros d' s'; apply (IH d' s')).
  clear IH. split_and!; intros v r H.
  - cbn [read_value] in H. unfold mbind, option_bind in H. opts H;
      repeat match goal with
      | E : read_elems _ _ _ = Some _ |- _ => apply IHe in E
      | E : read_members _ _ _ = Some _ |- _ => apply IHm in E end; lens; lia.
  - cbn [read_elems] in H. unfold mbind, option_bind in H. opts H;
      repeat match goal with
      | E : read_value _ _ _ = Some _ |- _ => apply IHv in E
      | E : read_elems _ _ _ = Some _ |- _ => apply IHe in E end; lens; lia.
  - cbn [read_members] in H. unfold mbind, option_bind in H. opts H;
      repeat match goal with
      | E : read_value _ _ _ = Some _ |- _ => apply IHv in E
      | E : read_members _ _ _ = Some _ |- _ => apply IHm in E end; lens; lia.
Qed.

(** Every call is on a shorter text, or on the same text one level further in, so more fuel
    than twice the length changes nothing. *)
Lemma read_fuel n : ∀ f g d s, (len s ≤ n)%nat →
  ((2 * len s + 1 ≤ f → 2 * len s + 1 ≤ g → read_value f d s = read_value g d s) ∧
   (2 * len s + 2 ≤ f → 2 * len s + 2 ≤ g → read_elems f d s = read_elems g d s) ∧
   (2 * len s + 2 ≤ f → 2 * len s + 2 ≤ g → read_members f d s = read_members g d s))%nat.
Proof.
  induction n as [|n IH]; intros f g d s Hs.
  { destruct s; [|simpl in Hs; lia]. split_and!; intros Hf Hg; destruct f as [|[|f]], g as [|[|g]]; simpl in *; lia || done. }
  assert (∀ f g, (2 * len s + 1 ≤ f → 2 * len s + 1 ≤ g → read_value f d s = read_value g d s)%nat) as Hv.
  { clear f g. intros [|f] [|g] Hf Hg; [lia..|]. cbn [read_value]. pose proof (skip_ws_len s) as L.
    destruct (skip_ws s) as [|a s1]; [done|]. cbn [String.length] in L. destruct (IH f g (d - 1) s1) as (_ & He & Hm); [lia|].
    by rewrite He, Hm by lia. }
  split_and!; [apply Hv| |]; intros Hf Hg; destruct f as [|f], g as [|g]; try lia.
  - cbn [read_elems]. rewrite (Hv f g) by lia. destruct (read_value g d s) as [[v r]|] eqn:E; [|done]. cbn [mbind option_bind].
    apply read_len in E. pose proof (skip_ws_len r) as L. destruct (skip_ws r) as [|a r']; [done|]. cbn [String.length] in L.
    destruct (IH f g d r') as (_ & He & _); [lia|]. by rewrite He by lia.
  - cbn [read_members]. pose proof (skip_ws_len s) as L. destruct (skip_ws s) as [|q s1]; [done|]. cbn [String.length] in L.
    case_decide; [done|]. destruct (dec_chars 0 s1) as [[k r]|] eqn:E; [|done]. cbn [mbind option_bind].
    apply (dec_chars_len (len s1)) in E; [|done]. pose proof (skip_ws_len r) as L1. destruct (skip_ws r) as [|c r1]; [done|].
    cbn [String.length] in L1. case_decide; [done|]. destruct (IH f g d r1) as (Hv1 & _ & _); [lia|]. rewrite Hv1 by lia.
    destruct (read_value g d r1) as [[v r2]|] eqn:E2; [|done]. cbn [mbind option_bind]. apply read_len in E2.
    pose proof (skip_ws_len r2) as L2. destruct (skip_ws r2) as [|a r']; [done|]. cbn [String.length] in L2.
    destruct (IH f g d r') as (_ & _ & Hm); [lia|]. by rewrite Hm by lia.
Qed.

(** No text is refused for want of fuel. *)
Lemma read_fuel_enough fuel s :
  (2 * len s + 1 ≤ fuel)%nat →
  read s = ('(v, r) ← read_value fuel max_depth s; match skip_ws r with "" => Some v | _ => None end).
Proof. intros Hf. unfold read. destruct (read_fuel (len s) (2 * len s + 1) fuel max_depth s) as [E _]; [lia|]. by rewrite E by lia. Qed.
