(* ===== verification/Wire.v ===== *)
(** * The line codec on bytes (src/protocol/coder-decoder.go)

    [WriteMessage] and [WriteProtocolHeader] on a [bufio.Writer] over any destination,
    the turn of the write pump of connection.go on the same bytes, and the reader that
    splits a byte stream at the newlines.  What a peer reads is an initial segment of
    the messages written: a failing socket loses messages, it never garbles one. *)

From S2P Require Import Prelude GoJson Protocol State Transport Connection Scenario Session Bufio JsonText.

Definition newline : ascii := char 10.
Definition nl : string := String newline "".

(** The line of a value, and of several. *)
Definition message (v : json) : string := print v +:+ nl.
Definition wire (l : list json) : string := foldr (λ v s, message v +:+ s) "" l.

(** ** Writing *)

Section writing.
Context {D : Type} `{Destination D}.

(** [WriteMessage(w, data)].  [json.Marshal] does not fail on the structs of the protocol. *)
Definition WriteMessage {T} `{JEncode T} (data : T) (w : Writer D) : option string * Writer D :=
  let bytes := print (Marshal data) in
  let '(err, w) := Write bytes w in
  match err with
  | Some _ => (err, w)
  | None =>
      let '(err, w) := WriteByte newline w in
      match err with
      | Some _ => (err, w)
      | None => Flush w
      end
  end.

(** [WriteProtocolHeader(w)]: a write error is reported as success. *)
Definition WriteProtocolHeader (w : Writer D) : option string * Writer D :=
  let '(err, w) := WriteString (ProtocolHeader +:+ nl) w in
  match err with
  | Some _ => (None, w)
  | None => Flush w
  end.

(** The turn of [writePump] that serves a request: the answer to the sender. *)
Definition pump_turn (data : string) (w : Writer D) : option string * Writer D :=
  let '(err, w) := Write data w in
  match err with
  | Some _ => (err, w)
  | None => Flush w
  end.

(** Messages one after the other until one is not written: how many were, and the error. *)
Fixpoint WriteMessages {T} `{JEncode T} (l : list T) (w : Writer D) : nat * option string * Writer D :=
  match l with
  | [] => (0%nat, None, w)
  | t :: l' =>
      let '(err, w) := WriteMessage t w in
      match err with
      | Some _ => (0%nat, err, w)
      | None => let '(n, err, w) := WriteMessages l' w in (S n, err, w)
      end
  end.

Lemma WriteMessage_sent {T} `{JEncode T} (data : T) w : clean w → sent w (message (Marshal data)) (WriteMessage data w).
Proof.
  intros Hc. unfold WriteMessage, Write. pose proof (WriteString_spec w (print (Marshal data)) (proj1 Hc)) as H1.
  destruct (WriteString _ w) as [[e|] w1]; [by eapply sent_failed; [| |apply str_prefix_app]|]. simpl in H1.
  pose proof (WriteByte_spec w1 newline (proj1 H1)) as H2. pose proof (write_post_seq _ _ _ _ _ _ H1 H2) as H3.
  destruct (WriteByte newline w1) as [[e|] w2]; [by eapply sent_failed|by apply flush_sent].
Qed.

Lemma pump_turn_sent data w : clean w → sent w data (pump_turn data w).
Proof.
  intros Hc. unfold pump_turn, Write. pose proof (WriteString_spec w data (proj1 Hc)) as H1.
  destruct (WriteString data w) as [[e|] w1]; [by eapply sent_failed|by apply flush_sent].
Qed.

(** The header fits in an empty buffer: only the flush can fail. *)
Lemma WriteProtocolHeader_sent w : clean w → sent w (ProtocolHeader +:+ nl) (WriteProtocolHeader w).
Proof.
  intros Hc. unfold WriteProtocolHeader. pose proof (WriteString_spec w (ProtocolHeader +:+ nl) (proj1 Hc)) as H1.
  destruct (WriteString _ w) as [[e|] w1] eqn:E; [|by apply flush_sent]. exfalso. revert E.
  unfold WriteString. cbn [write_loop]. destruct Hc as [Ee Eb]. rewrite Ee, Eb. rewrite decide_False; [by rewrite Ee|].
  intros [Hlt _]. apply Nat.lt_nge in Hlt. apply Hlt. unfold buf_size. simpl. lia.
Qed.
End writing.

(** ** Reading *)

(** The complete lines of a stream, and what follows the last newline. *)
Fixpoint lines (s : string) : list string * string :=
  match s with
  | "" => ([], "")
  | String a s' =>
      let '(ls, rest) := lines s' in
      if decide (a = newline) then ("" :: ls, rest)
      else match ls with
           | [] => ([], String a rest)
           | l :: ls' => (String a l :: ls', rest)
           end
  end.

Section reading.
(** The text of a syntax error, which nothing depends on, and the error that ends the stream. *)
Context (syntax : string → string) (eof : string).

(** [json.Unmarshal] gets the line with its newline. *)
Definition line_of (t : string) : line :=
  mkLine t (match read (t +:+ nl) with Some v => inr v | None => inl (syntax t) end).

(** The [bufio.Reader] of a stream. *)
Definition reader_of (s : string) : Reader := mkReader (map line_of (lines s).1) eof.
End reading.

(** [ReadMessage] until it fails: the messages, and the error that ended it. *)
Fixpoint ReadMessages {T} `{JStruct T} (fuel : nat) (r : Reader) : list T * option string :=
  match fuel with
  | O => ([], None)
  | S fuel' =>
      let '((t, err), r) := ReadMessage r in
      match err with
      | Some _ => ([], err)
      | None => let '(l, err) := ReadMessages fuel' r in (t :: l, err)
      end
  end.

(** ** Lines *)

Definition no_newline (s : string) : Prop := all_chars (λ a, a ≠ newline) s.

Lemma lines_app t s : no_newline t → lines (t +:+ nl +:+ s) = (t :: (lines s).1, (lines s).2).
Proof.
  induction t as [|a t IH]; intros Ht.
  - change ("" +:+ nl +:+ s) with (String newline s). cbn [lines]. destruct (lines s). by rewrite decide_True.
  - destruct Ht as [Ha Ht]. rewrite str_app_cons. cbn [lines]. rewrite IH by done. by rewrite decide_False.
Qed.

Lemma lines_partial t : no_newline t → (lines t).1 = [].
Proof.
  induction t as [|a t IH]; intros Ht; [done|]. destruct Ht as [Ha Ht]. specialize (IH Ht). cbn [lines].
  destruct (lines t) as [ls r]. simpl in IH. subst. by rewrite decide_False.
Qed.

(** A value that can be written and read: UTF-8, integers, not nested too deep. *)
Definition wireable (v : json) : Prop := jtext v ∧ depth v ≤ max_depth.

Lemma print_no_newline v : wireable v → no_newline (print v).
Proof.
  intros [Hv _]. eapply all_chars_mono; [|by apply print_printable]. intros a Ha ->. by apply Ha.
Qed.

Lemma wire_app l1 l2 : wire (l1 ++ l2) = wire l1 +:+ wire l2.
Proof. induction l1 as [|v l IH]; [done|]. cbn [app wire foldr]. rewrite <-str_app_assoc. f_equal. apply IH. Qed.

Lemma lines_wire l s : Forall wireable l → (lines (wire l +:+ s)).1 = map print l ++ (lines s).1.
Proof.
  induction 1 as [|v l Hv Hl IH]; [done|]. cbn [wire foldr map app]. unfold message. rewrite <-!str_app_assoc.
  rewrite lines_app by (by apply print_no_newline). cbn [fst]. f_equal. apply IH.
Qed.

Lemma str_prefix_nil s : str_prefix s "" → s = "".
Proof. intros [t Ht]. destruct s; [done|]. by rewrite str_app_cons in Ht. Qed.

(** An initial segment of a line: all of it, or no line at all. *)
Lemma lines_prefix v s : wireable v → str_prefix s (message v) → (lines s).1 = [] ∨ (lines s).1 = [print v].
Proof.
  intros Hv. pose proof (print_no_newline v Hv) as Hn. unfold message. revert Hn. generalize (print v) as t. clear v Hv. intros t Hn.
  revert s. induction t as [|a t IH]; intros s [u Hu].
  - destruct s as [|b s]; [by left|]. rewrite str_app_cons in Hu. injection Hu as <- Hu. right.
    assert (s = "") as -> by (apply str_prefix_nil; by exists u). done.
  - destruct s as [|b s]; [by left|]. rewrite !str_app_cons in Hu. injection Hu as <- Hu. destruct Hn as [Ha Hn].
    specialize (IH Hn s ltac:(by exists u)). cbn [lines]. destruct (lines s) as [ls r]. rewrite decide_False by done.
    simpl in IH. destruct IH as [->| ->]; [by left|by right].
Qed.

Lemma str_app_inj (a b c : string) : a +:+ b = a +:+ c → b = c.
Proof. induction a as [|x a IH]; [done|]. rewrite !str_app_cons. intros [= E]. by apply IH. Qed.

(** A stream between the lines of [l] and those of [l] and one more. *)
Lemma lines_between l v s :
  Forall wireable l → wireable v → str_prefix (wire l) s → str_prefix s (wire (l ++ [v])) →
  ∃ k, (length l ≤ k ≤ S (length l))%nat ∧ (lines s).1 = map print (take k (l ++ [v])).
Proof.
  intros Hl Hv [t ->] [u Hu]. rewrite wire_app, <-str_app_assoc in Hu. apply str_app_inj in Hu.
  rewrite lines_wire by done. destruct (lines_prefix v t Hv) as [->| ->].
  { exists u. rewrite <-Hu. cbn [wire foldr]. by rewrite str_app_nil. }
  - exists (length l). split; [lia|]. by rewrite app_nil_r, take_app_length.
  - exists (S (length l)). split; [lia|]. rewrite take_ge by (rewrite length_app; simpl; lia). by rewrite map_app.
Qed.

(** ** Messages arrive *)

Lemma read_line_of syntax v : wireable v → l_json (line_of syntax (print v)) = inr v.
Proof. intros [Ht Hd]. simpl. by rewrite (read_print v nl Ht Hd). Qed.

Lemma ReadMessage_line {T} `{Codec T} syntax (t : T) ls e :
  j_valid t → wireable (Marshal t) →
  ReadMessage (T := T) (mkReader (line_of syntax (print (Marshal t)) :: ls) e) = ((t, None), mkReader ls e).
Proof.
  intros Hv Hw. unfold ReadMessage, read_line, unmarshal_line. cbn [r_lines r_end]. rewrite read_line_of by done.
  by rewrite codec_roundtrip.
Qed.

Lemma ReadMessages_lines {T} `{Codec T} syntax eof (l : list T) fuel :
  Forall j_valid l → Forall (λ t, wireable (Marshal t)) l → (length l < fuel)%nat →
  ReadMessages (T := T) fuel (mkReader (map (line_of syntax) (map print (map Marshal l))) eof) = (l, Some eof).
Proof.
  intros Hv. revert fuel. induction Hv as [|t l Ht Hv IH]; intros fuel Hw Hf; destruct fuel as [|fuel]; simpl in Hf; try lia; [done|].
  apply Forall_cons in Hw as [Hwt Hw]. cbn [map ReadMessages]. rewrite ReadMessage_line by done. rewrite IH by (done || lia). done.
Qed.

(** The bytes on the wire after some messages were written and the next one failed. *)
Lemma WriteMessages_spec {D} `{Destination D} {T} `{JEncode T} (l : list T) w :
  clean w →
  let '(n, err, w') := WriteMessages l w in
  match err with
  | None => n = length l ∧ clean w' ∧ dst_content (b_dst w') = dst_content (b_dst w) +:+ wire (map Marshal l)
  | Some _ => (n < length l)%nat ∧
      str_prefix (dst_content (b_dst w) +:+ wire (map Marshal (take n l))) (dst_content (b_dst w')) ∧
      str_prefix (dst_content (b_dst w')) (dst_content (b_dst w) +:+ wire (map Marshal (take (S n) l)))
  end.
Proof.
  revert w. induction l as [|t l IH]; intros w Hc; cbn [WriteMessages].
  { split; [done|]. split; [done|]. by rewrite str_app_nil. }
  pose proof (WriteMessage_sent t w Hc) as [E Hs]. destruct (WriteMessage t w) as [[e|] w1]; simpl in E, Hs.
  { destruct Hs as [H1 H2]. split; [simpl; lia|]. cbn [take map wire foldr]. by rewrite !str_app_nil. }
  destruct Hs as [Hc1 Hd1]. specialize (IH w1 Hc1). destruct (WriteMessages l w1) as [[n err] w'].
  rewrite Hd1, <-!str_app_assoc in IH. destruct err.
  - destruct IH as [Hn IH]. split; [simpl; lia|]. done.
  - destruct IH as (Hn & Hc' & IH). split; [simpl; lia|]. done.
Qed.

(** C18: Over any destination, what the reader at the other end gets is an initial segment of
    the messages written, in order and unchanged, then the end of the stream.  Every message
    whose [WriteMessage] returned nil is among them; of the one that failed nothing is seen,
    or all of it.  Bytes, buffering, escapes, UTF-8 and base64 are in between. *)
Theorem messages_arrive {D} `{Destination D} {T} `{Codec T} (l : list T) (d : D) syntax eof :
  Forall j_valid l → Forall (λ t, wireable (Marshal t)) l → dst_content d = "" →
  let '(n, err, w) := WriteMessages l (NewWriter d) in
  ∃ k, (n ≤ k ≤ S n)%nat ∧ (k ≤ length l)%nat ∧ (err = None → n = length l) ∧
    ∀ fuel, (k < fuel)%nat → ReadMessages fuel (reader_of syntax eof (dst_content (b_dst w))) = (take k l, Some eof).
Proof.
  intros Hv Hw Hd. assert (clean (NewWriter d)) as Hc by done. pose proof (WriteMessages_spec l _ Hc) as Hs.
  destruct (WriteMessages l (NewWriter d)) as [[n err] w]. cbn [NewWriter b_dst] in Hs. rewrite Hd in Hs.
  change ("" +:+ ?s) with s in Hs.
  enough (∃ k, (n ≤ k ≤ S n)%nat ∧ (k ≤ length l)%nat ∧ (err = None → n = length l) ∧
    (lines (dst_content (b_dst w))).1 = map print (map Marshal (take k l))) as (k & ? & ? & ? & E).
  { exists k. split_and!; [lia..|done|]. intros fuel Hf. unfold reader_of. rewrite E.
    apply ReadMessages_lines; [by apply Forall_take|by apply Forall_take|rewrite length_take; lia]. }
  assert (∀ m, Forall wireable (map Marshal (take m l))) as Hm.
  { intros m. apply Forall_fmap. by apply Forall_take. }
  destruct err as [e|].
  - destruct Hs as (Hn & Hlo & Hhi). destruct (lookup_lt_is_Some_2 l n Hn) as [t Ht].
    rewrite (take_S_r _ _ _ Ht), map_app in Hhi. cbn [map] in Hhi.
    destruct (lines_between (map Marshal (take n l)) (Marshal t) (dst_content (b_dst w))) as (k & Hk & E); [apply Hm| |done..|].
    { rewrite Forall_lookup in Hw. by eapply Hw. }
    rewrite length_map, length_take in Hk. exists k. split_and!; [lia..|done|].
    rewrite E. change [Marshal t] with (map Marshal [t]). rewrite <-map_app, <-(take_S_r _ _ _ Ht).
    f_equal. rewrite <-!(fmap_take Marshal). f_equal. rewrite take_take. f_equal. lia.
  - destruct Hs as (-> & _ & E). exists (length l). split_and!; [lia..|done|]. rewrite E, <-(str_app_nil (wire _)).
    rewrite lines_wire; [by rewrite app_nil_r, take_ge by done|]. rewrite <-(take_ge l (length l)) by done. apply Hm.
Qed.

(** ** A session on the wire *)

Section session.
Context {D : Type} `{Destination D}.

(** The client's side of the protocol overview in headers.go: the header, the three
    messages of the handshake, then envelopes; the first error ends it. *)
Definition client_session (start : ConnectionStartOK) (tune : ConnectionTuneOK) (envs : list Envelope) (w : Writer D) : option string * Writer D :=
  let then_ (res : option string * Writer D) (f : Writer D → option string * Writer D) :=
    match res.1 with Some _ => res | None => f res.2 end in
  then_ (WriteProtocolHeader w) (λ w,
  then_ (WriteMessage start w) (λ w,
  then_ (WriteMessage tune w) (λ w,
  then_ (WriteMessage NewConnectionOpen w) (λ w,
  let '(_, err, w) := WriteMessages envs w in (err, w))))).

Lemma client_session_bytes start tune envs w w' :
  clean w → client_session start tune envs w = (None, w') →
  dst_content (b_dst w') = dst_content (b_dst w) +:+ ProtocolHeader +:+ nl +:+
    wire (Marshal start :: Marshal tune :: Marshal NewConnectionOpen :: map Marshal envs).
Proof.
  intros Hc. unfold client_session.
  pose proof (WriteProtocolHeader_sent w Hc) as [_ S0]. destruct (WriteProtocolHeader w) as [[|] w0]; [done|].
  destruct S0 as [C0 D0]. cbn [fst snd] in *.
  pose proof (WriteMessage_sent start w0 C0) as [_ S1]. destruct (WriteMessage start w0) as [[|] w1]; [done|].
  destruct S1 as [C1 D1]. cbn [fst snd] in *.
  pose proof (WriteMessage_sent tune w1 C1) as [_ S2]. destruct (WriteMessage tune w1) as [[|] w2]; [done|].
  destruct S2 as [C2 D2]. cbn [fst snd] in *.
  pose proof (WriteMessage_sent NewConnectionOpen w2 C2) as [_ S3]. destruct (WriteMessage NewConnectionOpen w2) as [[|] w3]; [done|].
  destruct S3 as [C3 D3]. cbn [fst snd] in *.
  pose proof (WriteMessages_spec envs w3 C3) as S4. destruct (WriteMessages envs w3) as [[n err] w4]. intros [= -> ->].
  destruct S4 as (_ & _ & ->). rewrite D3, D2, D1, D0. cbn [wire foldr]. by rewrite <-!str_app_assoc.
Qed.
End session.


Lemma open_wireable : wireable (Marshal NewConnectionOpen).
Proof. split; [by repeat split|by vm_compute]. Qed.

Lemma header_no_newline : no_newline ProtocolHeader.
Proof. by repeat split. Qed.

Lemma session_lines vs :
  Forall wireable vs → (lines (ProtocolHeader +:+ nl +:+ wire vs)).1 = ProtocolHeader :: map print vs.
Proof.
  intros Hvs. rewrite lines_app by apply header_no_newline. cbn [fst]. f_equal.
  rewrite <-(str_app_nil (wire vs)), lines_wire by done. by rewrite app_nil_r.
Qed.

Lemma ReadProtocolHeader_line syntax ls e :
  ReadProtocolHeader (mkReader (line_of syntax ProtocolHeader :: ls) e) = (None, mkReader ls e).
Proof. done. Qed.

(** The handshake on the lines of a client. *)
Lemma handshake_of_lines cfg syntax eof (start : ConnectionStartOK) (tune : ConnectionTuneOK) ls :
  j_valid start → j_valid tune → wireable (Marshal start) → wireable (Marshal tune) →
  handshake cfg (mkReader (line_of syntax ProtocolHeader :: line_of syntax (print (Marshal start)) ::
    line_of syntax (print (Marshal tune)) :: line_of syntax (print (Marshal NewConnectionOpen)) :: ls) eof) =
  mkHandshakeResult None StateOpen
    [Marshal NewConnectionStart; Marshal (tune_of cfg); Marshal NewConnectionOpenOK] (mkReader ls eof).
Proof.
  intros Hst Htu Wst Wtu. unfold handshake. rewrite ReadProtocolHeader_line.
  rewrite (ReadMessage_line (T := ConnectionStartOK) syntax start) by done.
  rewrite (ReadMessage_line (T := ConnectionTuneOK) syntax tune) by done.
  by rewrite (ReadMessage_line (T := ConnectionOpen) syntax NewConnectionOpen) by (done || apply open_wireable).
Qed.

(** C19: When a client has written the header, the three messages of the handshake and some
    envelopes without an error, the broker's handshake on a new connection whose stream holds
    those bytes succeeds, answers with start, tune and open-ok, and leaves the connection open
    with exactly the client's envelopes to read. *)
Theorem session_arrives `{Oracle} {D} `{Destination D} start tune envs (d : D) w' syntax eof p cn w :
  j_valid start → j_valid tune → Forall j_valid envs →
  Forall wireable (Marshal start :: Marshal tune :: map Marshal envs) →
  dst_content d = "" → client_session start tune envs (NewWriter d) = (None, w') →
  w_conn w !! p = Some cn → cn_state cn = StateAwaitProtocolHeader → healthy cn →
  cn_reader cn = reader_of syntax eof (dst_content (b_dst w')) →
  ∃ cn', RunHandshake p w = Done None (upd_conn p cn' w) ∧ cn_state cn' = StateOpen ∧
    cn_out cn' = cn_out cn ++ [Marshal NewConnectionStart; Marshal (tune_of (w_config w)); Marshal NewConnectionOpenOK] ∧
    ∀ fuel, (length envs < fuel)%nat → ReadMessages fuel (cn_reader cn') = (envs, Some eof).
Proof.
  intros Hst Htu Hev Hwire Hd Hcl Hp Hs [Hc1 Hc2] Hr. apply Forall_cons in Hwire as [Wst Hwire]. apply Forall_cons in Hwire as [Wtu Wev].
  pose proof open_wireable as Wop.
  apply client_session_bytes in Hcl; [|done]. cbn [NewWriter b_dst] in Hcl. rewrite Hd, str_nil_app in Hcl.
  unfold reader_of in Hr. rewrite Hcl, session_lines in Hr by (do 3 (constructor; [done|]); done).
  assert (handshake (w_config w) (cn_reader cn) = mkHandshakeResult None StateOpen
    [Marshal NewConnectionStart; Marshal (tune_of (w_config w)); Marshal NewConnectionOpenOK]
    (mkReader (map (line_of syntax) (map print (map Marshal envs))) eof)) as Hh by (rewrite Hr; by apply handshake_of_lines).
  clear Hr Hcl. eexists. split; [rewrite <-(upd_conn_id p cn w Hp) at 1; rewrite RunHandshake_eq by done; rewrite Hh; reflexivity|].
  split; [done|]. split; [done|]. intros fuel Hf. cbn [hr_reader cn_reader set_reader].
  apply ReadMessages_lines; [done|exact (proj1 (Forall_fmap Marshal wireable envs) Wev)|done].
Qed.

(** ** The broker's side *)

(** Everything the connection has written is on the wire. *)
Definition on_wire {D} `{Destination D} (cn : Connection) (b : Writer D) : Prop :=
  clean b ∧ dst_content (b_dst b) = wire (cn_out cn).

Lemma shutdown_eq p cn w : shutdown p (upd_conn p cn w) = Done tt (upd_conn p (set_closed true cn) w).
Proof.
  unfold shutdown, get_conn, put_conn. rewrite (bind_deref _ _ _ cn) by apply upd_conn_lookup.
  apply (f_equal (Done _)), upd_conn_twice.
Qed.

(** The turn of the write pump on bytes implements the one of the model, for every
    destination: while writes succeed the socket holds the lines of the values in [cn_out]; the
    sender gets the error of the write or of the flush; after an error the connection is closed,
    and a peer sees the lines of the earlier messages and all or nothing of the last one. *)
Theorem pump_refines {D} `{Destination D} p v cn w (b : Writer D) :
  w_conn w !! p = Some cn → on_wire cn b → Forall wireable (cn_out cn ++ [v]) →
  let res := pump_turn (message v) b in
  cn_broken cn = res.1 →
  ∃ cn', writePump p v w = Done res.1 (upd_conn p cn' w) ∧
    match res.1 with
    | None => cn_out cn' = cn_out cn ++ [v] ∧ on_wire cn' res.2
    | Some _ => cn_closed cn' = true ∧ cn_pump cn' = false ∧ cn_out cn' = cn_out cn ∧
        ∃ k, (length (cn_out cn) ≤ k ≤ S (length (cn_out cn)))%nat ∧
          (lines (dst_content (b_dst res.2))).1 = map print (take k (cn_out cn ++ [v]))
    end.
Proof.
  intros Hp [Hc Hd] Hw res Hb. pose proof (pump_turn_sent (message v) b Hc) as [_ Hs]. fold res in Hs.
  unfold writePump, get_conn, put_conn. rewrite (bind_deref _ _ _ cn) by done. rewrite Hb.
  apply Forall_app in Hw as [Hws Hwv]. apply Forall_cons in Hwv as [Hwv _].
  destruct res as [[e|] b']; cbn [fst snd] in *.
  - eexists (set_closed true (set_pump false cn)). split.
    + rewrite bind_modify. erewrite bind_Done by apply shutdown_eq. reflexivity.
    + split_and!; [done..|]. rewrite Hd in Hs. apply lines_between; [done|done|apply Hs|]. rewrite wire_app. cbn [wire foldr].
      rewrite str_app_nil. apply Hs.
  - eexists (set_out (cn_out cn ++ [v]) cn). split; [by rewrite bind_modify|]. split; [done|]. destruct Hs as [Hc' Hd']. split; [done|].
    rewrite Hd', Hd. cbn [cn_out set_out]. rewrite wire_app. cbn [wire foldr]. by rewrite str_app_nil.
Qed.

(** ** Which messages can be written *)

Lemma ascii_utf8 s : all_chars (λ a, code a < 128) s → utf8 s = true.
Proof.
  unfold utf8. induction s as [|a s IH]; [done|]. intros [Ha Hs]. cbn [utf8_from rune_len]. rewrite decide_True by done. by apply IH.
Qed.

Lemma enc_char_ascii d : code (Base64.enc_char d) < 128.
Proof.
  unfold Base64.enc_char. generalize (Z.to_nat d) as n. intros n.
  assert (∀ s n, all_chars (λ a, code a < 128) s → code (default Ascii.zero (String.get n s)) < 128) as Hget.
  { clear. induction s as [|a s IH]; intros n Hs; [by destruct n|]. destruct Hs as [Ha Hs]. destruct n; [done|by apply IH]. }
  apply Hget. vm_compute. tauto.
Qed.

Lemma encode_utf8 l : utf8 (Base64.encode l) = true.
Proof.
  apply ascii_utf8. induction l as [|a|a b|a b c l IH] using Base64.list_ind3; [done|..].
  all: cbn [Base64.encode all_chars]; split_and!; try apply enc_char_ascii; done.
Qed.

Lemma bytes_text b : jtext (enc_bytes b).
Proof. destruct b; [apply encode_utf8|done]. Qed.

Lemma uint_text z : jtext (enc_uint z).
Proof. by exists z. Qed.

(** A publish with names in UTF-8, whatever its body. *)
Lemma publish_wireable ex key body :
  utf8 ex = true → utf8 key = true → wireable (Marshal (mkPublish ex key body)).
Proof.
  intros. split; [|by destruct body]. cbn [jtext Marshal encode_object JStruct_JEncode j_object Publish_json foldr].
  split_and!; done || apply bytes_text.
Qed.

(** An envelope around a payload. *)
Lemma envelope_wireable id req ty v :
  utf8 ty = true → jtext v → depth v < max_depth → wireable (Marshal (mkEnvelope id req ty (Some v))).
Proof.
  intros Hty Hv Hd. split.
  - cbn [jtext Marshal encode_object JStruct_JEncode j_object Envelope_json foldr]. split_and!; done || apply uint_text.
  - pose proof (depth_nonneg v).
    cbn [Marshal encode_object JStruct_JEncode j_object Envelope_json depth foldr default env_Payload]. unfold max_depth in *.
    change (depth (enc_uint _)) with 0. cbn [depth Datatypes.id]. lia.
Qed.

(** ** The claims at concrete streams *)

Section witnesses.
#[local] Existing Instance oracle_id.

(** Two publishes, and a disk that is full in the middle of the second. *)
Definition two_publishes : list Publish := [mkPublish "jobs" "k" (Some [Byte.x61]); mkPublish "jobs" "<k>" None].

Lemma messages_arrive_witness : ∃ w k,
  WriteMessages two_publishes (NewWriter (mkDisk 60 "")) = (1%nat, Some "no space left on device", w) ∧ (1 ≤ k ≤ 2)%nat ∧
  ReadMessages 3 (reader_of id "EOF" (dst_content (b_dst w))) = (take k two_publishes, Some "EOF").
Proof.
  assert (∃ w, WriteMessages two_publishes (NewWriter (mkDisk 60 "")) = (1%nat, Some "no space left on device", w)) as [w E]
    by (eexists; vm_compute; reflexivity).
  pose proof (messages_arrive (D := Disk) (T := Publish) two_publishes (mkDisk 60 "") id "EOF") as Ha. rewrite E in Ha.
  destruct Ha as (k & Hk & _ & _ & Hr).
  - repeat constructor.
  - repeat (constructor; [apply publish_wireable; reflexivity|]). constructor.
  - reflexivity.
  - exists w, k. split; [exact E|]. split; [exact Hk|]. apply Hr. lia.
Defined.

(** A client that opens a channel and publishes, over a disk with room. *)
Definition demo_start : ConnectionStartOK := NewConnectionStartOK "demo" "guest" "guest".
Definition demo_tune : ConnectionTuneOK := NewConnectionTuneOK 10 4096 30.
Definition demo_envs : list Envelope := [
  mkEnvelope 0 1 ChannelOpenType (Some (Marshal (mkChannelOpen 7)));
  mkEnvelope 7 2 BasicPublishType (Some (Marshal (mkPublish "jobs" "k" (Some [Byte.x61]))))].
Definition demo_stream : string := dst_content (b_dst (client_session demo_start demo_tune demo_envs (NewWriter (mkDisk 4000 ""))).2).
Definition demo_conn : Connection := mkConnection (reader_of id "EOF" demo_stream) [] ∅ StateAwaitProtocolHeader [] false true None.

Lemma demo_wireable : Forall wireable (Marshal demo_start :: Marshal demo_tune :: map Marshal demo_envs).
Proof.
  assert (∀ id req (ty : Method) (ex key : string), utf8 ty = true → utf8 ex = true → utf8 key = true →
    wireable (Marshal (mkEnvelope id req ty (Some (Marshal (mkPublish ex key (Some [Byte.x61]))))))) as Hpub.
  { intros. apply envelope_wireable; [done|by apply publish_wireable|by vm_compute]. }
  constructor; [|constructor; [|constructor; [|constructor; [by apply Hpub|constructor]]]].
  - split; [by repeat split|by vm_compute].
  - split; [|by vm_compute].
    cbn [jtext Marshal encode_object JStruct_JEncode j_object ConnectionTuneOK_json foldr]. split_and!; done || apply uint_text.
  - apply envelope_wireable; [done| |by vm_compute].
    cbn [jtext Marshal encode_object JStruct_JEncode j_object ChannelOpen_json foldr]. split_and!; done || apply uint_text.
Qed.

Lemma session_arrives_witness : ∃ cn',
  RunHandshake 0%nat (upd_conn 0%nat demo_conn accepted) = Done None (upd_conn 0%nat cn' (upd_conn 0%nat demo_conn accepted)) ∧
  cn_state cn' = StateOpen ∧ ReadMessages 3 (cn_reader cn') = (demo_envs, Some "EOF").
Proof.
  destruct (session_arrives demo_start demo_tune demo_envs (mkDisk 4000 "")
    (client_session demo_start demo_tune demo_envs (NewWriter (mkDisk 4000 ""))).2 id "EOF" 0%nat demo_conn
    (upd_conn 0%nat demo_conn accepted)) as (cn' & E & Hst & _ & Hr).
  - exact I.
  - vm_compute. repeat split; discriminate.
  - apply Forall_cons. split; [|apply Forall_cons; split; [|apply Forall_nil; exact I]]; vm_compute; (split_and!; try discriminate; eauto).
  - exact demo_wireable.
  - reflexivity.
  - vm_compute. reflexivity.
  - apply upd_conn_lookup.
  - reflexivity.
  - split; reflexivity.
  - reflexivity.
  - exists cn'. split; [exact E|]. split; [exact Hst|]. apply Hr. simpl. lia.
Defined.

Definition one_line : Connection := mkConnection (mkReader [] "EOF") [] ∅ StateOpen [] false true (Some "no space left on device").

Lemma pump_refines_witness : ∃ cn',
  writePump 0%nat (JStr "hello") (upd_conn 0%nat one_line accepted) =
    Done (Some "no space left on device") (upd_conn 0%nat cn' (upd_conn 0%nat one_line accepted)) ∧ cn_closed cn' = true.
Proof.
  destruct (pump_refines 0%nat (JStr "hello") one_line (upd_conn 0%nat one_line accepted) (NewWriter (mkDisk 3 "")))
    as (cn' & E & Hcl & _).
  - apply upd_conn_lookup.
  - split; [split; reflexivity|reflexivity].
  - constructor; [|constructor]. split; [reflexivity|by vm_compute].
  - vm_compute. reflexivity.
  - exists cn'. split; [exact E|exact Hcl].
Defined.
End witnesses.
