(* ===== verification/BenchTopology.v ===== *)
(** * The benchmark's plan (src/internal/bench/config.go, topology.go)

    The configuration of the load generator, its validation, and the resolution of
    a configuration into connections, channels with roles, and the goroutines
    placed on each channel.  Slots are shared between the connections and the two
    capability lists, so they live in a store and are referred to by their address.

    Go's [int] is 64 bits wide: sums and products of configuration values wrap. *)

From S2P Require Import Prelude.

(** ** Results of Go functions that return an error or panic *)

Inductive result (E A : Type) : Type :=
| Ok (a : A)
| Err (e : E)
| Crash.
Arguments Ok {E A} a.
Arguments Err {E A} e.
Arguments Crash {E A}.

#[export] Instance result_ret {E} : MRet (result E) := λ A a, Ok a.
#[export] Instance result_bind {E} : MBind (result E) := λ A B f m,
  match m with Ok a => f a | Err e => Err e | Crash => Crash end.

(** [if c { return err }] *)
Definition refuse_if {E} (c : bool) (e : E) : result E unit := if c then Err e else Ok tt.

(** [a[i]]: an index out of range panics. *)
Definition index {E A} (l : list A) (i : Z) : result E A :=
  if decide (0 ≤ i) then match l !! Z.to_nat i with Some x => Ok x | None => Crash end else Crash.

(** [a % b] and [a / b]: truncated, a zero divisor panics. *)
Definition go_rem {E} (a b : Z) : result E Z := if decide (b = 0) then Crash else Ok (Z.rem a b).
Definition go_quot {E} (a b : Z) : result E Z := if decide (b = 0) then Crash else Ok (Z.quot a b).

(** [make([]T, n)] and [make([]T, 0, n)] for elements of [elem] bytes: a negative length or
    one beyond the address space panics. *)
Definition max_alloc : Z := 2 ^ 48.
Definition make_len {E} (elem n : Z) : result E unit := if decide (0 ≤ n ∧ elem * n ≤ max_alloc) then Ok tt else Crash.

(** [for _, x := range l { s = f(s, x) }] with errors. *)
Fixpoint foldE {E S A} (f : S → A → result E S) (s : S) (l : list A) : result E S :=
  match l with
  | [] => Ok s
  | x :: l' => s' ← f s x; foldE f s' l'
  end.

(** ** Configuration *)

Definition Distribution : Type := string.
Definition DistEven : Distribution := "even".
Definition DistUneven : Distribution := "uneven".

(** Durations are in nanoseconds. *)
Record Config := mkConfig {
  cf_Addr : string;
  cf_Conns : Z; cf_PubConns : Z; cf_ConsConns : Z;
  cf_Channels : Z; cf_PubChannels : Z; cf_ConsChannels : Z;
  cf_ConnsDist : Distribution; cf_ChannelsDist : Distribution; cf_PubChannelsDist : Distribution;
  cf_MaxChannelsPerConn : Z; cf_MaxConsumersPerChannel : Z; cf_MaxPublishersPerChannel : Z;
  cf_Publishers : Z; cf_Consumers : Z; cf_Msgs : Z; cf_Size : Z; cf_Ack : bool; cf_Prefetch : Z;
  cf_Duration : Z; cf_Warmup : Z; cf_Report : Z; cf_DrainTimeout : Z;
  cf_Output : string; cf_Quiet : bool;
}.

Definition second : Z := 1000000000.

Definition DefaultConfig : Config :=
  mkConfig "127.0.0.1:5672" 1 0 0 1 0 0 DistEven DistEven DistEven 0 0 0
    1 1 1000 128 true 10 0 0 second (30 * second) "" false.

(** The errors, one constructor per message, with the values it prints. *)
Inductive ConfigError : Type :=
| EAddr
| EConns (got : Z) | EPubConns (got : Z) | EConsConns (got : Z)
| EConnRoles (sum conns : Z)
| EChannels (got : Z) | EPubChannels (got : Z) | EConsChannels (got : Z)
| EPublishers (got : Z) | EConsumers (got : Z) | EMsgs (got : Z) | ESize (min got : Z)
| EReport (got : Z) | EDrainTimeout (got : Z) | EWarmup (got : Z) | EDuration (got : Z)
| EConnsDist (got : Distribution) | EChannelsDist (got : Distribution) | EPubChannelsDist (got : Distribution)
| EUnevenConns (channels conns cap : Z)
| ECarving (carve mixed : Z)
| ENoConsumeCapable (consumers : Z) | ENoPublishCapable (publishers : Z)
| ENoSlots (slotsDesc : string) (count : Z) (noun : string)
| EDoNotFit (count : Z) (noun : string) (slots : Z) (slotsDesc : string) (cap : Z) (capFlag : string)
| EInvalidDistribution (mode : Distribution).

Definition valid_dist (d : Distribution) : bool := bool_decide (d = DistEven ∨ d = DistUneven).

Definition validateDistribution (c : Config) : result ConfigError unit :=
  refuse_if (negb (valid_dist (cf_ConnsDist c))) (EConnsDist (cf_ConnsDist c));;
  refuse_if (negb (valid_dist (cf_ChannelsDist c))) (EChannelsDist (cf_ChannelsDist c));;
  refuse_if (negb (valid_dist (cf_PubChannelsDist c))) (EPubChannelsDist (cf_PubChannelsDist c)).

(** ** The plan *)

Inductive ConnRole : Type := ConnMixed | ConnPublishOnly | ConnConsumeOnly.
Inductive Role : Type := RoleBoth | RolePublish | RoleConsume.

#[export] Instance ConnRole_eq_dec : EqDecision ConnRole.
Proof. solve_decision. Defined.
#[export] Instance Role_eq_dec : EqDecision Role.
Proof. solve_decision. Defined.

(** [Role.key] *)
Definition role_key (r : Role) : string :=
  match r with RoleBoth => "both" | RoleConsume => "cons" | RolePublish => "" end.

Record channelSlot := mkSlot {
  sl_Conn : Z;
  sl_Ch : Z;
  sl_GlobalIndex : Z;
  sl_Role : Role;
  sl_PubGoroutines : list Z;
  sl_ConsGoroutines : list Z;
  sl_publishCapIdx : Z;
}.

(** Addresses of slots. *)
Abbreviation slot := nat.

Record connPlan := mkConnPlan { cp_Conn : Z; cp_Role : ConnRole; cp_Channels : list slot }.

(** The topology and the store its slots live in. *)
Record Topology := mkTopology {
  t_Conns : list connPlan;
  t_publishCapable : list slot;
  t_consumeCapable : list slot;
  t_slots : list channelSlot;
}.

Definition set_Role (r : Role) (s : channelSlot) : channelSlot :=
  mkSlot (sl_Conn s) (sl_Ch s) (sl_GlobalIndex s) r (sl_PubGoroutines s) (sl_ConsGoroutines s) (sl_publishCapIdx s).
Definition set_capIdx (i : Z) (s : channelSlot) : channelSlot :=
  mkSlot (sl_Conn s) (sl_Ch s) (sl_GlobalIndex s) (sl_Role s) (sl_PubGoroutines s) (sl_ConsGoroutines s) i.
Definition add_pub (j : Z) (s : channelSlot) : channelSlot :=
  mkSlot (sl_Conn s) (sl_Ch s) (sl_GlobalIndex s) (sl_Role s) (sl_PubGoroutines s ++ [j]) (sl_ConsGoroutines s)
    (sl_publishCapIdx s).
Definition add_cons (j : Z) (s : channelSlot) : channelSlot :=
  mkSlot (sl_Conn s) (sl_Ch s) (sl_GlobalIndex s) (sl_Role s) (sl_PubGoroutines s) (sl_ConsGoroutines s ++ [j])
    (sl_publishCapIdx s).

(** *** Step 1: channels to connections *)

(** [chans[k] = append(chans[k], i)] *)
Definition append_at (chans : list (list Z)) (k i : Z) : result ConfigError (list (list Z)) :=
  l ← index chans k;
  Ok (<[Z.to_nat k := l ++ [i]]> chans).

Definition place_channels (c : Config) : result ConfigError (list (list Z)) :=
  let n := cf_Conns c in
  make_len 24 n;;
  let chans := replicate (Z.to_nat n) [] in
  if decide (cf_ConnsDist c = DistEven) then
    foldE (λ chans i, k ← go_rem i n; append_at chans k i) chans (seqZ 0 (cf_Channels c))
  else if decide (cf_ConnsDist c = DistUneven) then
    let capN := cf_MaxChannelsPerConn c in
    if decide (capN ≤ 0) then
      index chans 0;;
      make_len 8 (cf_Channels c);;
      Ok (<[0%nat := seqZ 0 (cf_Channels c)]> chans)
    else if decide (cf_Channels c > i64 (n * capN)) then Err (EUnevenConns (cf_Channels c) n capN)
    else foldE (λ chans i, k ← go_quot i capN; append_at chans k i) chans (seqZ 0 (cf_Channels c))
  else Ok chans.

(** *** Step 2: roles *)

Definition conn_role (c : Config) (i : Z) : ConnRole :=
  if decide (i < cf_PubConns c) then ConnPublishOnly
  else if decide (i < i64 (cf_PubConns c + cf_ConsConns c)) then ConnConsumeOnly
  else ConnMixed.

(** The role a new slot starts with: [RoleBoth] is the zero value. *)
Definition initial_role (r : ConnRole) : Role :=
  match r with ConnPublishOnly => RolePublish | ConnConsumeOnly => RoleConsume | ConnMixed => RoleBoth end.

(** The two nested loops that create the slots, connection by connection. *)
Fixpoint build_slots (c : Config) (cn : Z) (chans : list (list Z)) (slots : list channelSlot)
  : list connPlan * list channelSlot :=
  match chans with
  | [] => ([], slots)
  | gis :: chans' =>
      let new := imap (λ j gi, mkSlot cn (Z.of_nat j) gi (initial_role (conn_role c cn)) [] [] (-1)) gis in
      let cp := mkConnPlan cn (conn_role c cn) (seq (length slots) (length gis)) in
      let '(cps, slots') := build_slots c (cn + 1) chans' (slots ++ new) in
      (cp :: cps, slots')
  end.

Definition gi_of (slots : list channelSlot) (p : slot) : Z := from_option sl_GlobalIndex 0 (slots !! p).
Definition role_of (slots : list channelSlot) (p : slot) : Role := from_option sl_Role RoleBoth (slots !! p).
Definition conn_of (slots : list channelSlot) (p : slot) : Z := from_option sl_Conn 0 (slots !! p).

Definition gi_le (slots : list channelSlot) (p q : slot) : Prop := gi_of slots p ≤ gi_of slots q.

#[export] Instance gi_le_dec slots : RelDecision (gi_le slots).
Proof. unfold gi_le. intros p q. apply _. Defined.

(** [sort.Slice] by global index, on the addresses of all slots. *)
Definition sort_slots (slots : list channelSlot) : list slot :=
  merge_sort (gi_le slots) (seq 0 (length slots)).

(** Role stamping over the mixed slots. *)
Fixpoint stamp (pubLeft consLeft : Z) (mixed : list slot) (slots : list channelSlot) : list channelSlot :=
  match mixed with
  | [] => slots
  | p :: mixed' =>
      if decide (pubLeft > 0) then stamp (pubLeft - 1) consLeft mixed' (alter (set_Role RolePublish) p slots)
      else if decide (consLeft > 0) then stamp pubLeft (consLeft - 1) mixed' (alter (set_Role RoleConsume) p slots)
      else stamp pubLeft consLeft mixed' (alter (set_Role RoleBoth) p slots)
  end.

(** [for i, sl := range t.publishCapable { sl.publishCapIdx = i }] *)
Fixpoint number_caps (i : Z) (ps : list slot) (slots : list channelSlot) : list channelSlot :=
  match ps with
  | [] => slots
  | p :: ps' => number_caps (i + 1) ps' (alter (set_capIdx i) p slots)
  end.

(** *** Steps 3 and 4: goroutines to channels *)

Definition placeWorkers (count : Z) (ps : list slot) (mode : Distribution) (capN : Z)
    (noun slotsDesc capFlag : string) (assign : Z → channelSlot → channelSlot) (slots : list channelSlot)
  : result ConfigError (list channelSlot) :=
  let len := Z.of_nat (length ps) in
  if decide (count = 0) then Ok slots
  else if decide (len = 0) then Err (ENoSlots slotsDesc count noun)
  else if decide (mode = DistEven) then
    foldE (λ slots j, k ← go_rem j len; p ← index ps k; Ok (alter (assign j) p slots)) slots (seqZ 0 count)
  else if decide (mode = DistUneven) then
    if decide (capN ≤ 0) then
      foldE (λ slots j, p ← index ps 0; Ok (alter (assign j) p slots)) slots (seqZ 0 count)
    else if decide (count > i64 (len * capN)) then Err (EDoNotFit count noun len slotsDesc capN capFlag)
    else foldE (λ slots j, k0 ← go_quot j capN; k ← go_rem k0 len; p ← index ps k; Ok (alter (assign j) p slots))
           slots (seqZ 0 count)
  else Err (EInvalidDistribution mode).

Definition buildTopology (c : Config) (assignWorkers : bool) : result ConfigError Topology :=
  chans ← place_channels c;
  make_len 8 (cf_Conns c);;
  make_len 8 (cf_Channels c);;
  let '(conns, slots0) := build_slots c 0 chans [] in
  let all := sort_slots slots0 in
  let mixed := filter (λ p, conn_role c (conn_of slots0 p) = ConnMixed) all in
  let carve := i64 (cf_PubChannels c + cf_ConsChannels c) in
  refuse_if (bool_decide (carve > Z.of_nat (length mixed))) (ECarving carve (Z.of_nat (length mixed)));;
  let slots1 := stamp (cf_PubChannels c) (cf_ConsChannels c) mixed slots0 in
  let pubs := filter (λ p, role_of slots1 p = RolePublish ∨ role_of slots1 p = RoleBoth) all in
  let conss := filter (λ p, role_of slots1 p = RoleConsume ∨ role_of slots1 p = RoleBoth) all in
  let slots2 := number_caps 0 pubs slots1 in
  if negb assignWorkers then Ok (mkTopology conns pubs conss slots2) else
  refuse_if (bool_decide (cf_Consumers c > 0 ∧ length conss = 0%nat)) (ENoConsumeCapable (cf_Consumers c));;
  slots3 ← placeWorkers (cf_Consumers c) conss (cf_ChannelsDist c) (cf_MaxConsumersPerChannel c)
             "consumers" "consume-capable channels" "max-consumers-per-channel" add_cons slots2;
  refuse_if (bool_decide (cf_Publishers c > 0 ∧ length pubs = 0%nat)) (ENoPublishCapable (cf_Publishers c));;
  slots4 ← placeWorkers (cf_Publishers c) pubs (cf_PubChannelsDist c) (cf_MaxPublishersPerChannel c)
             "publishers" "publish-capable channels" "max-publishers-per-channel" add_pub slots3;
  Ok (mkTopology conns pubs conss slots4).

(** worker.go: [headerLen] *)
Definition headerLen : Z := 16.

Definition Validate (c : Config) : result ConfigError unit :=
  refuse_if (bool_decide (cf_Addr c = "")) EAddr;;
  refuse_if (bool_decide (cf_Conns c ≤ 0)) (EConns (cf_Conns c));;
  refuse_if (bool_decide (cf_PubConns c < 0)) (EPubConns (cf_PubConns c));;
  refuse_if (bool_decide (cf_ConsConns c < 0)) (EConsConns (cf_ConsConns c));;
  refuse_if (bool_decide (i64 (cf_PubConns c + cf_ConsConns c) > cf_Conns c))
    (EConnRoles (i64 (cf_PubConns c + cf_ConsConns c)) (cf_Conns c));;
  refuse_if (bool_decide (cf_Channels c ≤ 0)) (EChannels (cf_Channels c));;
  refuse_if (bool_decide (cf_PubChannels c < 0)) (EPubChannels (cf_PubChannels c));;
  refuse_if (bool_decide (cf_ConsChannels c < 0)) (EConsChannels (cf_ConsChannels c));;
  refuse_if (bool_decide (cf_Publishers c < 0)) (EPublishers (cf_Publishers c));;
  refuse_if (bool_decide (cf_Consumers c < 0)) (EConsumers (cf_Consumers c));;
  refuse_if (bool_decide (cf_Msgs c < 0)) (EMsgs (cf_Msgs c));;
  refuse_if (bool_decide (cf_Size c < headerLen)) (ESize headerLen (cf_Size c));;
  refuse_if (bool_decide (cf_Report c ≤ 0)) (EReport (cf_Report c));;
  refuse_if (bool_decide (cf_DrainTimeout c ≤ 0)) (EDrainTimeout (cf_DrainTimeout c));;
  refuse_if (bool_decide (cf_Warmup c < 0)) (EWarmup (cf_Warmup c));;
  refuse_if (bool_decide (cf_Duration c < 0)) (EDuration (cf_Duration c));;
  validateDistribution c;;
  buildTopology c true;;
  Ok tt.

Definition Build (c : Config) : result ConfigError Topology :=
  Validate c;;
  buildTopology c true.
