(* ===== verification/BenchPlacement.v ===== *)
(** * Placing items: the loops of the benchmark's plan

    The reference placement (round robin, packing, packing up to a cap), the shares
    it gives each place, and what the loops of topology.go compute: channels to
    connections, the slots they become, the updates of the slot store, goroutines
    to slots. *)

From S2P Require Import Prelude BenchTopology.

(** ** Loops *)

(** Splitting a list by the values of a function. *)
Lemma filter_lt_succ (f : Z → Z) (k : Z) (l : list Z) :
  filter (λ i, f i < k + 1) l ≡ₚ filter (λ i, f i < k) l ++ filter (λ i, f i = k) l.
Proof.
  induction l as [|x l IH]; [done|]. rewrite !filter_cons.
  destruct (decide (f x < k + 1)), (decide (f x < k)), (decide (f x = k)); try lia; rewrite IH; simpl; [done| |done].
  by rewrite Permutation_middle.
Qed.

Lemma buckets_perm (f : Z → Z) (n : nat) (l : list Z) :
  concat ((λ k, filter (λ i, f i = Z.of_nat k) l) <$> seq 0 n) ≡ₚ filter (λ i, f i < Z.of_nat n) (filter (λ i, 0 ≤ f i) l).
Proof.
  induction n as [|n IH].
  - simpl. symmetry. apply Permutation_nil_r. rewrite list_filter_filter. induction l as [|x l IH]; [done|].
    rewrite filter_cons_False; [done|lia].
  - rewrite seq_S, fmap_app, concat_app, IH. simpl. rewrite app_nil_r.
    replace (Z.of_nat (S n)) with (Z.of_nat n + 1) by lia. rewrite filter_lt_succ. f_equiv.
    rewrite list_filter_filter. apply reflexive_eq, list_filter_iff. intros x. lia.
Qed.

Lemma filter_all {A} (P : A → Prop) `{!∀ x, Decision (P x)} (l : list A) : (∀ x, x ∈ l → P x) → filter P l = l.
Proof.
  induction l as [|x l IH]; intros HP; [done|]. rewrite filter_cons_True by (apply HP; set_solver).
  f_equal. apply IH. set_solver.
Qed.

Lemma filter_none {A} (P : A → Prop) `{!∀ x, Decision (P x)} (l : list A) : (∀ x, x ∈ l → ~ P x) → filter P l = [].
Proof.
  induction l as [|x l IH]; intros HP; [done|]. rewrite filter_cons_False by (apply HP; set_solver).
  apply IH. set_solver.
Qed.

Lemma filter_ext_in {A} (P Q : A → Prop) `{!∀ x, Decision (P x), !∀ x, Decision (Q x)} (l : list A) :
  (∀ x, x ∈ l → P x ↔ Q x) → filter P l = filter Q l.
Proof.
  induction l as [|x l IH]; intros HP; [done|]. rewrite !filter_cons.
  rewrite (decide_ext (P x) (Q x)) by (apply HP; set_solver). rewrite IH by set_solver. done.
Qed.

Lemma buckets_all (f : Z → Z) (n : nat) (l : list Z) :
  (∀ i, i ∈ l → 0 ≤ f i < Z.of_nat n) →
  concat ((λ k, filter (λ i, f i = Z.of_nat k) l) <$> seq 0 n) ≡ₚ l.
Proof.
  intros Hf. rewrite buckets_perm, filter_all, filter_all; [done|..]; intros x; [|rewrite list_elem_of_filter]; naive_solver.
Qed.

(** A loop that appends each item to a bucket. *)
Lemma scatter_spec (body : list (list Z) → Z → result ConfigError (list (list Z))) (f : Z → Z) (l : list Z) chans :
  (∀ ch i, i ∈ l → length ch = length chans → body ch i = append_at ch (f i) i) →
  (∀ i, i ∈ l → 0 ≤ f i < Z.of_nat (length chans)) →
  ∃ chans', foldE body chans l = Ok chans' ∧ length chans' = length chans ∧
    ∀ k b, chans !! k = Some b → chans' !! k = Some (b ++ filter (λ i, f i = Z.of_nat k) l).
Proof.
  revert chans. induction l as [|x l IH]; intros chans Hb Hf.
  { exists chans. split_and!; [done..|]. intros k b ->. by rewrite filter_nil, app_nil_r. }
  simpl. rewrite Hb by set_solver. destruct (Hf x) as [Hx0 Hx]; [set_solver|].
  unfold append_at, index. rewrite decide_True by done.
  destruct (lookup_lt_is_Some_2 chans (Z.to_nat (f x))) as [b Hbx]; [lia|]. rewrite Hbx. simpl.
  destruct (IH (<[Z.to_nat (f x):=b ++ [x]]> chans)) as (chans' & E & Hlen & Hch).
  { intros ch i Hi Hl. apply Hb; [set_solver|]. by rewrite length_insert in Hl. }
  { intros i Hi. rewrite length_insert. apply Hf. set_solver. }
  exists chans'. rewrite length_insert in Hlen. split_and!; [done..|]. intros k b' Hk. rewrite filter_cons.
  destruct (decide (f x = Z.of_nat k)) as [Hfx|Hfx].
  - assert (k = Z.to_nat (f x)) as -> by lia. simplify_eq.
    rewrite (Hch _ (b ++ [x])), <-app_assoc; [done|]. apply list_lookup_insert_eq. lia.
  - apply Hch. rewrite list_lookup_insert_ne; [done|lia].
Qed.

(** ** Where an item goes *)

(** The reference placement: round robin, everything in the first place, or packed
    up to the cap. *)
Definition target (mode : Distribution) (capN len i : Z) : Z :=
  if decide (mode = DistEven) then i `mod` len else if decide (capN ≤ 0) then 0 else i `div` capN.

Lemma i64_le z : 0 ≤ z → i64 z ≤ z.
Proof. unfold i64. intros Hz. pose proof (Z.mod_le (z + 9223372036854775808) 18446744073709551616). lia. Qed.

(** What fits, fits: the check wraps around but never lets too much through. *)
Definition fits (mode : Distribution) (capN len count : Z) : Prop :=
  mode = DistEven ∨ capN ≤ 0 ∨ count ≤ len * capN.

Lemma target_range mode capN len count i :
  0 < len → fits mode capN len count → i ∈ seqZ 0 count → 0 ≤ target mode capN len i < len.
Proof.
  intros Hl Hf Hi%elem_of_seqZ. unfold target. case_decide as He; [by apply Z.mod_pos_bound|]. case_decide; [lia|].
  destruct Hf as [?|[?|Hc]]; [done|lia|]. split; [apply Z.div_pos; lia|].
  apply Z.div_lt_upper_bound; lia.
Qed.

Lemma round_robin_load (len k : Z) (m : nat) :
  0 ≤ k < len →
  Z.of_nat (length (filter (λ i, i `mod` len = k) (seqZ 0 (Z.of_nat m)))) = (Z.of_nat m + len - 1 - k) `div` len.
Proof.
  intros Hk. induction m as [|m IH].
  { simpl. symmetry. apply Z.div_small. lia. }
  rewrite Nat2Z.inj_succ, <-Z.add_1_r, seqZ_app, filter_app, length_app, Nat2Z.inj_add, IH by lia. clear IH.
  rewrite (seqZ_cons (0 + Z.of_nat m)) by lia. simpl. rewrite filter_cons. change (filter _ []) with (@nil Z).
  rewrite Z.add_0_l. set (n := Z.of_nat m). pose proof (Z.div_mod n len ltac:(lia)). pose proof (Z.mod_pos_bound n len ltac:(lia)).
  set (q := n `div` len) in *. set (r := n `mod` len) in *. case_decide as Hm; simpl.
  - rewrite <-(Z.div_unique_pos (n + len - 1 - k) len q (len - 1)), <-(Z.div_unique_pos _ len (q + 1) 0); lia.
  - assert (r < k ∨ k < r) as [Hlt|Hlt] by lia.
    + rewrite <-(Z.div_unique_pos (n + len - 1 - k) len q (r + len - 1 - k)),
        <-(Z.div_unique_pos _ len q (r + len - k)); lia.
    + rewrite <-(Z.div_unique_pos (n + len - 1 - k) len (q + 1) (r - 1 - k)),
        <-(Z.div_unique_pos _ len (q + 1) (r - k)); lia.
Qed.

(** The share of place [k]. *)
Definition share (mode : Distribution) (capN len count : Z) (k : nat) : list Z :=
  filter (λ i, target mode capN len i = Z.of_nat k) (seqZ 0 count).

Lemma share_even_balanced capN len count k k' :
  Z.of_nat k < len → Z.of_nat k' < len →
  Z.of_nat (length (share DistEven capN len count k)) ≤ Z.of_nat (length (share DistEven capN len count k')) + 1.
Proof.
  intros Hk Hk'. destruct (decide (0 ≤ count)) as [Hc|Hc]; [|unfold share; rewrite seqZ_nil by lia; simpl; lia].
  unfold share, target. rewrite <-(Z2Nat.id count) by done.
  repeat rewrite (list_filter_iff (λ i, (if decide (DistEven = DistEven) then _ else _) = _)
    (λ i, i `mod` len = _)) by (intros; by rewrite decide_True).
  rewrite !round_robin_load by lia. rewrite Z2Nat.id by done.
  transitivity ((count + len - 1 - Z.of_nat k' + 1 * len) `div` len); [apply Z.div_le_mono; lia|].
  rewrite Z.div_add by lia. lia.
Qed.

Lemma share_cap mode capN len count k :
  mode ≠ DistEven → 0 < capN → Z.of_nat (length (share mode capN len count k)) ≤ capN.
Proof.
  intros Hm Hc. unfold share, target. transitivity (Z.of_nat (Z.to_nat capN)); [apply inj_le|lia].
  rewrite <-(length_seqZ (Z.of_nat k * capN)). apply submseteq_length, NoDup_submseteq.
  { apply NoDup_filter, NoDup_seqZ. }
  intros i. rewrite list_elem_of_filter, !elem_of_seqZ. rewrite decide_False, decide_False by (done || lia).
  intros [Hi Hr]. pose proof (Z.div_mod i capN). pose proof (Z.mod_pos_bound i capN). nia.
Qed.

Lemma shares_perm mode capN len count (n : nat) :
  0 < len → len = Z.of_nat n → fits mode capN len count →
  concat (share mode capN len count <$> seq 0 n) ≡ₚ seqZ 0 count.
Proof. intros Hl -> Hf. apply buckets_all. intros i. by apply target_range. Qed.

(** ** Results *)

Lemma Ok_bind_eq {E A B} (a : A) (f : A → result E B) : (Ok a ≫= f) = f a.
Proof. done. Qed.

Lemma Ok_bind {E A B} (m : result E A) (f : A → result E B) b :
  m ≫= f = Ok b ↔ ∃ a, m = Ok a ∧ f a = Ok b.
Proof. destruct m; simpl; split; naive_solver. Qed.

Lemma refuse_if_Ok {E} (c : bool) (e : E) u : refuse_if c e = Ok u ↔ c = false.
Proof. destruct c, u; done. Qed.

Lemma safe_bind {E A B} (m : result E A) (f : A → result E B) :
  m ≠ Crash → (∀ a, m = Ok a → f a ≠ Crash) → m ≫= f ≠ Crash.
Proof. destruct m; simpl; naive_solver. Qed.

Lemma safe_refuse_if {E B} (c : bool) (e : E) (m : result E B) :
  (c = false → m ≠ Crash) → (refuse_if c e;; m) ≠ Crash.
Proof. destruct c; simpl; naive_solver. Qed.

Lemma go_rem_nonneg {E} a b : 0 ≤ a → 0 < b → go_rem (E:=E) a b = Ok (a `mod` b).
Proof. intros. unfold go_rem. rewrite decide_False by lia. by rewrite Z.rem_mod_nonneg by lia. Qed.

Lemma go_quot_nonneg {E} a b : 0 ≤ a → 0 < b → go_quot (E:=E) a b = Ok (a `div` b).
Proof. intros. unfold go_quot. rewrite decide_False by lia. by rewrite Z.quot_div_nonneg by lia. Qed.

(** ** Channels to connections *)

(** The slices of a plan fit the address space: one header per connection, one word per
    channel. *)
Definition plan_allocates (c : Config) : Prop :=
  24 * cf_Conns c ≤ max_alloc ∧ 8 * cf_Channels c ≤ max_alloc.

Lemma make_len_ok {E} elem n : 0 ≤ n → elem * n ≤ max_alloc → make_len (E:=E) elem n = Ok tt.
Proof. intros. unfold make_len. by rewrite decide_True. Qed.

Lemma make_len_Ok {E} elem n u : make_len (E:=E) elem n = Ok u → 0 ≤ n ∧ elem * n ≤ max_alloc.
Proof. unfold make_len. by case_decide. Qed.

Lemma place_channels_spec c :
  0 < cf_Conns c → 0 ≤ cf_Channels c → plan_allocates c → valid_dist (cf_ConnsDist c) = true →
  (∃ e, place_channels c = Err e) ∨
  (fits (cf_ConnsDist c) (cf_MaxChannelsPerConn c) (cf_Conns c) (cf_Channels c) ∧
   place_channels c = Ok (share (cf_ConnsDist c) (cf_MaxChannelsPerConn c) (cf_Conns c) (cf_Channels c)
                            <$> seq 0 (Z.to_nat (cf_Conns c)))).
Proof.
  intros Hn Hnn [Ha Hal] Hv%bool_decide_eq_true. unfold place_channels. rewrite (make_len_ok 24), Ok_bind_eq by lia.
  set (n := cf_Conns c) in *. set (cap := cf_MaxChannelsPerConn c). set (m := cf_Channels c).
  assert (∀ body, fits (cf_ConnsDist c) cap n m →
    (∀ ch i, i ∈ seqZ 0 m → length ch = Z.to_nat n → body ch i = append_at ch (target (cf_ConnsDist c) cap n i) i) →
    foldE body (replicate (Z.to_nat n) []) (seqZ 0 m) = Ok (share (cf_ConnsDist c) cap n m <$> seq 0 (Z.to_nat n)))
    as Hscatter.
  { intros body Hfit Hb. destruct (scatter_spec body (target (cf_ConnsDist c) cap n) (seqZ 0 m) (replicate (Z.to_nat n) []))
      as (chans & -> & Hlen & Hch); rewrite ?length_replicate in *; [done| |].
    { intros i Hi. rewrite Z2Nat.id by lia. by apply (target_range _ _ _ m). }
    f_equal. apply list_eq. intros k. rewrite list_lookup_fmap. destruct (decide (k < Z.to_nat n)%nat) as [Hk|Hk].
    - rewrite lookup_seq_lt by done. rewrite (Hch k []); [done|]. by apply lookup_replicate_2.
    - rewrite !lookup_ge_None_2; rewrite ?length_seq; [done|lia|lia]. }
  destruct Hv as [Hv|Hv].
  { rewrite decide_True by done. right. split; [by left|]. apply Hscatter; [by left|].
    intros ch i [Hi _]%elem_of_seqZ _. rewrite go_rem_nonneg by lia. simpl. unfold target. by rewrite decide_True. }
  rewrite decide_False, decide_True by (by rewrite Hv). case_decide as Hc.
  - right. split; [right; by left|]. rewrite (make_len_ok 8) by lia.
    destruct (Z.to_nat n) as [|n'] eqn:En; [lia|]. simpl. do 2 f_equal.
    + unfold share. rewrite filter_all; [done|]. intros i _. unfold target. rewrite decide_False by (by rewrite Hv). by rewrite decide_True.
    + symmetry. apply list_eq. intros k. rewrite list_lookup_fmap. destruct (decide (k < n')%nat) as [Hk|Hk].
      * rewrite lookup_seq_lt, lookup_replicate_2 by done. simpl. f_equal. unfold share. apply filter_none.
        intros i _. unfold target. rewrite decide_False by (by rewrite Hv). by rewrite decide_True.
      * by rewrite !lookup_ge_None_2 by (rewrite ?length_seq, ?length_replicate; lia).
  - case_decide as Hm; [by left; eexists|]. pose proof (i64_le (n * cap)) as Hw. right. split; [do 2 right; nia|].
    apply Hscatter; [do 2 right; nia|]. intros ch i [Hi _]%elem_of_seqZ _. rewrite go_quot_nonneg by lia. simpl.
    unfold target. by rewrite decide_False, decide_False by (done || by rewrite Hv).
Qed.

(** ** Slots *)

(** A slot as the two loops create it. *)
Definition fresh_slot (c : Config) (s : channelSlot) : Prop :=
  sl_Role s = initial_role (conn_role c (sl_Conn s)) ∧ sl_PubGoroutines s = [] ∧ sl_ConsGoroutines s = [] ∧
  sl_publishCapIdx s = -1.

(** The plan of a connection lists its own slots, numbered in order. *)
Definition conn_planned (c : Config) (slots : list channelSlot) (cn : Z) (gis : list Z) (cp : connPlan) : Prop :=
  cp_Conn cp = cn ∧ cp_Role cp = conn_role c cn ∧ gi_of slots <$> cp_Channels cp = gis ∧
  ∀ j p, cp_Channels cp !! j = Some p → ∃ s, slots !! p = Some s ∧ sl_Conn s = cn ∧ sl_Ch s = Z.of_nat j.

Lemma gi_of_app_l slots new p : (p < length slots)%nat → gi_of (slots ++ new) p = gi_of slots p.
Proof. intros. unfold gi_of. by rewrite lookup_app_l. Qed.

Lemma conn_planned_app c slots new cn gis cp :
  (∀ p, p ∈ cp_Channels cp → (p < length slots)%nat) →
  conn_planned c slots cn gis cp → conn_planned c (slots ++ new) cn gis cp.
Proof.
  intros Hp (? & ? & Hg & Hj). split_and!; [done..| |].
  - rewrite <-Hg. apply list_fmap_ext. intros i p Hi. apply gi_of_app_l, Hp. by eapply list_elem_of_lookup_2.
  - intros j p Hjp. destruct (Hj _ _ Hjp) as (s & Hs & ?). exists s. split; [|done]. by apply lookup_app_l_Some.
Qed.

Lemma new_conn_planned c cn gis slots role :
  conn_planned c (slots ++ imap (λ j gi, mkSlot cn (Z.of_nat j) gi role [] [] (-1)) gis) cn gis
    (mkConnPlan cn (conn_role c cn) (seq (length slots) (length gis))).
Proof.
  split_and!; [done..| |]; simpl.
  - apply list_eq. intros j. rewrite list_lookup_fmap. destruct (decide (j < length gis)%nat) as [Hj|Hj].
    + rewrite lookup_seq_lt by done. simpl. unfold gi_of. rewrite lookup_app_r, list_lookup_imap by lia.
      replace (length slots + j - length slots)%nat with j by lia.
      destruct (lookup_lt_is_Some_2 gis j Hj) as [gi ->]. done.
    + by rewrite !lookup_ge_None_2 by (rewrite ?length_seq; lia).
  - intros j p [-> Hj]%lookup_seq. rewrite lookup_app_r, list_lookup_imap by lia.
    replace (length slots + j - length slots)%nat with j by lia.
    destruct (lookup_lt_is_Some_2 gis j Hj) as [gi ->]. eexists. split; [done|]. done.
Qed.

Lemma build_slots_spec c cn chans slots cps slots' :
  build_slots c cn chans slots = (cps, slots') →
  ∃ new, slots' = slots ++ new ∧ sl_GlobalIndex <$> new = concat chans ∧ Forall (fresh_slot c) new ∧
    concat (cp_Channels <$> cps) = seq (length slots) (length new) ∧
    length cps = length chans ∧
    ∀ k gis, chans !! k = Some gis → ∃ cp, cps !! k = Some cp ∧ conn_planned c slots' (cn + Z.of_nat k) gis cp.
Proof.
  revert cn slots cps slots'. induction chans as [|gis chans IH]; intros cn slots cps slots'; simpl.
  { intros [= <- <-]. exists []. by rewrite app_nil_r. }
  set (new1 := imap _ gis). destruct (build_slots c (cn + 1) chans (slots ++ new1)) as [cps1 slots1] eqn:E.
  intros [= <- <-]. destruct (IH _ _ _ _ E) as (new & -> & Hgi & Hfr & Hseq & Hlen & Hk).
  assert (length new1 = length gis) as Hl1 by apply length_imap.
  exists (new1 ++ new). rewrite app_assoc. split_and!; [done|..].
  - rewrite fmap_app, Hgi. f_equal. unfold new1. rewrite fmap_imap. apply list_eq. intros i.
    rewrite list_lookup_imap. by destruct (gis !! i).
  - apply Forall_app. split; [|done]. apply Forall_lookup. intros i s. unfold new1. rewrite list_lookup_imap.
    intros (gi & _ & ->)%fmap_Some. done.
  - change (seq (length slots) (length gis) ++ concat (cp_Channels <$> cps1) = seq (length slots) (length (new1 ++ new))).
    by rewrite Hseq, !length_app, Hl1, seq_app.
  - simpl. by rewrite Hlen.
  - intros [|k] gis'; simpl.
    + intros [= <-]. eexists. split; [done|]. rewrite Z.add_0_r. apply conn_planned_app; [|apply new_conn_planned].
      intros p Hp%elem_of_seq. rewrite length_app, Hl1. lia.
    + intros Hg. destruct (Hk _ _ Hg) as (cp & ? & ?). exists cp. split; [done|].
      by replace (cn + Z.of_nat (S k)) with (cn + 1 + Z.of_nat k) by lia.
Qed.

(** ** Updates of the slot store *)

Lemma fmap_alter_same {B} (g : channelSlot → B) f p (slots : list channelSlot) :
  (∀ s, g (f s) = g s) → g <$> alter f p slots = g <$> slots.
Proof.
  intros Hg. apply list_eq. intros i. rewrite !list_lookup_fmap. destruct (decide (p = i)) as [->|Hp].
  - rewrite list_lookup_alter_eq. destruct (slots !! i); simpl; congruence.
  - by rewrite list_lookup_alter_ne.
Qed.

(** The loops that update each slot of a list once. *)
Fixpoint alter_each (h : nat → channelSlot → channelSlot) (ps : list slot) (slots : list channelSlot) : list channelSlot :=
  match ps with
  | [] => slots
  | p :: ps' => alter_each (λ k, h (S k)) ps' (alter (h 0%nat) p slots)
  end.

Lemma alter_each_view {B} (g : channelSlot → B) h ps slots :
  (∀ k s, g (h k s) = g s) → g <$> alter_each h ps slots = g <$> slots.
Proof.
  revert h slots. induction ps as [|p ps IH]; intros h slots Hg; [done|]. simpl.
  rewrite IH by (intros; apply Hg). apply fmap_alter_same. intros; apply Hg.
Qed.

Lemma alter_each_out h ps slots p : p ∉ ps → alter_each h ps slots !! p = slots !! p.
Proof.
  revert h slots. induction ps as [|q ps IH]; intros h slots Hp; [done|]. simpl.
  rewrite IH by set_solver. apply list_lookup_alter_ne. set_solver.
Qed.

Lemma alter_each_in h ps slots k p :
  NoDup ps → ps !! k = Some p → alter_each h ps slots !! p = h k <$> slots !! p.
Proof.
  revert h slots k. induction ps as [|q ps IH]; intros h slots k Hn Hk; [done|].
  apply NoDup_cons in Hn as [Hq Hps]. destruct k as [|k]; simplify_eq/=.
  - by rewrite alter_each_out, list_lookup_alter_eq.
  - rewrite (IH _ _ k Hps Hk). rewrite list_lookup_alter_ne; [done|]. intros ->. by apply list_elem_of_lookup_2 in Hk.
Qed.

(** The role the [i]-th mixed slot is stamped with. *)
Definition carved_role (pub cons i : Z) : Role :=
  if decide (i < pub) then RolePublish else if decide (i < pub + cons) then RoleConsume else RoleBoth.

Lemma alter_each_ext h h' ps slots : (∀ k s, h k s = h' k s) → alter_each h ps slots = alter_each h' ps slots.
Proof.
  revert h h' slots. induction ps as [|p ps IH]; intros h h' slots Hh; [done|]. simpl.
  rewrite (IH _ (λ k, h' (S k))) by done. f_equal. by apply list_alter_ext; [intros ? _|].
Qed.

Lemma stamp_each pub cons mixed slots :
  0 ≤ pub → 0 ≤ cons →
  stamp pub cons mixed slots = alter_each (λ i, set_Role (carved_role pub cons (Z.of_nat i))) mixed slots.
Proof.
  revert pub cons slots. induction mixed as [|p mixed IH]; intros pub cons slots Hp Hc; [done|]. simpl.
  case_decide; [|case_decide]; rewrite IH by lia.
  all: match goal with |- alter_each _ _ (alter (set_Role ?r) _ _) = _ =>
    assert (carved_role pub cons (Z.of_nat 0) = r) as -> by (unfold carved_role; repeat case_decide; done || lia) end.
  all: apply alter_each_ext; intros k s; f_equal; unfold carved_role; repeat case_decide; done || lia.
Qed.

Lemma number_caps_each i ps slots : number_caps i ps slots = alter_each (λ k, set_capIdx (i + Z.of_nat k)) ps slots.
Proof.
  revert i slots. induction ps as [|p ps IH]; intros i slots; [done|]. simpl. rewrite Z.add_0_r, IH.
  apply alter_each_ext. intros k s. f_equal. lia.
Qed.

(** ** Goroutines to channels *)

(** The slots after each item of [l] was assigned to the place [f] gives. *)
Lemma place_loop (body : list channelSlot → Z → result ConfigError (list channelSlot)) (assign : Z → channelSlot → channelSlot)
    (ps : list slot) (f : Z → Z) (l : list Z) slots :
  (∀ sl j, j ∈ l → body sl j = (p ← index ps (f j); Ok (alter (assign j) p sl))) →
  (∀ j, j ∈ l → 0 ≤ f j < Z.of_nat (length ps)) →
  ∃ slots', foldE body slots l = Ok slots' ∧ ∀ p, slots' !! p =
    (λ s, foldl (λ s j, assign j s) s (filter (λ j, ps !! Z.to_nat (f j) = Some p) l)) <$> slots !! p.
Proof.
  revert slots. induction l as [|j l IH]; intros slots Hb Hf.
  { exists slots. split; [done|]. intros p. simpl. by destruct (slots !! p). }
  simpl. rewrite Hb by set_solver. destruct (Hf j) as [Hj0 Hj]; [set_solver|]. unfold index. rewrite decide_True by done.
  destruct (lookup_lt_is_Some_2 ps (Z.to_nat (f j))) as [q Hq]; [lia|]. rewrite Hq. simpl.
  destruct (IH (alter (assign j) q slots)) as (slots' & -> & Hs); [intros; apply Hb; set_solver|intros; apply Hf; set_solver|].
  exists slots'. split; [done|]. intros p. rewrite Hs, filter_cons. destruct (decide (Some q = Some p)) as [Hqp|Hqp].
  - simplify_eq. rewrite list_lookup_alter_eq, <-option_fmap_compose. rewrite decide_True by done. done.
  - rewrite list_lookup_alter_ne by congruence. rewrite decide_False by congruence. done.
Qed.

(** The slots after [count] goroutines were placed. *)
Definition workers_placed (mode : Distribution) (capN count : Z) (ps : list slot)
    (assign : Z → channelSlot → channelSlot) (slots slots' : list channelSlot) : Prop :=
  let len := Z.of_nat (length ps) in
  (0 < count → 0 < len) ∧ fits mode capN len count ∧
  ∀ p, slots' !! p = (λ s, foldl (λ s j, assign j s) s
    (filter (λ j, ps !! Z.to_nat (target mode capN len j) = Some p) (seqZ 0 count))) <$> slots !! p.

Lemma place_targets (body : list channelSlot → Z → result ConfigError (list channelSlot)) mode capN count ps assign slots :
  let len := Z.of_nat (length ps) in
  0 < len → fits mode capN len count →
  (∀ sl j, j ∈ seqZ 0 count → body sl j = (p ← index ps (target mode capN len j); Ok (alter (assign j) p sl))) →
  ∃ slots', foldE body slots (seqZ 0 count) = Ok slots' ∧ workers_placed mode capN count ps assign slots slots'.
Proof.
  intros len Hl Hfit Hb.
  destruct (place_loop body assign ps (target mode capN len) (seqZ 0 count) slots Hb) as (slots' & ? & ?).
  - intros j Hj. by apply (target_range _ _ _ count).
  - by exists slots'.
Qed.

Lemma placeWorkers_spec count ps mode capN noun desc flag assign slots :
  0 ≤ count → valid_dist mode = true →
  (∃ e, placeWorkers count ps mode capN noun desc flag assign slots = Err e) ∨
  ∃ slots', placeWorkers count ps mode capN noun desc flag assign slots = Ok slots' ∧
    workers_placed mode capN count ps assign slots slots'.
Proof.
  intros Hc Hv%bool_decide_eq_true. unfold placeWorkers. set (len := Z.of_nat (length ps)). case_decide as H0.
  { right. exists slots. subst. split; [done|]. split_and!; [intros ?; lia|right; destruct (decide (capN ≤ 0)); [lia|nia]|]. intros p. simpl. by destruct (slots !! p). }
  case_decide as Hl; [by left; eexists|]. assert (0 < len) as Hpos by lia. destruct Hv as [Hv|Hv].
  { rewrite decide_True by done. right. apply place_targets; [done|by left|]. intros sl j [Hj _]%elem_of_seqZ.
    rewrite go_rem_nonneg by lia. unfold target. by rewrite decide_True. }
  assert (mode ≠ DistEven) as Hne by (by rewrite Hv). rewrite decide_False, decide_True by done. case_decide as Hcap.
  { right. apply place_targets; [done|right; by left|]. intros sl j _. unfold target. by rewrite decide_False, decide_True. }
  case_decide as Hm; [by left; eexists|]. pose proof (i64_le (len * capN)) as Hw.
  assert (fits mode capN len count) as Hfit by (do 2 right; nia). right. apply place_targets; [done..|]. intros sl j Hj.
  pose proof (target_range _ _ _ _ j Hpos Hfit Hj) as Ht. apply elem_of_seqZ in Hj. fold len.
  unfold target in *. rewrite decide_False, decide_False in * by done.
  rewrite go_quot_nonneg by lia. simpl. rewrite go_rem_nonneg by lia. by rewrite Z.mod_small.
Qed.

(** The goroutines of the [i]-th place are its share. *)
Lemma placed_share mode capN count (ps : list slot) i p :
  let len := Z.of_nat (length ps) in
  NoDup ps → fits mode capN len count → ps !! i = Some p →
  filter (λ j, ps !! Z.to_nat (target mode capN len j) = Some p) (seqZ 0 count) = share mode capN len count i.
Proof.
  intros len Hn Hf Hi. apply filter_ext_in. intros j Hj.
  pose proof (lookup_lt_Some _ _ _ Hi) as Hlt.
  assert (0 < len) as Hpos by lia. pose proof (target_range _ _ _ _ j Hpos Hf Hj) as Ht. split.
  - intros Hp. pose proof (NoDup_lookup _ _ _ _ Hn Hi Hp). lia.
  - intros ->. by rewrite Nat2Z.id.
Qed.

Lemma foldl_add_cons s l :
  foldl (λ s j, add_cons j s) s l =
  mkSlot (sl_Conn s) (sl_Ch s) (sl_GlobalIndex s) (sl_Role s) (sl_PubGoroutines s) (sl_ConsGoroutines s ++ l) (sl_publishCapIdx s).
Proof.
  revert s. induction l as [|j l IH]; intros s; simpl; [rewrite app_nil_r; by destruct s|].
  rewrite IH. simpl. by rewrite <-app_assoc.
Qed.

Lemma foldl_add_pub s l :
  foldl (λ s j, add_pub j s) s l =
  mkSlot (sl_Conn s) (sl_Ch s) (sl_GlobalIndex s) (sl_Role s) (sl_PubGoroutines s ++ l) (sl_ConsGoroutines s) (sl_publishCapIdx s).
Proof.
  revert s. induction l as [|j l IH]; intros s; simpl; [rewrite app_nil_r; by destruct s|].
  rewrite IH. simpl. by rewrite <-app_assoc.
Qed.
