(* ===== verification/BenchPlan.v ===== *)
(** * Properties of the benchmark's plan

    Every channel and every goroutine is placed exactly once, in order and within
    the caps; roles are carved in global order; and a configuration is refused with
    an error or resolved, with a panic only where [make] exceeds the address space. *)

From S2P Require Import Prelude BenchTopology BenchPlacement.

(** ** The sorted slots *)

Lemma gi_of_fmap slots slots' p : sl_GlobalIndex <$> slots = sl_GlobalIndex <$> slots' → gi_of slots p = gi_of slots' p.
Proof.
  intros He. unfold gi_of. apply (f_equal (lookup p)) in He. rewrite !list_lookup_fmap in He.
  destruct (slots !! p), (slots' !! p); naive_solver.
Qed.

Lemma gi_of_all slots : gi_of slots <$> seq 0 (length slots) = sl_GlobalIndex <$> slots.
Proof.
  apply list_eq. intros i. rewrite !list_lookup_fmap. unfold gi_of. destruct (decide (i < length slots)%nat) as [Hi|Hi].
  - rewrite lookup_seq_lt by done. simpl. destruct (lookup_lt_is_Some_2 _ _ Hi) as [s ->]. done.
  - by rewrite !lookup_ge_None_2 by (rewrite ?length_seq; lia).
Qed.

Lemma sort_slots_perm slots : sort_slots slots ≡ₚ seq 0 (length slots).
Proof. apply merge_sort_Permutation. Qed.

Lemma NoDup_sort_slots slots : NoDup (sort_slots slots).
Proof. rewrite sort_slots_perm. apply NoDup_seq. Qed.

Lemma seqZ_StronglySorted m n : StronglySorted Z.lt (seqZ m n).
Proof.
  destruct (decide (n ≤ 0)); [rewrite seqZ_nil by lia; constructor|].
  rewrite <-(Z2Nat.id n) by lia. generalize (Z.to_nat n) as k. clear. intros k. revert m. induction k as [|k IH]; intros m; [constructor|].
  rewrite seqZ_cons by lia. constructor; [|apply Forall_forall; intros x ?%elem_of_seqZ; lia].
  replace (Z.pred (Z.of_nat (S k))) with (Z.of_nat k) by lia. apply IH.
Qed.

(** Sorted, the slots run through all global indices in order. *)
Lemma sort_slots_spec slots n :
  sl_GlobalIndex <$> slots ≡ₚ seqZ 0 n → gi_of slots <$> sort_slots slots = seqZ 0 n.
Proof.
  intros Hp. apply (Sorted_unique Z.le).
  - eapply Sorted_fmap; [|apply Sorted_merge_sort; intros p q; unfold gi_le; lia]. done.
  - apply StronglySorted_Sorted. rewrite <-(list_fmap_id (seqZ 0 n)).
    eapply StronglySorted_fmap; [|apply seqZ_StronglySorted]. simpl. intros; lia.
  - by rewrite sort_slots_perm, gi_of_all.
Qed.

Lemma StronglySorted_fmap_filter {A B} (R : relation B) (f : A → B) (P : A → Prop) `{!∀ x, Decision (P x)} (l : list A) :
  StronglySorted R (f <$> l) → StronglySorted R (f <$> filter P l).
Proof.
  induction l as [|x l IH]; [done|]. rewrite fmap_cons. inversion_clear 1 as [|? ? Hl Hx]. rewrite filter_cons.
  case_decide; [|by apply IH]. rewrite fmap_cons. constructor; [by apply IH|]. rewrite Forall_forall in *.
  intros y (z & -> & [_ Hz]%list_elem_of_filter)%list_elem_of_fmap. by apply Hx, list_elem_of_fmap_2.
Qed.

(** ** The plan, stage by stage *)

(** What the scalar checks of [Validate] establish and the plan relies on. *)
Record config_ok (c : Config) : Prop := mkConfigOk {
  ok_Conns : 0 < cf_Conns c;
  ok_Channels : 0 < cf_Channels c;
  ok_PubChannels : 0 ≤ cf_PubChannels c;
  ok_ConsChannels : 0 ≤ cf_ConsChannels c;
  ok_Publishers : 0 ≤ cf_Publishers c;
  ok_Consumers : 0 ≤ cf_Consumers c;
  ok_ConnsDist : valid_dist (cf_ConnsDist c) = true;
  ok_ChannelsDist : valid_dist (cf_ChannelsDist c) = true;
  ok_PubChannelsDist : valid_dist (cf_PubChannelsDist c) = true;
}.

Definition channel_shares (c : Config) : list (list Z) :=
  share (cf_ConnsDist c) (cf_MaxChannelsPerConn c) (cf_Conns c) (cf_Channels c) <$> seq 0 (Z.to_nat (cf_Conns c)).

(** The mixed slots, in global order. *)
Definition mixed_slots (c : Config) (slots : list channelSlot) : list slot :=
  filter (λ p, conn_role c (conn_of slots p) = ConnMixed) (sort_slots slots).

Definition publish_capable (slots0 slots1 : list channelSlot) : list slot :=
  filter (λ p, role_of slots1 p = RolePublish ∨ role_of slots1 p = RoleBoth) (sort_slots slots0).
Definition consume_capable (slots0 slots1 : list channelSlot) : list slot :=
  filter (λ p, role_of slots1 p = RoleConsume ∨ role_of slots1 p = RoleBoth) (sort_slots slots0).

(** The stages a plan goes through: slots created, stamped with roles, numbered,
    given consumers, given publishers. *)
Record staged (c : Config) (t : Topology) (slots0 slots1 slots3 : list channelSlot) : Prop := mkStaged {
  st_fits : fits (cf_ConnsDist c) (cf_MaxChannelsPerConn c) (cf_Conns c) (cf_Channels c);
  st_built : build_slots c 0 (channel_shares c) [] = (t_Conns t, slots0);
  st_roles : slots1 = stamp (cf_PubChannels c) (cf_ConsChannels c) (mixed_slots c slots0) slots0;
  st_pubs : t_publishCapable t = publish_capable slots0 slots1;
  st_conss : t_consumeCapable t = consume_capable slots0 slots1;
  st_cons : workers_placed (cf_ChannelsDist c) (cf_MaxConsumersPerChannel c) (cf_Consumers c) (t_consumeCapable t)
              add_cons (number_caps 0 (t_publishCapable t) slots1) slots3;
  st_pub : workers_placed (cf_PubChannelsDist c) (cf_MaxPublishersPerChannel c) (cf_Publishers c) (t_publishCapable t)
             add_pub slots3 (t_slots t);
}.

(** Building a plan of a checked configuration ends in an error or goes through the stages. *)
Lemma buildTopology_spec c :
  config_ok c → plan_allocates c →
  (∃ e, buildTopology c true = Err e) ∨
  ∃ t slots0 slots1 slots3, buildTopology c true = Ok t ∧ staged c t slots0 slots1 slots3.
Proof.
  intros [] [Ha Hb]. unfold buildTopology.
  destruct (place_channels_spec c) as [[e ->]|[Hfit ->]]; [done|lia|done|done|by left; eexists|].
  rewrite Ok_bind_eq, !make_len_ok, !Ok_bind_eq by lia. fold (channel_shares c).
  destruct (build_slots c 0 (channel_shares c) []) as [conns slots0] eqn:E0. fold (mixed_slots c slots0).
  destruct (refuse_if _ (ECarving _ _)) eqn:E1; [|by left; eexists|by destruct (bool_decide _)]. clear E1. simpl.
  set (slots1 := stamp _ _ _ _). fold (publish_capable slots0 slots1). fold (consume_capable slots0 slots1).
  destruct (refuse_if _ (ENoConsumeCapable _)) eqn:E1; [|by left; eexists|by destruct (bool_decide _)]. clear E1. simpl.
  match goal with |- context [placeWorkers ?n ?ps ?m ?cap ?a ?b ?f add_cons ?sl] =>
    destruct (placeWorkers_spec n ps m cap a b f add_cons sl) as [[e ->]|(slots3 & -> & Hc)] end; [done..|by left; eexists|]. simpl.
  destruct (refuse_if _ (ENoPublishCapable _)) eqn:E1; [|by left; eexists|by destruct (bool_decide _)]. clear E1. simpl.
  match goal with |- context [placeWorkers ?n ?ps ?m ?cap ?a ?b ?f add_pub ?sl] =>
    destruct (placeWorkers_spec n ps m cap a b f add_pub sl) as [[e ->]|(slots4 & -> & Hp)] end; [done..|by left; eexists|]. simpl.
  right. eexists _, slots0, slots1, slots3. split; [done|]. by constructor.
Qed.

(** A plan that was built was allocated. *)
Lemma buildTopology_allocates c b t : buildTopology c b = Ok t → plan_allocates c.
Proof.
  unfold buildTopology. intros (chans & Hp & ([] & _ & ([] & Hch%make_len_Ok & _)%Ok_bind)%Ok_bind)%Ok_bind.
  unfold place_channels in Hp. apply Ok_bind in Hp as ([] & Hn%make_len_Ok & _). split; lia.
Qed.

Lemma validateDistribution_spec c u :
  validateDistribution c = Ok u →
  valid_dist (cf_ConnsDist c) = true ∧ valid_dist (cf_ChannelsDist c) = true ∧ valid_dist (cf_PubChannelsDist c) = true.
Proof. unfold validateDistribution. do 3 destruct (valid_dist _); naive_solver. Qed.

Lemma Validate_spec c :
  (∃ e, Validate c = Err e) ∨ config_ok c ∧ Validate c = (buildTopology c true;; Ok tt).
Proof.
  unfold Validate.
  repeat match goal with |- context [refuse_if (bool_decide ?P) _ ≫= _] =>
    destruct (bool_decide_reflect P); [by left; eexists|]; simpl end.
  destruct (validateDistribution c) as [[]|e|] eqn:Ed; [|by left; eexists|exfalso; revert Ed].
  - right. destruct (validateDistribution_spec _ _ Ed) as (? & ? & ?). split; [constructor; done || lia|done].
  - unfold validateDistribution. by do 3 destruct (valid_dist _).
Qed.

Lemma Build_staged c t :
  Build c = Ok t → config_ok c ∧ ∃ slots0 slots1 slots3, staged c t slots0 slots1 slots3.
Proof.
  unfold Build. intros ([] & HV & HB)%Ok_bind. destruct (Validate_spec c) as [[e He]|[Hc _]]; [congruence|].
  split; [done|]. pose proof (buildTopology_allocates _ _ _ HB) as Ha.
  destruct (buildTopology_spec c Hc Ha) as [[e He]|(t' & ? & ? & ? & He & Hs)]; [congruence|].
  rewrite He in HB. simplify_eq. eauto.
Qed.

(** The share of a connection. *)
Definition conn_share (c : Config) (k : nat) : list Z :=
  share (cf_ConnsDist c) (cf_MaxChannelsPerConn c) (cf_Conns c) (cf_Channels c) k.

Section Staged.
Context (c : Config) (t : Topology) (slots0 slots1 slots3 : list channelSlot).
Context (Hc : config_ok c) (Hst : staged c t slots0 slots1 slots3).

Lemma staged_created :
  sl_GlobalIndex <$> slots0 = concat (channel_shares c) ∧ Forall (fresh_slot c) slots0 ∧
  concat (cp_Channels <$> t_Conns t) = seq 0 (length slots0) ∧
  length (t_Conns t) = Z.to_nat (cf_Conns c) ∧
  ∀ k gis, channel_shares c !! k = Some gis → ∃ cp, t_Conns t !! k = Some cp ∧ conn_planned c slots0 (Z.of_nat k) gis cp.
Proof.
  destruct (build_slots_spec _ _ _ _ _ _ (st_built _ _ _ _ _ Hst)) as (new & He & ? & ? & ? & Hl & ?).
  rewrite app_nil_l in He. subst new. split_and!; [done..| |done].
  rewrite Hl. unfold channel_shares. by rewrite length_fmap, length_seq.
Qed.

Lemma staged_gi_perm : sl_GlobalIndex <$> slots0 ≡ₚ seqZ 0 (cf_Channels c).
Proof.
  destruct staged_created as [-> _]. pose proof (ok_Conns _ Hc). apply shares_perm; [done|lia|].
  apply (st_fits _ _ _ _ _ Hst).
Qed.

Lemma NoDup_pubs : NoDup (t_publishCapable t).
Proof. rewrite (st_pubs _ _ _ _ _ Hst). apply NoDup_filter, NoDup_sort_slots. Qed.

Lemma NoDup_conss : NoDup (t_consumeCapable t).
Proof. rewrite (st_conss _ _ _ _ _ Hst). apply NoDup_filter, NoDup_sort_slots. Qed.

Lemma NoDup_mixed : NoDup (mixed_slots c slots0).
Proof. apply NoDup_filter, NoDup_sort_slots. Qed.

(** Roles are stamped on the slots the loops created. *)
Lemma staged_role p s1 :
  slots1 !! p = Some s1 → ∃ s0, slots0 !! p = Some s0 ∧ s1 = set_Role (sl_Role s1) s0 ∧
    (∀ i, mixed_slots c slots0 !! i = Some p → sl_Role s1 = carved_role (cf_PubChannels c) (cf_ConsChannels c) (Z.of_nat i)) ∧
    (p ∉ mixed_slots c slots0 → sl_Role s1 = initial_role (conn_role c (sl_Conn s0))).
Proof.
  rewrite (st_roles _ _ _ _ _ Hst), stamp_each by apply Hc. intros Hp.
  destruct (decide (p ∈ mixed_slots c slots0)) as [Hin|Hin].
  - destruct (list_elem_of_lookup_1 _ _ Hin) as [i Hi]. rewrite (alter_each_in _ _ _ _ _ NoDup_mixed Hi) in Hp.
    apply fmap_Some in Hp as (s0 & Hs0 & ->). exists s0. split_and!; [done..| |done]. intros i' Hi'.
    by rewrite (NoDup_lookup _ _ _ _ NoDup_mixed Hi' Hi).
  - rewrite alter_each_out in Hp by done. exists s1. destruct staged_created as (_ & Hf & _).
    destruct (Forall_lookup_1 _ _ _ _ Hf Hp) as (? & _). split_and!; [done|by destruct s1| |done].
    intros i Hi. by apply list_elem_of_lookup_2 in Hi.
Qed.

(** A slot of the plan, in terms of the slot it was created as. *)
Lemma staged_slot p s :
  t_slots t !! p = Some s → ∃ s0 s1, slots0 !! p = Some s0 ∧ slots1 !! p = Some s1 ∧ s1 = set_Role (sl_Role s1) s0 ∧
    sl_Conn s = sl_Conn s0 ∧ sl_Ch s = sl_Ch s0 ∧ sl_GlobalIndex s = sl_GlobalIndex s0 ∧ sl_Role s = sl_Role s1 ∧
    (∀ i, t_publishCapable t !! i = Some p → sl_publishCapIdx s = Z.of_nat i) ∧
    (p ∉ t_publishCapable t → sl_publishCapIdx s = -1) ∧
    sl_PubGoroutines s = filter (λ j, t_publishCapable t !! Z.to_nat (target (cf_PubChannelsDist c)
      (cf_MaxPublishersPerChannel c) (Z.of_nat (length (t_publishCapable t))) j) = Some p) (seqZ 0 (cf_Publishers c)) ∧
    sl_ConsGoroutines s = filter (λ j, t_consumeCapable t !! Z.to_nat (target (cf_ChannelsDist c)
      (cf_MaxConsumersPerChannel c) (Z.of_nat (length (t_consumeCapable t))) j) = Some p) (seqZ 0 (cf_Consumers c)).
Proof.
  destruct (st_pub _ _ _ _ _ Hst) as (_ & _ & ->). destruct (st_cons _ _ _ _ _ Hst) as (_ & _ & ->).
  rewrite number_caps_each. intros (s3 & (s2 & Hs2 & ->)%fmap_Some & ->)%fmap_Some. rewrite foldl_add_pub, foldl_add_cons. simpl.
  assert (∃ s1, slots1 !! p = Some s1 ∧ s2 = set_capIdx (sl_publishCapIdx s2) s1 ∧
    (∀ i, t_publishCapable t !! i = Some p → sl_publishCapIdx s2 = Z.of_nat i) ∧
    (p ∉ t_publishCapable t → sl_publishCapIdx s2 = sl_publishCapIdx s1)) as (s1 & Hs1 & E2 & Hin & Hout).
  { destruct (decide (p ∈ t_publishCapable t)) as [Hin|Hin].
    - destruct (list_elem_of_lookup_1 _ _ Hin) as [i Hi]. rewrite (alter_each_in _ _ _ _ _ NoDup_pubs Hi) in Hs2.
      apply fmap_Some in Hs2 as (s1 & Hs1 & ->). exists s1. split_and!; [done..| |done]. intros i' Hi'.
      by rewrite (NoDup_lookup _ _ _ _ NoDup_pubs Hi' Hi).
    - rewrite alter_each_out in Hs2 by done. exists s2. split_and!; [done|by destruct s2| |done].
      intros i Hi. by apply list_elem_of_lookup_2 in Hi. }
  destruct (staged_role p s1 Hs1) as (s0 & Hs0 & E1 & _). destruct staged_created as (_ & Hf & _).
  destruct (Forall_lookup_1 _ _ _ _ Hf Hs0) as (_ & Hf1 & Hf2 & Hf3). exists s0, s1.
  rewrite E2, E1 in *. simpl in *. rewrite Hf1, Hf2. split_and!; try done. intros Hp. by rewrite Hout.
Qed.

Lemma staged_lookup p : (p < length slots0)%nat → is_Some (t_slots t !! p).
Proof.
  intros Hp. destruct (st_pub _ _ _ _ _ Hst) as (_ & _ & ->). destruct (st_cons _ _ _ _ _ Hst) as (_ & _ & ->).
  rewrite !fmap_is_Some. apply lookup_lt_is_Some.
  rewrite number_caps_each, (st_roles _ _ _ _ _ Hst), stamp_each by apply Hc.
  assert (∀ h ps sl, length (alter_each h ps sl) = length sl) as Hlen.
  { intros h ps sl. rewrite <-(length_fmap (λ _, tt)), alter_each_view by done. by rewrite length_fmap. }
  by rewrite !Hlen.
Qed.

(** What the later stages leave alone. *)
Lemma staged_view {B} (g : channelSlot → B) :
  (∀ p s s0, t_slots t !! p = Some s → slots0 !! p = Some s0 → g s = g s0) →
  g <$> t_slots t = g <$> slots0.
Proof.
  intros Hg. apply list_eq. intros p. rewrite !list_lookup_fmap. destruct (t_slots t !! p) as [s|] eqn:Hs; simpl.
  - destruct (staged_slot _ _ Hs) as (s0 & _ & Hs0 & _). rewrite Hs0. simpl. f_equal. by eapply Hg.
  - destruct (decide (p < length slots0)%nat) as [Hp|Hp].
    + destruct (staged_lookup p Hp) as [? ?]. congruence.
    + by rewrite lookup_ge_None_2 by lia.
Qed.

Lemma staged_length : length (t_slots t) = length slots0.
Proof. rewrite <-(length_fmap (λ _, tt)), (staged_view (λ _, tt)) by done. by rewrite length_fmap. Qed.

Lemma staged_gi p : gi_of (t_slots t) p = gi_of slots0 p.
Proof.
  apply gi_of_fmap, staged_view. intros q s s0 Hs Hs0.
  destruct (staged_slot _ _ Hs) as (? & ? & ? & _ & _ & _ & _ & Hg & _). by simplify_eq.
Qed.

Lemma staged_conn p : conn_of (t_slots t) p = conn_of slots0 p.
Proof.
  assert (sl_Conn <$> t_slots t = sl_Conn <$> slots0) as He.
  { apply staged_view. intros q s s0 Hs Hs0. destruct (staged_slot _ _ Hs) as (? & ? & ? & _ & _ & Hg & _). by simplify_eq. }
  unfold conn_of. apply (f_equal (lookup p)) in He. rewrite !list_lookup_fmap in He.
  destruct (t_slots t !! p), (slots0 !! p); naive_solver.
Qed.

Lemma staged_gi_inj p q : (p < length slots0)%nat → (q < length slots0)%nat → gi_of slots0 p = gi_of slots0 q → p = q.
Proof.
  intros Hp Hq He. pose proof (NoDup_seqZ 0 (cf_Channels c)) as Hn. rewrite <-staged_gi_perm in Hn.
  destruct (lookup_lt_is_Some_2 _ _ Hp) as [s Hs], (lookup_lt_is_Some_2 _ _ Hq) as [s' Hs'].
  unfold gi_of in He. rewrite Hs, Hs' in He. simpl in He.
  eapply NoDup_lookup; [done|rewrite list_lookup_fmap, Hs; done|rewrite list_lookup_fmap, Hs'; simpl; by rewrite He].
Qed.

(** The order of the finished plan is the order it was built in. *)
Lemma staged_sort : sort_slots (t_slots t) = sort_slots slots0.
Proof.
  assert (Transitive (gi_le slots0)) by (intros x y z; unfold gi_le; lia). apply (Sorted_unique_strong (gi_le slots0)).
  - intros x y. rewrite !sort_slots_perm, !elem_of_seq, staged_length. unfold gi_le. intros ? ? ? ?.
    apply staged_gi_inj; lia.
  - rewrite <-(list_fmap_id (sort_slots (t_slots t))). eapply Sorted_fmap; [|apply Sorted_merge_sort].
    + intros x y. unfold gi_le. by rewrite !staged_gi.
    + intros x y. unfold gi_le. lia.
  - apply Sorted_merge_sort. intros x y. unfold gi_le. lia.
  - by rewrite !sort_slots_perm, staged_length.
Qed.

Lemma staged_mixed : mixed_slots c (t_slots t) = mixed_slots c slots0.
Proof. unfold mixed_slots. rewrite staged_sort. apply list_filter_iff. intros p. by rewrite staged_conn. Qed.

Lemma staged_sorted : gi_of (t_slots t) <$> sort_slots slots0 = seqZ 0 (cf_Channels c).
Proof.
  rewrite <-(sort_slots_spec _ _ staged_gi_perm). apply list_fmap_ext. intros i p _. apply staged_gi.
Qed.

(** A list of slots in the order of the plan has strictly increasing indices. *)
Lemma staged_increasing (P : slot → Prop) `{!∀ p, Decision (P p)} :
  StronglySorted Z.lt (gi_of (t_slots t) <$> filter P (sort_slots slots0)).
Proof. apply StronglySorted_fmap_filter. rewrite staged_sorted. apply seqZ_StronglySorted. Qed.

Lemma staged_elem p s : t_slots t !! p = Some s → p ∈ sort_slots slots0.
Proof. intros Hs%lookup_lt_Some. rewrite sort_slots_perm, elem_of_seq, <-staged_length. lia. Qed.

Lemma staged_role_of p s : t_slots t !! p = Some s → role_of slots1 p = sl_Role s.
Proof. intros (s0 & s1 & _ & Hs1 & _ & _ & _ & _ & Hr & _)%staged_slot. unfold role_of. by rewrite Hs1. Qed.

Lemma staged_plan k cp : t_Conns t !! k = Some cp → conn_planned c slots0 (Z.of_nat k) (conn_share c k) cp.
Proof.
  intros Hcp. destruct staged_created as (_ & _ & _ & Hlen & Hk).
  destruct (Hk k (conn_share c k)) as (cp' & Hcp' & Hp); [|by simplify_eq].
  unfold channel_shares. rewrite list_lookup_fmap, lookup_seq_lt; [done|]. rewrite <-Hlen. by eapply lookup_lt_Some.
Qed.
End Staged.

Lemma fmap_concat {A B} (f : A → B) (ls : list (list A)) : f <$> concat ls = concat (fmap (M:=list) f <$> ls).
Proof. induction ls as [|l ls IH]; [done|]. simpl. rewrite fmap_app. by f_equal. Qed.

(** A slot of a plan names a connection and, if it publishes, a place among the
    publish-capable channels. *)
Lemma plan_slot_in c t p s :
  Build c = Ok t → t_slots t !! p = Some s →
  0 ≤ sl_Conn s < Z.of_nat (length (t_Conns t)) ∧ sl_publishCapIdx s < Z.of_nat (length (t_publishCapable t)) ∧
  (p ∈ t_publishCapable t → 0 ≤ sl_publishCapIdx s).
Proof.
  intros (Hc & slots0 & slots1 & slots3 & Hst)%Build_staged Hs.
  destruct (staged_slot _ _ _ _ _ Hc Hst _ _ Hs) as (s0 & _ & Hs0 & _ & _ & Hcn & _ & _ & _ & Hcap & Hout & _).
  destruct (staged_created _ _ _ _ _ Hst) as (_ & _ & Hseq & _). split.
  - assert (p ∈ concat (cp_Channels <$> t_Conns t)) as (ps & Hp & (cp & -> & Hcp)%list_elem_of_fmap)%elem_of_concat.
    { rewrite Hseq. apply elem_of_seq. apply lookup_lt_Some in Hs0. lia. }
    apply list_elem_of_lookup_1 in Hcp as [k Hk], Hp as [j Hj].
    destruct (staged_plan _ _ _ _ _ Hst k cp Hk) as (_ & _ & _ & Hpl). destruct (Hpl j p Hj) as (s0' & Hs0' & Hk' & _).
    simplify_eq. rewrite Hcn, Hk'. apply lookup_lt_Some in Hk. lia.
  - destruct (decide (p ∈ t_publishCapable t)) as [[i Hi]%list_elem_of_lookup_1|Hp].
    + rewrite (Hcap i Hi). apply lookup_lt_Some in Hi. lia.
    + rewrite Hout by done. split; [lia|done].
Qed.

(** ** Properties *)

(** C31: [Validate] and [Build] panic only when [make] is asked for more than the address
    space, which takes more than 2^48/24 connections or 2^48/8 channels: for every
    configuration below those sizes, and as long as memory lasts for [append], they return a
    plan or an error (no index out of range, no division by zero, no negative [make]).  [Build] returns a plan for every
    configuration [Validate] accepts, refuses the others with the same error, and panics
    exactly when [Validate] does; none beyond the sizes is accepted. *)
Theorem build_total (c : Config) :
  (24 * cf_Conns c ≤ 2 ^ 48 → 8 * cf_Channels c ≤ 2 ^ 48 → Validate c ≠ Crash ∧ Build c ≠ Crash) ∧
  match Validate c with
  | Ok _ => 24 * cf_Conns c ≤ 2 ^ 48 ∧ 8 * cf_Channels c ≤ 2 ^ 48 ∧ ∃ t, Build c = Ok t ∧ buildTopology c true = Ok t
  | Err e => Build c = Err e
  | Crash => Build c = Crash
  end.
Proof.
  unfold Build. destruct (Validate_spec c) as [[e ->]|[Hc ->]]; [done|]. split.
  - intros Ha Hb. destruct (buildTopology_spec c Hc) as [[e ->]|(t & _ & _ & _ & -> & _)]; done.
  - destruct (buildTopology c true) as [t|e|] eqn:Ht; [|done..]. simpl.
    destruct (buildTopology_allocates _ _ _ Ht). by eauto.
Qed.

(** Sizes [Validate] has no check for: 2^62 connections pass every comparison and panic in
    [make([][]int, n)], 2^62 channels packed on one connection in [make([]int, c.Channels)]. *)
Definition sized_config (conns channels : Z) (dist : Distribution) : Config :=
  mkConfig "127.0.0.1:5672" conns 0 0 channels 0 0 dist DistEven DistEven 0 0 0
    1 1 1000 128 true 10 0 0 second (30 * second) "" false.

Example oversized_plans_panic :
  Validate (sized_config (2 ^ 62) 1 DistEven) = Crash ∧ Validate (sized_config 1 (2 ^ 62) DistUneven) = Crash.
Proof. split; vm_compute; reflexivity. Qed.

(** The channels of the [k]-th connection. *)
Definition conn_channels (t : Topology) (cp : connPlan) : list Z := gi_of (t_slots t) <$> cp_Channels cp.

(** C32: A plan places every channel on exactly one connection.  Connection [k] gets
    the channels the distribution gives it, in order: those congruent to [k] modulo
    the number of connections when even, so that two connections differ by at most
    one channel, and never more than the cap when packed. *)
Theorem plan_places_channels (c : Config) (t : Topology) :
  Build c = Ok t →
  length (t_Conns t) = Z.to_nat (cf_Conns c) ∧
  concat (conn_channels t <$> t_Conns t) ≡ₚ seqZ 0 (cf_Channels c) ∧
  ∀ k cp, t_Conns t !! k = Some cp →
    cp_Conn cp = Z.of_nat k ∧ cp_Role cp = conn_role c (Z.of_nat k) ∧
    conn_channels t cp = share (cf_ConnsDist c) (cf_MaxChannelsPerConn c) (cf_Conns c) (cf_Channels c) k ∧
    (cf_ConnsDist c = DistUneven → 0 < cf_MaxChannelsPerConn c →
     Z.of_nat (length (cp_Channels cp)) ≤ cf_MaxChannelsPerConn c) ∧
    (cf_ConnsDist c = DistEven → ∀ k' cp', t_Conns t !! k' = Some cp' →
     Z.of_nat (length (cp_Channels cp)) ≤ Z.of_nat (length (cp_Channels cp')) + 1).
Proof.
  intros (Hc & slots0 & slots1 & slots3 & Hst)%Build_staged.
  destruct (staged_created _ _ _ _ _ Hst) as (_ & _ & Hseq & Hlen & _).
  pose proof (staged_plan _ _ _ _ _ Hst) as Hplan. change (share _ _ _ _) with (conn_share c).
  assert (∀ cp, conn_channels t cp = gi_of slots0 <$> cp_Channels cp) as Hgi.
  { intros cp. apply list_fmap_ext. intros. by apply (staged_gi c t slots0 slots1 slots3). }
  assert (∀ k cp, t_Conns t !! k = Some cp → length (cp_Channels cp) = length (conn_share c k)) as Hl.
  { intros k cp (_ & _ & <- & _)%Hplan. by rewrite length_fmap. }
  split_and!; [done| |].
  - rewrite <-(staged_gi_perm _ _ _ _ _ Hc Hst), <-gi_of_all, <-Hseq, fmap_concat, <-list_fmap_compose.
    by rewrite (list_fmap_ext _ (fmap (gi_of slots0) ∘ cp_Channels)) by auto.
  - intros k cp Hcp. pose proof (Hplan k cp Hcp) as (? & ? & Hg & _). split_and!; [done..|by rewrite Hgi| |].
    + intros Hd Hcap. rewrite (Hl _ _ Hcp). apply share_cap; [by rewrite Hd|done].
    + intros Hd k' cp' Hcp'. rewrite (Hl _ _ Hcp), (Hl _ _ Hcp'). unfold conn_share. rewrite Hd.
      apply lookup_lt_Some in Hcp, Hcp'. apply share_even_balanced; lia.
Qed.

(** A configuration with every kind of connection and channel, and its plan. *)
Definition demo_config : Config :=
  mkConfig "127.0.0.1:5672" 4 1 1 10 2 1 DistEven DistEven DistUneven 0 0 3
    5 7 1000 128 true 10 0 0 second (30 * second) "" false.

Definition demo_plan : Topology :=
  match Build demo_config with Ok t => t | _ => mkTopology [] [] [] [] end.

Lemma build_total_witness : Validate demo_config = Ok tt ∧ ∃ t, Build demo_config = Ok t ∧ buildTopology demo_config true = Ok t.
Proof.
  assert (Validate demo_config = Ok tt) as HV by (vm_compute; reflexivity). split; [exact HV|].
  pose proof (build_total demo_config) as [_ Hb]. revert Hb. rewrite HV. intros (_ & _ & Hb). exact Hb.
Defined.

Lemma plan_places_channels_witness :
  Build demo_config = Ok demo_plan ∧ concat (conn_channels demo_plan <$> t_Conns demo_plan) ≡ₚ seqZ 0 10.
Proof.
  assert (Build demo_config = Ok demo_plan) as HB by (vm_compute; reflexivity).
  exact (conj HB (proj1 (proj2 (plan_places_channels demo_config demo_plan HB)))).
Defined.

(** C33: Roles.  A channel on a dedicated connection has that connection's role; of
    the channels on mixed connections, in global order, the first [PubChannels]
    publish, the next [ConsChannels] consume and the rest do both.  The capability
    lists hold exactly the channels that can publish (consume), by increasing global
    index, and a channel knows its position among the publishing ones. *)
Theorem plan_roles (c : Config) (t : Topology) :
  Build c = Ok t →
  StronglySorted Z.lt (gi_of (t_slots t) <$> t_publishCapable t) ∧
  StronglySorted Z.lt (gi_of (t_slots t) <$> t_consumeCapable t) ∧
  ∀ p s, t_slots t !! p = Some s →
    (p ∈ t_publishCapable t ↔ sl_Role s ≠ RoleConsume) ∧
    (p ∈ t_consumeCapable t ↔ sl_Role s ≠ RolePublish) ∧
    (conn_role c (sl_Conn s) = ConnPublishOnly → sl_Role s = RolePublish) ∧
    (conn_role c (sl_Conn s) = ConnConsumeOnly → sl_Role s = RoleConsume) ∧
    (∀ i, mixed_slots c (t_slots t) !! i = Some p →
       sl_Role s = carved_role (cf_PubChannels c) (cf_ConsChannels c) (Z.of_nat i)) ∧
    (∀ i, t_publishCapable t !! i = Some p → sl_publishCapIdx s = Z.of_nat i) ∧
    (p ∉ t_publishCapable t → sl_publishCapIdx s = -1).
Proof.
  intros (Hc & slots0 & slots1 & slots3 & Hst)%Build_staged.
  pose proof (st_pubs _ _ _ _ _ Hst) as Hpubs. pose proof (st_conss _ _ _ _ _ Hst) as Hconss.
  split_and!; [rewrite Hpubs; by eapply staged_increasing|rewrite Hconss; by eapply staged_increasing|].
  intros p s Hs. pose proof (staged_role_of _ _ _ _ _ Hc Hst _ _ Hs) as Hrole.
  pose proof (staged_elem _ _ _ _ _ Hc Hst _ _ Hs) as Hel. rewrite (staged_mixed _ _ _ _ _ Hc Hst).
  destruct (staged_slot _ _ _ _ _ Hc Hst _ _ Hs) as (s0 & s1 & Hs0 & Hs1 & E1 & Hcn & _ & _ & Hr & Hcap & Hout & _).
  destruct (staged_role _ _ _ _ _ Hc Hst p s1 Hs1) as (s0' & Hs0' & _ & Hmixed & Hfix). simplify_eq.
  assert (conn_role c (sl_Conn s) ≠ ConnMixed → p ∉ mixed_slots c slots0) as Hnm.
  { intros Hne. unfold mixed_slots. rewrite list_elem_of_filter. unfold conn_of. rewrite Hs0. simpl. rewrite <-Hcn. tauto. }
  rewrite Hr, <-Hcn in *. split_and!; try done.
  - rewrite Hpubs. unfold publish_capable. rewrite list_elem_of_filter, Hrole. destruct (sl_Role s1); naive_solver.
  - rewrite Hconss. unfold consume_capable. rewrite list_elem_of_filter, Hrole. destruct (sl_Role s1); naive_solver.
  - intros He. rewrite Hfix by (apply Hnm; by rewrite He). by rewrite He.
  - intros He. rewrite Hfix by (apply Hnm; by rewrite He). by rewrite He.
Qed.

Lemma plan_roles_witness :
  Build demo_config = Ok demo_plan ∧ StronglySorted Z.lt (gi_of (t_slots demo_plan) <$> t_publishCapable demo_plan).
Proof.
  assert (Build demo_config = Ok demo_plan) as HB by (vm_compute; reflexivity).
  exact (conj HB (proj1 (plan_roles demo_config demo_plan HB))).
Defined.

Definition pubs_of (t : Topology) (p : slot) : list Z := from_option sl_PubGoroutines [] (t_slots t !! p).
Definition conss_of (t : Topology) (p : slot) : list Z := from_option sl_ConsGoroutines [] (t_slots t !! p).

(** [count] goroutines placed over the channels [ps], [view] listing those of a channel. *)
Record placement (mode : Distribution) (capN count : Z) (ps : list slot) (view : slot → list Z) : Prop := mkPlacement {
  pl_share : ∀ i p, ps !! i = Some p → view p = share mode capN (Z.of_nat (length ps)) count i;
  pl_other : ∀ p, p ∉ ps → view p = [];
  pl_once : concat (view <$> ps) ≡ₚ seqZ 0 count;
  pl_even : mode = DistEven → ∀ p q, p ∈ ps → q ∈ ps → Z.of_nat (length (view p)) ≤ Z.of_nat (length (view q)) + 1;
  pl_cap : mode = DistUneven → 0 < capN → ∀ p, Z.of_nat (length (view p)) ≤ capN;
}.

Lemma placed_none (ps : list slot) (f : Z → Z) p l : p ∉ ps → filter (λ j, ps !! Z.to_nat (f j) = Some p) l = [].
Proof. intros Hp. apply filter_none. intros j _ Hj. by apply list_elem_of_lookup_2 in Hj. Qed.

Lemma view_placement mode capN count ps (view : slot → list Z) :
  NoDup ps → (0 < count → 0 < Z.of_nat (length ps)) → fits mode capN (Z.of_nat (length ps)) count →
  (∀ p, view p = filter (λ j, ps !! Z.to_nat (target mode capN (Z.of_nat (length ps)) j) = Some p) (seqZ 0 count)) →
  placement mode capN count ps view.
Proof.
  intros Hn Hl Hf Hview.
  assert (∀ p, p ∉ ps → view p = []) as Hout by (intros p Hp; rewrite Hview; by apply placed_none).
  assert (∀ i p, ps !! i = Some p → view p = share mode capN (Z.of_nat (length ps)) count i) as Hs.
  { intros i p Hi. rewrite Hview. by apply placed_share. }
  split; [done..| | |].
  - assert (view <$> ps = share mode capN (Z.of_nat (length ps)) count <$> seq 0 (length ps)) as ->.
    { apply list_eq. intros i. rewrite !list_lookup_fmap. destruct (ps !! i) as [p|] eqn:Hi; simpl.
      - rewrite lookup_seq_lt by (by eapply lookup_lt_Some). simpl. f_equal. by apply Hs.
      - apply lookup_ge_None in Hi. by rewrite lookup_ge_None_2 by (rewrite length_seq; lia). }
    destruct (decide (0 < count)); [apply shares_perm; auto|]. rewrite seqZ_nil by lia. unfold share.
    rewrite seqZ_nil by lia. apply reflexive_eq, concat_nil_Forall, Forall_fmap, Forall_true. done.
  - intros -> p q [i Hi]%list_elem_of_lookup_1 [i' Hi']%list_elem_of_lookup_1. rewrite (Hs _ _ Hi), (Hs _ _ Hi').
    apply lookup_lt_Some in Hi, Hi'. apply share_even_balanced; lia.
  - intros -> Hcap p. destruct (decide (p ∈ ps)) as [[i Hi]%list_elem_of_lookup_1|Hp].
    + rewrite (Hs _ _ Hi). by apply share_cap.
    + rewrite Hout by done. simpl. lia.
Qed.

Lemma plan_placement (c : Config) (t : Topology) :
  Build c = Ok t →
  placement (cf_ChannelsDist c) (cf_MaxConsumersPerChannel c) (cf_Consumers c) (t_consumeCapable t) (conss_of t) ∧
  placement (cf_PubChannelsDist c) (cf_MaxPublishersPerChannel c) (cf_Publishers c) (t_publishCapable t) (pubs_of t).
Proof.
  intros (Hc & slots0 & slots1 & slots3 & Hst)%Build_staged.
  destruct (st_cons _ _ _ _ _ Hst) as (Hcl & Hcf & _). destruct (st_pub _ _ _ _ _ Hst) as (Hpl & Hpf & _).
  assert (∀ p, p ∈ sort_slots slots0 → is_Some (t_slots t !! p)) as Hin.
  { intros p. rewrite sort_slots_perm, elem_of_seq. intros ?. eapply staged_lookup; [done..|lia]. }
  split; (apply view_placement; [by (eapply NoDup_conss || eapply NoDup_pubs)|done|done|]); intros p;
    unfold conss_of, pubs_of; destruct (t_slots t !! p) as [s|] eqn:Hs; simpl;
    try (by destruct (staged_slot _ _ _ _ _ Hc Hst _ _ Hs) as (? & ? & ?); destruct_and!);
    symmetry; apply placed_none; intros Hp.
  - rewrite (st_conss _ _ _ _ _ Hst) in Hp. apply list_elem_of_filter in Hp as [_ Hp%Hin]. rewrite Hs in Hp. by destruct Hp.
  - rewrite (st_pubs _ _ _ _ _ Hst) in Hp. apply list_elem_of_filter in Hp as [_ Hp%Hin]. rewrite Hs in Hp. by destruct Hp.
Qed.

(** C34: a plan places every consumer on exactly one consume-capable channel and every
    publisher on exactly one publish-capable channel: each capable channel has the
    share the distribution gives it, the others have none; round robin differs by at
    most one between channels, and packing never exceeds its cap. *)
Theorem plan_places_workers (c : Config) (t : Topology) :
  Build c = Ok t →
  placement (cf_ChannelsDist c) (cf_MaxConsumersPerChannel c) (cf_Consumers c) (t_consumeCapable t) (conss_of t) ∧
  placement (cf_PubChannelsDist c) (cf_MaxPublishersPerChannel c) (cf_Publishers c) (t_publishCapable t) (pubs_of t).
Proof. apply plan_placement. Qed.

Lemma plan_places_workers_witness :
  Build demo_config = Ok demo_plan ∧ concat (conss_of demo_plan <$> t_consumeCapable demo_plan) ≡ₚ seqZ 0 7.
Proof.
  assert (Build demo_config = Ok demo_plan) as HB by (vm_compute; reflexivity).
  exact (conj HB (pl_once _ _ _ _ _ (proj1 (plan_places_workers demo_config demo_plan HB)))).
Defined.
