(* ===== verification/BenchConfig.v ===== *)
(** * The benchmark's command-line axes and warnings (src/internal/bench/config.go)

    The flag values behind -conns, -channels, -pub-channels and the order-sensitive
    -distribution, which binds to the axis flag before it, and the advisory messages
    of a configuration. *)

From S2P Require Import Prelude GoJson Protocol BenchTopology BenchPlacement BenchPlan.

(** ** Axis flags *)

(** [AxisCursor]: the axis flag parsed last, [""] at first. *)
Record AxisCursor := mkCursor { last : string }.

(** The three fields cmd/benchmark registers with [NewAxisInt]. *)
Inductive Axis : Type := AConns | AChannels | APubChannels.

#[export] Instance Axis_eq_dec : EqDecision Axis.
Proof. solve_decision. Defined.

Definition axis_name (a : Axis) : string :=
  match a with AConns => "conns" | AChannels => "channels" | APubChannels => "pub-channels" end.

Definition axis_value (a : Axis) (c : Config) : Z :=
  match a with AConns => cf_Conns c | AChannels => cf_Channels c | APubChannels => cf_PubChannels c end.

Definition axis_dist (a : Axis) (c : Config) : Distribution :=
  match a with AConns => cf_ConnsDist c | AChannels => cf_ChannelsDist c | APubChannels => cf_PubChannelsDist c end.

(** [*f.val = v] *)
Definition set_axis_value (a : Axis) (v : Z) (c : Config) : Config :=
  mkConfig (cf_Addr c)
    (if decide (a = AConns) then v else cf_Conns c) (cf_PubConns c) (cf_ConsConns c)
    (if decide (a = AChannels) then v else cf_Channels c)
    (if decide (a = APubChannels) then v else cf_PubChannels c) (cf_ConsChannels c)
    (cf_ConnsDist c) (cf_ChannelsDist c) (cf_PubChannelsDist c)
    (cf_MaxChannelsPerConn c) (cf_MaxConsumersPerChannel c) (cf_MaxPublishersPerChannel c)
    (cf_Publishers c) (cf_Consumers c) (cf_Msgs c) (cf_Size c) (cf_Ack c) (cf_Prefetch c)
    (cf_Duration c) (cf_Warmup c) (cf_Report c) (cf_DrainTimeout c) (cf_Output c) (cf_Quiet c).

(** [f.cfg.XDist = d] *)
Definition set_axis_dist (a : Axis) (d : Distribution) (c : Config) : Config :=
  mkConfig (cf_Addr c) (cf_Conns c) (cf_PubConns c) (cf_ConsConns c) (cf_Channels c) (cf_PubChannels c)
    (cf_ConsChannels c)
    (if decide (a = AConns) then d else cf_ConnsDist c)
    (if decide (a = AChannels) then d else cf_ChannelsDist c)
    (if decide (a = APubChannels) then d else cf_PubChannelsDist c)
    (cf_MaxChannelsPerConn c) (cf_MaxConsumersPerChannel c) (cf_MaxPublishersPerChannel c)
    (cf_Publishers c) (cf_Consumers c) (cf_Msgs c) (cf_Size c) (cf_Ack c) (cf_Prefetch c)
    (cf_Duration c) (cf_Warmup c) (cf_Report c) (cf_DrainTimeout c) (cf_Output c) (cf_Quiet c).

(** [strconv.Atoi] *)
Definition Atoi : string → option Z := parse_int.

(** [intAxisFlag.String] and [intAxisFlag.Set] *)
Definition axis_String (a : Axis) (c : Config) : string := pretty (axis_value a c).

Definition axis_Set (a : Axis) (s : string) (st : Config * AxisCursor) : result string (Config * AxisCursor) :=
  match Atoi s with
  | None => Err ("invalid integer " +:+ quote s)
  | Some v => Ok (set_axis_value a v st.1, mkCursor (axis_name a))
  end.

(** [strings.ToLower]; no letter outside ASCII has a lower case in it that occurs in
    the two modes, so bytes suffice. *)
Definition lower (a : Ascii.ascii) : Ascii.ascii :=
  let n := Ascii.nat_of_ascii a in
  if decide (65 ≤ n ≤ 90)%nat then Ascii.ascii_of_nat (n + 32) else a.
Fixpoint ToLower (s : string) : string :=
  match s with EmptyString => EmptyString | String a s' => String (lower a) (ToLower s') end.

(** [distributionFlag.String] and [distributionFlag.Set] *)
Definition distribution_String (c : Config) : string := cf_ConnsDist c.

Definition distribution_Set (s : string) (st : Config * AxisCursor) : result string (Config * AxisCursor) :=
  let '(c, cur) := st in
  d ← (if decide (ToLower s = DistEven) then Ok DistEven
       else if decide (ToLower s = DistUneven) then Ok DistUneven
       else Err ("invalid distribution " +:+ quote s +:+ " (want even|uneven)"));
  if decide (last cur = "conns") then Ok (set_axis_dist AConns d c, cur)
  else if decide (last cur = "channels") then Ok (set_axis_dist AChannels d c, cur)
  else if decide (last cur = "pub-channels") then Ok (set_axis_dist APubChannels d c, cur)
  else Err "-distribution must be preceded by -conns, -channels or -pub-channels on the command line".

(** An occurrence of one of the four flags, in command-line order. *)
Inductive FlagArg : Type :=
| FAxis (a : Axis) (value : string)
| FDistribution (value : string).

Definition flag_Set (f : FlagArg) (st : Config * AxisCursor) : result string (Config * AxisCursor) :=
  match f with
  | FAxis a s => axis_Set a s st
  | FDistribution s => distribution_Set s st
  end.

(** The calls [FlagSet.Parse] makes; it stops at the first error. *)
Definition parse_axes (l : list FlagArg) (st : Config * AxisCursor) : result string (Config * AxisCursor) :=
  foldE (λ st f, flag_Set f st) st l.

(** ** Warnings *)

(** [c.Publishers * c.Msgs] *)
Definition budget (c : Config) : Z := i64 (cf_Publishers c * cf_Msgs c).

Definition warn_if (b : bool) (s : string) : list string := if b then [s] else [].

Definition Warnings (c : Config) : list string :=
  warn_if (bool_decide (budget c > 65535))
    ("publishers x msgs = " +:+ pretty (budget c) +:+ " exceeds the uint16 delivery-tag space (65535): delivery tags may wrap and dispatch can corrupt (Phase 3 deliberately probes this)") ++
  warn_if (negb (cf_Ack c))
    "consumers will not ack: dispatch freezes each consumer at the broker's fixed prefetch (10); this run is a stall probe, not a throughput run" ++
  warn_if (bool_decide (cf_Prefetch c ≠ 10))
    ("-prefetch " +:+ pretty (cf_Prefetch c) +:+ " ignored: the broker hardcodes a prefetch of 10 (no basic.qos)") ++
  warn_if (bool_decide (cf_MaxChannelsPerConn c > 0 ∧ cf_ConnsDist c ≠ DistUneven))
    "-max-channels-per-conn ignored: the conns distribution axis is even (a cap only applies under uneven packing)" ++
  warn_if (bool_decide (cf_MaxConsumersPerChannel c > 0 ∧ cf_ChannelsDist c ≠ DistUneven))
    "-max-consumers-per-channel ignored: the channels distribution axis is even (a cap only applies under uneven packing)" ++
  warn_if (bool_decide (cf_MaxPublishersPerChannel c > 0 ∧ cf_PubChannelsDist c ≠ DistUneven))
    "-max-publishers-per-channel ignored: the pub-channels distribution axis is even (a cap only applies under uneven packing)".

(** ** Proofs *)

Lemma Atoi_pretty v : is_i64 v → Atoi (pretty v) = Some v.
Proof.
  intros Hv. unfold is_i64 in Hv. destruct (decide (0 ≤ v)) as [Hp|Hn].
  - pose proof (dec_int_enc v 0 ltac:(lia)) as E. unfold dec_int, enc_uint in E. unfold Atoi.
    destruct (parse_int (pretty v)); simplify_eq. done.
  - destruct v as [|p|p]; try lia.
    change (pretty (Z.neg p)) with (String (Ascii.ascii_of_nat 45) (pretty (N.pos p))).
    pose proof (parse_dec_pretty_Z (Z.pos p) ltac:(lia)) as E. change (pretty (Z.pos p)) with (pretty (N.pos p)) in E.
    unfold Atoi, parse_int. rewrite decide_True by done. rewrite E. simpl.
    by rewrite decide_True by lia.
Qed.

(** Setting an axis and looking at one. *)
Lemma axis_value_set a b v c : axis_value a (set_axis_value b v c) = if decide (a = b) then v else axis_value a c.
Proof. by destruct a, b. Qed.
Lemma axis_dist_set a b d c : axis_dist a (set_axis_dist b d c) = if decide (a = b) then d else axis_dist a c.
Proof. by destruct a, b. Qed.
Lemma axis_value_set_dist a b d c : axis_value a (set_axis_dist b d c) = axis_value a c.
Proof. by destruct a, b. Qed.
Lemma axis_dist_set_value a b v c : axis_dist a (set_axis_value b v c) = axis_dist a c.
Proof. by destruct a, b. Qed.

Create Rewrite HintDb axis.
#[export] Hint Rewrite axis_value_set axis_dist_set axis_value_set_dist axis_dist_set_value : axis.

Definition is_mode (s : string) : Prop := ToLower s = DistEven ∨ ToLower s = DistUneven.

Lemma distribution_Set_axis a s c :
  is_mode s → distribution_Set s (c, mkCursor (axis_name a)) = Ok (set_axis_dist a (ToLower s) c, mkCursor (axis_name a)).
Proof. intros [Hs|Hs]; unfold distribution_Set; rewrite Hs; by destruct a. Qed.

(** An axis flag with its value, followed by -distribution. *)
Record axis_group := mkGroup { g_axis : Axis; g_value : Z; g_mode : string }.
Definition group_args (g : axis_group) : list FlagArg := [FAxis (g_axis g) (pretty (g_value g)); FDistribution (g_mode g)].
Definition group_set (c : Config) (g : axis_group) : Config :=
  set_axis_dist (g_axis g) (ToLower (g_mode g)) (set_axis_value (g_axis g) (g_value g) c).
Definition group_ok (g : axis_group) : Prop := is_i64 (g_value g) ∧ is_mode (g_mode g).

Lemma foldE_app {E S A} (f : S → A → result E S) s l l' : foldE f s (l ++ l') = s' ← foldE f s l; foldE f s' l'.
Proof. revert s. induction l as [|x l IH]; intros s; [done|]. simpl. by destruct (f s x); simpl. Qed.

Lemma parse_group g c cur :
  group_ok g → parse_axes (group_args g) (c, cur) = Ok (group_set c g, mkCursor (axis_name (g_axis g))).
Proof.
  intros [Hv Hm]. unfold parse_axes, group_args. cbn [foldE flag_Set]. unfold axis_Set. rewrite Atoi_pretty by done.
  cbn [mbind result_bind]. cbv iota beta. cbn [foldE flag_Set fst]. rewrite distribution_Set_axis by done. done.
Qed.

Lemma parse_groups gs c cur :
  Forall group_ok gs → ∃ cur', parse_axes (concat (group_args <$> gs)) (c, cur) = Ok (foldl group_set c gs, cur').
Proof.
  intros Hgs. revert c cur. induction Hgs as [|g gs Hg Hgs IH]; intros c cur; [by exists cur|].
  rewrite fmap_cons. cbn [concat foldl]. unfold parse_axes in *. rewrite foldE_app.
  change (foldE _ (c, cur) (group_args g)) with (parse_axes (group_args g) (c, cur)). rewrite parse_group by done.
  apply IH.
Qed.

Lemma groups_other a gs c :
  a ∉ g_axis <$> gs →
  axis_value a (foldl group_set c gs) = axis_value a c ∧ axis_dist a (foldl group_set c gs) = axis_dist a c.
Proof.
  revert c. induction gs as [|g gs IH]; intros c Hn; [done|]. rewrite fmap_cons, not_elem_of_cons in Hn.
  destruct Hn as [Hne Hn]. simpl. destruct (IH (group_set c g) Hn) as [-> ->]. unfold group_set.
  autorewrite with axis. by rewrite !decide_False.
Qed.

(** The mode of every axis stays one of the two. *)
Lemma validateDistribution_iff c :
  validateDistribution c = Ok tt ↔ ∀ a, axis_dist a c = DistEven ∨ axis_dist a c = DistUneven.
Proof.
  unfold validateDistribution, refuse_if, valid_dist. split.
  - intros Hv a.
    destruct (bool_decide_reflect (cf_ConnsDist c = DistEven ∨ cf_ConnsDist c = DistUneven)); simpl in Hv; [|done].
    destruct (bool_decide_reflect (cf_ChannelsDist c = DistEven ∨ cf_ChannelsDist c = DistUneven)); simpl in Hv; [|done].
    destruct (bool_decide_reflect (cf_PubChannelsDist c = DistEven ∨ cf_PubChannelsDist c = DistUneven)); [|done].
    by destruct a.
  - intros Ha. pose proof (Ha AConns). pose proof (Ha AChannels). pose proof (Ha APubChannels). simpl in *.
    by rewrite !bool_decide_true.
Qed.

Lemma distribution_Set_inv s st st' :
  distribution_Set s st = Ok st' → ∃ a, st' = (set_axis_dist a (ToLower s) st.1, st.2) ∧ last st.2 = axis_name a ∧ is_mode s.
Proof.
  destruct st as [c cur]. unfold distribution_Set, is_mode. intros E.
  assert (∃ d, (d = DistEven ∨ d = DistUneven) ∧ ToLower s = d ∧
    (if decide (last cur = "conns") then Ok (set_axis_dist AConns d c, cur)
     else if decide (last cur = "channels") then Ok (set_axis_dist AChannels d c, cur)
     else if decide (last cur = "pub-channels") then Ok (set_axis_dist APubChannels d c, cur)
     else Err "-distribution must be preceded by -conns, -channels or -pub-channels on the command line") = Ok st')
    as (d & Hd & Hs & E').
  { destruct (decide (ToLower s = DistEven)) as [Hs|_]; [exists DistEven; by auto|].
    destruct (decide (ToLower s = DistUneven)) as [Hs|_]; [exists DistUneven; by auto|done]. }
  clear E. rewrite Hs. simpl.
  destruct (decide (last cur = "conns")); [injection E' as <-; by exists AConns|].
  destruct (decide (last cur = "channels")); [injection E' as <-; by exists AChannels|].
  destruct (decide (last cur = "pub-channels")); [injection E' as <-; by exists APubChannels|done].
Qed.

Lemma flag_Set_valid f st st' :
  flag_Set f st = Ok st' → validateDistribution st.1 = Ok tt → validateDistribution st'.1 = Ok tt.
Proof.
  rewrite !validateDistribution_iff. destruct f as [a s|s]; simpl.
  - unfold axis_Set. destruct (Atoi s); [|done]. intros [= <-] Hv b. simpl. autorewrite with axis. apply Hv.
  - intros (a & -> & _ & Hm)%distribution_Set_inv Hv b. simpl. autorewrite with axis. case_decide; [by apply Hm|apply Hv].
Qed.

(** The order-sensitive -distribution flag binds to the axis flag before it: for any
    sequence of distinct axis flags in any order, each with an integer and followed by a
    mode in any letter case, parsing succeeds, each of those axes gets its own value and
    mode and nothing else of the configuration changes; a -distribution with no axis
    flag before it is refused; and no sequence of flags leads to a mode that validation
    refuses. *)
Theorem distribution_binds_to_axis (gs : list axis_group) (c : Config) (cur : AxisCursor) :
  Forall group_ok gs → NoDup (g_axis <$> gs) →
  (∃ cur', parse_axes (concat (group_args <$> gs)) (c, cur) = Ok (foldl group_set c gs, cur')) ∧
  (∀ g, g ∈ gs → axis_value (g_axis g) (foldl group_set c gs) = g_value g ∧
                 axis_dist (g_axis g) (foldl group_set c gs) = ToLower (g_mode g)) ∧
  (∀ a, a ∉ g_axis <$> gs → axis_value a (foldl group_set c gs) = axis_value a c ∧
                            axis_dist a (foldl group_set c gs) = axis_dist a c) ∧
  (∀ s l, ∃ e, parse_axes (FDistribution s :: l) (c, mkCursor "") = Err e) ∧
  (∀ l c' cur', parse_axes l (c, cur) = Ok (c', cur') → validateDistribution c = Ok tt → validateDistribution c' = Ok tt).
Proof.
  intros Hok Hnd. split_and!; [by apply parse_groups| |intros a; by apply groups_other|..].
  - clear Hok. revert c. induction gs as [|g gs IH]; intros c g' Hg; [by apply elem_of_nil in Hg|].
    rewrite fmap_cons, NoDup_cons in Hnd. destruct Hnd as [Hni Hnd]. apply elem_of_cons in Hg as [->|Hg]; [|by apply IH].
    simpl. destruct (groups_other _ gs (group_set c g) Hni) as [-> ->]. unfold group_set. autorewrite with axis.
    by rewrite !decide_True.
  - intros s l. unfold parse_axes. cbn [foldE flag_Set]. unfold distribution_Set. simpl.
    do 2 (case_decide; [by eexists|]). by eexists.
  - clear. intros l. revert c cur. induction l as [|f l IH]; intros c cur c' cur' E Hv; unfold parse_axes in E; simpl in E.
    { by simplify_eq. }
    destruct (flag_Set f (c, cur)) as [[c1 cur1]| |] eqn:Ef; simpl in E; [|done..].
    apply (IH c1 cur1 c' cur'); [done|]. by apply (flag_Set_valid _ _ _ Ef).
Qed.

Definition demo_groups : list axis_group := [mkGroup APubChannels 2 "Uneven"; mkGroup AConns 5 "UNEVEN"].

Lemma distribution_binds_to_axis_witness :
  ∃ cur', parse_axes [FAxis APubChannels "2"; FDistribution "Uneven"; FAxis AConns "5"; FDistribution "UNEVEN"]
            (DefaultConfig, mkCursor "") = Ok (foldl group_set DefaultConfig demo_groups, cur').
Proof.
  apply (distribution_binds_to_axis demo_groups DefaultConfig (mkCursor "")).
  - repeat constructor; unfold is_i64; simpl; try lia; right; reflexivity.
  - apply (bool_decide_unpack _). reflexivity.
Defined.

(** ** Warnings *)

(** The message about delivery tags is printed exactly when the run will publish
    more than 65535 messages, as long as that number is an int; and a configuration
    is free of warnings exactly when that is not so, consumers acknowledge, the
    prefetch is the broker's and no cap is given for an axis that is placed evenly. *)
Theorem warnings_exact (c : Config) :
  is_i64 (cf_Publishers c * cf_Msgs c) →
  Warnings c = [] ↔
    cf_Publishers c * cf_Msgs c ≤ 65535 ∧ cf_Ack c = true ∧ cf_Prefetch c = 10 ∧
    (cf_MaxChannelsPerConn c > 0 → cf_ConnsDist c = DistUneven) ∧
    (cf_MaxConsumersPerChannel c > 0 → cf_ChannelsDist c = DistUneven) ∧
    (cf_MaxPublishersPerChannel c > 0 → cf_PubChannelsDist c = DistUneven).
Proof.
  intros Hb. unfold Warnings, budget. rewrite i64_id by done.
  assert (∀ b s, warn_if b s = [] ↔ b = false) as Hw by (by intros []).
  rewrite !app_nil, !Hw, !bool_decide_eq_false, negb_false_iff.
  assert (∀ x y : Distribution, ¬ (x ≠ y) ↔ x = y) as Hd by (intros; destruct (decide (x = y)); tauto).
  split.
  - intros (H1 & H2 & H3 & H4 & H5 & H6). split_and!; [lia|done|lia|..]; intros Hm; apply Hd; tauto.
  - intros (H1 & H2 & H3 & H4 & H5 & H6). split_and!; [lia|done|tauto|..]; intros [Hm Hn]; tauto.
Qed.

(** A configuration whose budget does not fit an int: it is valid, gives no warning, and
    the length of the slices [Run] makes is negative. *)
Definition overflowing_config : Config :=
  mkConfig "127.0.0.1:5672" 1 0 0 1 0 0 DistEven DistEven DistEven 0 0 0
    2 1 4611686018427387904 128 true 10 0 0 second (30 * second) "" false.

Theorem budget_can_overflow :
  Validate overflowing_config = Ok tt ∧ Warnings overflowing_config = [] ∧ budget overflowing_config < 0.
Proof. split; [vm_compute; reflexivity|]. split; vm_compute; reflexivity. Qed.
