(* ===== verification/BenchLatency.v ===== *)
(** * Latency accumulators (src/internal/bench/metrics.go)

    Latencies are [float64]: the Standard Library's executable IEEE-754 arithmetic at
    53 bits of precision.  A set of samples keeps a running count, sum, minimum and
    maximum, and the samples for the percentiles. *)

From Stdlib Require Import SpecFloat.
From S2P Require Import Prelude.

(** ** [float64] *)

Definition f64 : Type := spec_float.
Definition f64_add : f64 → f64 → f64 := SFadd 53 1024.
Definition f64_mul : f64 → f64 → f64 := SFmul 53 1024.
Definition f64_div : f64 → f64 → f64 := SFdiv 53 1024.
Definition f64_zero : f64 := S754_zero false.

(** [float64(n)]: rounded to nearest, ties to even. *)
Definition f64_of_Z (n : Z) : f64 := binary_normalize 53 1024 n 0 false.

(** [x < y] *)
Definition f64_lt (x y : f64) : bool := SFltb x y.

Definition is_nan (x : f64) : bool := match x with S754_nan => true | _ => false end.

(** [int(math.Ceil(x))]; a value that does not fit converts to the least integer, as on amd64. *)
Definition int_ceil (x : f64) : Z :=
  let ceil s m e :=
    let v := if (s : bool) then Z.neg m else Z.pos m in
    if decide (0 ≤ e) then v * 2 ^ e else - ((- v) `div` 2 ^ (- e)) in
  match x with
  | S754_zero _ => 0
  | S754_finite s m e =>
      let z := ceil s m e in if decide (is_i64 z) then z else -9223372036854775808
  | _ => -9223372036854775808
  end.

(** The order [sort.Float64s] sorts by: [<], with NaN before everything. *)
Definition f64_less (x y : f64) : bool := f64_lt x y || (is_nan x && negb (is_nan y)).
Definition f64_le (x y : f64) : Prop := f64_less y x = false.

#[export] Instance f64_le_dec : RelDecision f64_le.
Proof. unfold f64_le. intros x y. apply _. Defined.

(** ** The set *)

Record LatencySummary := mkSummary {
  ls_Count : Z;
  ls_Min : f64; ls_Avg : f64; ls_Max : f64;
  ls_P50 : f64; ls_P95 : f64; ls_P99 : f64;
}.

Record latencySet := mkSet {
  lt_samples : list f64;
  lt_count : Z;
  lt_sum : f64;
  lt_min : f64;
  lt_max : f64;
  lt_has : bool;
}.

Definition newLatencySet : latencySet := mkSet [] 0 f64_zero f64_zero f64_zero false.

Definition add (v : f64) (s : latencySet) : latencySet :=
  mkSet (lt_samples s ++ [v]) (u64 (lt_count s + 1)) (f64_add (lt_sum s) v)
    (if negb (lt_has s) || f64_lt v (lt_min s) then v else lt_min s)
    (if negb (lt_has s) || f64_lt (lt_max s) v then v else lt_max s)
    true.

(** The index of a percentile in [n] samples, before it is clamped. *)
Definition percentile_idx (p : Z) (n : nat) : Z :=
  int_ceil (f64_mul (f64_div (f64_of_Z p) (f64_of_Z 100)) (f64_of_Z (Z.of_nat n))) - 1.

Definition percentile (sorted : list f64) (p : Z) : f64 :=
  if decide (length sorted = 0%nat) then f64_zero else
  let idx := percentile_idx p (length sorted) in
  let idx := if decide (idx < 0) then 0 else idx in
  let idx := if decide (Z.of_nat (length sorted) ≤ idx) then Z.of_nat (length sorted) - 1 else idx in
  nth (Z.to_nat idx) sorted f64_zero.

(** [sort.Float64sAreSorted]: no element less than the one before it. *)
Fixpoint are_sorted (l : list f64) : bool :=
  match l with
  | x :: (y :: _) as l' => negb (f64_less y x) && are_sorted l'
  | _ => true
  end.

Definition sorted_samples (samples : list f64) : list f64 :=
  if decide (1 < length samples)%nat then if are_sorted samples then samples else merge_sort f64_le samples else samples.

Definition summaryLocked (s : latencySet) : LatencySummary :=
  if negb (lt_has s) then mkSummary 0 f64_zero f64_zero f64_zero f64_zero f64_zero f64_zero
  else
    let sorted := sorted_samples (lt_samples s) in
    mkSummary (lt_count s) (lt_min s) (f64_div (lt_sum s) (f64_of_Z (lt_count s))) (lt_max s)
      (percentile sorted 50) (percentile sorted 95) (percentile sorted 99).

Definition resetLocked (s : latencySet) : latencySet := newLatencySet.

Definition snapshotReset (s : latencySet) : LatencySummary * latencySet := (summaryLocked s, resetLocked s).

(** ** The order of [float64] *)

(** A key: sign class, exponent, mantissa.  NaN comes first. *)
Definition f64_key (x : f64) : Z * Z * Z :=
  match x with
  | S754_nan => (-1, 0, 0)
  | S754_infinity true => (0, 0, 0)
  | S754_finite true m e => (1, - e, Z.neg m)
  | S754_zero _ => (2, 0, 0)
  | S754_finite false m e => (3, e, Z.pos m)
  | S754_infinity false => (4, 0, 0)
  end.

Definition key_lt (a b : Z * Z * Z) : Prop :=
  a.1.1 < b.1.1 ∨ a.1.1 = b.1.1 ∧ (a.1.2 < b.1.2 ∨ a.1.2 = b.1.2 ∧ a.2 < b.2).

Lemma f64_less_key x y : f64_less x y = true ↔ key_lt (f64_key x) (f64_key y).
Proof.
  destruct x as [sx|[]| |[] mx ex], y as [sy|[]| |[] my ey]; unfold f64_less, f64_lt, SFltb, key_lt; simpl;
    try (split; intros; (done || lia)).
  - destruct (Z.compare_spec ex ey); [|split; intros; (done||lia)..]. fold (Pos.compare mx my). rewrite <-Pos.compare_antisym.
    destruct (Pos.compare_spec my mx); simpl; split; intros; (done || lia).
  - destruct (Z.compare_spec ex ey); [|split; intros; (done||lia)..]. fold (Pos.compare mx my).
    destruct (Pos.compare_spec mx my); simpl; split; intros; (done || lia).
Qed.

Lemma f64_le_key x y : f64_le x y ↔ ¬ key_lt (f64_key y) (f64_key x).
Proof. unfold f64_le. rewrite <-f64_less_key. destruct (f64_less y x); naive_solver. Qed.

#[export] Instance f64_le_total : Total f64_le.
Proof. intros x y. rewrite !f64_le_key. unfold key_lt. lia. Qed.

#[export] Instance f64_le_preorder : PreOrder f64_le.
Proof. split; intros x; [|intros y z]; rewrite !f64_le_key; unfold key_lt; lia. Qed.

Lemma f64_lt_less x y : is_nan x = false → f64_less x y = f64_lt x y.
Proof. intros Hx. unfold f64_less. rewrite Hx. simpl. by rewrite orb_false_r. Qed.

(** ** Sorting and ranks *)

Lemma are_sorted_spec l : are_sorted l = true → Sorted f64_le l.
Proof.
  induction l as [|x [|y l] IH]; [constructor|repeat constructor|]. simpl. intros [Hx Hl]%andb_true_iff.
  constructor; [by apply IH|]. constructor. by apply negb_true_iff.
Qed.

Lemma sorted_samples_spec l : sorted_samples l ≡ₚ l ∧ StronglySorted f64_le (sorted_samples l).
Proof.
  assert (∀ l, Sorted f64_le l → StronglySorted f64_le l) as Hss by (intros; apply Sorted_StronglySorted; [apply _|done]).
  unfold sorted_samples. case_decide as Hl; [destruct (are_sorted l) eqn:E|].
  - split; [done|]. by apply Hss, are_sorted_spec.
  - split; [apply merge_sort_Permutation|]. apply Hss, Sorted_merge_sort, _.
  - split; [done|]. destruct l as [|x [|y l]]; simpl in *; [constructor|repeat constructor|lia].
Qed.

(** The nearest rank of a percentile, 0-based. *)
Definition rank (p : Z) (n : nat) : nat := Z.to_nat ((p * Z.of_nat n + 99) `div` 100 - 1).

(** The rounding of [p/100*n] never moves the rank, for as many samples as evaluated here. *)
Definition max_exact : nat := 4096.

Definition rank_exact (n : nat) : bool :=
  forallb (λ p, bool_decide (percentile_idx p n = (p * Z.of_nat n + 99) `div` 100 - 1)) [50; 95; 99].

Lemma ranks_exact : forallb rank_exact (seq 0 (S max_exact)) = true.
Proof. vm_compute. reflexivity. Qed.

Lemma percentile_idx_exact p n :
  p ∈ [50; 95; 99] → (n ≤ max_exact)%nat → percentile_idx p n = (p * Z.of_nat n + 99) `div` 100 - 1.
Proof.
  intros Hp Hn. pose proof ranks_exact as Hr. rewrite forallb_forall in Hr. specialize (Hr n).
  rewrite <-list_elem_of_In in Hr. unfold rank_exact in Hr. rewrite forallb_forall in Hr.
  apply (bool_decide_eq_true_1 _), Hr; [apply elem_of_seq; lia|by apply list_elem_of_In].
Qed.

Lemma percentile_elem l p : l ≠ [] → percentile l p ∈ l.
Proof.
  intros Hl. unfold percentile. destruct l as [|x l]; [done|]. rewrite decide_False by done.
  set (n := length (x :: l)). assert (0 < n)%nat by (unfold n; simpl; lia).
  apply list_elem_of_In, nth_In. fold n. repeat case_decide; lia.
Qed.

Lemma percentile_rank l p :
  l ≠ [] → p ∈ [50; 95; 99] → (length l ≤ max_exact)%nat → l !! rank p (length l) = Some (percentile l p).
Proof.
  intros Hl Hp Hn. unfold percentile. set (n := length l) in *.
  assert (0 < n)%nat by (unfold n; destruct l; [done|simpl; lia]). rewrite decide_False by lia.
  rewrite percentile_idx_exact by done.
  assert (1 ≤ p ≤ 100) as Hp100 by (set_unfold; lia).
  assert (0 ≤ (p * Z.of_nat n + 99) `div` 100 - 1 < Z.of_nat n) as [H0 H1].
  { assert (1 ≤ (p * Z.of_nat n + 99) `div` 100) by (apply Z.div_le_lower_bound; nia).
    assert ((p * Z.of_nat n + 99) `div` 100 < Z.of_nat n + 1) by (apply Z.div_lt_upper_bound; nia). lia. }
  rewrite (decide_False (P := _ < 0)), (decide_False (P := Z.of_nat n ≤ _)) by lia.
  fold (rank p n). destruct (nth_lookup_or_length l (rank p n) f64_zero) as [?|Hlen]; [done|].
  fold n in Hlen. unfold rank in Hlen. lia.
Qed.

(** ** Accumulating *)

Definition collect (l : list f64) : latencySet := foldl (λ s v, add v s) newLatencySet l.

Lemma collect_snoc l v : collect (l ++ [v]) = add v (collect l).
Proof. unfold collect. by rewrite foldl_app. Qed.

Lemma collect_fields l :
  Z.of_nat (length l) < 18446744073709551616 →
  lt_samples (collect l) = l ∧ lt_count (collect l) = Z.of_nat (length l) ∧ lt_sum (collect l) = foldl f64_add f64_zero l ∧
  lt_has (collect l) = negb (bool_decide (l = [])).
Proof.
  induction l as [|v l IH] using rev_ind; [done|]. rewrite collect_snoc, foldl_app, length_app. simpl. intros Hn.
  destruct IH as (-> & -> & -> & _); [lia|]. split_and!; [done| |done|].
  - unfold u64. rewrite Z.mod_small; lia.
  - by destruct l.
Qed.

(** The running extrema are those of the samples. *)
Lemma collect_extrema l :
  l ≠ [] → (∀ x, x ∈ l → is_nan x = false) →
  lt_min (collect l) ∈ l ∧ lt_max (collect l) ∈ l ∧
  ∀ x, x ∈ l → f64_le (lt_min (collect l)) x ∧ f64_le x (lt_max (collect l)).
Proof.
  induction l as [|v l IH] using rev_ind; [done|]. intros _ Hn. rewrite collect_snoc. simpl.
  destruct (decide (l = [])) as [->|Hl]; simpl.
  { split_and!; [set_solver..|]. intros x ->%list_elem_of_singleton. by split. }
  assert (lt_has (collect l) = true) as ->.
  { clear -Hl. destruct l as [|y l] using rev_ind; [done|]. by rewrite collect_snoc. }
  destruct IH as (Hmin & Hmax & Hall); [done|set_solver|]. simpl.
  assert (is_nan v = false) as Hv by set_solver. assert (is_nan (lt_max (collect l)) = false) as Hm by set_solver.
  rewrite <-(f64_lt_less v) by done. rewrite <-(f64_lt_less (lt_max _)) by done.
  destruct (f64_less v (lt_min (collect l))) eqn:E1, (f64_less (lt_max (collect l)) v) eqn:E2.
  all: split_and!; [set_solver..|]; intros x [Hx| ->%list_elem_of_singleton]%elem_of_app;
    [destruct (Hall x Hx) as [Ha Hb]; revert Ha Hb|]; destruct (Hall _ Hmin) as [_ Hmm]; revert E1 E2 Hmm;
    rewrite ?f64_le_key, <-?not_true_iff_false, ?f64_less_key; unfold key_lt; lia.
Qed.

(** C37: the summary of a set of latencies that are numbers: the count, the average as
    the rounded sum over the count, the least and greatest samples, and percentiles
    that are samples between them; for up to 4096 samples the percentile [p] is
    the sample of nearest rank [ceil (p * n / 100)], so the rounding of [p/100*n] to
    [float64] never moves it. *)
Theorem latency_summary (l : list f64) :
  l ≠ [] → (∀ x, x ∈ l → is_nan x = false) → Z.of_nat (length l) < 18446744073709551616 →
  let r := summaryLocked (collect l) in
  ls_Count r = Z.of_nat (length l) ∧
  ls_Avg r = f64_div (foldl f64_add f64_zero l) (f64_of_Z (Z.of_nat (length l))) ∧
  [ls_Min r; ls_Max r; ls_P50 r; ls_P95 r; ls_P99 r] ⊆ l ∧
  (∀ x, x ∈ l → f64_le (ls_Min r) x ∧ f64_le x (ls_Max r)) ∧
  ((length l ≤ max_exact)%nat → ∃ sorted, sorted ≡ₚ l ∧ StronglySorted f64_le sorted ∧
     sorted !! rank 50 (length l) = Some (ls_P50 r) ∧
     sorted !! rank 95 (length l) = Some (ls_P95 r) ∧
     sorted !! rank 99 (length l) = Some (ls_P99 r)).
Proof.
  intros Hl Hn Hlen. destruct (collect_fields l Hlen) as (Hs & Hc & Hsum & Hh).
  destruct (collect_extrema l Hl Hn) as (Hmin & Hmax & Hall). unfold summaryLocked.
  rewrite Hh, bool_decide_false by done. simpl. rewrite Hs, Hc, Hsum.
  destruct (sorted_samples_spec l) as [Hp Hss]. set (sorted := sorted_samples l) in *.
  assert (sorted ≠ []) as Hne by (intros He; rewrite He in Hp; by apply Permutation_nil_l in Hp).
  assert (∀ p, percentile sorted p ∈ l) as Hpe by (intros p; rewrite <-Hp; by apply percentile_elem).
  split_and!; [done..| |done|].
  - pose proof (Hpe 50). pose proof (Hpe 95). pose proof (Hpe 99). set_solver.
  - intros Hm. exists sorted. rewrite <-(Permutation_length Hp) in *. split_and!; [done..| | |]; apply percentile_rank; set_solver.
Qed.

(** Four samples, in microseconds: 3, 0.5, 12, 7. *)
Definition demo_samples : list f64 :=
  [f64_of_Z 3; f64_div (f64_of_Z 1) (f64_of_Z 2); f64_of_Z 12; f64_of_Z 7].

Lemma latency_summary_witness :
  demo_samples ≠ [] ∧ ls_Count (summaryLocked (collect demo_samples)) = 4 ∧
  ls_P50 (summaryLocked (collect demo_samples)) = f64_of_Z 3.
Proof.
  assert (demo_samples ≠ []) as Hl by discriminate.
  assert (∀ x, x ∈ demo_samples → is_nan x = false) as Hn.
  { apply Forall_forall. repeat (constructor; [vm_compute; reflexivity|]). constructor. }
  split; [exact Hl|]. split; [|vm_compute; reflexivity].
  exact (proj1 (latency_summary demo_samples Hl Hn eq_refl)).
Defined.
