(* ===== verification/BenchStats.v ===== *)
(** * The benchmark's accumulators (src/internal/bench/metrics.go)

    The counters and latency sets the workers update, the phase boundary, and the rows
    the sampler takes.  A record call, the boundary and a sample are each one
    operation here; the counters they touch are atomics that never depend on each
    other, and [phaseMu] makes the boundary exclusive with the record calls. *)

From S2P Require Import Prelude BenchTopology BenchLatency.

(** ** Data *)

Record connStats := mkConnStats {
  cs_published : Z;
  cs_consumed : Z;
  cs_delivered : Z;
  cs_delLatSum : f64;
  cs_delLatCount : Z;
}.

(** The measured totals, the all-time counters and the window counters. *)
Record totals := mkTotals { m_published : Z; m_delivered : Z; m_consumed : Z; m_duplicates : Z; m_drops : Z }.
Record alltime := mkAlltime { a_published : Z; a_delivered : Z; a_consumed : Z; a_acks : Z }.
Record window := mkWindow { w_pub : Z; w_del : Z; w_cons : Z; w_dup : Z }.

(** The latency sets: whole run and window, all deliveries, acks, and by role. *)
Record latencies := mkLatencies {
  l_delTot : latencySet; l_ackTot : latencySet; l_delWin : latencySet; l_ackWin : latencySet;
  l_roleTot : gmap string latencySet; l_roleWin : gmap string latencySet;
}.

Record stats := mkStats {
  s_phaseFrom : Z;
  s_meas : totals;
  s_all : alltime;
  s_win : window;
  s_lat : latencies;
  s_perConn : list connStats;
  s_perPubCh : list Z;
  s_total : Z;
}.

(** One CSV row's worth of data; times are in nanoseconds. *)
Record intervalRecord := mkInterval {
  ir_TsStart : Z;
  ir_WindowMs : f64;
  ir_Published : Z; ir_Delivered : Z; ir_Consumed : Z; ir_Duplicates : Z; ir_Drops : Z;
  ir_DelLat : LatencySummary;
  ir_AckAvgUs : f64; ir_BothP95Us : f64; ir_ConsP95Us : f64;
}.

Definition roleKeys : list string := ["both"; "cons"].

(** These functions return no errors; they may panic. *)
Abbreviation may_panic := (result Empty_set).

Definition zero_conn : connStats := mkConnStats 0 0 0 f64_zero 0.

Definition newStats (t : Topology) (total : Z) : stats :=
  let sets := list_to_map ((λ k, (k, newLatencySet)) <$> roleKeys) in
  mkStats 0 (mkTotals 0 0 0 0 0) (mkAlltime 0 0 0 0) (mkWindow 0 0 0 0)
    (mkLatencies newLatencySet newLatencySet newLatencySet newLatencySet sets sets)
    (replicate (length (t_Conns t)) zero_conn) (replicate (length (t_publishCapable t)) 0) total.

(** ** Operations *)

(** [x.Add(1)], [x++] on [uint64] *)
Definition incr (x : Z) : Z := u64 (x + 1).

(** An update of [l[i]] in place through a pointer. *)
Definition update_at {A} (l : list A) (i : Z) (f : A → A) : may_panic (list A) :=
  x ← index l i;
  Ok (<[Z.to_nat i := f x]> l).

(** [m[k].add(v)]: a missing key gives a nil set, and [add] panics on it. *)
Definition add_role (sets : gmap string latencySet) (k : string) (v : f64) : may_panic (gmap string latencySet) :=
  match sets !! k with
  | Some s => Ok (<[k := add v s]> sets)
  | None => Crash
  end.

Definition recordPublish (s : stats) (sl : channelSlot) (seq : Z) (latUs : f64) : may_panic stats :=
  let a := s_all s in
  let a := mkAlltime (incr (a_published a)) (a_delivered a) (a_consumed a) (a_acks a) in
  if decide (seq ≤ s_phaseFrom s) then
    Ok (mkStats (s_phaseFrom s) (s_meas s) a (s_win s) (s_lat s) (s_perConn s) (s_perPubCh s) (s_total s))
  else
    let m := s_meas s in
    let m := mkTotals (incr (m_published m)) (m_delivered m) (m_consumed m) (m_duplicates m) (m_drops m) in
    let w := s_win s in
    let w := mkWindow (incr (w_pub w)) (w_del w) (w_cons w) (w_dup w) in
    conns ← update_at (s_perConn s) (sl_Conn sl) (λ cs,
              mkConnStats (incr (cs_published cs)) (cs_consumed cs) (cs_delivered cs) (cs_delLatSum cs) (cs_delLatCount cs));
    pubs ← (if decide (0 ≤ sl_publishCapIdx sl) then update_at (s_perPubCh s) (sl_publishCapIdx sl) incr
            else Ok (s_perPubCh s));
    Ok (mkStats (s_phaseFrom s) m a w (s_lat s) conns pubs (s_total s)).

Definition recordDeliver (s : stats) (sl : channelSlot) (seq : Z) (delLatUs : f64) (dup : bool) : may_panic stats :=
  let a := s_all s in
  let a := mkAlltime (a_published a) (incr (a_delivered a)) (if dup then a_consumed a else incr (a_consumed a)) (a_acks a) in
  if decide (seq ≤ s_phaseFrom s) then
    Ok (mkStats (s_phaseFrom s) (s_meas s) a (s_win s) (s_lat s) (s_perConn s) (s_perPubCh s) (s_total s))
  else
    let m := s_meas s in
    let m := mkTotals (m_published m) (incr (m_delivered m)) (if dup then m_consumed m else incr (m_consumed m))
               (if dup then incr (m_duplicates m) else m_duplicates m) (m_drops m) in
    let w := s_win s in
    let w := mkWindow (w_pub w) (incr (w_del w)) (if dup then w_cons w else incr (w_cons w))
               (if dup then incr (w_dup w) else w_dup w) in
    let l := s_lat s in
    let k := role_key (sl_Role sl) in
    roleTot ← (if decide (k ≠ "") then add_role (l_roleTot l) k delLatUs else Ok (l_roleTot l));
    roleWin ← (if decide (k ≠ "") then add_role (l_roleWin l) k delLatUs else Ok (l_roleWin l));
    let l := mkLatencies (add delLatUs (l_delTot l)) (l_ackTot l) (add delLatUs (l_delWin l)) (l_ackWin l) roleTot roleWin in
    conns ← update_at (s_perConn s) (sl_Conn sl) (λ cs,
              mkConnStats (cs_published cs) (if dup then cs_consumed cs else incr (cs_consumed cs)) (incr (cs_delivered cs))
                (f64_add (cs_delLatSum cs) delLatUs) (incr (cs_delLatCount cs)));
    Ok (mkStats (s_phaseFrom s) m a w l conns (s_perPubCh s) (s_total s)).

Definition recordAck (s : stats) (seq : Z) (latUs : f64) : stats :=
  let a := s_all s in
  let a := mkAlltime (a_published a) (a_delivered a) (a_consumed a) (incr (a_acks a)) in
  let l := s_lat s in
  let l := if decide (seq ≤ s_phaseFrom s) then l
           else mkLatencies (l_delTot l) (add latUs (l_ackTot l)) (l_delWin l) (add latUs (l_ackWin l)) (l_roleTot l) (l_roleWin l) in
  mkStats (s_phaseFrom s) (s_meas s) a (s_win s) l (s_perConn s) (s_perPubCh s) (s_total s).

Definition drained (s : stats) (ack : bool) : bool :=
  if ack then bool_decide (a_published (s_all s) ≤ a_consumed (s_all s)) && bool_decide (a_delivered (s_all s) ≤ a_acks (s_all s))
  else bool_decide (m_published (s_meas s) ≤ m_consumed (s_meas s)).

(** [for _, k := range roleKeys { sets[k].reset() }] *)
Definition reset_roles (sets : gmap string latencySet) : may_panic (gmap string latencySet) :=
  foldE (λ sets k, match sets !! k with Some s => Ok (<[k := resetLocked s]> sets) | None => Crash end) sets roleKeys.

Definition resetAll (s : stats) : may_panic stats :=
  let l := s_lat s in
  roleTot ← reset_roles (l_roleTot l);
  roleWin ← reset_roles (l_roleWin l);
  Ok (mkStats (s_phaseFrom s) (mkTotals 0 0 0 0 0) (s_all s) (mkWindow 0 0 0 0)
        (mkLatencies (resetLocked (l_delTot l)) (resetLocked (l_ackTot l)) (resetLocked (l_delWin l)) (resetLocked (l_ackWin l))
           roleTot roleWin)
        ((λ _, zero_conn) <$> s_perConn s) ((λ _, 0) <$> s_perPubCh s) (s_total s)).

(** [seq] is the value of the shared sequence counter. *)
Definition beginMeasured (s : stats) (seq : Z) : may_panic stats :=
  resetAll (mkStats seq (s_meas s) (s_all s) (s_win s) (s_lat s) (s_perConn s) (s_perPubCh s) (s_total s)).

(** [sets[k].snapshotReset()] *)
Definition snapshot_role (sets : gmap string latencySet) (k : string) : may_panic (LatencySummary * gmap string latencySet) :=
  match sets !! k with
  | Some s => Ok ((snapshotReset s).1, <[k := (snapshotReset s).2]> sets)
  | None => Crash
  end.

(** [t.Sub(u)] saturates. *)
Definition time_sub (t u : Z) : Z := Z.max (-9223372036854775808) (Z.min 9223372036854775807 (t - u)).

Definition sampleWindow (s : stats) (ts end_ : Z) : may_panic (intervalRecord * stats) :=
  let w := s_win s in
  let l := s_lat s in
  let '(delLat, delWin) := snapshotReset (l_delWin l) in
  let '(ack, ackWin) := snapshotReset (l_ackWin l) in
  '(bothLat, roleWin) ← snapshot_role (l_roleWin l) "both";
  '(consLat, roleWin) ← snapshot_role roleWin "cons";
  let pub := m_published (s_meas s) in
  let con := m_consumed (s_meas s) in
  let rec := mkInterval ts (f64_div (f64_of_Z (time_sub end_ ts)) (f64_of_Z 1000000)) (w_pub w) (w_del w) (w_cons w) (w_dup w)
               (if decide (pub > con) then u64 (pub - con) else 0) delLat
               (if decide (ls_Count ack > 0) then ls_Avg ack else f64_zero) (ls_P95 bothLat) (ls_P95 consLat) in
  Ok (rec, mkStats (s_phaseFrom s) (s_meas s) (s_all s) (mkWindow 0 0 0 0)
             (mkLatencies (l_delTot l) (l_ackTot l) delWin ackWin (l_roleTot l) roleWin) (s_perConn s) (s_perPubCh s) (s_total s)).

(** engine.go: after the drain, the loss is stored. *)
Definition store_drops (s : stats) : stats :=
  let m := s_meas s in
  if decide (m_published m > m_consumed m) then
    mkStats (s_phaseFrom s)
      (mkTotals (m_published m) (m_delivered m) (m_consumed m) (m_duplicates m) (u64 (m_published m - m_consumed m)))
      (s_all s) (s_win s) (s_lat s) (s_perConn s) (s_perPubCh s) (s_total s)
  else s.

(** ** Runs *)

(** What the goroutines of a run do to the accumulators, in some order. *)
Inductive event : Type :=
| EPublish (sl : channelSlot) (seq : Z) (lat : f64)
| EDeliver (sl : channelSlot) (seq : Z) (lat : f64) (dup : bool)
| EAck (seq : Z) (lat : f64)
| EBegin (seq : Z)
| ESample (ts end_ : Z)
| EDrops.

Definition run_event (s : stats) (e : event) : may_panic (list intervalRecord * stats) :=
  match e with
  | EPublish sl seq lat => s ← recordPublish s sl seq lat; Ok ([], s)
  | EDeliver sl seq lat dup => s ← recordDeliver s sl seq lat dup; Ok ([], s)
  | EAck seq lat => Ok ([], recordAck s seq lat)
  | EBegin seq => s ← beginMeasured s seq; Ok ([], s)
  | ESample ts end_ => '(r, s) ← sampleWindow s ts end_; Ok ([r], s)
  | EDrops => Ok ([], store_drops s)
  end.

Fixpoint run_events (s : stats) (l : list event) : may_panic (list intervalRecord * stats) :=
  match l with
  | [] => Ok ([], s)
  | e :: l' => '(r, s) ← run_event s e; '(rs, s) ← run_events s l'; Ok (r ++ rs, s)
  end.

(** ** The history the accumulators stand for *)

(** What was measured: records with a sequence number above the cutoff. *)
Definition m_pubs (c : Z) (evs : list event) : list channelSlot :=
  omap (λ e, match e with EPublish sl q _ => if decide (q ≤ c) then None else Some sl | _ => None end) evs.
Definition m_dels (c : Z) (evs : list event) : list (channelSlot * f64 * bool) :=
  omap (λ e, match e with EDeliver sl q v d => if decide (q ≤ c) then None else Some (sl, v, d) | _ => None end) evs.
Definition m_acks (c : Z) (evs : list event) : list f64 :=
  omap (λ e, match e with EAck q v => if decide (q ≤ c) then None else Some v | _ => None end) evs.

(** Projections of a delivery. *)
Definition d_slot (d : channelSlot * f64 * bool) : channelSlot := d.1.1.
Definition d_lat (d : channelSlot * f64 * bool) : f64 := d.1.2.
Definition d_dup (d : channelSlot * f64 * bool) : bool := d.2.

(** Deliveries of a message seen before, and first deliveries. *)
Definition dups (ds : list (channelSlot * f64 * bool)) := filter (λ d, d_dup d = true) ds.
Definition firsts (ds : list (channelSlot * f64 * bool)) := filter (λ d, d_dup d = false) ds.
Definition with_role (k : string) (ds : list (channelSlot * f64 * bool)) := filter (λ d, role_key (sl_Role (d_slot d)) = k) ds.
Definition on_conn (k : Z) (ds : list (channelSlot * f64 * bool)) := filter (λ d, sl_Conn (d_slot d) = k) ds.

(** A count held in a [uint64]. *)
Definition count {A} (l : list A) : Z := u64 (Z.of_nat (length l)).

(** A history: everything since the start, the cutoff, what came since the boundary,
    what came since the last sample, and the loss last stored. *)
Record hist := mkHist { h_all : list event; h_cut : Z; h_meas : list event; h_win : list event; h_drops : Z }.

Definition hist0 : hist := mkHist [] 0 [] [] 0.

Definition hist_step (h : hist) (e : event) : hist :=
  match e with
  | EBegin q => mkHist (h_all h ++ [e]) q [] [] 0
  | ESample _ _ => mkHist (h_all h ++ [e]) (h_cut h) (h_meas h ++ [e]) [] (h_drops h)
  | EDrops =>
      let pub := count (m_pubs (h_cut h) (h_meas h)) in
      let con := count (firsts (m_dels (h_cut h) (h_meas h))) in
      mkHist (h_all h ++ [e]) (h_cut h) (h_meas h ++ [e]) (h_win h ++ [e])
        (if decide (pub > con) then u64 (pub - con) else h_drops h)
  | _ => mkHist (h_all h ++ [e]) (h_cut h) (h_meas h ++ [e]) (h_win h ++ [e]) (h_drops h)
  end.

Definition role_sets (ds : list (channelSlot * f64 * bool)) : gmap string latencySet :=
  list_to_map ((λ k, (k, collect (d_lat <$> with_role k ds))) <$> roleKeys).

Definition abs_conn (ps : list channelSlot) (ds : list (channelSlot * f64 * bool)) (k : nat) : connStats :=
  let ds := on_conn (Z.of_nat k) ds in
  mkConnStats (count (filter (λ sl, sl_Conn sl = Z.of_nat k) ps)) (count (firsts ds)) (count ds)
    (foldl f64_add f64_zero (d_lat <$> ds)) (count ds).

Definition abs_pubCh (ps : list channelSlot) (k : nat) : Z := count (filter (λ sl, sl_publishCapIdx sl = Z.of_nat k) ps).

(** All events of a kind, whatever their sequence number. *)
Definition is_pub (e : event) : bool := match e with EPublish _ _ _ => true | _ => false end.
Definition is_del (e : event) : bool := match e with EDeliver _ _ _ _ => true | _ => false end.
Definition is_first (e : event) : bool := match e with EDeliver _ _ _ d => negb d | _ => false end.
Definition is_ack (e : event) : bool := match e with EAck _ _ => true | _ => false end.
Definition all_of (k : event → bool) (evs : list event) : list event := filter (λ e, k e = true) evs.

(** The accumulators a history stands for. *)
Definition abs (t : Topology) (total : Z) (h : hist) : stats :=
  let ps := m_pubs (h_cut h) (h_meas h) in
  let ds := m_dels (h_cut h) (h_meas h) in
  let wps := m_pubs (h_cut h) (h_win h) in
  let wds := m_dels (h_cut h) (h_win h) in
  mkStats (h_cut h)
    (mkTotals (count ps) (count ds) (count (firsts ds)) (count (dups ds)) (h_drops h))
    (mkAlltime (count (all_of is_pub (h_all h))) (count (all_of is_del (h_all h))) (count (all_of is_first (h_all h)))
       (count (all_of is_ack (h_all h))))
    (mkWindow (count wps) (count wds) (count (firsts wds)) (count (dups wds)))
    (mkLatencies (collect (d_lat <$> ds)) (collect (m_acks (h_cut h) (h_meas h)))
       (collect (d_lat <$> wds)) (collect (m_acks (h_cut h) (h_win h))) (role_sets ds) (role_sets wds))
    (abs_conn ps ds <$> seq 0 (length (t_Conns t))) (abs_pubCh ps <$> seq 0 (length (t_publishCapable t))) total.

(** The row a sample of a history yields. *)
Definition abs_row (h : hist) (ts end_ : Z) : intervalRecord :=
  let wds := m_dels (h_cut h) (h_win h) in
  let acks := summaryLocked (collect (m_acks (h_cut h) (h_win h))) in
  let pub := count (m_pubs (h_cut h) (h_meas h)) in
  let con := count (firsts (m_dels (h_cut h) (h_meas h))) in
  mkInterval ts (f64_div (f64_of_Z (time_sub end_ ts)) (f64_of_Z 1000000))
    (count (m_pubs (h_cut h) (h_win h))) (count wds) (count (firsts wds)) (count (dups wds))
    (if decide (pub > con) then u64 (pub - con) else 0)
    (summaryLocked (collect (d_lat <$> wds)))
    (if decide (ls_Count acks > 0) then ls_Avg acks else f64_zero)
    (ls_P95 (summaryLocked (collect (d_lat <$> with_role "both" wds))))
    (ls_P95 (summaryLocked (collect (d_lat <$> with_role "cons" wds)))).

(** The rows of a run. *)
Fixpoint abs_rows (h : hist) (l : list event) : list intervalRecord :=
  match l with
  | [] => []
  | e :: l' => match e with ESample ts end_ => [abs_row h ts end_] | _ => [] end ++ abs_rows (hist_step h e) l'
  end.

(** The slots of the events belong to the plan. *)
Definition slot_in (t : Topology) (sl : channelSlot) : Prop :=
  0 ≤ sl_Conn sl < Z.of_nat (length (t_Conns t)) ∧ sl_publishCapIdx sl < Z.of_nat (length (t_publishCapable t)).
Definition event_in (t : Topology) (e : event) : Prop :=
  match e with EPublish sl _ _ => slot_in t sl | EDeliver sl _ _ _ => slot_in t sl | _ => True end.

(** ** Counting *)

Lemma count_snoc {A} (l : list A) x : count (l ++ [x]) = incr (count l).
Proof. unfold count, incr, u64. rewrite length_app, Zplus_mod_idemp_l. simpl. f_equal. lia. Qed.

Lemma count_nil {A} : count ([] : list A) = 0.
Proof. done. Qed.

Lemma collect_nil : collect [] = newLatencySet.
Proof. done. Qed.

Lemma update_abs {A} (f g : nat → A) (u : A → A) (n : nat) (i : Z) :
  0 ≤ i < Z.of_nat n → u (f (Z.to_nat i)) = g (Z.to_nat i) → (∀ k, Z.of_nat k ≠ i → f k = g k) →
  update_at (f <$> seq 0 n) i u = Ok (g <$> seq 0 n).
Proof.
  intros Hi Hu Hne. unfold update_at, index. rewrite decide_True by lia.
  rewrite list_lookup_fmap, lookup_seq_lt by lia. simpl. rewrite Hu. f_equal. apply list_eq. intros k.
  destruct (decide (k = Z.to_nat i)) as [->|Hk].
  - rewrite list_lookup_insert_eq by (rewrite length_fmap, length_seq; lia). by rewrite list_lookup_fmap, lookup_seq_lt by lia.
  - rewrite list_lookup_insert_ne by done. rewrite !list_lookup_fmap. destruct (seq 0 n !! k) as [k'|] eqn:E; [|done].
    apply lookup_seq in E as [-> _]. simpl. f_equal. apply Hne. lia.
Qed.

Lemma filter_snoc_True {A} (P : A → Prop) `{!∀ x, Decision (P x)} (l : list A) x : P x → filter P (l ++ [x]) = filter P l ++ [x].
Proof. intros Hx. by rewrite filter_app, filter_cons_True. Qed.
Lemma filter_snoc_False {A} (P : A → Prop) `{!∀ x, Decision (P x)} (l : list A) x : ¬ P x → filter P (l ++ [x]) = filter P l.
Proof. intros Hx. by rewrite filter_app, filter_cons_False, filter_nil, app_nil_r. Qed.

Lemma m_pubs_app c l l' : m_pubs c (l ++ l') = m_pubs c l ++ m_pubs c l'.
Proof. apply omap_app. Qed.
Lemma m_dels_app c l l' : m_dels c (l ++ l') = m_dels c l ++ m_dels c l'.
Proof. apply omap_app. Qed.
Lemma m_acks_app c l l' : m_acks c (l ++ l') = m_acks c l ++ m_acks c l'.
Proof. apply omap_app. Qed.
Lemma all_of_app k l l' : all_of k (l ++ l') = all_of k l ++ all_of k l'.
Proof. apply filter_app. Qed.

Lemma all_of_one k e : all_of k [e] = if k e then [e] else [].
Proof. unfold all_of. rewrite filter_cons. by destruct (k e). Qed.
Lemma firsts_snoc ds d : firsts (ds ++ [d]) = firsts ds ++ (if d_dup d then [] else [d]).
Proof. unfold firsts. rewrite filter_app, filter_cons. by destruct (d_dup d). Qed.
Lemma dups_snoc ds d : dups (ds ++ [d]) = dups ds ++ (if d_dup d then [d] else []).
Proof. unfold dups. rewrite filter_app, filter_cons. by destruct (d_dup d). Qed.
Lemma lats_snoc ds d : collect (d_lat <$> ds ++ [d]) = add (d_lat d) (collect (d_lat <$> ds)).
Proof. rewrite fmap_app. apply collect_snoc. Qed.

Create Rewrite HintDb hist.
#[export] Hint Rewrite m_pubs_app m_dels_app m_acks_app all_of_app all_of_one @app_nil_r @count_snoc @count_nil
  firsts_snoc dups_snoc lats_snoc collect_snoc : hist.

(** An event that measures nothing of a kind adds nothing to the list of that kind. *)
Ltac hist_simpl :=
  autorewrite with hist;
  repeat match goal with
  | |- context [m_pubs ?c [?e]] => let r := eval simpl in (m_pubs c [e]) in change (m_pubs c [e]) with r
  | |- context [m_dels ?c [?e]] => let r := eval simpl in (m_dels c [e]) in change (m_dels c [e]) with r
  | |- context [m_acks ?c [?e]] => let r := eval simpl in (m_acks c [e]) in change (m_acks c [e]) with r
  end;
  cbn [is_pub is_del is_first is_ack negb];
  autorewrite with hist.

Lemma abs_conn_pub_eq ps ds sl k :
  sl_Conn sl = Z.of_nat k → abs_conn (ps ++ [sl]) ds k =
    mkConnStats (incr (cs_published (abs_conn ps ds k))) (cs_consumed (abs_conn ps ds k)) (cs_delivered (abs_conn ps ds k))
      (cs_delLatSum (abs_conn ps ds k)) (cs_delLatCount (abs_conn ps ds k)).
Proof. intros Hk. unfold abs_conn. simpl. rewrite filter_snoc_True by done. by rewrite count_snoc. Qed.

Lemma abs_conn_pub_ne ps ds sl k : sl_Conn sl ≠ Z.of_nat k → abs_conn (ps ++ [sl]) ds k = abs_conn ps ds k.
Proof. intros Hk. unfold abs_conn. by rewrite filter_snoc_False by done. Qed.

Lemma abs_conn_del_eq ps ds d k :
  sl_Conn (d_slot d) = Z.of_nat k → abs_conn ps (ds ++ [d]) k =
    mkConnStats (cs_published (abs_conn ps ds k))
      (if d_dup d then cs_consumed (abs_conn ps ds k) else incr (cs_consumed (abs_conn ps ds k)))
      (incr (cs_delivered (abs_conn ps ds k))) (f64_add (cs_delLatSum (abs_conn ps ds k)) (d_lat d))
      (incr (cs_delLatCount (abs_conn ps ds k))).
Proof.
  intros Hk. unfold abs_conn, on_conn. simpl. rewrite filter_snoc_True by done.
  rewrite count_snoc, firsts_snoc, fmap_app, foldl_app. destruct (d_dup d); by autorewrite with hist.
Qed.

Lemma abs_conn_del_ne ps ds d k : sl_Conn (d_slot d) ≠ Z.of_nat k → abs_conn ps (ds ++ [d]) k = abs_conn ps ds k.
Proof. intros Hk. unfold abs_conn, on_conn. by rewrite filter_snoc_False by done. Qed.

Lemma abs_pubCh_eq ps sl k : sl_publishCapIdx sl = Z.of_nat k → abs_pubCh (ps ++ [sl]) k = incr (abs_pubCh ps k).
Proof. intros Hk. unfold abs_pubCh. rewrite filter_snoc_True by done. apply count_snoc. Qed.

Lemma abs_pubCh_ne ps sl k : sl_publishCapIdx sl ≠ Z.of_nat k → abs_pubCh (ps ++ [sl]) k = abs_pubCh ps k.
Proof. intros Hk. unfold abs_pubCh. by rewrite filter_snoc_False by done. Qed.

Lemma role_sets_unfold ds :
  role_sets ds = <["both" := collect (d_lat <$> with_role "both" ds)]>
                   (<["cons" := collect (d_lat <$> with_role "cons" ds)]> ∅).
Proof. done. Qed.

Lemma with_role_eq k ds d : role_key (sl_Role (d_slot d)) = k → with_role k (ds ++ [d]) = with_role k ds ++ [d].
Proof. intros Hk. unfold with_role. by rewrite filter_snoc_True by done. Qed.

Lemma with_role_ne k ds d : role_key (sl_Role (d_slot d)) ≠ k → with_role k (ds ++ [d]) = with_role k ds.
Proof. intros Hk. unfold with_role. by rewrite filter_snoc_False by done. Qed.

(** A delivery goes to the set of its channel's role, if that role has one. *)
Lemma add_role_abs ds sl v d :
  (if decide (role_key (sl_Role sl) ≠ "") then add_role (role_sets ds) (role_key (sl_Role sl)) v else Ok (role_sets ds)) =
  Ok (role_sets (ds ++ [(sl, v, d)])).
Proof.
  unfold add_role. rewrite !role_sets_unfold.
  assert (d_slot (sl, v, d) = sl) as Hsl by done. destruct (sl_Role sl) eqn:Er; simpl.
  - rewrite lookup_insert_eq, insert_insert_eq.
    by rewrite (with_role_eq "both"), (with_role_ne "cons"), lats_snoc by (by rewrite Hsl, Er).
  - by rewrite !with_role_ne by (by rewrite Hsl, Er).
  - rewrite lookup_insert_ne, lookup_insert_eq, insert_insert_ne, insert_insert_eq by done.
    by rewrite (with_role_ne "both"), (with_role_eq "cons"), lats_snoc by (by rewrite Hsl, Er).
Qed.

Section Steps.
Context (t : Topology) (total : Z).

Lemma publish_abs h sl seq lat :
  slot_in t sl → recordPublish (abs t total h) sl seq lat = Ok (abs t total (hist_step h (EPublish sl seq lat))).
Proof.
  intros [Hcn Hcap]. unfold recordPublish. simpl. unfold abs. simpl. hist_simpl. case_decide as Hq; hist_simpl; [done|].
  set (ps := m_pubs _ (h_meas h)). set (ds := m_dels _ (h_meas h)).
  rewrite (update_abs _ (abs_conn (ps ++ [sl]) ds)); [|done| |].
  2: { symmetry. apply abs_conn_pub_eq. lia. }
  2: { intros k Hk. symmetry. apply abs_conn_pub_ne. done. }
  simpl. case_decide as Hcap0.
  - rewrite (update_abs _ (abs_pubCh (ps ++ [sl]))); [done|lia| |].
    + symmetry. apply abs_pubCh_eq. lia.
    + intros k Hk. symmetry. by apply abs_pubCh_ne.
  - simpl. do 2 f_equal. apply list_fmap_ext. intros i k _. symmetry. apply abs_pubCh_ne. lia.
Qed.

Lemma deliver_abs h sl seq lat dup :
  slot_in t sl → recordDeliver (abs t total h) sl seq lat dup = Ok (abs t total (hist_step h (EDeliver sl seq lat dup))).
Proof.
  intros [Hcn Hcap]. unfold recordDeliver. cbn [abs hist_step]. simpl. unfold abs. simpl. hist_simpl.
  case_decide as Hq; hist_simpl; [by destruct dup; hist_simpl|].
  rewrite !(add_role_abs _ sl lat dup). simpl.
  set (ps := m_pubs _ (h_meas h)). set (ds := m_dels _ (h_meas h)).
  rewrite (update_abs _ (abs_conn ps (ds ++ [(sl, lat, dup)]))); [|done| |].
  2: { symmetry. apply (abs_conn_del_eq ps ds (sl, lat, dup)). unfold d_slot. simpl. lia. }
  2: { intros k Hk. symmetry. by apply abs_conn_del_ne. }
  simpl. by destruct dup; hist_simpl.
Qed.

Lemma reset_roles_abs ds : reset_roles (role_sets ds) = Ok (role_sets []).
Proof.
  rewrite !role_sets_unfold. unfold reset_roles, roleKeys. cbn [foldE].
  rewrite lookup_insert_eq. simpl. rewrite insert_insert_eq, lookup_insert_ne, lookup_insert_eq by done. simpl.
  by rewrite insert_insert_ne, insert_insert_eq by done.
Qed.

Lemma abs_conn_nil k : abs_conn [] [] k = zero_conn.
Proof. done. Qed.

Lemma begin_abs h q : beginMeasured (abs t total h) q = Ok (abs t total (hist_step h (EBegin q))).
Proof.
  unfold beginMeasured, resetAll. simpl. rewrite !reset_roles_abs. simpl. unfold abs. simpl. hist_simpl.
  rewrite <-!list_fmap_compose. done.
Qed.

Lemma snapshot_role_both ds :
  snapshot_role (role_sets ds) "both" =
  Ok (summaryLocked (collect (d_lat <$> with_role "both" ds)),
      <["both" := newLatencySet]> (<["cons" := collect (d_lat <$> with_role "cons" ds)]> ∅)).
Proof. rewrite role_sets_unfold. unfold snapshot_role. by rewrite lookup_insert_eq, insert_insert_eq. Qed.

Lemma sample_abs h ts end_ :
  sampleWindow (abs t total h) ts end_ = Ok (abs_row h ts end_, abs t total (hist_step h (ESample ts end_))).
Proof.
  unfold sampleWindow. simpl. rewrite snapshot_role_both. simpl. unfold snapshot_role.
  rewrite lookup_insert_ne, lookup_insert_eq by done. simpl. rewrite insert_insert_ne, insert_insert_eq by done.
  unfold abs, abs_row. simpl. by hist_simpl.
Qed.

Lemma ack_abs h q v : recordAck (abs t total h) q v = abs t total (hist_step h (EAck q v)).
Proof. unfold recordAck, abs. simpl. hist_simpl. case_decide; by hist_simpl. Qed.

Lemma drops_abs h : store_drops (abs t total h) = abs t total (hist_step h EDrops).
Proof. unfold store_drops, abs. simpl. hist_simpl. by case_decide. Qed.

Lemma new_abs : newStats t total = abs t total hist0.
Proof.
  unfold newStats, abs. simpl. f_equal; apply list_eq; intros k; rewrite list_lookup_fmap.
  - destruct (decide (k < length (t_Conns t))%nat).
    + by rewrite lookup_seq_lt, lookup_replicate_2.
    + by rewrite !lookup_ge_None_2 by (rewrite ?length_seq, ?length_replicate; lia).
  - destruct (decide (k < length (t_publishCapable t))%nat).
    + by rewrite lookup_seq_lt, lookup_replicate_2.
    + by rewrite !lookup_ge_None_2 by (rewrite ?length_seq, ?length_replicate; lia).
Qed.

Lemma run_abs h l :
  Forall (event_in t) l →
  run_events (abs t total h) l = Ok (abs_rows h l, abs t total (foldl hist_step h l)).
Proof.
  intros Hl. revert h. induction Hl as [|e l He Hl IH]; intros h; [done|]. simpl. destruct e; simpl in He |- *.
  - rewrite publish_abs by done. simpl. by rewrite IH.
  - rewrite deliver_abs by done. simpl. by rewrite IH.
  - rewrite ack_abs. by rewrite IH.
  - rewrite begin_abs. simpl. by rewrite IH.
  - rewrite sample_abs. simpl. by rewrite IH.
  - rewrite drops_abs. by rewrite IH.
Qed.
End Steps.
