(* ===== verification/BenchCsv.v ===== *)
(** * The benchmark's CSV output (src/internal/bench/csv.go)

    The columns, the text of a row, and the writer that keeps its first error.  Numbers
    are formatted as [strconv] does: floats exactly, rounded half to even at the last
    place.  The offset of the local time zone is an argument. *)

From Stdlib Require Import SpecFloat.
From S2P Require Import Prelude Bufio BenchTopology BenchLatency BenchStats.

(** ** Formatting *)

Definition comma : Ascii.ascii := Ascii.ascii_of_nat 44.
Definition newline : Ascii.ascii := Ascii.ascii_of_nat 10.
Definition chr (a : Ascii.ascii) : string := String a "".

(** [strings.Join(l, sep)] for a separator of one byte *)
Fixpoint join (sep : Ascii.ascii) (l : list string) : string :=
  match l with
  | [] => ""
  | [s] => s
  | s :: l' => s +:+ chr sep +:+ join sep l'
  end.

(** A natural number in at least [w] digits. *)
Fixpoint zeros (n : nat) : string := match n with O => "" | S n' => String (Ascii.ascii_of_nat 48) (zeros n') end.
Definition pad (w : nat) (n : Z) : string :=
  let s := pretty (Z.to_N n) in zeros (w - String.length s) +:+ s.

(** [n / d] rounded to the nearest integer, ties to even *)
Definition round_half_even (n d : Z) : Z :=
  let q := n `div` d in
  let r := n `mod` d in
  match Z.compare (2 * r) d with
  | Lt => q
  | Gt => q + 1
  | Eq => if Z.even q then q else q + 1
  end.

(** [|x| * 10^prec], rounded *)
Definition scaled (prec : nat) (m : positive) (e : Z) : Z :=
  if decide (0 ≤ e) then Z.pos m * 2 ^ e * 10 ^ Z.of_nat prec
  else round_half_even (Z.pos m * 10 ^ Z.of_nat prec) (2 ^ (- e)).

Definition fixed_point (prec : nat) (neg : bool) (v : Z) : string :=
  (if neg then "-" else "") +:+ pad 1 (v `div` 10 ^ Z.of_nat prec) +:+ "." +:+ pad prec (v `mod` 10 ^ Z.of_nat prec).

(** [strconv.FormatFloat(x, 'f', prec, 64)], for [prec > 0] *)
Definition FormatFloat (prec : nat) (x : f64) : string :=
  match x with
  | S754_zero s => fixed_point prec s 0
  | S754_infinity s => if s then "-Inf" else "+Inf"
  | S754_nan => "NaN"
  | S754_finite s m e => fixed_point prec s (scaled prec m e)
  end.

(** [strconv.FormatUint(n, 10)] *)
Definition FormatUint (n : Z) : string := pretty (Z.to_N n).

(** The date of the day [d] days after 1970-01-01, in the proleptic Gregorian calendar:
    years run from March, in eras of 400 years. *)
Definition civil (d : Z) : Z * Z * Z :=
  let z := d + 719468 in
  let era := z `div` 146097 in
  let doe := z `mod` 146097 in
  let yoe := (doe - doe `div` 1460 + doe `div` 36524 - doe `div` 146096) `div` 365 in
  let doy := doe - (365 * yoe + yoe `div` 4 - yoe `div` 100) in
  let mp := (5 * doy + 2) `div` 153 in
  let day := doy - (153 * mp + 2) `div` 5 + 1 in
  let month := if decide (mp < 10) then mp + 3 else mp - 9 in
  let year := yoe + era * 400 + (if decide (month ≤ 2) then 1 else 0) in
  (year, month, day).

(** [t.Format("2006-01-02T15:04:05Z07:00")] of a time in nanoseconds since 1970, in a zone
    [off] seconds east of UTC. *)
Definition zone_text (off : Z) : string :=
  let m := Z.quot off 60 in
  if decide (off = 0) then "Z"
  else (if decide (m < 0) then "-" else "+") +:+ pad 2 (Z.abs m `div` 60) +:+ ":" +:+ pad 2 (Z.abs m `mod` 60).

Definition rfc3339 (off ns : Z) : string :=
  let sec := ns `div` 1000000000 + off in
  let '(y, mo, d) := civil (sec `div` 86400) in
  let s := sec `mod` 86400 in
  pad 4 y +:+ "-" +:+ pad 2 mo +:+ "-" +:+ pad 2 d +:+ "T" +:+
  pad 2 (s `div` 3600) +:+ ":" +:+ pad 2 ((s `div` 60) `mod` 60) +:+ ":" +:+ pad 2 (s `mod` 60) +:+ zone_text off.

(** ** Rows *)

Definition csvColumns : list string :=
  ["ts_start_rfc3339"; "window_ms"; "published"; "delivered"; "consumed"; "pub_rate_per_s";
   "delivered_rate_per_s"; "consumed_rate_per_s"; "avg_delivery_lat_us"; "min_delivery_lat_us";
   "max_delivery_lat_us"; "p50_delivery_lat_us"; "p95_delivery_lat_us"; "p99_delivery_lat_us";
   "avg_ack_lat_us"; "duplicates"; "drops_cumulative"; "both_lat_p95_us"; "cons_lat_p95_us"].

(** A window without length has rate 0. *)
Definition perSec (n : Z) (windowMs : f64) : f64 :=
  if SFleb windowMs f64_zero then f64_zero
  else f64_div (f64_of_Z n) (f64_div windowMs (f64_of_Z 1000)).

(** The fields of a row, for a zone offset by time. *)
Definition row_fields (zone : Z → Z) (r : intervalRecord) : list string :=
  let lat := ir_DelLat r in
  [rfc3339 (zone (ir_TsStart r)) (ir_TsStart r);
   FormatFloat 1 (ir_WindowMs r);
   FormatUint (ir_Published r);
   FormatUint (ir_Delivered r);
   FormatUint (ir_Consumed r);
   FormatFloat 2 (perSec (ir_Published r) (ir_WindowMs r));
   FormatFloat 2 (perSec (ir_Delivered r) (ir_WindowMs r));
   FormatFloat 2 (perSec (ir_Consumed r) (ir_WindowMs r));
   FormatFloat 2 (ls_Avg lat);
   FormatFloat 2 (ls_Min lat);
   FormatFloat 2 (ls_Max lat);
   FormatFloat 2 (ls_P50 lat);
   FormatFloat 2 (ls_P95 lat);
   FormatFloat 2 (ls_P99 lat);
   FormatFloat 2 (ir_AckAvgUs r);
   FormatUint (ir_Duplicates r);
   FormatUint (ir_Drops r);
   FormatFloat 2 (ir_BothP95Us r);
   FormatFloat 2 (ir_ConsP95Us r)].

Definition csv_line (fields : list string) : string := join comma fields +:+ chr newline.

(** ** The writer *)

Record csvWriter (D : Type) := mkCsv { cw_w : option (Writer D); cw_n : Z; cw_err : option string }.
Arguments mkCsv {D} _ _ _.
Arguments cw_w {D} _.
Arguments cw_n {D} _.
Arguments cw_err {D} _.

Section writer.
Context {D : Type} `{Destination D}.
Implicit Types (c : csvWriter D).

(** The common part of [writeHeader] and [writeInterval]; a nil writer panics. *)
Definition write_text (text : string) (more : Z) (c : csvWriter D) : may_panic (option string * csvWriter D) :=
  match cw_err c with
  | Some e => Ok (Some e, c)
  | None =>
      match cw_w c with
      | None => Crash
      | Some b =>
          match WriteString text b with
          | (Some e, b') => Ok (Some e, mkCsv (Some b') (cw_n c) (Some e))
          | (None, b') => Ok (None, mkCsv (Some b') (cw_n c + more) None)
          end
      end
  end.

Definition writeHeader : csvWriter D → may_panic (option string * csvWriter D) :=
  write_text (csv_line csvColumns) 0.

Definition writeInterval (zone : Z → Z) (r : intervalRecord) : csvWriter D → may_panic (option string * csvWriter D) :=
  write_text (csv_line (row_fields zone r)) 1.

Definition flush (c : csvWriter D) : may_panic (option string * csvWriter D) :=
  match cw_err c with
  | Some e => Ok (Some e, c)
  | None =>
      match cw_w c with
      | None => Crash
      | Some b =>
          match Flush b with
          | (Some e, b') => Ok (Some e, mkCsv (Some b') (cw_n c) (Some e))
          | (None, b') => Ok (None, mkCsv (Some b') (cw_n c) None)
          end
      end
  end.

(** [close] drops the writer; it is returned so that its destination can be looked at. *)
Definition close (c : csvWriter D) : option string * csvWriter D * option (Writer D) :=
  match cw_w c with
  | None => (cw_err c, c, None)
  | Some b =>
      match cw_err c with
      | Some e => (Some e, mkCsv None (cw_n c) (Some e), Some b)
      | None => let '(err, b') := Flush b in (err, mkCsv None (cw_n c) err, Some b')
      end
  end.

(** The error of the header or of its flush, or the writer. *)
Definition newCSVWriter (d : D) : may_panic (option string * csvWriter D) :=
  '(err, c) ← writeHeader (mkCsv (Some (NewWriter d)) 0 None);
  match err with
  | Some e => Ok (Some e, c)
  | None => flush c
  end.
End writer.

Example date_ok : rfc3339 7200 1735689599500000000 = "2025-01-01T01:59:59+02:00".
Proof. reflexivity. Qed.
Example leap_ok : rfc3339 0 951782400000000000 = "2000-02-29T00:00:00Z".
Proof. reflexivity. Qed.
Example float_ok : FormatFloat 2 (f64_div (f64_of_Z 1) (f64_of_Z 8)) = "0.12" ∧ FormatFloat 2 (f64_of_Z 12) = "12.00" ∧
  FormatFloat 2 (f64_div (f64_of_Z (-2)) (f64_of_Z 3)) = "-0.67".
Proof. split; [reflexivity|]. split; reflexivity. Qed.

(** ** Fields have no separators *)

(** Not a comma and not the end of a line. *)
Definition plain (a : Ascii.ascii) : Prop := a ≠ comma ∧ a ≠ newline.

Lemma plain_digits s acc n : parse_digits s acc = Some n → all_chars plain s.
Proof.
  revert acc. induction s as [|a s IH]; intros acc E; [done|]. simpl in E. destruct (digit_val a) eqn:Ea; [|done].
  split; [|by eapply IH]. split; intros ->; done.
Qed.

Lemma plain_pretty (n : N) : all_chars plain (pretty n).
Proof.
  pose proof (parse_dec_pretty_N n) as E. unfold parse_dec in E. destruct (pretty n) as [|a s]; [done|].
  by eapply plain_digits.
Qed.

Lemma plain_zeros n : all_chars plain (zeros n).
Proof. induction n; [done|]. split; [|done]. by split. Qed.

Lemma plain_pad w n : all_chars plain (pad w n).
Proof. apply all_chars_app; [apply plain_zeros|apply plain_pretty]. Qed.

(** Text that evaluates to plain characters. *)
Ltac plain_lit := vm_compute; repeat split; discriminate.

Lemma plain_FormatFloat prec x : all_chars plain (FormatFloat prec x).
Proof.
  assert (∀ s v, all_chars plain (fixed_point prec s v)) as Hf.
  { intros s v. unfold fixed_point. destruct s; repeat first [apply plain_pad | apply all_chars_app | plain_lit]. }
  destruct x as [s|s| |s m e]; cbn [FormatFloat]; [apply Hf|destruct s; plain_lit|plain_lit|apply Hf].
Qed.

Lemma plain_rfc3339 off ns : all_chars plain (rfc3339 off ns).
Proof.
  unfold rfc3339, zone_text. destruct (civil _) as [[y mo] d].
  repeat first [apply plain_pad | apply all_chars_app | case_decide | plain_lit].
Qed.

Lemma row_plain zone r : Forall (all_chars plain) (row_fields zone r).
Proof.
  unfold row_fields, FormatUint.
  repeat (apply Forall_cons; split; [lazymatch goal with
    | |- all_chars _ (rfc3339 _ _) => apply plain_rfc3339
    | |- all_chars _ (FormatFloat _ _) => apply plain_FormatFloat
    | |- _ => apply plain_pretty end|]).
  by apply Forall_nil.
Qed.

Lemma columns_plain : Forall (all_chars plain) csvColumns.
Proof. unfold csvColumns. repeat (apply Forall_cons; split; [plain_lit|]). by apply Forall_nil. Qed.

(** ** Reading a file back *)

(** The pieces between separators. *)
Fixpoint split_on (sep : Ascii.ascii) (s : string) : list string :=
  match s with
  | EmptyString => [""]
  | String a s' =>
      if decide (a = sep) then "" :: split_on sep s'
      else match split_on sep s' with [] => [chr a] | p :: ps => String a p :: ps end
  end.

(** The lines of a file that ends with a newline, and the fields of each. *)
Definition parse_csv (s : string) : list (list string) := split_on comma <$> removelast (split_on newline s).

Lemma split_on_nonempty sep s : split_on sep s ≠ [].
Proof. induction s as [|a s IH]; [done|]. simpl. case_decide; [done|]. by destruct (split_on sep s). Qed.

Lemma split_on_app sep s t :
  all_chars (λ a, a ≠ sep) s → split_on sep (s +:+ chr sep +:+ t) = s :: split_on sep t.
Proof.
  induction s as [|a s IH]; intros Hs.
  - change (split_on sep (String sep t) = "" :: split_on sep t). simpl. by rewrite decide_True.
  - destruct Hs as [Ha Hs]. rewrite str_app_cons. cbn [split_on]. by rewrite decide_False, IH.
Qed.

Lemma split_on_end sep s : all_chars (λ a, a ≠ sep) s → split_on sep s = [s].
Proof. induction s as [|a s IH]; intros Hs; [done|]. destruct Hs as [Ha Hs]. simpl. by rewrite decide_False, IH. Qed.

Lemma split_join fields : fields ≠ [] → Forall (all_chars plain) fields → split_on comma (join comma fields) = fields.
Proof.
  intros Hne Hf. induction Hf as [|s l Hs Hl IH]; [done|].
  assert (all_chars (λ a, a ≠ comma) s) as Hs' by (eapply all_chars_mono; [|done]; by intros a []).
  destruct l as [|s' l]; [by apply split_on_end|]. change (join comma (s :: s' :: l)) with (s +:+ chr comma +:+ join comma (s' :: l)).
  rewrite split_on_app by done. by rewrite IH.
Qed.

Lemma join_no_newline fields : Forall (all_chars plain) fields → all_chars (λ a, a ≠ newline) (join comma fields).
Proof.
  intros Hf. induction Hf as [|s l Hs Hl IH]; [done|].
  assert (all_chars (λ a, a ≠ newline) s) as Hs' by (eapply all_chars_mono; [|done]; by intros a []).
  destruct l as [|s' l]; [done|]. change (join comma (s :: s' :: l)) with (s +:+ chr comma +:+ join comma (s' :: l)).
  apply all_chars_app; [done|]. by apply all_chars_app.
Qed.

(** The text of rows. *)
Fixpoint csv_text (rows : list (list string)) : string :=
  match rows with [] => "" | r :: rows' => csv_line r +:+ csv_text rows' end.

Lemma csv_text_app a b : csv_text (a ++ b) = csv_text a +:+ csv_text b.
Proof. induction a as [|r a IH]; [done|]. cbn [csv_text app]. by rewrite IH, str_app_assoc. Qed.

Lemma parse_csv_text rows :
  Forall (λ r, r ≠ [] ∧ Forall (all_chars plain) r) rows → parse_csv (csv_text rows) = rows.
Proof.
  unfold parse_csv. intros Hr. induction Hr as [|r rows [Hne Hp] Hr IH]; [done|]. cbn [csv_text]. unfold csv_line.
  rewrite <-str_app_assoc, split_on_app by (by apply join_no_newline).
  pose proof (split_on_nonempty newline (csv_text rows)) as Hn.
  destruct (split_on newline (csv_text rows)) as [|p ps] eqn:E; [done|].
  change (split_on comma <$> join comma r :: removelast (p :: ps) = r :: rows). rewrite fmap_cons, split_join by done.
  by rewrite IH.
Qed.

(** ** Runs of the writer *)

(** What the sampler and the engine do with an open writer. *)
Inductive csv_op : Type := OInterval (r : intervalRecord) | OFlush.

Section runs.
Context {D : Type} `{Destination D} (zone : Z → Z).
Implicit Types (c : csvWriter D) (d : D).

Definition csv_do (o : csv_op) (c : csvWriter D) : may_panic (option string * csvWriter D) :=
  match o with OInterval r => writeInterval zone r c | OFlush => flush c end.

(** The errors the calls return, one after the other. *)
Fixpoint csv_run (ops : list csv_op) (c : csvWriter D) : may_panic (list (option string) * csvWriter D) :=
  match ops with
  | [] => Ok ([], c)
  | o :: ops' => '(e, c) ← csv_do o c; '(es, c) ← csv_run ops' c; Ok (e :: es, c)
  end.

Definition rows_of (ops : list csv_op) : list (list string) :=
  omap (λ o, match o with OInterval r => Some (row_fields zone r) | OFlush => None end) ops.

(** An open writer after [text] was written to it: it has all of it, or it has failed and
    passed an initial segment on. *)
Definition csv_at (d0 : D) (text : string) (c : csvWriter D) : Prop :=
  ∃ b, cw_w c = Some b ∧ b_err b = cw_err c ∧
    match cw_err c with
    | None => written b = dst_content d0 +:+ text ∧ str_prefix (dst_content d0) (dst_content (b_dst b))
    | Some _ => str_prefix (dst_content d0) (dst_content (b_dst b)) ∧
                str_prefix (dst_content (b_dst b)) (dst_content d0 +:+ text)
    end.

Lemma write_text_at d0 text new more c :
  csv_at d0 text c → ∃ e c', write_text new more c = Ok (e, c') ∧ csv_at d0 (text +:+ new) c' ∧ cw_err c' = e ∧
    (e = None → cw_n c' = cw_n c + more).
Proof.
  intros (b & Hw & Eb & Hc). unfold write_text. destruct (cw_err c) as [e|] eqn:Ec.
  { exists (Some e), c. split_and!; [done| |done|done]. exists b. rewrite Ec. do 2 (split; [done|]). destruct Hc as [? Hp].
    split; [done|]. etrans; [exact Hp|]. apply str_prefix_app_l, str_prefix_app. }
  rewrite Hw. pose proof (WriteString_spec b new Eb) as Hs. destruct (WriteString new b) as [r b']. simpl in Hs.
  destruct Hs as [Er Hs], Hc as [Hwr Hpre]. destruct r as [e|].
  - eexists _, _. split; [reflexivity|]. split_and!; [|done|done]. exists b'. simpl. do 2 (split; [done|]).
    rewrite Hwr, <-str_app_assoc in Hs. destruct Hs as [Hs1 Hs2]. split; [by etrans|done].
  - eexists _, _. split; [reflexivity|]. split_and!; [|done|done]. exists b'. simpl. do 2 (split; [done|]).
    rewrite Hwr, <-str_app_assoc in Hs. destruct Hs as [Hs1 Hs2]. split; [done|by etrans].
Qed.

Lemma flush_at d0 text c :
  csv_at d0 text c → ∃ e c', flush c = Ok (e, c') ∧ csv_at d0 text c' ∧ cw_err c' = e ∧ cw_n c' = cw_n c ∧
    (e = None → ∃ b, cw_w c' = Some b ∧ dst_content (b_dst b) = dst_content d0 +:+ text).
Proof.
  intros (b & Hw & Eb & Hc). unfold flush. destruct (cw_err c) as [e|] eqn:Ec.
  { exists (Some e), c. split_and!; [done| |done|done|done]. exists b. by rewrite Ec. }
  rewrite Hw. pose proof (Flush_spec b Eb) as Hs. destruct (Flush b) as [r b']. simpl in Hs.
  destruct Hs as [Er Hs], Hc as [Hwr Hpre]. rewrite Hwr in Hs. destruct r as [e|].
  - eexists _, _. split; [reflexivity|]. split_and!; [|done..]. exists b'. simpl. do 2 (split; [done|]).
    destruct Hs. split; [by etrans|done].
  - destruct Hs as [Hd Hb]. eexists _, _. split; [reflexivity|]. split_and!; [|done|done|by exists b'].
    exists b'. simpl. do 2 (split; [done|]). unfold written. rewrite Hd, Hb, str_app_nil. split; [done|apply str_prefix_app].
Qed.

(** A call returns the error it leaves behind. *)
Lemma csv_do_err o c e c' : csv_do o c = Ok (e, c') → cw_err c' = e.
Proof.
  destruct o as [r|]; cbn [csv_do]; unfold writeInterval, write_text, flush; destruct (cw_err c) eqn:E; try (intros; by simplify_eq);
    (destruct (cw_w c); [|done]); [destruct (WriteString _ _) as [[]]|destruct (Flush _) as [[]]]; intros; by simplify_eq.
Qed.

Lemma csv_run_at d0 ops text c :
  csv_at d0 text c → ∃ es c', csv_run ops c = Ok (es, c') ∧ csv_at d0 (text +:+ csv_text (rows_of ops)) c' ∧
    (Forall (λ e, e = None) es → cw_err c = None → cw_err c' = None ∧ cw_n c' = cw_n c + Z.of_nat (length (rows_of ops))) ∧
    (∀ e, cw_err c = Some e → es = replicate (length ops) (Some e) ∧ c' = c).
Proof.
  revert text c. induction ops as [|o ops IH]; intros text c Hc.
  { exists [], c. split; [done|]. simpl. rewrite str_app_nil. split_and!; [done|intros _ ?; split; [done|lia]|done]. }
  assert (∃ e c1, csv_do o c = Ok (e, c1) ∧ csv_at d0 (text +:+ csv_text (rows_of [o])) c1 ∧ cw_err c1 = e ∧
    (e = None → cw_n c1 = cw_n c + Z.of_nat (length (rows_of [o]))) ∧ (∀ e', cw_err c = Some e' → e = Some e' ∧ c1 = c))
    as (e & c1 & E1 & Hc1 & Ee & Hn & Hst).
  { destruct o as [r|]; cbn [csv_do rows_of omap list_omap csv_text length].
    - destruct (write_text_at d0 text (csv_line (row_fields zone r)) 1 c Hc) as (e & c1 & E1 & Hc1 & Ee & Hn).
      exists e, c1. rewrite str_app_nil. split_and!; [done..|]. intros e' Hce. unfold write_text in E1. rewrite Hce in E1. by simplify_eq.
    - destruct (flush_at d0 text c Hc) as (e & c1 & E1 & Hc1 & Ee & Hn & _). exists e, c1. rewrite str_app_nil.
      split_and!; [done..|intros _; rewrite Hn; simpl; lia|]. intros e' Hce. unfold flush in E1. rewrite Hce in E1. by simplify_eq. }
  destruct (IH _ c1 Hc1) as (es & c2 & E2 & Hc2 & Hok & Hst2).
  assert (rows_of (o :: ops) = rows_of [o] ++ rows_of ops) as Hrows by (unfold rows_of; by destruct o).
  exists (e :: es), c2. split; [cbn [csv_run]; rewrite E1; simpl; by rewrite E2|]. split_and!.
  - by rewrite Hrows, csv_text_app, str_app_assoc.
  - intros [-> Hes]%Forall_cons Hce. destruct (Hok Hes Ee) as [? Hn2]. split; [done|].
    rewrite Hn2, Hn, Hrows, length_app by done. lia.
  - intros e' Hce. destruct (Hst e' Hce) as [-> ->]. destruct (Hst2 e' Hce) as [-> ->]. done.
Qed.

(** The first error a call returns is the error of all later ones. *)
Lemma csv_run_sticky d0 ops text c es c' :
  csv_at d0 text c → csv_run ops c = Ok (es, c') →
  ∀ e es1 es2, es = es1 ++ Some e :: es2 → es2 = replicate (length es2) (Some e) ∧ cw_err c' = Some e.
Proof.
  revert text c es. induction ops as [|o ops IH]; intros text c es Hc E e es1 es2 Hes; cbn [csv_run] in E.
  { simplify_eq. by destruct es1. }
  destruct (csv_run_at d0 [o] text c Hc) as (es0 & c1 & E1 & Hc1 & _). cbn [csv_run] in E1.
  destruct (csv_do o c) as [[e1 c1']| |] eqn:Eo; simpl in E1; [|done..]. injection E1 as <- ->. simpl in E.
  destruct (csv_run_at d0 ops _ c1 Hc1) as (es' & c2 & E2 & _ & _ & Hst). rewrite E2 in E. simpl in E. simplify_eq.
  destruct es1 as [|x es1]; simplify_eq/=; [|by eapply IH].
  assert (cw_err c1 = Some e) as Hce by (by eapply csv_do_err).
  destruct (Hst e Hce) as [-> ->]. by rewrite length_replicate.
Qed.

(** [close] flushes what is left. *)
Lemma close_at d0 text c :
  csv_at d0 text c → ∃ e c' b, close c = (e, c', Some b) ∧
    str_prefix (dst_content d0) (dst_content (b_dst b)) ∧
    str_prefix (dst_content (b_dst b)) (dst_content d0 +:+ text) ∧
    (∀ e', cw_err c = Some e' → e = Some e') ∧
    (e = None → dst_content (b_dst b) = dst_content d0 +:+ text) ∧ cw_n c' = cw_n c.
Proof.
  intros (b & Hw & Eb & Hc). unfold close. rewrite Hw. destruct (cw_err c) as [e|] eqn:Ec.
  { destruct Hc. eexists _, _, b. split; [reflexivity|]. split_and!; [done..|naive_solver|done|done]. }
  pose proof (Flush_spec b Eb) as Hs. destruct (Flush b) as [r b']. simpl in Hs. destruct Hs as [Er Hs], Hc as [Hwr Hpre].
  rewrite Hwr in Hs. eexists _, _, b'. split; [reflexivity|]. destruct r as [e|].
  - destruct Hs as [Hs1 Hs2]. split_and!; [by etrans|done..].
  - destruct Hs as [Hd Hb]. rewrite Hd. split_and!; [apply str_prefix_app|done..].
Qed.

Lemma newCSVWriter_at d :
  ∃ e c, newCSVWriter d = Ok (e, c) ∧ csv_at d (csv_text [csvColumns]) c ∧ cw_err c = e ∧ (e = None → cw_n c = 0).
Proof.
  unfold newCSVWriter, writeHeader. cbn [csv_text]. rewrite str_app_nil.
  set (c0 := mkCsv (Some (NewWriter d)) 0 None).
  assert (csv_at d "" c0) as H0.
  { exists (NewWriter d). simpl. do 2 (split; [done|]). unfold written. simpl. by split. }
  destruct (write_text_at d "" (csv_line csvColumns) 0 c0 H0) as (e & c1 & E1 & Hc1 & Ee & Hn). rewrite E1. simpl.
  destruct e as [e|].
  - exists (Some e), c1. by split_and!.
  - destruct (flush_at d _ c1 Hc1) as (e & c2 & E2 & Hc2 & Ee2 & Hn2 & _). exists e, c2. rewrite E2.
    split_and!; [done..|]. intros _. rewrite Hn2, Hn by done. done.
Qed.
End runs.

Section claims.
Context {D : Type} `{Destination D} (zone : Z → Z).

(** The open writer after the calls [ops], the errors they returned, and the error and
    the destination after [close]. *)
Definition csv_session (ops : list csv_op) (d : D)
  : may_panic (option string * list (option string) * option string * csvWriter D * option (Writer D)) :=
  '(e0, c) ← newCSVWriter d;
  '(es, c) ← csv_run zone ops c;
  let '(e, c, b) := close c in
  Ok (e0, es, e, c, b).

Definition csv_file (ops : list csv_op) : string := csv_text (csvColumns :: rows_of zone ops).

(** C30: Writing the CSV: no sequence of calls panics; what reaches the destination is
    always an initial segment of the header and the rows in order; when no call
    returned an error it is all of them, each row exactly once, and the file parses
    back into the columns and the fields of the rows; and the first error is returned
    by every later call, [close] included. *)
Theorem csv_session_spec (ops : list csv_op) (d : D) :
  ∃ e0 es e c b, csv_session ops d = Ok (e0, es, e, c, Some b) ∧
    str_prefix (dst_content d) (dst_content (b_dst b)) ∧
    str_prefix (dst_content (b_dst b)) (dst_content d +:+ csv_file ops) ∧
    (e0 = None → Forall (λ e, e = None) es → e = None →
       dst_content (b_dst b) = dst_content d +:+ csv_file ops ∧ cw_n c = Z.of_nat (length (rows_of zone ops))) ∧
    parse_csv (csv_file ops) = csvColumns :: rows_of zone ops ∧
    (∀ e', e0 = Some e' → es = replicate (length ops) (Some e') ∧ e = Some e') ∧
    (∀ e' es1 es2, es = es1 ++ Some e' :: es2 → e0 = None → Forall (λ e, e = None) es1 →
       es2 = replicate (length es2) (Some e') ∧ e = Some e').
Proof.
  destruct (newCSVWriter_at d) as (e0 & c1 & E1 & Hc1 & Ee1 & Hn1).
  destruct (csv_run_at zone d ops _ c1 Hc1) as (es & c2 & E2 & Hc2 & Hok & Hst).
  assert (parse_csv (csv_file ops) = csvColumns :: rows_of zone ops) as Hparse.
  { apply parse_csv_text. apply Forall_cons. split; [split; [done|apply columns_plain]|]. apply Forall_forall.
    intros r (o & _ & Ho)%list_elem_of_omap. destruct o; simplify_eq. split; [done|apply row_plain]. }
  assert (csv_text [csvColumns] +:+ csv_text (rows_of zone ops) = csv_file ops) as Hfile.
  { unfold csv_file. cbn [csv_text]. by rewrite str_app_nil. }
  rewrite Hfile in Hc2. unfold csv_session. rewrite E1. simpl. rewrite E2. simpl.
  pose proof (csv_run_sticky zone d ops _ c1 es c2 Hc1 E2) as Hsticky.
  destruct (close_at d _ c2 Hc2) as (e & c3 & b & E3 & Hp1 & Hp2 & He & Hfull & Hn3). rewrite E3.
  exists e0, es, e, c3, b. split_and!; [done..| |done| |].
  - intros -> Hes ->. destruct (Hok Hes Ee1) as [_ Hn2]. split; [by apply Hfull|]. rewrite Hn3, Hn2, Hn1 by done. lia.
  - intros e' ->. destruct (Hst e' Ee1) as [-> ->]. split; [done|]. by apply He.
  - intros e' es1 es2 Hes _ _. destruct (Hsticky e' es1 es2 Hes) as [? Hce]. split; [done|]. by apply He.
Qed.
End claims.

(** Two intervals on a disk with room for everything, and on one that fills up. *)
Definition demo_interval : intervalRecord :=
  mkInterval 0 (f64_of_Z 1000) 10 9 9 0 1 (mkSummary 9 (f64_of_Z 1) (f64_of_Z 2) (f64_of_Z 3) (f64_of_Z 2) (f64_of_Z 3) (f64_of_Z 3))
    (f64_of_Z 4) (f64_of_Z 3) (f64_of_Z 3).

Example demo_session :
  (λ '(e0, es, e, c, b), (e0, es, e, cw_n c)) <$>
    match csv_session (λ _, 0) [OInterval demo_interval; OFlush; OInterval demo_interval] (mkDisk 4000 "") with
    | Ok r => Some r | _ => None end = Some (None, [None; None; None], None, 2).
Proof. vm_compute. reflexivity. Qed.

Example full_session :
  (λ '(e0, es, e, c, b), (e0, es, e, cw_n c)) <$>
    match csv_session (λ _, 0) [OInterval demo_interval; OFlush; OInterval demo_interval; OFlush] (mkDisk 400 "") with
    | Ok r => Some r | _ => None end =
  Some (None, [None; Some "no space left on device"; Some "no space left on device"; Some "no space left on device"],
        Some "no space left on device", 1).
Proof. vm_compute. reflexivity. Qed.

Lemma csv_session_spec_witness :
  ∃ e0 es e c b,
    csv_session (λ _, 0) [OInterval demo_interval; OFlush; OInterval demo_interval] (mkDisk 4000 "") =
      Ok (e0, es, e, c, Some b) ∧
    (e0 = None → Forall (λ e, e = None) es → e = None →
     disk_data (b_dst b) = csv_file (λ _, 0) [OInterval demo_interval; OFlush; OInterval demo_interval] ∧ cw_n c = 2).
Proof.
  destruct (csv_session_spec (λ _, 0) [OInterval demo_interval; OFlush; OInterval demo_interval] (mkDisk 4000 ""))
    as (e0 & es & e & c & b & E & _ & _ & Hfull & _).
  exists e0, es, e, c, b. split; [exact E|exact Hfull].
Defined.
