(* ===== verification/BenchWorker.v ===== *)
(** * The benchmark's workers (src/internal/bench/worker.go)

    The header every message body starts with, one iteration of a publisher and of a
    consumer, and a consumer's whole run over the deliveries it receives.  What the
    client library does (publish, ack) is the input of an iteration: the latency when
    the call succeeded, nothing when it failed. *)

From S2P Require Import Prelude BenchTopology BenchPlacement BenchPlan BenchLatency BenchStats.

(** ** The header *)

(** Bytes are integers from 0 to 255. *)
Definition byte_at (v : Z) (i : Z) : Z := Z.land (Z.shiftr v (8 * i)) 255.

(** [binary.BigEndian.PutUint64] and [Uint64] on eight bytes *)
Definition put_uint64 (v : Z) : list Z := (λ i, byte_at v (7 - i)) <$> seqZ 0 8.
Definition get_uint64 (b : list Z) : Z := foldl (λ acc x, Z.lor (Z.shiftl acc 8) x) 0 b.

(** The body is as long as its capacity: slicing past its end panics. *)
Definition encodeHeader (body : list Z) (seq sendNanos : Z) : result Empty_set (list Z) :=
  if decide (Z.of_nat (length body) < 16) then Crash
  else Ok (put_uint64 seq ++ put_uint64 (u64 sendNanos) ++ drop 16 body).

Definition decodeHeader (body : list Z) : Z * Z :=
  if decide (Z.of_nat (length body) < headerLen) then (0, 0)
  else (get_uint64 (take 8 body), i64 (get_uint64 (take 8 (drop 8 body)))).

(** ** Workers *)

(** Why a worker stopped early. *)
Inductive workerError : Type :=
| EBudget (seq budget : Z)
| EPublishFailed
| EAckFailed.

(** What the workers share: the sequence counter, the send times and the messages seen
    (both indexed by sequence number minus one), and the accumulators. *)
Record shared := mkShared { sh_seq : Z; sh_sent : list Z; sh_seen : list bool; sh_stats : stats }.

(** One turn of [publishWorker.run] at time [now]: why it ends or the body it publishes,
    and the state after it.  [lat] is the publish latency in microseconds, if the call
    succeeded. *)
Definition publish_one (sl : channelSlot) (size : Z) (now : Z) (lat : option f64) (w : shared)
  : may_panic ((workerError + list Z) * shared) :=
  let seq := u64 (sh_seq w + 1) in
  let len := Z.of_nat (length (sh_sent w)) in
  if decide (seq = 0 ∨ len ≤ i64 (i64 seq - 1)) then
    Ok (inl (EBudget seq len), mkShared seq (sh_sent w) (sh_seen w) (sh_stats w))
  else
    sent ← update_at (sh_sent w) (u64 (seq - 1)) (λ _, now);
    body ← encodeHeader (replicate (Z.to_nat size) 0) seq now;
    match lat with
    | None => Ok (inl EPublishFailed, mkShared seq sent (sh_seen w) (sh_stats w))
    | Some v =>
        s ← recordPublish (sh_stats w) sl seq v;
        Ok (inr body, mkShared seq sent (sh_seen w) s)
    end.

(** A delivery: its body, when it arrived, and the ack latency if the ack succeeded. *)
Record delivery := mkDelivery { dv_body : list Z; dv_recv : Z; dv_ack : option f64 }.

(** [float64(recvNanos-st) / 1000] *)
Definition us_between (recv st : Z) : f64 := f64_div (f64_of_Z (i64 (recv - st))) (f64_of_Z 1000).

(** One turn of [consumeWorker.run]: why it ends, if it does, and the state after it. *)
Definition consume_one (sl : channelSlot) (ack : bool) (w : shared) (d : delivery)
  : may_panic (option workerError * shared) :=
  let seq := (decodeHeader (dv_body d)).1 in
  let idx := i64 (i64 seq - 1) in
  let known := bool_decide (0 < seq ∧ idx < Z.of_nat (length (sh_sent w))) in
  lat ← (if known then st ← index (sh_sent w) idx;
                       Ok (if decide (0 < st) then us_between (dv_recv d) st else f64_zero)
         else Ok f64_zero);
  let idx := if known then idx else -1 in
  '(dup, seen) ← (if decide (0 ≤ idx < Z.of_nat (length (sh_seen w))) then
                    b ← index (sh_seen w) idx; Ok (b, <[Z.to_nat idx := true]> (sh_seen w))
                  else Ok (false, sh_seen w));
  s ← recordDeliver (sh_stats w) sl seq lat dup;
  if ack then
    match dv_ack d with
    | None => Ok (Some EAckFailed, mkShared (sh_seq w) (sh_sent w) seen s)
    | Some v => Ok (None, mkShared (sh_seq w) (sh_sent w) seen (recordAck s seq v))
    end
  else Ok (None, mkShared (sh_seq w) (sh_sent w) seen s).

(** [consumeWorker.run] over the deliveries of its stream, until an error or the end of
    the stream. *)
Fixpoint consume_run (sl : channelSlot) (ack : bool) (w : shared) (ds : list delivery)
  : may_panic (option workerError * shared) :=
  match ds with
  | [] => Ok (None, w)
  | d :: ds' =>
      '(err, w) ← consume_one sl ack w d;
      match err with
      | Some e => Ok (Some e, w)
      | None => consume_run sl ack w ds'
      end
  end.

(** ** The header round trip *)

Lemma byte_at_mod v i : 0 ≤ i → byte_at v i = (v `div` 2 ^ (8 * i)) `mod` 256.
Proof. intros Hi. unfold byte_at. rewrite Z.shiftr_div_pow2 by lia. change 255 with (Z.ones 8). by rewrite Z.land_ones. Qed.

Lemma land_byte acc x : 0 ≤ x < 256 → Z.land (Z.shiftl acc 8) x = 0.
Proof.
  intros Hx. apply Z.bits_inj'. intros n Hn. rewrite Z.land_spec, Z.bits_0.
  destruct (decide (n < 8)) as [Hlt|Hge]; [by rewrite Z.shiftl_spec_low|].
  rewrite <-(Z.mod_small x (2 ^ 8)) by done. rewrite Z.mod_pow2_bits_high by lia. apply andb_false_r.
Qed.

Lemma lor_byte acc x : 0 ≤ x < 256 → Z.lor (Z.shiftl acc 8) x = acc * 256 + x.
Proof.
  intros Hx. pose proof (Z.add_lor_land (Z.shiftl acc 8) x) as Hs. rewrite land_byte, Z.add_0_r in Hs by done.
  rewrite Hs, Z.shiftl_mul_pow2 by lia. done.
Qed.

Lemma byte_split v i j : 0 ≤ i → j = i + 1 → v `div` 2 ^ (8 * i) = v `div` 2 ^ (8 * j) * 256 + byte_at v i.
Proof.
  intros Hi ->. rewrite byte_at_mod by done. replace (8 * (i + 1)) with (8 * i + 8) by lia.
  rewrite Z.pow_add_r by lia. rewrite <-Z.div_div by lia. change (2 ^ 8) with 256.
  rewrite (Z.mul_comm _ 256). apply Z.div_mod. lia.
Qed.

Lemma uint64_roundtrip v : is_u64 v → get_uint64 (put_uint64 v) = v.
Proof.
  intros Hv. unfold is_u64 in Hv. unfold put_uint64, get_uint64. change (seqZ 0 8) with [0; 1; 2; 3; 4; 5; 6; 7].
  cbn [fmap list_fmap foldl].
  assert (∀ i, 0 ≤ i → 0 ≤ byte_at v i < 256) as Hb by (intros; rewrite byte_at_mod by done; apply Z.mod_pos_bound; lia).
  repeat (rewrite lor_byte by (apply Hb; lia)).
  pose proof (byte_split v 0 1 ltac:(lia) eq_refl) as H0. pose proof (byte_split v 1 2 ltac:(lia) eq_refl).
  pose proof (byte_split v 2 3 ltac:(lia) eq_refl). pose proof (byte_split v 3 4 ltac:(lia) eq_refl).
  pose proof (byte_split v 4 5 ltac:(lia) eq_refl). pose proof (byte_split v 5 6 ltac:(lia) eq_refl).
  pose proof (byte_split v 6 7 ltac:(lia) eq_refl). pose proof (byte_split v 7 8 ltac:(lia) eq_refl) as H7.
  change (8 * 0) with 0 in H0. rewrite Z.pow_0_r, Z.div_1_r in H0. rewrite (Z.div_small v (2 ^ (8 * 8))) in H7 by done.
  change (7 - 0) with 7. change (7 - 1) with 6. change (7 - 2) with 5. change (7 - 3) with 4. change (7 - 4) with 3.
  change (7 - 5) with 2. change (7 - 6) with 1. change (7 - 7) with 0. lia.
Qed.

Lemma length_put v : length (put_uint64 v) = 8%nat.
Proof. done. Qed.

(** What a publisher writes, a consumer reads; the rest of the body is untouched. *)
Lemma header_roundtrip body seq nanos :
  headerLen ≤ Z.of_nat (length body) → is_u64 seq → is_i64 nanos →
  ∃ body', encodeHeader body seq nanos = Ok body' ∧ decodeHeader body' = (seq, nanos) ∧
    length body' = length body ∧ drop 16 body' = drop 16 body.
Proof.
  intros Hl Hs Hn. unfold headerLen in Hl. unfold encodeHeader. rewrite decide_False by lia. eexists. split; [done|].
  assert (length (put_uint64 seq ++ put_uint64 (u64 nanos) ++ drop 16 body) = length body) as Hlen.
  { rewrite !length_app, !length_put, length_drop. lia. }
  unfold decodeHeader. rewrite Hlen, decide_False by (unfold headerLen; lia). split_and!; [|done|].
  - rewrite (take_app_length' (put_uint64 seq)), (drop_app_length' (put_uint64 seq)), take_app_length' by done.
    rewrite uint64_roundtrip by done. rewrite uint64_roundtrip by (unfold u64, is_u64; apply Z.mod_pos_bound; lia).
    by rewrite i64_u64.
  - rewrite app_assoc. by rewrite drop_app_length'.
Qed.

(** ** What a publisher records *)

(** While sequence numbers are left in the budget, a turn mints the next one, stores its
    send time, records the publish, and its body carries the number and the time. *)
Lemma publish_one_spec t total h sl size now v w :
  slot_in t sl → headerLen ≤ size → is_i64 now → sh_stats w = abs t total h →
  0 ≤ sh_seq w < Z.of_nat (length (sh_sent w)) → Z.of_nat (length (sh_sent w)) < 9223372036854775808 →
  let seq := sh_seq w + 1 in
  ∃ body w', publish_one sl size now (Some v) w = Ok (inr body, w') ∧
    decodeHeader body = (seq, now) ∧ Z.of_nat (length body) = size ∧
    sh_seq w' = seq ∧ sh_sent w' = <[Z.to_nat (seq - 1) := now]> (sh_sent w) ∧ sh_seen w' = sh_seen w ∧
    sh_stats w' = abs t total (hist_step h (EPublish sl seq v)).
Proof.
  intros Hin Hsize Hnow Hst Hs Hl seq. unfold publish_one.
  assert (u64 (sh_seq w + 1) = seq) as -> by (apply u64_id; unfold is_u64, seq; lia).
  assert (i64 (i64 seq - 1) = seq - 1) as -> by (rewrite !i64_id; unfold is_i64; rewrite ?i64_id; unfold is_i64, seq; lia).
  rewrite decide_False by (unfold seq; lia).
  assert (u64 (seq - 1) = seq - 1) as -> by (apply u64_id; unfold is_u64, seq; lia).
  destruct (lookup_lt_is_Some_2 (sh_sent w) (Z.to_nat (seq - 1))) as [x Hx]; [unfold seq; lia|].
  unfold update_at, index. rewrite (decide_True (P := 0 ≤ seq - 1)), Hx by (unfold seq; lia). simpl.
  destruct (header_roundtrip (replicate (Z.to_nat size) 0) seq now) as (body & -> & Hd & Hlen & _);
    [rewrite length_replicate; unfold headerLen in *; lia|unfold is_u64, seq; lia|done|].
  simpl. rewrite Hst, publish_abs by done. simpl. eexists body, _. split; [done|]. split_and!; [done| |done..].
  rewrite Hlen, length_replicate. unfold headerLen in *. lia.
Qed.

(** ** What the consumers record *)

(** The turns of all consumers, in the order they happen, and the errors they send to [errCh]. *)
Fixpoint consume_all (ack : bool) (w : shared) (l : list (channelSlot * delivery)) : may_panic (list workerError * shared) :=
  match l with
  | [] => Ok ([], w)
  | (sl, d) :: l' =>
      '(err, w) ← consume_one sl ack w d;
      '(errs, w) ← consume_all ack w l';
      Ok (option_list err ++ errs, w)
  end.

(** A message with its sequence number, arriving at a consumer. *)
Record arrival := mkArrival { ar_slot : channelSlot; ar_seq : Z; ar_delivery : delivery }.

Definition turn (a : arrival) : channelSlot * delivery := (ar_slot a, ar_delivery a).

(** The body was written by a publisher with this sequence number, within the budget,
    and the ack, if there is one, succeeded. *)
Definition arrives (t : Topology) (budget : Z) (ack : bool) (a : arrival) : Prop :=
  (∃ p, p ∈ t_consumeCapable t ∧ t_slots t !! p = Some (ar_slot a)) ∧ 1 ≤ ar_seq a ≤ budget ∧
  (∃ body nanos, headerLen ≤ Z.of_nat (length body) ∧ is_i64 nanos ∧
     encodeHeader body (ar_seq a) nanos = Ok (dv_body (ar_delivery a))) ∧
  (ack = true → dv_ack (ar_delivery a) ≠ None).

(** From the send time stored for the message. *)
Definition latency_of (sent : list Z) (a : arrival) : f64 :=
  let st := nth (Z.to_nat (ar_seq a - 1)) sent 0 in
  if decide (0 < st) then us_between (dv_recv (ar_delivery a)) st else f64_zero.

(** The records of the arrivals: a delivery is a duplicate when its sequence number was
    seen before, by any consumer. *)
Fixpoint record_events (ack : bool) (sent : list Z) (seen : list Z) (l : list arrival) : list event :=
  match l with
  | [] => []
  | a :: l' =>
      EDeliver (ar_slot a) (ar_seq a) (latency_of sent a) (bool_decide (ar_seq a ∈ seen)) ::
      (if ack then [EAck (ar_seq a) (default f64_zero (dv_ack (ar_delivery a)))] else []) ++
      record_events ack sent (ar_seq a :: seen) l'
  end.

(** The shared state of the consumers, when [seen] are the numbers seen. *)
Record consumers_at (t : Topology) (total : Z) (budget : Z) (sent : list Z) (seen : list Z) (h : hist) (w : shared) : Prop := {
  ca_stats : sh_stats w = abs t total h;
  ca_sent : sh_sent w = sent;
  ca_len : Z.of_nat (length sent) = budget;
  ca_seen_len : length (sh_seen w) = length sent;
  ca_seen : ∀ q, 1 ≤ q ≤ budget → sh_seen w !! Z.to_nat (q - 1) = Some (bool_decide (q ∈ seen));
}.

Lemma index_Some {E A} (l : list A) i x : 0 ≤ i → l !! Z.to_nat i = Some x → index (E:=E) l i = Ok x.
Proof. intros Hi Hx. unfold index. by rewrite decide_True, Hx. Qed.

Lemma consume_one_spec c t total budget ack sent seen h w a :
  Build c = Ok t → budget < 9223372036854775808 → arrives t budget ack a →
  consumers_at t total budget sent seen h w →
  ∃ w', consume_one (ar_slot a) ack w (ar_delivery a) = Ok (None, w') ∧
    consumers_at t total budget sent (ar_seq a :: seen) (foldl hist_step h (record_events ack sent seen [a])) w'.
Proof.
  intros HB Hb ((p & _ & Hp) & Hq & (body & nanos & Hbody & Hnanos & Henc) & Hack) [Hst Hsent Hlen Hslen Hseen].
  assert (decodeHeader (dv_body (ar_delivery a)) = (ar_seq a, nanos)) as Hdec.
  { destruct (header_roundtrip body (ar_seq a) nanos) as (b' & He & Hd & _); [done|unfold is_u64; lia|done|]. congruence. }
  assert (slot_in t (ar_slot a)) as Hin by (destruct (plan_slot_in _ _ _ _ HB Hp) as (? & ? & _); by split).
  unfold consume_one. rewrite Hdec. cbn [fst].
  assert (i64 (i64 (ar_seq a) - 1) = ar_seq a - 1) as -> by (rewrite !i64_id; unfold is_i64; rewrite ?i64_id; unfold is_i64; lia).
  rewrite bool_decide_true by (rewrite Hsent; lia).
  destruct (lookup_lt_is_Some_2 sent (Z.to_nat (ar_seq a - 1))) as [st Hst']; [lia|].
  rewrite Hsent, (index_Some _ _ st) by (done || lia). simpl.
  rewrite (decide_True (P := 0 ≤ ar_seq a - 1 < _)) by lia. rewrite (index_Some (sh_seen w) (ar_seq a - 1) _ ltac:(lia) (Hseen _ Hq)). simpl.
  assert (latency_of sent a = if decide (0 < st) then us_between (dv_recv (ar_delivery a)) st else f64_zero) as <-.
  { unfold latency_of. by rewrite (nth_lookup_Some _ _ _ _ Hst'). }
  rewrite Hst, deliver_abs by done. simpl.
  assert (∀ q, 1 ≤ q ≤ budget → <[Z.to_nat (ar_seq a - 1) := true]> (sh_seen w) !! Z.to_nat (q - 1) =
    Some (bool_decide (q ∈ ar_seq a :: seen))) as Hseen'.
  { intros q Hq'. destruct (decide (q = ar_seq a)) as [->|Hne].
    - rewrite list_lookup_insert_eq by lia. by rewrite bool_decide_true by set_solver.
    - rewrite list_lookup_insert_ne, Hseen by lia. f_equal. apply bool_decide_ext. set_solver. }
  destruct ack.
  - destruct (dv_ack (ar_delivery a)) as [v|]; [|by destruct Hack]. eexists. split; [done|].
    split; simpl; [apply ack_abs|done..|by rewrite length_insert|done].
  - eexists. split; [done|]. split; simpl; [done..|by rewrite length_insert|done].
Qed.

Lemma record_events_app ack sent seen a l :
  record_events ack sent seen (a :: l) = record_events ack sent seen [a] ++ record_events ack sent (ar_seq a :: seen) l.
Proof. simpl. rewrite app_nil_r. by destruct ack. Qed.

(** C36: the consumers together, in any order of turns, over messages the publishers
    wrote: every turn completes, the accumulators get exactly one delivery record per
    arrival, under the sequence number the publisher minted and with the latency from
    its send time, marked as a duplicate exactly when that number was seen before. *)
Theorem consumers_record (c : Config) (t : Topology) (total budget : Z) (ack : bool) (sent seen : list Z) (h : hist)
    (w : shared) (l : list arrival) :
  Build c = Ok t → budget < 9223372036854775808 → Forall (arrives t budget ack) l →
  consumers_at t total budget sent seen h w →
  ∃ w', consume_all ack w (turn <$> l) = Ok ([], w') ∧
    sh_stats w' = abs t total (foldl hist_step h (record_events ack sent seen l)) ∧
    ∀ q, 1 ≤ q ≤ budget → sh_seen w' !! Z.to_nat (q - 1) = Some (bool_decide (q ∈ (ar_seq <$> l) ++ seen)).
Proof.
  intros HB Hb Hl. revert seen h w. induction Hl as [|a l Ha Hl IH]; intros seen h w Hw.
  { exists w. split; [done|]. destruct Hw. by split. }
  destruct (consume_one_spec _ _ _ _ _ _ _ _ _ _ HB Hb Ha Hw) as (w1 & E1 & Hw1).
  destruct (IH _ _ _ Hw1) as (w2 & E2 & Hs & Hq). exists w2. rewrite fmap_cons. split; [cbn [consume_all turn]; rewrite E1; simpl; by rewrite E2|].
  split; [by rewrite record_events_app, foldl_app|].
  intros q Hq'. rewrite Hq by done. f_equal. apply bool_decide_ext. set_solver.
Qed.

(** A single consumer's loop is the sequence of its turns, as long as its acks succeed. *)
Lemma consume_run_all sl ack w ds :
  Forall (λ d, ack = true → dv_ack d ≠ None) ds →
  ∀ w', consume_all ack w (pair sl <$> ds) = Ok ([], w') ↔ consume_run sl ack w ds = Ok (None, w').
Proof.
  intros Hds. revert w. induction Hds as [|d ds Hd Hds IH]; intros w w'; [simpl; split; congruence|].
  rewrite fmap_cons. cbn [consume_all consume_run].
  destruct (consume_one sl ack w d) as [[err w1]|[]|] eqn:E; simpl; [|done].
  destruct err as [e|]; simpl.
  - destruct (consume_all ack w1 (pair sl <$> ds)) as [[errs w2]|[]|]; simpl; split; congruence.
  - rewrite <-IH. destruct (consume_all ack w1 (pair sl <$> ds)) as [[errs w2]|[]|]; simpl; split; congruence.
Qed.

(** One channel, one message published, delivered twice, acknowledged. *)
Definition one_config : Config :=
  mkConfig "127.0.0.1:5672" 1 0 0 1 0 0 DistEven DistEven DistEven 0 0 0
    1 1 10 128 true 10 0 0 second (30 * second) "" false.
Definition one_plan : Topology := match Build one_config with Ok t => t | _ => mkTopology [] [] [] [] end.
Definition one_slot : channelSlot := mkSlot 0 0 0 RoleBoth [0] [0] 0.
Definition one_shared : shared := mkShared 0 [0; 0] [false; false] (newStats one_plan 2).

(** The publisher's turn at time 100. *)
Definition one_published : list Z * shared :=
  match publish_one one_slot 20 100 (Some (f64_of_Z 3)) one_shared with
  | Ok (inr body, w) => (body, w)
  | _ => ([], one_shared)
  end.
Definition one_arrivals : list arrival :=
  [mkArrival one_slot 1 (mkDelivery one_published.1 4100 (Some (f64_of_Z 2)));
   mkArrival one_slot 1 (mkDelivery one_published.1 6100 (Some (f64_of_Z 2)))].
Definition one_hist : hist := hist_step hist0 (EPublish one_slot 1 (f64_of_Z 3)).

Lemma consumers_record_witness :
  Build one_config = Ok one_plan ∧
  ∃ w', consume_all true one_published.2 (turn <$> one_arrivals) = Ok ([], w') ∧
    sh_stats w' = abs one_plan 2 (foldl hist_step one_hist (record_events true [100; 0] [] one_arrivals)).
Proof.
  assert (Build one_config = Ok one_plan) as HB by (vm_compute; reflexivity).
  split; [exact HB|].
  destruct (consumers_record one_config one_plan 2 2 true [100; 0] [] one_hist one_published.2 one_arrivals HB)
    as (w' & Hw & Hs & _).
  - reflexivity.
  - assert (∀ recv, arrives one_plan 2 true (mkArrival one_slot 1 (mkDelivery one_published.1 recv (Some (f64_of_Z 2))))) as Ha.
    { intros recv. split; [exists 0%nat; split; [apply list_elem_of_here|vm_compute; reflexivity]|].
      split; [simpl; lia|]. split; [|discriminate]. exists (replicate 20 0), 100.
      split; [simpl; unfold headerLen; lia|]. split; [unfold is_i64; lia|vm_compute; reflexivity]. }
    constructor; [apply Ha|]. constructor; [apply Ha|]. constructor.
  - split; [vm_compute; reflexivity..|].
    intros q Hq. assert (q = 1 ∨ q = 2) as [-> | ->] by lia; vm_compute; reflexivity.
  - exists w'. split; [exact Hw|exact Hs].
Defined.
