(* ===== verification/BenchRun.v ===== *)
(** * Properties of the benchmark's accounting

    What the accumulators hold after any order of records, samples and the phase
    boundary over the channels of a plan. *)

From S2P Require Import Prelude BenchTopology BenchPlacement BenchPlan BenchLatency BenchStats BenchWorker.

(** The events of a run: publishers are on publish-capable channels of the plan,
    consumers on consume-capable ones. *)
Definition plan_event (t : Topology) (e : event) : Prop :=
  match e with
  | EPublish sl _ _ => ∃ p, p ∈ t_publishCapable t ∧ t_slots t !! p = Some sl
  | EDeliver sl _ _ _ => ∃ p, p ∈ t_consumeCapable t ∧ t_slots t !! p = Some sl
  | _ => True
  end.

Lemma plan_event_in c t e : Build c = Ok t → plan_event t e → event_in t e.
Proof.
  intros HB. destruct e as [sl q v|sl q v d| | | |]; simpl; [intros (p & _ & Hp)..| | | |]; try done;
    destruct (plan_slot_in c t p sl HB Hp) as (? & ? & _); by split.
Qed.

(** C35: whatever the workers, the sampler and the phase boundary do, in whatever order,
    over the channels of a plan, no record panics, and the accumulators and the rows
    are exactly those of the history: totals and latency sets of the records above
    the cutoff since the boundary, windows since the last sample, all-time counts of
    everything, per connection and per publishing channel. *)
Theorem stats_refine_history (c : Config) (t : Topology) (total : Z) (l : list event) :
  Build c = Ok t → Forall (plan_event t) l →
  run_events (newStats t total) l = Ok (abs_rows hist0 l, abs t total (foldl hist_step hist0 l)).
Proof.
  intros HB Hl. rewrite new_abs. apply run_abs. eapply Forall_impl; [done|]. intros e. by eapply plan_event_in.
Qed.

(** A warm-up message, the boundary, two measured messages, one of them delivered twice. *)
Definition demo_warmup : list event := [EPublish one_slot 1 (f64_of_Z 5); EBegin 1].
Definition demo_events : list event :=
  [EDeliver one_slot 1 (f64_of_Z 9) false; EPublish one_slot 2 (f64_of_Z 5); EPublish one_slot 3 (f64_of_Z 6);
   EDeliver one_slot 2 (f64_of_Z 7) false; EAck 2 (f64_of_Z 1); ESample 0 second;
   EDeliver one_slot 2 (f64_of_Z 8) true; EDrops].

Lemma stats_refine_history_witness :
  Build one_config = Ok one_plan ∧
  run_events (newStats one_plan 10) (demo_warmup ++ demo_events) =
    Ok (abs_rows hist0 (demo_warmup ++ demo_events), abs one_plan 10 (foldl hist_step hist0 (demo_warmup ++ demo_events))).
Proof.
  assert (Build one_config = Ok one_plan) as HB by (vm_compute; reflexivity).
  split; [exact HB|]. apply (stats_refine_history one_config one_plan 10 (demo_warmup ++ demo_events) HB).
  assert (∃ p, p ∈ t_publishCapable one_plan ∧ t_slots one_plan !! p = Some one_slot) as Hp.
  { exists 0%nat. split; [apply list_elem_of_here|vm_compute; reflexivity]. }
  assert (∃ p, p ∈ t_consumeCapable one_plan ∧ t_slots one_plan !! p = Some one_slot) as Hc.
  { exists 0%nat. split; [apply list_elem_of_here|vm_compute; reflexivity]. }
  repeat (constructor; [first [exact I|exact Hp|exact Hc]|]). constructor.
Defined.

(** ** Sums *)

Definition sumZ (l : list Z) : Z := foldr Z.add 0 l.

Lemma sumZ_app l l' : sumZ (l ++ l') = sumZ l + sumZ l'.
Proof. induction l as [|x l IH]; simpl; lia. Qed.

Lemma length_concat {A} (ls : list (list A)) : Z.of_nat (length (concat ls)) = sumZ ((λ l, Z.of_nat (length l)) <$> ls).
Proof. induction ls as [|l ls IH]; [done|]. rewrite fmap_cons. cbn [concat sumZ foldr]. rewrite length_app, Nat2Z.inj_add, IH. done. Qed.

Lemma length_filter_fmap {A} (f : A → Z) (k : Z) (l : list A) :
  length (filter (λ i, i = k) (f <$> l)) = length (filter (λ x, f x = k) l).
Proof. induction l as [|x l IH]; [done|]. rewrite fmap_cons, !filter_cons. case_decide; simpl; congruence. Qed.

(** Counting by a key adds up to the whole. *)
Lemma sum_buckets {A} (f : A → Z) (n : nat) (l : list A) :
  (∀ x, x ∈ l → 0 ≤ f x < Z.of_nat n) →
  sumZ ((λ k, Z.of_nat (length (filter (λ x, f x = Z.of_nat k) l))) <$> seq 0 n) = Z.of_nat (length l).
Proof.
  intros Hf. rewrite <-(length_fmap f l). erewrite <-(Permutation_length (buckets_all (λ i, i) n (f <$> l) _)).
  { rewrite length_concat, <-list_fmap_compose. f_equal. apply list_fmap_ext. intros i k _. simpl.
    by rewrite length_filter_fmap. }
  Unshelve. intros i (x & -> & Hx)%list_elem_of_fmap. by apply Hf.
Qed.

Lemma count_small {A} (l : list A) : Z.of_nat (length l) < 18446744073709551616 → count l = Z.of_nat (length l).
Proof. intros. apply u64_id. unfold is_u64. lia. Qed.

(** The same with the counters' [uint64]. *)
Lemma sum_counts {A} (f : A → Z) (n : nat) (l : list A) :
  (∀ x, x ∈ l → 0 ≤ f x < Z.of_nat n) → Z.of_nat (length l) < 18446744073709551616 →
  sumZ ((λ k, count (filter (λ x, f x = Z.of_nat k) l)) <$> seq 0 n) = count l.
Proof.
  intros Hf Hs. rewrite (count_small l) by done. rewrite <-(sum_buckets f n l Hf). f_equal. apply list_fmap_ext.
  intros i k _. apply count_small. pose proof (length_filter (λ x, f x = Z.of_nat k) l). lia.
Qed.

Definition not_begin (e : event) : bool := match e with EBegin _ => false | _ => true end.

(** ** Windows *)

Lemma hist_step_meas h l :
  Forall (λ e, not_begin e = true) l →
  h_cut (foldl hist_step h l) = h_cut h ∧ h_meas (foldl hist_step h l) = h_meas h ++ l.
Proof.
  intros Hl. revert h. induction Hl as [|e l He Hl IH]; intros h; simpl; [by rewrite app_nil_r|].
  destruct (IH (hist_step h e)) as [-> ->]. destruct e; simpl; by rewrite <-?app_assoc.
Qed.

Section Windows.
Context (F : Z → list event → Z) (g : intervalRecord → Z).
Context (Fapp : ∀ c a b, F c (a ++ b) = F c a + F c b).
Context (Fone : ∀ c e, 0 ≤ F c [e] ≤ 1).
Context (Fsample : ∀ c ts end_, F c [ESample ts end_] = 0).
Context (Frow : ∀ h ts end_, g (abs_row h ts end_) = u64 (F (h_cut h) (h_win h))).

Lemma F_nil c : F c [] = 0.
Proof. pose proof (Fapp c [] []). simpl in *. lia. Qed.

Lemma F_bound c evs : 0 ≤ F c evs ≤ Z.of_nat (length evs).
Proof.
  induction evs as [|e evs IH]; [rewrite F_nil; simpl; lia|]. change (e :: evs) with ([e] ++ evs). rewrite Fapp.
  pose proof (Fone c e). simpl. lia.
Qed.

(** What the rows report and what is left in the window add up. *)
Lemma rows_sum l h :
  Forall (λ e, not_begin e = true) l → Z.of_nat (length (h_win h)) + Z.of_nat (length l) < 18446744073709551616 →
  sumZ (g <$> abs_rows h l) + F (h_cut h) (h_win (foldl hist_step h l)) = F (h_cut h) (h_win h) + F (h_cut h) l.
Proof.
  intros Hl. revert h. induction Hl as [|e l He Hl IH]; intros h Hb; simpl; [rewrite F_nil; lia|].
  change (e :: l) with ([e] ++ l). rewrite Fapp, fmap_app, sumZ_app. cbn [length] in Hb.
  assert (h_cut (hist_step h e) = h_cut h) as Hcut by (by destruct e). pose proof (IH (hist_step h e)) as IH'. rewrite Hcut in IH'.
  destruct e as [sl q v|sl q v d|q v|q|ts end_|]; try done; simpl in IH' |- *.
  all: rewrite ?length_app, ?Fapp, ?F_nil in IH'; simpl in IH'.
  4: { rewrite Frow, Fsample, u64_id by (pose proof (F_bound (h_cut h) (h_win h)); unfold is_u64; lia). lia. }
  all: lia.
Qed.
End Windows.

(** ** Conservation *)

(** The books balance: by kind, by connection, by channel and by window. *)
Record balanced (s : stats) (rows : list intervalRecord) : Prop := mkBalanced {
  ba_kinds : m_delivered (s_meas s) = m_consumed (s_meas s) + m_duplicates (s_meas s);
  ba_conn_pub : sumZ (cs_published <$> s_perConn s) = m_published (s_meas s);
  ba_conn_del : sumZ (cs_delivered <$> s_perConn s) = m_delivered (s_meas s);
  ba_conn_cons : sumZ (cs_consumed <$> s_perConn s) = m_consumed (s_meas s);
  ba_channels : sumZ (s_perPubCh s) = m_published (s_meas s);
  ba_rows_pub : sumZ (ir_Published <$> rows) + w_pub (s_win s) = m_published (s_meas s);
  ba_rows_del : sumZ (ir_Delivered <$> rows) + w_del (s_win s) = m_delivered (s_meas s);
  ba_rows_cons : sumZ (ir_Consumed <$> rows) + w_cons (s_win s) = m_consumed (s_meas s);
  ba_rows_dup : sumZ (ir_Duplicates <$> rows) + w_dup (s_win s) = m_duplicates (s_meas s);
}.

(** The four kinds of measured records, as lengths. *)
Definition n_pubs (c : Z) (evs : list event) : Z := Z.of_nat (length (m_pubs c evs)).
Definition n_dels (c : Z) (evs : list event) : Z := Z.of_nat (length (m_dels c evs)).
Definition n_firsts (c : Z) (evs : list event) : Z := Z.of_nat (length (firsts (m_dels c evs))).
Definition n_dups (c : Z) (evs : list event) : Z := Z.of_nat (length (dups (m_dels c evs))).

(** Each kind is additive, counts an event at most once and does not count samples. *)
Record kind (F : Z → list event → Z) : Prop := mkKind {
  k_app : ∀ c a b, F c (a ++ b) = F c a + F c b;
  k_one : ∀ c e, 0 ≤ F c [e] ≤ 1;
  k_sample : ∀ c ts end_, F c [ESample ts end_] = 0;
}.

Lemma kind_pubs : kind n_pubs.
Proof.
  unfold n_pubs. split; [intros; rewrite m_pubs_app, length_app; lia| |done].
  intros c []; simpl; try lia. case_decide; simpl; lia.
Qed.

Lemma kind_dels : kind n_dels.
Proof.
  unfold n_dels. split; [intros; rewrite m_dels_app, length_app; lia| |done].
  intros c []; simpl; try lia. case_decide; simpl; lia.
Qed.

Lemma kind_firsts : kind n_firsts.
Proof.
  unfold n_firsts, firsts. split; [intros; rewrite m_dels_app, filter_app, length_app; lia| |done].
  intros c []; simpl; try lia. case_decide; [simpl; lia|]. rewrite filter_cons. case_decide; simpl; lia.
Qed.

Lemma kind_dups : kind n_dups.
Proof.
  unfold n_dups, dups. split; [intros; rewrite m_dels_app, filter_app, length_app; lia| |done].
  intros c []; simpl; try lia. case_decide; [simpl; lia|]. rewrite filter_cons. case_decide; simpl; lia.
Qed.

Lemma firsts_dups ds : Z.of_nat (length (firsts ds)) + Z.of_nat (length (dups ds)) = Z.of_nat (length ds).
Proof.
  induction ds as [|d ds IH]; [done|]. unfold firsts, dups in *. rewrite !filter_cons. destruct (d_dup d) eqn:E;
    repeat case_decide; simplify_eq/=; try congruence; lia.
Qed.

Lemma m_pubs_elem c evs sl : sl ∈ m_pubs c evs → ∃ q v, EPublish sl q v ∈ evs.
Proof. intros (e & He & Hq)%list_elem_of_omap. destruct e; try done. case_decide; naive_solver. Qed.

Lemma m_dels_elem c evs d : d ∈ m_dels c evs → ∃ q, EDeliver (d_slot d) q (d_lat d) (d_dup d) ∈ evs.
Proof. intros (e & He & Hq)%list_elem_of_omap. destruct e; try done. case_decide; naive_solver. Qed.

Section Balanced.
Context (c : Config) (t : Topology) (total : Z) (h : hist) (l : list event).
Context (HB : Build c = Ok t) (Hl : Forall (plan_event t) l) (Hn : Forall (λ e, not_begin e = true) l).
Context (Hsmall : Z.of_nat (length l) < 18446744073709551616) (Hmeas : h_meas h = []) (Hwin : h_win h = []).

Lemma kind_small F : kind F → 0 ≤ F (h_cut h) l < 18446744073709551616.
Proof. intros [Happ Hone _]. pose proof (F_bound F Happ Hone (h_cut h) l). lia. Qed.

(** The rows and the open window of one kind. *)
Lemma kind_rows F g :
  kind F → (∀ h ts end_, g (abs_row h ts end_) = u64 (F (h_cut h) (h_win h))) →
  sumZ (g <$> abs_rows h l) + u64 (F (h_cut h) (h_win (foldl hist_step h l))) = F (h_cut h) l.
Proof.
  intros HF Hg. pose proof HF as [Happ Hone Hsamp].
  pose proof (rows_sum F g Happ Hone Hsamp Hg l h Hn) as Hr. rewrite Hwin, (F_nil F Happ) in Hr. simpl in Hr.
  assert (0 ≤ sumZ (g <$> abs_rows h l)) as Hpos.
  { clear -Hg. revert h. induction l as [|e l' IH]; intros h; [done|]. cbn [abs_rows]. rewrite fmap_app, sumZ_app.
    pose proof (IH (hist_step h e)) as IH'. destruct e; simpl in IH' |- *; try lia. rewrite Hg.
    pose proof (Z.mod_pos_bound (F (h_cut h) (h_win h)) 18446744073709551616). unfold u64. lia. }
  pose proof (F_bound F Happ Hone (h_cut h) (h_win (foldl hist_step h l))). pose proof (kind_small F HF).
  rewrite u64_id by (unfold is_u64; lia). lia.
Qed.

Lemma abs_balanced : balanced (abs t total (foldl hist_step h l)) (abs_rows h l).
Proof.
  destruct (hist_step_meas h l Hn) as [Hc Hm]. rewrite Hmeas in Hm. simpl in Hm.
  pose proof (kind_small _ kind_pubs) as Hp. pose proof (kind_small _ kind_dels) as Hd.
  pose proof (kind_small _ kind_firsts) as Hf. pose proof (kind_small _ kind_dups) as Hu.
  unfold n_pubs, n_dels, n_firsts, n_dups in *.
  assert (∀ sl, sl ∈ m_pubs (h_cut h) l → 0 ≤ sl_Conn sl < Z.of_nat (length (t_Conns t)) ∧
    0 ≤ sl_publishCapIdx sl < Z.of_nat (length (t_publishCapable t))) as Hps.
  { intros sl (q & v & He)%m_pubs_elem. rewrite Forall_forall in Hl. destruct (Hl _ He) as (p & Hpp & Hs).
    destruct (plan_slot_in _ _ _ _ HB Hs) as (? & ? & Hge). split; [done|]. split; [by apply Hge|done]. }
  assert (∀ d, d ∈ m_dels (h_cut h) l → 0 ≤ sl_Conn (d_slot d) < Z.of_nat (length (t_Conns t))) as Hds.
  { intros d (q & He)%m_dels_elem. rewrite Forall_forall in Hl. destruct (Hl _ He) as (p & Hpp & Hs).
    by destruct (plan_slot_in _ _ _ _ HB Hs) as (? & ? & _). }
  split; simpl; rewrite ?Hc, ?Hm; rewrite <-?list_fmap_compose.
  - rewrite !count_small by lia. pose proof (firsts_dups (m_dels (h_cut h) l)). lia.
  - apply sum_counts; [|lia]. intros sl Hsl. by apply Hps.
  - apply (sum_counts (λ d, sl_Conn (d_slot d))); [done|lia].
  - rewrite <-(sum_counts (λ d, sl_Conn (d_slot d)) (length (t_Conns t)));
      [|intros d [_ Hd']%list_elem_of_filter; by apply Hds|lia].
    f_equal. apply list_fmap_ext. intros i k _. simpl. unfold firsts, on_conn. rewrite !list_filter_filter.
    f_equal. apply list_filter_iff. intros d. tauto.
  - apply sum_counts; [|lia]. intros sl Hsl. by apply Hps.
  - rewrite (count_small (m_pubs (h_cut h) l)) by lia. apply (kind_rows n_pubs); [apply kind_pubs|done].
  - rewrite (count_small (m_dels (h_cut h) l)) by lia. apply (kind_rows n_dels); [apply kind_dels|done].
  - rewrite (count_small (firsts (m_dels (h_cut h) l))) by lia. apply (kind_rows n_firsts); [apply kind_firsts|done].
  - rewrite (count_small (dups (m_dels (h_cut h) l))) by lia. apply (kind_rows n_dups); [apply kind_dups|done].
Qed.
End Balanced.

(** The start of the measured phase: the start of the run or the boundary. *)
Definition starts_phase (pre : list event) : Prop := pre = [] ∨ ∃ pre' q, pre = pre' ++ [EBegin q].

Lemma starts_phase_empty pre :
  starts_phase pre → h_meas (foldl hist_step hist0 pre) = [] ∧ h_win (foldl hist_step hist0 pre) = [].
Proof. intros [->|(pre' & q & ->)]; [done|]. by rewrite foldl_app. Qed.

(** The measured phase balances, with fewer than [2^64] records in it: every delivery is a
    first delivery or a duplicate; the connections' counters add up to the totals, and
    so do the publishing channels'; and the rows sampled so far and the open window
    account for every measured record exactly once. *)
Theorem measured_phase_balances (c : Config) (t : Topology) (total : Z) (pre l : list event) :
  Build c = Ok t → Forall (plan_event t) (pre ++ l) → starts_phase pre → Forall (λ e, not_begin e = true) l →
  Z.of_nat (length l) < 18446744073709551616 →
  ∃ rows0 s0 rows s,
    run_events (newStats t total) pre = Ok (rows0, s0) ∧ run_events s0 l = Ok (rows, s) ∧ balanced s rows.
Proof.
  intros HB [Hpre Hl]%Forall_app Hst Hn Hs. destruct (starts_phase_empty pre Hst) as [Hm Hw].
  assert (∀ l, Forall (plan_event t) l → Forall (event_in t) l) as Hin.
  { intros l' Hl'. eapply Forall_impl; [done|]. intros e. by eapply plan_event_in. }
  eexists _, _, _, _. rewrite new_abs. split; [by apply run_abs, Hin|]. split; [by apply run_abs, Hin|].
  by eapply abs_balanced.
Qed.

Lemma measured_phase_balances_witness :
  Build one_config = Ok one_plan ∧
  ∃ rows0 s0 rows s, run_events (newStats one_plan 10) demo_warmup = Ok (rows0, s0) ∧
    run_events s0 demo_events = Ok (rows, s) ∧ balanced s rows.
Proof.
  assert (Build one_config = Ok one_plan) as HB by (vm_compute; reflexivity).
  split; [exact HB|]. apply (measured_phase_balances one_config one_plan 10 demo_warmup demo_events HB).
  - assert (∃ p, p ∈ t_publishCapable one_plan ∧ t_slots one_plan !! p = Some one_slot) as Hp.
    { exists 0%nat. split; [apply list_elem_of_here|vm_compute; reflexivity]. }
    assert (∃ p, p ∈ t_consumeCapable one_plan ∧ t_slots one_plan !! p = Some one_slot) as Hc.
    { exists 0%nat. split; [apply list_elem_of_here|vm_compute; reflexivity]. }
    repeat (constructor; [first [exact I|exact Hp|exact Hc]|]). constructor.
  - right. exists [EPublish one_slot 1 (f64_of_Z 5)], 1. reflexivity.
  - repeat (constructor; [reflexivity|]). constructor.
  - reflexivity.
Defined.
