(* ===== verification/BenchPublish.v ===== *)
(** * The publishers of the benchmark, interleaved (src/internal/bench/worker.go)

    [publishWorker.run] as a program counter, one step per access to what the publishers
    share: the sequence counter, the send times, the accumulators, the broker.  The
    publishers run in any order, beside consumers, a sampler and whoever closes the stop
    channel.  Sequence numbers are minted once, the budget is not exceeded unless it
    overflows, and every publisher ends. *)

From S2P Require Import Prelude BenchTopology BenchPlacement BenchPlan BenchLatency BenchStats BenchWorker BenchRun.

(** ** One publisher *)

(** Where a publisher is, with its loop index: not started, at the head of the loop, past
    the check of [stop], with a sequence number, with a stamped body, after [Publish], returned. *)
Inductive pc : Type :=
| PStart
| PTop (i : Z)
| PGo (i : Z)
| PMinted (i seq : Z)
| PStamped (i seq : Z) (body : list Z)
| PRecord (i seq : Z) (lat : f64)
| PDone (i : Z) (err : option workerError).

(** What the outside gives a step: the clock, and the latency of [Publish] if it succeeds. *)
Record input := mkInput { in_now : Z; in_lat : option f64 }.

(** The head of the loop: its condition and the check of [stop]. *)
Definition loop_head (msgs : Z) (stop : bool) (i : Z) : pc :=
  if decide (i < msgs) then (if stop then PDone i None else PGo i) else PDone i None.

(** One step of [publishWorker.run]: the next program counter, the shared state, and the
    bodies handed to the broker.  The first allocates the body. *)
Definition pub_step (msgs size : Z) (sl : channelSlot) (stop : bool) (inp : input) (p : pc) (w : shared)
  : may_panic (pc * shared * list (list Z)) :=
  match p with
  | PStart => make_len 1 size;; Ok (loop_head msgs stop 0, w, [])
  | PTop i => Ok (loop_head msgs stop i, w, [])
  | PGo i =>
      let seq := u64 (sh_seq w + 1) in
      let len := Z.of_nat (length (sh_sent w)) in
      let w := mkShared seq (sh_sent w) (sh_seen w) (sh_stats w) in
      if decide (seq = 0 ∨ len ≤ i64 (i64 seq - 1)) then Ok (PDone i (Some (EBudget seq len)), w, [])
      else Ok (PMinted i seq, w, [])
  | PMinted i seq =>
      sent ← update_at (sh_sent w) (u64 (seq - 1)) (λ _, in_now inp);
      body ← encodeHeader (replicate (Z.to_nat size) 0) seq (in_now inp);
      Ok (PStamped i seq body, mkShared (sh_seq w) sent (sh_seen w) (sh_stats w), [])
  | PStamped i seq body =>
      match in_lat inp with
      | None => Ok (PDone i (Some EPublishFailed), w, [])
      | Some v => Ok (PRecord i seq v, w, [body])
      end
  | PRecord i seq v =>
      s ← recordPublish (sh_stats w) sl seq v;
      Ok (PTop (i + 1), mkShared (sh_seq w) (sh_sent w) (sh_seen w) s, [])
  | PDone i err => Ok (p, w, [])
  end.

Definition ended (p : pc) : bool := match p with PDone _ _ => true | _ => false end.

(** Undisturbed, the steps of a turn are the turn of BenchWorker.v. *)
Lemma turn_steps msgs size sl now lat i w body w' :
  publish_one sl size now (Some lat) w = Ok (inr body, w') →
  let inp := mkInput now (Some lat) in
  ∃ w1 w2, pub_step msgs size sl false inp (PGo i) w = Ok (PMinted i (sh_seq w'), w1, []) ∧
    pub_step msgs size sl false inp (PMinted i (sh_seq w')) w1 = Ok (PStamped i (sh_seq w') body, w2, []) ∧
    pub_step msgs size sl false inp (PStamped i (sh_seq w') body) w2 = Ok (PRecord i (sh_seq w') lat, w2, [body]) ∧
    pub_step msgs size sl false inp (PRecord i (sh_seq w') lat) w2 = Ok (PTop (i + 1), w', []).
Proof.
  unfold publish_one, pub_step. cbn [in_now in_lat]. case_decide; [done|].
  destruct (update_at _ _ _) as [sent|[]|] eqn:E1; [|done]. cbn [mbind].
  destruct (encodeHeader _ _ _) as [b|[]|] eqn:E2; [|done].
  destruct (recordPublish _ _ _ _) as [s|[]|] eqn:E3; [|done]. intros [= <- <-]. cbn [sh_seq].
  eexists _, _. split; [done|]. cbn [sh_sent sh_seen sh_seq sh_stats]. rewrite E1. simpl. rewrite E2. simpl. split; [done|]. split; [done|].
  cbn [sh_stats]. by rewrite E3.
Qed.

(** ** Publishers side by side *)

Record pubs := mkPubs { ps_sh : shared; ps_pcs : list pc; ps_stop : bool; ps_wire : list (list Z) }.

Section publishers.
(** One slot per publisher. *)
Context (t : Topology) (slots : list channelSlot) (msgs size : Z).

(** engine.go: [total], the length of [sentTimes]; the product wraps. *)
Definition budget : Z := i64 (Z.of_nat (length slots) * msgs).

(** A publisher moves; [stop] is closed; another goroutine uses the accumulators, or a
    consumer marks a message as seen. *)
Inductive pstep : nat → pubs → pubs → Prop :=
| step_publisher k sl p inp s p' sh' out :
    slots !! k = Some sl → ps_pcs s !! k = Some p → ended p = false → is_i64 (in_now inp) →
    pub_step msgs size sl (ps_stop s) inp p (ps_sh s) = Ok (p', sh', out) →
    pstep 1 s (mkPubs sh' (<[k := p']> (ps_pcs s)) (ps_stop s) (ps_wire s ++ out))
| step_stop s : pstep 0 s (mkPubs (ps_sh s) (ps_pcs s) true (ps_wire s))
| step_other e rows st' seen' s :
    event_in t e → (∀ sl q v, e ≠ EPublish sl q v) → run_event (sh_stats (ps_sh s)) e = Ok (rows, st') →
    pstep 0 s (mkPubs (mkShared (sh_seq (ps_sh s)) (sh_sent (ps_sh s)) seen' st') (ps_pcs s) (ps_stop s) (ps_wire s)).

(** What is reached from the start, after so many steps of publishers. *)
Inductive preach (s0 : pubs) : nat → pubs → Prop :=
| preach_start : preach s0 0 s0
| preach_step n k s s' : preach s0 n s → pstep k s s' → preach s0 (n + k) s'.

(** No send time, no publisher has started. *)
Definition pstart : pubs :=
  mkPubs (mkShared 0 (replicate (Z.to_nat budget) 0) (replicate (Z.to_nat budget) false) (newStats t budget))
    (replicate (length slots) PStart) false [].

(** ** What the program counters say *)

(** The sequence numbers a publisher has drawn. *)
Definition minted (p : pc) : Z :=
  match p with
  | PStart => 0
  | PTop i | PGo i | PDone i None => i
  | PMinted i _ | PStamped i _ _ | PRecord i _ _ | PDone i (Some _) => i + 1
  end.
(** The number it has drawn and not published yet, the body that is stamped, the number that
    is published and not recorded. *)
Definition held (p : pc) : list Z := match p with PMinted _ q | PStamped _ q _ => [q] | _ => [] end.
Definition stamped (p : pc) : list (list Z) := match p with PStamped _ _ b => [b] | _ => [] end.
Definition recording (p : pc) : list Z := match p with PRecord _ q _ => [q] | _ => [] end.
Definition failures (p : pc) : Z := match p with PDone _ (Some _) => 1 | _ => 0 end.

Definition pc_ok (stop : bool) (p : pc) : Prop :=
  match p with
  | PStart => 0 ≤ msgs
  | PTop i => 0 ≤ i ≤ msgs
  | PGo i => 0 ≤ i < msgs
  | PMinted i q => 0 ≤ i < msgs
  | PStamped i q b => 0 ≤ i < msgs ∧ (decodeHeader b).1 = q
  | PRecord i q _ => 0 ≤ i < msgs
  | PDone i None => 0 ≤ i ≤ msgs ∧ (i < msgs → stop = true)
  | PDone i (Some EPublishFailed) => 0 ≤ i < msgs
  | PDone _ (Some _) => False
  end.

Definition seq_of (b : list Z) : Z := (decodeHeader b).1.

(** A body of the right size that carries its number and the send time stored for it. *)
Definition carries (sent : list Z) (b : list Z) : Prop :=
  ∃ now, decodeHeader b = (seq_of b, now) ∧ 1 ≤ seq_of b ∧ sent !! Z.to_nat (seq_of b - 1) = Some now ∧
    is_i64 now ∧ Z.of_nat (length b) = size ∧ encodeHeader (replicate (Z.to_nat size) 0) (seq_of b) now = Ok b.

(** The numbers of the publishes that were recorded. *)
Definition recorded (l : list event) : list Z := omap (λ e, match e with EPublish _ q _ => Some q | _ => None end) l.

(** The invariant does not depend on which publisher is where. *)
Record pInv (sh : shared) (stop : bool) (wire : list (list Z)) (pcs : list pc) : Prop := {
  pi_budget : Z.of_nat (length (sh_sent sh)) = msgs * Z.of_nat (length pcs);
  pi_pcs : Forall (pc_ok stop) pcs;
  pi_seq : sh_seq sh = sumZ (minted <$> pcs);
  pi_nodup : NoDup ((pcs ≫= held) ++ (seq_of <$> wire));
  pi_range : Forall (λ q, 1 ≤ q ≤ sh_seq sh) ((pcs ≫= held) ++ (seq_of <$> wire));
  pi_bodies : Forall (carries (sh_sent sh)) ((pcs ≫= stamped) ++ wire);
  pi_count : Z.of_nat (length (pcs ≫= held)) + Z.of_nat (length wire) + sumZ (failures <$> pcs) = sh_seq sh;
  pi_stats : ∃ h, sh_stats sh = abs t budget h ∧ recorded (h_all h) ++ (pcs ≫= recording) ≡ₚ seq_of <$> wire;
}.

(** ** The invariant *)

Lemma sumZ_perm l l' : l ≡ₚ l' → sumZ l = sumZ l'.
Proof. unfold sumZ. induction 1; simpl; lia. Qed.

#[local] Instance pInv_perm sh stop wire : Proper ((≡ₚ) ==> iff) (pInv sh stop wire).
Proof.
  enough (∀ l l', l ≡ₚ l' → pInv sh stop wire l → pInv sh stop wire l') as Hp by (intros l l' Hl; by split; apply Hp).
  intros l l' Hl [H1 H2 H3 H4 H5 H6 H7 (h & Hh & H8)]. split.
  - by rewrite <-Hl.
  - by rewrite <-Hl.
  - rewrite H3. apply sumZ_perm. by rewrite Hl.
  - by rewrite <-Hl.
  - by rewrite <-Hl.
  - by rewrite <-Hl.
  - by rewrite <-(sumZ_perm (failures <$> l) (failures <$> l')), <-Hl by (by rewrite Hl).
  - exists h. by rewrite <-Hl.
Qed.

Lemma minted_le stop pcs : Forall (pc_ok stop) pcs → 0 ≤ sumZ (minted <$> pcs) ≤ msgs * Z.of_nat (length pcs).
Proof.
  induction 1 as [|p pcs Hp _ IH]; [simpl; lia|]. rewrite fmap_cons. cbn [sumZ foldr length]. rewrite Nat2Z.inj_succ.
  enough (0 ≤ minted p ≤ msgs) by (unfold sumZ in IH; lia).
  destruct p as [| | | | | |i [[]|]]; simpl in *; try lia; done.
Qed.

Lemma carries_insert sent b q now : seq_of b ≠ q → 1 ≤ q → carries sent b → carries (<[Z.to_nat (q - 1) := now]> sent) b.
Proof. intros Hne Hq (n & Hd & H1 & Hs & Hn). exists n. split_and!; try done; [|apply Hn..]. rewrite list_lookup_insert_ne by lia. done. Qed.

Lemma stamped_held stop pcs b : Forall (pc_ok stop) pcs → b ∈ pcs ≫= stamped → seq_of b ∈ pcs ≫= held.
Proof.
  intros Hok (p & Hb & Hp)%list_elem_of_bind. apply list_elem_of_bind. exists p. split; [|done].
  rewrite Forall_forall in Hok. specialize (Hok p Hp). destruct p; simpl in *; try by apply list_elem_of_singleton in Hb || by inversion Hb.
  apply list_elem_of_singleton in Hb as ->. destruct Hok as [_ <-]. by apply list_elem_of_here.
Qed.

Context (Hsize : headerLen ≤ size ≤ max_alloc) (Hmsgs : 0 ≤ msgs).

(** A step of the first publisher, whatever the others do. *)
Section one_step.
Context (sl : channelSlot) (Hsl : slot_in t sl) (inp : input) (Hnow : is_i64 (in_now inp)) (stop : bool) (wire : list (list Z)) (sh : shared) (R : list pc).
Context (Hlim : msgs * Z.of_nat (S (length R)) < 9223372036854775808).

Definition steps_to (p : pc) : Prop :=
  pInv sh stop wire (p :: R) →
  ∃ p' sh' out, pub_step msgs size sl stop inp p sh = Ok (p', sh', out) ∧ pInv sh' stop (wire ++ out) (p' :: R).

(** A step that changes the program counter alone. *)
Lemma pInv_local p p' :
  pInv sh stop wire (p :: R) → pc_ok stop p' → minted p' = minted p → held p' = held p → stamped p' = stamped p →
  recording p' = recording p → failures p' = failures p → pInv sh stop (wire ++ []) (p' :: R).
Proof.
  intros [H1 H2 H3 H4 H5 H6 H7 (h & Hh & H8)] Hok Em Eh Es Er Ef. rewrite app_nil_r.
  apply Forall_cons in H2 as [_ H2]. split; cbn [mbind list_bind] in *; rewrite ?fmap_cons in *; rewrite ?Em, ?Eh, ?Es, ?Er, ?Ef; try done.
  - by constructor.
  - by exists h.
Qed.

(** The head of the loop keeps the invariant. *)
Lemma step_head p i :
  pInv sh stop wire (p :: R) → 0 ≤ i ≤ msgs → minted p = i → held p = [] → stamped p = [] → recording p = [] →
  failures p = 0 → pInv sh stop (wire ++ []) (loop_head msgs stop i :: R).
Proof.
  intros HI Hi Em Eh Es Er Ef. unfold loop_head.
  case_decide as Hlt; (eapply pInv_local; [done|..]); rewrite ?Em, ?Eh, ?Es, ?Er, ?Ef; try (by destruct stop).
  destruct stop; simpl; [by split|lia].
Qed.

Lemma step_start : steps_to PStart.
Proof.
  intros HI. cbn [pub_step]. rewrite make_len_ok by (unfold headerLen in *; lia).
  eexists _, _, _. split; [done|]. by apply (step_head PStart).
Qed.

Lemma step_top i : steps_to (PTop i).
Proof.
  intros HI. pose proof (pi_pcs _ _ _ _ HI) as [Hok _]%Forall_cons. simpl in Hok. cbn [pub_step].
  eexists _, _, _. split; [done|]. by apply (step_head (PTop i)).
Qed.

Lemma step_go i : steps_to (PGo i).
Proof.
  intros HI. pose proof (minted_le _ _ (pi_pcs _ _ _ _ HI)) as Hle. pose proof HI as [H1 H2 H3 H4 H5 H6 H7 (h & Hh & H8)].
  apply Forall_cons in H2 as [Hok H2]. simpl in Hok.
  assert (0 ≤ sh_seq sh < Z.of_nat (length (sh_sent sh))) as Hseq.
  { rewrite H3, H1. pose proof (minted_le _ _ H2). rewrite fmap_cons. cbn [length sumZ foldr minted] in *. unfold sumZ in *. lia. }
  cbn [length] in H1. cbn [pub_step]. assert (u64 (sh_seq sh + 1) = sh_seq sh + 1) as -> by (apply u64_id; unfold is_u64; lia).
  assert (i64 (i64 (sh_seq sh + 1) - 1) = sh_seq sh) as -> by (rewrite !i64_id; unfold is_i64; rewrite ?i64_id; unfold is_i64; lia).
  rewrite decide_False by lia. eexists _, _, _. split; [done|]. rewrite app_nil_r. rewrite fmap_cons in H3, H7. cbn [sumZ foldr minted failures] in *.
  split; cbn [sh_sent sh_seq sh_stats mbind list_bind held stamped recording app] in *; rewrite ?fmap_cons; cbn [sumZ foldr minted failures length] in *; try done.
  - by constructor.
  - unfold sumZ in *. lia.
  - constructor; [|done]. intros Hin. rewrite Forall_forall in H5. specialize (H5 _ Hin). lia.
  - constructor; [lia|]. eapply Forall_impl; [done|]. simpl. lia.
  - unfold sumZ in *. lia.
  - by exists h.
Qed.

Lemma step_minted i q : steps_to (PMinted i q).
Proof.
  intros HI. pose proof (minted_le _ _ (pi_pcs _ _ _ _ HI)) as Hle. destruct HI as [H1 H2 H3 H4 H5 H6 H7 (h & Hh & H8)].
  apply Forall_cons in H2 as [Hok H2]. simpl in Hok.
  cbn [mbind list_bind held stamped recording app] in *. apply NoDup_cons in H4 as [Hq H4]. apply Forall_cons in H5 as [Hr H5].
  rewrite <-H3 in Hle. cbn [length] in H1, Hle.
  cbn [pub_step]. assert (u64 (q - 1) = q - 1) as -> by (apply u64_id; unfold is_u64; lia).
  destruct (lookup_lt_is_Some_2 (sh_sent sh) (Z.to_nat (q - 1))) as [x Hx]; [lia|].
  unfold update_at. rewrite (index_Some _ _ x) by (done || lia). cbn [mbind].
  destruct (header_roundtrip (replicate (Z.to_nat size) 0) q (in_now inp)) as (body & Eb & Hd & Hlen & _);
    [rewrite length_replicate; unfold headerLen in *; lia|unfold is_u64; lia|done|].
  simpl. rewrite Eb. simpl. eexists _, _, _. split; [done|]. rewrite app_nil_r.
  assert (seq_of body = q) as Hs by (unfold seq_of; by rewrite Hd).
  split; cbn [sh_sent sh_seq sh_stats mbind list_bind held stamped recording app length] in *; try done.
  - by rewrite length_insert.
  - constructor; [|done]. by simpl.
  - by constructor.
  - by constructor.
  - constructor.
    + exists (in_now inp). rewrite Hs, list_lookup_insert_eq by lia. split; [done|]. split; [lia|]. split; [done|]. split; [done|].
      split; [|done]. rewrite Hlen, length_replicate. unfold headerLen in *. lia.
    + rewrite Forall_forall in H6 |- *. intros b Hb. apply carries_insert; [|lia|by apply H6].
      intros E. apply Hq. rewrite <-E. apply elem_of_app. apply elem_of_app in Hb as [Hb|Hb]; [left; by eapply stamped_held|].
      right. by apply list_elem_of_fmap_2.
  - by exists h.
Qed.

Lemma step_stamped i q b : steps_to (PStamped i q b).
Proof.
  intros [H1 H2 H3 H4 H5 H6 H7 (h & Hh & H8)]. apply Forall_cons in H2 as [Hok H2]. simpl in Hok. destruct Hok as [Hi Hb].
  cbn [mbind list_bind held stamped recording app] in *. rewrite fmap_cons in H3, H7. apply Forall_cons in H6 as [Hc H6].
  cbn [pub_step]. destruct (in_lat inp) as [v|]; (eexists _, _, _; split; [done|]).
  - assert (seq_of <$> (wire ++ [b]) = (seq_of <$> wire) ++ [q]) as Ew by (rewrite fmap_app; unfold seq_of at 2; simpl; by rewrite Hb).
    assert ((R ≫= held) ++ (seq_of <$> (wire ++ [b])) ≡ₚ q :: (R ≫= held) ++ (seq_of <$> wire)) as Hp.
    { rewrite Ew, (app_assoc (R ≫= held)), <-Permutation_cons_append. done. }
    split; cbn [mbind list_bind held stamped recording app length] in *; rewrite ?fmap_cons; cbn [minted failures] in *; try done.
    + by constructor.
    + by rewrite Hp.
    + by rewrite Hp.
    + rewrite app_assoc. apply Forall_app. split; [done|]. by constructor.
    + rewrite length_app. cbn [length] in *. cbn [sumZ foldr] in *. unfold sumZ in *. lia.
    + exists h. split; [done|]. rewrite Ew. rewrite <-(Permutation_cons_append (seq_of <$> wire)), <-H8. by rewrite <-Permutation_middle.
  - rewrite app_nil_r. apply NoDup_cons in H4 as [_ H4]. apply Forall_cons in H5 as [_ H5].
    split; cbn [mbind list_bind held stamped recording app length] in *; rewrite ?fmap_cons; cbn [minted failures] in *; try done.
    + by constructor.
    + cbn [sumZ foldr] in *. unfold sumZ in *. lia.
    + by exists h.
Qed.

Lemma recorded_app l l' : recorded (l ++ l') = recorded l ++ recorded l'.
Proof. apply omap_app. Qed.

Lemma hist_step_all h e : h_all (hist_step h e) = h_all h ++ [e].
Proof. by destruct e. Qed.

Lemma step_record i q v : steps_to (PRecord i q v).
Proof.
  intros [H1 H2 H3 H4 H5 H6 H7 (h & Hh & H8)]. apply Forall_cons in H2 as [Hok H2]. simpl in Hok.
  cbn [mbind list_bind held stamped recording app] in *. rewrite fmap_cons in H3, H7.
  cbn [pub_step]. rewrite Hh, publish_abs by done. simpl. eexists _, _, _. split; [done|]. rewrite app_nil_r.
  split; cbn [sh_sent sh_seq sh_stats mbind list_bind held stamped recording app length] in *; rewrite ?fmap_cons;
    cbn [minted failures] in *; try done.
  - constructor; [simpl; lia|done].
  - exists (hist_step h (EPublish sl q v)). split; [done|]. rewrite hist_step_all, recorded_app, <-app_assoc. done.
Qed.

(** The step is taken and the invariant holds after it. *)
Lemma step_ok p : steps_to p.
Proof.
  destruct p as [|i|i|i q|i q b|i q v|i err]; [apply step_start|apply step_top|apply step_go|apply step_minted|apply step_stamped|apply step_record|].
  intros HI. eexists _, _, _. split; [done|]. by rewrite app_nil_r.
Qed.
End one_step.

(** ** Publishers end *)

(** The steps a publisher has left, at most. *)
Definition weight (p : pc) : Z :=
  match p with
  | PStart => 5 * msgs + 1
  | PTop i => 5 * (msgs - i) + 1
  | PGo i => 5 * (msgs - i)
  | PMinted i _ => 5 * (msgs - i) - 1
  | PStamped i _ _ => 5 * (msgs - i) - 2
  | PRecord i _ _ => 5 * (msgs - i) - 3
  | PDone _ _ => 0
  end.

Lemma weight_nonneg stop pcs : Forall (pc_ok stop) pcs → 0 ≤ sumZ (weight <$> pcs).
Proof.
  induction 1 as [|p pcs Hp _ IH]; [done|]. rewrite fmap_cons. unfold sumZ in *. cbn [foldr].
  enough (0 ≤ weight p) by lia. destruct p; simpl in *; lia.
Qed.

Lemma loop_head_weight stop i : 0 ≤ i ≤ msgs → weight (loop_head msgs stop i) ≤ 5 * (msgs - i).
Proof. intros Hi. unfold loop_head. case_decide; [destruct stop|]; simpl; lia. Qed.

Lemma pub_step_weight sl stop inp p sh p' sh' out :
  pc_ok stop p → ended p = false → pub_step msgs size sl stop inp p sh = Ok (p', sh', out) → weight p' + 1 ≤ weight p.
Proof.
  intros Hok He Hs. destruct p as [|i|i|i q|i q b|i q v|i err]; cbn [pub_step pc_ok] in *; [..|done].
  - destruct (make_len 1 size) as [[]|[]|]; [|done]. injection Hs as <- _ _. simpl.
    pose proof (loop_head_weight stop 0). lia.
  - injection Hs as <- _ _. simpl. pose proof (loop_head_weight stop i). lia.
  - case_decide; injection Hs as <- _ _; simpl; lia.
  - destruct (update_at _ _ _) as [sent|[]|]; [|done]. simpl in Hs. destruct (encodeHeader _ _ _) as [b|[]|]; [|done].
    injection Hs as <- _ _. simpl. lia.
  - destruct (in_lat inp); injection Hs as <- _ _; simpl; lia.
  - destruct (recordPublish _ _ _ _) as [st|[]|]; [|done]. injection Hs as <- _ _. simpl. lia.
Qed.

(** ** Every interleaving *)

Context (Hslots : Forall (slot_in t) slots) (Hlim : msgs * Z.of_nat (length slots) < 9223372036854775808).

(** A product that does not wrap. *)
Lemma budget_eq : budget = msgs * Z.of_nat (length slots).
Proof. unfold budget. rewrite i64_id; [lia|]. unfold is_i64. lia. Qed.

Lemma insert_perm {A} (l : list A) k x y : l !! k = Some x → <[k := y]> l ≡ₚ y :: delete k l.
Proof.
  intros Hk. rewrite insert_take_drop by (by eapply lookup_lt_Some). rewrite delete_take_drop. by rewrite Permutation_middle.
Qed.

(** Nothing but publishers touches the counters, and [stop] stays closed. *)
Lemma pInv_stop sh stop wire pcs : pInv sh stop wire pcs → pInv sh true wire pcs.
Proof.
  intros [H1 H2 H3 H4 H5 H6 H7 H8]. split; try done. eapply Forall_impl; [exact H2|].
  intros [| | | | | |i [[]|]]; simpl; try done. intros [? _]. by split.
Qed.

Lemma pInv_other sh stop wire pcs e rows st' seen' :
  event_in t e → (∀ sl q v, e ≠ EPublish sl q v) → run_event (sh_stats sh) e = Ok (rows, st') →
  pInv sh stop wire pcs → pInv (mkShared (sh_seq sh) (sh_sent sh) seen' st') stop wire pcs.
Proof.
  intros Hin He Hr [H1 H2 H3 H4 H5 H6 H7 (h & Hh & H8)]. split; try done.
  pose proof (run_abs t budget h [e] ltac:(by constructor)) as Ha. cbn [run_events foldl] in Ha. rewrite Hh in Hr. rewrite Hr in Ha.
  exists (hist_step h e). split; [cbn in Ha |- *; by injection Ha as _ ->|]. rewrite hist_step_all, recorded_app.
  enough (recorded [e] = []) as -> by (by rewrite app_nil_r). destruct e; try done. by destruct (He sl seq lat).
Qed.

Lemma pstep_inv n s s' :
  pstep n s s' → length (ps_pcs s) = length slots → pInv (ps_sh s) (ps_stop s) (ps_wire s) (ps_pcs s) →
  length (ps_pcs s') = length slots ∧ pInv (ps_sh s') (ps_stop s') (ps_wire s') (ps_pcs s').
Proof.
  intros [k sl p inp s0 p' sh' out Hk Hp He Hn Hs|s0|e rows st' seen' s0 Hin He Hr] Hlen HI; cbn [ps_sh ps_stop ps_wire ps_pcs].
  - split; [by rewrite length_insert|]. rewrite (insert_perm _ _ _ _ Hp). rewrite (delete_Permutation _ _ _ Hp) in HI.
    rewrite (delete_Permutation _ _ _ Hp) in Hlen. simpl in Hlen.
    destruct (step_ok sl ltac:(by eapply (Forall_lookup_1 _ _ _ _ Hslots)) inp Hn (ps_stop s0) (ps_wire s0) (ps_sh s0) (delete k (ps_pcs s0))
      ltac:(lia) p HI) as (p2 & sh2 & out2 & E & HI2).
    rewrite Hs in E. injection E as <- <- <-. done.
  - split; [done|]. by eapply pInv_stop.
  - split; [done|]. by eapply pInv_other.
Qed.

Lemma pstart_inv : pInv (ps_sh pstart) false [] (ps_pcs pstart).
Proof.
  assert (∀ n, sumZ (minted <$> replicate n PStart) = 0 ∧ sumZ (failures <$> replicate n PStart) = 0) as Hsum.
  { induction n as [|n [IH1 IH2]]; [done|]. cbn [replicate]. rewrite !fmap_cons. unfold sumZ in *. cbn [foldr minted failures]. lia. }
  assert (∀ B (f : pc → list B) n, f PStart = [] → replicate n PStart ≫= f = []) as Hb.
  { intros B f n Hf. induction n as [|n IH]; [done|]. cbn [replicate mbind list_bind]. by rewrite Hf. }
  split; cbn [pstart ps_sh ps_pcs sh_sent sh_seq sh_stats].
  - rewrite !length_replicate, budget_eq. lia.
  - apply Forall_replicate. simpl. lia.
  - by rewrite (proj1 (Hsum _)).
  - rewrite Hb by done. constructor.
  - rewrite Hb by done. constructor.
  - rewrite Hb by done. constructor.
  - rewrite Hb, (proj2 (Hsum _)) by done. done.
  - exists hist0. rewrite new_abs. split; [done|]. rewrite Hb by done. done.
Qed.

Lemma preach_inv n s :
  preach pstart n s → length (ps_pcs s) = length slots ∧ pInv (ps_sh s) (ps_stop s) (ps_wire s) (ps_pcs s).
Proof.
  induction 1 as [|n k s s' _ [Hl HI] Hs]; [|by eapply pstep_inv].
  split; [simpl; by rewrite length_replicate|apply pstart_inv].
Qed.

Lemma preach_weight n s :
  preach pstart n s → Z.of_nat n + sumZ (weight <$> ps_pcs s) ≤ Z.of_nat (length slots) * (5 * msgs + 1).
Proof.
  induction 1 as [|n k s s' Hr IH Hs].
  - simpl. generalize (length slots) as m. induction m as [|m IH]; [simpl; lia|]. cbn [replicate]. rewrite fmap_cons.
    unfold sumZ in *. cbn [foldr weight]. lia.
  - apply preach_inv in Hr as [_ HI]. destruct Hs as [k sl p inp s p' sh' out Hk Hp He Hn Hs|s|e rows st' seen' s Hin He Hr'];
      cbn [ps_pcs] in *; [|lia|lia].
    assert (weight p' + 1 ≤ weight p) as Hw.
    { eapply pub_step_weight; [|done..]. eapply (Forall_lookup_1 _ _ _ _ (pi_pcs _ _ _ _ HI)); done. }
    rewrite (sumZ_perm _ (weight p :: (weight <$> delete k (ps_pcs s)))) in IH by (by rewrite (delete_Permutation _ _ _ Hp) at 1).
    rewrite (sumZ_perm _ (weight p' :: (weight <$> delete k (ps_pcs s)))) by (by rewrite (insert_perm _ _ _ _ Hp)).
    unfold sumZ in *. cbn [foldr] in *. lia.
Qed.

(** A publisher that has not returned can move, whatever the clock says and whether the
    broker takes its message. *)
Lemma pstep_progress n s k p inp :
  preach pstart n s → ps_pcs s !! k = Some p → is_i64 (in_now inp) →
  ∃ sl r, slots !! k = Some sl ∧ pub_step msgs size sl (ps_stop s) inp p (ps_sh s) = Ok r.
Proof.
  intros [Hl HI]%preach_inv Hp Hn. destruct (lookup_lt_is_Some_2 slots k) as [sl Hk]; [rewrite <-Hl; by eapply lookup_lt_Some|].
  exists sl. rewrite (delete_Permutation _ _ _ Hp) in HI, Hl. simpl in Hl.
  destruct (step_ok sl ltac:(by eapply (Forall_lookup_1 _ _ _ _ Hslots)) inp Hn (ps_stop s) (ps_wire s) (ps_sh s) (delete k (ps_pcs s))
    ltac:(lia) p HI) as (p' & sh' & out & E & _). eauto.
Qed.

(** Distinct numbers from 1 to [n], [n] of them. *)
Lemma numbers_perm (l : list Z) n : NoDup l → Forall (λ q, 1 ≤ q ≤ n) l → Z.of_nat (length l) = n → l ≡ₚ seqZ 1 n.
Proof.
  intros Hn Hr Hl. apply submseteq_length_Permutation; [|rewrite length_seqZ; lia].
  apply NoDup_submseteq; [done|]. intros q Hq. rewrite Forall_forall in Hr. apply elem_of_seqZ. specialize (Hr q Hq). lia.
Qed.

Lemma all_ended_complete n s :
  preach pstart n s → Forall (λ p, ended p = true ∧ failures p = 0) (ps_pcs s) → ps_stop s = false →
  seq_of <$> ps_wire s ≡ₚ seqZ 1 budget.
Proof.
  intros [Hl [H1 H2 H3 H4 H5 H6 H7 _]]%preach_inv Hd Hst. rewrite Hst in H2.
  assert (sumZ (minted <$> ps_pcs s) = budget ∧ sumZ (failures <$> ps_pcs s) = 0 ∧ (ps_pcs s ≫= held) = []) as (Em & Ef & Eh).
  { rewrite budget_eq, <-Hl. clear -Hd H2. induction Hd as [|p pcs [Hp Hf] _ IH]; [split_and!; [simpl; lia|done..]|].
    apply Forall_cons in H2 as [Hok H2]. destruct (IH H2) as (E1 & E2 & E3). rewrite !fmap_cons. cbn [length mbind list_bind]. unfold sumZ in *.
    cbn [foldr]. destruct p as [| | | | | |i [e|]]; try done. simpl in *. destruct Hok as [? Hok].
    assert (i = msgs) as -> by (destruct (decide (i < msgs)); [by specialize (Hok ltac:(done))|lia]).
    split_and!; [lia|lia|done]. }
  rewrite Eh in H4, H5, H7. simpl in H4, H5, H7. apply numbers_perm; [done|by rewrite <-Em, <-H3|rewrite length_fmap; lia].
Qed.
End publishers.

(** ** The publishers of a plan *)

(** engine.go: a worker per entry of [PubGoroutines], on its slot. *)
Definition pub_slots (t : Topology) : list channelSlot :=
  t_publishCapable t ≫= λ p, match t_slots t !! p with Some sl => (λ _, sl) <$> sl_PubGoroutines sl | None => [] end.

Lemma Build_size c t : Build c = Ok t → headerLen ≤ cf_Size c ∧ 0 ≤ cf_Msgs c.
Proof.
  unfold Build, Validate. intros ([] & HV & _)%Ok_bind.
  do 12 (apply Ok_bind in HV as ([] & ?%refuse_if_Ok%bool_decide_eq_false & HV)). lia.
Qed.

Lemma pub_slots_in c t : Build c = Ok t → Forall (slot_in t) (pub_slots t).
Proof.
  intros HB. apply Forall_forall. intros sl (p & Hsl & _)%list_elem_of_bind. destruct (t_slots t !! p) as [s|] eqn:Hp; [|by inversion Hsl].
  apply list_elem_of_fmap in Hsl as (_ & -> & _). destruct (plan_slot_in _ _ _ _ HB Hp) as (? & ? & _). by split.
Qed.

(** One per publisher of the configuration. *)
Lemma pub_slots_length c t : Build c = Ok t → Z.of_nat (length (pub_slots t)) = cf_Publishers c.
Proof.
  intros HB. pose proof (Build_staged _ _ HB) as [Hc _]. pose proof (pl_once _ _ _ _ _ (proj2 (plan_placement _ _ HB))) as Hp.
  apply Permutation_length in Hp. rewrite length_seqZ in Hp. pose proof (ok_Publishers _ Hc).
  enough (length (pub_slots t) = length (concat (pubs_of t <$> t_publishCapable t))) by lia.
  unfold pub_slots. clear. induction (t_publishCapable t) as [|p ps IH]; [done|]. cbn [mbind list_bind]. rewrite fmap_cons. cbn [concat].
  rewrite !length_app, IH. f_equal. unfold pubs_of. destruct (t_slots t !! p); [|done]. simpl. by rewrite length_fmap.
Qed.

Section claims.
Context (c : Config) (t : Topology).

(** A state the publishers of the plan reach, in so many steps of theirs. *)
Definition publishing (n : nat) (s : pubs) : Prop :=
  preach t (pub_slots t) (cf_Msgs c) (cf_Size c) (pstart t (pub_slots t) (cf_Msgs c)) n s.

(** What is on the wire is what the consumers of BenchWorker.v expect of an arrival. *)
Lemma wire_arrives budget ack p sl b sent recv lat :
  p ∈ t_consumeCapable t → t_slots t !! p = Some sl → headerLen ≤ cf_Size c → seq_of b ≤ budget →
  carries (cf_Size c) sent b → arrives t budget ack (mkArrival sl (seq_of b) (mkDelivery b recv (Some lat))).
Proof.
  intros Hp Hsl Hs Hb (now & Hd & H1 & Hsent & Hn & Hlen & He). split; [by exists p|]. split; [simpl; lia|]. split; [|done].
  exists (replicate (Z.to_nat (cf_Size c)) 0), now. split_and!; [|done..]. rewrite length_replicate. unfold headerLen in *. lia.
Qed.

(** C20: In every interleaving of the publishers of a plan with each other, with the consumers
    and the sampler, when the budget (publishers times messages) does not overflow Go's
    [int] and one message body fits the address space: no publisher panics and none finds
    the message budget exhausted; the bodies handed to the broker carry distinct sequence
    numbers within the budget, each with the send time that is stored for it; and the
    accumulators have recorded each of them exactly once, but for the publishers that are
    about to record theirs. *)
Theorem publishers_mint n s :
  Build c = Ok t → cf_Msgs c * cf_Publishers c < 9223372036854775808 → cf_Size c ≤ max_alloc → publishing n s →
  (∀ k p inp, ps_pcs s !! k = Some p → is_i64 (in_now inp) →
     ∃ sl r, pub_slots t !! k = Some sl ∧ pub_step (cf_Msgs c) (cf_Size c) sl (ps_stop s) inp p (ps_sh s) = Ok r) ∧
  (∀ k i e, ps_pcs s !! k = Some (PDone i (Some e)) → e = EPublishFailed) ∧
  NoDup (seq_of <$> ps_wire s) ∧ Forall (λ q, 1 ≤ q ≤ cf_Msgs c * cf_Publishers c) (seq_of <$> ps_wire s) ∧
  Forall (carries (cf_Size c) (sh_sent (ps_sh s))) (ps_wire s) ∧
  ∃ h, sh_stats (ps_sh s) = abs t (cf_Msgs c * cf_Publishers c) h ∧
    recorded (h_all h) ++ (ps_pcs s ≫= recording) ≡ₚ seq_of <$> ps_wire s.
Proof.
  intros HB Hlim Hmax Hr. destruct (Build_size _ _ HB) as [Hmin Hmsgs]. pose proof (conj Hmin Hmax) as Hsize. pose proof (pub_slots_in _ _ HB) as Hin.
  pose proof (pub_slots_length _ _ HB) as Hlen. unfold publishing in Hr. rewrite <-Hlen in *.
  destruct (preach_inv _ _ _ _ Hsize Hmsgs Hin Hlim _ _ Hr) as [Hl [H1 H2 H3 H4 H5 H6 H7 H8]].
  split; [intros k p inp Hp Hn; by eapply pstep_progress|].
  split.
  { intros k i e Hp. pose proof (Forall_lookup_1 _ _ _ _ H2 Hp) as Hok. by destruct e. }
  apply NoDup_app in H4 as (_ & _ & H4). apply Forall_app in H5 as [_ H5]. apply Forall_app in H6 as [_ H6].
  rewrite budget_eq in H8 by done. split_and!; [done| |done|done]. pose proof (minted_le _ _ _ H2) as Hle. rewrite <-H3, Hl in Hle.
  eapply Forall_impl; [exact H5|]. simpl. lia.
Qed.

(** C21: The publishers of a plan end, when the budget does not overflow and a body can be
    allocated: they take no more than five steps per message and one more each, one that has
    not returned can take the next, and when all have returned without an error and nobody
    closed [stop], the broker was handed every number of the budget once. *)
Theorem publishers_finish n s :
  Build c = Ok t → cf_Msgs c * cf_Publishers c < 9223372036854775808 → cf_Size c ≤ max_alloc → publishing n s →
  Z.of_nat n ≤ cf_Publishers c * (5 * cf_Msgs c + 1) ∧
  (∀ k p inp, ps_pcs s !! k = Some p → ended p = false → is_i64 (in_now inp) →
     ∃ s', pstep t (pub_slots t) (cf_Msgs c) (cf_Size c) 1 s s') ∧
  (Forall (λ p, ended p = true ∧ failures p = 0) (ps_pcs s) → ps_stop s = false →
     seq_of <$> ps_wire s ≡ₚ seqZ 1 (cf_Msgs c * cf_Publishers c)).
Proof.
  intros HB Hlim Hmax Hr. destruct (Build_size _ _ HB) as [Hmin Hmsgs]. pose proof (conj Hmin Hmax) as Hsize. pose proof (pub_slots_in _ _ HB) as Hin.
  pose proof (pub_slots_length _ _ HB) as Hlen. unfold publishing in Hr. rewrite <-Hlen in *. split_and!.
  - pose proof (preach_weight _ _ _ _ Hsize Hmsgs Hin Hlim _ _ Hr) as Hw.
    destruct (preach_inv _ _ _ _ Hsize Hmsgs Hin Hlim _ _ Hr) as [_ HI]. 
    apply pi_pcs, weight_nonneg in HI. lia.
  - intros k p inp Hp He Hn. destruct (pstep_progress _ _ _ _ Hsize Hmsgs Hin Hlim _ _ _ _ inp Hr Hp Hn) as (sl & [[p' sh'] out] & Hk & E).
    eexists. by eapply step_publisher.
  - intros Hd Hst. rewrite <-(budget_eq (pub_slots t) (cf_Msgs c) Hmsgs Hlim). by eapply all_ended_complete.
Qed.
End claims.

(** Two publishers of one message each, one channel. *)
Definition two_config : Config :=
  mkConfig "127.0.0.1:5672" 1 0 0 1 0 0 DistEven DistEven DistEven 0 0 0
    2 1 1 16 true 10 0 0 second (30 * second) "" false.
Definition two_plan : Topology := match Build two_config with Ok t => t | _ => mkTopology [] [] [] [] end.

(** Steps of chosen publishers, with a clock that always says 7 and a broker that accepts. *)
Fixpoint play (l : list nat) (s : pubs) : pubs :=
  match l with
  | [] => s
  | k :: l' =>
      match pub_slots two_plan !! k, ps_pcs s !! k with
      | Some sl, Some p =>
          match pub_step 1 16 sl (ps_stop s) (mkInput 7 (Some (f64_of_Z 3))) p (ps_sh s) with
          | Ok (p', sh', out) => play l' (mkPubs sh' (<[k := p']> (ps_pcs s)) (ps_stop s) (ps_wire s ++ out))
          | _ => s
          end
      | _, _ => s
      end
  end.

Lemma play_reach l n s :
  publishing two_config two_plan n s → (∀ k, k ∈ l → ∃ p, ps_pcs s !! k = Some p) → ∃ m, publishing two_config two_plan m (play l s).
Proof.
  revert n s. induction l as [|k l IH]; intros n s Hs Hk; [by exists n|]. cbn [play].
  destruct (pub_slots two_plan !! k) as [sl|] eqn:Hsl; [|by exists n]. destruct (ps_pcs s !! k) as [p|] eqn:Hp; [|by exists n].
  destruct (pub_step _ _ _ _ _ _ _) as [[[p' sh'] out]|[]|] eqn:E; [|by exists n].
  destruct (ended p) eqn:Hend.
  - destruct p; try done. injection E as <- <- <-. rewrite list_insert_id, app_nil_r by done.
    replace (mkPubs (ps_sh s) (ps_pcs s) (ps_stop s) (ps_wire s)) with s by (by destruct s). eapply IH; [done|]. intros j Hj. apply Hk. by right.
  - eapply (IH (n + 1)%nat).
    + eapply preach_step; [exact Hs|]. eapply (step_publisher _ _ _ _ k); [done|done|done| |exact E]. unfold is_i64; simpl; lia.
    + intros j Hj. destruct (Hk j ltac:(by right)) as [pj Hpj]. cbn [ps_pcs]. apply lookup_lt_is_Some_2. rewrite length_insert.
      by eapply lookup_lt_Some.
Qed.

(** Both draw a number before either publishes, and publish in the other order. *)
Definition two_played : pubs :=
  play [0; 0; 1; 1; 1; 1; 0; 0; 0; 1; 0; 1]%nat (pstart two_plan (pub_slots two_plan) 1).

Lemma two_played_publishing : ∃ n, publishing two_config two_plan n two_played.
Proof.
  apply (play_reach _ 0%nat); [constructor|]. intros k Hk. assert (k < 2)%nat as Hlt.
  { revert k Hk. apply Forall_forall. repeat (constructor; [lia|]). constructor. }
  apply lookup_lt_is_Some_2. vm_compute. lia.
Qed.

Lemma publishers_mint_witness : seq_of <$> ps_wire two_played = [2; 1] ∧ NoDup (seq_of <$> ps_wire two_played).
Proof.
  split; [vm_compute; reflexivity|]. destruct two_played_publishing as [n Hn].
  refine (proj1 (proj2 (proj2 (publishers_mint two_config two_plan n two_played _ _ _ Hn)))); vm_compute; reflexivity || discriminate.
Defined.

Lemma publishers_finish_witness : seq_of <$> ps_wire two_played ≡ₚ seqZ 1 2.
Proof.
  destruct two_played_publishing as [n Hn].
  refine (proj2 (proj2 (publishers_finish two_config two_plan n two_played _ _ _ Hn)) _ _); vm_compute; try (reflexivity || discriminate).
  repeat constructor.
Defined.

(** Sizes the configuration is not checked for: the body of a publisher that cannot be
    allocated, and a budget that wraps to nothing. *)
Example oversized_body_panics sl sh : pub_step 1 (2 ^ 62) sl false (mkInput 0 None) PStart sh = Crash.
Proof. reflexivity. Qed.

Example wrapped_budget_refuses :
  let sl := mkSlot 0 0 0 RolePublish [] [] 0 in
  budget [sl; sl; sl; sl] (2 ^ 62) = 0 ∧
  pub_step (2 ^ 62) 16 sl false (mkInput 0 None) (PGo 0) (mkShared 0 [] [] (newStats two_plan 0)) =
    Ok (PDone 0 (Some (EBudget 1 0)), mkShared 1 [] [] (newStats two_plan 0), []).
Proof. split; vm_compute; reflexivity. Qed.
