(* ===== verification/BenchSummary.v ===== *)
(** * The benchmark's summary (src/internal/bench/engine.go)

    Run identifiers and the names derived from them, and the summary
    of a run: totals, rates, latencies by role, rows by connection and by publishing
    channel, and the configuration it was run with.  The current time, the process's
    nonce and the elapsed time are arguments. *)

From Stdlib Require Import SpecFloat.
From S2P Require Import Prelude GoJson Bufio BenchTopology BenchPlacement BenchPlan BenchLatency BenchStats BenchCsv BenchWorker BenchRun.

(** ** Names *)

(** [strconv.FormatUint(n, 36)]: digits, then letters; least significant last. *)
Definition base36_digit (d : Z) : Ascii.ascii :=
  Ascii.ascii_of_nat (Z.to_nat (if decide (d < 10) then 48 + d else 87 + d)).
Fixpoint base36 (fuel : nat) (n : Z) : string :=
  match fuel with
  | O => ""
  | S fuel' =>
      if decide (n < 36) then chr (base36_digit n)
      else base36 fuel' (n `div` 36) +:+ chr (base36_digit (n `mod` 36))
  end.

(** Thirteen digits hold any 64-bit number. *)
Definition FormatUint36 (n : Z) : string := base36 13 n.
Definition FormatInt36 (n : Z) : string := if decide (n < 0) then "-" +:+ FormatUint36 (- n) else FormatUint36 n.

(** [hex.EncodeToString] *)
Definition hex_byte (b : byte) : string :=
  let n := Z.of_N (Byte.to_N b) in chr (base36_digit (n `div` 16)) +:+ chr (base36_digit (n `mod` 16)).
Definition EncodeToString (l : bytes) : string := foldr (λ b s, hex_byte b +:+ s) "" l.

(** [runIDNonce]: eight random bytes, or the process id when [rand.Read] fails *)
Definition runIDNonce (random : option bytes) (pid : Z) : string :=
  match random with Some b => EncodeToString b | None => FormatUint36 (u64 pid) end.

(** [newRunID], with [seq] the value [runIDSeq.Add(1)] returns *)
Definition newRunID (now seq : Z) (nonce : string) : string :=
  FormatInt36 now +:+ "-" +:+ FormatUint36 seq +:+ "-" +:+ nonce.

Definition exchangeOf (runid : string) : string := "bench.ex." +:+ runid.
Definition queueOf (runid : string) : string := "bench.q." +:+ runid.
Definition routingKeyOf (runid : string) : string := "bench.rk." +:+ runid.

(** ** Durations *)

(** [d.Seconds()] and [d.Milliseconds()] *)
Definition Seconds (d : Z) : f64 :=
  f64_add (f64_of_Z (Z.quot d second)) (f64_div (f64_of_Z (Z.rem d second)) (f64_of_Z second)).
Definition Milliseconds (d : Z) : Z := Z.quot d 1000000.

(** [fmtFrac]: the last [prec] digits of [v] as a fraction without trailing zeros *)
Fixpoint trim_zeros (fuel : nat) (prec : nat) (f : Z) : string :=
  match fuel with
  | O => ""
  | S fuel' => if decide (f `mod` 10 = 0) then trim_zeros fuel' (prec - 1) (f `div` 10) else "." +:+ pad prec f
  end.
Definition fmtFrac (prec : nat) (v : Z) : string :=
  let f := v `mod` 10 ^ Z.of_nat prec in
  if decide (f = 0) then "" else trim_zeros prec prec f.

(** [d.String()] *)
Definition micro : string := String (Ascii.ascii_of_nat 194) (String (Ascii.ascii_of_nat 181) "s").
Definition duration_abs (u : Z) : string :=
  if decide (u = 0) then "0s"
  else if decide (u < 1000) then FormatUint u +:+ "ns"
  else if decide (u < 1000000) then FormatUint (u `div` 1000) +:+ fmtFrac 3 u +:+ micro
  else if decide (u < second) then FormatUint (u `div` 1000000) +:+ fmtFrac 6 u +:+ "ms"
  else
    let s := u `div` second in
    let secs := FormatUint (s `mod` 60) +:+ fmtFrac 9 u +:+ "s" in
    if decide (s < 60) then secs
    else if decide (s < 3600) then FormatUint (s `div` 60) +:+ "m" +:+ secs
    else FormatUint (s `div` 3600) +:+ "h" +:+ FormatUint ((s `div` 60) `mod` 60) +:+ "m" +:+ secs.
Definition duration_String (d : Z) : string :=
  if decide (d < 0) then "-" +:+ duration_abs (- d) else duration_abs d.

Example durations : duration_String (30 * second) = "30s" ∧ duration_String 1500000 = "1.5ms" ∧
  duration_String (90 * second) = "1m30s" ∧ duration_String (3600 * second) = "1h0m0s" ∧ duration_String 0 = "0s".
Proof. repeat split. Qed.

(** ** Rows *)

Record RoleRow := mkRoleRow { rr_P95Us : f64; rr_N : Z }.
Record ByConnRow := mkByConn {
  bc_Conn : Z; bc_Published : Z; bc_Consumed : Z; bc_PubRatePerSec : f64; bc_AvgDeliveryLatUs : f64;
}.
Record ByPubChRow := mkByPubCh { bp_Conn : Z; bp_Ch : Z; bp_Published : Z; bp_RatePerSec : f64 }.
Record TopoConnRow := mkTopoConn { tc_Channels : Z; tc_Role : string }.
Record TopologySummary := mkTopoSummary {
  ts_Conns : list TopoConnRow; ts_PublishCapable : Z; ts_ConsumeCapable : Z;
}.

(** A value of [map[string]any]. *)
Inductive any : Type := AStr (s : string) | AInt (z : Z) | ABool (b : bool).

Record Summary := mkSummaryOf {
  su_RunID : string;
  su_Config : gmap string any;
  su_Topology : TopologySummary;
  su_Published : Z; su_Delivered : Z; su_Consumed : Z; su_Duplicates : Z; su_Drops : Z;
  su_ElapsedMs : Z;
  su_ConsumedRatePerSec : f64;
  su_DeliveryLatency : LatencySummary;
  su_AckLatency : LatencySummary;
  su_ByRole : gmap string RoleRow;
  su_ByConn : list ByConnRow;
  su_ByPublishChannel : list ByPubChRow;
}.

(** [ConnRole.String] and [Role.String] *)
Definition connRole_String (r : ConnRole) : string :=
  match r with ConnMixed => "mixed" | ConnPublishOnly => "pub" | ConnConsumeOnly => "cons" end.
Definition role_String (r : Role) : string :=
  match r with RoleBoth => "both" | RolePublish => "publish" | RoleConsume => "consume" end.

Definition summaryConfig (c : Config) : gmap string any :=
  list_to_map [
    ("addr", AStr (cf_Addr c));
    ("conns", AInt (cf_Conns c));
    ("pub-conns", AInt (cf_PubConns c));
    ("cons-conns", AInt (cf_ConsConns c));
    ("channels", AInt (cf_Channels c));
    ("pub-channels", AInt (cf_PubChannels c));
    ("cons-channels", AInt (cf_ConsChannels c));
    ("conns-distribution", AStr (cf_ConnsDist c));
    ("channels-distribution", AStr (cf_ChannelsDist c));
    ("pub-channels-distribution", AStr (cf_PubChannelsDist c));
    ("max-channels-per-conn", AInt (cf_MaxChannelsPerConn c));
    ("max-consumers-per-channel", AInt (cf_MaxConsumersPerChannel c));
    ("max-publishers-per-channel", AInt (cf_MaxPublishersPerChannel c));
    ("publishers", AInt (cf_Publishers c));
    ("consumers", AInt (cf_Consumers c));
    ("msgs", AInt (cf_Msgs c));
    ("size", AInt (cf_Size c));
    ("ack", ABool (cf_Ack c));
    ("prefetch", AInt (cf_Prefetch c));
    ("duration", AStr (duration_String (cf_Duration c)));
    ("warmup", AStr (duration_String (cf_Warmup c)));
    ("report", AStr (duration_String (cf_Report c)));
    ("drain-timeout", AStr (duration_String (cf_DrainTimeout c)));
    ("output", AStr (cf_Output c));
    ("quiet", ABool (cf_Quiet c))].

(** [if elapsedSec > 0 { rate = float64(n) / elapsedSec }] *)
Definition rate (n : Z) (elapsedSec : f64) : f64 :=
  if f64_lt f64_zero elapsedSec then f64_div (f64_of_Z n) elapsedSec else f64_zero.

(** [for _, x := range l] with panics *)
Fixpoint mapE {A B} (f : A → may_panic B) (l : list A) : may_panic (list B) :=
  match l with
  | [] => Ok []
  | x :: l' => y ← f x; ys ← mapE f l'; Ok (y :: ys)
  end.

Definition conn_row (sec : f64) (i : nat) (cs : connStats) : ByConnRow :=
  mkByConn (Z.of_nat i) (cs_published cs) (cs_consumed cs) (rate (cs_published cs) sec)
    (if decide (cs_delLatCount cs > 0) then f64_div (cs_delLatSum cs) (f64_of_Z (cs_delLatCount cs)) else f64_zero).

(** [t.publishCapable[idx]] and [st.perPubCh[idx]] *)
Definition pubch_row (t : Topology) (s : stats) (sec : f64) (idx : nat) (p : slot) : may_panic ByPubChRow :=
  sl ← index (t_slots t) (Z.of_nat p);
  n ← index (s_perPubCh s) (Z.of_nat idx);
  Ok (mkByPubCh (sl_Conn sl) (sl_Ch sl) n (rate n sec)).

(** [st.roleDelTot[k].summary()]: a missing set is a nil pointer. *)
Definition role_row (s : stats) (k : string) : may_panic (string * RoleRow) :=
  match l_roleTot (s_lat s) !! k with
  | None => Crash
  | Some set => let y := summaryLocked set in Ok (k, mkRoleRow (ls_P95 y) (ls_Count y))
  end.

Definition buildSummary (runid : string) (c : Config) (t : Topology) (s : stats) (elapsed : Z) : may_panic Summary :=
  let m := s_meas s in
  let sec := Seconds elapsed in
  byRole ← mapE (role_row s) roleKeys;
  let byConn := imap (conn_row sec) (s_perConn s) in
  byPubCh ← mapE (λ '(idx, p), pubch_row t s sec idx p) (imap pair (t_publishCapable t));
  let topoConns := (λ cp, mkTopoConn (Z.of_nat (length (cp_Channels cp))) (connRole_String (cp_Role cp))) <$> t_Conns t in
  Ok (mkSummaryOf runid (summaryConfig c)
        (mkTopoSummary topoConns (Z.of_nat (length (t_publishCapable t))) (Z.of_nat (length (t_consumeCapable t))))
        (m_published m) (m_delivered m) (m_consumed m) (m_duplicates m) (m_drops m)
        (Milliseconds elapsed) (rate (m_consumed m) sec)
        (summaryLocked (l_delTot (s_lat s))) (summaryLocked (l_ackTot (s_lat s)))
        (list_to_map byRole) byConn byPubCh).

(** ** Run identifiers are unique *)

Definition dash : Ascii.ascii := Ascii.ascii_of_nat 45.

(** The value of base-36 digits. *)
Definition digit36_val (a : Ascii.ascii) : Z :=
  let n := Z.of_nat (Ascii.nat_of_ascii a) in if decide (n < 58) then n - 48 else n - 87.
Fixpoint val36 (acc : Z) (s : string) : Z :=
  match s with EmptyString => acc | String a s' => val36 (acc * 36 + digit36_val a) s' end.

Lemma val36_app acc s t : val36 acc (s +:+ t) = val36 (val36 acc s) t.
Proof. revert acc. induction s as [|a s IH]; intros acc; [done|]. rewrite str_app_cons. simpl. apply IH. Qed.

(** The thirty-six digits. *)
Lemma base36_digit_spec d : 0 ≤ d < 36 → digit36_val (base36_digit d) = d ∧ base36_digit d ≠ dash.
Proof.
  intros Hd.
  assert (forallb (λ n, bool_decide (digit36_val (base36_digit (Z.of_nat n)) = Z.of_nat n ∧ base36_digit (Z.of_nat n) ≠ dash))
            (seq 0 36) = true) as Hall by (vm_compute; reflexivity).
  rewrite forallb_forall in Hall. specialize (Hall (Z.to_nat d)). rewrite Z2Nat.id in Hall by lia.
  apply (bool_decide_eq_true_1 _), Hall, list_elem_of_In, elem_of_seq. lia.
Qed.

Lemma base36_spec fuel n :
  0 ≤ n < 36 ^ Z.of_nat fuel → val36 0 (base36 fuel n) = n ∧ all_chars (λ a, a ≠ dash) (base36 fuel n).
Proof.
  revert n. induction fuel as [|fuel IH]; intros n Hn.
  { simpl in *. split; [lia|done]. }
  cbn [base36]. case_decide as Hlt.
  - destruct (base36_digit_spec n) as [Hv Hd]; [lia|]. simpl. split; [lia|done].
  - rewrite Nat2Z.inj_succ, Z.pow_succ_r in Hn by lia.
    destruct (IH (n `div` 36)) as [Hv Hc].
    { split; [apply Z.div_pos; lia|apply Z.div_lt_upper_bound; lia]. }
    pose proof (Z.mod_pos_bound n 36). destruct (base36_digit_spec (n `mod` 36)) as [Hv' Hd]; [lia|].
    rewrite val36_app, Hv. split; [|apply all_chars_app; [done|by split]]. simpl. rewrite Hv'.
    pose proof (Z_div_mod_eq_full n 36). lia.
Qed.

Lemma FormatUint36_spec n :
  is_u64 n → val36 0 (FormatUint36 n) = n ∧ all_chars (λ a, a ≠ dash) (FormatUint36 n).
Proof. intros Hn. apply base36_spec. unfold is_u64 in Hn. simpl. lia. Qed.

Lemma str_app_inj_r a b t : a +:+ t = b +:+ t → a = b.
Proof.
  revert b. induction a as [|x a IH]; intros [|y b] E; [done|..].
  - apply (f_equal String.length) in E. rewrite !str_length_app in E. cbn [String.length] in E. lia.
  - apply (f_equal String.length) in E. rewrite !str_length_app in E. cbn [String.length] in E. lia.
  - rewrite !str_app_cons in E. injection E as -> E. f_equal. by apply IH.
Qed.

Lemma split_on_any sep s t : split_on sep (s +:+ chr sep +:+ t) = split_on sep s ++ split_on sep t.
Proof.
  induction s as [|a s IH].
  - change (split_on sep (String sep t) = "" :: split_on sep t). simpl. by rewrite decide_True.
  - rewrite str_app_cons. cbn [split_on]. rewrite IH. case_decide; [done|].
    pose proof (split_on_nonempty sep s). by destruct (split_on sep s).
Qed.

(** Two runs of one process, whatever the clock shows, have different identifiers,
    and so have their exchanges, queues and routing keys: runs on a shared broker do not
    interfere. *)
Theorem run_ids_distinct (now now' seq seq' : Z) (nonce : string) :
  is_u64 seq → is_u64 seq' → seq ≠ seq' →
  newRunID now seq nonce ≠ newRunID now' seq' nonce ∧
  exchangeOf (newRunID now seq nonce) ≠ exchangeOf (newRunID now' seq' nonce) ∧
  queueOf (newRunID now seq nonce) ≠ queueOf (newRunID now' seq' nonce) ∧
  routingKeyOf (newRunID now seq nonce) ≠ routingKeyOf (newRunID now' seq' nonce).
Proof.
  intros Hs Hs' Hne. assert (newRunID now seq nonce ≠ newRunID now' seq' nonce) as Hid.
  { unfold newRunID. intros E. rewrite !str_app_assoc in E. apply str_app_inj_r, str_app_inj_r in E.
    apply (f_equal (split_on dash)) in E. rewrite <-!str_app_assoc in E. change "-" with (chr dash) in E.
    rewrite !split_on_any in E. destruct (FormatUint36_spec seq Hs) as [Hv Hc], (FormatUint36_spec seq' Hs') as [Hv' Hc'].
    rewrite !(split_on_end dash (FormatUint36 _)) in E by done. apply app_inj_tail in E as [_ E]. congruence. }
  split_and!; [done|..]; intros E; apply Hid; unfold exchangeOf, queueOf, routingKeyOf in E; rewrite ?str_app_cons in E;
    by simplify_eq.
Qed.

(** Processes with different random bytes have different nonces. *)
Definition unhex_byte (s : string) : option byte :=
  let digit a := let n := Ascii.N_of_ascii a in if decide (n < 58)%N then (n - 48)%N else (n - 87)%N in
  match s with String a (String b _) => Byte.of_N (digit a * 16 + digit b)%N | _ => None end.

Lemma unhex_hex_byte b s : unhex_byte (hex_byte b +:+ s) = Some b.
Proof. by destruct b. Qed.

Lemma nonces_distinct (l l' : bytes) : EncodeToString l = EncodeToString l' → l = l'.
Proof.
  revert l'. induction l as [|b l IH]; intros [|b' l'] E; cbn [EncodeToString foldr] in E; [done|by destruct b'|by destruct b|].
  assert (b = b') as <- by (apply (f_equal unhex_byte) in E; rewrite !unhex_hex_byte in E; by simplify_eq).
  f_equal. apply IH. unfold hex_byte, chr in E. rewrite !str_app_cons in E. by injection E.
Qed.

Lemma run_ids_distinct_witness : newRunID 1735689599500000000 1 "00ff" ≠ newRunID 1735689599500000000 2 "00ff".
Proof. apply (run_ids_distinct 1735689599500000000 1735689599500000000 1 2 "00ff"); [done|done|discriminate]. Defined.

(** ** The summary of a run *)

Lemma mapE_Ok {A B} (f : A → may_panic B) (g : A → B) l : (∀ x, x ∈ l → f x = Ok (g x)) → mapE f l = Ok (g <$> l).
Proof.
  induction l as [|x l IH]; intros Hf; [done|]. cbn [mapE]. rewrite (Hf x) by set_solver. simpl.
  rewrite IH by set_solver. done.
Qed.

(** A consume-capable channel has a latency set for its role. *)
Lemma plan_consumer_role c t p s :
  Build c = Ok t → p ∈ t_consumeCapable t → t_slots t !! p = Some s → role_key (sl_Role s) ∈ roleKeys.
Proof.
  intros (Hc & slots0 & slots1 & slots3 & Hst)%Build_staged Hp Hs.
  rewrite (st_conss _ _ _ _ _ Hst) in Hp. apply list_elem_of_filter in Hp as [Hr _].
  rewrite (staged_role_of _ _ _ _ _ Hc Hst _ _ Hs) in Hr. unfold roleKeys. destruct (sl_Role s); simpl in *; set_solver.
Qed.

Lemma plan_cap_slot c t p : Build c = Ok t → p ∈ t_publishCapable t → is_Some (t_slots t !! p).
Proof.
  intros (Hc & slots0 & slots1 & slots3 & Hst)%Build_staged Hp. eapply staged_lookup; [done..|].
  rewrite (st_pubs _ _ _ _ _ Hst) in Hp. apply list_elem_of_filter in Hp as [_ Hp].
  rewrite sort_slots_perm, elem_of_seq in Hp. lia.
Qed.

Lemma summary_count l : Z.of_nat (length l) < 18446744073709551616 → ls_Count (summaryLocked (collect l)) = Z.of_nat (length l).
Proof.
  intros Hl. destruct (collect_fields l Hl) as (_ & Hc & _ & Hh). unfold summaryLocked. rewrite Hh.
  destruct (bool_decide_reflect (l = [])) as [->|]; simpl; [done|by rewrite Hc].
Qed.

(** What the rows of a summary say, next to its totals and to the plan. *)
Record consistent (t : Topology) (y : Summary) : Prop := mkConsistent {
  co_kinds : su_Delivered y = su_Consumed y + su_Duplicates y;
  co_latencies : ls_Count (su_DeliveryLatency y) = su_Delivered y;
  co_roles : ∃ b k, su_ByRole y = {["both" := b; "cons" := k]} ∧ rr_N b + rr_N k = su_Delivered y;
  co_conn_ids : bc_Conn <$> su_ByConn y = seqZ 0 (Z.of_nat (length (t_Conns t)));
  co_conn_pub : sumZ (bc_Published <$> su_ByConn y) = su_Published y;
  co_conn_cons : sumZ (bc_Consumed <$> su_ByConn y) = su_Consumed y;
  co_channel_ids :
    (λ r, Some (bp_Conn r, bp_Ch r)) <$> su_ByPublishChannel y =
    (λ p, (λ sl, (sl_Conn sl, sl_Ch sl)) <$> (t_slots t !! p)) <$> t_publishCapable t;
  co_channels : sumZ (bp_Published <$> su_ByPublishChannel y) = su_Published y;
  co_topology : sumZ (tc_Channels <$> ts_Conns (su_Topology y)) = Z.of_nat (length (t_slots t));
}.

Section OfHistory.
Context (runid : string) (c : Config) (t : Topology) (total elapsed : Z) (h : hist).
Context (HB : Build c = Ok t).

Definition pubch_of (ps : list channelSlot) (sec : f64) (x : nat * slot) : ByPubChRow :=
  match t_slots t !! x.2 with
  | Some sl => mkByPubCh (sl_Conn sl) (sl_Ch sl) (abs_pubCh ps x.1) (rate (abs_pubCh ps x.1) sec)
  | None => mkByPubCh 0 0 0 f64_zero
  end.

Lemma pubch_rows sec :
  mapE (λ '(idx, p), pubch_row t (abs t total h) sec idx p) (imap pair (t_publishCapable t)) =
  Ok (pubch_of (m_pubs (h_cut h) (h_meas h)) sec <$> imap pair (t_publishCapable t)).
Proof.
  apply mapE_Ok. intros [idx p] (i & Hi)%list_elem_of_lookup. rewrite list_lookup_imap in Hi.
  apply fmap_Some in Hi as (p' & Hp & [= -> ->]).
  destruct (plan_cap_slot _ _ p' HB) as [sl Hsl]; [by eapply list_elem_of_lookup_2|].
  unfold pubch_row, pubch_of. simpl. rewrite (index_Some _ _ sl) by (rewrite ?Nat2Z.id; done || lia). simpl.
  rewrite (index_Some _ _ (abs_pubCh (m_pubs (h_cut h) (h_meas h)) i)), Hsl; [done|lia|].
  rewrite Nat2Z.id, list_lookup_fmap, lookup_seq_lt by (by eapply lookup_lt_Some). done.
Qed.

Lemma role_rows : mapE (role_row (abs t total h)) roleKeys =
  Ok ((λ k, let y := summaryLocked (collect (d_lat <$> with_role k (m_dels (h_cut h) (h_meas h)))) in
        (k, mkRoleRow (ls_P95 y) (ls_Count y))) <$> roleKeys).
Proof.
  apply mapE_Ok. intros k Hk. unfold role_row. simpl.
  assert (role_sets (m_dels (h_cut h) (h_meas h)) !! k = Some (collect (d_lat <$> with_role k (m_dels (h_cut h) (h_meas h))))) as ->.
  { rewrite role_sets_unfold. unfold roleKeys in Hk. repeat (apply elem_of_cons in Hk as [->|Hk]); [..|set_solver].
    - by rewrite lookup_insert_eq.
    - by rewrite lookup_insert_ne, lookup_insert_eq. }
  done.
Qed.

Lemma buildSummary_ok : ∃ y, buildSummary runid c t (abs t total h) elapsed = Ok y.
Proof. unfold buildSummary. rewrite role_rows. simpl. rewrite pubch_rows. simpl. by eexists. Qed.
End OfHistory.

(** Every measured delivery is counted under exactly one role. *)
Lemma deliveries_by_role (ds : list (channelSlot * f64 * bool)) :
  (∀ d, d ∈ ds → role_key (sl_Role (d_slot d)) ∈ roleKeys) →
  (length (with_role "both" ds) + length (with_role "cons" ds))%nat = length ds.
Proof.
  induction ds as [|d ds IH]; intros Hr; [done|]. unfold with_role in *. rewrite !filter_cons. cbn [length].
  rewrite <-IH by (intros; apply Hr; by right). pose proof (Hr d (list_elem_of_here _ _)) as Hd.
  unfold roleKeys in Hd. destruct (sl_Role (d_slot d)); simpl in *; [lia|set_solver|lia].
Qed.

Lemma plan_channel_count c t : Build c = Ok t → sumZ ((λ cp, Z.of_nat (length (cp_Channels cp))) <$> t_Conns t) = Z.of_nat (length (t_slots t)).
Proof.
  intros (Hc & slots0 & slots1 & slots3 & Hst)%Build_staged. destruct (staged_created _ _ _ _ _ Hst) as (_ & _ & Hcat & _).
  rewrite (staged_length _ _ _ _ _ Hc Hst), <-(length_seq (length slots0) 0), <-Hcat, length_concat, <-list_fmap_compose.
  done.
Qed.

Lemma imap_fmap_seq {A B} (f : nat → A → B) (g : nat → A) n : imap f (g <$> seq 0 n) = (λ k, f k (g k)) <$> seq 0 n.
Proof.
  apply list_eq. intros i. rewrite list_lookup_imap, !list_lookup_fmap. destruct (seq 0 n !! i) as [k|] eqn:E; [|done].
  by apply lookup_seq in E as [-> _].
Qed.

(** The published counts of the rows by channel. *)
Lemma pubch_counts c t ps sec :
  Build c = Ok t →
  bp_Published <$> (pubch_of t ps sec <$> imap pair (t_publishCapable t)) = abs_pubCh ps <$> seq 0 (length (t_publishCapable t)).
Proof.
  intros HB. apply list_eq. intros i. rewrite !list_lookup_fmap, list_lookup_imap.
  destruct (t_publishCapable t !! i) as [p|] eqn:Hp; simpl.
  - rewrite lookup_seq_lt by (by eapply lookup_lt_Some). simpl.
    destruct (plan_cap_slot _ _ p HB) as [sl Hsl]; [by eapply list_elem_of_lookup_2|]. unfold pubch_of. simpl. by rewrite Hsl.
  - apply lookup_ge_None in Hp. by rewrite lookup_ge_None_2 by (rewrite length_seq; lia).
Qed.

Lemma pubch_ids c t ps sec :
  Build c = Ok t →
  (λ r, Some (bp_Conn r, bp_Ch r)) <$> (pubch_of t ps sec <$> imap pair (t_publishCapable t)) =
  (λ p, (λ sl, (sl_Conn sl, sl_Ch sl)) <$> (t_slots t !! p)) <$> t_publishCapable t.
Proof.
  intros HB. apply list_eq. intros i. rewrite !list_lookup_fmap, list_lookup_imap.
  destruct (t_publishCapable t !! i) as [p|] eqn:Hp; simpl; [|done].
  destruct (plan_cap_slot _ _ p HB) as [sl Hsl]; [by eapply list_elem_of_lookup_2|]. unfold pubch_of. simpl. by rewrite Hsl.
Qed.

(** C29: the summary of a run: for every order of records over a plan's channels and every
    elapsed time, the summary is built without a panic, its rows are those of the
    plan's connections and publish-capable channels in order, and they add up to its
    totals: deliveries are first deliveries and duplicates, every delivery has one
    latency sample and one role, connections account for all that was published and
    consumed, publishing channels for all that was published, and connections for
    every channel of the plan. *)
Theorem summary_consistent (runid : string) (c : Config) (t : Topology) (total elapsed : Z) (pre l : list event) :
  Build c = Ok t → Forall (plan_event t) (pre ++ l) → starts_phase pre → Forall (λ e, not_begin e = true) l →
  Z.of_nat (length l) < 18446744073709551616 →
  ∃ rows s y, run_events (newStats t total) (pre ++ l) = Ok (rows, s) ∧
    buildSummary runid c t s elapsed = Ok y ∧ consistent t y.
Proof.
  intros HB Hpl Hst Hn Hs. pose proof Hpl as [Hpre Hl]%Forall_app. destruct (starts_phase_empty pre Hst) as [Hm Hw].
  set (h := foldl hist_step hist0 pre) in *.
  assert (run_events (newStats t total) (pre ++ l) = Ok (abs_rows hist0 (pre ++ l), abs t total (foldl hist_step h l))) as Hrun.
  { rewrite new_abs, run_abs by (eapply Forall_impl; [exact Hpl|]; intros e; by eapply plan_event_in). by rewrite foldl_app. }
  pose proof (abs_balanced c t total h l HB Hl Hn Hs Hm Hw) as Hb.
  destruct (hist_step_meas h l Hn) as [Hc Hme]. rewrite Hm in Hme. simpl in Hme.
  exists (abs_rows hist0 (pre ++ l)), (abs t total (foldl hist_step h l)). unfold buildSummary.
  rewrite (role_rows c t total (foldl hist_step h l) HB). cbn [mbind result_bind].
  rewrite (pubch_rows c t total (foldl hist_step h l) HB). cbn [mbind result_bind].
  eexists. split; [exact Hrun|]. split; [reflexivity|]. set (s := abs t total (foldl hist_step h l)) in *.
  assert (Z.of_nat (length (m_dels (h_cut h) l)) < 18446744073709551616) as Hds.
  { pose proof (kind_small h l Hs _ kind_dels). unfold n_dels in *. lia. }
  assert (∀ d, d ∈ m_dels (h_cut h) l → role_key (sl_Role (d_slot d)) ∈ roleKeys) as Hroles.
  { intros d (q & He)%m_dels_elem. rewrite Forall_forall in Hl. destruct (Hl _ He) as (p & Hp & Hsl). by eapply plan_consumer_role. }
  split.
  - apply Hb.
  - simpl. rewrite Hc, Hme, summary_count, length_fmap, count_small by (rewrite ?length_fmap; done). done.
  - simpl. eexists _, _. split; [done|]. simpl. rewrite Hc, Hme.
    pose proof (deliveries_by_role _ Hroles) as Hr. rewrite !summary_count, !length_fmap, count_small by (rewrite ?length_fmap; lia). lia.
  - unfold s. cbn [su_ByConn s_perConn abs]. rewrite imap_fmap_seq, <-list_fmap_compose. simpl. apply list_eq. intros i.
    rewrite list_lookup_fmap. destruct (decide (i < length (t_Conns t))%nat).
    + rewrite lookup_seq_lt by done. rewrite lookup_seqZ_lt by lia. done.
    + rewrite lookup_ge_None_2 by (rewrite length_seq; lia). by rewrite lookup_seqZ_ge by lia.
  - rewrite <-(ba_conn_pub _ _ Hb). unfold s. cbn [su_ByConn s_perConn abs]. by rewrite imap_fmap_seq, <-!list_fmap_compose.
  - rewrite <-(ba_conn_cons _ _ Hb). unfold s. cbn [su_ByConn s_perConn abs]. by rewrite imap_fmap_seq, <-!list_fmap_compose.
  - by eapply pubch_ids.
  - cbn [su_ByPublishChannel]. rewrite (pubch_counts c) by done. apply (ba_channels _ _ Hb).
  - simpl. rewrite <-list_fmap_compose. by eapply plan_channel_count.
Qed.

Lemma summary_consistent_witness :
  Build one_config = Ok one_plan ∧
  ∃ rows s y, run_events (newStats one_plan 10) (demo_warmup ++ demo_events) = Ok (rows, s) ∧
    buildSummary "run" one_config one_plan s second = Ok y ∧ consistent one_plan y.
Proof.
  assert (Build one_config = Ok one_plan) as HB by (vm_compute; reflexivity).
  split; [exact HB|]. apply (summary_consistent "run" one_config one_plan 10 second demo_warmup demo_events HB).
  - assert (∃ p, p ∈ t_publishCapable one_plan ∧ t_slots one_plan !! p = Some one_slot) as Hp.
    { exists 0%nat. split; [apply list_elem_of_here|vm_compute; reflexivity]. }
    assert (∃ p, p ∈ t_consumeCapable one_plan ∧ t_slots one_plan !! p = Some one_slot) as Hc.
    { exists 0%nat. split; [apply list_elem_of_here|vm_compute; reflexivity]. }
    repeat (constructor; [first [exact I|exact Hp|exact Hc]|]). constructor.
  - right. exists [EPublish one_slot 1 (f64_of_Z 5)], 1. reflexivity.
  - repeat (constructor; [reflexivity|]). constructor.
  - reflexivity.
Defined.
