(* ===== verification/BenchSampler.v ===== *)
(** * The benchmark's sampler (src/internal/bench/engine.go)

    The goroutine that [Run] starts for the measured phase: a window per tick and one
    more at the end, each sampled from the accumulators, written to the CSV and
    flushed.  Its ticks and the workers' records arrive in one order, any order. *)

From S2P Require Import Prelude GoJson Bufio BenchTopology BenchPlacement BenchPlan BenchLatency BenchStats BenchCsv BenchWorker BenchRun BenchSummary.

(** ** The goroutine *)

(** [t.Format("15:04:05.000")] *)
Definition clock_text (off ns : Z) : string :=
  let sec := ns `div` 1000000000 + off in
  let s := sec `mod` 86400 in
  pad 2 (s `div` 3600) +:+ ":" +:+ pad 2 ((s `div` 60) `mod` 60) +:+ ":" +:+ pad 2 (s `mod` 60) +:+ "." +:+
  pad 3 ((ns `div` 1000000) `mod` 1000).

Definition logInterval (zone : Z → Z) (runid : string) (rec : intervalRecord) : string :=
  "benchmark " +:+ runid +:+ ": interval t=" +:+ clock_text (zone (ir_TsStart rec)) (ir_TsStart rec) +:+
  " published=" +:+ FormatUint (ir_Published rec) +:+ " delivered=" +:+ FormatUint (ir_Delivered rec) +:+
  " consumed=" +:+ FormatUint (ir_Consumed rec) +:+ " dup=" +:+ FormatUint (ir_Duplicates rec).

(** The goroutine's variables, and the lines it logged. *)
Record sampler (D : Type) := mkSampler {
  sp_windowStart : Z;
  sp_csv : csvWriter D;
  sp_running : bool;
  sp_log : list string;
}.
Arguments mkSampler {D} _ _ _ _.
Arguments sp_windowStart {D} _.
Arguments sp_csv {D} _.
Arguments sp_running {D} _.
Arguments sp_log {D} _.

(** What happens during the phase: a worker's record, a tick, the end of the context. *)
Inductive input : Type := IRecord (e : event) | ITick (now : Z) | IDone (now : Z).

Section Sampler.
Context {D : Type} `{Destination D} (zone : Z → Z) (runid : string) (quiet : bool).

Definition log_row (rec : intervalRecord) (lines : list string) : list string :=
  if quiet then lines else lines ++ [logInterval zone runid rec].

(** [writeWindow]; an error ends the goroutine. *)
Definition writeWindow (now : Z) (p : sampler D) (s : stats) : may_panic (sampler D * stats) :=
  '(rec, s) ← sampleWindow s (sp_windowStart p) now;
  '(err, c) ← writeInterval zone rec (sp_csv p);
  match err with
  | Some _ => Ok (mkSampler (sp_windowStart p) c false (sp_log p), s)
  | None =>
      '(err, c) ← flush c;
      match err with
      | Some _ => Ok (mkSampler (sp_windowStart p) c false (sp_log p), s)
      | None => Ok (mkSampler now c true (log_row rec (sp_log p)), s)
      end
  end.

(** [case <-sctx.Done()]: the last window; its errors are left to [close]. *)
Definition lastWindow (now : Z) (p : sampler D) (s : stats) : may_panic (sampler D * stats) :=
  '(rec, s) ← sampleWindow s (sp_windowStart p) now;
  '(_, c) ← writeInterval zone rec (sp_csv p);
  '(_, c) ← flush c;
  Ok (mkSampler (sp_windowStart p) c false (log_row rec (sp_log p)), s).

Definition on_input (i : input) (p : sampler D) (s : stats) : may_panic (sampler D * stats) :=
  match i with
  | IRecord e => '(_, s) ← run_event s e; Ok (p, s)
  | ITick now => if sp_running p then writeWindow now p s else Ok (p, s)
  | IDone now => if sp_running p then lastWindow now p s else Ok (p, s)
  end.

Fixpoint phase (l : list input) (p : sampler D) (s : stats) : may_panic (sampler D * stats) :=
  match l with
  | [] => Ok (p, s)
  | i :: l' => '(p, s) ← on_input i p s; phase l' p s
  end.
End Sampler.

(** The samples a phase takes, while its writes succeed. *)
Fixpoint events_of (ws : Z) (l : list input) : list event :=
  match l with
  | [] => []
  | IRecord e :: l' => e :: events_of ws l'
  | ITick now :: l' => ESample ws now :: events_of now l'
  | IDone now :: _ => [ESample ws now]
  end.

(** The starts of the windows: each starts where the one before it ended. *)
Fixpoint window_starts (ws : Z) (l : list input) : list Z :=
  match l with
  | [] => []
  | IRecord _ :: l' => window_starts ws l'
  | ITick now :: l' => ws :: window_starts now l'
  | IDone _ :: _ => [ws]
  end.

(** ** The rows of a phase *)

(** The workers' records of the phase are on channels of the plan. *)
Definition input_ok (t : Topology) (i : input) : Prop :=
  match i with
  | IRecord e => plan_event t e ∧ match e with EBegin _ | ESample _ _ => False | _ => True end
  | ITick _ => True
  | IDone _ => False
  end.

Section Rows.
Context {D : Type} `{Destination D} (zone : Z → Z) (runid : string) (quiet : bool).
Context (c : Config) (t : Topology) (total : Z) (HB : Build c = Ok t) (d0 : D).
Implicit Types (p : sampler D).

Definition text_of (h : hist) (l : list event) : string := csv_text (row_fields zone <$> abs_rows h l).

(** The writer's state, and whether the goroutine runs. *)
Definition sampler_at (text : string) p : Prop :=
  csv_at d0 text (sp_csv p) ∧ (sp_running p = true ↔ cw_err (sp_csv p) = None).

Lemma writeWindow_at now text p h :
  sampler_at text p → ∃ p' text',
    writeWindow zone runid quiet now p (abs t total h) = Ok (p', abs t total (hist_step h (ESample (sp_windowStart p) now))) ∧
    sampler_at text' p' ∧
    (sp_running p' = true → text' = text +:+ text_of h [ESample (sp_windowStart p) now] ∧ sp_windowStart p' = now).
Proof.
  intros [Hc Hr]. unfold writeWindow. rewrite sample_abs. simpl. set (row := abs_row h (sp_windowStart p) now).
  destruct (write_text_at d0 text (csv_line (row_fields zone row)) 1 _ Hc) as (e & c1 & E1 & Hc1 & Ee & _).
  unfold writeInterval. rewrite E1. simpl. destruct e as [e|].
  { eexists _, _. split; [done|]. split; [split; [exact Hc1|]|done]. simpl. by rewrite Ee. }
  destruct (flush_at d0 _ c1 Hc1) as (e & c2 & E2 & Hc2 & Ee2 & _). rewrite E2. simpl. destruct e as [e|].
  { eexists _, _. split; [done|]. split; [split; [exact Hc2|]|done]. simpl. by rewrite Ee2. }
  eexists _, _. split; [done|]. split; [split; [exact Hc2|done]|]. intros _. split; [|done].
  unfold text_of. simpl. by rewrite str_app_nil.
Qed.

Lemma lastWindow_at now text p h :
  sampler_at text p → ∃ p' text',
    lastWindow zone runid quiet now p (abs t total h) = Ok (p', abs t total (hist_step h (ESample (sp_windowStart p) now))) ∧
    csv_at d0 text' (sp_csv p') ∧
    (cw_err (sp_csv p') = None → text' = text +:+ text_of h [ESample (sp_windowStart p) now]).
Proof.
  intros [Hc Hr]. unfold lastWindow. rewrite sample_abs. simpl. set (row := abs_row h (sp_windowStart p) now).
  destruct (write_text_at d0 text (csv_line (row_fields zone row)) 1 _ Hc) as (e & c1 & E1 & Hc1 & _).
  unfold writeInterval. rewrite E1. simpl. destruct (flush_at d0 _ c1 Hc1) as (e' & c2 & E2 & Hc2 & _). rewrite E2. simpl.
  eexists _, _. split; [done|]. split; [exact Hc2|]. intros _. unfold text_of. simpl. by rewrite str_app_nil.
Qed.

Lemma text_of_cons h e l : text_of h (e :: l) = text_of h [e] +:+ text_of (hist_step h e) l.
Proof. unfold text_of. cbn [abs_rows]. rewrite app_nil_r, fmap_app. apply csv_text_app. Qed.

Lemma phase_at xs now text p h :
  Forall (input_ok t) xs → sampler_at text p → ∃ p' h' text',
    phase zone runid quiet (xs ++ [IDone now]) p (abs t total h) = Ok (p', abs t total h') ∧ csv_at d0 text' (sp_csv p') ∧
    (cw_err (sp_csv p') = None →
       let l := events_of (sp_windowStart p) (xs ++ [IDone now]) in
       sp_running p = true ∧ h' = foldl hist_step h l ∧ text' = text +:+ text_of h l).
Proof.
  intros Hxs. revert text p h. induction Hxs as [|i xs Hi Hxs IH]; intros text p h Hp.
  - cbn [app phase on_input]. destruct (sp_running p) eqn:Er.
    + destruct (lastWindow_at now text p h Hp) as (p' & text' & -> & Hc' & Ht). simpl. eexists p', _, text'.
      split; [done|]. split; [done|]. intros He. split_and!; [done..|by apply Ht].
    + simpl. eexists p, h, text. split; [done|]. split; [apply Hp|]. intros He. apply Hp in He. congruence.
  - destruct i as [e|tick|]; [| |done]; cbn [app phase on_input].
    + destruct Hi as [Hpe He].
      assert (run_event (abs t total h) e = Ok ([], abs t total (hist_step h e))) as ->.
      { pose proof (run_abs t total h [e]) as Hrun. rewrite Forall_singleton in Hrun.
        specialize (Hrun (plan_event_in _ _ _ HB Hpe)). cbn [run_events] in Hrun. destruct (run_event _ _) as [[rows s]| |]; simpl in Hrun; [|done..].
        rewrite !app_nil_r in Hrun. by destruct e; simplify_eq/=. }
      simpl. destruct (IH text p (hist_step h e) Hp) as (p' & h' & text' & E & Hc & Hok). exists p', h', text'.
      split; [done|]. split; [done|]. intros Hn. destruct (Hok Hn) as (? & -> & ->). split_and!; [done..|].
      rewrite (text_of_cons h e). f_equal. unfold text_of at 2. by destruct e.
    + destruct (sp_running p) eqn:Er.
      * destruct (writeWindow_at tick text p h Hp) as (p1 & text1 & -> & Hp1 & Ht1). simpl.
        destruct (IH text1 p1 (hist_step h (ESample (sp_windowStart p) tick)) Hp1) as (p' & h' & text' & E & Hc & Hok). exists p', h', text'. split; [done|]. split; [done|].
        intros Hn. destruct (Hok Hn) as (Hr1 & -> & ->). destruct (Ht1 Hr1) as [-> Hw]. rewrite Hw. split_and!; [done..|].
        by rewrite (text_of_cons h _ (events_of _ _)), str_app_assoc.
      * simpl. destruct (IH text p h Hp) as (p' & h' & text' & E & Hc & Hok). exists p', h', text'. split; [done|].
        split; [done|]. intros Hn. destruct (Hok Hn) as [? _]. congruence.
Qed.
End Rows.

Section Events.
Context (t : Topology) (now : Z).

Lemma events_of_starts xs ws h :
  Forall (input_ok t) xs →
  ir_TsStart <$> abs_rows h (events_of ws (xs ++ [IDone now])) = window_starts ws (xs ++ [IDone now]).
Proof.
  intros Hxs. revert ws h. induction Hxs as [|i xs Hi Hxs IH]; intros ws h; [done|].
  destruct i as [e|tick|]; [| |done].
  - destruct Hi as [_ He]. cbn [app events_of abs_rows window_starts]. rewrite fmap_app, IH. by destruct e.
  - cbn [app events_of abs_rows window_starts]. rewrite fmap_cons, IH. done.
Qed.

(** The last window is empty once it is sampled. *)
Lemma events_of_window xs ws h : Forall (input_ok t) xs → h_win (foldl hist_step h (events_of ws (xs ++ [IDone now]))) = [].
Proof.
  intros Hxs. revert ws h. induction Hxs as [|i xs Hi Hxs IH]; intros ws h; [done|].
  destruct i as [e|tick|]; [| |done]; cbn [app events_of foldl]; apply IH.
Qed.

Lemma events_of_ok xs ws :
  Forall (input_ok t) xs →
  Forall (plan_event t) (events_of ws (xs ++ [IDone now])) ∧
  Forall (λ e, not_begin e = true) (events_of ws (xs ++ [IDone now])) ∧
  length (events_of ws (xs ++ [IDone now])) = S (length xs).
Proof.
  intros Hxs. revert ws. induction Hxs as [|i xs Hi Hxs IH]; intros ws.
  { simpl. split_and!; repeat constructor. }
  destruct i as [e|tick|]; [| |done]; cbn [app events_of].
  - destruct (IH ws) as (? & ? & Hl), Hi as [? He]. split_and!; [by constructor|constructor; [by destruct e|done]|simpl; by rewrite Hl].
  - destruct (IH tick) as (? & ? & Hl). split_and!; [by constructor..|simpl; by rewrite Hl].
Qed.
End Events.

(** The summary's totals are the accumulators'. *)
Lemma buildSummary_totals runid c t s elapsed y :
  buildSummary runid c t s elapsed = Ok y →
  su_Published y = m_published (s_meas s) ∧ su_Delivered y = m_delivered (s_meas s) ∧ su_Consumed y = m_consumed (s_meas s) ∧
  su_Duplicates y = m_duplicates (s_meas s).
Proof.
  unfold buildSummary. destruct (mapE (role_row s) roleKeys); simpl; [|done..].
  destruct (mapE _ (imap _ _)); simpl; [|done..]. intros. by simplify_eq/=.
Qed.

(** The measured totals of a list of rows. *)
Definition rows_match (rows : list intervalRecord) (y : Summary) : Prop :=
  sumZ (ir_Published <$> rows) = su_Published y ∧ sumZ (ir_Delivered <$> rows) = su_Delivered y ∧
  sumZ (ir_Consumed <$> rows) = su_Consumed y ∧ sumZ (ir_Duplicates <$> rows) = su_Duplicates y.

Lemma rows_match_abs runid c t total h l elapsed y :
  Build c = Ok t → Forall (plan_event t) l → Forall (λ e, not_begin e = true) l →
  Z.of_nat (length l) < 18446744073709551616 → h_meas h = [] → h_win h = [] → h_win (foldl hist_step h l) = [] →
  buildSummary runid c t (abs t total (foldl hist_step h l)) elapsed = Ok y → rows_match (abs_rows h l) y.
Proof.
  intros HB Hl Hn Hs Hm Hw Hend (Ep & Ed & Ec & Eu)%buildSummary_totals. unfold rows_match. rewrite Ep, Ed, Ec, Eu.
  pose proof (abs_balanced c t total h l HB Hl Hn Hs Hm Hw) as [].
  assert (w_pub (s_win (abs t total (foldl hist_step h l))) = 0) as Hp by (simpl; by rewrite Hend).
  assert (w_del (s_win (abs t total (foldl hist_step h l))) = 0) as Hd by (simpl; by rewrite Hend).
  assert (w_cons (s_win (abs t total (foldl hist_step h l))) = 0) as Hc by (simpl; by rewrite Hend).
  assert (w_dup (s_win (abs t total (foldl hist_step h l))) = 0) as Hu by (simpl; by rewrite Hend).
  split_and!; lia.
Qed.

Section Session.
Context {D : Type} `{Destination D} (zone : Z → Z) (runid : string) (quiet : bool).

(** C15: the CSV and the summary agree.  For every order of the workers' records and the
    ticks of a measured phase, with fewer than [2^64] of them, nothing panics; and
    when the CSV was opened and closed without an error, the file is the header and one
    line per window, it parses back into them, the windows start at the start of the
    phase and each where the one before it ended, and their counts add up to the
    summary's totals: the last window is sampled after the last record. *)
Theorem csv_matches_summary (c : Config) (t : Topology) (total phaseStart now elapsed : Z) (pre : list event) (xs : list input)
    (d : D) (c0 : csvWriter D) :
  Build c = Ok t → Forall (plan_event t) pre → starts_phase pre → Forall (input_ok t) xs →
  Z.of_nat (length xs) + 1 < 18446744073709551616 → newCSVWriter d = Ok (None, c0) →
  ∃ rows0 s0 p s y e c1 b,
    run_events (newStats t total) pre = Ok (rows0, s0) ∧
    phase zone runid quiet (xs ++ [IDone now]) (mkSampler phaseStart c0 true []) s0 = Ok (p, s) ∧
    close (sp_csv p) = (e, c1, Some b) ∧ buildSummary runid c t s elapsed = Ok y ∧
    (e = None → ∃ rows,
       dst_content (b_dst b) = dst_content d +:+ csv_text (csvColumns :: (row_fields zone <$> rows)) ∧
       parse_csv (csv_text (csvColumns :: (row_fields zone <$> rows))) = csvColumns :: (row_fields zone <$> rows) ∧
       ir_TsStart <$> rows = window_starts phaseStart (xs ++ [IDone now]) ∧ rows_match rows y).
Proof.
  intros HB Hpre Hst Hxs Hlen Hnew. destruct (starts_phase_empty pre Hst) as [Hm Hw]. set (h := foldl hist_step hist0 pre) in *.
  assert (run_events (newStats t total) pre = Ok (abs_rows hist0 pre, abs t total h)) as Hrun.
  { rewrite new_abs. apply run_abs. eapply Forall_impl; [done|]. intros e. by eapply plan_event_in. }
  destruct (newCSVWriter_at d) as (e0 & c0' & E0 & Hc0 & He0 & _). rewrite Hnew in E0. injection E0 as <- <-.
  destruct (phase_at zone runid quiet c t total HB d xs now (csv_text [csvColumns]) (mkSampler phaseStart c0 true []) h Hxs)
    as (p & h' & text' & Hph & Hcp & Hok); [by split|].
  destruct (close_at d text' (sp_csv p) Hcp) as (e & c1 & b & Ecl & _ & _ & Herr & Hfull & _).
  destruct (buildSummary_ok runid c t total elapsed h' HB) as [y Hy].
  exists (abs_rows hist0 pre), (abs t total h), p, (abs t total h'), y, e, c1, b. do 4 (split; [done|]). intros ->.
  destruct (cw_err (sp_csv p)) as [e'|] eqn:Ee; [by specialize (Herr e' eq_refl)|].
  destruct (Hok eq_refl) as (_ & -> & ->). cbn [sp_windowStart] in *. set (l := events_of phaseStart (xs ++ [IDone now])) in *.
  destruct (events_of_ok t now xs phaseStart Hxs) as (Hl & Hn & Hll). fold l in Hl, Hn, Hll.
  exists (abs_rows h l). split; [|split; [|split]].
  - rewrite Hfull by done. cbn [csv_text]. by rewrite str_app_nil.
  - apply parse_csv_text. apply Forall_cons. split; [split; [done|apply columns_plain]|]. apply Forall_fmap, Forall_true.
    intros r. split; [done|apply row_plain].
  - by apply (events_of_starts t).
  - eapply (rows_match_abs runid c t total h l elapsed y); [done..|lia|done|done| |done]. by apply (events_of_window t).
Qed.
End Session.

Definition demo_inputs : list input :=
  [IRecord (EPublish one_slot 2 (f64_of_Z 5)); ITick second; IRecord (EDeliver one_slot 2 (f64_of_Z 7) false);
   IRecord (EAck 2 (f64_of_Z 1))].

Lemma csv_matches_summary_witness :
  ∃ c0 rows0 s0 p s y e c1 b,
    newCSVWriter (mkDisk 4000 "") = Ok (None, c0) ∧
    run_events (newStats one_plan 10) demo_warmup = Ok (rows0, s0) ∧
    phase (λ _, 0) "run" true (demo_inputs ++ [IDone (2 * second)]) (mkSampler 0 c0 true []) s0 = Ok (p, s) ∧
    close (sp_csv p) = (e, c1, Some b) ∧ buildSummary "run" one_config one_plan s second = Ok y ∧
    (e = None → ∃ rows, ir_TsStart <$> rows = [0; second] ∧ rows_match rows y).
Proof.
  assert (Build one_config = Ok one_plan) as HB by (vm_compute; reflexivity).
  assert (∃ p, p ∈ t_publishCapable one_plan ∧ t_slots one_plan !! p = Some one_slot) as Hp.
  { exists 0%nat. split; [apply list_elem_of_here|vm_compute; reflexivity]. }
  assert (∃ p, p ∈ t_consumeCapable one_plan ∧ t_slots one_plan !! p = Some one_slot) as Hc.
  { exists 0%nat. split; [apply list_elem_of_here|vm_compute; reflexivity]. }
  assert (∃ c0, newCSVWriter (mkDisk 4000 "") = Ok (None, c0)) as [c0 Hc0] by (eexists; vm_compute; reflexivity).
  destruct (csv_matches_summary (λ _, 0) "run" true one_config one_plan 10 0 (2 * second) second demo_warmup demo_inputs (mkDisk 4000 "") c0 HB)
    as (rows0 & s0 & p & s & y & e & c1 & b & E1 & E2 & E3 & E4 & Hok).
  - repeat (constructor; [first [exact I|exact Hp|exact Hc]|]). constructor.
  - right. exists [EPublish one_slot 1 (f64_of_Z 5)], 1. reflexivity.
  - repeat (constructor; [first [exact I|split; [first [exact I|exact Hp|exact Hc]|exact I]]|]). constructor.
  - reflexivity.
  - exact Hc0.
  - exists c0, rows0, s0, p, s, y, e, c1, b. split; [exact Hc0|]. split; [exact E1|]. split; [exact E2|]. split; [exact E3|].
    split; [exact E4|]. intros He. destruct (Hok He) as (rows & _ & _ & Hs & Hm). exists rows. split; [exact Hs|exact Hm].
Defined.

(** The drops are stored before the workers are joined: a message delivered after that is
    counted as consumed and as dropped. *)
Theorem drops_stored_early :
  match run_events (newStats one_plan 10) [EPublish one_slot 1 f64_zero; EDrops; EDeliver one_slot 1 f64_zero false] with
  | Ok (_, s) =>
      match buildSummary "run" one_config one_plan s second with
      | Ok y => su_Published y = 1 ∧ su_Consumed y = 1 ∧ su_Drops y = 1
      | _ => False
      end
  | _ => False
  end.
Proof. vm_compute. repeat split. Qed.
