(* ===== verification/BenchEngine.v ===== *)
(** * The benchmark engine (src/internal/bench/engine.go)

    [Run] as a program over the calls it makes: to the client library, to the file
    system, to the clock and the context, and to the goroutines it starts and joins.
    The answers are the environment's; a run is a program's calls with their answers.
    The context's timeouts are part of the answers of the calls that take it. *)

From S2P Require Import Prelude GoJson Bufio BenchTopology BenchPlacement BenchPlan BenchLatency BenchStats BenchCsv BenchWorker BenchRun BenchSummary.

(** ** Calls *)

Definition client : Type := nat.
Definition file : Type := nat.

(** A channel the client library opened, on its client. *)
Record chan := mkChan { ch_client : client; ch_id : Z }.

(** [gomqSDK.Config] *)
Record sdkConfig := mkSdk {
  sdk_ClientName : string; sdk_Username : string; sdk_Password : string;
  sdk_ChannelMax : Z; sdk_FrameMax : Z; sdk_HeartbeatSec : Z;
}.

Definition connectConfig : sdkConfig := mkSdk "benchmark" "daniel" "123456789" 10 10372 10.

(** The arguments of the workers' goroutines. *)
Record pubArgs := mkPubArgs {
  pw_ch : chan; pw_slot : channelSlot; pw_exchange : string; pw_routingKey : string; pw_size : Z; pw_msgs : Z;
}.
Record consArgs := mkConsArgs { co_ch : chan; co_slot : channelSlot; co_deliveries : Z; co_ack : bool }.

(** What ends a wait of [select]. *)
Inductive wake : Type := CtxDone | PubDone | TimerFired.

(** The calls, indexed by the type of their answer; a failure is its message. *)
Inductive call : Type → Type :=
| Connect (addr : string) (cfg : sdkConfig) : call (string + client)
| Close (c : client) : call unit
| OpenChannel (c : client) : call (string + Z)
| DeclareExchange (ch : chan) (name : string) : call (string + unit)
| DeclareQueue (ch : chan) (name dlx dlk : string) : call (string + unit)
| BindQueue (ch : chan) (queue exchange key : string) : call (string + unit)
| Consume (ch : chan) (queue : string) : call (string + Z)
| Create (path : string) : call (string + file)
| FileClose (f : file) : call (option string)
| NewCSV (dst : option file) : call (string + unit)
| CsvClose : call (option string)
| GoConsumer (w : consArgs) : call unit
| GoPublisher (w : pubArgs) : call unit
| CloseStop : call unit
| WaitPublishers : call unit
| WaitConsumers : call unit
| Select (timer : option Z) : call wake
| BeginMeasured : call Z
| GoSampler (start : Z) : call unit
| StopSampler : call unit
| WaitSampler : call unit
| Now : call Z
| NextSeq : call Z
| CtxErr : call (option string)
| Stats : call stats
| StoreDrops (n : Z) : call unit
| SleepOrDone : call bool
| CloseErrCh : call (list string)
| Log (line : string) : call unit.

(** ** Programs *)

Inductive prog (A : Type) : Type :=
| Ret (a : A)
| Do {X : Type} (c : call X) (k : X → prog A)
| Panic
| OutOfFuel.
Arguments Ret {A} a.
Arguments Do {A X} c k.
Arguments Panic {A}.
Arguments OutOfFuel {A}.

Fixpoint pbind {A B} (f : A → prog B) (p : prog A) : prog B :=
  match p with
  | Ret a => f a
  | Do c k => Do c (λ x, pbind f (k x))
  | Panic => Panic
  | OutOfFuel => OutOfFuel
  end.
#[export] Instance prog_ret : MRet prog := λ A, Ret.
#[export] Instance prog_bind : MBind prog := λ A B, pbind.

Definition ask {X} (c : call X) : prog X := Do c Ret.

(** [Run]'s errors, one constructor per message. *)
Inductive runError : Type :=
| RConfig (e : ConfigError)
| RSetupConnect (e : string) | RSetupChannel (e : string)
| RDeclareExchange (name e : string) | RDeclareQueue (name e : string) | RBind (queue exchange e : string)
| RConnect (i : nat) (e : string) | ROpenChannel (i : nat) (e : string)
| RCreate (path e : string) | RWriteCSV (path e : string)
| RConsume (conn ch : Z) (e : string)
| RWarmupInterrupted (e : option string) | RWarmupExceeded (warmup total : Z)
| RInterrupted (e : string) | RWorkers (errs : list string).

Abbreviation progE A := (prog (runError + A)).

(** [if err != nil { cleanup; return nil, err }] *)
Definition attempt {X} (c : call (string + X)) (cleanup : prog unit) (err : string → runError) : progE X :=
  r ← ask c;
  match r with
  | inl e => cleanup;; Ret (inl (err e))
  | inr a => Ret (inr a)
  end.

(** Go on with the value, or return the error. *)
Definition thenE {A B} (p : progE A) (f : A → progE B) : progE B :=
  r ← p; match r with inl e => Ret (inl e) | inr a => f a end.
Notation "x ⇐ p ; q" := (thenE p (λ x, q)) (at level 20, p at level 100, q at level 200, only parsing).

Definition of_result {A} (r : result ConfigError A) : progE A :=
  match r with Ok a => Ret (inr a) | Err e => Ret (inl (RConfig e)) | Crash => Panic end.

(** ** Parts of [Run] *)

(** The uniquely named exchange and queue, declared by a client of their own. *)
Definition declare_fixture (addr exchange queue routingKey : string) : progE unit :=
  setup ⇐ attempt (Connect addr connectConfig) (Ret tt) RSetupConnect;
  id ⇐ attempt (OpenChannel setup) (ask (Close setup)) RSetupChannel;
  _ ⇐ attempt (DeclareExchange (mkChan setup id) exchange) (ask (Close setup)) (RDeclareExchange exchange);
  _ ⇐ attempt (DeclareQueue (mkChan setup id) queue "" "") (ask (Close setup)) (RDeclareQueue queue);
  _ ⇐ attempt (BindQueue (mkChan setup id) queue exchange routingKey) (ask (Close setup)) (RBind queue exchange);
  ask (Close setup);; Ret (inr tt).

Fixpoint closeClients (clients : list (option client)) : prog unit :=
  match clients with
  | [] => Ret tt
  | None :: clients' => closeClients clients'
  | Some c :: clients' => ask (Close c);; closeClients clients'
  end.

(** [sl.client = ch] for the slots of a connection *)
Fixpoint open_channels (i : nat) (clients : list (option client)) (cl : client) (sls : list slot) (handles : gmap slot chan)
    : progE (gmap slot chan) :=
  match sls with
  | [] => Ret (inr handles)
  | p :: sls' =>
      id ⇐ attempt (OpenChannel cl) (closeClients clients) (ROpenChannel i);
      open_channels i clients cl sls' (<[p := mkChan cl id]> handles)
  end.

Fixpoint connect_conns (addr : string) (i : nat) (conns : list connPlan) (clients : list (option client)) (handles : gmap slot chan)
    : progE (list (option client) * gmap slot chan) :=
  match conns with
  | [] => Ret (inr (clients, handles))
  | cp :: conns' =>
      cl ⇐ attempt (Connect addr connectConfig) (closeClients clients) (RConnect i);
      let clients := <[i := Some cl]> clients in
      handles ⇐ open_channels i clients cl (cp_Channels cp) handles;
      connect_conns addr (S i) conns' clients handles
  end.

(** The path, and the file if there is one. *)
Definition openCSV (cfg : Config) (runid : string) : progE (string * option file) :=
  if decide (cf_Output cfg = "-") then Ret (inr ("-", None)) else
  let path := if decide (cf_Output cfg = "") then "bench-" +:+ runid +:+ ".csv" else cf_Output cfg in
  f ⇐ attempt (Create path) (Ret tt) (RCreate path);
  Ret (inr (path, Some f)).

(** [sl] and [sl.client]: a slot without a client is a nil pointer. *)
Definition slot_handle {A} (t : Topology) (handles : gmap slot chan) (p : slot) (f : channelSlot → chan → prog A) : prog A :=
  match t_slots t !! p, handles !! p with
  | Some sl, Some ch => f sl ch
  | _, _ => Panic
  end.

(** [for range sl.ConsGoroutines] *)
Fixpoint consume_on (clients : list (option client)) (sl : channelSlot) (ch : chan) (queue : string) (ack : bool) (js : list Z)
    : progE unit :=
  match js with
  | [] => Ret (inr tt)
  | _ :: js' =>
      d ⇐ attempt (Consume ch queue) (closeClients clients;; ask WaitConsumers) (RConsume (sl_Conn sl) (sl_Ch sl));
      ask (GoConsumer (mkConsArgs ch sl d ack));;
      consume_on clients sl ch queue ack js'
  end.

Fixpoint start_consumers (t : Topology) (clients : list (option client)) (handles : gmap slot chan) (queue : string) (ack : bool)
    (ps : list slot) : progE unit :=
  match ps with
  | [] => Ret (inr tt)
  | p :: ps' =>
      _ ⇐ slot_handle t handles p (λ sl ch, consume_on clients sl ch queue ack (sl_ConsGoroutines sl));
      start_consumers t clients handles queue ack ps'
  end.

(** [for range sl.PubGoroutines] *)
Fixpoint publish_on (w : pubArgs) (js : list Z) : prog unit :=
  match js with
  | [] => Ret tt
  | _ :: js' => ask (GoPublisher w);; publish_on w js'
  end.

Fixpoint start_publishers (t : Topology) (handles : gmap slot chan) (exchange routingKey : string) (size msgs : Z) (ps : list slot)
    : prog unit :=
  match ps with
  | [] => Ret tt
  | p :: ps' =>
      slot_handle t handles p (λ sl ch, publish_on (mkPubArgs ch sl exchange routingKey size msgs) (sl_PubGoroutines sl));;
      start_publishers t handles exchange routingKey size msgs ps'
  end.

(** [stopOnce.Do(func() { close(stopPub) })] *)
Definition stopPubs (stopped : bool) : prog unit := if stopped then Ret tt else ask CloseStop.

Definition shutdown (stopped : bool) (clients : list (option client)) : prog unit :=
  stopPubs stopped;; ask WaitPublishers;; closeClients clients;; ask WaitConsumers.

(** [cfg.Warmup > 0 && total > 0] *)
Definition warmup (cfg : Config) (total : Z) (clients : list (option client)) : progE unit :=
  if decide (cf_Warmup cfg > 0 ∧ total > 0) then
    w ← ask (Select (Some (cf_Warmup cfg)));
    match w with
    | CtxDone => shutdown false clients;; e ← ask CtxErr; Ret (inl (RWarmupInterrupted e))
    | PubDone => shutdown false clients;; Ret (inl (RWarmupExceeded (cf_Warmup cfg) total))
    | TimerFired =>
        cutoff ← ask BeginMeasured;
        if decide (u64 total ≤ cutoff) then shutdown false clients;; Ret (inl (RWarmupExceeded (cf_Warmup cfg) total))
        else Ret (inr tt)
    end
  else Ret (inr tt).

(** The measured phase, and whether the publishers were told to stop. *)
Definition measured (cfg : Config) : prog bool :=
  w ← ask (Select (if decide (cf_Duration cfg > 0) then Some (cf_Duration cfg) else None));
  match w with
  | PubDone => Ret false
  | _ => ask CloseStop;; ask WaitPublishers;; Ret true
  end.

Definition drain_tick : Z := 10000000.

(** [for !st.drained(cfg.Ack)]: whether the context was cancelled. *)
Fixpoint drain_loop (fuel : nat) (ack : bool) (deadline : Z) : prog bool :=
  match fuel with
  | O => OutOfFuel
  | S fuel' =>
      s ← ask Stats;
      if drained s ack then Ret false else
      t ← ask Now;
      if decide (deadline ≤ t) then Ret false else
      done ← ask SleepOrDone;
      if (done : bool) then Ret true else drain_loop fuel' ack deadline
  end.

(** Turns until the deadline, one tick each, and one more. *)
Definition drain_turns (cfg : Config) : nat := S (S (Z.to_nat (cf_DrainTimeout cfg `div` drain_tick))).

Definition drain_warning (runid : string) (since : Z) (s1 s2 : stats) : string :=
  "benchmark " +:+ runid +:+ ": WARNING drain not complete after " +:+ duration_String since +:+ ": consumed " +:+
  FormatUint (m_consumed (s_meas s1)) +:+ " of " +:+ FormatUint (m_published (s_meas s2)) +:+ " published".

(** The drain; whether the run was interrupted. *)
Definition drain (cfg : Config) (runid : string) : prog bool :=
  interrupted ← ask CtxErr;
  drainStart ← ask Now;
  if decide (is_Some interrupted ∨ cf_Consumers cfg ≤ 0) then Ret (bool_decide (is_Some interrupted)) else
  s ← ask Stats;
  if decide (0 < (if cf_Ack cfg then a_published (s_all s) else m_published (s_meas s))) then
    t ← ask Now;
    interrupted ← drain_loop (drain_turns cfg) (cf_Ack cfg) (t + cf_DrainTimeout cfg);
    if (interrupted : bool) then Ret true else
    s ← ask Stats;
    (if drained s (cf_Ack cfg) then Ret tt else
       t ← ask Now; s1 ← ask Stats; s2 ← ask Stats;
       ask (Log (drain_warning runid (t - drainStart) s1 s2)));;
    Ret false
  else Ret false.

Definition store_drops_call : prog unit :=
  s1 ← ask Stats; s2 ← ask Stats;
  let pub := m_published (s_meas s1) in
  let con := m_consumed (s_meas s2) in
  if decide (pub > con) then ask (StoreDrops (u64 (pub - con))) else Ret tt.

(** ** The printed plan *)

Definition FormatInt (n : Z) : string := pretty n.
Definition FormatLen {A} (l : list A) : string := FormatInt (Z.of_nat (length l)).
Definition FormatBool (b : bool) : string := if b then "true" else "false".

(** [strings.Join(l, sep)] *)
Fixpoint Join (l : list string) (sep : string) : string :=
  match l with
  | [] => ""
  | [s] => s
  | s :: l' => s +:+ sep +:+ Join l' sep
  end.

Definition channel_part (sl : channelSlot) : string :=
  "ch" +:+ FormatInt (sl_Ch sl) +:+ "=" +:+ role_String (sl_Role sl) +:+ "(pub" +:+ FormatLen (sl_PubGoroutines sl) +:+
  "/cons" +:+ FormatLen (sl_ConsGoroutines sl) +:+ ")".
Definition capable_part (sl : channelSlot) : string :=
  "c" +:+ FormatInt (sl_Conn sl) +:+ ".ch" +:+ FormatInt (sl_Ch sl) +:+ "(" +:+ role_String (sl_Role sl) +:+ ")".

Definition slots_of (t : Topology) (ps : list slot) : list channelSlot := omap (λ p, t_slots t !! p) ps.

Definition conn_line (t : Topology) (cp : connPlan) : string :=
  "conn" +:+ FormatInt (cp_Conn cp) +:+ " [" +:+ connRole_String (cp_Role cp) +:+ "] " +:+ FormatLen (cp_Channels cp) +:+
  " channel(s): " +:+ Join (channel_part <$> slots_of t (cp_Channels cp)) ", ".

Definition printPlan (runid : string) (cfg : Config) (t : Topology) (total : Z) : list string :=
  (λ line, "benchmark " +:+ runid +:+ ": " +:+ line) <$>
  ["conns=" +:+ FormatInt (cf_Conns cfg) +:+ " (pub=" +:+ FormatInt (cf_PubConns cfg) +:+ " cons=" +:+ FormatInt (cf_ConsConns cfg) +:+
     " mixed=" +:+ FormatInt (i64 (cf_Conns cfg - cf_PubConns cfg - cf_ConsConns cfg)) +:+ ") channels=" +:+ FormatInt (cf_Channels cfg) +:+
     " publishers=" +:+ FormatInt (cf_Publishers cfg) +:+ " consumers=" +:+ FormatInt (cf_Consumers cfg) +:+ " msgs=" +:+ FormatInt (cf_Msgs cfg) +:+
     " total=" +:+ FormatInt total +:+ " size=" +:+ FormatInt (cf_Size cfg) +:+ " ack=" +:+ FormatBool (cf_Ack cfg);
   "exchange=" +:+ exchangeOf runid +:+ " queue=" +:+ queueOf runid +:+ " routing_key=" +:+ routingKeyOf runid] ++
  (conn_line t <$> t_Conns t) ++
  ["publish-capable(" +:+ FormatLen (t_publishCapable t) +:+ "): " +:+ Join (capable_part <$> slots_of t (t_publishCapable t)) ", ";
   "consume-capable(" +:+ FormatLen (t_consumeCapable t) +:+ "): " +:+ Join (capable_part <$> slots_of t (t_consumeCapable t)) ", "].

Example plan_lines : printPlan "r1" one_config one_plan 10 =
  ["benchmark r1: conns=1 (pub=0 cons=0 mixed=1) channels=1 publishers=1 consumers=1 msgs=10 total=10 size=128 ack=true";
   "benchmark r1: exchange=bench.ex.r1 queue=bench.q.r1 routing_key=bench.rk.r1";
   "benchmark r1: conn0 [mixed] 1 channel(s): ch0=both(pub1/cons1)";
   "benchmark r1: publish-capable(1): c0.ch0(both)";
   "benchmark r1: consume-capable(1): c0.ch0(both)"].
Proof. vm_compute. reflexivity. Qed.

Fixpoint log_lines (ls : list string) : prog unit :=
  match ls with [] => Ret tt | s :: ls' => ask (Log s);; log_lines ls' end.

(** ** [Run] *)

Record Result := mkResult { res_RunID : string; res_CSVPath : string; res_Summary : Summary }.

(** [make] panics on a negative length or one beyond the address space. *)
Definition make_slice (elem n : Z) : prog unit := if decide (0 ≤ n ∧ elem * n ≤ max_alloc) then Ret tt else Panic.
Definition make_chan (elem n : Z) : prog unit := if decide (0 ≤ n ∧ elem * n ≤ max_alloc - 96) then Ret tt else Panic.

(** What is returned once everything has been joined; the file is closed here. *)
Definition finish (cfg : Config) (t : Topology) (runid path : string) (f : option file) (phaseStart : Z) : progE Result :=
  errs ← ask CloseErrCh;
  csvErr ← ask CsvClose;
  csvErr ← match f with
           | None => Ret csvErr
           | Some f => err ← ask (FileClose f); Ret (match csvErr with None => err | Some _ => csvErr end)
           end;
  ctxErr ← ask CtxErr;
  match ctxErr, errs, csvErr with
  | Some e, _, _ => Ret (inl (RInterrupted e))
  | None, _ :: _, _ => Ret (inl (RWorkers errs))
  | None, [], Some e => Ret (inl (RWriteCSV path e))
  | None, [], None =>
      now ← ask Now; s ← ask Stats;
      match buildSummary runid cfg t s (time_sub now phaseStart) with
      | Ok y => Ret (inr (mkResult runid path y))
      | _ => Panic
      end
  end.

(** [defer func() { if csvFile != nil { _ = csvFile.Close() } }()] *)
Definition close_file (f : option file) : prog unit :=
  match f with None => Ret tt | Some f => ask (FileClose f);; Ret tt end.

(** From the connected clients to the end of the warm-up; an error closes the file by the deferred call. *)
Definition start (cfg : Config) (t : Topology) (runid path : string) (f : option file) (total : Z)
    (clients : list (option client)) (handles : gmap slot chan) : progE unit :=
  _ ⇐ attempt (NewCSV f) (closeClients clients) (RWriteCSV path);
  make_slice 8 total;; make_slice 4 total;;
  make_chan 16 (i64 (cf_Consumers cfg + cf_Publishers cfg + 1));;
  _ ⇐ start_consumers t clients handles (queueOf runid) (cf_Ack cfg) (t_consumeCapable t);
  start_publishers t handles (exchangeOf runid) (routingKeyOf runid) (cf_Size cfg) (cf_Msgs cfg) (t_publishCapable t);;
  warmup cfg total clients.

(** The measured phase, the drain and the shutdown. *)
Definition measure (cfg : Config) (t : Topology) (runid path : string) (f : option file) (clients : list (option client))
    : progE Result :=
  phaseStart ← ask Now;
  ask (GoSampler phaseStart);;
  stopped ← measured cfg;
  interrupted ← drain cfg runid;
  (if (interrupted : bool) then Ret tt else store_drops_call);;
  shutdown stopped clients;;
  ask StopSampler;; ask WaitSampler;;
  finish cfg t runid path f phaseStart.

Definition Run (nonce : string) (cfg : Config) : progE Result :=
  _ ⇐ of_result (Validate cfg);
  t ⇐ of_result (Build cfg);
  now ← ask Now; seq ← ask NextSeq;
  let runid := newRunID now seq nonce in
  _ ⇐ declare_fixture (cf_Addr cfg) (exchangeOf runid) (queueOf runid) (routingKeyOf runid);
  let total := i64 (cf_Publishers cfg * cf_Msgs cfg) in
  log_lines (printPlan runid cfg t total);;
  ch ⇐ connect_conns (cf_Addr cfg) 0 (t_Conns t) (replicate (length (t_Conns t)) None) ∅;
  let '(clients, handles) := ch in
  r ← openCSV cfg runid;
  match r with
  | inl e => closeClients clients;; Ret (inl e)
  | inr (path, f) =>
      r ← start cfg t runid path f total clients handles;
      match r with
      | inl e => close_file f;; Ret (inl e)
      | inr _ => measure cfg t runid path f clients
      end
  end.
