(* ===== verification/BenchProtocol.v ===== *)
(** * Properties of the benchmark engine

    A monitor follows the calls of a run: which clients are connected, whether the file
    is open, which goroutines may still be running.  It rejects the calls that would
    be errors: a channel used after its client was closed, a wait nothing ends, a
    channel closed twice or while a goroutine may still send on it, the CSV closed under
    the sampler.  Every run of the engine is accepted and ends with everything
    released. *)

From S2P Require Import Prelude GoJson Bufio BenchTopology BenchPlacement BenchPlan BenchLatency BenchStats BenchCsv BenchWorker BenchRun BenchSummary BenchEngine.

(** ** Runs *)

Inductive outcome (A : Type) : Type := Done (a : A) | Crashed | Starved.
Arguments Done {A} a.
Arguments Crashed {A}.
Arguments Starved {A}.

(** A call and its answer. *)
Inductive ev : Type :=
| Ev (X : Type) (c : call X) (x : X).
Arguments Ev {X} c x.

Inductive runs {A} : prog A → list ev → outcome A → Prop :=
| runs_ret a : runs (Ret a) [] (Done a)
| runs_do X (c : call X) (k : X → prog A) x tr o : runs (k x) tr o → runs (Do c k) (Ev c x :: tr) o
| runs_panic : runs Panic [] Crashed
| runs_starve : runs OutOfFuel [] Starved.

(** The run an environment that answers each call in the same way gives. *)
Fixpoint exec {A} (env : ∀ X, call X → X) (p : prog A) : list ev * outcome A :=
  match p with
  | Ret a => ([], Done a)
  | Do c k => let '(tr, o) := exec env (k (env _ c)) in (Ev c (env _ c) :: tr, o)
  | Panic => ([], Crashed)
  | OutOfFuel => ([], Starved)
  end.

Lemma exec_runs {A} env (p : prog A) : runs p (exec env p).1 (exec env p).2.
Proof.
  induction p as [a|X c k IH| |]; simpl; [constructor| |constructor..].
  specialize (IH (env X c)). destruct (exec env (k (env X c))) as [tr o]. by constructor.
Qed.

(** ** The monitor *)

Inductive samplerState : Type := SNone | SRunning | SStopping | SDone.
#[export] Instance samplerState_eq_dec : EqDecision samplerState.
Proof. solve_decision. Defined.











(** ** Weakest preconditions *)

Section Wp.
Context (t : Topology).









End Wp.

(** ** The parts of [Run] *)






Section Parts.
Context (t : Topology).

















End Parts.

(** ** The whole run *)

(** The buffers of a run can be allocated. *)
Definition allocates (cfg : Config) : Prop :=
  let total := i64 (cf_Publishers cfg * cf_Msgs cfg) in
  let n := i64 (cf_Consumers cfg + cf_Publishers cfg + 1) in
  0 ≤ total ∧ 8 * total ≤ max_alloc ∧ 0 ≤ n ∧ 16 * n ≤ max_alloc - 96.

#[export] Instance allocates_dec cfg : Decision (allocates cfg).
Proof. unfold allocates. apply _. Defined.


Section Whole.
Context (cfg : Config) (t : Topology) (HB : Build cfg = Ok t).








End Whole.


(** An environment where everything works: one message published and consumed. *)
Definition demo_stats : stats := abs one_plan 10 (foldl hist_step hist0 [EPublish one_slot 1 (f64_of_Z 5); EDeliver one_slot 1 (f64_of_Z 9) false; EAck 1 (f64_of_Z 2)]).

Definition demo_env (X : Type) (c : call X) : X :=
  match c in call X return X with
  | Connect _ _ => inr 7%nat
  | Close _ => tt
  | OpenChannel _ => inr 1
  | DeclareExchange _ _ => inr tt
  | DeclareQueue _ _ _ _ => inr tt
  | BindQueue _ _ _ _ => inr tt
  | Consume _ _ => inr 1
  | Create _ => inr 3%nat
  | FileClose _ => None
  | NewCSV _ => inr tt
  | CsvClose => None
  | GoConsumer _ => tt
  | GoPublisher _ => tt
  | CloseStop => tt
  | WaitPublishers => tt
  | WaitConsumers => tt
  | Select _ => PubDone
  | BeginMeasured => 0
  | GoSampler _ => tt
  | StopSampler => tt
  | WaitSampler => tt
  | Now => 1735689600000000000
  | NextSeq => 1
  | CtxErr => None
  | Stats => demo_stats
  | StoreDrops _ => tt
  | SleepOrDone => true
  | CloseErrCh => []
  | Log _ => tt
  end.



(** ** What a run reports *)

Lemma runs_inv {A} (p : prog A) tr o :
  runs p tr o →
  match p with
  | Ret a => tr = [] ∧ o = Done a
  | Do c k => ∃ x tr', tr = Ev c x :: tr' ∧ runs (k x) tr' o
  | Panic => tr = [] ∧ o = Crashed
  | OutOfFuel => tr = [] ∧ o = Starved
  end.
Proof. destruct 1; eauto. Qed.

Lemma runs_bind {A B} (p : prog A) (f : A → prog B) tr b :
  runs (p ≫= f) tr (Done b) → ∃ a tr1 tr2, tr = tr1 ++ tr2 ∧ runs p tr1 (Done a) ∧ runs (f a) tr2 (Done b).
Proof.
  change (p ≫= f) with (pbind f p). revert tr. induction p as [a|X c k IH| |]; intros tr Hr; simpl in Hr.
  - exists a, [], tr. split; [done|]. split; [constructor|done].
  - apply runs_inv in Hr as (x & tr' & -> & Hk). apply IH in Hk as (a & tr1 & tr2 & -> & Hp & Hf).
    exists a, (Ev c x :: tr1), tr2. split; [done|]. split; [by constructor|done].
  - by apply runs_inv in Hr as [_ ?].
  - by apply runs_inv in Hr as [_ ?].
Qed.

Lemma runs_ask {X B} (c : call X) (f : X → prog B) tr o :
  runs (ask c ≫= f) tr o → ∃ x tr', tr = Ev c x :: tr' ∧ runs (f x) tr' o.
Proof. intros Hr. by apply runs_inv in Hr. Qed.

Lemma runs_thenE {A B} (p : progE A) (f : A → progE B) tr b :
  runs (thenE p f) tr (Done (inr b)) → ∃ a tr1 tr2, tr = tr1 ++ tr2 ∧ runs p tr1 (Done (inr a)) ∧ runs (f a) tr2 (Done (inr b)).
Proof.
  unfold thenE. intros ([e|a] & tr1 & tr2 & -> & Hp & Hf)%runs_bind; [by apply runs_inv in Hf as [_ ?]|by eauto 10].
Qed.

(** The calls after the last join, when everything went well. *)
Definition closing (f : option file) (now : Z) (s : stats) : list ev :=
  [Ev CloseErrCh []; Ev CsvClose None] ++ match f with None => [] | Some f => [Ev (FileClose f) None] end ++
  [Ev CtxErr None; Ev Now now; Ev Stats s].

Lemma finish_reports cfg t runid path f phaseStart tr res :
  runs (finish cfg t runid path f phaseStart) tr (Done (inr res)) →
  ∃ now s, tr = closing f now s ∧ res_RunID res = runid ∧ res_CSVPath res = path ∧
    buildSummary runid cfg t s (time_sub now phaseStart) = Ok (res_Summary res).
Proof.
  unfold finish. intros (errs & tr1 & -> & (csvErr & tr2 & -> & H2)%runs_ask)%runs_ask.
  apply runs_bind in H2 as (csvErr' & tr3 & tr4 & -> & Hf & (ctxErr & tr5 & -> & H5)%runs_ask).
  destruct ctxErr; [by apply runs_inv in H5 as [_ ?]|]. destruct errs; [|by apply runs_inv in H5 as [_ ?]].
  destruct csvErr'; [by apply runs_inv in H5 as [_ ?]|].
  apply runs_ask in H5 as (now & tr6 & -> & (s & tr7 & -> & H7)%runs_ask).
  destruct (buildSummary _ _ _ _ _) as [y| |] eqn:Ey; apply runs_inv in H7 as [-> H7]; [|done..]. simplify_eq.
  exists now, s. unfold closing. split; [|done]. destruct f as [f|].
  - apply runs_ask in Hf as (err & tr8 & -> & Hf). apply runs_inv in Hf as [-> Hf]. destruct csvErr; simplify_eq. done.
  - apply runs_inv in Hf as [-> Hf]. by simplify_eq.
Qed.

Lemma measure_reports cfg t runid path f clients tr res :
  runs (measure cfg t runid path f clients) tr (Done (inr res)) →
  ∃ tr0 phaseStart now s, tr = tr0 ++ closing f now s ∧ Ev (GoSampler phaseStart) tt ∈ tr0 ∧ res_RunID res = runid ∧
    buildSummary runid cfg t s (time_sub now phaseStart) = Ok (res_Summary res).
Proof.
  unfold measure. intros (ps & tr17 & -> & ([] & tr18 & -> & Hr)%runs_ask)%runs_ask.
  apply runs_bind in Hr as (stopped & tr19 & tr20 & -> & _ & Hr). apply runs_bind in Hr as (int & tr21 & tr22 & -> & _ & Hr).
  apply runs_bind in Hr as ([] & tr23 & tr24 & -> & _ & Hr). apply runs_bind in Hr as ([] & tr25 & tr26 & -> & _ & Hr).
  apply runs_ask in Hr as ([] & tr27 & -> & ([] & tr28 & -> & Hr)%runs_ask).
  apply finish_reports in Hr as (now & s & -> & Hid & _ & Hs).
  exists (Ev Now ps :: Ev (GoSampler ps) tt :: tr19 ++ tr21 ++ tr23 ++ tr25 ++ [Ev StopSampler tt; Ev WaitSampler tt]), ps, now, s.
  split; [by rewrite <-!app_comm_cons, <-!app_assoc|]. split; [by right; left|done].
Qed.

(** C28: what [Run] reports.  A configuration without a plan is refused before any call is
    made.  A result is returned only when, after every goroutine was joined, no worker
    had sent an error, the CSV writer and the file closed without one and the
    context was not cancelled; its summary is that of the accumulators then, over the
    time since the sampler was started. *)
Theorem run_reports (nonce : string) (cfg : Config) (tr : list ev) (o : outcome (runError + Result)) :
  runs (Run nonce cfg) tr o →
  (∀ e, Build cfg = Err e → tr = [] ∧ o = Done (inl (RConfig e))) ∧
  (∀ res, o = Done (inr res) → ∃ t tr0 f phaseStart now s,
     Build cfg = Ok t ∧ tr = tr0 ++ closing f now s ∧ Ev (GoSampler phaseStart) tt ∈ tr0 ∧
     buildSummary (res_RunID res) cfg t s (time_sub now phaseStart) = Ok (res_Summary res)).
Proof.
  intros Hr. split.
  - intros e He. unfold Run in Hr. revert He. unfold Build. destruct (Validate cfg) as [[]|e'|] eqn:HV; simpl in *; [|intros [= ->]|done].
    + intros He. unfold Build in Hr. rewrite HV in Hr. simpl in Hr. rewrite He in Hr. by apply runs_inv in Hr.
    + by apply runs_inv in Hr.
  - intros res ->. unfold Run in Hr. apply runs_thenE in Hr as ([] & tr1 & tr2 & -> & _ & Hr).
    apply runs_thenE in Hr as (t & tr3 & tr4 & -> & HB & Hr). exists t.
    assert (Build cfg = Ok t) as HBt by (destruct (Build cfg) eqn:E; apply runs_inv in HB as [_ ?]; congruence).
    apply runs_ask in Hr as (now & tr5 & -> & (seq & tr6 & -> & Hr)%runs_ask).
    apply runs_thenE in Hr as ([] & tr7 & tr8 & -> & _ & Hr). apply runs_bind in Hr as ([] & tr9 & tr10 & -> & _ & Hr).
    apply runs_thenE in Hr as ([clients handles] & tr11 & tr12 & -> & _ & Hr).
    apply runs_bind in Hr as ([e|[path f]] & tr13 & tr14 & -> & _ & Hr).
    { apply runs_bind in Hr as ([] & ? & ? & _ & _ & Hr). by apply runs_inv in Hr as [_ ?]. }
    apply runs_bind in Hr as ([e|[]] & tr15 & tr16 & -> & _ & Hr).
    { apply runs_bind in Hr as ([] & ? & ? & _ & _ & Hr). by apply runs_inv in Hr as [_ ?]. }
    apply measure_reports in Hr as (tr0 & ps & now' & s & -> & Hin & <- & Hs).
    exists (tr1 ++ tr3 ++ Ev Now now :: Ev NextSeq seq :: tr7 ++ tr9 ++ tr11 ++ tr13 ++ tr15 ++ tr0), f, ps, now', s.
    split; [done|]. split; [by rewrite <-!app_assoc, <-!app_comm_cons, <-!app_assoc|]. split; [|done].
    rewrite !elem_of_app, !elem_of_cons, !elem_of_app. tauto.
Qed.

Lemma run_reports_witness :
  ∃ t tr0 f now s, Build one_config = Ok t ∧ (exec demo_env (Run "00ff" one_config)).1 = tr0 ++ closing f now s.
Proof.
  assert (∃ r, (exec demo_env (Run "00ff" one_config)).2 = Done (inr r)) as [r Hr] by (eexists; vm_compute; reflexivity).
  destruct (run_reports "00ff" one_config _ _ (exec_runs demo_env (Run "00ff" one_config))) as [_ Hok].
  destruct (Hok r Hr) as (t & tr0 & f & ps & now & s & HB & Htr & _). exists t, tr0, f, now, s. split; [exact HB|exact Htr].
Defined.
