(* ===== verification/Flags.v ===== *)
(** * Go's flag package, as the commands use it

    [FlagSet.Parse] on a table of flags, and the values the commands register: strings,
    booleans, integers in the notations of [strconv.ParseInt] with base 0, and durations
    ([time.ParseDuration]).  A table entry says how its flag changes the program's state. *)

From S2P Require Import Prelude Bufio Protocol JsonText BenchTopology BenchLatency.

(** ** Parsing *)

Section parsing.
Context {S : Type}.

(** A registered flag: its name, whether it is a boolean flag, its [Set]. *)
Record Flag := mkFlag { fl_name : string; fl_bool : bool; fl_Set : string → S → string + S }.

(** What [Parse] ends with: the state and the arguments left, [ErrHelp], or an error. *)
Inductive parsed : Type :=
| Parsed (st : S) (rest : list string)
| Help
| Failed (msg : string).

Definition lookup_flag (fs : list Flag) (name : string) : option Flag :=
  List.find (λ f, bool_decide (fl_name f = name)) fs.

(** The name before the first [=] that is not its first character, and the value after it. *)
Fixpoint split_eq (s : string) : string * option string :=
  match s with
  | "" => ("", None)
  | String a s' =>
      if decide (code a = 61) then ("", Some s')
      else let '(n, v) := split_eq s' in (String a n, v)
  end.

(** An argument: not a flag, the terminator, badly written, or a flag with its value. *)
Inductive arg : Type :=
| AStop
| ATerminator
| ABad
| AFlag (name : string) (value : option string).

Definition is_minus (a : ascii) : bool := bool_decide (code a = 45).

Definition flag_name (s : string) : arg :=
  match s with
  | "" => ABad
  | String a s' =>
      if decide (code a = 45 ∨ code a = 61) then ABad
      else let '(n, v) := split_eq s' in AFlag (String a n) v
  end.

Definition classify (s : string) : arg :=
  match s with
  | String a (String b s') =>
      if negb (is_minus a) then AStop
      else if is_minus b then match s' with "" => ATerminator | _ => flag_name s' end
      else flag_name (String b s')
  | _ => AStop
  end.

Definition invalid_value (kind : string) (value name err : string) : string :=
  "invalid " +:+ kind +:+ " " +:+ quote value +:+ " for " +:+ name +:+ ": " +:+ err.

(** [parseOne] until it sees no flag. *)
Fixpoint parse (fs : list Flag) (args : list string) (st : S) : parsed :=
  match args with
  | [] => Parsed st []
  | s :: rest =>
      match classify s with
      | AStop => Parsed st args
      | ATerminator => Parsed st rest
      | ABad => Failed ("bad flag syntax: " +:+ s)
      | AFlag name value =>
          match lookup_flag fs name with
          | None =>
              if decide (name = "help" ∨ name = "h") then Help
              else Failed ("flag provided but not defined: -" +:+ name)
          | Some f =>
              if fl_bool f then
                match fl_Set f (default "true" value) st, value with
                | inr st', _ => parse fs rest st'
                | inl e, Some v => Failed (invalid_value "boolean value" v ("-" +:+ name) e)
                | inl e, None => Failed ("invalid boolean flag " +:+ name +:+ ": " +:+ e)
                end
              else
                match value, rest with
                | Some v, _ =>
                    match fl_Set f v st with
                    | inr st' => parse fs rest st'
                    | inl e => Failed (invalid_value "value" v ("flag -" +:+ name) e)
                    end
                | None, v :: rest' =>
                    match fl_Set f v st with
                    | inr st' => parse fs rest' st'
                    | inl e => Failed (invalid_value "value" v ("flag -" +:+ name) e)
                    end
                | None, [] => Failed ("flag needs an argument: -" +:+ name)
                end
          end
      end
  end.
End parsing.
Arguments Flag : clear implicits.
Arguments parsed : clear implicits.

(** ** Values *)

(** [strconv.ParseBool] *)
Definition ParseBool (s : string) : string + bool :=
  if decide (s ∈ ["1"; "t"; "T"; "TRUE"; "true"; "True"]) then inr true
  else if decide (s ∈ ["0"; "f"; "F"; "FALSE"; "false"; "False"]) then inr false
  else inl "parse error".

(** [strconv.lower]: the bit that tells the cases of a letter apart. *)
Definition low (a : ascii) : Z := Z.lor (code a) 32.

(** The value of a digit up to 36. *)
Definition digit_of (a : ascii) : option Z :=
  if between 48 (code a) 57 then Some (code a - 48)
  else if between 97 (low a) 122 then Some (low a - 87)
  else None.

Inductive numError : Type := ErrSyntax | ErrRange.

(** The digits of [strconv.ParseUint], underscores skipped: a number beyond 64 bits is
    reported at once, also before a bad character. *)
Fixpoint uint_digits (base : Z) (s : string) (n : Z) (underscores : bool) : numError + (Z * bool) :=
  match s with
  | "" => inr (n, underscores)
  | String a s' =>
      if decide (code a = 95) then uint_digits base s' n true
      else match digit_of a with
      | None => inl ErrSyntax
      | Some d =>
          if decide (base ≤ d) then inl ErrSyntax
          else if decide (18446744073709551616 ≤ n * base + d) then inl ErrRange
          else uint_digits base s' (n * base + d) underscores
      end
  end.

(** What came before: a digit or base prefix, an underscore, the beginning, anything else. *)
Inductive seen : Type := SDigit | SUnderscore | SBegin | SOther.

#[export] Instance seen_eq_dec : EqDecision seen.
Proof. solve_decision. Defined.

Fixpoint underscores_ok (hex : bool) (i : seen) (s : string) : bool :=
  match s with
  | "" => bool_decide (i ≠ SUnderscore)
  | String a s' =>
      if between 48 (code a) 57 || (hex && between 97 (low a) 102) then underscores_ok hex SDigit s'
      else if decide (code a = 95) then if decide (i ≠ SDigit) then false else underscores_ok hex SUnderscore s'
      else if decide (i = SUnderscore) then false else underscores_ok hex SOther s'
  end.

(** The base of a literal without its sign, and its digits. *)
Definition base_prefix (s : string) : Z * string :=
  match s with
  | String z (String b s') =>
      if decide (code z = 48) then
        let base := if decide (low b = 98) then 2 else if decide (low b = 111) then 8 else if decide (low b = 120) then 16 else 0 in
        match s' with
        | String _ _ => if decide (base ≠ 0) then (base, s') else (8, String b s')
        | "" => (8, String b s')
        end
      else (10, s)
  | String z "" => if decide (code z = 48) then (8, "") else (10, s)
  | "" => (10, "")
  end.

(** [underscoreOK], after the sign. *)
Definition underscoreOK (s : string) : bool :=
  match s with
  | String z (String b s') =>
      if decide (code z = 48 ∧ (low b = 98 ∨ low b = 111 ∨ low b = 120)) then underscores_ok (bool_decide (low b = 120)) SDigit s'
      else underscores_ok false SBegin s
  | _ => underscores_ok false SBegin s
  end.

(** [strconv.ParseUint(s, 0, 64)] *)
Definition ParseUint0 (s : string) : numError + Z :=
  if decide (s = "") then inl ErrSyntax else
  let '(base, digits) := base_prefix s in
  match uint_digits base digits 0 false with
  | inl e => inl e
  | inr (n, underscores) => if underscores && negb (underscoreOK s) then inl ErrSyntax else inr n
  end.

Definition sign (s : string) : bool * string :=
  match s with
  | String a s' => if decide (code a = 45) then (true, s') else if decide (code a = 43) then (false, s') else (false, s)
  | "" => (false, "")
  end.

(** [strconv.ParseInt(s, 0, 64)] *)
Definition ParseInt0 (s : string) : numError + Z :=
  if decide (s = "") then inl ErrSyntax else
  let '(neg, u) := sign s in
  match ParseUint0 u with
  | inl ErrSyntax => inl ErrSyntax
  | inl ErrRange => inl ErrRange
  | inr n =>
      if negb neg && bool_decide (9223372036854775808 ≤ n) then inl ErrRange
      else if neg && bool_decide (9223372036854775808 < n) then inl ErrRange
      else inr (if neg then - n else n)
  end.

(** [intValue.Set], with [numError] *)
Definition IntValue (s : string) : string + Z :=
  match ParseInt0 s with
  | inl ErrSyntax => inl "parse error"
  | inl ErrRange => inl "value out of range"
  | inr n => inr n
  end.

(** *** Durations *)

Definition two63 : Z := 9223372036854775808.

(** [leadingInt] *)
Fixpoint leadingInt (s : string) (x : Z) : option (Z * string) :=
  match s with
  | String a s' =>
      if is_digit a then
        if decide (two63 `div` 10 < x) then None
        else let x := x * 10 + (code a - 48) in
             if decide (two63 < x) then None else leadingInt s' x
      else Some (x, s)
  | "" => Some (x, s)
  end.

(** [leadingFraction]: digits that would overflow are dropped. *)
Fixpoint leadingFraction (s : string) (x : Z) (scale : f64) (overflow : bool) : Z * f64 * string :=
  match s with
  | String a s' =>
      if is_digit a then
        if overflow then leadingFraction s' x scale overflow
        else if decide ((two63 - 1) `div` 10 < x) then leadingFraction s' x scale true
        else let y := x * 10 + (code a - 48) in
             if decide (two63 < y) then leadingFraction s' x scale true
             else leadingFraction s' y (f64_mul scale (f64_of_Z 10)) false
      else (x, scale, s)
  | "" => (x, scale, s)
  end.

(** The unit: everything up to a dot or a digit. *)
Fixpoint unit_text (s : string) : string * string :=
  match s with
  | String a s' => if decide (code a = 46 ∨ is_digit a = true) then ("", s) else let '(u, r) := unit_text s' in (String a u, r)
  | "" => ("", "")
  end.

(** [unitMap]; the micro sign and the Greek letter mu in UTF-8 *)
Definition micro (a b : Z) : string := String (char a) (String (char b) "s").
Definition unit_of (u : string) : option Z :=
  if decide (u = "ns") then Some 1
  else if decide (u = "us" ∨ u = micro 194 181 ∨ u = micro 206 188) then Some 1000
  else if decide (u = "ms") then Some 1000000
  else if decide (u = "s") then Some second
  else if decide (u = "m") then Some (60 * second)
  else if decide (u = "h") then Some (3600 * second)
  else None.

(** [uint64(x)] of a float in range: towards zero. *)
Definition f64_trunc (x : f64) : Z :=
  match x with
  | SpecFloat.S754_finite s m e =>
      let n := if decide (0 ≤ e) then Z.pos m * 2 ^ e else Z.pos m `div` 2 ^ (- e) in
      if s then - n else n
  | _ => 0
  end.

(** One number with its unit. *)
Definition duration_part (s : string) : option (Z * string) :=
  match s with
  | "" => None
  | String a _ =>
      if decide (¬ (code a = 46 ∨ is_digit a = true)) then None else
      '(v, s1) ← leadingInt s 0;
      let pre := negb (bool_decide (String.length s = String.length s1)) in
      let '(f, scale, s2, post) :=
        match s1 with
        | String b s1' =>
            if decide (code b = 46) then
              let '(f, scale, s2) := leadingFraction s1' 0 (f64_of_Z 1) false in
              (f, scale, s2, negb (bool_decide (String.length s1' = String.length s2)))
            else (0, f64_of_Z 1, s1, false)
        | "" => (0, f64_of_Z 1, s1, false)
        end in
      if negb pre && negb post then None else
      let '(u, s3) := unit_text s2 in
      if decide (u = "") then None else
      unit ← unit_of u;
      if decide (two63 `div` unit < v) then None else
      let v := v * unit in
      if decide (0 < f) then
        let v := u64 (v + f64_trunc (f64_mul (f64_of_Z f) (f64_div (f64_of_Z unit) scale))) in
        if decide (two63 < v) then None else Some (v, s3)
      else Some (v, s3)
  end.

(** The sum of the parts; each takes a character at least. *)
Fixpoint duration_parts (fuel : nat) (s : string) (d : Z) : option Z :=
  match s, fuel with
  | "", _ => Some d
  | _, O => None
  | _, S fuel' =>
      '(v, s') ← duration_part s;
      let d := u64 (d + v) in
      if decide (two63 < d) then None else duration_parts fuel' s' d
  end.

(** [time.ParseDuration] *)
Definition ParseDuration (s : string) : option Z :=
  let '(neg, s) := sign s in
  if decide (s = "0") then Some 0
  else if decide (s = "") then None
  else
    d ← duration_parts (String.length s) s 0;
    if neg then Some (i64 (- d))
    else if decide (two63 - 1 < d) then None
    else Some d.

(** [durationValue.Set] *)
Definition DurationValue (s : string) : string + Z :=
  match ParseDuration s with Some d => inr d | None => inl "parse error" end.

Example durations_parse :
  ParseDuration "1h2m3.5s" = Some 3723500000000 ∧ ParseDuration "-1.5ms" = Some (-1500000) ∧ ParseDuration ".s" = None ∧
  ParseDuration "5" = None ∧ ParseDuration "9223372036854775807ns" = Some 9223372036854775807 ∧
  ParseDuration "9223372036854775808ns" = None ∧ ParseDuration "-9223372036854775808ns" = Some (-9223372036854775808).
Proof. vm_compute. tauto. Qed.

Example integers_parse :
  ParseInt0 "0x1F" = inr 31 ∧ ParseInt0 "-017" = inr (-15) ∧ ParseInt0 "1_000" = inr 1000 ∧ ParseInt0 "1__0" = inl ErrSyntax ∧
  ParseInt0 "0" = inr 0 ∧ ParseInt0 "08" = inl ErrSyntax ∧ ParseInt0 "9223372036854775808" = inl ErrRange ∧ ParseInt0 "+" = inl ErrSyntax.
Proof. vm_compute. tauto. Qed.

(** ** Values that were printed *)

Lemma digit_val_code a d : digit_val a = Some d → is_digit a = true ∧ Z.of_N d = code a - 48 ∧ digit_of a = Some (Z.of_N d).
Proof.
  intros E. assert (is_digit a = true) as Hd by (apply digit_is_digit; by rewrite E).
  assert (Z.of_N d = code a - 48) as Hc.
  { unfold digit_val in E. case_decide; [|done]. injection E as <-. unfold code, Ascii.nat_of_ascii. lia. }
  split; [done|]. split; [done|]. unfold digit_of. fold (is_digit a). by rewrite Hd, Hc.
Qed.

Lemma parse_digits_ge s acc n : parse_digits s acc = Some n → (acc ≤ n)%N.
Proof.
  revert acc. induction s as [|a s IH]; intros acc E; simpl in E; [simplify_eq; lia|].
  destruct (digit_val a); [|done]. apply IH in E. lia.
Qed.

Lemma uint_digits_dec s acc n :
  parse_digits s acc = Some n → Z.of_N n < 18446744073709551616 → uint_digits 10 s (Z.of_N acc) false = inr (Z.of_N n, false).
Proof.
  revert acc. induction s as [|a s IH]; intros acc E Hn; simpl in E; [by simplify_eq|].
  destruct (digit_val a) as [d|] eqn:Ea; [|done]. apply digit_val_code in Ea as (Hd & Hc & Ho).
  unfold is_digit, between in Hd. rewrite bool_decide_eq_true in Hd. pose proof (parse_digits_ge _ _ _ E) as Hge.
  cbn [uint_digits]. rewrite decide_False by lia. rewrite Ho. rewrite !decide_False by lia.
  replace (Z.of_N acc * 10 + Z.of_N d) with (Z.of_N (acc * 10 + d)) by lia. by apply IH.
Qed.

Lemma leadingInt_dec s acc n rest :
  parse_digits s acc = Some n → Z.of_N n ≤ two63 → match rest with "" => True | String a _ => is_digit a = false end →
  leadingInt (s +:+ rest) (Z.of_N acc) = Some (Z.of_N n, rest).
Proof.
  intros E Hn Hr. revert acc E. induction s as [|a s IH]; intros acc E; simpl in E.
  - simplify_eq. rewrite str_nil_app. destruct rest as [|b rest]; [done|]. cbn [leadingInt]. by rewrite Hr.
  - destruct (digit_val a) as [d|] eqn:Ea; [|done]. apply digit_val_code in Ea as (Hd & Hc & _).
    pose proof (parse_digits_ge _ _ _ E) as Hge. rewrite str_app_cons. cbn [leadingInt]. rewrite Hd.
    assert (Z.of_N acc ≤ two63 `div` 10) by (apply Z.div_le_lower_bound; lia). rewrite decide_False by lia. cbv zeta.
    rewrite <-Hc. replace (Z.of_N acc * 10 + Z.of_N d) with (Z.of_N (acc * 10 + d)) by lia. rewrite decide_False by lia. by apply IH.
Qed.

(** The decimal text of a natural number: no sign, no base prefix, digits only. *)
Lemma pretty_lead (n : N) : ∃ a t, pretty n = String a t ∧ is_digit a = true ∧ (n ≠ 0%N → code a ≠ 48) ∧ (n = 0%N → t = "").
Proof.
  destruct (decide (n = 0)%N) as [->|Hn]; [by exists (char 48), ""|].
  destruct (pretty_go_lead n "") as (a & t & E & Ha & H0); [lia|]. exists a, t. unfold pretty, pretty_N. by rewrite decide_False.
Qed.

Lemma parse_digits_pretty (n : N) : parse_digits (pretty n) 0 = Some n.
Proof. pose proof (parse_dec_pretty_N n) as E. unfold parse_dec in E. by destruct (pretty n). Qed.

Lemma ParseUint0_pretty (n : N) : Z.of_N n < 18446744073709551616 → ParseUint0 (pretty n) = inr (Z.of_N n).
Proof.
  intros Hn. destruct (pretty_lead n) as (a & t & E & Ha & H0 & Ht). unfold ParseUint0. rewrite decide_False by (by rewrite E).
  destruct (decide (n = 0)%N) as [->|Hne]; [done|].
  assert (base_prefix (pretty n) = (10, pretty n)) as ->.
  { rewrite E. unfold base_prefix. by destruct t; rewrite decide_False by auto. }
  pose proof (uint_digits_dec _ 0 n (parse_digits_pretty n) Hn) as Hd. cbn [Z.of_N] in Hd. by rewrite Hd.
Qed.

Lemma sign_digits a t : is_digit a = true → sign (String a t) = (false, String a t).
Proof. unfold is_digit, between. rewrite bool_decide_eq_true. intros Ha. unfold sign. by rewrite !decide_False by lia. Qed.

(** The text of an integer, signed, read as its sign and its digits. *)
Lemma sign_pretty (z : Z) rest : sign (pretty z +:+ rest) = (bool_decide (z < 0), pretty (Z.abs_N z) +:+ rest).
Proof.
  destruct z as [|p|p].
  - done.
  - rewrite bool_decide_false by lia. change (pretty (Z.pos p)) with (pretty (N.pos p)). simpl Z.abs_N.
    destruct (pretty_lead (N.pos p)) as (a & t & -> & Ha & _). rewrite str_app_cons. by apply sign_digits.
  - rewrite bool_decide_true by lia. change (pretty (Z.neg p)) with (String (char 45) (pretty (N.pos p))). done.
Qed.

Lemma IntValue_pretty (z : Z) : is_i64 z → IntValue (pretty z) = inr z.
Proof.
  unfold is_i64. intros Hz. unfold IntValue, ParseInt0. pose proof (sign_pretty z "") as Hs. rewrite !str_app_nil in Hs. rewrite Hs.
  rewrite decide_False by (destruct z as [|p|p]; [done| |done]; change (pretty (Z.pos p)) with (pretty (N.pos p));
    by destruct (pretty_lead (N.pos p)) as (a & t & -> & _)).
  rewrite ParseUint0_pretty by lia. rewrite N2Z.inj_abs_N. case_bool_decide as Hneg; simpl.
  - rewrite bool_decide_false by lia. simpl. f_equal. lia.
  - rewrite bool_decide_false by lia. simpl. f_equal. lia.
Qed.

Lemma DurationValue_pretty (z : Z) : is_i64 z → DurationValue (pretty z +:+ "ns") = inr z.
Proof.
  unfold is_i64. intros Hz. unfold DurationValue, ParseDuration. rewrite sign_pretty. set (n := Z.abs_N z). set (s := pretty n +:+ "ns").
  destruct (pretty_lead n) as (a & t & E & Ha & _). assert (s = String a (t +:+ "ns")) as Es by (unfold s; by rewrite E, str_app_cons).
  assert (duration_part s = Some (Z.of_N n, "")) as Hp.
  { rewrite Es at 1. cbn [duration_part]. rewrite decide_False by (intros H; apply H; by right). rewrite <-Es.
    assert (leadingInt s 0 = Some (Z.of_N n, "ns")) as ->.
    { unfold s. apply (leadingInt_dec _ 0); [apply parse_digits_pretty|unfold two63, n; lia|done]. }
    cbn [mbind option_bind]. assert (String.length s ≠ String.length "ns") as Hl.
    { rewrite Es. cbn [String.length]. rewrite str_length_app. simpl. lia. }
    rewrite bool_decide_false by done. simpl. rewrite Z.div_1_r. rewrite decide_False by (unfold two63, n; lia). by rewrite Z.mul_1_r. }
  rewrite (decide_False (P := s = "0")) by (intros H; apply (f_equal String.length) in H; rewrite Es in H; cbn [String.length] in H;
    rewrite str_length_app in H; simpl in H; lia).
  rewrite decide_False by (by rewrite Es).
  assert (duration_parts (String.length s) s 0 = Some (Z.of_N n)) as ->.
  { rewrite Es. cbn [String.length duration_parts]. rewrite <-Es, Hp. cbn [mbind option_bind]. rewrite Z.add_0_l.
    rewrite u64_id by (unfold is_u64, n; lia). cbv zeta. rewrite decide_False by (unfold two63, n; lia). by destruct (String.length _). }
  cbn [mbind option_bind]. case_bool_decide as Hneg.
  - unfold n. rewrite N2Z.inj_abs_N. rewrite i64_id by (unfold is_i64; lia). f_equal. lia.
  - rewrite decide_False by (unfold two63, n; lia). unfold n. rewrite N2Z.inj_abs_N. f_equal. lia.
Qed.

(** ** Flags that were written *)

(** A name a flag can have: not empty, no minus in front, no [=]. *)
Definition plain_name (name : string) : bool :=
  match name with
  | "" => false
  | String a s => negb (bool_decide (code a = 45)) && forallb (λ b, negb (bool_decide (code b = 61))) (String.list_ascii_of_string name)
  end.

Lemma split_eq_plain s v :
  forallb (λ b, negb (bool_decide (code b = 61))) (String.list_ascii_of_string s) = true →
  split_eq (s +:+ "=" +:+ v) = (s, Some v) ∧ split_eq s = (s, None).
Proof.
  induction s as [|a s IH]; intros Hs; [done|]. simpl in Hs. rewrite andb_true_iff, negb_true_iff, bool_decide_eq_false in Hs.
  destruct Hs as [Ha Hs]. destruct (IH Hs) as [E1 E2]. rewrite str_app_cons. cbn [split_eq]. rewrite !decide_False by done. rewrite E1, E2. done.
Qed.

Lemma classify_plain name v :
  plain_name name = true →
  classify ("-" +:+ name +:+ "=" +:+ v) = AFlag name (Some v) ∧ classify ("-" +:+ name) = AFlag name None.
Proof.
  destruct name as [|a s]; [done|]. unfold plain_name. cbn [String.list_ascii_of_string forallb].
  rewrite !andb_true_iff, !negb_true_iff, !bool_decide_eq_false. intros (Hm & He & Hs).
  destruct (split_eq_plain s v Hs) as [E1 E2]. change ("-" +:+ ?t) with (String (char 45) t). rewrite str_app_cons. unfold classify.
  change (is_minus (char 45)) with true. cbn [negb]. assert (is_minus a = false) as -> by (unfold is_minus; by apply bool_decide_false).
  cbn [flag_name]. rewrite !decide_False by lia. rewrite E1, E2. done.
Qed.

(** [-name=value] sets the flag; [-name value] does unless it is a boolean one, [-name] sets
    a boolean one. *)
Lemma parse_flag {S} (fs : list (Flag S)) name f v rest st st' :
  plain_name name = true → lookup_flag fs name = Some f → fl_Set f v st = inr st' →
  parse fs (("-" +:+ name +:+ "=" +:+ v) :: rest) st = parse fs rest st'.
Proof.
  intros Hn Hf Hs. cbn [parse]. rewrite (proj1 (classify_plain name v Hn)), Hf. destruct (fl_bool f); simpl; by rewrite Hs.
Qed.

Lemma parse_flag_arg {S} (fs : list (Flag S)) name f v rest st st' :
  plain_name name = true → lookup_flag fs name = Some f → fl_bool f = false → fl_Set f v st = inr st' →
  parse fs (("-" +:+ name) :: v :: rest) st = parse fs rest st'.
Proof. intros Hn Hf Hb Hs. cbn [parse]. rewrite (proj2 (classify_plain name v Hn)), Hf, Hb. by rewrite Hs. Qed.

Lemma parse_flag_true {S} (fs : list (Flag S)) name f rest st st' :
  plain_name name = true → lookup_flag fs name = Some f → fl_bool f = true → fl_Set f "true" st = inr st' →
  parse fs (("-" +:+ name) :: rest) st = parse fs rest st'.
Proof. intros Hn Hf Hb Hs. cbn [parse]. rewrite (proj2 (classify_plain name "" Hn)), Hf, Hb. simpl. by rewrite Hs. Qed.
