(* ===== verification/Commands.v ===== *)
(** * The commands (src/cmd/benchmark/main.go, src/cmd/broker/main.go)

    The command lines and what the programs do with them: the flag tables, the exit code
    and the output streams of the benchmark, the configuration and the start of the
    broker. *)

From S2P Require Import Prelude GoJson Protocol State Server BenchTopology BenchPlacement BenchPlan BenchConfig BenchLatency BenchStats BenchSummary BenchEngine BenchProtocol Bufio JsonText Flags.

(** ** The flags of the benchmark *)

(** The integer fields that are plain flags; durations are integers. *)
Inductive ifield : Type :=
| IPubConns | IConsConns | IConsChannels
| IMaxChannelsPerConn | IMaxConsumersPerChannel | IMaxPublishersPerChannel
| IPublishers | IConsumers | IMsgs | ISize | IPrefetch
| IDuration | IWarmup | IReport | IDrainTimeout.

#[export] Instance ifield_eq_dec : EqDecision ifield.
Proof. solve_decision. Defined.

Definition set_int (f : ifield) (v : Z) (c : Config) : Config :=
  let put g old := if decide (f = g) then v else old in
  mkConfig (cf_Addr c)
    (cf_Conns c) (put IPubConns (cf_PubConns c)) (put IConsConns (cf_ConsConns c))
    (cf_Channels c) (cf_PubChannels c) (put IConsChannels (cf_ConsChannels c))
    (cf_ConnsDist c) (cf_ChannelsDist c) (cf_PubChannelsDist c)
    (put IMaxChannelsPerConn (cf_MaxChannelsPerConn c)) (put IMaxConsumersPerChannel (cf_MaxConsumersPerChannel c))
    (put IMaxPublishersPerChannel (cf_MaxPublishersPerChannel c))
    (put IPublishers (cf_Publishers c)) (put IConsumers (cf_Consumers c)) (put IMsgs (cf_Msgs c)) (put ISize (cf_Size c))
    (cf_Ack c) (put IPrefetch (cf_Prefetch c))
    (put IDuration (cf_Duration c)) (put IWarmup (cf_Warmup c)) (put IReport (cf_Report c))
    (put IDrainTimeout (cf_DrainTimeout c)) (cf_Output c) (cf_Quiet c).

(** The other fields. *)
Definition set_rest (addr output : string) (ack quiet : bool) (c : Config) : Config :=
  mkConfig addr (cf_Conns c) (cf_PubConns c) (cf_ConsConns c) (cf_Channels c) (cf_PubChannels c) (cf_ConsChannels c)
    (cf_ConnsDist c) (cf_ChannelsDist c) (cf_PubChannelsDist c)
    (cf_MaxChannelsPerConn c) (cf_MaxConsumersPerChannel c) (cf_MaxPublishersPerChannel c)
    (cf_Publishers c) (cf_Consumers c) (cf_Msgs c) (cf_Size c) ack (cf_Prefetch c)
    (cf_Duration c) (cf_Warmup c) (cf_Report c) (cf_DrainTimeout c) output quiet.
Definition set_Addr (s : string) (c : Config) : Config := set_rest s (cf_Output c) (cf_Ack c) (cf_Quiet c) c.
Definition set_Output (s : string) (c : Config) : Config := set_rest (cf_Addr c) s (cf_Ack c) (cf_Quiet c) c.
Definition set_Ack (b : bool) (c : Config) : Config := set_rest (cf_Addr c) (cf_Output c) b (cf_Quiet c) c.
Definition set_Quiet (b : bool) (c : Config) : Config := set_rest (cf_Addr c) (cf_Output c) (cf_Ack c) b c.

Abbreviation state := (Config * AxisCursor)%type.

(** [fs.XVar(&cfg.Field, name, ...)]: the value is read, then stored in the field. *)
Definition var {V} (name : string) (isbool : bool) (read : string → string + V) (set : V → Config → Config) : Flag state :=
  mkFlag name isbool (λ s '(c, cur), match read s with inl e => inl e | inr v => inr (set v c, cur) end).
Definition StringVar (name : string) (set : string → Config → Config) : Flag state := var name false inr set.
Definition IntVar (name : string) (f : ifield) : Flag state := var name false IntValue (set_int f).
Definition BoolVar (name : string) (set : bool → Config → Config) : Flag state := var name true ParseBool set.
Definition DurationVar (name : string) (f : ifield) : Flag state := var name false DurationValue (set_int f).

(** [fs.Var] with a value of config.go *)
Definition of_Set (r : result string state) : string + state :=
  match r with Ok st => inr st | Err e => inl e | Crash => inl "" end.
Definition NewAxisInt (a : Axis) : Flag state := mkFlag (axis_name a) false (λ s st, of_Set (axis_Set a s st)).
Definition NewDistributionFlag : Flag state := mkFlag "distribution" false (λ s st, of_Set (distribution_Set s st)).

Definition bench_flags : list (Flag state) := [
  StringVar "addr" set_Addr;
  NewAxisInt AConns;
  IntVar "pub-conns" IPubConns;
  IntVar "cons-conns" IConsConns;
  NewAxisInt AChannels;
  NewAxisInt APubChannels;
  IntVar "cons-channels" IConsChannels;
  NewDistributionFlag;
  IntVar "max-channels-per-conn" IMaxChannelsPerConn;
  IntVar "max-consumers-per-channel" IMaxConsumersPerChannel;
  IntVar "max-publishers-per-channel" IMaxPublishersPerChannel;
  IntVar "publishers" IPublishers;
  IntVar "consumers" IConsumers;
  IntVar "msgs" IMsgs;
  IntVar "size" ISize;
  BoolVar "ack" set_Ack;
  IntVar "prefetch" IPrefetch;
  DurationVar "duration" IDuration;
  DurationVar "warmup" IWarmup;
  DurationVar "report" IReport;
  DurationVar "drain-timeout" IDrainTimeout;
  StringVar "output" set_Output;
  BoolVar "quiet" set_Quiet].

(** ** The benchmark *)

(** What the command prints, by what it says, and where. *)
Inductive text : Type :=
| TParse (msg : string)
| TUsage
| TArgs (args : list string)
| TConfig (e : ConfigError)
| TWarning (w : string)
| TRun (e : runError)
| TComplete (r : Result)
| TMarshal
| TSummary (y : Summary).
Inductive printed : Type := Stdout (t : text) | Stderr (t : text).

(** [json.Marshal] refuses a float that is not a number or infinite. *)
Definition f64_finite (x : f64) : bool :=
  match x with SpecFloat.S754_nan | SpecFloat.S754_infinity _ => false | _ => true end.
Definition latency_floats (l : LatencySummary) : list f64 := [ls_Min l; ls_Avg l; ls_Max l; ls_P50 l; ls_P95 l; ls_P99 l].
Definition summary_floats (y : Summary) : list f64 :=
  su_ConsumedRatePerSec y :: latency_floats (su_DeliveryLatency y) ++ latency_floats (su_AckLatency y) ++
  ((λ r, rr_P95Us r.2) <$> map_to_list (su_ByRole y)) ++
  (su_ByConn y ≫= λ r, [bc_PubRatePerSec r; bc_AvgDeliveryLatUs r]) ++ (bp_RatePerSec <$> su_ByPublishChannel y).
Definition marshals (y : Summary) : bool := forallb f64_finite (summary_floats y).

(** After [Run]. *)
Definition report (cfg : Config) (res : Result) : Z * list printed :=
  let done := if cf_Quiet cfg then [] else [Stderr (TComplete res)] in
  if negb (marshals (res_Summary res)) then (1, done ++ [Stderr TMarshal])
  else if decide (cf_Output cfg = "-") then (0, done ++ [Stderr (TSummary (res_Summary res))])
  else (0, done ++ [Stdout (TSummary (res_Summary res))]).

(** [run()]: the exit code and what is printed, by the command itself, on the way.
    [failf] of the flag package prints the error and the usage before [Parse] returns. *)
Definition run (nonce : string) (args : list string) : prog (Z * list printed) :=
  match parse bench_flags args (DefaultConfig, mkCursor "") with
  | Help => Ret (0, [Stderr TUsage])
  | Failed msg => Ret (2, [Stderr (TParse msg); Stderr TUsage; Stderr (TParse msg); Stderr TUsage])
  | Parsed (cfg, _) rest =>
      if decide (rest ≠ []) then Ret (2, [Stderr (TArgs rest); Stderr TUsage]) else
      match Validate cfg with
      | Crash => Panic
      | Err e => Ret (1, [Stderr (TConfig e); Stderr TUsage])
      | Ok _ =>
          let warned := (λ w, Stderr (TWarning w)) <$> Warnings cfg in
          r ← Run nonce cfg;
          match r with
          | inl e => Ret (1, warned ++ [Stderr (TRun e)])
          | inr res => let '(code, out) := report cfg res in Ret (code, warned ++ out)
          end
      end
  end.

(** ** Command lines round trip *)

(** A flag as it is written, with the change of the configuration it stands for. *)
Record setting := mkSetting { se_name : string; se_value : string; se_set : Config → Config }.

Definition written_as (l : list setting) : list string := (λ s, "-" +:+ se_name s +:+ "=" +:+ se_value s) <$> l.

Definition axis_setting (a : Axis) (c : Config) : list setting :=
  [mkSetting (axis_name a) (pretty (axis_value a c)) (set_axis_value a (axis_value a c));
   mkSetting "distribution" (axis_dist a c) (set_axis_dist a (axis_dist a c))].
Definition int_setting (name : string) (f : ifield) (v : Z) : setting := mkSetting name (pretty v) (set_int f v).
Definition duration_setting (name : string) (f : ifield) (v : Z) : setting := mkSetting name (pretty v +:+ "ns") (set_int f v).
Definition FormatBool (b : bool) : string := if b then "true" else "false".

(** Every field of a configuration. *)
Definition settings (c : Config) : list setting :=
  axis_setting AConns c ++ axis_setting AChannels c ++ axis_setting APubChannels c ++ [
  mkSetting "addr" (cf_Addr c) (set_Addr (cf_Addr c));
  int_setting "pub-conns" IPubConns (cf_PubConns c);
  int_setting "cons-conns" IConsConns (cf_ConsConns c);
  int_setting "cons-channels" IConsChannels (cf_ConsChannels c);
  int_setting "max-channels-per-conn" IMaxChannelsPerConn (cf_MaxChannelsPerConn c);
  int_setting "max-consumers-per-channel" IMaxConsumersPerChannel (cf_MaxConsumersPerChannel c);
  int_setting "max-publishers-per-channel" IMaxPublishersPerChannel (cf_MaxPublishersPerChannel c);
  int_setting "publishers" IPublishers (cf_Publishers c);
  int_setting "consumers" IConsumers (cf_Consumers c);
  int_setting "msgs" IMsgs (cf_Msgs c);
  int_setting "size" ISize (cf_Size c);
  mkSetting "ack" (FormatBool (cf_Ack c)) (set_Ack (cf_Ack c));
  int_setting "prefetch" IPrefetch (cf_Prefetch c);
  duration_setting "duration" IDuration (cf_Duration c);
  duration_setting "warmup" IWarmup (cf_Warmup c);
  duration_setting "report" IReport (cf_Report c);
  duration_setting "drain-timeout" IDrainTimeout (cf_DrainTimeout c);
  mkSetting "output" (cf_Output c) (set_Output (cf_Output c));
  mkSetting "quiet" (FormatBool (cf_Quiet c)) (set_Quiet (cf_Quiet c))].

(** The values fit their Go types, and the modes are modes. *)
Definition writable (c : Config) : Prop :=
  Forall is_i64 [cf_Conns c; cf_PubConns c; cf_ConsConns c; cf_Channels c; cf_PubChannels c; cf_ConsChannels c;
    cf_MaxChannelsPerConn c; cf_MaxConsumersPerChannel c; cf_MaxPublishersPerChannel c; cf_Publishers c; cf_Consumers c;
    cf_Msgs c; cf_Size c; cf_Prefetch c; cf_Duration c; cf_Warmup c; cf_Report c; cf_DrainTimeout c] ∧
  validateDistribution c = Ok tt.

(** A setting that is read back as what it stands for, whatever was read before. *)
Definition reads_back (s : setting) : Prop :=
  plain_name (se_name s) = true ∧ ∃ f, lookup_flag bench_flags (se_name s) = Some f ∧
    ∀ c cur, ∃ cur', fl_Set f (se_value s) (c, cur) = inr (se_set s c, cur').

Lemma parse_settings l rest c cur :
  Forall reads_back l →
  ∃ cur', parse bench_flags (written_as l ++ rest) (c, cur) = parse bench_flags rest (foldl (λ c s, se_set s c) c l, cur').
Proof.
  intros Hl. revert c cur. induction Hl as [|s l (Hn & f & Hf & Hs) Hl IH]; intros c cur; [by exists cur|].
  destruct (Hs c cur) as [cur1 E]. destruct (IH (se_set s c) cur1) as [cur2 E2]. exists cur2.
  unfold written_as. rewrite fmap_cons. cbn [app foldl]. by rewrite (parse_flag _ _ _ _ _ _ _ Hn Hf E).
Qed.

Lemma int_reads_back name f v :
  plain_name name = true → lookup_flag bench_flags name = Some (IntVar name f) → is_i64 v → reads_back (int_setting name f v).
Proof.
  intros Hn Hf Hv. split; [done|]. exists (IntVar name f). split; [done|]. intros c cur. exists cur. simpl. by rewrite IntValue_pretty.
Qed.

Lemma duration_reads_back name f v :
  plain_name name = true → lookup_flag bench_flags name = Some (DurationVar name f) → is_i64 v → reads_back (duration_setting name f v).
Proof.
  intros Hn Hf Hv. split; [done|]. exists (DurationVar name f). split; [done|]. intros c cur. exists cur.
  unfold DurationVar, var, duration_setting. cbn [fl_Set se_value]. by rewrite DurationValue_pretty.
Qed.

Lemma bool_reads_back name set b :
  plain_name name = true → lookup_flag bench_flags name = Some (BoolVar name set) → reads_back (mkSetting name (FormatBool b) (set b)).
Proof. intros Hn Hf. split; [done|]. exists (BoolVar name set). split; [done|]. intros c cur. exists cur. by destruct b. Qed.

Lemma string_reads_back name set s :
  plain_name name = true → lookup_flag bench_flags name = Some (StringVar name set) → reads_back (mkSetting name s (set s)).
Proof. intros Hn Hf. split; [done|]. exists (StringVar name set). split; [done|]. intros c cur. by exists cur. Qed.

(** An axis flag and the mode that binds to it. *)
Lemma parse_axis a x rest c cur :
  is_i64 (axis_value a x) → axis_dist a x = DistEven ∨ axis_dist a x = DistUneven →
  parse bench_flags (written_as (axis_setting a x) ++ rest) (c, cur) =
  parse bench_flags rest (foldl (λ c s, se_set s c) c (axis_setting a x), mkCursor (axis_name a)).
Proof.
  intros Hv Hd. unfold written_as, axis_setting. rewrite !fmap_cons, fmap_nil. cbn [app foldl se_name se_value se_set].
  rewrite (parse_flag _ _ (NewAxisInt a) _ _ _ (set_axis_value a (axis_value a x) c, mkCursor (axis_name a))).
  - apply (parse_flag _ _ NewDistributionFlag); [done|done|]. cbn [fl_Set NewDistributionFlag].
    assert (ToLower (axis_dist a x) = axis_dist a x) as Hl by (by destruct Hd as [-> | ->]).
    rewrite distribution_Set_axis by (unfold is_mode; by rewrite Hl). by rewrite Hl.
  - by destruct a.
  - by destruct a.
  - cbn [fl_Set NewAxisInt]. unfold axis_Set. by rewrite Atoi_pretty.
Qed.

Lemma written_app l l' : written_as (l ++ l') = written_as l ++ written_as l'.
Proof. apply fmap_app. Qed.

(** All fields set, nothing of the previous configuration is left. *)
Lemma settings_all c c0 : foldl (λ c s, se_set s c) c0 (settings c) = c.
Proof. destruct c, c0. reflexivity. Qed.

Lemma plain_settings c :
  writable c → Forall reads_back (drop 6 (settings c)).
Proof.
  intros [Hi _]. repeat (apply Forall_cons in Hi as [? Hi]). unfold settings, axis_setting. cbn [app drop].
  repeat (apply Forall_cons; split;
    [first [apply int_reads_back | apply duration_reads_back | apply bool_reads_back | apply string_reads_back]; first [reflexivity|assumption]|]).
  by apply Forall_nil.
Qed.

(** C23: Every configuration can be written as a command line, each field as a flag with its
    value, integers in decimal and durations in nanoseconds, and parsing that command line
    gives the configuration back, whatever defaults or earlier flags there were. *)
Theorem flags_roundtrip (c c0 : Config) (cur : AxisCursor) (rest : list string) :
  writable c →
  ∃ cur', parse bench_flags (written_as (settings c) ++ rest) (c0, cur) = parse bench_flags rest (c, cur').
Proof.
  intros Hw. pose proof (plain_settings c Hw) as Hp. destruct Hw as [Hi Hd]. pose proof (proj1 (validateDistribution_iff c) Hd) as Hm.
  assert (∀ a, is_i64 (axis_value a c)) as Ha by (intros a; eapply Forall_forall; [exact Hi|]; destruct a; simpl; set_solver).
  assert (settings c = axis_setting AConns c ++ axis_setting AChannels c ++ axis_setting APubChannels c ++ drop 6 (settings c)) as Hs by done.
  pose proof (settings_all c c0) as Hall. rewrite Hs in Hall |- *. rewrite !written_app, <-!app_assoc. rewrite !foldl_app in Hall.
  do 3 rewrite parse_axis by (apply Ha || apply Hm).
  destruct (parse_settings (drop 6 (settings c)) rest (foldl (λ c s, se_set s c) (foldl (λ c s, se_set s c) (foldl (λ c s, se_set s c) c0
    (axis_setting AConns c)) (axis_setting AChannels c)) (axis_setting APubChannels c)) (mkCursor (axis_name APubChannels)) Hp) as [cur' E].
  exists cur'. rewrite E. by rewrite Hall.
Qed.

(** ** Exit codes and streams *)

Definition stdout_of (l : list printed) : list text := omap (λ p, match p with Stdout t => Some t | Stderr _ => None end) l.
Definition stderr_of (l : list printed) : list text := omap (λ p, match p with Stderr t => Some t | Stdout _ => None end) l.

(** What the command line asks for. *)
Inductive request : Type :=
| Refused
| Usage
| Invalid (e : ConfigError)
| Benchmark (cfg : Config).

Definition request_of (args : list string) : option request :=
  match parse bench_flags args (DefaultConfig, mkCursor "") with
  | Help => Some Usage
  | Failed _ => Some Refused
  | Parsed (cfg, _) rest =>
      if decide (rest ≠ []) then Some Refused else
      match Validate cfg with Ok _ => Some (Benchmark cfg) | Err e => Some (Invalid e) | Crash => None end
  end.

Lemma warnings_stderr cfg : stdout_of ((λ w, Stderr (TWarning w)) <$> Warnings cfg) = [].
Proof. induction (Warnings cfg) as [|w l IH]; [done|]. apply IH. Qed.

Lemma stdout_app l l' : stdout_of (l ++ l') = stdout_of l ++ stdout_of l'.
Proof. apply omap_app. Qed.
Lemma stderr_app l l' : stderr_of (l ++ l') = stderr_of l ++ stderr_of l'.
Proof. apply omap_app. Qed.

(** Where the summary goes. *)
Lemma report_spec cfg res :
  let y := res_Summary res in
  let '(code, out) := report cfg res in
  (code = 0 ↔ marshals y = true) ∧ (code = 0 ∨ code = 1) ∧
  (code = 0 → if decide (cf_Output cfg = "-") then stdout_of out = [] ∧ TSummary y ∈ stderr_of out
              else stdout_of out = [TSummary y]) ∧
  (code = 1 → stdout_of out = []).
Proof.
  unfold report. destruct (marshals (res_Summary res)); simpl.
  - destruct (decide (cf_Output cfg = "-")); rewrite stdout_app; (split; [done|]); (split; [by left|]); (split; [|done]); intros _;
      destruct (cf_Quiet cfg); simpl; try split; try done; set_solver.
  - split; [done|]. split; [by right|]. split; [done|]. intros _. rewrite stdout_app. by destruct (cf_Quiet cfg).
Qed.

(** C22: The exit code of the benchmark command and what it leaves on its output: 2 exactly when
    the command line is refused, and then nothing is done; 0 for a request for help; 1 without
    any call for an invalid configuration; for a valid one 0 exactly when [Run] returned a result
    that can be written as JSON, and 1 otherwise.  Standard output carries the summary and
    nothing else when the code is 0, and nothing of the command's when it fails or when the CSV
    goes there (-output -), in which case the summary is on standard error. *)
Theorem run_exit (nonce : string) (args : list string) (tr : list ev) (code : Z) (out : list printed) :
  runs (run nonce args) tr (Done (code, out)) →
  match request_of args with
  | Some Refused => code = 2 ∧ tr = [] ∧ stdout_of out = []
  | Some Usage => code = 0 ∧ tr = [] ∧ stdout_of out = []
  | Some (Invalid e) => code = 1 ∧ tr = [] ∧ stdout_of out = [] ∧ TConfig e ∈ stderr_of out
  | Some (Benchmark cfg) =>
      ∃ r, runs (Run nonce cfg) tr (Done r) ∧
        match r with
        | inl e => code = 1 ∧ stdout_of out = [] ∧ TRun e ∈ stderr_of out
        | inr res =>
            let y := res_Summary res in
            (code = 0 ↔ marshals y = true) ∧ (code = 0 ∨ code = 1) ∧
            (code = 0 → if decide (cf_Output cfg = "-") then stdout_of out = [] ∧ TSummary y ∈ stderr_of out
                        else stdout_of out = [TSummary y]) ∧
            (code = 1 → stdout_of out = [])
        end
  | None => False
  end.
Proof.
  unfold run, request_of. destruct (parse bench_flags args (DefaultConfig, mkCursor "")) as [[cfg cur] rest| |msg].
  - case_decide; [by intros [-> [= -> ->]]%runs_inv|].
    destruct (Validate cfg) as [u|e|]; [| |by intros [_ ?]%runs_inv].
    + cbv zeta. intros (r & tr1 & tr2 & -> & HR & Hf)%runs_bind. exists r. destruct r as [e|res].
      * apply runs_inv in Hf as [-> [= -> ->]]. rewrite app_nil_r. split; [done|]. split; [done|].
        rewrite stdout_app, stderr_app, warnings_stderr. split; [done|]. set_solver.
      * pose proof (report_spec cfg res) as Hs. destruct (report cfg res) as [code' out'].
        apply runs_inv in Hf as [-> [= -> ->]]. rewrite app_nil_r. split; [done|]. cbv zeta.
        rewrite stdout_app, stderr_app, warnings_stderr. destruct Hs as (H1 & H2 & H3 & H4).
        split; [done|]. split; [done|]. split; [|done]. intros E. specialize (H3 E). case_decide; [|done]. destruct H3 as [? ?]. split; [done|]. apply elem_of_app. by right.
    + intros [-> [= -> ->]]%runs_inv. split_and!; [done..|]. set_solver.
  - by intros [-> [= -> ->]]%runs_inv.
  - by intros [-> [= -> ->]]%runs_inv.
Qed.

(** A short run that succeeds: ten messages, the CSV in a file. *)
Definition demo_args : list string := ["-msgs"; "10"; "-output=run.csv"; "-quiet"].

Lemma run_exit_witness : ∃ tr out y,
  runs (run "00ff" demo_args) tr (Done (0, out)) ∧ stdout_of out = [TSummary y].
Proof.
  assert (∃ out, (exec demo_env (run "00ff" demo_args)).2 = Done (0, out)) as [out Ho] by (eexists; vm_compute; reflexivity).
  pose proof (exec_runs demo_env (run "00ff" demo_args)) as Hr. rewrite Ho in Hr.
  pose proof (run_exit "00ff" demo_args _ 0 out Hr) as Hx.
  assert (∃ cfg, request_of demo_args = Some (Benchmark cfg) ∧ cf_Output cfg = "run.csv") as (cfg & Hq & Hout)
    by (eexists; split; vm_compute; reflexivity).
  rewrite Hq in Hx. destruct Hx as (r & _ & Hx). exists (exec demo_env (run "00ff" demo_args)).1, out.
  destruct r as [e|res]; [destruct Hx as [Hx _]; discriminate Hx|]. exists (res_Summary res). split; [exact Hr|].
  destruct Hx as (_ & _ & Hx & _). specialize (Hx eq_refl). rewrite Hout in Hx. exact Hx.
Defined.

Definition full_config : Config :=
  mkConfig "10.0.0.1:5672" 5 1 2 12 3 1 DistUneven DistEven DistUneven 4 0 2
    6 7 250 64 false 10 (90 * second) (5 * second) second (30 * second) "-" true.

Lemma flags_roundtrip_witness : ∃ cur, parse bench_flags (written_as (settings full_config)) (DefaultConfig, mkCursor "") = Parsed (full_config, cur) [].
Proof.
  destruct (flags_roundtrip full_config DefaultConfig (mkCursor "") []) as [cur E].
  - split; [|reflexivity]. repeat (apply Forall_cons; split; [split; vm_compute; [discriminate|reflexivity]|]). apply Forall_nil. exact I.
  - exists cur. rewrite app_nil_r in E. exact E.
Defined.

(** ** The broker *)

Definition broker_config : ServerConfig := mkServerConfig 10 10372 10.

(** [flag.String("addr", ":5672", ...)] and [flag.String("metrics-addr", ":9090", ...)] *)
Definition broker_flags : list (Flag (string * string)) := [
  mkFlag "addr" false (λ s st, inr (s, st.2));
  mkFlag "metrics-addr" false (λ s st, inr (st.1, s))].

(** [ListenAndServe]: the error of [net.Listen], or a server that accepts connections. *)
Definition ListenAndServe (listen : string → option string) (addr : string) (cfg : ServerConfig) : string + Sys :=
  match listen addr with
  | Some err => inl err
  | None => inr (Server.start cfg)
  end.

(** What [main] does: the process exits with a code and a log, or serves; the endpoint for
    the metrics is started before the broker listens. *)
Inductive broker_process : Type :=
| Exited (code : Z) (log : list string)
| Serving (addr : string) (metrics : option string) (s : Sys).

Definition broker_main (listen : string → option string) (args : list string) : broker_process :=
  match parse broker_flags args (":5672", ":9090") with
  | Help => Exited 0 []
  | Failed msg => Exited 2 []
  | Parsed (addr, metricsAddr) _ =>
      let metrics := if decide (metricsAddr ≠ "") then Some metricsAddr else None in
      match ListenAndServe listen addr broker_config with
      | inl err => Exited 0 ["MQ server started on " +:+ addr; err]
      | inr s => Serving addr metrics s
      end
  end.

(** Every way the process serves, it serves from the initial state with the fixed
    configuration: what is proved of reachable states holds of it. *)
Lemma broker_main_serves listen args addr metrics s :
  broker_main listen args = Serving addr metrics s → s = Server.start broker_config ∧ listen addr = None ∧ metrics ≠ Some "".
Proof.
  unfold broker_main, ListenAndServe. destruct (parse _ _ _) as [[a m] rest| |]; [|done|done].
  destruct (listen a) eqn:E; [done|]. intros [= <- <- <-]. split; [done|]. split; [done|]. case_decide; congruence.
Qed.

(** A broker that cannot listen ends as if all were well. *)
Lemma listen_failure_exits_0 err : broker_main (λ _, Some err) [] = Exited 0 ["MQ server started on :5672"; err].
Proof. done. Qed.
