(* ===== verification/Examples.v ===== *)
(** * The example clients (src/exampleClients)

    The publisher and the consumers as programs over the calls they make to the client
    library.  The library is not part of the repository: its answers are the environment's,
    and a theorem holds for all of them. *)

From S2P Require Import Prelude GoJson Protocol JsonText Bufio BenchTopology BenchEngine.

(** ** Calls and programs *)

Inductive worker : Type := workerB | workerC.

(** The calls of BenchEngine.v, and those only the examples make.  [Next] is a turn of
    [for msg := range incoming]: a delivery, or the end of the stream. *)
Inductive ecall : Type → Type :=
| Sdk {X} (c : call X) : ecall X
| Publish (ch : chan) (p : Protocol.Publish) : ecall (option string)
| Ack (ch : chan) (tag : Z) : ecall (option string)
| Nack (ch : chan) (tag : Z) (requeue : bool) : ecall (option string)
| Next (stream : Z) : ecall (option Deliver)
| Go (w : worker) (c : client) : ecall unit.

Inductive eprog (A : Type) : Type :=
| Ret (a : A)
| Do {X : Type} (c : ecall X) (k : X → eprog A)
| OutOfFuel.
Arguments Ret {A} a.
Arguments Do {A X} c k.
Arguments OutOfFuel {A}.

Fixpoint ebind {A B} (f : A → eprog B) (p : eprog A) : eprog B :=
  match p with
  | Ret a => f a
  | Do c k => Do c (λ x, ebind f (k x))
  | OutOfFuel => OutOfFuel
  end.
#[export] Instance eprog_ret : MRet eprog := λ A, Ret.
#[export] Instance eprog_bind : MBind eprog := λ A B, ebind.

Definition ask {X} (c : ecall X) : eprog X := Do c Ret.
Definition Println (line : string) : eprog unit := ask (Sdk (Log line)).

(** [x, err := call; if err != nil { log.Println(what, err); return }] *)
Definition try {X} (c : call (string + X)) (what : string) (k : X → eprog unit) : eprog unit :=
  r ← ask (Sdk c);
  match r with
  | inl err => Println (what +:+ err)
  | inr x => k x
  end.

(** [if err != nil { log.Println(what, err) }] *)
Definition logged (c : ecall (option string)) (what : string) : eprog unit :=
  err ← ask c;
  match err with
  | Some e => Println (what +:+ e)
  | None => Ret tt
  end.

(** ** The publisher *)

Definition address : string := "localhost:5672".
Definition config (name : string) : sdkConfig := mkSdk name "daniel" "123456789" 10 10372 10.

(** [string('0'+rune(i))] *)
Definition digit (i : Z) : string := String (char (48 + i)) "".

(** [json.Marshal] of a string: the body is a JSON text. *)
Definition body (i : Z) : option bytes := Some (String.list_byte_of_string (enc_string ("message number " +:+ digit i))).

Fixpoint publish_loop (ch : chan) (l : list Z) : eprog unit :=
  match l with
  | [] => Ret tt
  | i :: l' =>
      logged (Publish ch (mkPublish "emails" "email.sent" (body i))) "publish error: ";;
      publish_loop ch l'
  end.

Definition publisher : eprog unit :=
  try (Connect address (config "publisher")) "" (λ c,
  try (OpenChannel c) "open channel error: " (λ id,
  let channel := mkChan c id in
  try (DeclareExchange channel "dlx") "declare exchange error: " (λ _,
  try (DeclareQueue channel "dlq" "" "") "declare queue error: " (λ _,
  try (BindQueue channel "dlq" "dlx" "dead_emails") "bind queue error: " (λ _,
  try (DeclareExchange channel "emails") "declare exchange error: " (λ _,
  try (DeclareQueue channel "email_queue" "dlx" "dead_emails") "declare queue error: " (λ _,
  try (BindQueue channel "email_queue" "emails" "email.sent") "bind queue error: " (λ _,
  publish_loop channel (seqZ 0 3);;
  Println "Published 3 messages")))))))).

(** ** The consumers *)

Definition string_of_body (b : option bytes) : string := String.string_of_list_byte (default [] b).

Definition received_lines (name : string) (msg : Deliver) : eprog unit :=
  Println (name +:+ ", Received:");;
  Println (name +:+ ", Tag:      " +:+ pretty (Deliver_DeliveryTag msg));;
  Println (name +:+ ",  Body:     " +:+ string_of_body (Deliver_Body msg)).

(** The three bodies of the loops. *)
Definition settleA (channel : chan) (msg : Deliver) : eprog unit :=
  if decide (Deliver_DeliveryTag msg `mod` 3 = 0) then
    logged (Nack channel (Deliver_DeliveryTag msg) false) "ack error: "
  else
    received_lines "workerA" msg;;
    if decide (Deliver_DeliveryTag msg `mod` 3 = 0) then
      logged (Nack channel (Deliver_DeliveryTag msg) false) "ack error: "
    else logged (Ack channel (Deliver_DeliveryTag msg)) "ack error: ".

Definition settleB (channel : chan) (msg : Deliver) : eprog unit :=
  if decide (Deliver_DeliveryTag msg `mod` 3 = 0) then
    logged (Nack channel (Deliver_DeliveryTag msg) false) "ack error: "
  else
    received_lines "workerB" msg;;
    logged (Ack channel (Deliver_DeliveryTag msg)) "ack error: ".

Definition settleC (channel : chan) (msg : Deliver) : eprog unit :=
  received_lines "workerC" msg;;
  logged (Ack channel (Deliver_DeliveryTag msg)) "ack error: ".

(** [for msg := range incoming] *)
Fixpoint range (fuel : nat) (stream : Z) (f : Deliver → eprog unit) : eprog unit :=
  match fuel with
  | O => OutOfFuel
  | S fuel' =>
      m ← ask (Next stream);
      match m with
      | None => Ret tt
      | Some msg => f msg;; range fuel' stream f
      end
  end.

Definition serve (fuel : nat) (c : client) (queue : string) (settle : chan → Deliver → eprog unit) : eprog unit :=
  try (OpenChannel c) "open channel error: " (λ id,
  let channel := mkChan c id in
  Println ("Waiting for messages on " +:+ queue +:+ "...");;
  try (Consume channel queue) "consume error: " (λ incoming,
  range fuel incoming (settle channel))).

Definition run_workerB (fuel : nat) (c : client) : eprog unit := serve fuel c "email_queue" settleB.
Definition run_workerC (fuel : nat) (c : client) : eprog unit := serve fuel c "dlq" settleC.

Definition consumer (fuel : nat) : eprog unit :=
  try (Connect address (config "consumer")) "" (λ c,
  ask (Go workerB c);; ask (Go workerC c);;
  serve fuel c "email_queue" settleA).

(** ** Runs *)

Inductive ev : Type :=
| Ev (X : Type) (c : ecall X) (x : X).
Arguments Ev {X} c x.

(** The calls of a run with their answers, and whether it returned. *)
Inductive runs {A} : eprog A → list ev → option A → Prop :=
| runs_ret a : runs (Ret a) [] (Some a)
| runs_do X (c : ecall X) (k : X → eprog A) x tr o : runs (k x) tr o → runs (Do c k) (Ev c x :: tr) o
| runs_fuel : runs OutOfFuel [] None.

Fixpoint exec {A} (env : ∀ X, ecall X → X) (p : eprog A) : list ev * option A :=
  match p with
  | Ret a => ([], Some a)
  | Do c k => let '(tr, o) := exec env (k (env _ c)) in (Ev c (env _ c) :: tr, o)
  | OutOfFuel => ([], None)
  end.

Lemma erun_inv {A} (p : eprog A) tr o :
  runs p tr o →
  match p with
  | Ret a => tr = [] ∧ o = Some a
  | Do c k => ∃ x tr', tr = Ev c x :: tr' ∧ runs (k x) tr' o
  | OutOfFuel => tr = [] ∧ o = None
  end.
Proof. destruct 1; eauto. Qed.

Lemma erun_bind {A B} (p : eprog A) (f : A → eprog B) tr o :
  runs (p ≫= f) tr o →
  (∃ a tr1 tr2, tr = tr1 ++ tr2 ∧ runs p tr1 (Some a) ∧ runs (f a) tr2 o) ∨ runs p tr None ∧ o = None.
Proof.
  change (p ≫= f) with (ebind f p). revert tr. induction p as [a|X c k IH|]; intros tr Hr; simpl in Hr.
  - left. exists a, [], tr. split; [done|]. split; [constructor|done].
  - apply erun_inv in Hr as (x & tr' & -> & [(a & tr1 & tr2 & -> & H1 & H2)|[H1 ->]]%IH).
    + left. exists a, (Ev c x :: tr1), tr2. split; [done|]. split; [by constructor|done].
    + right. split; [by constructor|done].
  - right. apply erun_inv in Hr as [-> ->]. split; [constructor|done].
Qed.

Lemma exec_erun {A} env (p : eprog A) : runs p (exec env p).1 (exec env p).2.
Proof.
  induction p as [a|X c k IH|]; simpl; [constructor| |constructor].
  specialize (IH (env X c)). destruct (exec env (k (env X c))) as [tr o]. by constructor.
Qed.

(** ** What a run asks for and gets *)

Definition some_call : Type := sigT ecall.
Definition the {X} (c : ecall X) : some_call := existT X c.

(** The calls of a run but for the log, and what its streams gave it, in order. *)
Definition requests (tr : list ev) : list some_call :=
  omap (λ e, match e with Ev (Sdk (Log _)) _ => None | Ev c _ => Some (the c) end) tr.
Definition answers (tr : list ev) : list (option Deliver) :=
  omap (λ e, match e with Ev c x => match c in ecall X return X → option (option Deliver) with Next _ => Some | _ => λ _, None end x end) tr.

Lemma requests_app tr tr' : requests (tr ++ tr') = requests tr ++ requests tr'.
Proof. apply omap_app. Qed.
Lemma answers_app tr tr' : answers (tr ++ tr') = answers tr ++ answers tr'.
Proof. apply omap_app. Qed.

Lemma logged_inv (c : ecall (option string)) what tr o :
  runs (logged c what) tr o → o = Some tt ∧ ∃ x l, tr = Ev c x :: l ∧ requests l = [] ∧ answers l = [].
Proof.
  intros (x & tr' & -> & Hk)%erun_inv. destruct x as [e|].
  - apply erun_inv in Hk as ([] & tr2 & -> & [-> ->]%erun_inv). split; [done|]. by eexists _, _.
  - apply erun_inv in Hk as [-> ->]. split; [done|]. by eexists _, _.
Qed.

(** A run of [try]: the call, then the failure is logged and nothing follows, or it goes on. *)
Lemma try_inv {X} (cl : call (string + X)) what k tr o :
  runs (try cl what k) tr o →
  (∃ e, tr = [Ev (Sdk cl) (inl e); Ev (Sdk (Log (what +:+ e))) tt] ∧ o = Some tt) ∨
  (∃ x tr', tr = Ev (Sdk cl) (inr x) :: tr' ∧ runs (k x) tr' o).
Proof.
  intros (x & tr' & -> & Hk)%erun_inv. destruct x as [e|x]; [left|right; eauto].
  apply erun_inv in Hk as ([] & tr2 & -> & [-> ->]%erun_inv). eauto.
Qed.

(** ** What the consumers do with a delivery *)

Inductive verdict : Type := Acked | Nacked (requeue : bool).

(** The call a verdict on a delivery stands for. *)
Definition settle_call (ch : chan) (d : Deliver) (v : verdict) : some_call :=
  match v with
  | Acked => the (Ack ch (Deliver_DeliveryTag d))
  | Nacked requeue => the (Nack ch (Deliver_DeliveryTag d) requeue)
  end.

(** What the loops are meant to do. *)
Definition policyAB (d : Deliver) : verdict := if decide (Deliver_DeliveryTag d `mod` 3 = 0) then Nacked false else Acked.
Definition policyC (d : Deliver) : verdict := Acked.

(** A program that receives nothing, makes exactly these calls, whatever they answer, and returns. *)
Definition sends (p : eprog unit) (l : list some_call) : Prop :=
  ∀ tr o, runs p tr o → o = Some tt ∧ answers tr = [] ∧ requests tr = l.

Lemma sends_seq p q l l' : sends p l → sends q l' → sends (p;; q) (l ++ l').
Proof.
  intros Hp Hq tr o [(a & tr1 & tr2 & -> & H1 & H2)|[H1 _]]%erun_bind.
  - destruct (Hp _ _ H1) as (_ & E1 & E2), (Hq _ _ H2) as (-> & E3 & E4). by rewrite answers_app, requests_app, E1, E2, E3, E4.
  - by destruct (Hp _ _ H1).
Qed.

Lemma sends_Println s : sends (Println s) [].
Proof. intros tr o (x & tr' & -> & [-> ->]%erun_inv)%erun_inv. by destruct x. Qed.

Lemma sends_verdict ch d v what :
  sends (match v with
         | Acked => logged (Ack ch (Deliver_DeliveryTag d)) what
         | Nacked requeue => logged (Nack ch (Deliver_DeliveryTag d) requeue) what
         end) [settle_call ch d v].
Proof.
  intros tr o. destruct v; intros (-> & x & l & -> & E1 & E2)%logged_inv;
    change (?e :: l) with ([e] ++ l); by rewrite answers_app, requests_app, E1, E2.
Qed.

Lemma sends_received name msg : sends (received_lines name msg) [].
Proof. apply (sends_seq _ _ [] []); [apply sends_Println|]. apply (sends_seq _ _ [] []); apply sends_Println. Qed.

Lemma settleA_sends ch d : sends (settleA ch d) [settle_call ch d (policyAB d)].
Proof.
  unfold settleA, policyAB. case_decide; [apply (sends_verdict ch d (Nacked false))|].
  apply (sends_seq _ _ [] _); [apply sends_received|]. apply (sends_verdict ch d Acked).
Qed.
Lemma settleB_sends ch d : sends (settleB ch d) [settle_call ch d (policyAB d)].
Proof.
  unfold settleB, policyAB. case_decide; [apply (sends_verdict ch d (Nacked false))|].
  apply (sends_seq _ _ [] _); [apply sends_received|]. apply (sends_verdict ch d Acked).
Qed.
Lemma settleC_sends ch d : sends (settleC ch d) [settle_call ch d (policyC d)].
Proof. unfold settleC, policyC. apply (sends_seq _ _ [] _); [apply sends_received|]. apply (sends_verdict ch d Acked). Qed.

(** The calls of the turns that received [ds]: the next delivery of the stream, then its
    verdict on the channel. *)
Definition turns (policy : Deliver → verdict) (ch : chan) (stream : Z) (ds : list Deliver) : list some_call :=
  concat ((λ d, [the (Next stream); settle_call ch d (policy d)]) <$> ds).

(** A loop over a stream: turn by turn until the stream ends, or until [fuel] deliveries
    were received. *)
Definition drains (policy : Deliver → verdict) (ch : chan) (stream : Z) (fuel : nat) (tr : list ev) (o : option unit) : Prop :=
  ∃ ds,
    o = Some tt ∧ (length ds < fuel)%nat ∧ answers tr = (Some <$> ds) ++ [None] ∧
      requests tr = turns policy ch stream ds ++ [the (Next stream)] ∨
    o = None ∧ length ds = fuel ∧ answers tr = Some <$> ds ∧ requests tr = turns policy ch stream ds.

Lemma range_drains policy ch f fuel stream tr o :
  (∀ d, sends (f d) [settle_call ch d (policy d)]) → runs (range fuel stream f) tr o → drains policy ch stream fuel tr o.
Proof.
  intros Hf. revert tr. induction fuel as [|fuel IH]; intros tr; cbn [range].
  { intros [-> ->]%erun_inv. exists []. by right. }
  intros (x & tr' & -> & Hk)%erun_inv. destruct x as [d|].
  2: { apply erun_inv in Hk as [-> ->]. exists []. left. split_and!; [done|simpl; lia|done..]. }
  apply (erun_bind (f d) (λ _, range fuel stream f)) in Hk as [([] & tr1 & tr2 & -> & H1 & H2)|[H1 _]]; [|by destruct (Hf d _ _ H1)].
  destruct (Hf d _ _ H1) as (_ & E1 & E2), (IH _ H2) as [ds Hds]. exists (d :: ds). unfold turns in *.
  change (?e :: tr1 ++ tr2) with ([e] ++ tr1 ++ tr2). rewrite !answers_app, !requests_app, E1, E2.
  destruct Hds as [(-> & ? & -> & ->)|(-> & ? & -> & ->)]; [left|right]; split_and!; try done; simpl; lia.
Qed.

(** The setup call that failed, and the line that says so. *)
Definition gave_up (tr : list ev) : Prop :=
  ∃ tr0 X (c : call (string + X)) what e, tr = tr0 ++ [Ev (Sdk c) (inl e); Ev (Sdk (Log (what +:+ e))) tt].

Lemma gave_up_cons e tr : gave_up tr → gave_up (e :: tr).
Proof. intros (tr0 & X & c & what & err & ->). by exists (e :: tr0), X, c, what, err. Qed.

Lemma gave_up_here X (cl : call (string + X)) what e : gave_up [Ev (Sdk cl) (inl e); Ev (Sdk (Log (what +:+ e))) tt].
Proof. by exists [], X, cl, what, e. Qed.

(** What a consumer on client [c] does: it opens a channel and consumes [queue] on it, and
    then settles what the stream it was given brings, on that channel, until the stream
    ends; or the library refuses the channel or the consumer, and it returns with a line
    that says so and no settlement. *)
Definition settles (policy : Deliver → verdict) (queue : string) (c : client) (fuel : nat) (tr : list ev) (o : option unit) : Prop :=
  (∃ id stream line tr', tr = Ev (Sdk (OpenChannel c)) (inr id) :: Ev (Sdk (Log line)) tt ::
       Ev (Sdk (Consume (mkChan c id) queue)) (inr stream) :: tr' ∧
     drains policy (mkChan c id) stream fuel tr' o) ∨
  (o = Some tt ∧ gave_up tr ∧ answers tr = [] ∧
   ∃ id, requests tr = [the (Sdk (OpenChannel c))] ∨
         requests tr = [the (Sdk (OpenChannel c)); the (Sdk (Consume (mkChan c id) queue))]).

Lemma serve_settles policy c fuel queue settle tr o :
  (∀ ch d, sends (settle ch d) [settle_call ch d (policy d)]) →
  runs (serve fuel c queue settle) tr o → settles policy queue c fuel tr o.
Proof.
  intros Hs [(e & -> & ->)|(id & tr1 & -> & Hk)]%try_inv.
  { right. split_and!; [done|apply gave_up_here|done|exists 0; by left]. }
  apply erun_inv in Hk as ([] & tr2 & -> & Hk). apply try_inv in Hk as [(e & -> & ->)|(stream & tr3 & -> & Hk)].
  - right. split_and!; [done|by apply gave_up_cons, gave_up_cons, gave_up_here|done|exists id; by right].
  - left. eexists id, stream, _, tr3. split; [done|]. by eapply range_drains.
Qed.

(** C24: What the three example consumers do, whatever the client library answers.  The main
    one connects, starts the two workers on its client and consumes email_queue, as
    worker B does; worker C consumes dlq.  Each opens its own channel and, on that channel
    and in the order of its stream, settles every delivery it receives with one call before it
    asks for the next, also when a settlement fails: on email_queue the tags divisible by three
    are refused without requeueing, so that the broker dead-letters them, and all others are
    acknowledged; on dlq all are.  A consumer returns only when its stream has ended or when the
    connection, the channel or the consumer was refused, and then without any settlement. *)
Theorem examples_settle fuel tr o :
  (runs (consumer fuel) tr o →
     (∃ c tr', tr = Ev (Sdk (Connect address (config "consumer"))) (inr c) :: Ev (Go workerB c) tt ::
        Ev (Go workerC c) tt :: tr' ∧ settles policyAB "email_queue" c fuel tr' o) ∨
     o = Some tt ∧ gave_up tr ∧ requests tr = [the (Sdk (Connect address (config "consumer")))]) ∧
  (∀ c, runs (run_workerB fuel c) tr o → settles policyAB "email_queue" c fuel tr o) ∧
  (∀ c, runs (run_workerC fuel c) tr o → settles policyC "dlq" c fuel tr o).
Proof.
  split; [|split; intros c; apply serve_settles; [apply settleB_sends|apply settleC_sends]].
  intros [(e & -> & ->)|(c & tr1 & -> & Hk)]%try_inv; [right; split_and!; [done|apply gave_up_here|done]|left].
  apply erun_inv in Hk as ([] & tr2 & -> & Hk). apply erun_inv in Hk as ([] & tr3 & -> & Hk).
  exists c, tr3. split; [done|]. eapply serve_settles; [|exact Hk]. apply settleA_sends.
Qed.

(** ** What the publisher asks for *)

Definition setup_calls (c : client) (id : Z) : list some_call :=
  let channel := mkChan c id in [
    the (Sdk (Connect address (config "publisher")));
    the (Sdk (OpenChannel c));
    the (Sdk (DeclareExchange channel "dlx"));
    the (Sdk (DeclareQueue channel "dlq" "" ""));
    the (Sdk (BindQueue channel "dlq" "dlx" "dead_emails"));
    the (Sdk (DeclareExchange channel "emails"));
    the (Sdk (DeclareQueue channel "email_queue" "dlx" "dead_emails"));
    the (Sdk (BindQueue channel "email_queue" "emails" "email.sent"))].
Definition publish_calls (ch : chan) (l : list Z) : list some_call :=
  (λ i, the (Publish ch (mkPublish "emails" "email.sent" (body i)))) <$> l.

(** A publish that fails is logged, and the next one is tried. *)
Lemma publish_loop_calls ch l tr o : runs (publish_loop ch l) tr o → o = Some tt ∧ requests tr = publish_calls ch l.
Proof.
  revert tr. induction l as [|i l IH]; intros tr; cbn [publish_loop]; [by intros [-> ->]%erun_inv|].
  intros [(a & tr1 & tr2 & -> & H1 & H2)|[H1 _]]%erun_bind.
  - apply logged_inv in H1 as (_ & x & l1 & -> & E & _). apply IH in H2 as [-> E2]. split; [done|].
    rewrite requests_app. change (?e :: l1) with ([e] ++ l1). rewrite requests_app, E, E2. done.
  - by apply logged_inv in H1 as [? _].
Qed.

(** The call [n] of the setup: it fails and ends the run, or the run goes on. *)
Ltac next_setup Hk Hstop Hg c id n :=
  apply try_inv in Hk as [(? & -> & ->)|([] & ? & -> & Hk)];
    [apply (Hstop n c id); [lia|done|repeat first [apply Hg|apply gave_up_cons]|done]|].

(** The example publisher returns, and asks for its topology in an order in which every
    call finds what it refers to: exchanges and queues before their bindings, the dead-letter
    exchange, queue and binding before the queue that names them, all before the messages.  It
    stops at the first call of the setup that fails, with a line that says so and nothing
    published; a message that cannot be published does not keep the others back. *)
Theorem publisher_calls tr o :
  runs publisher tr o →
  o = Some tt ∧ ∃ c id,
    requests tr = setup_calls c id ++ publish_calls (mkChan c id) [0; 1; 2] ∨
    (∃ k, (1 ≤ k ≤ 8)%nat ∧ requests tr = take k (setup_calls c id)) ∧ gave_up tr.
Proof.
  assert (∀ k c id tr o, (1 ≤ k ≤ 8)%nat → o = Some tt → gave_up tr → requests tr = take k (setup_calls c id) →
    o = Some tt ∧ ∃ c id, requests tr = setup_calls c id ++ publish_calls (mkChan c id) [0; 1; 2] ∨
      (∃ k, (1 ≤ k ≤ 8)%nat ∧ requests tr = take k (setup_calls c id)) ∧ gave_up tr) as Hstop.
  { intros k c id tr' o' Hk -> Hg Hr. split; [done|]. exists c, id. right. split; [by exists k|done]. }
  pose proof gave_up_here as Hg.
  unfold publisher. intros [(e & -> & ->)|(c & tr1 & -> & Hk)]%try_inv.
  { apply (Hstop 1%nat 0%nat 0); [lia|done|apply Hg|done]. }
  apply try_inv in Hk as [(e & -> & ->)|(id & tr2 & -> & Hk)].
  { apply (Hstop 2%nat c 0); [lia|done|by apply gave_up_cons, Hg|done]. }
  cbv zeta in Hk.
  next_setup Hk Hstop Hg c id 3%nat. next_setup Hk Hstop Hg c id 4%nat. next_setup Hk Hstop Hg c id 5%nat.
  next_setup Hk Hstop Hg c id 6%nat. next_setup Hk Hstop Hg c id 7%nat. next_setup Hk Hstop Hg c id 8%nat.
  apply erun_bind in Hk as [([] & tr9 & tr10 & -> & H1 & H2)|[H1 _]]; [|by apply publish_loop_calls in H1 as [? _]].
  apply publish_loop_calls in H1 as [_ E]. apply erun_inv in H2 as ([] & tr11 & -> & [-> ->]%erun_inv).
  split; [done|]. exists c, id. left. do 8 (change (requests (?e :: ?l)) with (requests [e] ++ requests l)).
  rewrite requests_app, E. done.
Qed.

(** The bodies are JSON strings, which a reader gets back. *)
Lemma body_text i : 0 ≤ i < 3 → read (enc_string ("message number " +:+ digit i)) = Some (JStr ("message number " +:+ digit i)).
Proof. intros Hi. assert (i = 0 ∨ i = 1 ∨ i = 2) as [-> | [-> | ->]] by lia; vm_compute; reflexivity. Qed.

(** An environment in which every call succeeds and the stream holds nothing more. *)
Definition calm_call (X : Type) (c : call X) : X :=
  match c in call X return X with
  | Connect _ _ => inr 0%nat | Close _ => tt | OpenChannel _ => inr 7 | DeclareExchange _ _ => inr tt | DeclareQueue _ _ _ _ => inr tt
  | BindQueue _ _ _ _ => inr tt | Consume _ _ => inr 1 | Create _ => inr 0%nat | FileClose _ => None | NewCSV _ => inr tt | CsvClose => None
  | GoConsumer _ => tt | GoPublisher _ => tt | CloseStop => tt | WaitPublishers => tt | WaitConsumers => tt | Select _ => PubDone
  | BeginMeasured => 0 | GoSampler _ => tt | StopSampler => tt | WaitSampler => tt | Now => 0 | NextSeq => 1 | CtxErr => None
  | Stats => BenchStats.newStats (mkTopology [] [] [] []) 0 | StoreDrops _ => tt | SleepOrDone => true | CloseErrCh => [] | Log _ => tt
  end.
Definition calm (next : option Deliver) (X : Type) (c : ecall X) : X :=
  match c in ecall X return X with
  | Sdk c => calm_call _ c
  | Publish _ _ => None | Ack _ _ => None | Nack _ _ _ => None
  | Next _ => next
  | Go _ _ => tt
  end.

Lemma publisher_calls_witness :
  (exec (calm None) publisher).2 = Some tt ∧ length (requests (exec (calm None) publisher).1) = 11%nat ∧
  ∃ c id, requests (exec (calm None) publisher).1 = setup_calls c id ++ publish_calls (mkChan c id) [0; 1; 2].
Proof.
  assert (length (requests (exec (calm None) publisher).1) = 11%nat) as Hl by (vm_compute; reflexivity).
  destruct (publisher_calls _ _ (exec_erun (calm None) publisher)) as (Ho & c & id & [E|[(k & Hk & E) _]]).
  - split; [exact Ho|]. split; [exact Hl|]. exists c, id. exact E.
  - rewrite E, length_take in Hl. simpl in Hl. lia.
Defined.

(** A stream that ends at once, and the tag 3 again and again until the fuel is used up. *)
Lemma examples_settle_witness :
  settles policyC "dlq" 0%nat 2 (exec (calm None) (run_workerC 2 0%nat)).1 (Some tt) ∧
  requests (exec (calm (Some (mkDeliver 3 None "emails" "email.sent" ""))) (consumer 2)).1 =
    [the (Sdk (Connect address (config "consumer"))); the (Go workerB 0%nat); the (Go workerC 0%nat);
     the (Sdk (OpenChannel 0%nat)); the (Sdk (Consume (mkChan 0%nat 7) "email_queue"));
     the (Next 1); the (Nack (mkChan 0%nat 7) 3 false); the (Next 1); the (Nack (mkChan 0%nat 7) 3 false)] ∧
  ∃ c tr', settles policyAB "email_queue" c 2 tr' None.
Proof.
  split; [exact (proj2 (proj2 (examples_settle 2 _ _)) 0%nat (exec_erun (calm None) (run_workerC 2 0%nat)))|].
  split; [vm_compute; reflexivity|].
  destruct (proj1 (examples_settle 2 _ _) (exec_erun (calm (Some (mkDeliver 3 None "emails" "email.sent" ""))) (consumer 2)))
    as [(c & tr' & _ & Hs)|[Ho _]]; [exists c, tr'; exact Hs|discriminate Ho].
Defined.
